(* ===== verification/_CoqProject ===== *)
-Q . S2P
Prelude.v
BTree.v
Utf8.v
Event.v
Truncate.v
Codec.v
CodecGrammar.v
Float.v
Backoff.v
HexUuid.v
EventProps.v
Store.v
Memory.v
MemoryProps.v
Ledger.v
Sql.v
SqlTable.v
SqlLedger.v
Samples.v
Sqlite.v
SqliteSim.v
SqliteProps.v
SqliteExamples.v
Postgres.v
PostgresSim.v
PgLedger.v
PostgresProps.v
PgClaims.v
PgSessions.v
PostgresExamples.v
Failures.v
Envelopes.v
Stores.v
Metrics.v
Dispatch.v
DispatchSafety.v
Guided.v
DispatchProps.v
DispatchExamples.v
Fleet.v
FleetShutdown.v
PgShared.v
DispatchOnce.v
DispatchBudget.v
DispatchIntegrity.v
Observe.v
Outage.v
Driver.v
Testing.v
CoreTests.v
MemoryTests.v
SqliteTests.v
PostgresTests.v
DispatchTests.v
BreakerTests.v
IntegrationTests.v
PgIntegrationTests.v
UnitTests.v
