(* ===== verification/Prelude.v ===== *)
(** * outbox-kit: a verification library for the transactional outbox

    The program (Rust, [src/src]) is a transactional outbox: producers append
    events to a store, a dispatcher polls the store and hands each due event to
    the caller's sender through a circuit breaker, and records the outcome.
    Three stores implement one trait: in process, SQLite and Postgres.

    ** The parts and their files

    - [Prelude]: machine integers at their width, bytes, [result], the
      state-and-error monad [M] the store calls are written in.  [BTree]: the
      [BTreeSet] and [BTreeMap] of the standard library as strictly sorted
      lists, and sorting.  [Utf8]: validity and character boundaries of a
      string, which is a list of bytes.  [Float]: binary64, on [SpecFloat].
    - [Event] ([event.rs], [error.rs]): ids, topics, [OutboxEvent], the errors,
      the clock; [EventProps] has its theorems.
    - [Truncate] ([store.rs], the two truncation helpers), [Codec]
      ([codec.rs]) and [CodecGrammar], the format the codec accepts.
    - [Backoff] ([backoff.rs]): the schedule, exhaustion, the jitter seed.
    - [Store] ([store.rs]): the trait as the class [OutboxStore], what a client
      may rely on as the classes [OutboxLaws] and (of a store that does not
      fail) [OutboxFinal], and [Outbox], the reference store: one map of rows
      with their stamps, the set of delivered ids, and nothing else.  [call]
      and [session] run a list of calls on any store.
    - [Memory] ([memory.rs]): [Inner] has the code's three indexes;
      [MemoryProps] proves it against [Outbox].
    - [Ledger]: the whole contract of [store.rs], dead letters included, and
      what a faulty store may answer instead of it ([answers],
      [faulty_session]).
    - [Sql]: what both SQL stores share.  A connection [Conn] has the tables
      and the script of what the engine will answer: each statement is done,
      fails, or takes effect with its reply lost.  [keeps], [steady] and
      [atomic] are the composition rules of a method under that script.
      [SqlTable] relates a table of rows to [Outbox], [SqlLedger] the table of
      letters to [Ledger].  [Sqlite] ([sqlite/mod.rs], [schema.sql]) and
      [Postgres] ([postgres/mod.rs], [schema.sql]) have one definition per
      method and per statement; [SqliteSim] and [PostgresSim] the simulation of
      the ledger call by call, [SqliteProps] and [PostgresProps] their
      theorems.  [PgLedger] is the ledger as Postgres keeps it, delivered events
      beside it, which a late failure makes live again; it simulates the store on
      every call its columns represent, whatever the state.  [PgClaims] lets several sessions hold [FOR UPDATE SKIP LOCKED]
      claims at once.  [PgSessions] is the Postgres server with any number of
      clients, a statement or a commit at a time, with row locks, rollbacks and
      lost connections, simulated by one where every call is a single step.
      [Failures] is the failure counter of the three stores, [Envelopes] what a
      store may hold of what was appended to it, [Stores] compares the three.
    - [Metrics] ([metrics.rs], [metrics_noop.rs]): registration and emission.
    - [Dispatch] ([dispatch.rs]): batch tuning and [process] as functions, the
      running dispatcher as a step relation on [World].  [run] is at a [place];
      each spawned task is in a [phase]; a step is one store call, one breaker
      decision or the end of a send, and the environment's steps (producers,
      operators, other dispatchers, a shutdown, a crash and restart) interleave
      with all of them.
      [DispatchSafety], [DispatchProps], [DispatchOnce], [DispatchBudget] and
      [DispatchIntegrity] have its theorems; [Guided] is the dispatcher in an
      environment that makes only certain calls, which the last two share.
      [Fleet] is any number of dispatchers on one store, each of which sees the
      others as environment, and [FleetShutdown] how they wind down.
      [PgShared] puts a fleet on one Postgres outbox, every call under the row
      locks some other session holds at that moment.  [Observe] labels the steps
      with what they do and emit and follows the emissions into the registry of
      [Metrics].  [Outage] puts the dispatcher under a circuit breaker of the
      documented behaviour.  [Driver] is one schedule of the dispatcher as a
      function, with its log: a scheduler for the tests, which models no code of
      its own.
    - [HexUuid], [Samples], [SqliteExamples], [PostgresExamples] and
      [DispatchExamples]: concrete instances of the parameters, and runs on
      which the theorems with hypotheses are applied.
    - [Testing], [CoreTests], [MemoryTests], [SqliteTests], [PostgresTests],
      [DispatchTests]: the [#[cfg(test)]] modules of [src/src], statement by
      statement; [IntegrationTests] and [PgIntegrationTests]: those of [tests/],
      the dispatcher executed by [Driver] on each store, files reopened,
      claims of other sessions held; [BreakerTests]: the tests, of both kinds,
      of a tripped breaker and of the exported metrics; [UnitTests] has them all
      pass.

    The dispatcher calls a store only through [OutboxStore], and its safety
    theorems hold for any instance of [OutboxLaws]; [Memory], [Sqlite] and
    [Postgres] each prove that instance, the SQL ones for every script.  The
    budget theorem asks for [OutboxFailures] too (the failure counter of a
    store), which [Failures] proves of all three, again for every script; the
    integrity theorem for [OutboxEnvelopes], which [Envelopes] proves of all
    three likewise.  [PgShared] proves the same three interfaces of a Postgres
    store under any schedule of foreign locks.  The
    exactly-once theorem asks for [OutboxFinal] as well, which the SQL stores
    prove for an empty script.

    ** What the theorems show

    - End to end: an accepted event stays in the outbox until the sender has
      accepted it or an operator has asked to dead-letter it ([no_event_lost], and [fleet_no_event_lost] for several
      dispatchers, each of which runs as if alone: [fleet_member_runs]); without
      the faults no dispatcher can hide nothing accepted is sent again
      ([no_duplicate_delivery]); permits and in-flight events are bounded
      ([in_flight_bounded]); a signalled shutdown completes
      ([shutdown_completes]); a backlog drains ([backlog_drains]); the retry
      budget parks at the last failure ([retry_budget]), and over a whole run no
      exhausted event is in flight, unless it came with failures already counted
      ([budget_respected]); the batch size and the idle tick stay in range
      ([loop_vars_bounded]); an open breaker
      consumes nothing ([open_breaker_pauses]); what the sender is handed is
      what a producer appended ([delivered_as_appended]); the exported counters
      account for every send and every spawned task ([metrics_account]); while
      the downstream is down the sends are bounded by the trip threshold and the
      concurrency, not by the backlog ([outage_costs]); a signalled fleet winds
      down ([fleet_shutdown_completes]).  The scheduler that executes the
      dispatcher in the tests computes runs of it (lemma [drive_runs]).
    - Stores: each answers a session as the reference does
      ([memory_refines_reference], [sqlite_refines_reference],
      [postgres_refines_reference], the last with [PgLedger] for reference, and
      the common ledger when no failure comes late), and on common ground all three alike
      ([stores_interchangeable]); an engine that fails or loses replies turns a
      call into a backend error with nothing or all of it done
      ([sqlite_faulty_refines], [postgres_faulty_refines]; [dead_letter] on
      SQLite may stop halfway, [sqlite_dead_letter_not_atomic], on Postgres not); order and completeness of a
      fetch; delivered means never fetched again (not on Postgres after a late
      failure: [postgres_failure_revives_delivered]); claims of concurrent
      dispatchers are disjoint ([claims_disjoint]), and any concurrent use of
      one Postgres outbox is a history of atomic calls
      ([postgres_linearizable]), in which a fetch may leave out only what
      overlapping calls hold, but for a burial that finds no event to remove,
      which looks in one step and files its letter in a later one.
    - Data: the codec round trip, exactly what it accepts, its refusals and the
      type of what it yields;
      topics; id texts; truncation to the longest UTF-8 prefix; the bounds and
      the monotonicity of the retry schedule; batch growth and idle cadence;
      the metric handles are registered once or never used
      ([emission_all_or_nothing]).
    - The program's own unit and integration tests pass on the model (lemma
      [unit_tests_pass]), but for one, which depends on the schedule
      ([racing_batches]).

    ** Parameters

    Code outside [src/] is an argument: [UuidOps] with [UuidLaws] (the number
    of an id is injective, parsing inverts the hyphenated text, which is ASCII
    and ordered as the ids are), [JitterOps] with [JitterLaws] (the hasher and
    the uniform draw), [SqlEngine] (the texts of engine errors), [BreakerOps]
    (admission, settlement) with [BreakerLaws] (a closed circuit admits, a streak
    of failures trips it at the latest at the threshold, an open one rejects
    until its wait is over) and [MetricsKit] (the registry) with [MetricsLaws]
    (counters and histograms count, no series disturbs another); the [Debug] form of
    a string inside an error's text is the argument [debug].  The SQL text is
    part of the program and is translated; the order of its [TEXT] ids is the
    order of their bytes, on which the collations agree for hyphenated
    lower-case ids.  Clock readings and random draws are arguments of the calls
    that make them.

    ** Bounds and fuel

    The fuel of [decode_loop] is the number of bytes left: every entry takes at
    least eight.  [delay_loop] recurs on the attempts left to scale.
    On a SQL store a session has at most [i64_max - u32_max] calls (10^9 on
    Postgres, after appends with at most 10^9 failures), so that neither the
    failure column nor a row count overflows; [sql_call_ok] asks that stamps are
    below the parked value or [NEVER] and that texts are UTF-8;
    [pg_representable] adds the failure counts, and [without_nul] that texts
    hold no zero byte, on which Postgres refuses the call.  [pg_call_ok], where
    the three stores agree, also excludes a failure reported for a delivered
    event.  What happens outside these limits has theorems of
    its own.  In the executable dispatcher the fuel of a drain is the number of
    its tasks, and a test's deadline the number of ticks that fit in it.

    ** Not modelled

    Pool sizes and timeouts; a lock wait is a step not yet taken, and deadlocks
    are broken by an error like any other; [raw_connection], [pool],
    [breaker_state], [breaker_metrics], [registry] and [render], which only
    forward; [Debug] output; the serde form of a whole event; real time: a tick
    is a step, and its period appears only as [effective_poll_interval].
    Dropping the future of [run] without ending the process is not a step.

    Of the unit tests: those of the [uuid] crate, of serde, of the text of SQL
    and of pragmas.  Of the integration tests: the queries of the Postgres
    catalogue; what is searched in the text the [metrics-kit] crate renders is
    read from the registry instead.  Half-open probes are in the tests, by way of
    [StreakBreaker], and not in [BreakerLaws].  The benchmark measures time.

    ** Order of work

    Data and codec, the store contract with dead letters and under faults, the
    three stores, concurrent sessions of the Postgres store, the dispatcher over
    the contract, alone, executed, observed, under its breaker and in a fleet,
    and the tests are done.  What is left is the code of others: the crates
    behind the parameters, and what only forwards to them. *)

From Stdlib Require Export ZArith Lia.
From stdpp Require Export base list gmap sorting strings.

#[global] Open Scope Z_scope.

(** ** Machine integers

    A machine integer is a [Z]; the width shows in the operations.  [usize]
    is the 64-bit one. *)

Definition u32_max : Z := 4294967295.
Definition u64_max : Z := 18446744073709551615.
Definition i32_max : Z := 2147483647.
Definition i64_max : Z := 9223372036854775807.
Definition u64_modulus : Z := 18446744073709551616.

Definition in_u32 (z : Z) : Prop := 0 <= z <= u32_max.
Definition in_u64 (z : Z) : Prop := 0 <= z <= u64_max.

(** [u32::saturating_add], [u64::saturating_add], [usize::saturating_mul]. *)
Definition u32_saturating_add (a b : Z) : Z := Z.min (a + b) u32_max.
Definition u64_saturating_add (a b : Z) : Z := Z.min (a + b) u64_max.
Definition usize_saturating_mul (a b : Z) : Z := Z.min (a * b) u64_max.

(** [T::try_from(value).unwrap_or(T::MAX)] for the widths the stores use. *)
Definition i64_try_from_or_max (v : Z) : Z := if v <=? i64_max then v else i64_max.
Definition i32_try_from_or_max (v : Z) : Z := if v <=? i32_max then v else i32_max.
Definition u64_try_from_or_max (v : Z) : Z :=
  if (0 <=? v) && (v <=? u64_max) then v else u64_max.
Definition u32_try_from_or_max (v : Z) : Z :=
  if (0 <=? v) && (v <=? u32_max) then v else u32_max.

Ltac unfold_int :=
  unfold in_u32, in_u64, u32_saturating_add, u64_saturating_add,
    usize_saturating_mul, i64_try_from_or_max, i32_try_from_or_max,
    u64_try_from_or_max, u32_try_from_or_max,
    u32_max, u64_max, i32_max, i64_max, u64_modulus in *.

(** Case analysis on the [Z] tests of the goal and the hypotheses, then [lia]. *)
Ltac destruct_ztests :=
  repeat match goal with
  | |- context [?a <=? ?b] => destruct (Z.leb_spec a b)
  | |- context [?a <? ?b] => destruct (Z.ltb_spec a b)
  | |- context [?a =? ?b] => destruct (Z.eqb_spec a b)
  | H : context [?a <=? ?b] |- _ => destruct (Z.leb_spec a b)
  | H : context [?a <? ?b] |- _ => destruct (Z.ltb_spec a b)
  | H : context [?a =? ?b] |- _ => destruct (Z.eqb_spec a b)
  end; cbn [andb orb negb] in *.
Ltac int_lia := unfold_int; destruct_ztests; try lia.

(** ** Strings and byte strings

    A [str] is its UTF-8 bytes, a byte is a [Z]; [lit] writes an ASCII
    literal. *)

Abbreviation bytes := (list Z).
Abbreviation str := (list Z).

Definition lit (s : String.string) : str :=
  (fun c => Z.of_nat (Ascii.nat_of_ascii c)) <$> String.list_ascii_of_string s.
Arguments lit s%_string_scope.

(** [len] of a slice or string. *)
Definition len {A} (l : list A) : Z := Z.of_nat (length l).

Lemma len_nonneg {A} (l : list A) : 0 <= len l.
Proof. unfold len. lia. Qed.
Lemma len_app {A} (l k : list A) : len (l ++ k) = len l + len k.
Proof. unfold len. rewrite length_app. lia. Qed.
Lemma len_cons {A} (x : A) l : len (x :: l) = 1 + len l.
Proof. unfold len. cbn. lia. Qed.
Lemma len_nil {A} : len (@nil A) = 0.
Proof. reflexivity. Qed.

Create HintDb outbox.

(** An equation between closed terms, by evaluation.  Unlike [vm_compute] it
    leaves the types of the goal alone. *)
Ltac vm_eq := match goal with |- _ = ?b => vm_cast_no_check (eq_refl b) end.


(** ** [Result] and the state-and-error monad of the stores *)

Inductive result (A E : Type) : Type :=
| Ok (a : A)
| Err (e : E).
Arguments Ok {A E} a.
Arguments Err {A E} e.

#[export] Instance result_eq_dec {A E} `{EqDecision A, EqDecision E} :
  EqDecision (result A E).
Proof. solve_decision. Defined.

Definition is_ok {A E} (r : result A E) : bool :=
  match r with Ok _ => true | Err _ => false end.

Definition rbind {A B E} (r : result A E) (k : A -> result B E) : result B E :=
  match r with Ok a => k a | Err e => Err e end.

Definition map_err {A E F} (f : E -> F) (r : result A E) : result A F :=
  match r with Ok a => Ok a | Err e => Err (f e) end.

Declare Scope result_scope.
Delimit Scope result_scope with result.
(** [x <-? e ; k] is Rust's [let x = e?; k]. *)
Notation "x <-? e ; k" := (rbind e (fun x => k))
  (at level 20, e at level 100, k at level 200, right associativity,
   format "x  <-?  e ;  '/' k") : result_scope.
Notation "' p <-? e ; k" := (rbind e (fun x => match x with p => k end))
  (at level 20, p pattern, e at level 100, k at level 200,
   right associativity) : result_scope.
#[global] Open Scope result_scope.

Lemma rbind_ok_inv {A B E} (r : result A E) (k : A -> result B E) b :
  rbind r k = Ok b -> exists a, r = Ok a /\ k a = Ok b.
Proof. destruct r; cbn; [eauto | discriminate]. Qed.

(** A computation over a state [S] that always leaves a state behind, whether
    it succeeds or not. *)
Definition M (S E A : Type) : Type := S -> S * result A E.

Definition mret {S E A} (a : A) : M S E A := fun s => (s, Ok a).
Definition mfail {S E A} (e : E) : M S E A := fun s => (s, Err e).
Definition mbind {S E A B} (m : M S E A) (k : A -> M S E B) : M S E B :=
  fun s => match m s with
           | (s', Ok a) => k a s'
           | (s', Err e) => (s', Err e)
           end.
Definition mlift {S E A} (r : result A E) : M S E A := fun s => (s, r).

Declare Scope store_scope.
Delimit Scope store_scope with store.
Notation "x <-- m ; k" := (mbind m (fun x => k))
  (at level 20, m at level 100, k at level 200, right associativity,
   format "x  <--  m ;  '/' k") : store_scope.
#[global] Open Scope store_scope.

(** ** Lists *)

Lemma take_app_exact {A} (l k : list A) n :
  n = length l -> take n (l ++ k) = l /\ drop n (l ++ k) = k.
Proof.
  intros ->. split; [by rewrite take_app_length | by rewrite drop_app_length].
Qed.

Lemma elem_of_take_incl {A} (x : A) n l : x ∈ take n l -> x ∈ l.
Proof. intros H. rewrite <- (take_drop n l). set_solver. Qed.

Lemma StronglySorted_take {A} (R : relation A) n l :
  StronglySorted R l -> StronglySorted R (take n l).
Proof.
  intros H. rewrite <- (take_drop n l) in H.
  by apply StronglySorted_app_1_l in H.
Qed.

Lemma StronglySorted_filter {A} (R : relation A) (P : A -> Prop)
    `{forall x, Decision (P x)} l :
  StronglySorted R l -> StronglySorted R (filter P l).
Proof.
  induction 1 as [|x l Hl IH Hx]; [constructor|].
  rewrite filter_cons. case_decide; [|done].
  constructor; [done|]. rewrite Forall_forall in Hx |- *.
  intros y [_ Hy]%list_elem_of_filter. auto.
Qed.

Lemma NoDup_fmap_filter {A B} (f : A -> B) (P : A -> Prop) `{forall x, Decision (P x)} l :
  NoDup (f <$> l) -> NoDup (f <$> filter P l).
Proof.
  induction l as [|x l IH]; [done|]. rewrite fmap_cons, NoDup_cons. intros [Hx Hl].
  rewrite filter_cons. case_decide; [|by apply IH]. rewrite fmap_cons, NoDup_cons.
  split; [|by apply IH]. intros (y & Hy & Hin)%list_elem_of_fmap.
  apply Hx. rewrite Hy. apply list_elem_of_fmap_2. by apply list_elem_of_filter in Hin as [_ ?].
Qed.

Lemma map_size_alter `{Countable K} {A} (f : A -> A) i (m : gmap K A) :
  size (alter f i m) = size m.
Proof. by rewrite <- !size_dom, dom_alter_L. Qed.
