(* ===== verification/BTree.v ===== *)
(** * Ordered collections

    [std::collections::BTreeSet] and [BTreeMap] as strictly sorted lists: the
    program relies on the order of their iteration ([MemoryStore]'s queue, the
    headers codec), so the order is part of the value.  Keys carry a strict
    total order given by a boolean test. *)

From S2P Require Import Prelude.

Class Ltb (A : Type) := ltb : A -> A -> bool.

Class StrictTotal (A : Type) {L : Ltb A} : Prop := {
  ltb_irrefl : forall x : A, ltb x x = false;
  ltb_trans : forall x y z : A, ltb x y = true -> ltb y z = true -> ltb x z = true;
  ltb_total : forall x y : A, ltb x y = false -> ltb y x = false -> x = y
}.

Definition lt_rel {A} `{Ltb A} : relation A := fun x y => ltb x y = true.

(** ** Orders *)

#[export] Instance Z_ltb : Ltb Z := Z.ltb.
#[export] Instance Z_strict : StrictTotal Z.
Proof. split; unfold ltb, Z_ltb; intros; destruct_ztests; try lia; done. Qed.

(** Lexicographic order on byte strings: Rust's [Ord] on [str] and SQL's
    binary collation on [TEXT]. *)
Fixpoint lex_ltb (s t : list Z) : bool :=
  match s, t with
  | _, [] => false
  | [], _ :: _ => true
  | x :: s', y :: t' => (x <? y) || ((x =? y) && lex_ltb s' t')
  end.
#[export] Instance str_ltb : Ltb (list Z) := lex_ltb.
#[export] Instance str_strict : StrictTotal (list Z).
Proof.
  unfold ltb, str_ltb. split.
  - induction x as [|x s IH]; cbn; [done|].
    by rewrite Z.ltb_irrefl, Z.eqb_refl, IH.
  - induction x as [|x s IH]; intros [|y t] [|z u]; cbn; try done.
    rewrite !orb_true_iff, !andb_true_iff, !Z.ltb_lt, !Z.eqb_eq.
    intros [?|[? ?]] [?|[? ?]]; [left; lia..|right; split; [lia|eauto]].
  - induction x as [|x s IH]; intros [|y t]; cbn; try done.
    rewrite !orb_false_iff, !andb_false_iff, !Z.ltb_ge, !Z.eqb_neq.
    intros [? [?|Hs]] [? [?|Ht]]; try lia.
    assert (x = y) as -> by lia. f_equal. eauto.
Qed.

(** Pairs compare like Rust tuples. *)
Section pair_order.
Context {A B : Type} `{LA : Ltb A, LB : Ltb B}.

#[export] Instance pair_ltb : Ltb (A * B) := fun p q =>
  ltb p.1 q.1 || (negb (ltb q.1 p.1) && ltb p.2 q.2).

#[export] Instance pair_strict `{!StrictTotal A, !StrictTotal B} : StrictTotal (A * B).
Proof.
  split; unfold ltb, pair_ltb.
  - intros [a b]; cbn. by rewrite !ltb_irrefl.
  - intros [a b] [a' b'] [a'' b'']; cbn.
    rewrite !orb_true_iff, !andb_true_iff, !negb_true_iff.
    intros [H1|[H1 H1']] [H2|[H2 H2']].
    + left. by eapply ltb_trans.
    + destruct (ltb a' a'') eqn:E; [left; by eapply ltb_trans|].
      assert (a' = a'') as -> by (by apply ltb_total). auto.
    + destruct (ltb a a') eqn:E; [left; by eapply ltb_trans|].
      assert (a = a') as -> by (by apply ltb_total). auto.
    + destruct (ltb a a') eqn:E.
      { destruct (ltb a' a'') eqn:E'; [left; by eapply ltb_trans|].
        assert (a' = a'') as <- by (by apply ltb_total). auto. }
      assert (a = a') as -> by (by apply ltb_total).
      destruct (ltb a' a'') eqn:E'; [auto|]. right. split; [done|].
      by eapply ltb_trans.
  - intros [a b] [a' b']; cbn.
    rewrite !orb_false_iff, !andb_false_iff, !negb_false_iff.
    intros [Ha Hb] [Ha' Hb'].
    destruct Hb as [?|Hb], Hb' as [?|Hb']; try congruence.
    f_equal; by apply ltb_total.
Qed.
End pair_order.

Section order_facts.
Context {A : Type} `{StrictTotal A}.

#[export] Instance lt_rel_trans : Transitive lt_rel.
Proof. intros x y z. apply ltb_trans. Qed.

#[export] Instance lt_rel_antisymm : AntiSymm (=) lt_rel.
Proof.
  intros x y Hxy Hyx. pose proof (ltb_trans _ _ _ Hxy Hyx) as Hc.
  by rewrite ltb_irrefl in Hc.
Qed.

Lemma ltb_asym x y : ltb x y = true -> ltb y x = false.
Proof.
  intros Hxy. destruct (ltb y x) eqn:Hyx; [|done].
  pose proof (ltb_trans _ _ _ Hxy Hyx) as Hc. by rewrite ltb_irrefl in Hc.
Qed.

Lemma ltb_neq x y : ltb x y = true -> x <> y.
Proof. intros Hxy ->. by rewrite ltb_irrefl in Hxy. Qed.

Lemma sorted_NoDup (l : list A) : StronglySorted lt_rel l -> NoDup l.
Proof.
  induction 1 as [|x l Hl IH Hx]; constructor; [|done].
  rewrite Forall_forall in Hx. intros Hin. by apply Hx, ltb_neq in Hin.
Qed.

(** Two strictly sorted lists with the same members are equal. *)
Lemma sorted_ext (l k : list A) :
  StronglySorted lt_rel l -> StronglySorted lt_rel k ->
  (forall x, x ∈ l <-> x ∈ k) -> l = k.
Proof.
  intros Hl Hk Hlk. apply (StronglySorted_unique lt_rel); [done..|].
  apply NoDup_Permutation; by try apply sorted_NoDup.
Qed.
End order_facts.

(** ** Sorting by a key *)
Section sort_by.
Context {A K : Type} `{StrictTotal K} (key : A -> K).

Definition key_le (x y : A) : Prop := ltb (key y) (key x) = false.
#[export] Instance key_le_dec x y : Decision (key_le x y).
Proof. unfold key_le. apply _. Defined.

Definition sort_by (l : list A) : list A := merge_sort key_le l.

#[export] Instance key_le_total : Total key_le.
Proof.
  intros x y. unfold key_le. destruct (ltb (key y) (key x)) eqn:E; [|by left].
  right. by apply ltb_asym.
Qed.

#[export] Instance key_le_trans : Transitive key_le.
Proof.
  intros x y z. unfold key_le. intros Hyx Hzy.
  destruct (ltb (key z) (key x)) eqn:E; [|done].
  destruct (ltb (key y) (key z)) eqn:E'.
  - by rewrite (ltb_trans _ _ _ E' E) in Hyx.
  - assert (key z = key y) as Heq by (by apply ltb_total). rewrite Heq in E. congruence.
Qed.

(** Sorting entries with distinct keys sorts the keys strictly. *)
Lemma keys_strict l :
  StronglySorted key_le l -> NoDup (key <$> l) -> StronglySorted lt_rel (key <$> l).
Proof.
  induction 1 as [|p l Hl IH Hp]; [constructor|]. rewrite fmap_cons, NoDup_cons.
  intros [Hnin Hnd]. constructor; [by apply IH|]. apply Forall_fmap.
  rewrite Forall_forall in Hp |- *. intros q Hq. specialize (Hp q Hq).
  unfold key_le in Hp. unfold lt_rel; cbn.
  destruct (ltb (key p) (key q)) eqn:E; [done|].
  exfalso. apply Hnin. rewrite (ltb_total _ _ E Hp). by apply list_elem_of_fmap_2.
Qed.

Lemma sort_by_strict l : NoDup (key <$> l) -> StronglySorted lt_rel (key <$> sort_by l).
Proof.
  intros Hl. apply keys_strict; [apply StronglySorted_merge_sort; apply _|].
  unfold sort_by. by rewrite merge_sort_Permutation.
Qed.

Lemma elem_of_sort_by l x : x ∈ sort_by l <-> x ∈ l.
Proof. unfold sort_by. by rewrite merge_sort_Permutation. Qed.

Lemma length_sort_by l : length (sort_by l) = length l.
Proof. unfold sort_by. by rewrite merge_sort_Permutation. Qed.
End sort_by.

(** ** [BTreeSet] *)
Section btree_set.
Context {A : Type} `{StrictTotal A}.

Definition sorted_set (l : list A) : Prop := StronglySorted lt_rel l.

Fixpoint bset_insert (x : A) (l : list A) : list A :=
  match l with
  | [] => [x]
  | y :: l' => if ltb x y then x :: l
               else if ltb y x then y :: bset_insert x l' else l
  end.

Fixpoint bset_remove (x : A) (l : list A) : list A :=
  match l with
  | [] => []
  | y :: l' => if ltb x y then l
               else if ltb y x then y :: bset_remove x l' else l'
  end.

Lemma elem_of_bset_insert x y l : y ∈ bset_insert x l <-> y = x \/ y ∈ l.
Proof.
  induction l as [|z l IH]; cbn; [set_solver|].
  destruct (ltb x z) eqn:?; [set_solver|].
  destruct (ltb z x) eqn:?; [set_solver|].
  assert (x = z) as <- by (by apply ltb_total). set_solver.
Qed.

Lemma bset_insert_sorted x l : sorted_set l -> sorted_set (bset_insert x l).
Proof.
  unfold sorted_set. induction 1 as [|z l Hl IH Hz]; cbn.
  { repeat constructor. }
  destruct (ltb x z) eqn:Hxz.
  { constructor; [by constructor|]. constructor; [done|].
    eapply Forall_impl; [done|]. intros y Hy. by eapply ltb_trans. }
  destruct (ltb z x) eqn:Hzx; [|by constructor].
  constructor; [done|]. rewrite Forall_forall in Hz |- *.
  intros y [->|Hy]%elem_of_bset_insert; [done|auto].
Qed.

Lemma elem_of_bset_remove x y l :
  sorted_set l -> y ∈ bset_remove x l <-> y ∈ l /\ y <> x.
Proof.
  unfold sorted_set. induction 1 as [|z l Hl IH Hz]; cbn; [set_solver|].
  rewrite Forall_forall in Hz.
  destruct (ltb x z) eqn:Hxz.
  { split; [|tauto]. intros Hy. split; [done|].
    apply elem_of_cons in Hy as [->|Hy]; [apply ltb_neq in Hxz; congruence|].
    intros ->. apply Hz in Hy. apply ltb_asym in Hxz. by unfold lt_rel in Hy; rewrite Hxz in Hy. }
  destruct (ltb z x) eqn:Hzx.
  { rewrite !elem_of_cons, IH. apply ltb_neq in Hzx. naive_solver. }
  assert (x = z) as <- by (by apply ltb_total).
  split; [|set_solver]. intros Hy. split; [set_solver|].
  intros ->. apply Hz in Hy. by apply ltb_neq in Hy.
Qed.

Lemma bset_remove_sublist x l : bset_remove x l `sublist_of` l.
Proof.
  induction l as [|z l IH]; cbn; [constructor|].
  repeat case_match; [done|by constructor|by constructor].
Qed.

Lemma bset_remove_sorted x l : sorted_set l -> sorted_set (bset_remove x l).
Proof.
  unfold sorted_set. induction 1 as [|z l Hl IH Hz]; cbn; [constructor|].
  repeat case_match; [by constructor| |done].
  constructor; [done|]. rewrite Forall_forall in Hz |- *.
  intros y Hy. eapply Hz, elem_of_submseteq, sublist_submseteq; [done|].
  apply bset_remove_sublist.
Qed.
End btree_set.

(** ** [BTreeMap] *)
Section btree_map.
Context {K V : Type} `{StrictTotal K}.
Implicit Types m : list (K * V).

Definition key_lt : relation (K * V) := fun p q => ltb p.1 q.1 = true.
Definition sorted_map m : Prop := StronglySorted key_lt m.

Fixpoint bmap_insert (k : K) (v : V) m : list (K * V) :=
  match m with
  | [] => [(k, v)]
  | (k', v') :: m' =>
      if ltb k k' then (k, v) :: m
      else if ltb k' k then (k', v') :: bmap_insert k v m'
      else (k, v) :: m'
  end.

Fixpoint bmap_get (k : K) m : option V :=
  match m with
  | [] => None
  | (k', v') :: m' =>
      if ltb k k' then None else if ltb k' k then bmap_get k m' else Some v'
  end.

Lemma bmap_get_insert_eq k v m : bmap_get k (bmap_insert k v m) = Some v.
Proof.
  induction m as [|[k' v'] m IH]; cbn; [by rewrite ltb_irrefl|].
  repeat (case_match; cbn; rewrite ?ltb_irrefl in *); try done; congruence.
Qed.

Lemma elem_of_bmap_insert k v p m :
  p ∈ bmap_insert k v m -> p = (k, v) \/ p ∈ m.
Proof.
  induction m as [|[k' v'] m IH]; cbn; [set_solver|].
  repeat case_match; set_solver.
Qed.

Lemma bmap_insert_sorted k v m : sorted_map m -> sorted_map (bmap_insert k v m).
Proof.
  unfold sorted_map. induction 1 as [|[k' v'] m Hm IH Hk]; cbn.
  { repeat constructor. }
  destruct (ltb k k') eqn:Hkk'.
  { constructor; [by constructor|]. constructor; [done|].
    eapply Forall_impl; [done|]. intros q Hq. unfold key_lt in *; cbn in *.
    by eapply ltb_trans. }
  destruct (ltb k' k) eqn:Hk'k.
  - constructor; [done|]. rewrite Forall_forall in Hk |- *.
    intros q [->|Hq]%elem_of_bmap_insert; [done|auto].
  - assert (k = k') as <- by (by apply ltb_total). by constructor.
Qed.

(** Inserting a key above every other appends it: the decoder rebuilds a
    map by inserting its entries in order. *)
Lemma bmap_insert_last k v m :
  (forall p, p ∈ m -> ltb p.1 k = true) -> bmap_insert k v m = m ++ [(k, v)].
Proof.
  induction m as [|[k' v'] m IH]; cbn; intros Hm; [done|].
  assert (ltb k' k = true) as Hk by (apply (Hm (k', v')); left).
  rewrite (ltb_asym _ _ Hk), Hk, IH; [done|]. intros p Hp. apply Hm. by right.
Qed.
End btree_map.
