(* ===== verification/Utf8.v ===== *)
(** * UTF-8 strings

    Rust's [str] is a UTF-8 byte string.  The program cuts strings at a byte
    limit ([truncate_error], [truncate_reason]) and rebuilds strings from
    bytes ([String::from_utf8] in the headers codec), so the encoding matters.
    [valid_utf8] is the validity table of the Unicode standard, which
    [core::str::from_utf8] implements. *)

From S2P Require Import Prelude.

Definition between (lo hi b : Z) : bool := (lo <=? b) && (b <=? hi).

(** A continuation byte [10xxxxxx]. *)
Definition is_cont (b : Z) : bool := between 0x80 0xBF b.

(** Well-formed first two bytes of a three-byte and of a four-byte sequence. *)
Definition lead3 (b0 b1 : Z) : bool :=
  ((b0 =? 0xE0) && between 0xA0 0xBF b1)
  || (between 0xE1 0xEC b0 && is_cont b1)
  || ((b0 =? 0xED) && between 0x80 0x9F b1)
  || (between 0xEE 0xEF b0 && is_cont b1).
Definition lead4 (b0 b1 : Z) : bool :=
  ((b0 =? 0xF0) && between 0x90 0xBF b1)
  || (between 0xF1 0xF3 b0 && is_cont b1)
  || ((b0 =? 0xF4) && between 0x80 0x8F b1).

Fixpoint valid_utf8 (s : bytes) : bool :=
  match s with
  | [] => true
  | b0 :: s1 =>
      if between 0 0x7F b0 then valid_utf8 s1 else
      match s1 with
      | [] => false
      | b1 :: s2 =>
          if between 0xC2 0xDF b0 && is_cont b1 then valid_utf8 s2 else
          match s2 with
          | [] => false
          | b2 :: s3 =>
              if lead3 b0 b1 && is_cont b2 then valid_utf8 s3 else
              match s3 with
              | [] => false
              | b3 :: s4 =>
                  if lead4 b0 b1 && is_cont b2 && is_cont b3
                  then valid_utf8 s4 else false
              end
          end
      end
  end.

(** [str::is_char_boundary]. *)
Definition is_char_boundary (s : str) (i : nat) : bool :=
  (i =? 0)%nat ||
  match s !! i with
  | None => (i =? length s)%nat
  | Some b => negb (is_cont b)
  end.

(** ** Characters

    [is_char c]: [c] encodes one scalar value, so that decoding can go on
    after it. *)

Record is_char (c : bytes) : Prop := {
  char_lead : exists b t, c = b :: t /\ is_cont b = false /\ Forall (fun x => is_cont x = true) t;
  char_len : (length c <= 4)%nat;
  char_valid : forall s, valid_utf8 (c ++ s) = valid_utf8 s
}.

Ltac solve_range := unfold lead3, lead4, is_cont, between in *; lia.

Lemma valid_utf8_view s :
  valid_utf8 s = true ->
  s = [] \/ exists c s', s = c ++ s' /\ is_char c /\ valid_utf8 s' = true.
Proof.
  destruct s as [|b0 s1]; [by left|]. cbn [valid_utf8]. intros H. right.
  destruct (between 0 0x7F b0) eqn:E0.
  { exists [b0], s1. split_and!; [done| |done]. split.
    - exists b0, []. split_and!; [done|solve_range|done].
    - cbn. lia.
    - intros s. cbn. by rewrite E0. }
  destruct s1 as [|b1 s2]; [done|].
  destruct (between 0xC2 0xDF b0 && is_cont b1) eqn:E1.
  { exists [b0; b1], s2. split_and!; [done| |done].
    apply andb_true_iff in E1 as [E1 E1']. split.
    - exists b0, [b1]. split_and!; [done|solve_range|by repeat constructor].
    - cbn. lia.
    - intros s. cbn. by rewrite E0, E1, E1'. }
  destruct s2 as [|b2 s3]; [done|].
  destruct (lead3 b0 b1 && is_cont b2) eqn:E2.
  { exists [b0; b1; b2], s3. split_and!; [done| |done]. split.
    - apply andb_true_iff in E2 as [E2 E2']. exists b0, [b1; b2].
      split_and!; [done|solve_range|]. repeat constructor; [solve_range|done].
    - cbn. lia.
    - intros s. cbn. by rewrite E0, E1, E2. }
  destruct s3 as [|b3 s4]; [done|].
  destruct (lead4 b0 b1 && is_cont b2 && is_cont b3) eqn:E3; [|done].
  exists [b0; b1; b2; b3], s4. split_and!; [done| |done]. split.
  - apply andb_true_iff in E3 as [[E3 E3']%andb_true_iff E3'']. exists b0, [b1; b2; b3].
    split_and!; [done|solve_range|]. repeat constructor; [solve_range|done|done].
  - cbn. lia.
  - intros s. cbn. by rewrite E0, E1, E2, E3.
Qed.

Lemma is_char_length c : is_char c -> (1 <= length c <= 4)%nat.
Proof. intros [(b & t & -> & _) Hl _]. cbn in *. lia. Qed.

(** Induction over the characters of a valid string. *)
Lemma valid_utf8_ind (P : bytes -> Prop) :
  P [] ->
  (forall c s, is_char c -> valid_utf8 s = true -> P s -> P (c ++ s)) ->
  forall s, valid_utf8 s = true -> P s.
Proof.
  intros H0 Hc s. remember (length s) as n eqn:Hn. revert s Hn.
  induction (lt_wf n) as [n _ IH]. intros s -> Hs.
  destruct (valid_utf8_view _ Hs) as [->|(c & s' & -> & Hch & Hs')]; [done|].
  apply Hc; [done..|]. eapply IH; [|done|done].
  rewrite length_app. apply is_char_length in Hch. lia.
Qed.

(** Inside a character no byte starts another one. *)
Lemma is_char_boundary_inside c s i :
  is_char c -> (0 < i < length c)%nat -> is_char_boundary (c ++ s) i = false.
Proof.
  intros Hc Hi. destruct (char_lead _ Hc) as (b & t & -> & _ & Ht).
  unfold is_char_boundary. rewrite lookup_app_l by lia.
  destruct i as [|i]; [lia|]. cbn [length] in Hi. cbn [orb Nat.eqb].
  rewrite <- lookup_tail; cbn [tail].
  destruct (t !! i) as [x|] eqn:Hx; [|apply lookup_ge_None in Hx; lia].
  rewrite Forall_lookup in Ht. by rewrite (Ht _ _ Hx).
Qed.

Lemma is_char_boundary_after c s i :
  is_char c -> valid_utf8 s = true -> (length c <= i)%nat ->
  is_char_boundary (c ++ s) i = is_char_boundary s (i - length c).
Proof.
  intros Hc Hs Hi. pose proof (is_char_length _ Hc) as Hl.
  unfold is_char_boundary. rewrite lookup_app_r, length_app by lia.
  destruct (Nat.eqb_spec i 0); [lia|]. cbn [orb].
  destruct (Nat.eqb_spec (i - length c) 0) as [E|E]; cbn [orb].
  - rewrite E. destruct (valid_utf8_view _ Hs) as [->|(c' & s' & -> & Hc' & _)].
    + cbn. apply Nat.eqb_eq. lia.
    + destruct (char_lead _ Hc') as (b & t & -> & Hb & _). cbn. by rewrite Hb.
  - case_match; [done|].
    destruct (Nat.eqb_spec i (length c + length s)), (Nat.eqb_spec (i - length c) (length s)); lia || done.
Qed.

(** Cutting a valid string at a boundary leaves two valid strings. *)
Lemma valid_utf8_cut s i :
  valid_utf8 s = true -> (i <= length s)%nat -> is_char_boundary s i = true ->
  valid_utf8 (take i s) = true /\ valid_utf8 (drop i s) = true.
Proof.
  intros Hs. revert i. revert s Hs.
  refine (valid_utf8_ind _ _ _); [intros i Hi Hb|intros c s Hc Hs IH i Hi Hb].
  { by rewrite take_nil, drop_nil. }
  destruct (decide (i = 0)%nat) as [->|Hi0].
  { rewrite take_0, drop_0. by rewrite (char_valid _ Hc). }
  destruct (decide (i < length c)%nat) as [Hlt|Hge].
  { rewrite is_char_boundary_inside in Hb by (done || lia). done. }
  rewrite is_char_boundary_after in Hb by (done || lia).
  rewrite length_app in Hi.
  rewrite take_app_ge, drop_app_ge, (char_valid _ Hc) by lia. apply IH; [lia|done].
Qed.

(** Every position is at most three bytes past a boundary. *)
Lemma boundary_near s i :
  valid_utf8 s = true -> (i <= length s)%nat ->
  exists j, (j <= i)%nat /\ (i <= j + 3)%nat /\ is_char_boundary s j = true.
Proof.
  intros Hs. revert i. revert s Hs.
  refine (valid_utf8_ind _ _ _); [intros i Hi|intros c s Hc Hs IH i Hi].
  { exists 0%nat. cbn in Hi. split_and!; [lia..|done]. }
  pose proof (is_char_length _ Hc) as Hl. rewrite length_app in Hi.
  destruct (decide (i < length c)%nat) as [Hlt|Hge].
  { exists 0%nat. split_and!; [lia..|done]. }
  destruct (IH (i - length c)%nat) as (j & ? & ? & Hj); [lia|].
  exists (j + length c)%nat. split_and!; [lia..|].
  rewrite is_char_boundary_after by (done || lia). by rewrite Nat.add_sub.
Qed.

(** ASCII text is valid. *)
Lemma valid_utf8_ascii s :
  Forall (fun b => 0 <= b <= 127) s -> valid_utf8 s = true.
Proof.
  induction 1 as [|b s Hb _ IH]; [done|]. cbn.
  replace (between 0 127 b) with true; [done|].
  symmetry. unfold between. destruct_ztests; lia || done.
Qed.

Lemma valid_utf8_app s t : valid_utf8 s = true -> valid_utf8 (s ++ t) = valid_utf8 t.
Proof.
  revert s. refine (valid_utf8_ind _ _ _); [done|]. intros c s Hc Hs IH.
  by rewrite <- (assoc_L app), (char_valid _ Hc).
Qed.
