(* ===== verification/Event.v ===== *)
(** * The event envelope

    [src/src/event.rs] and [src/src/error.rs]: [EventId], [OutboxEvent], topic
    validation, the clock and the error types.  The [uuid] crate is not part of
    the repository: [UuidOps] lists the operations the program calls and
    [UuidLaws] what it relies on; [HexUuid.v] instantiates both. *)

From S2P Require Import Prelude BTree Utf8.

(** ** Errors *)

Inductive EventError :=
| EInvalidTopic (topic : str)
| EInvalidId (input : str).

Inductive StoreError :=
| InvalidTopic (topic : str)
| Backend (diagnostic : str).

Inductive DispatchError :=
| Delivery (message : str).

#[export] Instance EventError_eq_dec : EqDecision EventError.
Proof. solve_decision. Defined.
#[export] Instance StoreError_eq_dec : EqDecision StoreError.
Proof. solve_decision. Defined.
#[export] Instance DispatchError_eq_dec : EqDecision DispatchError.
Proof. solve_decision. Defined.

(** The [Display] forms; [debug] is the standard library's [{:?}] of a
    string. *)
Definition event_error_to_string (debug : str -> str) (e : EventError) : str :=
  match e with
  | EInvalidTopic topic =>
      lit "invalid outbox topic " ++ debug topic ++ lit ": must match [a-z0-9_.-]{1,128}"
  | EInvalidId input =>
      lit "invalid event id " ++ debug input ++ lit ": expected a hyphenated UUID string"
  end.
Definition store_error_to_string (debug : str -> str) (e : StoreError) : str :=
  match e with
  | InvalidTopic topic =>
      lit "invalid outbox topic " ++ debug topic ++ lit ": must match [a-z0-9_.-]{1,128}"
  | Backend m => lit "outbox store backend failure: " ++ m
  end.

(** [impl From<String> for DispatchError] and [Display]. *)
Definition dispatch_error_from (message : str) : DispatchError := Delivery message.
Definition dispatch_error_to_string (e : DispatchError) : str :=
  match e with Delivery m => lit "delivery failed: " ++ m end.

(** ** The clock

    A reading of [SystemTime::now()] is signed nanoseconds since the epoch. *)
Definition now_millis (system_time : Z) : Z :=
  if system_time <? 0 then 0
  else let ms := system_time / 1000000 in
       if ms <=? u64_max then ms else u64_max.

Lemma now_millis_in_u64 t : in_u64 (now_millis t).
Proof.
  unfold now_millis. destruct (Z.ltb_spec t 0); [unfold_int; lia|].
  pose proof (Z.div_pos t 1000000). int_lia.
Qed.

(** ** UUIDs *)

Class UuidOps := {
  Uuid : Type;
  #[global] Uuid_eq_dec :: EqDecision Uuid;
  #[global] Uuid_countable :: Countable Uuid;
  (** [Uuid::as_u128], the big-endian value of the sixteen bytes [Ord] compares. *)
  as_u128 : Uuid -> Z;
  (** [uuid.hyphenated().to_string()]. *)
  hyphenated : Uuid -> str;
  (** [Uuid::parse_str]; the error is the crate's own text. *)
  parse_str : str -> result Uuid str
}.

Class UuidLaws {UO : UuidOps} : Prop := {
  (** A UUID is its 128-bit value. *)
  as_u128_inj : forall u v, as_u128 u = as_u128 v -> u = v;
  (** The hyphenated form parses back. *)
  parse_hyphenated : forall u, parse_str (hyphenated u) = Ok u;
  (** The hyphenated form is fixed-width lower-case hexadecimal, so text order
      is the order of the values. *)
  hyphenated_order : forall u v,
    lex_ltb (hyphenated u) (hyphenated v) = (as_u128 u <? as_u128 v);
  (** Its characters are ASCII (hexadecimal digits and hyphens). *)
  hyphenated_ascii : forall u, Forall (fun b => 0 < b <= 127) (hyphenated u)
}.

Section Event.
Context `{UO : UuidOps}.

(** ** [EventId] *)

Record EventId := from_uuid { as_uuid : Uuid }.

#[export] Instance EventId_eq_dec : EqDecision EventId.
Proof. solve_decision. Defined.
#[export] Instance EventId_countable : Countable EventId.
Proof. apply (inj_countable' as_uuid from_uuid). by intros []. Defined.

(** [derive(PartialOrd, Ord)]: the order of the wrapped UUID. *)
#[export] Instance EventId_ltb : Ltb EventId := fun a b =>
  as_u128 (as_uuid a) <? as_u128 (as_uuid b).

(** [Display]: the canonical transport and storage form. *)
Definition event_id_to_string (i : EventId) : str := hyphenated (as_uuid i).

Definition event_id_parse (input : str) : result EventId EventError :=
  match parse_str input with
  | Ok u => Ok (from_uuid u)
  | Err _ => Err (EInvalidId input)
  end.

(** The [serde] forms: a plain string, parsed back with the crate's error. *)
Definition event_id_serialize (i : EventId) : str := hyphenated (as_uuid i).
Definition event_id_deserialize (text : str) : result EventId str :=
  match parse_str text with
  | Ok u => Ok (from_uuid u)
  | Err e => Err e
  end.

(** ** Topics: [[a-z0-9_.-]{1,128}] *)

Definition topic_byte (b : Z) : bool :=
  ((97 <=? b) && (b <=? 122)) || ((48 <=? b) && (b <=? 57))
  || (b =? 95) || (b =? 46) || (b =? 45).

Definition validate_topic (topic : str) : result unit EventError :=
  if (1 <=? len topic) && (len topic <=? 128) && forallb topic_byte topic
  then Ok tt else Err (EInvalidTopic topic).

(** ** [OutboxEvent] *)

Record OutboxEvent := mkEvent {
  ev_id : EventId;
  ev_topic : str;
  ev_payload : bytes;
  ev_headers : list (str * str);
  ev_created_at : Z;
  ev_attempts : Z;
  ev_last_error : option str
}.

#[export] Instance OutboxEvent_eq_dec : EqDecision OutboxEvent.
Proof. solve_decision. Defined.

(** [fresh] is what [Uuid::now_v7()] returns, [clock] what [SystemTime::now()]
    reads. *)
Definition with_headers (fresh : Uuid) (clock : Z) (topic : str) (payload : bytes)
    (headers : list (str * str)) : result OutboxEvent EventError :=
  _ <-? validate_topic topic;
  Ok (mkEvent (from_uuid fresh) topic payload headers (now_millis clock) 0 None).

Definition new_event (fresh : Uuid) (clock : Z) (topic : str) (payload : bytes)
    : result OutboxEvent EventError :=
  _ <-? validate_topic topic;
  Ok (mkEvent (from_uuid fresh) topic payload [] (now_millis clock) 0 None).

Definition validate (e : OutboxEvent) : result unit EventError :=
  validate_topic (ev_topic e).

(** What every store does with the outcome of [validate]. *)
Definition validated (e : OutboxEvent) : result unit StoreError :=
  map_err (fun _ => InvalidTopic (ev_topic e)) (validate e).

(** Every Rust value of type [OutboxEvent]: integers at their width, strings
    in UTF-8, headers in key order.  It restricts nothing a program can
    build. *)
Record wf_event (e : OutboxEvent) : Prop := {
  wf_topic_utf8 : valid_utf8 (ev_topic e) = true;
  wf_headers_sorted : sorted_map (ev_headers e);
  wf_headers_utf8 : Forall (fun kv => valid_utf8 kv.1 = true /\ valid_utf8 kv.2 = true) (ev_headers e);
  wf_created_at : in_u64 (ev_created_at e);
  wf_attempts : in_u32 (ev_attempts e);
  wf_last_error : forall m, ev_last_error e = Some m -> valid_utf8 m = true
}.

(** ** Facts *)

#[export] Instance EventId_strict `{!UuidLaws} : StrictTotal EventId.
Proof.
  split; unfold ltb, EventId_ltb.
  - intros. apply Z.ltb_irrefl.
  - intros x y z. rewrite !Z.ltb_lt. lia.
  - intros [x] [y]. cbn. rewrite !Z.ltb_ge. intros. f_equal. apply as_u128_inj. lia.
Qed.

Lemma parse_to_string `{!UuidLaws} i : event_id_parse (event_id_to_string i) = Ok i.
Proof.
  unfold event_id_parse, event_id_to_string. rewrite parse_hyphenated. by destruct i.
Qed.

#[export] Instance to_string_inj `{!UuidLaws} : Inj (=) (=) event_id_to_string.
Proof.
  intros i j E. pose proof (parse_to_string i) as Hi. rewrite E, parse_to_string in Hi.
  by injection Hi.
Qed.

Lemma hyphenated_utf8 `{!UuidLaws} u : valid_utf8 (hyphenated u) = true.
Proof.
  apply valid_utf8_ascii. eapply Forall_impl; [apply hyphenated_ascii|]. cbn. lia.
Qed.

Lemma to_string_order `{!UuidLaws} i j :
  ltb (event_id_to_string i) (event_id_to_string j) = ltb i j.
Proof. apply hyphenated_order. Qed.

Lemma validated_ok e : validated e = Ok tt <-> validate e = Ok tt.
Proof. unfold validated. destruct (validate e) as [[]|]; cbn; naive_solver. Qed.

Lemma validated_err e err :
  validated e = Err err -> err = InvalidTopic (ev_topic e).
Proof. unfold validated. destruct (validate e); cbn; naive_solver. Qed.

(** The characters the documentation lists. *)
Definition topic_alphabet : str := lit "abcdefghijklmnopqrstuvwxyz0123456789_.-".

Lemma topic_byte_ascii b : topic_byte b = true -> 0 <= b <= 127.
Proof. unfold topic_byte. lia. Qed.

Lemma topic_byte_alphabet b : topic_byte b = true <-> b ∈ topic_alphabet.
Proof.
  split; intros Hb.
  - assert (forallb (fun c => implb (topic_byte c) (bool_decide (c ∈ topic_alphabet)))
      (seqZ 0 128) = true) as Hall by (by vm_compute).
    rewrite forallb_forall in Hall.
    specialize (Hall b). rewrite Hb in Hall. apply (bool_decide_eq_true_1 _), Hall.
    apply list_elem_of_In, elem_of_seqZ. apply topic_byte_ascii in Hb. lia.
  - assert (Forall (fun c => topic_byte c = true) topic_alphabet) as Hall.
    { apply (bool_decide_eq_true_1 _). by vm_compute. }
    rewrite Forall_forall in Hall. auto.
Qed.
End Event.
