(* ===== verification/Truncate.v ===== *)
(** * Bounded diagnostics

    The helpers of [src/src/store.rs]: [truncate_error] and [truncate_reason]
    keep at most 1 KiB of a string, cut on a character boundary. *)

From S2P Require Import Prelude Utf8.

Definition MAX_REASON_BYTES : Z := 1024.
Definition MAX_ERROR_BYTES : Z := 1024.

(** [while cut > 0 && !s.is_char_boundary(cut) { cut -= 1; }] *)
Fixpoint cut_back (s : str) (cut : nat) : nat :=
  match cut with
  | O => O
  | S cut' => if is_char_boundary s cut then cut else cut_back s cut'
  end.

(** [s.get(..cut)]: [None] off a boundary or past the end. *)
Definition str_get_to (s : str) (cut : nat) : option str :=
  if (cut <=? length s)%nat && is_char_boundary s cut then Some (take cut s) else None.

Definition truncate_reason (reason : str) : str :=
  if len reason <=? MAX_REASON_BYTES then reason
  else let cut := cut_back reason (Z.to_nat MAX_REASON_BYTES) in
       match str_get_to reason cut with Some s => s | None => [] end.

Definition truncate_error (error : str) : str :=
  if len error <=? MAX_ERROR_BYTES then error
  else let cut := cut_back error (Z.to_nat MAX_ERROR_BYTES) in
       match str_get_to error cut with Some s => s | None => [] end.

(** ** The cut *)

Lemma cut_back_le s n : (cut_back s n <= n)%nat.
Proof. induction n as [|n IH]; cbn [cut_back]; [lia|]. case_match; lia. Qed.

Lemma cut_back_boundary s n : is_char_boundary s (cut_back s n) = true.
Proof. induction n as [|n IH]; cbn [cut_back]; [done|]. by case_match. Qed.

Lemma cut_back_greatest s n j :
  (j <= n)%nat -> is_char_boundary s j = true -> (j <= cut_back s n)%nat.
Proof.
  induction n as [|n IH]; intros Hj Hb; cbn [cut_back]; [lia|].
  destruct (is_char_boundary s (S n)) eqn:E; [lia|].
  destruct (decide (j = S n)) as [->|]; [congruence|]. apply IH; [lia|done].
Qed.

Lemma truncate_error_short s : len s <= MAX_ERROR_BYTES -> truncate_error s = s.
Proof. intros H. unfold truncate_error. by rewrite (proj2 (Z.leb_le _ _) H). Qed.

Lemma truncate_error_long s :
  MAX_ERROR_BYTES < len s -> truncate_error s = take (cut_back s 1024) s.
Proof.
  intros H. unfold truncate_error. rewrite (proj2 (Z.leb_gt _ _) H).
  change (Z.to_nat MAX_ERROR_BYTES) with 1024%nat. unfold str_get_to.
  rewrite cut_back_boundary. pose proof (cut_back_le s 1024).
  unfold MAX_ERROR_BYTES, len in H.
  destruct (Nat.leb_spec (cut_back s 1024) (length s)); [done|lia].
Qed.

(** [truncate_reason] and [truncate_error] have the same body. *)
Lemma truncate_reason_error s : truncate_reason s = truncate_error s.
Proof. reflexivity. Qed.

Lemma truncate_error_cases s :
  truncate_error s = s /\ len s <= 1024 \/
  1024 < len s /\ truncate_error s = take (cut_back s 1024) s.
Proof.
  destruct (Z.le_gt_cases (len s) MAX_ERROR_BYTES) as [H|H].
  - left. by rewrite truncate_error_short.
  - right. by rewrite truncate_error_long.
Qed.

Lemma truncate_error_le s : len (truncate_error s) <= 1024.
Proof.
  destruct (truncate_error_cases s) as [[-> ?]|[? ->]]; [done|].
  unfold len. rewrite length_take. pose proof (cut_back_le s 1024). lia.
Qed.

Lemma truncate_error_utf8 s : valid_utf8 s = true -> valid_utf8 (truncate_error s) = true.
Proof.
  intros Hs. destruct (truncate_error_cases s) as [[-> ?]|[H ->]]; [done|].
  apply valid_utf8_cut; [done| |apply cut_back_boundary].
  pose proof (cut_back_le s 1024). unfold len in H. lia.
Qed.

Lemma truncate_error_idemp s : truncate_error (truncate_error s) = truncate_error s.
Proof. apply truncate_error_short, truncate_error_le. Qed.

(** ** Properties *)

(** C32.  A stored diagnostic is a UTF-8 prefix of what was reported, at most
    1024 bytes long; a short one is kept whole, a long one loses fewer than
    four bytes below the limit, and no longer prefix within the limit ends on
    a character boundary. *)
Theorem truncate_error_spec (s : str) (H : valid_utf8 s = true) :
  let t := truncate_error s in
  valid_utf8 t = true /\ len t <= 1024 /\ (exists rest, s = t ++ rest) /\
  (len s <= 1024 -> t = s) /\ (1024 < len s -> 1021 <= len t) /\
  (forall j, len t < j <= 1024 -> 1024 < len s -> is_char_boundary s (Z.to_nat j) = false).
Proof.
  cbn zeta. split_and!; [by apply truncate_error_utf8|apply truncate_error_le|..].
  - destruct (truncate_error_cases s) as [[-> _]|[_ ->]].
    + exists []. by rewrite app_nil_r.
    + eexists. symmetry. apply take_drop.
  - apply truncate_error_short.
  - intros Hl. rewrite truncate_error_long by done.
    destruct (boundary_near s 1024 H) as (j & ? & ? & Hj); [unfold len in Hl; lia|].
    pose proof (cut_back_greatest s 1024 j ltac:(lia) Hj).
    unfold len in *. rewrite length_take. lia.
  - intros j Hj Hl. rewrite truncate_error_long in Hj by done.
    destruct (is_char_boundary s (Z.to_nat j)) eqn:E; [|done].
    apply (cut_back_greatest s 1024) in E; [|lia].
    unfold len in *. rewrite length_take in Hj. lia.
Qed.

(** A two-byte character across the limit: 1023 bytes and the rest dropped. *)
Lemma truncate_error_spec_witness :
  let s := repeat 97 1023 ++ [0xC3; 0xA9; 0xC3; 0xA9] in
  valid_utf8 s = true /\ len (truncate_error s) = 1023 /\ len (truncate_error s) <= 1024.
Proof.
  cbn zeta. split_and!; [by vm_compute|by vm_compute|].
  assert (valid_utf8 (repeat 97 1023 ++ [0xC3; 0xA9; 0xC3; 0xA9]) = true) as Hs by (by vm_compute).
  exact (proj1 (proj2 (truncate_error_spec _ Hs))).
Defined.

(** A dead-letter reason is cut exactly as a dispatch diagnostic is, and
    cutting twice changes nothing. *)
Lemma truncate_reason_spec (s : str) :
  truncate_reason s = truncate_error s /\
  truncate_reason (truncate_reason s) = truncate_reason s.
Proof.
  split; [apply truncate_reason_error|].
  rewrite !truncate_reason_error. apply truncate_error_idemp.
Qed.
