(* ===== verification/Codec.v ===== *)
(** * The headers codec

    [src/src/codec.rs]: the length-prefixed encoding of the headers map that
    both durable stores persist.  A cursor [&mut &[u8]] is threaded as the
    remaining bytes. *)

From S2P Require Import Prelude BTree Utf8 Event.

(** [u32::to_le_bytes], [u32::from_le_bytes]. *)
Definition u32_to_le_bytes (n : Z) : bytes :=
  [n mod 256; (n / 256) mod 256; (n / 65536) mod 256; (n / 16777216) mod 256].

Definition u32_from_le_bytes (b : bytes) : Z :=
  match b with
  | [b0; b1; b2; b3] => b0 + 256 * b1 + 65536 * b2 + 16777216 * b3
  | _ => 0
  end.

(** ** Encoding *)

Definition encode_blob (out blob : bytes) : result bytes StoreError :=
  if len blob <=? u32_max
  then Ok (out ++ u32_to_le_bytes (len blob) ++ blob)
  else Err (Backend (lit "header entry too long")).

Fixpoint encode_entries (headers : list (str * str)) (out : bytes) : result bytes StoreError :=
  match headers with
  | [] => Ok out
  | (key, value) :: rest =>
      out <-? encode_blob out key;
      out <-? encode_blob out value;
      encode_entries rest out
  end.

Definition encode_headers (headers : list (str * str)) : result bytes StoreError :=
  if len headers <=? u32_max
  then encode_entries headers (u32_to_le_bytes (len headers))
  else Err (Backend (lit "too many headers")).

(** ** Decoding *)

Definition corrupt_blob : StoreError := Backend (lit "corrupt headers blob").

(** [slice::split_at_checked]. *)
Definition split_at_checked (cursor : bytes) (n : Z) : option (bytes * bytes) :=
  if n <=? len cursor then Some (take (Z.to_nat n) cursor, drop (Z.to_nat n) cursor) else None.

Definition read_u32 (cursor : bytes) : result (Z * bytes) StoreError :=
  match split_at_checked cursor 4 with
  | Some (b, rest) => Ok (u32_from_le_bytes b, rest)
  | None => Err corrupt_blob
  end.

Definition read_blob (cursor : bytes) : result (bytes * bytes) StoreError :=
  ' (n, cursor) <-? read_u32 cursor;
  match split_at_checked cursor n with
  | Some (b, rest) => Ok (b, rest)
  | None => Err corrupt_blob
  end.

(** [String::from_utf8]. *)
Definition from_utf8 (b : bytes) : option str := if valid_utf8 b then Some b else None.

Definition from_utf8_or (err : str) (b : bytes) : result str StoreError :=
  match from_utf8 b with Some s => Ok s | None => Err (Backend err) end.

(** The body of the loop: one entry off the cursor into the map. *)
Definition decode_entry (cursor : bytes) (headers : list (str * str))
    : result (bytes * list (str * str)) StoreError :=
  ' (key, cursor) <-? read_blob cursor;
  ' (value, cursor) <-? read_blob cursor;
  key <-? from_utf8_or (lit "corrupt header key") key;
  value <-? from_utf8_or (lit "corrupt header value") value;
  Ok (cursor, bmap_insert key value headers).

(** [for _ in 0..count]: an entry takes at least eight bytes, so [fuel] above
    the length of the cursor never runs out ([decode_loop_fuel]). *)
Fixpoint decode_loop (fuel : nat) (count : Z) (cursor : bytes) (headers : list (str * str))
    : result (list (str * str)) StoreError :=
  if count <=? 0 then Ok headers else
  match fuel with
  | O => Err corrupt_blob
  | S fuel =>
      ' (cursor, headers) <-? decode_entry cursor headers;
      decode_loop fuel (count - 1) cursor headers
  end.

Definition decode_headers (b : bytes) : result (list (str * str)) StoreError :=
  ' (count, cursor) <-? read_u32 b;
  decode_loop (S (length cursor)) count cursor [].

(** ** Little-endian words *)

Lemma u32_le_roundtrip n : in_u32 n -> u32_from_le_bytes (u32_to_le_bytes n) = n.
Proof.
  unfold_int. intros Hn. unfold u32_from_le_bytes, u32_to_le_bytes.
  pose proof (Z.div_mod n 256 ltac:(lia)).
  pose proof (Z.div_mod (n / 256) 256 ltac:(lia)) as H1.
  pose proof (Z.div_mod (n / 65536) 256 ltac:(lia)) as H2.
  rewrite Z.div_div in H1 by lia. rewrite Z.div_div in H2 by lia.
  change (256 * 256) with 65536 in H1. change (65536 * 256) with 16777216 in H2.
  assert (0 <= n / 16777216 < 256) by (split; [apply Z.div_pos; lia|apply Z.div_lt_upper_bound; lia]).
  rewrite (Z.mod_small (n / 16777216)) by lia. lia.
Qed.

Lemma read_u32_le n rest : in_u32 n -> read_u32 (u32_to_le_bytes n ++ rest) = Ok (n, rest).
Proof.
  intros Hn. unfold read_u32, split_at_checked.
  rewrite len_app. change (len (u32_to_le_bytes n)) with 4.
  pose proof (len_nonneg rest). rewrite (proj2 (Z.leb_le 4 _)) by lia.
  destruct (take_app_exact (u32_to_le_bytes n) rest (Z.to_nat 4) eq_refl) as [-> ->].
  by rewrite (u32_le_roundtrip n Hn).
Qed.

Lemma read_blob_le blob rest :
  len blob <= u32_max -> read_blob (u32_to_le_bytes (len blob) ++ blob ++ rest) = Ok (blob, rest).
Proof.
  intros Hb. pose proof (len_nonneg blob). unfold read_blob. rewrite read_u32_le by (unfold_int; lia).
  cbn. unfold split_at_checked. pose proof (len_nonneg rest).
  rewrite len_app, (proj2 (Z.leb_le (len blob) _)) by lia.
  unfold len. rewrite Nat2Z.id.
  destruct (take_app_exact blob rest _ eq_refl) as [-> ->]. done.
Qed.

(** ** The loop *)

Lemma read_u32_length c n c' : read_u32 c = Ok (n, c') -> length c = (4 + length c')%nat.
Proof.
  unfold read_u32, split_at_checked, len.
  destruct (Z.leb_spec 4 (Z.of_nat (length c))); [|done].
  intros [= _ <-]. rewrite length_drop. lia.
Qed.

Lemma read_blob_length c b c' :
  read_blob c = Ok (b, c') -> length c = (4 + length b + length c')%nat.
Proof.
  unfold read_blob. intros ([n c1] & Hr & H)%rbind_ok_inv.
  apply read_u32_length in Hr. unfold split_at_checked, len in H.
  destruct (Z.leb_spec n (Z.of_nat (length c1))); [|done].
  injection H as <- <-. rewrite length_take, length_drop. lia.
Qed.

Lemma decode_entry_inv c h c' h' :
  decode_entry c h = Ok (c', h') ->
  exists k v, length c = (8 + length k + length v + length c')%nat /\
    valid_utf8 k = true /\ valid_utf8 v = true /\ h' = bmap_insert k v h.
Proof.
  unfold decode_entry.
  intros ([k c1] & Hk & ([v c2] & Hv & (k' & Hk' & (v' & Hv' & H)%rbind_ok_inv)%rbind_ok_inv)%rbind_ok_inv)%rbind_ok_inv.
  injection H as <- <-. apply read_blob_length in Hk, Hv.
  unfold from_utf8_or, from_utf8 in *.
  destruct (valid_utf8 k) eqn:Ek; [|done]. destruct (valid_utf8 v) eqn:Ev; [|done].
  injection Hk' as <-. injection Hv' as <-. exists k, v. split_and!; [lia|done..].
Qed.

(** Any fuel above the length of the cursor gives the same answer. *)
Lemma decode_loop_fuel f g count c h :
  (length c < f)%nat -> (length c < g)%nat -> decode_loop f count c h = decode_loop g count c h.
Proof.
  revert g count c h. induction f as [|f IH]; intros [|g] count c h Hf Hg; [lia..|].
  cbn [decode_loop]. case_match; [done|].
  destruct (decode_entry c h) as [[c' h']|] eqn:E; [|done]. cbn.
  apply decode_entry_inv in E as (k & v & ? & _). apply IH; lia.
Qed.

(** The loop's own equation, without fuel. *)
Definition decode_entries (count : Z) (c : bytes) (h : list (str * str)) :=
  decode_loop (S (length c)) count c h.

Lemma decode_entries_eq count c h :
  decode_entries count c h =
    if count <=? 0 then Ok h
    else ' (c, h) <-? decode_entry c h; decode_entries (count - 1) c h.
Proof.
  unfold decode_entries at 1. cbn [decode_loop]. case_match; [done|].
  destruct (decode_entry c h) as [[c' h']|] eqn:E; [|done].
  cbn [rbind]. unfold decode_entries.
  apply decode_entry_inv in E as (k & v & ? & _). apply decode_loop_fuel; lia.
Qed.

(** ** Decoding what was encoded *)

(** The bytes of one entry. *)
Definition entry_bytes (kv : str * str) : bytes :=
  u32_to_le_bytes (len kv.1) ++ kv.1 ++ u32_to_le_bytes (len kv.2) ++ kv.2.

Definition entry_fits (kv : str * str) : Prop := len kv.1 <= u32_max /\ len kv.2 <= u32_max.
Definition entry_utf8 (kv : str * str) : Prop := valid_utf8 kv.1 = true /\ valid_utf8 kv.2 = true.

Lemma encode_entries_ok h out :
  Forall entry_fits h -> encode_entries h out = Ok (out ++ concat (entry_bytes <$> h)).
Proof.
  intros Hh. revert out. induction Hh as [|[k v] h [Hk Hv] _ IH]; intros out; cbn.
  { by rewrite app_nil_r. }
  cbn in Hk, Hv. unfold encode_blob. rewrite (proj2 (Z.leb_le _ _) Hk). cbn.
  rewrite (proj2 (Z.leb_le _ _) Hv). cbn. rewrite IH. f_equal.
  unfold entry_bytes. cbn. by rewrite <- !(assoc_L app).
Qed.

Lemma encode_headers_ok h :
  len h <= u32_max -> Forall entry_fits h ->
  encode_headers h = Ok (u32_to_le_bytes (len h) ++ concat (entry_bytes <$> h)).
Proof.
  intros Hl Hh. unfold encode_headers. rewrite (proj2 (Z.leb_le _ _) Hl).
  by apply encode_entries_ok.
Qed.

Lemma decode_entry_bytes kv rest h :
  entry_fits kv -> entry_utf8 kv ->
  decode_entry (entry_bytes kv ++ rest) h = Ok (rest, bmap_insert kv.1 kv.2 h).
Proof.
  destruct kv as [k v]. intros [Hk Hv] [Uk Uv]. unfold decode_entry, entry_bytes.
  cbn [fst snd] in *. rewrite <- !(assoc_L app), read_blob_le by done. cbn [rbind].
  rewrite read_blob_le by done. cbn [rbind]. unfold from_utf8_or, from_utf8.
  rewrite Uk. cbn [rbind]. by rewrite Uv.
Qed.

Lemma decode_entries_bytes todo seen rest :
  Forall entry_fits todo -> Forall entry_utf8 todo -> sorted_map (seen ++ todo) ->
  decode_entries (len todo) (concat (entry_bytes <$> todo) ++ rest) seen = Ok (seen ++ todo).
Proof.
  intros Hf Hu. revert seen. induction Hf as [|[k v] todo Hkv _ IH]; intros seen Hs.
  { rewrite decode_entries_eq, app_nil_r. done. }
  inversion Hu as [|? ? Hkvu Hu']; subst.
  rewrite decode_entries_eq, len_cons.
  destruct (Z.leb_spec (1 + len todo) 0); [pose proof (len_nonneg todo); lia|].
  rewrite fmap_cons, concat_cons, <- (assoc_L app), decode_entry_bytes by done.
  cbn [rbind fst snd]. rewrite bmap_insert_last.
  - replace (1 + len todo - 1) with (len todo) by lia.
    rewrite (IH Hu') by (by rewrite <- (assoc_L app)). by rewrite <- (assoc_L app).
  - intros p Hp. apply (StronglySorted_app_1_elem_of _ _ _ p (k, v) Hs); [done|left].
Qed.

(** A decoded map is always a well-formed one. *)
Lemma decode_entries_wf count c h h' :
  decode_entries count c h = Ok h' -> sorted_map h -> Forall entry_utf8 h ->
  sorted_map h' /\ Forall entry_utf8 h'.
Proof.
  remember (length c) as n eqn:Hn. revert count c h Hn.
  induction (lt_wf n) as [n _ IH]. intros count c h -> Hd Hs Hu.
  rewrite decode_entries_eq in Hd. destruct (count <=? 0); [by injection Hd as <-|].
  apply rbind_ok_inv in Hd as ([c1 h1] & He & Hd).
  apply decode_entry_inv in He as (k & v & Hl & Hk & Hv & ->).
  eapply IH; [..|exact Hd| |]; [|reflexivity|by apply bmap_insert_sorted|]; [lia|].
  apply Forall_forall. intros p [->|Hp]%elem_of_bmap_insert; [done|].
  rewrite Forall_forall in Hu. auto.
Qed.

(** Encoding succeeds only on maps whose lengths fit their prefixes. *)
Lemma encode_entries_fits h out b :
  encode_entries h out = Ok b -> Forall entry_fits h.
Proof.
  revert out. induction h as [|[k v] h IH]; intros out He; [constructor|].
  cbn in He. apply rbind_ok_inv in He as (o1 & H1 & (o2 & H2 & He)%rbind_ok_inv).
  unfold encode_blob in *.
  destruct (Z.leb_spec (len k) u32_max), (Z.leb_spec (len v) u32_max); try done.
  constructor; [done|eauto].
Qed.

Lemma encode_headers_fits h b :
  encode_headers h = Ok b -> len h <= u32_max /\ Forall entry_fits h.
Proof.
  unfold encode_headers. destruct (Z.leb_spec (len h) u32_max); [|done].
  intros He. split; [done|]. by eapply encode_entries_fits.
Qed.

Lemma roundtrip h b rest :
  sorted_map h -> Forall entry_utf8 h -> encode_headers h = Ok b ->
  decode_headers (b ++ rest) = Ok h.
Proof.
  intros Hs Hu He. destruct (encode_headers_fits _ _ He) as [Hl Hf].
  rewrite encode_headers_ok in He by done.
  assert (b = u32_to_le_bytes (len h) ++ concat (entry_bytes <$> h)) as -> by congruence.
  unfold decode_headers. rewrite <- (assoc_L app), read_u32_le.
  - cbn [rbind]. by apply (decode_entries_bytes h []).
  - pose proof (len_nonneg h). unfold_int. lia.
Qed.

(** ** Properties *)

(** C8.  What the codec writes it reads back: for any headers map the codec
    accepts, decoding the encoded bytes, with anything after them, gives the
    map. *)
Theorem headers_roundtrip (h : list (str * str)) (b rest : bytes)
    (Hs : sorted_map h)
    (Hu : Forall (fun kv => valid_utf8 kv.1 = true /\ valid_utf8 kv.2 = true) h)
    (He : encode_headers h = Ok b) :
  decode_headers (b ++ rest) = Ok h.
Proof.
  by apply roundtrip.
Qed.

Lemma headers_roundtrip_witness :
  let h := [(lit "content-type", lit "application/json"); (lit "trace", lit "t-1")] in
  exists b, encode_headers h = Ok b /\ len b = 56 /\ decode_headers (b ++ [0xFF]) = Ok h.
Proof.
  eexists. split_and!; [vm_compute; reflexivity|vm_compute; reflexivity|].
  apply headers_roundtrip; [repeat constructor|repeat constructor|vm_compute; reflexivity].
Defined.

(** Distinct maps never share an encoding, so the stored bytes determine
    the map. *)
Lemma encode_headers_injective (h k : list (str * str)) (b : bytes)
    (Hh : sorted_map h) (Hk : sorted_map k)
    (Uh : Forall (fun kv => valid_utf8 kv.1 = true /\ valid_utf8 kv.2 = true) h)
    (Uk : Forall (fun kv => valid_utf8 kv.1 = true /\ valid_utf8 kv.2 = true) k)
    (Eh : encode_headers h = Ok b) (Ek : encode_headers k = Ok b) :
  h = k.
Proof.
  assert (forall m, sorted_map m -> Forall entry_utf8 m -> encode_headers m = Ok b ->
    decode_headers b = Ok m) as Hdec.
  { intros m Hm Um Em. rewrite <- (app_nil_r b). by apply roundtrip. }
  pose proof (Hdec h Hh Uh Eh) as H1. rewrite (Hdec k Hk Uk Ek) in H1. by injection H1.
Qed.

Lemma encode_headers_injective_witness :
  let h := [(lit "a", lit "1"); (lit "b", lit "2")] in
  exists b, encode_headers h = Ok b /\ h = [(lit "a", lit "1"); (lit "b", lit "2")].
Proof.
  eexists. split; [vm_compute; reflexivity|].
  eapply encode_headers_injective; try (repeat constructor; fail); vm_compute; reflexivity.
Defined.

(** C38.  Whatever the bytes, a successful decode yields a map in strict key
    order whose keys and values are UTF-8; in particular later duplicates of a
    key overwrite earlier ones instead of breaking the map. *)
Theorem decode_headers_wf (b : bytes) (h : list (str * str)) (H : decode_headers b = Ok h) :
  sorted_map h /\ Forall (fun kv => valid_utf8 kv.1 = true /\ valid_utf8 kv.2 = true) h.
Proof.
  unfold decode_headers in H. apply rbind_ok_inv in H as ([n c] & _ & H).
  eapply decode_entries_wf; [exact H|constructor|constructor].
Qed.

Lemma decode_headers_wf_witness :
  let b := u32_to_le_bytes 2 ++ entry_bytes (lit "k", lit "old") ++ entry_bytes (lit "k", lit "new") in
  decode_headers b = Ok [(lit "k", lit "new")] /\ sorted_map [(lit "k", lit "new")].
Proof.
  split; [by vm_compute|].
  refine (proj1 (decode_headers_wf (u32_to_le_bytes 2 ++ entry_bytes (lit "k", lit "old")
    ++ entry_bytes (lit "k", lit "new")) _ _)). by vm_compute.
Defined.

(** ** Truncated blobs *)

Lemma split_at_checked_app c n b c' r :
  split_at_checked c n = Some (b, c') -> 0 <= n -> split_at_checked (c ++ r) n = Some (b, c' ++ r).
Proof.
  unfold split_at_checked. intros H Hn. rewrite len_app. pose proof (len_nonneg r).
  destruct (Z.leb_spec n (len c)) as [Hl|]; [|done]. injection H as <- <-.
  rewrite (proj2 (Z.leb_le _ _)) by lia. unfold len in Hl.
  rewrite take_app_le, drop_app_le by lia. done.
Qed.

Lemma read_u32_app c n c' r : read_u32 c = Ok (n, c') -> read_u32 (c ++ r) = Ok (n, c' ++ r).
Proof.
  unfold read_u32. destruct (split_at_checked c 4) as [[b c1]|] eqn:E; [|done].
  rewrite (split_at_checked_app _ _ _ _ r E) by done. by intros [= -> ->].
Qed.

Lemma read_blob_app c b c' r : read_blob c = Ok (b, c') -> read_blob (c ++ r) = Ok (b, c' ++ r).
Proof.
  unfold read_blob. intros ([n c1] & Hr & H)%rbind_ok_inv.
  rewrite (read_u32_app _ _ _ r Hr). cbn [rbind].
  destruct (split_at_checked c1 n) as [[b1 c2]|] eqn:E; [|done]. injection H as -> ->.
  destruct (Z.le_gt_cases 0 n) as [Hn|Hn]; [by rewrite (split_at_checked_app _ _ _ _ r E)|].
  unfold split_at_checked in *. pose proof (len_nonneg c1). pose proof (len_nonneg (c1 ++ r)).
  rewrite !(proj2 (Z.leb_le _ _)) in * by lia. destruct n; try lia. cbn in *.
  by injection E as <- <-.
Qed.

Lemma decode_entry_app c h c' h' r :
  decode_entry c h = Ok (c', h') -> decode_entry (c ++ r) h = Ok (c' ++ r, h').
Proof.
  unfold decode_entry. intros ([k c1] & Hk & ([v c2] & Hv & H)%rbind_ok_inv)%rbind_ok_inv.
  rewrite (read_blob_app _ _ _ r Hk). cbn [rbind].
  rewrite (read_blob_app _ _ _ r Hv). cbn [rbind].
  destruct (from_utf8_or _ k); [|done]. cbn [rbind] in *.
  destruct (from_utf8_or _ v); [|done]. cbn [rbind] in *. by injection H as <- <-.
Qed.

Lemma decode_entries_truncated todo seen n :
  Forall entry_fits todo -> Forall entry_utf8 todo ->
  (n < length (concat (entry_bytes <$> todo)))%nat ->
  is_ok (decode_entries (len todo) (take n (concat (entry_bytes <$> todo))) seen) = false.
Proof.
  intros Hf Hu. revert seen n. induction Hf as [|kv todo Hkv _ IH]; intros seen n Hn.
  { cbn in Hn. lia. }
  inversion Hu as [|? ? Hkvu Hu']; subst. rewrite fmap_cons, concat_cons in *.
  rewrite length_app in Hn. rewrite decode_entries_eq, len_cons.
  destruct (Z.leb_spec (1 + len todo) 0); [pose proof (len_nonneg todo); lia|].
  replace (1 + len todo - 1) with (len todo) by lia.
  destruct (decide (length (entry_bytes kv) <= n)%nat) as [Hge|Hlt].
  - rewrite take_app_ge, decode_entry_bytes by done. cbn [rbind]. apply IH; [done|lia].
  - rewrite take_app_le by lia.
    destruct (decode_entry (take n (entry_bytes kv)) seen) as [[c1 h1]|] eqn:E; [|done].
    apply (decode_entry_app _ _ _ _ (drop n (entry_bytes kv))) in E.
    pose proof (decode_entry_bytes kv [] seen Hkv Hkvu) as Hfull.
    rewrite app_nil_r in Hfull. rewrite take_drop, Hfull in E.
    assert (c1 ++ drop n (entry_bytes kv) = []) as [_ Hd]%app_eq_nil by congruence.
    apply (f_equal length) in Hd. rewrite length_drop in Hd. cbn [length] in Hd. lia.
Qed.

(** C37.  A blob cut short is never accepted: decoding any strict prefix of an
    encoded headers map fails. *)
Theorem decode_headers_truncated (h : list (str * str)) (b : bytes) (n : nat)
    (Hu : Forall (fun kv => valid_utf8 kv.1 = true /\ valid_utf8 kv.2 = true) h)
    (He : encode_headers h = Ok b) (Hn : (n < length b)%nat) :
  is_ok (decode_headers (take n b)) = false.
Proof.
  destruct (encode_headers_fits _ _ He) as [Hl Hf].
  rewrite encode_headers_ok in He by done.
  assert (b = u32_to_le_bytes (len h) ++ concat (entry_bytes <$> h)) as -> by congruence.
  rewrite length_app in Hn. change (length (u32_to_le_bytes (len h))) with 4%nat in Hn.
  unfold decode_headers. destruct (decide (4 <= n)%nat) as [Hge|Hlt].
  - rewrite take_app_ge by done.
    rewrite read_u32_le by (pose proof (len_nonneg h); unfold_int; lia). cbn [rbind].
    apply decode_entries_truncated; [done..|]. cbn. lia.
  - unfold read_u32, split_at_checked, len. rewrite length_take, length_app.
    change (length (u32_to_le_bytes _)) with 4%nat.
    destruct (Z.leb_spec 4 (Z.of_nat (n `min` (4 + length (concat (entry_bytes <$> h)))))); [lia|done].
Qed.

Lemma decode_headers_truncated_witness :
  let h := [(lit "trace", lit "t-1")] in
  exists b, encode_headers h = Ok b /\ is_ok (decode_headers (take 12 b)) = false.
Proof.
  eexists. split; [vm_compute; reflexivity|].
  apply (decode_headers_truncated [(lit "trace", lit "t-1")]);
    [repeat constructor|vm_compute; reflexivity|cbn; lia].
Defined.
