(* ===== verification/CodecGrammar.v ===== *)
(** * The format the codec reads

    [decode_headers] of [src/src/codec.rs] as the recogniser of a grammar:
    a count, that many entries, and anything.  The grammar is what the doc
    comment of [encode_headers] states; here it is what [decode_headers]
    accepts, no more and no less, with the map it yields. *)

From S2P Require Import Prelude BTree Utf8 Event Codec.

Definition byte (x : Z) : Prop := 0 <= x < 256.

(** [headers.insert] for each entry in turn: the last value of a key wins. *)
Definition headers_from (entries seen : list (str * str)) : list (str * str) :=
  foldl (fun m kv => bmap_insert kv.1 kv.2 m) seen entries.

(** [u32 LE count], then per entry [u32 LE key-length], key bytes,
    [u32 LE value-length], value bytes; what follows is not looked at. *)
Definition headers_blob (b : bytes) (entries : list (str * str)) : Prop :=
  exists rest, b = u32_to_le_bytes (len entries) ++ concat (entry_bytes <$> entries) ++ rest /\
    len entries <= u32_max /\ Forall entry_fits entries /\ Forall entry_utf8 entries.

(** ** Reading back the bytes of a word *)

Lemma u32_from_le_range b0 b1 b2 b3 :
  Forall byte [b0; b1; b2; b3] -> in_u32 (u32_from_le_bytes [b0; b1; b2; b3]).
Proof.
  intros Hb. repeat (apply Forall_cons in Hb as [? Hb]). unfold byte in *.
  unfold u32_from_le_bytes. unfold_int. lia.
Qed.

Lemma u32_le_word b0 b1 b2 b3 :
  Forall byte [b0; b1; b2; b3] ->
  u32_to_le_bytes (u32_from_le_bytes [b0; b1; b2; b3]) = [b0; b1; b2; b3].
Proof.
  intros Hb. repeat (apply Forall_cons in Hb as [? Hb]). unfold byte in *.
  unfold u32_from_le_bytes, u32_to_le_bytes. set (n := _ + _ + _ + _).
  assert (n / 256 = b1 + 256 * b2 + 65536 * b3) as E1 by (symmetry; apply (Z.div_unique _ _ _ b0); lia).
  assert (n / 65536 = b2 + 256 * b3) as E2 by (symmetry; apply (Z.div_unique _ _ _ (b0 + 256 * b1)); lia).
  assert (n / 16777216 = b3) as E3
    by (symmetry; apply (Z.div_unique _ _ _ (b0 + 256 * b1 + 65536 * b2)); lia).
  rewrite E1, E2, E3. repeat f_equal; symmetry.
  - apply (Z.mod_unique _ _ (b1 + 256 * b2 + 65536 * b3)); lia.
  - apply (Z.mod_unique _ _ (b2 + 256 * b3)); lia.
  - apply (Z.mod_unique _ _ b3); lia.
  - apply (Z.mod_unique _ _ 0); lia.
Qed.

Lemma read_u32_inv c n c' :
  Forall byte c -> read_u32 c = Ok (n, c') -> c = u32_to_le_bytes n ++ c' /\ in_u32 n.
Proof.
  intros Hc. unfold read_u32, split_at_checked, len.
  destruct (Z.leb_spec 4 (Z.of_nat (length c))) as [Hl|]; [|done]. intros [= <- <-].
  destruct c as [|b0 [|b1 [|b2 [|b3 c]]]]; cbn in Hl; try lia. cbn [take drop Z.to_nat Pos.to_nat Pos.iter_op Nat.add].
  assert (Forall byte [b0; b1; b2; b3]) as H4 by (by apply (Forall_app byte [b0; b1; b2; b3] c) in Hc as [? _]).
  change (take (Z.to_nat 4) (b0 :: b1 :: b2 :: b3 :: c)) with [b0; b1; b2; b3].
  change (drop (Z.to_nat 4) (b0 :: b1 :: b2 :: b3 :: c)) with c.
  split; [by rewrite (u32_le_word b0 b1 b2 b3)|by apply u32_from_le_range].
Qed.

Lemma read_blob_inv c b c' :
  Forall byte c -> read_blob c = Ok (b, c') -> c = u32_to_le_bytes (len b) ++ b ++ c' /\ len b <= u32_max.
Proof.
  intros Hc. unfold read_blob. intros ([n c1] & Hr & H)%rbind_ok_inv.
  apply read_u32_inv in Hr as [-> Hn]; [|done]. unfold split_at_checked, len in H.
  destruct (Z.leb_spec n (Z.of_nat (length c1))) as [Hl|]; [|done]. injection H as <- <-.
  assert (len (take (Z.to_nat n) c1) = n) as E.
  { unfold len. rewrite length_take. revert Hn Hl. unfold_int. lia. }
  rewrite E, take_drop. split; [done|]. revert Hn. unfold_int. lia.
Qed.

Lemma decode_entry_inverts c h c' h' :
  Forall byte c -> decode_entry c h = Ok (c', h') ->
  exists kv, c = entry_bytes kv ++ c' /\ entry_fits kv /\ entry_utf8 kv /\ h' = bmap_insert kv.1 kv.2 h.
Proof.
  intros Hc. unfold decode_entry.
  intros ([k c1] & Hk & ([v c2] & Hv & (k' & Hk' & (v' & Hv' & H)%rbind_ok_inv)%rbind_ok_inv)%rbind_ok_inv)%rbind_ok_inv.
  injection H as <- <-. apply read_blob_inv in Hk as [-> Lk]; [|done].
  do 2 apply Forall_app in Hc as [_ Hc]. apply read_blob_inv in Hv as [-> Lv]; [|done].
  unfold from_utf8_or, from_utf8 in *.
  destruct (valid_utf8 k) eqn:Ek; [|done]. destruct (valid_utf8 v) eqn:Ev; [|done].
  injection Hk' as <-. injection Hv' as <-. exists (k, v). split; [|done].
  unfold entry_bytes. cbn. by rewrite <- !(assoc_L app).
Qed.

(** ** The loop *)

Lemma decode_entries_grammar (n : nat) c h h' :
  Forall byte c -> decode_entries (Z.of_nat n) c h = Ok h' ->
  exists entries rest, length entries = n /\ c = concat (entry_bytes <$> entries) ++ rest /\
    Forall entry_fits entries /\ Forall entry_utf8 entries /\ h' = headers_from entries h.
Proof.
  revert c h. induction n as [|n IH]; intros c h Hc; rewrite decode_entries_eq.
  - intros [= <-]. exists [], c. split_and!; constructor || done.
  - rewrite (proj2 (Z.leb_gt _ _)) by lia.
    intros ([c1 h1] & He & Hd)%rbind_ok_inv. apply decode_entry_inverts in He as (kv & -> & Hf & Hu & ->); [|done].
    replace (Z.of_nat (S n) - 1) with (Z.of_nat n) in Hd by lia.
    apply Forall_app in Hc as [_ Hc]. destruct (IH _ _ Hc Hd) as (es & rest & <- & -> & Hfs & Hus & ->).
    exists (kv :: es), rest. rewrite fmap_cons, concat_cons, <- (assoc_L app).
    split_and!; [done|done|by constructor|by constructor|done].
Qed.

Lemma decode_entries_accepts entries seen rest :
  Forall entry_fits entries -> Forall entry_utf8 entries ->
  decode_entries (len entries) (concat (entry_bytes <$> entries) ++ rest) seen
    = Ok (headers_from entries seen).
Proof.
  intros Hf. revert seen. induction Hf as [|kv es Hkv _ IH]; intros seen Hu; [by rewrite decode_entries_eq|].
  apply Forall_cons in Hu as [Hkvu Hu]. rewrite decode_entries_eq, len_cons.
  rewrite (proj2 (Z.leb_gt _ _)) by (pose proof (len_nonneg es); lia).
  rewrite fmap_cons, concat_cons, <- (assoc_L app), decode_entry_bytes by done. cbn [rbind].
  replace (1 + len es - 1) with (len es) by lia. by apply IH.
Qed.

(** C23.  [decode_headers] accepts exactly the documented format, and yields the
    entries inserted in order: the last value of a repeated key wins, entries
    may come in any order, bytes after the last entry are ignored; anything else
    is refused. *)
Theorem decode_headers_grammar (b : bytes) (h : list (str * str)) (Hb : Forall byte b) :
  decode_headers b = Ok h <-> exists entries, headers_blob b entries /\ h = headers_from entries [].
Proof.
  unfold decode_headers. split.
  - intros ([n c] & Hr & H)%rbind_ok_inv. apply read_u32_inv in Hr as [-> Hn]; [|done].
    apply Forall_app in Hb as [_ Hb]. change (decode_entries n c [] = Ok h) in H.
    rewrite <- (Z2Nat.id n) in H by (revert Hn; unfold_int; lia).
    destruct (decode_entries_grammar _ _ _ _ Hb H) as (es & rest & Hl & -> & Hf & Hu & ->).
    exists es. split; [|done]. exists rest.
    assert (len es = n) as -> by (unfold len; rewrite Hl, Z2Nat.id; [done|revert Hn; unfold_int; lia]).
    split_and!; [done|revert Hn; unfold_int; lia|done|done].
  - intros (es & (rest & -> & Hl & Hf & Hu) & ->).
    rewrite read_u32_le by (pose proof (len_nonneg es); unfold_int; lia). cbn [rbind].
    by apply decode_entries_accepts.
Qed.

Lemma decode_headers_grammar_witness :
  let entries := [(lit "b", lit "1"); (lit "a", lit "2"); (lit "b", lit "3")] in
  let b := u32_to_le_bytes 3 ++ concat (entry_bytes <$> entries) ++ [255; 0] in
  decode_headers b = Ok [(lit "a", lit "2"); (lit "b", lit "3")] /\
  exists entries', headers_blob b entries' /\
    [(lit "a", lit "2"); (lit "b", lit "3")] = headers_from entries' [].
Proof.
  cbv zeta.
  set (b := u32_to_le_bytes 3 ++ _).
  assert (decode_headers b = Ok [(lit "a", lit "2"); (lit "b", lit "3")]) as H by vm_eq.
  split; [exact H|].
  apply (proj1 (decode_headers_grammar b _ ltac:(repeat (constructor; [split; by vm_compute|]); constructor))).
  exact H.
Defined.
