(* ===== verification/Float.v ===== *)
(** * binary64 arithmetic

    [BackoffPolicy::exponential_delay] scales a delay by an [f64] factor.  The
    operations it uses are the IEEE 754 ones, taken from the executable
    specification [SpecFloat] of the Standard Library at precision 53 and
    exponent bound 1024, together with Rust's conversions to and from
    integers. *)

From Stdlib Require Export SpecFloat.
From S2P Require Import Prelude.

Abbreviation f64 := spec_float.

Definition f64_mul (x y : f64) : f64 := SFmul 53 1024 x y.
(** [n as f64], rounding to nearest even. *)
Definition f64_of_u128 (n : Z) : f64 := binary_normalize 53 1024 n 0 false.
(** [x >= y], false on NaN. *)
Definition f64_ge (x y : f64) : bool := SFleb y x.
Definition f64_zero : f64 := S754_zero false.
Definition f64_one : f64 := S754_finite false 4503599627370496 (-52).
Definition f64_two : f64 := S754_finite false 4503599627370496 (-51).
Definition f64_is_finite (x : f64) : bool :=
  match x with S754_zero _ | S754_finite _ _ _ => true | _ => false end.
(** [x.max(0.0)]: a NaN operand is ignored. *)
Definition f64_max_zero (x : f64) : f64 :=
  match x with
  | S754_nan => f64_zero
  | _ => if SFltb x f64_zero then f64_zero else x
  end.
(** [x as u64]: truncation, saturating at both ends, NaN to zero. *)
Definition f64_to_u64 (x : f64) : Z :=
  match x with
  | S754_nan => 0
  | S754_zero _ => 0
  | S754_infinity s => if s then 0 else u64_max
  | S754_finite true _ _ => 0
  | S754_finite false m e => Z.min (Z.shiftl (Zpos m) e) u64_max
  end.
Definition f64_valid (x : f64) : bool := valid_binary 53 1024 x.

Lemma f64_to_u64_range x : 0 <= f64_to_u64 x <= u64_max.
Proof.
  destruct x as [|[]| |[] m e]; cbn -[Z.shiftl Z.min]; unfold_int; try lia.
  assert (0 <= Z.shiftl (Zpos m) e) by (apply Z.shiftl_nonneg; lia). lia.
Qed.

(** ** Digits and shifts *)

Lemma digits2_pos_bounds m :
  2 ^ (Zpos (digits2_pos m) - 1) <= Zpos m < 2 ^ Zpos (digits2_pos m).
Proof.
  induction m as [m IH|m IH|]; cbn [digits2_pos]; [..|by vm_compute];
    rewrite Pos2Z.inj_succ;
    replace (Z.succ (Zpos (digits2_pos m)) - 1) with (Zpos (digits2_pos m)) by lia;
    rewrite Z.pow_succ_r by lia;
    replace (Zpos (digits2_pos m)) with (Z.succ (Zpos (digits2_pos m) - 1)) at 1 by lia;
    rewrite Z.pow_succ_r by lia; lia.
Qed.

Lemma digits2_pos_unique m d :
  0 < d -> 2 ^ (d - 1) <= Zpos m < 2 ^ d -> Zpos (digits2_pos m) = d.
Proof.
  intros Hd Hm. pose proof (digits2_pos_bounds m) as Hb.
  destruct (Z.lt_trichotomy (Zpos (digits2_pos m)) d) as [Hlt|[?|Hgt]]; [|done|].
  - assert (2 ^ Zpos (digits2_pos m) <= 2 ^ (d - 1)) by (apply Z.pow_le_mono_r; lia). lia.
  - assert (2 ^ d <= 2 ^ (Zpos (digits2_pos m) - 1)) by (apply Z.pow_le_mono_r; lia). lia.
Qed.

Lemma shr_1_m mrs : 0 <= shr_m mrs -> shr_m (shr_1 mrs) = shr_m mrs / 2.
Proof.
  destruct mrs as [m r s]. cbn [shr_m]. intros Hm.
  destruct m as [|[p|p|]|p]; cbn [shr_1 shr_m]; [done|..|lia].
  - rewrite Pos2Z.inj_xI. apply (Z.div_unique _ _ _ 1); lia.
  - rewrite Pos2Z.inj_xO. apply (Z.div_unique _ _ _ 0); lia.
  - done.
Qed.

Lemma iter_shr_1_m p mrs :
  0 <= shr_m mrs -> shr_m (SpecFloat.iter_pos shr_1 p mrs) = shr_m mrs / 2 ^ Zpos p.
Proof.
  revert mrs. induction p as [p IH|p IH|]; intros mrs Hm; cbn [SpecFloat.iter_pos].
  - assert (0 <= shr_m (shr_1 mrs)) by (rewrite shr_1_m by done; apply Z.div_pos; lia).
    assert (0 < 2 ^ Zpos p) by (apply Z.pow_pos_nonneg; lia).
    rewrite IH by (rewrite IH by done; apply Z.div_pos; lia).
    rewrite IH, shr_1_m by done. rewrite !Z.div_div by lia. f_equal.
    rewrite (Pos2Z.inj_xI p), Z.pow_add_r, Z.pow_mul_r by lia. change (2 ^ 1) with 2.
    rewrite <- Z.pow_mul_r by lia. replace (2 * Zpos p) with (Zpos p + Zpos p) by lia.
    rewrite Z.pow_add_r by lia. lia.
  - assert (0 < 2 ^ Zpos p) by (apply Z.pow_pos_nonneg; lia).
    rewrite IH by (rewrite IH by done; apply Z.div_pos; lia).
    rewrite IH by done. rewrite !Z.div_div by lia. f_equal.
    rewrite (Pos2Z.inj_xO p). replace (2 * Zpos p) with (Zpos p + Zpos p) by lia.
    by rewrite Z.pow_add_r by lia.
  - rewrite shr_1_m by done. done.
Qed.

Lemma shr_record_of_loc_m m l : shr_m (shr_record_of_loc m l) = m.
Proof. by destruct l as [|[]]. Qed.

Lemma shr_fexp_m m e l n :
  0 <= m -> n = Z.max 0 (fexp 53 1024 (Zdigits2 m + e) - e) ->
  shr_m (shr_fexp 53 1024 m e l).1 = m / 2 ^ n /\ (shr_fexp 53 1024 m e l).2 = e + n.
Proof.
  intros Hm ->. unfold shr_fexp, shr.
  destruct (fexp 53 1024 (Zdigits2 m + e) - e) as [|p|p]; cbn [fst snd Z.max Z.compare].
  - rewrite shr_record_of_loc_m, Z.div_1_r. split; [done|lia].
  - rewrite iter_shr_1_m by (by rewrite shr_record_of_loc_m). by rewrite shr_record_of_loc_m.
  - rewrite shr_record_of_loc_m, Z.div_1_r. split; [done|lia].
Qed.

Lemma round_nearest_even_bounds m l :
  m <= round_nearest_even m l <= m + 1.
Proof. destruct l as [|[]]; cbn; repeat case_match; lia. Qed.

(** ** Rounding from above the truncation

    [e0] is the exponent the first shift of [binary_round_aux] reaches. *)

Lemma digits_Z m : 0 < m -> 2 ^ (Zdigits2 m - 1) <= m < 2 ^ Zdigits2 m.
Proof. destruct m; [lia| |lia]. intros _. apply digits2_pos_bounds. Qed.

Lemma digits_Z_unique m d : 0 < d -> 2 ^ (d - 1) <= m < 2 ^ d -> Zdigits2 m = d.
Proof.
  intros Hd Hm. assert (0 < 2 ^ (d - 1)) by (apply Z.pow_pos_nonneg; lia).
  destruct m as [|m|m]; [lia| |lia]. by apply digits2_pos_unique.
Qed.

(** A mantissa of 53 digits stays as it is, [2^53] loses its last zero: the
    second shift keeps the value. *)
Lemma shr_fexp_carry m e :
  2 ^ 52 <= m <= 2 ^ 53 -> -1074 <= e ->
  let r := shr_fexp 53 1024 m e loc_Exact in
  exists n, 0 <= n /\ r.2 = e + n /\ shr_m r.1 * 2 ^ n = m /\ 0 < shr_m r.1.
Proof.
  intros Hm He. cbn zeta. destruct (decide (m = 2 ^ 53)) as [->|Hne].
  - exists 1. destruct (shr_fexp_m (2 ^ 53) e loc_Exact 1) as [-> ->]; [lia| |split_and!; done || lia].
    rewrite (digits_Z_unique (2 ^ 53) 54) by (split; lia). unfold fexp, emin. lia.
  - exists 0. destruct (shr_fexp_m m e loc_Exact 0) as [-> ->]; [lia| |].
    + rewrite (digits_Z_unique m 53) by lia. unfold fexp, emin. lia.
    + change (2 ^ 0) with 1. rewrite Z.div_1_r. lia.
Qed.

(** Rounding a long product to 53 bits never goes below its truncation. *)
Lemma binary_round_aux_lower m e :
  0 < m -> 53 < Zdigits2 m -> -1021 <= Zdigits2 m + e ->
  let n := Zdigits2 m - 53 in
  match binary_round_aux 53 1024 false m e loc_Exact with
  | S754_finite false m' e' =>
      e + n <= e' /\ m / 2 ^ n <= Zpos m' * 2 ^ (e' - (e + n))
  | S754_infinity false => True
  | _ => False
  end.
Proof.
  intros Hm Hd He n. unfold binary_round_aux.
  destruct (shr_fexp_m m e loc_Exact n) as [H1 H2]; [lia|subst n; unfold fexp, emin; lia|].
  destruct (shr_fexp 53 1024 m e loc_Exact) as [mrs' e'] eqn:E1. cbn [fst snd] in H1, H2.
  assert (2 ^ 52 <= m / 2 ^ n < 2 ^ 53) as Hq.
  { pose proof (digits_Z m Hm) as Hb. subst n.
    assert (0 < 2 ^ (Zdigits2 m - 53)) by (apply Z.pow_pos_nonneg; lia).
    split; [apply Z.div_le_lower_bound; [done|]|apply Z.div_lt_upper_bound; [done|]];
      rewrite <- Z.pow_add_r by lia;
      [replace (Zdigits2 m - 53 + 52) with (Zdigits2 m - 1) by lia
      |replace (Zdigits2 m - 53 + 53) with (Zdigits2 m) by lia]; lia. }
  assert (n = Zdigits2 m - 53) as Hn by done. clearbody n.
  set (q := round_nearest_even (shr_m mrs') (loc_of_shr_record mrs')).
  pose proof (round_nearest_even_bounds (shr_m mrs') (loc_of_shr_record mrs')) as Hr.
  fold q in Hr.
  destruct (shr_fexp_carry q e') as (k & Hk & H3 & H4 & H5); [lia|lia|].
  destruct (shr_fexp 53 1024 q e' loc_Exact) as [mrs'' e''] eqn:E2. cbn [fst snd] in *.
  destruct (shr_m mrs'') as [|p|p]; [lia| |lia].
  destruct (e'' <=? 1024 - 53); [split; [lia|]|done].
  replace (e'' - (e + n)) with k by lia. lia.
Qed.

(** ** Multiplying an integer by a factor of at least one *)

Lemma pos_iter_xO p d : Zpos (Pos.iter xO p d) = Zpos p * 2 ^ Zpos d.
Proof.
  induction d as [|d IH] using Pos.peano_ind; [cbn; lia|].
  rewrite Pos.iter_succ, Pos2Z.inj_succ, Z.pow_succ_r by lia.
  rewrite Pos2Z.inj_xO, IH. lia.
Qed.

(** Integers below [2^53] convert exactly, to a 53-digit mantissa. *)
Lemma f64_of_u128_exact d :
  0 < d < 2 ^ 53 ->
  exists m e, f64_of_u128 d = S754_finite false m e /\
    -52 <= e <= 0 /\ 2 ^ 52 <= Zpos m < 2 ^ 53 /\ Zpos m = d * 2 ^ (- e).
Proof.
  intros Hd. destruct d as [|p|p]; [lia| |lia].
  pose proof (digits2_pos_bounds p) as Hb. set (k := Zpos (digits2_pos p)) in *.
  assert (1 <= k <= 53) as Hk.
  { split; [lia|]. destruct (Z.le_gt_cases k 53); [done|].
    assert (2 ^ 53 <= 2 ^ (k - 1)) by (apply Z.pow_le_mono_r; lia). lia. }
  unfold f64_of_u128, binary_normalize, binary_round. fold k.
  assert (fexp 53 1024 (k + 0) = k - 53) as -> by (unfold fexp, emin; lia).
  unfold shl_align.
  assert (exists m, (match k - 53 - 0 with Zneg n => (Pos.iter xO p n, k - 53) | _ => (p, 0) end)
    = (m, k - 53) /\ Zpos m = Zpos p * 2 ^ (53 - k)) as (m & -> & Hm).
  { destruct (k - 53 - 0) as [|n|n] eqn:En; [|lia|].
    - exists p. split; [f_equal; lia|]. replace (53 - k) with 0 by lia. lia.
    - eexists. split; [done|]. rewrite pos_iter_xO. f_equal. f_equal. lia. }
  assert (2 ^ 52 <= Zpos m < 2 ^ 53) as Hmb.
  { rewrite Hm. replace (2 ^ 52) with (2 ^ (k - 1) * 2 ^ (53 - k))
      by (rewrite <- Z.pow_add_r by lia; f_equal; lia).
    replace (2 ^ 53) with (2 ^ k * 2 ^ (53 - k)) by (rewrite <- Z.pow_add_r by lia; f_equal; lia).
    assert (0 < 2 ^ (53 - k)) by (apply Z.pow_pos_nonneg; lia). nia. }
  exists m, (k - 53). split_and!; [|lia..|].
  - unfold binary_round_aux, shr_fexp. cbn [Zdigits2].
    rewrite (digits2_pos_unique m 53) by lia.
    replace (fexp 53 1024 (53 + (k - 53)) - (k - 53)) with 0 by (unfold fexp, emin; lia).
    cbn [shr shr_record_of_loc shr_m loc_of_shr_record round_nearest_even Zdigits2].
    rewrite (digits2_pos_unique m 53) by lia.
    replace (fexp 53 1024 (53 + (k - 53)) - (k - 53)) with 0 by (unfold fexp, emin; lia).
    cbn [shr shr_m]. destruct (Z.leb_spec (k - 53) (1024 - 53)); [done|lia].
  - rewrite Hm. f_equal. f_equal. lia.
Qed.

(** A valid factor [>= 1.0] is infinite or has value at least one. *)
Lemma f64_ge_one_inv f :
  f64_valid f = true -> f64_ge f f64_one = true ->
  f = S754_infinity false \/
  exists m e, f = S754_finite false m e /\ 2 ^ 52 <= Zpos m < 2 ^ 53 /\ -52 <= e.
Proof.
  unfold f64_valid, f64_ge, f64_one, SFleb. intros Hv Hle.
  destruct f as [[]|[]| |[] m e]; cbn -[Z.compare Pos.compare_cont] in Hle; try done; [by left|right].
  exists m, e. split; [done|]. cbn in Hv. unfold bounded, canonical_mantissa in Hv.
  apply andb_true_iff in Hv as [Hc _]. apply Z.eqb_eq in Hc. unfold fexp, emin in Hc.
  assert (-52 <= e) as He.
  { destruct (Z.compare_spec (-52) e); [lia..|]. done. }
  assert (Zpos (digits2_pos m) = 53) as Hd by lia.
  pose proof (digits2_pos_bounds m) as Hb. rewrite Hd in Hb. split; [lia|done].
Qed.

(** The first 53 digits of [m1 * m2], on the grid of [m1], are at least [m1]. *)
Lemma round_grid m1 m2 e2 n :
  2 ^ 52 <= m1 < 2 ^ 53 -> 2 ^ 52 <= m2 < 2 ^ 53 -> -52 <= e2 ->
  n = Zdigits2 (m1 * m2) - 53 ->
  52 <= n /\ m1 <= m1 * m2 / 2 ^ n * 2 ^ (e2 + n).
Proof.
  intros Hm1 Hm2 He2 ->.
  assert (2 ^ 104 <= m1 * m2 < 2 ^ 106) as Hp by nia.
  destruct (Z.le_gt_cases (2 ^ 105) (m1 * m2)) as [Hge|Hlt].
  - rewrite (digits_Z_unique _ 106) by lia. split; [lia|].
    assert (2 ^ 52 <= m1 * m2 / 2 ^ (106 - 53)).
    { apply Z.div_le_lower_bound; [done|]. rewrite <- Z.pow_add_r by lia. done. }
    assert (2 ^ 1 <= 2 ^ (e2 + (106 - 53))) by (apply Z.pow_le_mono_r; lia). nia.
  - rewrite (digits_Z_unique _ 105) by lia. split; [lia|].
    assert (m1 <= m1 * m2 / 2 ^ (105 - 53)).
    { apply Z.div_le_lower_bound; [done|]. change (105 - 53) with 52. nia. }
    assert (2 ^ 0 <= 2 ^ (e2 + (105 - 53))) by (apply Z.pow_le_mono_r; lia). nia.
Qed.

(** The product of [d] by such a factor, truncated back to an integer, is at
    least [d] (or the product is infinite). *)
Lemma f64_scale_lower d f :
  0 < d < 2 ^ 53 -> f64_valid f = true -> f64_ge f f64_one = true ->
  let x := f64_mul (f64_of_u128 d) f in
  x = S754_infinity false \/ f64_is_finite x = true /\ d <= f64_to_u64 (f64_max_zero x).
Proof.
  intros Hd Hv Hf. cbn zeta.
  destruct (f64_of_u128_exact d Hd) as (m1 & e1 & -> & He1 & Hm1 & Hm1d).
  destruct (f64_ge_one_inv f Hv Hf) as [->|(m2 & e2 & -> & Hm2 & He2)]; [by left|].
  unfold f64_mul. cbn [SFmul xorb].
  set (n := Zdigits2 (Zpos (m1 * m2)) - 53).
  destruct (round_grid (Zpos m1) (Zpos m2) e2 n) as [Hn Hgrid]; [lia..|done|].
  pose proof (binary_round_aux_lower (Zpos (m1 * m2)) (e1 + e2) ltac:(lia) ltac:(lia) ltac:(lia)) as Hr.
  cbn zeta in Hr. fold n in Hr.
  destruct (binary_round_aux _ _ _ _ _ _) as [|[]| |[] m e]; try done; [by left|right].
  split; [done|]. destruct Hr as [He Hr].
  assert (Zpos m1 <= Zpos m * 2 ^ (e - e1)) as Hkey.
  { apply (Z.le_trans _ (Zpos (m1 * m2) / 2 ^ n * 2 ^ (e1 + e2 + n - e1))).
    - replace (e1 + e2 + n - e1) with (e2 + n) by lia. done.
    - replace (e - e1) with ((e - (e1 + e2 + n)) + (e1 + e2 + n - e1)) by lia.
      rewrite Z.pow_add_r by lia. rewrite Z.mul_assoc.
      apply Z.mul_le_mono_nonneg_r; [apply Z.pow_nonneg; lia|done]. }
  cbn -[Z.shiftl]. apply Z.min_glb; [|unfold_int; lia].
  destruct (Z.le_gt_cases 0 e) as [Hpos|Hneg].
  - rewrite Z.shiftl_mul_pow2 by done.
    replace (e - e1) with (e + - e1) in Hkey by lia. rewrite Z.pow_add_r in Hkey by lia.
    assert (0 < 2 ^ (- e1)) by (apply Z.pow_pos_nonneg; lia). nia.
  - replace e with (- (- e)) by lia. rewrite Z.shiftl_opp_r, Z.shiftr_div_pow2 by lia.
    assert (0 < 2 ^ (- e)) by (apply Z.pow_pos_nonneg; lia).
    apply Z.div_le_lower_bound; [done|].
    replace (- e1) with (- e + (e - e1)) in Hm1d by lia.
    rewrite Z.pow_add_r in Hm1d by lia.
    assert (0 < 2 ^ (e - e1)) by (apply Z.pow_pos_nonneg; lia). nia.
Qed.
