(* ===== verification/Backoff.v ===== *)
(** * Exponential backoff with full jitter

    [src/src/backoff.rs].  A [Duration] is its nanoseconds.  [SmallRng] (the
    [rand] crate) and the hash of a UUID are not part of the repository: they
    are the operations of [JitterOps], and [JitterLaws] is what the
    documentation of [random_range] promises. *)

From S2P Require Import Prelude BTree Event Float.

(** ** [Duration] *)

Definition nanos_per_milli : Z := 1000000.
Definition as_millis (d : Z) : Z := d / nanos_per_milli.
Definition from_millis (ms : Z) : Z := ms * nanos_per_milli.
Definition from_secs (s : Z) : Z := s * 1000000000.

Definition NEVER : Z := u64_max.

(** ** [BackoffPolicy] *)

Record BackoffPolicy := {
  base : Z;
  factor : f64;
  cap : Z;
  max_attempts : Z
}.

Definition default_policy : BackoffPolicy :=
  {| base := from_secs 1; factor := f64_two; cap := from_secs 600; max_attempts := 12 |}.

(** The block of the loop body: [delay] scaled by the factor, capped. *)
Definition scale_delay (p : BackoffPolicy) (delay : Z) : Z :=
  let scaled := f64_mul (f64_of_u128 (as_millis delay)) (factor p) in
  if negb (f64_is_finite scaled) || f64_ge scaled (f64_of_u128 (as_millis (cap p)))
  then cap p
  else from_millis (f64_to_u64 (f64_max_zero scaled)).

(** [for _ in 1..attempt.max(1)], [n] iterations left. *)
Fixpoint delay_loop (p : BackoffPolicy) (n : nat) (delay : Z) : Z :=
  match n with
  | O => Z.min delay (cap p)
  | S n => if cap p <=? delay then cap p else delay_loop p n (scale_delay p delay)
  end.

Definition exponential_delay (p : BackoffPolicy) (attempt : Z) : Z :=
  delay_loop p (Z.to_nat (Z.max attempt 1 - 1)) (base p).

Definition is_exhausted (p : BackoffPolicy) (attempts : Z) : bool :=
  max_attempts p <=? attempts.

(** ** The SplitMix64 finalizer *)

Definition u64_wrapping_add (a b : Z) : Z := (a + b) mod u64_modulus.
Definition u64_wrapping_mul (a b : Z) : Z := (a * b) mod u64_modulus.
Definition u64_rotate_left (x k : Z) : Z :=
  Z.lor (Z.shiftl x k mod u64_modulus) (Z.shiftr x (64 - k)).

Definition mix64 (x : Z) : Z :=
  let x := u64_wrapping_add x 0x9E3779B97F4A7C15 in
  let x := u64_wrapping_mul (Z.lxor x (Z.shiftr x 30)) 0xBF58476D1CE4E5B9 in
  let x := u64_wrapping_mul (Z.lxor x (Z.shiftr x 27)) 0x94D049BB133111EB in
  Z.lxor x (Z.shiftr x 31).

(** ** Jitter *)

Class JitterOps `{UO : UuidOps} := {
  (** [DefaultHasher] fed with the event id, [finish()]ed. *)
  hash_event_id : EventId -> Z;
  (** [SmallRng::seed_from_u64(seed).random_range(lo..=hi)] on durations. *)
  random_range : Z -> Z -> Z -> Z
}.

Class JitterLaws `{JO : JitterOps} : Prop := {
  hash_event_id_u64 : forall i, in_u64 (hash_event_id i);
  random_range_within : forall seed lo hi, lo <= hi -> lo <= random_range seed lo hi <= hi
}.

Section Jitter.
Context `{JO : JitterOps}.

(** The clock term of the seed, from a reading in signed nanoseconds. *)
Definition clock_term (system_time : Z) : Z :=
  if system_time <? 0 then 0
  else Z.lxor (system_time mod 1000000000) (system_time / 1000000000).

Definition seed_for (i : EventId) (system_time : Z) : Z :=
  mix64 (Z.lxor (u64_rotate_left (hash_event_id i) 32) (mix64 (clock_term system_time))).

Definition retry_delay_seeded (p : BackoffPolicy) (attempt seed : Z) : Z :=
  let bound := exponential_delay p attempt in
  if bound =? 0 then 0 else random_range seed 0 bound.

Definition retry_delay (p : BackoffPolicy) (attempt : Z) (i : EventId) (system_time : Z) : Z :=
  retry_delay_seeded p attempt (seed_for i system_time).

End Jitter.

(** ** The schedule *)

(** Every Rust value of the type: durations are not negative, the factor is a
    binary64 number. *)
Record wf_policy (p : BackoffPolicy) : Prop := {
  wf_base : 0 <= base p;
  wf_cap : 0 <= cap p;
  wf_factor : f64_valid (factor p) = true;
  wf_max_attempts : in_u32 (max_attempts p)
}.

Definition whole_ms (d : Z) : Prop := exists ms, d = from_millis ms.

Lemma default_policy_wf : wf_policy default_policy.
Proof. split; unfold_int; cbn; try lia; done. Qed.

Lemma delay_loop_le_cap p n d : delay_loop p n d <= cap p.
Proof. revert d. induction n as [|n IH]; intros d; cbn; [lia|]. case_match; [done|apply IH]. Qed.

Lemma scale_delay_nonneg p d : 0 <= cap p -> 0 <= scale_delay p d.
Proof.
  intros. unfold scale_delay. case_match; [done|]. unfold from_millis, nanos_per_milli.
  pose proof (f64_to_u64_range (f64_max_zero (f64_mul (f64_of_u128 (as_millis d)) (factor p)))). lia.
Qed.

Lemma delay_loop_nonneg p n d : 0 <= cap p -> 0 <= d -> 0 <= delay_loop p n d.
Proof.
  intros Hc. revert d. induction n as [|n IH]; intros d Hd; cbn; [lia|].
  case_match; [done|]. by apply IH, scale_delay_nonneg.
Qed.

Lemma delay_loop_cap p n : delay_loop p n (cap p) = cap p.
Proof. destruct n; cbn; [lia|]. by rewrite (proj2 (Z.leb_le _ _)) by lia. Qed.

Lemma scale_delay_cases p d :
  scale_delay p d = cap p \/ whole_ms (scale_delay p d).
Proof. unfold scale_delay. case_match; [by left|right]. by eexists. Qed.

Section growth.
Context (p : BackoffPolicy) (Hp : wf_policy p).
Context (Hf : f64_ge (factor p) f64_one = true).
(** 2^53 ms is 285,000 years; beyond it a millisecond count need not be a
    binary64 number. *)
Context (Hcap : cap p <= from_millis (2 ^ 53)).

Lemma scale_delay_grows d : 0 <= d -> whole_ms d -> d < cap p -> d <= scale_delay p d.
Proof using Hp Hf Hcap.
  intros Hd [ms ->] Hlt. unfold scale_delay, from_millis, as_millis, nanos_per_milli in *.
  rewrite Z.div_mul by lia.
  destruct (decide (ms = 0)) as [->|Hms].
  { case_match; [lia|].
    pose proof (f64_to_u64_range (f64_max_zero (f64_mul (f64_of_u128 0) (factor p)))). lia. }
  destruct (f64_scale_lower ms (factor p)) as [->|[-> Hlow]]; [lia|apply Hp|done|..].
  - cbn. lia.
  - cbn [negb orb]. case_match; lia.
Qed.

Lemma delay_loop_ge n d :
  0 <= d -> d = cap p \/ whole_ms d -> Z.min d (cap p) <= delay_loop p n d.
Proof using Hp Hf Hcap.
  revert d. induction n as [|n IH]; intros d Hd Hw; cbn; [done|].
  destruct (Z.leb_spec (cap p) d) as [|Hlt]; [lia|].
  destruct Hw as [->|Hw]; [lia|].
  pose proof (scale_delay_grows d Hd Hw Hlt).
  specialize (IH (scale_delay p d) ltac:(lia) (scale_delay_cases p d)). lia.
Qed.

Lemma delay_loop_step n d :
  0 <= d -> d = cap p \/ whole_ms d -> delay_loop p n d <= delay_loop p (S n) d.
Proof using Hp Hf Hcap.
  revert d. induction n as [|n IH]; intros d Hd Hw.
  { by apply (delay_loop_ge 1 d). }
  cbn [delay_loop]. case_match eqn:E; [done|].
  destruct Hw as [->|Hw]; [lia|]. change (delay_loop p n (scale_delay p d) <= delay_loop p (S n) (scale_delay p d)).
  apply IH; [apply scale_delay_nonneg, Hp|apply scale_delay_cases].
Qed.

Lemma delay_loop_mono n m d :
  (n <= m)%nat -> 0 <= d -> whole_ms d -> delay_loop p n d <= delay_loop p m d.
Proof using Hp Hf Hcap.
  induction 1 as [|m _ IH]; intros Hd Hw; [done|].
  specialize (IH Hd Hw). pose proof (delay_loop_step m d Hd (or_intror Hw)). lia.
Qed.
End growth.

(** ** [u64] words *)

Lemma in_u64_log2 z : in_u64 z <-> 0 <= z /\ Z.log2 z < 64.
Proof.
  unfold in_u64. change u64_max with (2 ^ 64 - 1). split; intros [Hz Hb]; (split; [done|]).
  - destruct (Z.eq_dec z 0) as [->|]; [done|]. apply Z.log2_lt_pow2; lia.
  - destruct (Z.eq_dec z 0) as [->|]; [done|].
    assert (z < 2 ^ 64) by (apply Z.log2_lt_pow2; lia). lia.
Qed.

Lemma lxor_u64 a b : in_u64 a -> in_u64 b -> in_u64 (Z.lxor a b).
Proof.
  rewrite !in_u64_log2. intros [Ha Ha'] [Hb Hb']. split; [apply Z.lxor_nonneg; lia|].
  pose proof (Z.log2_lxor a b Ha Hb). lia.
Qed.

Lemma lor_u64 a b : in_u64 a -> in_u64 b -> in_u64 (Z.lor a b).
Proof.
  rewrite !in_u64_log2. intros [Ha Ha'] [Hb Hb']. split; [by apply Z.lor_nonneg|].
  rewrite Z.log2_lor by done. lia.
Qed.

Lemma shiftr_u64 x k : 0 <= k -> in_u64 x -> in_u64 (Z.shiftr x k).
Proof.
  intros Hk [Hx Hx']. split; [by apply Z.shiftr_nonneg|].
  rewrite Z.shiftr_div_pow2 by done. assert (0 < 2 ^ k) by (apply Z.pow_pos_nonneg; lia).
  pose proof (Z.div_le_upper_bound x (2 ^ k) x ltac:(lia) ltac:(nia)). lia.
Qed.

Lemma wrapping_add_u64 a b : in_u64 (u64_wrapping_add a b).
Proof. unfold u64_wrapping_add. unfold_int. pose proof (Z.mod_pos_bound (a + b) 18446744073709551616). lia. Qed.
Lemma wrapping_mul_u64 a b : in_u64 (u64_wrapping_mul a b).
Proof. unfold u64_wrapping_mul. unfold_int. pose proof (Z.mod_pos_bound (a * b) 18446744073709551616). lia. Qed.

(** Each stage of the finalizer can be undone. *)
Lemma xorshift_inj k x y :
  0 < k -> 0 <= x -> 0 <= y ->
  Z.lxor x (Z.shiftr x k) = Z.lxor y (Z.shiftr y k) -> x = y.
Proof.
  intros Hk Hx Hy E. apply Z.lxor_eq.
  set (z := Z.lxor x y). assert (0 <= z) as Hz by (apply Z.lxor_nonneg; lia).
  assert (z = Z.shiftr z k) as Hfix.
  { apply Z.lxor_eq. unfold z. rewrite Z.shiftr_lxor.
    apply (f_equal (fun w => Z.lxor w (Z.lxor y (Z.shiftr y k)))) in E.
    rewrite Z.lxor_nilpotent in E. rewrite <- E.
    apply Z.bits_inj. intros n. rewrite !Z.lxor_spec.
    destruct (Z.testbit x n), (Z.testbit y n), (Z.testbit (Z.shiftr x k) n), (Z.testbit (Z.shiftr y k) n); done. }
  rewrite Z.shiftr_div_pow2 in Hfix by lia.
  assert (2 ^ 1 <= 2 ^ k) by (apply Z.pow_le_mono_r; lia).
  destruct (Z.eq_dec z 0); [done|].
  assert (z / 2 ^ k < z) by (apply Z.div_lt; lia). lia.
Qed.

Lemma wrapping_add_inj c x y :
  in_u64 x -> in_u64 y -> u64_wrapping_add x c = u64_wrapping_add y c -> x = y.
Proof.
  unfold u64_wrapping_add. unfold_int. intros Hx Hy E.
  pose proof (Z.div_mod (x + c) 18446744073709551616 ltac:(lia)).
  pose proof (Z.div_mod (y + c) 18446744073709551616 ltac:(lia)). lia.
Qed.

(** Multiplication by a constant with an inverse modulo [2^64]. *)
Lemma wrapping_mul_inj c i x y :
  (c * i) mod u64_modulus = 1 -> in_u64 x -> in_u64 y ->
  u64_wrapping_mul x c = u64_wrapping_mul y c -> x = y.
Proof.
  unfold u64_wrapping_mul, in_u64. intros Hi Hx Hy E.
  assert (forall w, 0 <= w <= u64_max -> ((w * c) mod u64_modulus * i) mod u64_modulus = w) as Hinv.
  { intros w Hw. rewrite Z.mul_mod_idemp_l by done. rewrite <- Z.mul_assoc.
    rewrite <- Z.mul_mod_idemp_r, Hi, Z.mul_1_r by done.
    apply Z.mod_small. unfold_int. lia. }
  rewrite <- (Hinv x), <- (Hinv y) by done. by rewrite E.
Qed.

Lemma mix64_u64 x : in_u64 (mix64 x).
Proof.
  unfold mix64. apply lxor_u64; [apply wrapping_mul_u64|].
  apply shiftr_u64; [lia|apply wrapping_mul_u64].
Qed.

Lemma mix64_inj x y : in_u64 x -> in_u64 y -> mix64 x = mix64 y -> x = y.
Proof.
  intros Hx Hy E. unfold mix64 in E.
  assert (forall a, in_u64 a -> forall k, 0 <= k -> in_u64 (Z.lxor a (Z.shiftr a k))) as Hr.
  { intros a Ha k Hk. apply lxor_u64; [done|by apply shiftr_u64]. }
  apply xorshift_inj in E; [|lia|apply wrapping_mul_u64..].
  apply (wrapping_mul_inj _ 3573116690164977347) in E;
    [|by vm_compute|apply Hr; [apply wrapping_mul_u64|lia]..].
  apply xorshift_inj in E; [|lia|apply wrapping_mul_u64..].
  apply (wrapping_mul_inj _ 10871156337175269513) in E;
    [|by vm_compute|apply Hr; [apply wrapping_add_u64|lia]..].
  apply xorshift_inj in E; [|lia|apply wrapping_add_u64..].
  by apply wrapping_add_inj in E.
Qed.

Lemma rotate_left_u64 x k : 0 <= k <= 64 -> in_u64 x -> in_u64 (u64_rotate_left x k).
Proof.
  intros Hk Hx. unfold u64_rotate_left. apply lor_u64.
  - pose proof (Z.mod_pos_bound (Z.shiftl x k) u64_modulus). unfold_int. lia.
  - apply shiftr_u64; [lia|done].
Qed.

(** A clock [SystemTime] can hold: its seconds fit a [u64]. *)
Definition clock_ok (t : Z) : Prop := t / 1000000000 <= u64_max.

Lemma clock_term_u64 t : clock_ok t -> in_u64 (clock_term t).
Proof.
  unfold clock_ok, clock_term. intros Ht. destruct (Z.ltb_spec t 0); [unfold_int; lia|].
  apply lxor_u64; unfold_int.
  - pose proof (Z.mod_pos_bound t 1000000000). lia.
  - split; [apply Z.div_pos; lia|done].
Qed.

(** ** Properties *)

Lemma exponential_delay_bounds p attempt :
  wf_policy p -> 0 <= exponential_delay p attempt <= cap p.
Proof. intros Hp. split; [|apply delay_loop_le_cap]. by apply delay_loop_nonneg; apply Hp. Qed.

Lemma retry_delay_bounds `{JL : JitterLaws} p attempt i t :
  wf_policy p -> 0 <= retry_delay p attempt i t <= exponential_delay p attempt.
Proof.
  intros Hp. destruct (exponential_delay_bounds p attempt Hp) as [H0 _].
  unfold retry_delay, retry_delay_seeded. case_match; [lia|]. by apply random_range_within.
Qed.

(** C34.  The un-jittered delay never leaves [[0, cap]], whatever the factor
    (below one, negative, infinite or NaN) and the attempt number. *)
Theorem exponential_delay_bounded (p : BackoffPolicy) (attempt : Z) (Hp : wf_policy p) :
  0 <= exponential_delay p attempt <= cap p.
Proof. by apply exponential_delay_bounds. Qed.

Lemma exponential_delay_bounded_witness :
  wf_policy {| base := from_secs 3; factor := S754_nan; cap := from_secs 2; max_attempts := 1 |} /\
  exponential_delay {| base := from_secs 3; factor := S754_nan; cap := from_secs 2; max_attempts := 1 |} 4
    <= from_secs 2.
Proof.
  assert (wf_policy {| base := from_secs 3; factor := S754_nan; cap := from_secs 2; max_attempts := 1 |}) as Hp.
  { split; unfold_int; cbn; try lia; done. }
  split; [done|]. exact (proj2 (exponential_delay_bounded _ 4 Hp)).
Defined.

(** C33.  For a factor of at least one the schedule never shrinks: more failures
    never wait less, when the base is a whole number of milliseconds and the
    cap is below 285,000 years. *)
Theorem exponential_delay_monotone (p : BackoffPolicy) (a b : Z)
    (Hp : wf_policy p) (Hf : f64_ge (factor p) f64_one = true)
    (Hbase : whole_ms (base p)) (Hcap : cap p <= from_millis (2 ^ 53)) (Hab : a <= b) :
  exponential_delay p a <= exponential_delay p b.
Proof.
  unfold exponential_delay. apply delay_loop_mono; [done..|lia|apply Hp|done].
Qed.

Lemma exponential_delay_monotone_witness :
  let p := {| base := from_millis 7; factor := S754_finite false 6755399441055744 (-52);
              cap := from_secs 600; max_attempts := 12 |} in
  as_millis (exponential_delay p 5) = 33 /\ exponential_delay p 5 <= exponential_delay p 60.
Proof.
  split; [by vm_compute|]. apply exponential_delay_monotone; [|done|by exists 7|done|lia].
  split; unfold_int; cbn; try lia; done.
Defined.

(** Below a millisecond the schedule does shrink: with a base of 1.5 ms
    and factor 1.0 the second delay is shorter than the first, because each
    round truncates to whole milliseconds. *)
Lemma exponential_delay_submilli_shrinks :
  let p := {| base := 1500000; factor := f64_one; cap := from_secs 600; max_attempts := 12 |} in
  wf_policy p /\ f64_ge (factor p) f64_one = true /\
  exponential_delay p 2 < exponential_delay p 1.
Proof.
  cbn zeta. split_and!; [|by vm_compute|by vm_compute].
  split; unfold_int; cbn; try lia; done.
Qed.

(** The default schedule doubles from one second and stays at the ten
    minute cap from the eleventh failure on, for every attempt number. *)
Lemma default_schedule (attempt : Z) :
  exponential_delay default_policy attempt =
    if attempt <=? 1 then from_secs 1
    else if attempt <=? 10 then from_secs (2 ^ (attempt - 1))
    else from_secs 600.
Proof.
  destruct (Z.leb_spec attempt 1) as [H|H].
  { unfold exponential_delay. by replace (Z.max attempt 1 - 1) with 0 by lia. }
  destruct (Z.leb_spec attempt 10) as [H'|H'].
  { assert (attempt ∈ seqZ 2 9) as Hin by (apply elem_of_seqZ; lia). clear H H'. revert attempt Hin.
    apply Forall_forall, (bool_decide_eq_true_1 _). by vm_compute. }
  apply Z.le_antisymm; [apply delay_loop_le_cap|].
  change (from_secs 600) with (exponential_delay default_policy 11).
  unfold exponential_delay. apply delay_loop_mono; [apply default_policy_wf|done|done|lia|done|by exists 1000].
Qed.

(** The longest an event can wait between its first failure and its parking:
    one delay per failure short of [max_attempts]. *)
Definition retry_span (p : BackoffPolicy) : Z :=
  foldr Z.add 0 (exponential_delay p <$> seqZ 1 (max_attempts p - 1)).

(** Under the default policy an event is parked after at most 1,623
    seconds (27 minutes) of scheduled waiting. *)
Lemma default_retry_span : retry_span default_policy = from_secs 1623.
Proof. by vm_compute. Qed.

(** The jittered delay stays within [[0, exponential_delay(attempt)]]
    for every event, attempt and clock. *)
Lemma retry_delay_within `{JL : JitterLaws} (p : BackoffPolicy) (attempt : Z)
    (i : EventId) (system_time : Z) (Hp : wf_policy p) :
  0 <= retry_delay p attempt i system_time <= exponential_delay p attempt.
Proof. by apply retry_delay_bounds. Qed.

(** The seed is a [u64], and two retries of one event draw from different
    seeds exactly when their clock terms differ: the finalizer loses
    nothing. *)
Lemma seed_for_decorrelates `{JL : JitterLaws} (i : EventId) (t1 t2 : Z)
    (H1 : clock_ok t1) (H2 : clock_ok t2) :
  in_u64 (seed_for i t1) /\
  (seed_for i t1 = seed_for i t2 <-> clock_term t1 = clock_term t2).
Proof.
  split; [apply mix64_u64|]. split; [|unfold seed_for; by intros ->].
  unfold seed_for. intros E.
  pose proof (rotate_left_u64 (hash_event_id i) 32 ltac:(lia) (hash_event_id_u64 i)) as Hh.
  apply mix64_inj in E; [|apply lxor_u64; [done|apply mix64_u64]..].
  apply (f_equal (Z.lxor (u64_rotate_left (hash_event_id i) 32))) in E.
  rewrite <- !Z.lxor_assoc, !Z.lxor_nilpotent, !Z.lxor_0_l in E.
  apply mix64_inj in E; [done|by apply clock_term_u64..].
Qed.
