(* ===== verification/HexUuid.v ===== *)
(** * A concrete UUID

    An instance of [UuidOps] satisfying [UuidLaws]: a UUID is a 128-bit word,
    its text the 8-4-4-4-12 lower-case hexadecimal form.  It shows that the
    laws the development assumes of the [uuid] crate can hold together, and is
    what the concrete examples compute with. *)

From S2P Require Import Prelude BTree Event.

(** ** Fixed-width hexadecimal *)

Fixpoint hex_digits (k : nat) (n : Z) : list Z :=
  match k with
  | O => []
  | S k => hex_digits k (n / 16) ++ [n mod 16]
  end.

Definition hex_value (ds : list Z) : Z := foldl (fun acc d => 16 * acc + d) 0 ds.

Definition hex_char (d : Z) : Z := if d <? 10 then 48 + d else 87 + d.
Definition hex_digit_of (c : Z) : option Z :=
  if (48 <=? c) && (c <=? 57) then Some (c - 48)
  else if (97 <=? c) && (c <=? 102) then Some (c - 87)
  else if (65 <=? c) && (c <=? 70) then Some (c - 55) else None.

Lemma hex_digits_length k n : length (hex_digits k n) = k.
Proof. revert n. induction k as [|k IH]; intros n; cbn; [done|]. rewrite length_app, IH. cbn. lia. Qed.

Lemma hex_digits_range k n : Forall (fun d => 0 <= d < 16) (hex_digits k n).
Proof.
  revert n. induction k as [|k IH]; intros n; cbn; [constructor|].
  apply Forall_app. split; [done|]. constructor; [|done]. apply Z.mod_pos_bound. lia.
Qed.

Lemma pow16_succ k : 16 ^ Z.of_nat (S k) = 16 * 16 ^ Z.of_nat k.
Proof. rewrite Nat2Z.inj_succ, Z.pow_succ_r by lia. done. Qed.

Lemma div16_range k n : 0 <= n < 16 ^ Z.of_nat (S k) -> 0 <= n / 16 < 16 ^ Z.of_nat k.
Proof.
  rewrite pow16_succ. intros Hn. split; [apply Z.div_pos; lia|]. apply Z.div_lt_upper_bound; lia.
Qed.

Lemma hex_value_digits k n : 0 <= n < 16 ^ Z.of_nat k -> hex_value (hex_digits k n) = n.
Proof.
  unfold hex_value. revert n. induction k as [|k IH]; intros n Hn; cbn; [cbn in Hn; lia|].
  rewrite foldl_app, IH by (by apply div16_range). cbn.
  pose proof (Z.div_mod n 16 ltac:(lia)). lia.
Qed.

Lemma hex_char_inv d : 0 <= d < 16 -> hex_digit_of (hex_char d) = Some d.
Proof.
  unfold hex_digit_of, hex_char. intros Hd. destruct (Z.ltb_spec d 10).
  - replace ((48 <=? 48 + d) && (48 + d <=? 57)) with true by lia. f_equal. lia.
  - replace ((48 <=? 87 + d) && (87 + d <=? 57)) with false by lia.
    replace ((97 <=? 87 + d) && (87 + d <=? 102)) with true by lia. f_equal. lia.
Qed.

(** ** Text order is value order *)

Lemma lex_ltb_refl l : lex_ltb l l = false.
Proof. apply (ltb_irrefl (A := list Z)). Qed.

Lemma lex_ltb_app a b x y :
  length a = length b ->
  lex_ltb (a ++ x) (b ++ y) = lex_ltb a b || (bool_decide (a = b) && lex_ltb x y).
Proof.
  revert b. induction a as [|c a IH]; intros [|d b] Hl; try done.
  cbn. rewrite IH by (by injection Hl).
  destruct (Z.ltb_spec c d); cbn; [done|]. destruct (Z.eqb_spec c d) as [->|]; cbn.
  - f_equal. f_equal. apply bool_decide_ext. split; [by intros ->|by intros [= ->]].
  - rewrite (bool_decide_eq_false_2 (c :: a = d :: b)) by congruence. done.
Qed.

Lemma lex_ltb_digits k n m :
  0 <= n < 16 ^ Z.of_nat k -> 0 <= m < 16 ^ Z.of_nat k ->
  lex_ltb (hex_digits k n) (hex_digits k m) = (n <? m).
Proof.
  revert n m. induction k as [|k IH]; intros n m Hn Hm; cbn [hex_digits].
  { cbn in *. symmetry. apply Z.ltb_ge. lia. }
  pose proof (div16_range _ _ Hn) as Hn'. pose proof (div16_range _ _ Hm) as Hm'.
  rewrite lex_ltb_app by (by rewrite !hex_digits_length). rewrite IH by done. cbn.
  rewrite andb_false_r, orb_false_r.
  rewrite (bool_decide_ext _ (n / 16 = m / 16)).
  - pose proof (Z.div_mod n 16 ltac:(lia)). pose proof (Z.div_mod m 16 ltac:(lia)).
    pose proof (Z.mod_pos_bound n 16 ltac:(lia)). pose proof (Z.mod_pos_bound m 16 ltac:(lia)).
    case_bool_decide; lia.
  - split; [|by intros ->]. intros E.
    by rewrite <- (hex_value_digits k (n / 16)), E, hex_value_digits by done.
Qed.

Lemma lex_ltb_hex_char l k :
  Forall (fun d => 0 <= d < 16) l -> Forall (fun d => 0 <= d < 16) k ->
  lex_ltb (hex_char <$> l) (hex_char <$> k) = lex_ltb l k.
Proof.
  intros Hl. revert k. induction Hl as [|c l Hc _ IH]; intros k Hk.
  { by destruct Hk. }
  destruct Hk as [|d k Hd Hk]; [done|]. cbn. change (list_fmap _ _ hex_char) with (fmap (M := list) hex_char).
  rewrite IH by done.
  assert ((hex_char c <? hex_char d) = (c <? d)) as ->.
  { unfold hex_char. destruct (Z.ltb_spec c 10), (Z.ltb_spec d 10); lia. }
  assert ((hex_char c =? hex_char d) = (c =? d)) as ->; [|done].
  unfold hex_char. destruct (Z.ltb_spec c 10), (Z.ltb_spec d 10); lia.
Qed.

(** ** Hyphens *)

Definition hyphenate (l : list Z) : list Z :=
  take 8 l ++ [45] ++ take 4 (drop 8 l) ++ [45] ++ take 4 (drop 12 l) ++ [45] ++
  take 4 (drop 16 l) ++ [45] ++ drop 20 l.

Lemma lex_ltb_hyphen_at n a b x y :
  length a = length b -> 
  lex_ltb x y = lex_ltb (drop n a) (drop n b) ->
  lex_ltb (take n a ++ [45] ++ x) (take n b ++ [45] ++ y) = lex_ltb a b.
Proof.
  intros Hl Hxy. rewrite <- (take_drop n a) at 2. rewrite <- (take_drop n b) at 2.
  rewrite !(lex_ltb_app (take n a)) by (rewrite !length_take; lia).
  f_equal. f_equal. by rewrite <- Hxy.
Qed.

Lemma lex_ltb_hyphenate a b :
  length a = length b -> lex_ltb (hyphenate a) (hyphenate b) = lex_ltb a b.
Proof.
  intros Hl. unfold hyphenate. apply lex_ltb_hyphen_at; [done|].
  apply lex_ltb_hyphen_at; [rewrite !length_drop; lia|]. rewrite !drop_drop. cbn [Nat.add].
  apply lex_ltb_hyphen_at; [rewrite !length_drop; lia|]. rewrite !drop_drop. cbn [Nat.add].
  apply lex_ltb_hyphen_at; [rewrite !length_drop; lia|]. rewrite !drop_drop. done.
Qed.

Lemma hyphenate_filter l :
  Forall (fun c => c <> 45) l -> filter (fun c => c <> 45) (hyphenate l) = l.
Proof.
  intros Hl. unfold hyphenate.
  assert (forall l', Forall (fun c => c <> 45) l' -> filter (fun c => c <> 45) l' = l') as Hf.
  { intros l'. induction 1 as [|c l' Hc _ IH]; [done|]. rewrite filter_cons_True by done. by f_equal. }
  rewrite !filter_app, !filter_cons_False, !filter_nil by (intros Hc; by apply Hc). cbn [app].
  rewrite !Hf by (repeat (apply Forall_take || apply Forall_drop); done).
  rewrite <- (take_drop 8 l) at 6. f_equal.
  rewrite <- (take_drop 4 (drop 8 l)) at 2. rewrite drop_drop. f_equal.
  rewrite <- (take_drop 4 (drop (8 + 4) l)). rewrite drop_drop. f_equal.
  rewrite <- (take_drop 4 (drop (8 + 4 + 4) l)). by rewrite drop_drop.
Qed.

Lemma hyphenate_ascii l :
  Forall (fun c => 0 < c <= 127) l -> Forall (fun c => 0 < c <= 127) (hyphenate l).
Proof.
  intros Hl. unfold hyphenate.
  repeat (apply Forall_app_2 || apply Forall_take || apply Forall_drop || done || (constructor; [lia|constructor])).
Qed.

(** ** The instance *)

Definition uuid_bound : Z := 16 ^ 32.
Definition hex_uuid : Type := dsig (fun n : Z => 0 <= n < uuid_bound).

#[export] Instance hex_uuid_eq_dec : EqDecision hex_uuid := sig_eq_dec _.
#[export] Instance hex_uuid_countable : Countable hex_uuid := sig_countable _.

Lemma uuid_mod_bound n : 0 <= n mod uuid_bound < uuid_bound.
Proof. by apply Z.mod_pos_bound. Qed.

Definition uuid_of (n : Z) : hex_uuid := dexist (n mod uuid_bound) (uuid_mod_bound n).

Definition uuid_text (u : hex_uuid) : str := hyphenate (hex_char <$> hex_digits 32 (`u)).

Definition uuid_parse (s : str) : result hex_uuid str :=
  match mapM hex_digit_of (filter (fun c => c <> 45) s) with
  | Some ds => if (length ds =? 32)%nat then Ok (uuid_of (hex_value ds)) else Err (lit "invalid length")
  | None => Err (lit "invalid character")
  end.

#[export] Instance hex_uuid_ops : UuidOps := {|
  Uuid := hex_uuid;
  as_u128 := fun u : hex_uuid => `u;
  hyphenated := uuid_text;
  parse_str := uuid_parse
|}.

Lemma uuid_range (u : hex_uuid) : 0 <= `u < 16 ^ Z.of_nat 32.
Proof. exact (proj2_dsig u). Qed.

Lemma hex_chars_no_hyphen l :
  Forall (fun d => 0 <= d < 16) l -> Forall (fun c => c <> 45) (hex_char <$> l).
Proof.
  induction 1; cbn; constructor; [|done]. unfold hex_char. case_match; lia.
Qed.

Lemma mapM_hex_chars l :
  Forall (fun d => 0 <= d < 16) l -> mapM hex_digit_of (hex_char <$> l) = Some l.
Proof.
  induction 1 as [|d l Hd _ IH]; [done|]. cbn. rewrite hex_char_inv by done. cbn.
  change (list_fmap _ _ hex_char l) with (hex_char <$> l). by rewrite IH.
Qed.

#[export] Instance hex_uuid_laws : UuidLaws.
Proof.
  split.
  - intros u v E. by apply dsig_eq.
  - intros u. change (uuid_parse (uuid_text u) = Ok u). unfold uuid_parse, uuid_text.
    rewrite hyphenate_filter by (apply hex_chars_no_hyphen, hex_digits_range).
    rewrite mapM_hex_chars by apply hex_digits_range.
    rewrite hex_digits_length. cbn [Nat.eqb]. f_equal.
    rewrite hex_value_digits by apply uuid_range.
    apply dsig_eq. cbn. apply Z.mod_small, uuid_range.
  - intros u v. change (lex_ltb (uuid_text u) (uuid_text v) = (`u <? `v)). unfold uuid_text. pose proof (uuid_range u). pose proof (uuid_range v).
    rewrite lex_ltb_hyphenate by (by rewrite !length_fmap, !hex_digits_length).
    rewrite lex_ltb_hex_char by apply hex_digits_range. by apply lex_ltb_digits.
  - intros u. apply hyphenate_ascii. apply Forall_fmap.
    eapply Forall_impl; [apply hex_digits_range|]. intros d Hd. cbn in Hd |- *.
    unfold hex_char. case_match; lia.
Qed.

(** [eid n]: the event id whose UUID has value [n]. *)
Definition eid (n : Z) : EventId := from_uuid (uuid_of n : Uuid).

Example eid_text :
  event_id_to_string (eid 0x0191fa3e7c2b7d10a1b2c3d4e5f60718)
  = lit "0191fa3e-7c2b-7d10-a1b2-c3d4e5f60718".
Proof. vm_compute. reflexivity. Qed.

(** ** Sample events *)

Definition sample_event (n created_at : Z) : OutboxEvent :=
  mkEvent (eid n) (lit "orders.order-placed") (lit "payload") [(lit "trace", lit "t-1")]
    created_at 0 None.

Lemma sample_event_wf n t : in_u64 t -> wf_event (sample_event n t).
Proof.
  intros Ht. split; cbn -[lit]; try done; try (by repeat constructor).
Qed.
