(* ===== verification/EventProps.v ===== *)
(** * Properties of the event envelope *)

From S2P Require Import Prelude BTree Utf8 Event HexUuid.

Section EventProps.
Context `{UO : UuidOps}.

(** C39.  A topic is accepted exactly when it has 1 to 128 characters, all from
    [[a-z0-9_.-]]; a refusal carries the offending topic. *)
Theorem validate_topic_spec (topic : str) :
  (validate_topic topic = Ok tt <->
     1 <= len topic <= 128 /\ forall b, b ∈ topic -> b ∈ topic_alphabet) /\
  (validate_topic topic <> Ok tt -> validate_topic topic = Err (EInvalidTopic topic)).
Proof.
  assert (forallb topic_byte topic = true <-> forall b, b ∈ topic -> b ∈ topic_alphabet) as Hall.
  { rewrite forallb_forall. setoid_rewrite <- list_elem_of_In. by setoid_rewrite topic_byte_alphabet. }
  unfold validate_topic. rewrite <- Hall.
  destruct (Z.leb_spec 1 (len topic)), (Z.leb_spec (len topic) 128), (forallb topic_byte topic); cbn;
    (split; [split; [|intros [? ?]]|]); try done; try lia.
Qed.

(** An id survives its text form: [Display] then [parse], and [Serialize]
    then [Deserialize], give the id back; distinct ids have distinct texts,
    ordered as the ids are, so that [ORDER BY id] and the in-memory queue agree;
    unparsable text is refused with the text itself. *)
Lemma event_id_text `{UL : !UuidLaws} (i j : EventId) (s m : str) :
  event_id_parse (event_id_to_string i) = Ok i /\
  event_id_deserialize (event_id_serialize i) = Ok i /\
  (event_id_to_string i = event_id_to_string j <-> i = j) /\
  ltb (event_id_to_string i) (event_id_to_string j) = ltb i j /\
  (parse_str s = Err m -> event_id_parse s = Err (EInvalidId s)).
Proof.
  split_and!.
  - apply parse_to_string.
  - unfold event_id_deserialize, event_id_serialize. rewrite parse_hyphenated. by destruct i.
  - split; [apply (inj event_id_to_string)|by intros ->].
  - apply to_string_order.
  - intros E. unfold event_id_parse. by rewrite E.
Qed.

(** A constructed event is valid, due at the clock's reading, never failed,
    and carries what the caller gave; the only failure is the topic's. *)
Lemma with_headers_spec (fresh : Uuid) (clock : Z) (topic : str) (payload : bytes)
    (headers : list (str * str)) :
  match with_headers fresh clock topic payload headers with
  | Ok e => validate e = Ok tt /\ ev_id e = from_uuid fresh /\ ev_topic e = topic /\
            ev_payload e = payload /\ ev_headers e = headers /\
            ev_created_at e = now_millis clock /\ in_u64 (ev_created_at e) /\
            ev_attempts e = 0 /\ ev_last_error e = None
  | Err err => err = EInvalidTopic topic /\ validate_topic topic <> Ok tt
  end.
Proof.
  unfold with_headers. destruct (validate_topic topic) as [[]|err] eqn:E; cbn.
  - split_and!; try done; apply now_millis_in_u64.
  - split; [|done]. unfold validate_topic in E. case_match; [done|]. by injection E.
Qed.
End EventProps.

Lemma validate_topic_spec_witness :
  validate_topic (lit "Orders") = Err (EInvalidTopic (lit "Orders")).
Proof. apply (proj2 (validate_topic_spec (lit "Orders"))). vm_compute. congruence. Defined.

Lemma event_id_text_witness :
  event_id_parse (lit "not-a-uuid") = Err (EInvalidId (lit "not-a-uuid")) /\
  event_id_parse (event_id_to_string (eid 255)) = Ok (eid 255).
Proof.
  destruct (event_id_text (eid 255) (eid 256) (lit "not-a-uuid") (lit "invalid character"))
    as (H1 & _ & _ & _ & H5).
  split; [apply H5; vm_eq|exact H1].
Defined.
