(* ===== verification/Store.v ===== *)
(** * The storage contract

    [src/src/store.rs].  [OutboxStore] is the trait: every method is a
    state-and-error computation over the store's state.  The methods that read
    the wall clock take the reading as an argument.

    [Outbox] is the reference store the implementations are compared with: a
    map of scheduled events, a set of delivered ids, and [fetch_due] as
    "filter the due ones, sort by [(next_attempt_at, id)], keep the first
    [limit]".

    [OutboxLaws] is what the dispatcher relies on: which operations may take an
    event out of the outbox, and which never do. *)

From S2P Require Import Prelude BTree Event Truncate Backoff.

(** [iter.take(limit)] with a [usize] bound. *)
Definition take_usize {A} (limit : Z) (l : list A) : list A :=
  take (Z.to_nat (Z.min limit (len l))) l.

Lemma take_usize_spec {A} limit (l : list A) :
  0 <= limit -> take_usize limit l = take (Z.to_nat limit) l.
Proof.
  intros Hl. unfold take_usize, len. destruct (Z.le_gt_cases limit (Z.of_nat (length l))).
  - by rewrite Z.min_l by lia.
  - rewrite Z.min_r by lia. rewrite !take_ge by lia. done.
Qed.

Lemma elem_of_take_usize {A} limit (l : list A) x : x ∈ take_usize limit l -> x ∈ l.
Proof. apply elem_of_take_incl. Qed.

Section Store.
Context `{UO : UuidOps}.

(** ** The trait *)

Class OutboxStore (S : Type) := {
  append : OutboxEvent -> M S StoreError unit;
  fetch_due : Z -> Z -> M S StoreError (list OutboxEvent);
  mark_dispatched : Z -> EventId -> M S StoreError unit;
  mark_failed : EventId -> str -> Z -> M S StoreError unit;
  pending_count : M S StoreError Z;
  parked_count : M S StoreError Z;
  dead_letter : Z -> OutboxEvent -> str -> M S StoreError unit;
  dead_letters : Z -> M S StoreError (list (OutboxEvent * str))
}.

(** The default methods: a letter is dropped, the list is empty. *)
Definition default_dead_letter {S} (clock : Z) (event : OutboxEvent) (reason : str)
    : M S StoreError unit := mret tt.
Definition default_dead_letters {S} (limit : Z) : M S StoreError (list (OutboxEvent * str)) :=
  mret [].

(** ** What a client may rely on *)

Class OutboxLaws (S : Type) `{OS : OutboxStore S}
    (inv : S -> Prop) (live delivered : S -> EventId -> Prop) : Prop := {
  append_inv s e : inv s -> inv (append e s).1;
  fetch_due_inv s n now : inv s -> inv (fetch_due n now s).1;
  mark_dispatched_inv s c i : inv s -> inv (mark_dispatched c i s).1;
  mark_failed_inv s i m at_ : inv s -> inv (mark_failed i m at_ s).1;
  pending_count_inv s : inv s -> inv (pending_count s).1;
  dead_letter_inv s c e r : inv s -> inv (dead_letter c e r s).1;
  (** A successful append leaves the event in the outbox, unless the id had
      already been delivered. *)
  append_records s e : inv s -> (append e s).2 = Ok tt ->
    live (append e s).1 (ev_id e) \/ delivered s (ev_id e);
  append_keeps s e i : inv s -> live s i -> live (append e s).1 i;
  (** Reading takes nothing out, and returns only what is in. *)
  fetch_due_keeps s n now i : inv s -> live s i -> live (fetch_due n now s).1 i;
  fetch_due_live s n now l e : inv s -> (fetch_due n now s).2 = Ok l -> e ∈ l -> live s (ev_id e);
  pending_count_keeps s i : inv s -> live s i -> live (pending_count s).1 i;
  mark_failed_keeps s j m at_ i : inv s -> live s i -> live (mark_failed j m at_ s).1 i;
  fetch_due_distinct s n now l : inv s -> (fetch_due n now s).2 = Ok l -> NoDup (ev_id <$> l);
  (** An id becomes delivered only by [mark_dispatched]. *)
  append_delivered s e i : inv s -> delivered (append e s).1 i -> delivered s i;
  fetch_due_delivered s n now i : inv s -> delivered (fetch_due n now s).1 i -> delivered s i;
  pending_count_delivered s i : inv s -> delivered (pending_count s).1 i -> delivered s i;
  mark_failed_delivered s j m at_ i : inv s -> delivered (mark_failed j m at_ s).1 i -> delivered s i;
  dead_letter_delivered s c e r i : inv s -> delivered (dead_letter c e r s).1 i -> delivered s i;
  mark_dispatched_delivered s c j i :
    inv s -> delivered (mark_dispatched c j s).1 i -> delivered s i \/ i = j;
  (** Only these two remove an event, and only the one they name. *)
  mark_dispatched_keeps s c j i : inv s -> i <> j -> live s i -> live (mark_dispatched c j s).1 i;
  dead_letter_keeps s c e r i : inv s -> i <> ev_id e -> live s i -> live (dead_letter c e r s).1 i
}.

(** What a store that does not fail adds: recording a delivery succeeds, and the
    record stays until the event is failed or dead-lettered under its id. *)
Class OutboxFinal (S : Type) `{OS : OutboxStore S}
    (inv : S -> Prop) (live delivered : S -> EventId -> Prop) : Prop := {
  live_not_delivered s i : inv s -> live s i -> ~ delivered s i;
  mark_dispatched_final s c i : inv s -> live s i -> delivered (mark_dispatched c i s).1 i;
  append_final s e i : inv s -> delivered s i -> delivered (append e s).1 i;
  fetch_due_final s n now i : inv s -> delivered s i -> delivered (fetch_due n now s).1 i;
  mark_dispatched_stays s c j i : inv s -> delivered s i -> delivered (mark_dispatched c j s).1 i;
  mark_failed_final s j m at_ i : inv s -> i <> j -> delivered s i -> delivered (mark_failed j m at_ s).1 i;
  pending_count_final s i : inv s -> delivered s i -> delivered (pending_count s).1 i;
  dead_letter_final s c e r i :
    inv s -> i <> ev_id e -> delivered s i -> delivered (dead_letter c e r s).1 i
}.

(** ** Calls and replies

    A client's session with a store is a sequence of trait calls; what it
    observes is the sequence of replies. *)

Inductive call :=
| CAppend (event : OutboxEvent)
| CFetchDue (limit now_ms : Z)
| CMarkDispatched (clock : Z) (i : EventId)
| CMarkFailed (i : EventId) (error : str) (retry_at_ms : Z)
| CPendingCount
| CParkedCount
| CDeadLetter (clock : Z) (event : OutboxEvent) (reason : str)
| CDeadLetters (limit : Z).

Inductive reply :=
| RUnit (r : result unit StoreError)
| REvents (r : result (list OutboxEvent) StoreError)
| RCount (r : result Z StoreError)
| RLetters (r : result (list (OutboxEvent * str)) StoreError).

#[export] Instance reply_eq_dec : EqDecision reply.
Proof. solve_decision. Defined.

Definition replying {S A} (g : A -> reply) (p : S * A) : S * reply := (p.1, g p.2).

Definition perform {S} `{OutboxStore S} (c : call) (s : S) : S * reply :=
  match c with
  | CAppend e => replying RUnit (append e s)
  | CFetchDue n now => replying REvents (fetch_due n now s)
  | CMarkDispatched clk i => replying RUnit (mark_dispatched clk i s)
  | CMarkFailed i m t => replying RUnit (mark_failed i m t s)
  | CPendingCount => replying RCount (pending_count s)
  | CParkedCount => replying RCount (parked_count s)
  | CDeadLetter clk e r => replying RUnit (dead_letter clk e r s)
  | CDeadLetters n => replying RLetters (dead_letters n s)
  end.

(** The reply of a call that failed in the backend. *)
Definition failed_reply (c : call) (m : str) : reply :=
  match c with
  | CFetchDue _ _ => REvents (Err (Backend m))
  | CPendingCount | CParkedCount => RCount (Err (Backend m))
  | CDeadLetters _ => RLetters (Err (Backend m))
  | _ => RUnit (Err (Backend m))
  end.

Fixpoint session {S} `{OutboxStore S} (cs : list call) (s : S) : S * list reply :=
  match cs with
  | [] => (s, [])
  | c :: cs => let '(s, r) := perform c s in
               let '(s, rs) := session cs s in (s, r :: rs)
  end.

(** Sessions whose calls each satisfy [ok] in the state they are made in. *)
Fixpoint admissible {T} `{OutboxStore T} (ok : T -> call -> Prop) (cs : list call) (t : T) : Prop :=
  match cs with
  | [] => True
  | c :: cs => ok t c /\ admissible ok cs (perform c t).1
  end.

(** A relation that every admissible call preserves, with equal replies, makes
    whole sessions indistinguishable.  The relation may count the calls left
    (a counter column must not overflow before the session ends). *)
Lemma session_simulation {S T} `{OutboxStore S} `{OutboxStore T}
    (R : nat -> S -> T -> Prop) (ok : T -> call -> Prop) :
  (forall n c s t, ok t c -> R (Datatypes.S n) s t ->
     R n (perform c s).1 (perform c t).1 /\ (perform c s).2 = (perform c t).2) ->
  forall cs s t, admissible ok cs t -> R (length cs) s t ->
    (session cs s).2 = (session cs t).2.
Proof.
  intros Hstep cs. induction cs as [|c cs IH]; intros s t Hok HR; [done|].
  cbn in Hok, HR |- *. destruct Hok as [Hc Hok]. destruct (Hstep _ c s t Hc HR) as [HR' Hr].
  destruct (perform c s) as [s' r], (perform c t) as [t' r']. cbn in HR', Hr, Hok. subst r'.
  specialize (IH s' t' Hok HR').
  destruct (session cs s') as [s'' rs], (session cs t') as [t'' rs']. cbn in *. by subst rs'.
Qed.

(** The laws hold on the states of any predicate the calls preserve. *)
Lemma laws_within {S} `{OS : OutboxStore S} (inv P : S -> Prop) (live delivered : S -> EventId -> Prop) :
  OutboxLaws S inv live delivered -> (forall c s, P s -> P (perform c s).1) ->
  OutboxLaws S (fun s => inv s /\ P s) live delivered.
Proof.
  intros [] HP. split; try (intros s *; intros [Hs Hp]; solve [eauto]).
  - intros s e [Hs Hp]. split; [auto|apply (HP (CAppend e) s Hp)].
  - intros s n now [Hs Hp]. split; [auto|apply (HP (CFetchDue n now) s Hp)].
  - intros s k i [Hs Hp]. split; [auto|apply (HP (CMarkDispatched k i) s Hp)].
  - intros s i m at_ [Hs Hp]. split; [auto|apply (HP (CMarkFailed i m at_) s Hp)].
  - intros s [Hs Hp]. split; [auto|apply (HP CPendingCount s Hp)].
  - intros s k e r [Hs Hp]. split; [auto|apply (HP (CDeadLetter k e r) s Hp)].
Qed.

Lemma admissible_any {T} `{OutboxStore T} cs (t : T) : admissible (fun _ _ => True) cs t.
Proof. revert t. induction cs as [|c cs IH]; intros t; cbn; auto. Qed.

Lemma admissible_forall {T} `{OutboxStore T} (ok : call -> Prop) cs (t : T) :
  Forall ok cs -> admissible (fun _ => ok) cs t.
Proof. intros Hok. revert t. induction Hok as [|c cs Hc _ IH]; intros t; cbn; auto. Qed.

Lemma session_invariant {S} `{OutboxStore S} (I : S -> Prop) (ok : call -> Prop) :
  (forall c s, ok c -> I s -> I (perform c s).1) ->
  forall cs s, Forall ok cs -> I s -> I (session cs s).1.
Proof.
  intros Hstep cs s Hok. revert s. induction Hok as [|c cs Hc _ IH]; intros s Hs; [done|]. cbn.
  specialize (Hstep c s Hc Hs). destruct (perform c s) as [s' r]. cbn in Hstep.
  specialize (IH s' Hstep). by destruct (session cs s').
Qed.

(** Every reply of a session satisfies what each call guarantees. *)
Lemma session_safe {S} `{OutboxStore S} (I : S -> Prop) (ok : call -> Prop) (Q : reply -> Prop) :
  (forall c s, ok c -> I s -> I (perform c s).1 /\ Q (perform c s).2) ->
  forall cs s, Forall ok cs -> I s -> Forall Q (session cs s).2.
Proof.
  intros Hstep cs s Hok. revert s. induction Hok as [|c cs Hc Hok IH]; intros s Hs; [constructor|]. cbn.
  destruct (Hstep c s Hc Hs) as [Hs' Hq]. destruct (perform c s) as [s' r]. cbn in *.
  specialize (IH s' Hs'). destruct (session cs s'). by constructor.
Qed.

(** ** The reference store *)

Record Outbox := mkOutbox {
  scheduled : gmap EventId (Z * OutboxEvent);
  delivered_ids : gset EventId
}.

Definition ref_empty : Outbox := mkOutbox ∅ ∅.

Definition ref_append (e : OutboxEvent) (o : Outbox) : Outbox :=
  if bool_decide (ev_id e ∈ dom (scheduled o)) || bool_decide (ev_id e ∈ delivered_ids o)
  then o
  else mkOutbox (<[ev_id e := (ev_created_at e, e)]> (scheduled o)) (delivered_ids o).

(** One failed dispatch recorded on an event. *)
Definition record_failure (error : str) (e : OutboxEvent) : OutboxEvent :=
  mkEvent (ev_id e) (ev_topic e) (ev_payload e) (ev_headers e) (ev_created_at e)
    (u32_saturating_add (ev_attempts e) 1) (Some (truncate_error error)).

Definition ref_mark_failed (i : EventId) (error : str) (retry_at : Z) (o : Outbox) : Outbox :=
  mkOutbox (alter (fun p => (retry_at, record_failure error p.2)) i (scheduled o)) (delivered_ids o).

Definition ref_mark_dispatched (i : EventId) (o : Outbox) : Outbox :=
  mkOutbox (delete i (scheduled o)) ({[i]} ∪ delivered_ids o).

Definition due (now : Z) (p : EventId * (Z * OutboxEvent)) : Prop :=
  p.2.1 <= now /\ p.2.1 <> NEVER.
#[export] Instance due_dec now p : Decision (due now p).
Proof. unfold due. apply _. Defined.

(** Schedule order: by [(next_attempt_at, id)]. *)
Definition sched_key (p : EventId * (Z * OutboxEvent)) : Z * EventId := (p.2.1, p.1).

(** Everything due, in schedule order. *)
Definition ref_due (now : Z) (o : Outbox) : list (EventId * (Z * OutboxEvent)) :=
  sort_by sched_key (filter (due now) (map_to_list (scheduled o))).

Definition ref_fetch_due (limit now : Z) (o : Outbox) : list OutboxEvent :=
  (fun p => p.2.2) <$> take_usize limit (ref_due now o).

Definition ref_pending_count (o : Outbox) : Z :=
  Z.of_nat (size (filter (fun p => p.2.1 <> NEVER) (scheduled o))).
Definition ref_parked_count (o : Outbox) : Z :=
  Z.of_nat (size (filter (fun p => p.2.1 = NEVER) (scheduled o))).

#[export] Instance RefStore : OutboxStore Outbox := {|
  append e := fun o => match validated e with
                       | Err err => (o, Err err)
                       | Ok _ => (ref_append e o, Ok tt)
                       end;
  fetch_due limit now := fun o => (o, Ok (ref_fetch_due limit now o));
  mark_dispatched _ i := fun o => (ref_mark_dispatched i o, Ok tt);
  mark_failed i m t := fun o => (ref_mark_failed i m t o, Ok tt);
  pending_count := fun o => (o, Ok (u64_try_from_or_max (ref_pending_count o)));
  parked_count := fun o => (o, Ok (u64_try_from_or_max (ref_parked_count o)));
  dead_letter := default_dead_letter;
  dead_letters := default_dead_letters
|}.

(** ** Schedule order *)

Section sched_order.
Context `{UL : !UuidLaws}.

Lemma elem_of_ref_due now o p :
  p ∈ ref_due now o <-> scheduled o !! p.1 = Some p.2 /\ due now p.
Proof.
  unfold ref_due. rewrite elem_of_sort_by, list_elem_of_filter.
  destruct p as [i v]. rewrite elem_of_map_to_list. cbn. tauto.
Qed.

Lemma ref_due_length now o : (length (ref_due now o) <= size (scheduled o))%nat.
Proof.
  unfold ref_due. rewrite length_sort_by, length_filter.
  by rewrite length_map_to_list.
Qed.

Lemma ref_due_NoDup now o : NoDup (ref_due now o).*1.
Proof.
  unfold ref_due, sort_by. rewrite merge_sort_Permutation.
  apply NoDup_fmap_filter, NoDup_fst_map_to_list.
Qed.

Lemma ref_due_sorted now o : StronglySorted lt_rel (sched_key <$> ref_due now o).
Proof.
  apply sort_by_strict. apply (NoDup_fmap_1 snd). rewrite <- list_fmap_compose.
  assert (NoDup (fst <$> filter (due now) (map_to_list (scheduled o)))) as Hnd.
  { apply NoDup_fmap_filter, NoDup_fst_map_to_list. }
  erewrite list_fmap_ext; [exact Hnd|done].
Qed.

(** An ordered list of the due keys is the list of keys of [ref_due]. *)
Lemma ref_due_keys now o (q : list (Z * EventId)) :
  sorted_set q ->
  (forall k, k ∈ q <-> exists e, scheduled o !! k.2 = Some (k.1, e) /\ k.1 <= now /\ k.1 <> NEVER) ->
  sched_key <$> ref_due now o = q.
Proof.
  intros Hs Hq. apply sorted_ext; [apply ref_due_sorted|done|].
  intros [t i]. rewrite Hq, list_elem_of_fmap. cbn. split.
  - intros ([j [t' e]] & [= -> ->] & [Hp Hd]%elem_of_ref_due). exists e. by split.
  - intros (e & Hp & Hd). exists (i, (t, e)). split; [done|]. by apply elem_of_ref_due.
Qed.

(** ** The contract of [fetch_due] *)

Definition fetched_entries (limit now : Z) (o : Outbox) := take_usize limit (ref_due now o).

Lemma fetched_sorted limit now o :
  StronglySorted lt_rel (sched_key <$> fetched_entries limit now o).
Proof.
  unfold fetched_entries, take_usize. rewrite fmap_take.
  apply StronglySorted_take, ref_due_sorted.
Qed.

Lemma fetched_NoDup limit now o : NoDup (fetched_entries limit now o).*1.
Proof.
  unfold fetched_entries, take_usize. rewrite fmap_take.
  eapply sublist_NoDup; [apply (ref_due_NoDup now o)|apply sublist_take].
Qed.

Lemma fetched_before_rest limit now o p q :
  p ∈ fetched_entries limit now o -> q ∈ ref_due now o -> q ∉ fetched_entries limit now o ->
  lt_rel (sched_key p) (sched_key q).
Proof.
  unfold fetched_entries, take_usize. intros Hp Hq Hnq.
  set (n := Z.to_nat (Z.min limit (len (ref_due now o)))) in *.
  pose proof (ref_due_sorted now o) as Hs.
  rewrite <- (take_drop n (ref_due now o)), fmap_app in Hs.
  rewrite <- (take_drop n (ref_due now o)) in Hq.
  apply elem_of_app in Hq as [?|Hq]; [done|].
  eapply StronglySorted_app_1_elem_of; [exact Hs|..]; by apply list_elem_of_fmap_2.
Qed.
End sched_order.

End Store.
