(* ===== verification/Memory.v ===== *)
(** * The in-process store

    [src/src/memory.rs]: [MemoryStore] keeps a hash map of live events, an
    ordered queue of [(next_attempt_at, id)] over it, and the set of dispatched
    ids.  The mutex makes every method atomic, and a poisoned lock is recovered,
    so a method is a function of the [Inner] state. *)

From S2P Require Import Prelude BTree Event Truncate Backoff Store HexUuid.

Module Memory.
Section Memory.
Context `{UO : UuidOps}.

Record Inner := mkInner {
  events : gmap EventId (Z * OutboxEvent);
  queue : list (Z * EventId);
  dispatched : gset EventId
}.

Definition new : Inner := mkInner ∅ [] ∅.

Definition mem_len (inner : Inner) : Z :=
  Z.of_nat (size (events inner)) + Z.of_nat (size (dispatched inner)).
Definition is_empty (inner : Inner) : bool := mem_len inner =? 0.

Definition append (event : OutboxEvent) : M Inner StoreError unit := fun inner =>
  match validated event with
  | Err e => (inner, Err e)
  | Ok _ =>
      if bool_decide (is_Some (events inner !! ev_id event))
         || bool_decide (ev_id event ∈ dispatched inner)
      then (inner, Ok tt)
      else (mkInner (<[ev_id event := (ev_created_at event, event)]> (events inner))
                    (bset_insert (ev_created_at event, ev_id event) (queue inner))
                    (dispatched inner), Ok tt)
  end.

Definition queue_due (now : Z) (q : Z * EventId) : Prop := q.1 <= now /\ q.1 <> NEVER.
#[export] Instance queue_due_dec now q : Decision (queue_due now q).
Proof. unfold queue_due. apply _. Defined.

Definition fetch_due (limit now_ms : Z) : M Inner StoreError (list OutboxEvent) := fun inner =>
  (inner, Ok (omap (fun q => snd <$> events inner !! q.2)
                (take_usize limit (filter (queue_due now_ms) (queue inner))))).

Definition mark_dispatched (i : EventId) : M Inner StoreError unit := fun inner =>
  let queue' := match events inner !! i with
                | Some (at_, _) => bset_remove (at_, i) (queue inner)
                | None => queue inner
                end in
  (mkInner (delete i (events inner)) queue' ({[i]} ∪ dispatched inner), Ok tt).

Definition mark_failed (i : EventId) (error : str) (retry_at_ms : Z) : M Inner StoreError unit :=
  fun inner =>
  match events inner !! i with
  | Some (at_, event) =>
      let queue1 := bset_remove (at_, ev_id event) (queue inner) in
      let event' := record_failure error event in
      (mkInner (<[i := (retry_at_ms, event')]> (events inner))
               (bset_insert (retry_at_ms, ev_id event') queue1)
               (dispatched inner), Ok tt)
  | None => (inner, Ok tt)
  end.

Definition pending_count : M Inner StoreError Z := fun inner =>
  (inner, Ok (u64_try_from_or_max
    (Z.of_nat (size (filter (fun p => p.2.1 <> NEVER) (events inner)))))).

Definition parked_count : M Inner StoreError Z := fun inner =>
  (inner, Ok (u64_try_from_or_max
    (Z.of_nat (size (filter (fun p => p.2.1 = NEVER) (events inner)))))).

(** [MemoryStore] keeps the trait's default dead-letter methods. *)
#[export] Instance MemoryStore : OutboxStore Inner := {|
  Store.append := append;
  Store.fetch_due := fetch_due;
  Store.mark_dispatched := fun _ => mark_dispatched;
  Store.mark_failed := mark_failed;
  Store.pending_count := pending_count;
  Store.parked_count := parked_count;
  Store.dead_letter := default_dead_letter;
  Store.dead_letters := default_dead_letters
|}.

(** ** Invariant

    The queue is exactly the ordered index of the map, ids are keys, and no
    live event is also dispatched. *)

Record mem_inv (inner : Inner) : Prop := {
  inv_ids : forall i p, events inner !! i = Some p -> ev_id p.2 = i;
  inv_sorted : sorted_set (queue inner);
  inv_queue : forall q, q ∈ queue inner <-> exists e, events inner !! q.2 = Some (q.1, e);
  inv_disjoint : forall i, is_Some (events inner !! i) -> i ∉ dispatched inner
}.

(** What the store means: the queue forgotten. *)
Definition abs (inner : Inner) : Outbox := mkOutbox (events inner) (dispatched inner).

Lemma new_inv : mem_inv new.
Proof.
  split; cbn; [done|constructor| |by intros i []%lookup_empty_is_Some].
  intros q. split; [set_solver|]. intros [e He]. by rewrite lookup_empty in He.
Qed.

Context `{UL : !UuidLaws}.

(** Rescheduling an entry in the map and in the queue keeps the index. *)
Lemma insert_inv inner i at_ e :
  mem_inv inner -> ev_id e = i -> i ∉ dispatched inner -> events inner !! i = None ->
  mem_inv (mkInner (<[i := (at_, e)]> (events inner)) (bset_insert (at_, i) (queue inner))
             (dispatched inner)).
Proof.
  intros [Hid Hs Hq Hd] He Hi Hnone. split; cbn.
  - intros j p Hp. apply lookup_insert_Some in Hp as [[<- <-]|[_ Hj]]; [done|by apply Hid].
  - by apply bset_insert_sorted.
  - intros [t j]. rewrite elem_of_bset_insert, Hq; cbn. split.
    + intros [[= -> ->]|[e' He']]; [exists e; by rewrite lookup_insert_eq|].
      exists e'. rewrite lookup_insert_ne; [done|congruence].
    + intros [e' He']. apply lookup_insert_Some in He' as [[<- E]|[_ He']].
      * left. congruence.
      * right. by exists e'.
  - intros j [p Hp]. apply lookup_insert_Some in Hp as [[<- _]|[_ Hj]]; [done|by apply Hd; exists p].
Qed.

Lemma delete_inv inner i at_ e d :
  mem_inv inner -> events inner !! i = Some (at_, e) ->
  (forall j, j ∈ d -> j ∈ dispatched inner \/ j = i) ->
  mem_inv (mkInner (delete i (events inner)) (bset_remove (at_, i) (queue inner)) d).
Proof.
  intros [Hid Hs Hq Hd] He Hdd. split; cbn.
  - intros j p Hp. apply lookup_delete_Some in Hp as [_ Hj]. by apply Hid.
  - by apply bset_remove_sorted.
  - intros [t j]. rewrite elem_of_bset_remove, Hq by done; cbn. split.
    + intros [[e' He'] Hne]. exists e'. rewrite lookup_delete_ne; [done|]. intros <-. naive_solver.
    + intros [e' He']. apply lookup_delete_Some in He' as [Hne He']. split; [by exists e'|congruence].
  - intros j [p Hp] Hin. apply lookup_delete_Some in Hp as [Hne Hj].
    destruct (Hdd _ Hin) as [?| ->]; [|done]. apply (Hd j); [by exists p|done].
Qed.

Lemma append_inv e inner : mem_inv inner -> mem_inv (append e inner).1.
Proof.
  intros Hinv. unfold append. destruct (validated e); [|done].
  case_bool_decide as He; [done|]. case_bool_decide as Hd; [done|].
  apply insert_inv; try done. by apply eq_None_not_Some.
Qed.

Lemma mark_dispatched_inv i inner : mem_inv inner -> mem_inv (mark_dispatched i inner).1.
Proof.
  intros Hinv. unfold mark_dispatched. destruct (events inner !! i) as [[t e]|] eqn:E; cbn.
  { eapply delete_inv; [done..|]. set_solver. }
  rewrite delete_id by done. destruct Hinv as [Hid Hs Hq Hd]. split; cbn; try done.
  intros j Hj. specialize (Hd j Hj). assert (j <> i) by (intros ->; by destruct Hj; congruence).
  set_solver.
Qed.

Lemma mark_failed_inv i m t inner : mem_inv inner -> mem_inv (mark_failed i m t inner).1.
Proof.
  intros Hinv. unfold mark_failed. destruct (events inner !! i) as [[at_ e]|] eqn:E; [|done].
  cbn. pose proof (inv_ids _ Hinv _ _ E) as Hid. cbn in Hid. rewrite Hid.
  rewrite <- insert_delete_eq.
  pose proof (delete_inv inner i at_ e (dispatched inner) Hinv E ltac:(by left)) as Hinv'.
  apply (insert_inv _ i t (record_failure m e)) in Hinv'; cbn in *; try done.
  - eapply inv_disjoint; [done|by exists (at_, e)].
  - apply lookup_delete_eq.
Qed.

(** ** The operations on the reference store *)

Lemma append_abs e inner :
  validate e = Ok tt ->
  abs (append e inner).1 = ref_append e (abs inner) /\ (append e inner).2 = Ok tt.
Proof.
  intros Hv%validated_ok. unfold append, ref_append. rewrite Hv. cbn.
  rewrite (bool_decide_ext (ev_id e ∈ dom _) (is_Some (events inner !! ev_id e)))
    by apply elem_of_dom.
  by destruct (_ || _).
Qed.

Lemma append_rejects e inner :
  validate e <> Ok tt -> append e inner = (inner, Err (InvalidTopic (ev_topic e))).
Proof.
  intros Hv. unfold append. destruct (validated e) as [[]|err] eqn:E.
  - by apply validated_ok in E.
  - by rewrite (validated_err _ _ E).
Qed.

Lemma mark_failed_abs i m t inner :
  abs (mark_failed i m t inner).1 = ref_mark_failed i m t (abs inner).
Proof.
  unfold mark_failed, ref_mark_failed, abs. cbn.
  destruct (events inner !! i) as [[at_ e]|] eqn:E; cbn; f_equal; apply map_eq; intros j.
  - rewrite lookup_alter. case_decide as Hj.
    + subst j. by rewrite lookup_insert_eq, E.
    + by rewrite lookup_insert_ne.
  - rewrite lookup_alter. case_decide; [subst j; by rewrite E|done].
Qed.

Lemma mark_dispatched_abs i inner :
  abs (mark_dispatched i inner).1 = ref_mark_dispatched i (abs inner).
Proof. done. Qed.

Lemma queue_due_keys now inner :
  mem_inv inner -> sched_key <$> ref_due now (abs inner) = filter (queue_due now) (queue inner).
Proof.
  intros [Hid Hs Hq Hd]. apply ref_due_keys.
  - by apply StronglySorted_filter.
  - intros k. rewrite list_elem_of_filter, Hq. unfold queue_due. naive_solver.
Qed.

Lemma fetch_due_abs limit now inner :
  mem_inv inner -> fetch_due limit now inner = (inner, Ok (ref_fetch_due limit now (abs inner))).
Proof.
  intros Hinv. unfold fetch_due, ref_fetch_due. do 2 f_equal.
  rewrite <- queue_due_keys by done.
  unfold take_usize, len. rewrite length_fmap, <- fmap_take.
  assert (forall p, p ∈ take (Z.to_nat (Z.min limit (Z.of_nat (length (ref_due now (abs inner))))))
    (ref_due now (abs inner)) -> events inner !! p.1 = Some p.2) as Hl.
  { intros p Hp%elem_of_take_incl. by apply elem_of_ref_due in Hp as [? _]. }
  revert Hl. generalize (take (Z.to_nat (Z.min limit (Z.of_nat (length (ref_due now (abs inner))))))
    (ref_due now (abs inner))). intros l.
  induction l as [|p l IH]; intros Hl; [done|]. cbn.
  rewrite (Hl p) by left. cbn. f_equal. apply IH. intros q Hq. apply Hl. by right.
Qed.

(** ** What the dispatcher relies on *)

Definition mem_live (inner : Inner) (i : EventId) : Prop := is_Some (events inner !! i).
Definition mem_delivered (inner : Inner) (i : EventId) : Prop := i ∈ dispatched inner.

Lemma mark_failed_live i m t inner j :
  mem_live inner j -> mem_live (mark_failed i m t inner).1 j.
Proof.
  unfold mem_live. intros Hj.
  pose proof (f_equal scheduled (mark_failed_abs i m t inner)) as Habs. cbn in Habs. rewrite Habs.
  rewrite lookup_alter. case_decide as Hij; [subst j; by apply fmap_is_Some|done].
Qed.

Lemma append_dispatched e inner : dispatched (append e inner).1 = dispatched inner.
Proof. unfold append. destruct (validated e); [|done]. by destruct (_ || _). Qed.

Lemma mark_failed_dispatched i m t inner : dispatched (mark_failed i m t inner).1 = dispatched inner.
Proof. unfold mark_failed. by destruct (events inner !! i) as [[]|]. Qed.

Lemma fetch_due_entries limit now inner l :
  mem_inv inner -> (fetch_due limit now inner).2 = Ok l ->
  ev_id <$> l = (fetched_entries limit now (abs inner)).*1 /\
  forall e, e ∈ l -> mem_live inner (ev_id e).
Proof.
  intros Hs. rewrite fetch_due_abs by done. cbn. intros [= <-]. unfold ref_fetch_due.
  change (take_usize limit (ref_due now (abs inner))) with (fetched_entries limit now (abs inner)).
  assert (forall p, p ∈ fetched_entries limit now (abs inner) -> ev_id p.2.2 = p.1 /\ mem_live inner p.1) as Hp.
  { intros [i [t e]] [Hp _]%elem_of_take_usize%elem_of_ref_due. cbn in *.
    split; [apply (inv_ids _ Hs _ _ Hp)|by eexists]. }
  split.
  - rewrite <- list_fmap_compose. apply Forall_fmap_ext_1, Forall_forall. intros p Hin. by apply Hp.
  - intros e (p & -> & Hin)%list_elem_of_fmap. destruct (Hp p Hin) as [-> ?]. done.
Qed.

#[export] Instance MemoryStore_laws : OutboxLaws Inner mem_inv mem_live mem_delivered.
Proof.
  split; cbn -[append fetch_due mark_dispatched mark_failed].
  - intros. by apply append_inv.
  - done.
  - intros. by apply mark_dispatched_inv.
  - intros. by apply mark_failed_inv.
  - done.
  - done.
  - intros s e Hs. unfold append, mem_live, mem_delivered.
    destruct (validated e); [|done]. case_bool_decide; [by left|]. case_bool_decide; [by right|].
    intros _. left. cbn. by rewrite lookup_insert_eq.
  - intros s e i Hs. unfold append, mem_live. destruct (validated e); [|done].
    destruct (_ || _); [done|]. cbn. intros Hi. rewrite lookup_insert. by case_decide.
  - done.
  - intros s n now l e Hs Hl. by apply (fetch_due_entries n now s l).
  - done.
  - intros. by apply mark_failed_live.
  - intros s n now l Hs Hl. rewrite (proj1 (fetch_due_entries _ _ _ _ Hs Hl)).
    apply fetched_NoDup.
  - intros s e i _. unfold mem_delivered. by rewrite append_dispatched.
  - done.
  - done.
  - intros s j m t i _. unfold mem_delivered. by rewrite mark_failed_dispatched.
  - done.
  - intros s c j i _. unfold mem_delivered. cbn. set_solver.
  - intros s c j i Hs Hne. unfold mem_live; cbn. by rewrite lookup_delete_ne.
  - done.
Qed.

(** ** Simulation *)

Definition refines (inner : Inner) (o : Outbox) : Prop := mem_inv inner /\ abs inner = o.

Lemma append_reply e inner :
  (append e inner).2 = match validated e with Ok _ => Ok tt | Err err => Err err end.
Proof. unfold append. destruct (validated e); [by destruct (_ || _)|done]. Qed.

Lemma append_state e inner :
  abs (append e inner).1 = match validated e with Ok _ => ref_append e (abs inner) | Err _ => abs inner end.
Proof.
  destruct (validated e) as [[]|err] eqn:E; [by apply append_abs, validated_ok|].
  unfold append. by rewrite E.
Qed.

Lemma perform_refines c inner o :
  refines inner o ->
  refines (perform c inner).1 (perform c o).1 /\ (perform c inner).2 = (perform c o).2.
Proof.
  intros [Hinv <-]. destruct c as [e|n now|clk i|i m t| | | |];
    cbn -[append fetch_due mark_dispatched mark_failed ref_append ref_fetch_due]; try done.
  - pose proof (append_inv e inner Hinv). pose proof (append_reply e inner) as ->.
    pose proof (append_state e inner). destruct (validated e); cbn in *; done.
  - by rewrite fetch_due_abs.
  - split; [|done]. split; [by apply mark_dispatched_inv|apply mark_dispatched_abs].
  - split; [split; [by apply mark_failed_inv|apply mark_failed_abs]|].
    unfold mark_failed. by repeat case_match.
Qed.

(** No call takes an id out of the dispatched set. *)
Lemma perform_dispatched c inner i :
  i ∈ dispatched inner -> i ∈ dispatched (perform c inner).1.
Proof.
  intros Hi. destruct c as [e|n now|clk j|j m t| | | |]; cbn -[append mark_failed]; [|done| | |done..].
  - destruct (append e inner) as [s r] eqn:E. unfold append in E.
    repeat case_match; simplify_eq; done.
  - set_solver.
  - destruct (mark_failed j m t inner) as [s r] eqn:E. unfold mark_failed in E.
    repeat case_match; simplify_eq; done.
Qed.

#[export] Instance MemoryStore_final : OutboxFinal Inner mem_inv mem_live mem_delivered.
Proof.
  split.
  - intros s i Hs Hl Hd. by apply (inv_disjoint _ Hs i).
  - intros s c i _ _. unfold mem_delivered. cbn. set_solver.
  - intros s e i _. apply (perform_dispatched (CAppend e)).
  - done.
  - intros s c j i _. apply (perform_dispatched (CMarkDispatched c j)).
  - intros s j m at_ i _ _. apply (perform_dispatched (CMarkFailed j m at_)).
  - done.
  - done.
Qed.
End Memory.
End Memory.
