(* ===== verification/MemoryProps.v ===== *)
(** * Properties of the in-process store *)

From S2P Require Import Prelude BTree Event Truncate Backoff Store HexUuid Memory.

Import Memory.

Section MemoryProps.
Context `{UO : UuidOps} `{UL : !UuidLaws}.

(** C6.  Through any session of calls, [MemoryStore] answers exactly as the
    reference store does: the ordered queue beside the map is an index, never
    visible as a different result. *)
Theorem memory_refines_reference (cs : list call) :
  (session cs new).2 = (session cs ref_empty).2.
Proof.
  apply (session_simulation (fun _ => refines) (fun _ _ => True)).
  - intros _ c s t _. apply perform_refines.
  - apply admissible_any.
  - split; [apply new_inv|done].
Qed.

(** C30.  In every reachable state the queue holds exactly the scheduled times of
    the live events in order, ids are keys, and no live event is also
    dispatched. *)
Theorem memory_reachable_inv (cs : list call) : mem_inv (session cs new).1.
Proof.
  apply (session_invariant _ (fun _ => True)); [|by apply Forall_true|apply new_inv]. intros c s _ Hs.
  destruct (perform_refines c s (abs s) (conj Hs eq_refl)) as [[H _] _]. exact H.
Qed.

(** C26.  [fetch_due] returns due events only, ordered by
    [(next_attempt_at, id)]; a due event it leaves out comes after all it
    returns, and is left out only when the limit is reached. *)
Theorem fetch_due_contract (limit now : Z) (inner : Inner) (l : list OutboxEvent)
    (Hinv : mem_inv inner) (Hlimit : 0 <= limit)
    (Hl : (fetch_due limit now inner).2 = Ok l) :
  exists keys : list (Z * EventId),
    ev_id <$> l = keys.*2 /\ StronglySorted lt_rel keys /\ len l <= limit /\
    (forall t i, (t, i) ∈ keys ->
       t <= now /\ t <> NEVER /\ exists e, e ∈ l /\ events inner !! i = Some (t, e)) /\
    (forall t i e, events inner !! i = Some (t, e) -> t <= now -> t <> NEVER ->
       (t, i) ∉ keys -> len l = limit /\ forall k, k ∈ keys -> lt_rel k (t, i)).
Proof.
  rewrite fetch_due_abs in Hl by done. injection Hl as <-. unfold ref_fetch_due.
  change (take_usize limit (ref_due now (abs inner))) with (fetched_entries limit now (abs inner)).
  exists (sched_key <$> fetched_entries limit now (abs inner)). split_and!.
  - rewrite <- !list_fmap_compose. apply Forall_fmap_ext_1, Forall_forall.
    intros [i [t e]] Hp%elem_of_take_usize. apply elem_of_ref_due in Hp as [Hp _].
    by apply (inv_ids _ Hinv _ _ Hp).
  - apply fetched_sorted.
  - unfold len, fetched_entries. rewrite length_fmap, take_usize_spec, length_take by done. lia.
  - intros t i ([j [t' e]] & [= -> ->] & Hp)%list_elem_of_fmap.
    pose proof Hp as [Hs [Hd Hn]]%elem_of_take_usize%elem_of_ref_due. split_and!; [done..|].
    exists e. split; [|done]. by apply (list_elem_of_fmap_2 (fun p => p.2.2) _ _ Hp).
  - intros t i e He Ht Hn Hk.
    assert ((i, (t, e)) ∈ ref_due now (abs inner)) as Hin by (by apply elem_of_ref_due).
    assert ((i, (t, e)) ∉ fetched_entries limit now (abs inner)) as Hnin.
    { intros Hc. apply Hk. by apply (list_elem_of_fmap_2 sched_key _ _ Hc). }
    split.
    + unfold len, fetched_entries in *. rewrite length_fmap, take_usize_spec, length_take in * by done.
      destruct (decide (length (ref_due now (abs inner)) <= Z.to_nat limit)%nat) as [Hle|]; [|lia].
      by rewrite take_ge in Hnin.
    + intros k (p & -> & Hp)%list_elem_of_fmap.
      apply (fetched_before_rest limit now (abs inner) p (i, (t, e))); done.
Qed.

(** Appending is idempotent on the id: once an id is live or dispatched,
    appending any event that carries it succeeds and changes nothing.  In
    particular re-appending a parked event does not make it due again. *)
Lemma append_idempotent (e : OutboxEvent) (inner : Inner)
    (Htopic : validate e = Ok tt)
    (Hknown : is_Some (events inner !! ev_id e) \/ ev_id e ∈ dispatched inner) :
  append e inner = (inner, Ok tt).
Proof.
  unfold append. rewrite (proj2 (validated_ok e) Htopic).
  destruct Hknown as [Hk|Hk].
  - by rewrite bool_decide_eq_true_2.
  - by rewrite (bool_decide_eq_true_2 (ev_id e ∈ _)), orb_true_r.
Qed.

(** An event with an invalid topic is refused with its topic, and nothing is
    recorded. *)
Lemma append_invalid_topic (e : OutboxEvent) (inner : Inner) (H : validate e <> Ok tt) :
  append e inner = (inner, Err (InvalidTopic (ev_topic e))).
Proof. by apply append_rejects. Qed.

(** Delivery is final: after an id has been dispatched, no further session
    ever fetches it again, whatever is appended or failed under that id. *)
Lemma dispatched_terminal (cs : list call) (inner : Inner) (i : EventId)
    (Hinv : mem_inv inner) (Hi : i ∈ dispatched inner) (l : list OutboxEvent) (e : OutboxEvent)
    (Hl : REvents (Ok l) ∈ (session cs inner).2) (He : e ∈ l) :
  ev_id e <> i.
Proof.
  set (Q := fun r => forall l, r = REvents (Ok l) -> forall e, e ∈ l -> ev_id e <> i).
  assert (Forall Q (session cs inner).2) as HQ; [|rewrite Forall_forall in HQ; by eapply HQ].
  apply (session_safe (fun s => mem_inv s /\ i ∈ dispatched s) (fun _ => True)); [|by apply Forall_true|done].
  clear l e Hl He Hinv Hi. intros c s _ [Hinv Hi]. split.
  - destruct (perform_refines c s (abs s) (conj Hinv eq_refl)) as [[Hinv' _] _]. split; [done|].
    by apply perform_dispatched.
  - intros l Hl e He Heq. destruct c as [|n now| | | | | |]; cbn in Hl; try discriminate.
    injection Hl as <-. subst i.
    eapply (inv_disjoint _ Hinv); [|exact Hi].
    eapply (fetch_due_live (inv := mem_inv) (live := mem_live) (delivered := mem_delivered) s n now);
      [done|reflexivity|exact He].
Qed.

(** A parked event is out of every fetch, however late the clock, until it
    is rescheduled; rescheduling at a real time makes it due again with both
    failures counted and the newest diagnostic. *)
Lemma park_and_replay (inner : Inner) (i : EventId) (at_ t now limit : Z) (e : OutboxEvent)
    (m1 m2 : str) (Hinv : mem_inv inner) (He : events inner !! i = Some (at_, e))
    (Ht : t <= now) (Hn : t <> NEVER) (Hlimit : Z.of_nat (size (events inner)) <= limit) :
  let parked := (mark_failed i m1 NEVER inner).1 in
  let revived := (mark_failed i m2 t parked).1 in
  (forall n now' l e', (fetch_due n now' parked).2 = Ok l -> e' ∈ l -> ev_id e' <> i) /\
  (exists l e', (fetch_due limit now revived).2 = Ok l /\ e' ∈ l /\ ev_id e' = i /\
     ev_attempts e' = u32_saturating_add (u32_saturating_add (ev_attempts e) 1) 1 /\
     ev_last_error e' = Some (truncate_error m2)).
Proof.
  cbn zeta. set (parked := (mark_failed i m1 NEVER inner).1).
  set (revived := (mark_failed i m2 t parked).1).
  assert (mem_inv parked) as Hp by (by apply mark_failed_inv).
  assert (mem_inv revived) as Hr by (by apply mark_failed_inv).
  assert (abs parked = ref_mark_failed i m1 NEVER (abs inner)) as Ap by apply mark_failed_abs.
  assert (abs revived = ref_mark_failed i m2 t (abs parked)) as Ar by apply mark_failed_abs.
  split.
  - intros n now' l e'. rewrite fetch_due_abs by done. intros [= <-].
    intros ([j [t' e2]] & -> & Hin)%list_elem_of_fmap. cbn.
    apply elem_of_take_usize, elem_of_ref_due in Hin as [Hj [_ Hne]]. cbn in Hj, Hne.
    intros Hid. change (events parked !! j = Some (t', e2)) in Hj.
    pose proof (inv_ids _ Hp _ _ Hj) as Hij. cbn in Hij. subst i. rewrite Hij in *.
    change (scheduled (abs parked) !! j = Some (t', e2)) in Hj. rewrite Ap in Hj. cbn in Hj.
    rewrite lookup_alter_eq, He in Hj. injection Hj as <- _. done.
  - set (e' := record_failure m2 (record_failure m1 e)).
    assert (scheduled (abs revived) !! i = Some (t, e')) as Hs.
    { rewrite Ar, Ap. cbn. by rewrite !lookup_alter_eq, He. }
    exists (ref_fetch_due limit now (abs revived)), e'. split_and!; try done.
    + by rewrite fetch_due_abs.
    + unfold ref_fetch_due. apply (list_elem_of_fmap_2 (fun p => p.2.2) _ (i, (t, e'))).
      rewrite take_usize_spec by lia. rewrite take_ge; [by apply elem_of_ref_due|].
      rewrite <- (Nat2Z.id (length _)). apply Z2Nat.inj_le; [lia|lia|].
      etransitivity; [|exact Hlimit]. apply inj_le. etransitivity; [apply ref_due_length|].
      rewrite Ar, Ap. cbn. by rewrite !map_size_alter.
    + apply (inv_ids _ Hinv _ _ He).
Qed.

(** Parked and pending events partition the live ones, and both counts are
    exact while the outbox holds fewer than [2^64] events. *)
Lemma counts_partition (inner : Inner) (H : Z.of_nat (size (events inner)) <= u64_max) :
  exists pending parked,
    (pending_count inner).2 = Ok pending /\ (parked_count inner).2 = Ok parked /\
    pending + parked = Z.of_nat (size (events inner)).
Proof.
  pose proof (map_filter_union_complement (fun p : EventId * (Z * OutboxEvent) => p.2.1 = NEVER) (events inner)) as Hu.
  pose proof (map_disjoint_filter_complement (fun p : EventId * (Z * OutboxEvent) => p.2.1 = NEVER) (events inner)) as Hd.
  assert (forall n : nat, Z.of_nat n <= u64_max -> u64_try_from_or_max (Z.of_nat n) = Z.of_nat n) as Hn.
  { intros n Hn. int_lia. }
  apply (f_equal size) in Hu. rewrite map_size_disj_union in Hu by done.
  do 2 eexists. split_and!; [reflexivity|reflexivity|]. rewrite !Hn by lia. lia.
Qed.

(** [mark_dispatched] of an id the store has never seen is remembered: an
    event appended under that id later is accepted and never stored. *)
Lemma mark_dispatched_unknown_swallows (e : OutboxEvent) (inner : Inner)
    (Htopic : validate e = Ok tt) :
  let inner' := (mark_dispatched (ev_id e) inner).1 in
  append e inner' = (inner', Ok tt) /\ events inner' !! ev_id e = None.
Proof.
  cbn zeta. split; [|by cbn; rewrite lookup_delete_eq].
  unfold append. rewrite (proj2 (validated_ok e) Htopic).
  rewrite (bool_decide_eq_true_2 (ev_id e ∈ _)) by (cbn; set_solver). by rewrite orb_true_r.
Qed.

End MemoryProps.

(** ** Witnesses *)

(** Two events appended, the first dispatched. *)
Definition e1 : OutboxEvent := sample_event 1 1000.
Definition e2 : OutboxEvent := sample_event 2 900.
Definition sample_inner : Inner := (session [CAppend e1; CAppend e2; CMarkDispatched 0 (eid 1)] new).1.

Lemma sample_inner_inv : mem_inv sample_inner.
Proof.
  apply (session_invariant mem_inv (fun _ => True)); [|by apply Forall_true|apply new_inv]. intros c s _ Hs.
  by destruct (perform_refines c s (abs s) (conj Hs eq_refl)) as [[? _] _].
Qed.

Lemma memory_refines_reference_witness :
  let cs := [CAppend e1; CAppend e2; CFetchDue 10 950; CMarkFailed (eid 2) (lit "down") NEVER;
             CFetchDue 10 u64_max; CParkedCount] in
  (session cs new).2 = (session cs ref_empty).2 /\
  (session cs new).2 = [RUnit (Ok tt); RUnit (Ok tt); REvents (Ok [e2]); RUnit (Ok tt);
                        REvents (Ok [e1]); RCount (Ok 1)].
Proof.
  cbv zeta. split; [|vm_eq].
  exact (memory_refines_reference _).
Defined.

Lemma memory_reachable_inv_witness :
  mem_inv (session [CAppend e1; CMarkFailed (eid 1) (lit "down") 5000] new).1.
Proof. exact (memory_reachable_inv _). Defined.

Lemma fetch_due_contract_witness :
  exists keys : list (Z * EventId), ev_id <$> [e2] = keys.*2 /\ StronglySorted lt_rel keys.
Proof.
  destruct (fetch_due_contract 1 2000 sample_inner [e2] sample_inner_inv ltac:(lia)) as (keys & H1 & H2 & _).
  - vm_eq.
  - exists keys. split; [exact H1|exact H2].
Defined.

Lemma append_idempotent_witness :
  append (sample_event 2 7000) sample_inner = (sample_inner, Ok tt).
Proof.
  apply append_idempotent; [vm_eq|]. left. eexists (900, e2). vm_eq.
Defined.

Lemma append_invalid_topic_witness :
  let bad := mkEvent (eid 3) (lit "Bad Topic") [] [] 0 0 None in
  append bad sample_inner = (sample_inner, Err (InvalidTopic (lit "Bad Topic"))).
Proof.
  cbv zeta. apply (append_invalid_topic (mkEvent (eid 3) (lit "Bad Topic") [] [] 0 0 None)).
  vm_compute. congruence.
Defined.

Lemma dispatched_terminal_witness :
  let cs := [CAppend e1; CMarkFailed (eid 1) (lit "late") 0; CFetchDue 10 5000] in
  (session cs sample_inner).2 = [RUnit (Ok tt); RUnit (Ok tt); REvents (Ok [e2])] /\ ev_id e2 <> eid 1.
Proof.
  cbv zeta.
  assert ((session [CAppend e1; CMarkFailed (eid 1) (lit "late") 0; CFetchDue 10 5000] sample_inner).2
    = [RUnit (Ok tt); RUnit (Ok tt); REvents (Ok [e2])]) as H by vm_eq.
  split; [exact H|].
  apply (dispatched_terminal [CAppend e1; CMarkFailed (eid 1) (lit "late") 0; CFetchDue 10 5000]
    sample_inner (eid 1) sample_inner_inv) with (l := [e2]).
  - set_solver.
  - rewrite H. do 2 right. left.
  - left.
Defined.

Lemma park_and_replay_witness :
  let parked := (mark_failed (eid 2) (lit "down") NEVER sample_inner).1 in
  let revived := (mark_failed (eid 2) (lit "again") 10 parked).1 in
  exists l e', (fetch_due 5 20 revived).2 = Ok l /\ e' ∈ l /\ ev_id e' = eid 2 /\ ev_attempts e' = 2.
Proof.
  cbv zeta.
  destruct (park_and_replay sample_inner (eid 2) 900 10 20 5 e2 (lit "down") (lit "again") sample_inner_inv)
    as [_ (l & e' & H1 & H2 & H3 & H4 & _)].
  - vm_eq.
  - lia.
  - vm_compute. congruence.
  - vm_compute. congruence.
  - exists l, e'. split_and!; [exact H1|exact H2|exact H3|exact H4].
Defined.

Lemma counts_partition_witness :
  exists pending parked, (pending_count sample_inner).2 = Ok pending /\
    (parked_count sample_inner).2 = Ok parked /\ pending + parked = 1.
Proof.
  destruct (counts_partition sample_inner) as (p & q & H1 & H2 & H3); [vm_compute; congruence|].
  exists p, q. split_and!; [exact H1|exact H2|exact H3].
Defined.

Lemma mark_dispatched_unknown_swallows_witness :
  (session [CMarkDispatched 0 (eid 9); CAppend (sample_event 9 0); CFetchDue 10 u64_max; CPendingCount] new).2
    = [RUnit (Ok tt); RUnit (Ok tt); REvents (Ok []); RCount (Ok 0)] /\
  events (mark_dispatched (eid 9) new).1 !! eid 9 = None.
Proof.
  split; [vm_eq|].
  apply (mark_dispatched_unknown_swallows (sample_event 9 0) new). vm_eq.
Defined.
