(* ===== verification/Ledger.v ===== *)
(** * The whole contract, and the contract under faults

    [src/src/store.rs] as its documentation states it, dead letters included:
    a [Ledger] is the reference outbox with the letters beside it.
    [mark_dispatched] of an unknown id is a no-op, a letter is recorded as
    handed over (its reason bounded), [dead_letters] lists the oldest first.
    [MemoryStore], which takes the trait's default [dead_letter], agrees with
    it on the sessions that dead-letter nothing ([agrees_on]).

    A store behind an engine that can fail does not answer every call as the
    ledger does.  [answers] is what it may do instead: refuse with nothing
    changed, or do the work and lose the reply.  [partial] lists the calls that
    may also stop halfway, and how. *)

From S2P Require Import Prelude BTree Event Truncate Backoff Store.

Section Ledger.
Context `{UO : UuidOps}.

Record Ledger := mkLedger {
  outbox : Outbox;
  letters : gmap EventId (Z * (OutboxEvent * str))
}.

Definition ledger_empty : Ledger := mkLedger ref_empty ∅.

Definition with_outbox (f : Outbox -> Outbox) (l : Ledger) : Ledger :=
  mkLedger (f (outbox l)) (letters l).

(** Delivering what the outbox does not hold changes nothing. *)
Definition deliver (i : EventId) (o : Outbox) : Outbox :=
  match scheduled o !! i with Some _ => ref_mark_dispatched i o | None => o end.

(** Out of the outbox entirely, live or delivered. *)
Definition close_case (i : EventId) (o : Outbox) : Outbox :=
  mkOutbox (delete i (scheduled o)) (delivered_ids o ∖ {[i]}).

Definition file_letter (stamp : Z) (e : OutboxEvent) (reason : str) (l : Ledger) : Ledger :=
  mkLedger (outbox l) (<[ev_id e := (stamp, (e, truncate_reason reason))]> (letters l)).

(** Oldest first: by [(dead_lettered_at, id)]. *)
Definition letter_order (p : EventId * (Z * (OutboxEvent * str))) : Z * EventId := (p.2.1, p.1).
Definition filed (l : Ledger) : list (EventId * (Z * (OutboxEvent * str))) :=
  sort_by letter_order (map_to_list (letters l)).
Definition filed_letters (limit : Z) (l : Ledger) : list (OutboxEvent * str) :=
  (fun p => p.2.2) <$> take_usize limit (filed l).

#[export] Instance LedgerStore : OutboxStore Ledger := {|
  append e := fun l => match validated e with
                       | Err err => (l, Err err)
                       | Ok _ => (with_outbox (ref_append e) l, Ok tt)
                       end;
  fetch_due limit now := fun l => (l, Ok (ref_fetch_due limit now (outbox l)));
  mark_dispatched _ i := fun l => (with_outbox (deliver i) l, Ok tt);
  mark_failed i m t := fun l => (with_outbox (ref_mark_failed i m t) l, Ok tt);
  pending_count := fun l => (l, Ok (u64_try_from_or_max (ref_pending_count (outbox l))));
  parked_count := fun l => (l, Ok (u64_try_from_or_max (ref_parked_count (outbox l))));
  dead_letter clock e reason := fun l =>
    match validated e with
    | Err err => (l, Err err)
    | Ok _ => (with_outbox (close_case (ev_id e)) (file_letter (now_millis clock) e reason l), Ok tt)
    end;
  dead_letters limit := fun l => (l, Ok (filed_letters limit l))
|}.

(** A call makes the ledger one event and one letter larger at most. *)
Definition ledger_size (l : Ledger) : nat := size (scheduled (outbox l)) `max` size (letters l).

Lemma ledger_size_empty : ledger_size ledger_empty = 0%nat.
Proof. unfold ledger_size. cbn. by rewrite !map_size_empty. Qed.

Lemma size_insert_le {A} (i : EventId) (x : A) (m : gmap EventId A) :
  (size (<[i := x]> m) <= S (size m))%nat.
Proof. rewrite map_size_insert. case_match; cbn; lia. Qed.

Lemma size_delete_le {A} (i : EventId) (m : gmap EventId A) : (size (delete i m) <= size m)%nat.
Proof. rewrite map_size_delete. case_match; cbn; lia. Qed.

Lemma perform_size c l : (ledger_size (perform c l).1 <= S (ledger_size l))%nat.
Proof.
  unfold ledger_size. destruct c; cbn; try (repeat case_match; cbn; lia).
  - case_match; cbn; [|lia]. unfold ref_append. case_match; cbn; [lia|].
    pose proof (size_insert_le (ev_id event) (ev_created_at event, event) (scheduled (outbox l))). lia.
  - unfold deliver. case_match; cbn; [|lia].
    pose proof (size_delete_le i (scheduled (outbox l))). lia.
  - rewrite map_size_alter. lia.
  - case_match; cbn; [|lia]. pose proof (size_delete_le (ev_id event) (scheduled (outbox l))).
    pose proof (size_insert_le (ev_id event) (now_millis clock, (event, truncate_reason reason)) (letters l)). lia.
Qed.

(** ** Sessions without dead letters *)

Definition agrees_on (o : Outbox) (c : call) : Prop :=
  match c with
  | CMarkDispatched _ i => is_Some (scheduled o !! i) \/ i ∈ delivered_ids o
  | CDeadLetter _ _ _ => False
  | _ => True
  end.

Lemma deliver_known i o :
  is_Some (scheduled o !! i) \/ i ∈ delivered_ids o -> deliver i o = ref_mark_dispatched i o.
Proof.
  unfold deliver, ref_mark_dispatched. destruct (scheduled o !! i) eqn:E; [done|].
  intros [[? [=]]|Hi]. rewrite delete_id by done. destruct o as [s d]; cbn in *. f_equal. set_solver.
Qed.

Lemma filed_none limit o : filed_letters limit (mkLedger o ∅) = [].
Proof.
  unfold filed_letters, filed, take_usize. cbn [letters]. rewrite map_to_list_empty.
  change (sort_by letter_order []) with (@nil (EventId * (Z * (OutboxEvent * str)))). by rewrite take_nil.
Qed.

Lemma perform_agrees c o :
  agrees_on o c ->
  (perform c (mkLedger o ∅)).1 = mkLedger (perform c o).1 ∅ /\
  (perform c (mkLedger o ∅)).2 = (perform c o).2.
Proof.
  destruct c; cbn -[filed_letters ref_append deliver ref_mark_dispatched ref_mark_failed]; try done.
  - by destruct (validated event).
  - intros Hi. unfold with_outbox; cbn. by rewrite deliver_known.
  - intros _. by rewrite filed_none.
Qed.

(** ** Faults *)

Section faults.
Context {T : Type} `{!OutboxStore T} (partial : call -> T -> T -> Prop).

Inductive answers (c : call) (o : T) : reply -> T -> Prop :=
| answered : answers c o (perform c o).2 (perform c o).1
| refused m : answers c o (failed_reply c m) o
| unheard m : answers c o (failed_reply c m) (perform c o).1
| halfway m o' : partial c o o' -> answers c o (failed_reply c m) o'.

Inductive faulty_session : list call -> T -> list reply -> T -> Prop :=
| faulty_nil o : faulty_session [] o [] o
| faulty_cons c cs o r o1 rs o2 :
    answers c o r o1 -> faulty_session cs o1 rs o2 -> faulty_session (c :: cs) o (r :: rs) o2.

(** Sessions whose calls satisfy [ok] in every state the faults may lead to. *)
Fixpoint robust (ok : T -> call -> Prop) (cs : list call) (o : T) : Prop :=
  match cs with
  | [] => True
  | c :: cs => ok o c /\ forall r o', answers c o r o' -> robust ok cs o'
  end.

Lemma robust_forall (ok : call -> Prop) cs o : Forall ok cs -> robust (fun _ => ok) cs o.
Proof. intros Hok. revert o. induction Hok as [|c cs Hc _ IH]; intros o; cbn; auto. Qed.

(** A relation every call preserves, up to a fault, relates whole sessions to
    faulty sessions of the reference. *)
Lemma session_faulty {S} `{!OutboxStore S} (R : nat -> S -> T -> Prop) (ok : T -> call -> Prop) :
  (forall n c s o, ok o c -> R (Datatypes.S n) s o ->
     exists o', answers c o (perform c s).2 o' /\ R n (perform c s).1 o') ->
  forall cs s o, robust ok cs o -> R (length cs) s o ->
    exists o', faulty_session cs o (session cs s).2 o' /\ R 0%nat (session cs s).1 o'.
Proof.
  intros Hstep cs. induction cs as [|c cs IH]; intros s o Hok HR.
  { exists o. split; [constructor|done]. }
  destruct Hok as [Hc Hok]. destruct (Hstep _ c s o Hc HR) as (o1 & Ha & HR1).
  cbn. destruct (perform c s) as [s1 r]. cbn in Ha, HR1.
  destruct (IH s1 o1 (Hok _ _ Ha) HR1) as (o2 & Hf & HR2).
  destruct (session cs s1) as [s2 rs]. cbn in *. exists o2. split; [by econstructor|done].
Qed.
End faults.
End Ledger.
