(* ===== verification/Sql.v ===== *)
(** * What the SQL stores share

    The database connection as the stores see it: tables, and a script saying
    how each engine call turns out.  A call may succeed, fail without effect,
    or take effect with its reply lost; the store only sees [Ok] or
    [StoreError::Backend].  A statement that reports an error of its own (a
    constraint, an overflow) has no effect.

    Tables are maps from the [TEXT PRIMARY KEY] column; [select] is
    [SELECT ... WHERE ... ORDER BY ... LIMIT].

    The second half relates a table of scheduled rows to the reference store:
    [table_rel] is the simulation relation both SQL stores instantiate. *)

From S2P Require Import Prelude BTree Utf8 Event Truncate Codec Backoff Store.

(** ** Engine calls *)

Inductive outcome := Done | Fails (m : str) | Lost (m : str).

Record Conn (T : Type) := mkConn { tables : T; script : list outcome }.
Arguments mkConn {T} _ _.
Arguments tables {T} _.
Arguments script {T} _.

Definition next_outcome (s : list outcome) : outcome * list outcome :=
  match s with [] => (Done, []) | o :: s => (o, s) end.

(** One statement in autocommit mode: all of its effect or none. *)
Definition statement {T A} (f : T -> result (T * A) str) : M (Conn T) StoreError A := fun c =>
  let '(o, s) := next_outcome (script c) in
  match o, f (tables c) with
  | Fails m, _ => (mkConn (tables c) s, Err (Backend m))
  | _, Err m => (mkConn (tables c) s, Err (Backend m))
  | Done, Ok (t, a) => (mkConn t s, Ok a)
  | Lost m, Ok (t, _) => (mkConn t s, Err (Backend m))
  end.

Definition update {T} (f : T -> T) : M (Conn T) StoreError unit :=
  statement (fun t => Ok (f t, tt)).
Definition query {T A} (f : T -> A) : M (Conn T) StoreError A :=
  statement (fun t => Ok (t, f t)).

(** A transaction: [BEGIN], the statements on the transaction's own view,
    [COMMIT].  An error before the commit drops the transaction, which rolls
    it back. *)
Definition transaction {T A} (body : M (Conn T) StoreError A) : M (Conn T) StoreError A :=
  fun c =>
  match query (fun _ => tt) c with
  | (c, Err e) => (c, Err e)
  | (c, Ok _) =>
      match body c with
      | (c', Err e) => (mkConn (tables c) (script c'), Err e)
      | (c', Ok a) =>
          let '(o, s) := next_outcome (script c') in
          match o with
          | Done => (mkConn (tables c') s, Ok a)
          | Fails m => (mkConn (tables c) s, Err (Backend m))
          | Lost m => (mkConn (tables c') s, Err (Backend m))
          end
      end
  end.

(** ** Engine diagnostics

    The texts the engines produce are not the program's; they are opaque. *)
Class SqlEngine := {
  out_of_range : str;          (** an integer result beyond its column *)
  not_utf8 : str -> str;       (** a [TEXT] column read as [String] *)
  nul_in_text : str            (** a zero byte in a Postgres [TEXT] value *)
}.

(** ** Columns *)

(** [next_attempt_at] parked in storage: [u64::MAX] clamps to [i64::MAX]. *)
Definition PARKED_AS_I64 : Z := i64_max.

Definition clamp_i64 (value : Z) : Z := i64_try_from_or_max value.
Definition unclamp_u64 (value : Z) : Z := u64_try_from_or_max value.

(** ** Selection *)

Definition select {R K} `{Ltb K} (P : R -> Prop) `{forall r, Decision (P r)} (key : R -> K)
    (limit : Z) (rows : gmap str R) : list R :=
  take_usize limit (sort_by key (filter P (map_to_list rows).*2)).

Definition count_where {R} (P : R -> Prop) `{forall r, Decision (P r)} (rows : gmap str R) : Z :=
  Z.of_nat (size (filter (fun p => P p.2) rows)).

(** [for row in rows { v.push(f(row)?); }] *)
Fixpoint collect {A B E} (f : A -> result B E) (l : list A) : result (list B) E :=
  match l with
  | [] => Ok []
  | a :: l => b <-? f a; bs <-? collect f l; Ok (b :: bs)
  end.

Section Sql.
Context `{UO : UuidOps}.

(** ** Dead letters *)

Record Letter := mkLetter {
  l_id : str;
  l_topic : str;
  l_payload : bytes;
  l_headers : bytes;
  l_created_at : Z;
  l_attempts : Z;
  l_last_error : option str;
  l_reason : str;
  l_dead_lettered_at : Z
}.

Definition letter_key (l : Letter) : Z * str := (l_dead_lettered_at l, l_id l).

(** The columns of an event row, decoded. *)
Definition event_from_row (id topic : str) (payload headers : bytes) (created_at attempts : Z)
    (last_error : option str) : result OutboxEvent StoreError :=
  i <-? map_err (fun _ => Backend (lit "corrupt event id in store: " ++ id)) (event_id_parse id);
  h <-? decode_headers headers;
  Ok (mkEvent i topic payload h (unclamp_u64 created_at) (u32_try_from_or_max attempts) last_error).

(** ** Generic facts *)

Lemma collect_ok {A B E} (f : A -> result B E) l bs :
  collect f l = Ok bs <-> Forall2 (fun a b => f a = Ok b) l bs.
Proof.
  revert bs. induction l as [|a l IH]; intros bs; cbn.
  - split; [by intros [= <-]|by intros ->%Forall2_nil_inv_l].
  - split.
    + intros (b & Hb & (bs' & Hbs & [= <-])%rbind_ok_inv)%rbind_ok_inv.
      constructor; [done|by apply IH].
    + intros (b & bs' & Hb & Hbs & ->)%Forall2_cons_inv_l. rewrite Hb. cbn.
      by rewrite (proj2 (IH bs') Hbs).
Qed.

Lemma collect_elem {A B E} (f : A -> result B E) l bs b :
  collect f l = Ok bs -> b ∈ bs -> exists a, a ∈ l /\ f a = Ok b.
Proof.
  rewrite collect_ok. induction 1 as [|a b' l bs Hab _ IH]; [by intros ?%not_elem_of_nil|].
  intros [->|Hb]%elem_of_cons; [exists a; split; [by left|done]|].
  destruct (IH Hb) as (a' & ? & ?). exists a'. split; [by right|done].
Qed.

Lemma elem_of_rows {R} (rows : gmap str R) r :
  r ∈ (map_to_list rows).*2 <-> exists k, rows !! k = Some r.
Proof.
  rewrite list_elem_of_fmap. split.
  - intros ([k r'] & -> & Hk%elem_of_map_to_list). by exists k.
  - intros [k Hk]. exists (k, r). split; [done|]. by apply elem_of_map_to_list.
Qed.

Lemma elem_of_select {R K} `{Ltb K} (P : R -> Prop) `{forall r, Decision (P r)}
    (key : R -> K) limit rows r :
  r ∈ select P key limit rows -> P r /\ exists k, rows !! k = Some r.
Proof.
  intros Hr%elem_of_take_usize. unfold sort_by in Hr.
  rewrite merge_sort_Permutation in Hr.
  by apply list_elem_of_filter in Hr as [? ?%elem_of_rows].
Qed.

Lemma statement_done {T A} (f : T -> result (T * A) str) t t' a :
  f t = Ok (t', a) -> statement f (mkConn t []) = (mkConn t' [], Ok a).
Proof. intros E. unfold statement. cbn. by rewrite E. Qed.

Lemma statement_refused {T A} (f : T -> result (T * A) str) t m :
  f t = Err m -> statement f (mkConn t []) = (mkConn t [], Err (Backend m)).
Proof. intros E. unfold statement. cbn. by rewrite E. Qed.

Lemma update_done {T} (f : T -> T) t : update f (mkConn t []) = (mkConn (f t) [], Ok tt).
Proof. reflexivity. Qed.
Lemma query_done {T A} (f : T -> A) t : query f (mkConn t []) = (mkConn t [], Ok (f t)).
Proof. reflexivity. Qed.

Lemma statement_ok {T A} (f : T -> result (T * A) str) c a :
  (statement f c).2 = Ok a -> f (tables c) = Ok (tables (statement f c).1, a).
Proof.
  unfold statement. destruct (next_outcome (script c)) as [[|m|m] s]; cbn; [| |].
  all: destruct (f (tables c)) as [[t a']|m']; cbn; by intros [= ->].
Qed.

Lemma query_ok {T A} (f : T -> A) (c : Conn T) a :
  (query f c).2 = Ok a -> a = f (tables c) /\ tables (query f c).1 = tables c.
Proof. intros H%statement_ok. injection H as Ht Ha. by split. Qed.

Lemma mbind_ok {S E A B} (m : M S E A) (k : A -> M S E B) s b :
  (mbind m k s).2 = Ok b ->
  exists a, (m s).2 = Ok a /\ (k a (m s).1).2 = Ok b /\ (mbind m k s).1 = (k a (m s).1).1.
Proof. unfold mbind. destruct (m s) as [s' [a|e]]; cbn; [eauto|done]. Qed.

(** Columns decode to the event its key names. *)
Lemma event_from_row_id `{!UuidLaws} i topic p h ca a le e :
  event_from_row (event_id_to_string i) topic p h ca a le = Ok e -> ev_id e = i.
Proof.
  unfold event_from_row. rewrite parse_to_string. cbn [map_err rbind].
  by intros (h' & _ & [= <-])%rbind_ok_inv.
Qed.

(** A stored event decodes to itself. *)
Lemma event_from_row_event `{!UuidLaws} e h :
  wf_event e -> ev_created_at e < i64_max -> encode_headers (ev_headers e) = Ok h ->
  forall a, u32_try_from_or_max a = ev_attempts e ->
  event_from_row (event_id_to_string (ev_id e)) (ev_topic e) (ev_payload e) h
    (clamp_i64 (ev_created_at e)) a (ev_last_error e) = Ok e.
Proof.
  intros Hwf Hc He a Ha. unfold event_from_row. rewrite parse_to_string. cbn [map_err rbind].
  rewrite <- (app_nil_r h).
  rewrite (roundtrip (ev_headers e)) by (try done; apply Hwf).
  cbn [rbind]. rewrite Ha. f_equal.
  assert (unclamp_u64 (clamp_i64 (ev_created_at e)) = ev_created_at e) as ->; [|by destruct e].
  pose proof (wf_created_at _ Hwf). unfold unclamp_u64, clamp_i64. int_lia.
Qed.

(** ** What a computation keeps

    [keeps P m]: whatever the script, the tables [m] leaves are [P]-related to
    those it found. *)
Definition keeps {T E A} (P : relation T) (m : M (Conn T) E A) : Prop :=
  forall c, P (tables c) (tables (m c).1).

Section keeps.
Context {T : Type} (P : relation T) `{!PreOrder P}.

Lemma keeps_lift {E A} (r : result A E) : keeps P (mlift r).
Proof. intros c. cbn. reflexivity. Qed.

Lemma keeps_ret {E A} (a : A) : keeps P (mret (E := E) a).
Proof. intros c. cbn. reflexivity. Qed.

Lemma keeps_bind {E A B} (m : M (Conn T) E A) (k : A -> M (Conn T) E B) :
  keeps P m -> (forall a, keeps P (k a)) -> keeps P (mbind m k).
Proof.
  intros Hm Hk c. specialize (Hm c). unfold mbind. destruct (m c) as [c' [a|e]]; cbn in *; [|done].
  etransitivity; [exact Hm|apply Hk].
Qed.

(** What is lifted first has succeeded. *)
Lemma keeps_bind_lift {E A B} (r : result A E) (k : A -> M (Conn T) E B) :
  (forall a, r = Ok a -> keeps P (k a)) -> keeps P (mbind (mlift r) k).
Proof. intros Hk c. destruct r as [a|e]; [by apply (Hk a)|cbn; reflexivity]. Qed.

Lemma keeps_statement {A} (f : T -> result (T * A) str) :
  (forall t t' a, f t = Ok (t', a) -> P t t') -> keeps P (statement f).
Proof.
  intros Hf c. unfold statement. destruct (next_outcome (script c)) as [[|m|m] s]; cbn.
  all: destruct (f (tables c)) as [[t a]|m'] eqn:E; cbn; try reflexivity; eauto.
Qed.

Lemma keeps_update (f : T -> T) : (forall t, P t (f t)) -> keeps P (update f).
Proof. intros Hf. apply keeps_statement. intros t t' a [= <- _]. apply Hf. Qed.

Lemma keeps_query {A} (f : T -> A) : keeps P (query f).
Proof. apply keeps_statement. intros t t' a [= <- _]. reflexivity. Qed.

Lemma keeps_transaction {A} (m : M (Conn T) StoreError A) :
  keeps P m -> keeps P (transaction m).
Proof.
  intros Hm c. unfold transaction. pose proof (keeps_query (fun _ : T => tt) c) as Hq.
  pose proof (Hm (query (fun _ : T => tt) c).1) as Hb.
  destruct (query (fun _ : T => tt) c) as [c1 [[]|e]]; cbn in *; [|done].
  destruct (m c1) as [c2 [a|e]]; cbn in *; [|done].
  destruct (next_outcome (script c2)) as [[|m'|m'] s]; cbn; [|done|]; by etransitivity.
Qed.
End keeps.

(** ** A computation under faults, against its run on a healthy engine

    [steady m]: the faults either do not show, or make [m] err.  [atomic m]: in
    the second case the tables are as they were found, or as the healthy run
    leaves them. *)
Section faults.
Context {T : Type}.

Definition healthy {A} (m : M (Conn T) StoreError A) (t : T) : Conn T * result A StoreError :=
  m (mkConn t []).

Definition unaffected {A} (m : M (Conn T) StoreError A) (c : Conn T) : Prop :=
  tables (m c).1 = tables (healthy m (tables c)).1 /\ (m c).2 = (healthy m (tables c)).2.

Definition steady {A} (m : M (Conn T) StoreError A) : Prop := forall c,
  script (healthy m (tables c)).1 = [] /\
  (unaffected m c \/ exists msg, (m c).2 = Err (Backend msg)).

Definition atomic {A} (m : M (Conn T) StoreError A) : Prop := forall c,
  script (healthy m (tables c)).1 = [] /\
  (unaffected m c \/ exists msg, (m c).2 = Err (Backend msg) /\
     (tables (m c).1 = tables c \/ tables (m c).1 = tables (healthy m (tables c)).1)).

Lemma atomic_steady {A} (m : M (Conn T) StoreError A) : atomic m -> steady m.
Proof. intros Hm c. destruct (Hm c) as [Hs [?|(msg & ? & _)]]; eauto. Qed.

Lemma reading_atomic {A} (m : M (Conn T) StoreError A) : steady m -> keeps eq m -> atomic m.
Proof.
  intros Hm Hk c. destruct (Hm c) as [Hs [?|[msg ?]]]; split; try done; [by left|].
  right. exists msg. split; [done|]. left. symmetry. apply Hk.
Qed.

Lemma atomic_lift {A} (r : result A StoreError) : atomic (mlift r).
Proof. intros c. split; [done|by left]. Qed.

Lemma atomic_ret {A} (a : A) : atomic (mret a).
Proof. intros c. split; [done|by left]. Qed.

Lemma atomic_statement {A} (f : T -> result (T * A) str) : atomic (statement f).
Proof.
  intros [t s]. unfold unaffected, healthy, statement. cbn.
  destruct (f t) as [[t' a]|m] eqn:E; cbn; (split; [done|]);
    destruct (next_outcome s) as [[|m'|m'] s']; cbn; eauto 7.
Qed.

Lemma atomic_update (f : T -> T) : atomic (update f).
Proof. apply atomic_statement. Qed.
Lemma atomic_query {A} (f : T -> A) : atomic (query f).
Proof. apply atomic_statement. Qed.

Lemma healthy_bind {A B} (m : M (Conn T) StoreError A) (k : A -> M (Conn T) StoreError B) t :
  script (healthy m t).1 = [] ->
  healthy (mbind m k) t = match (healthy m t).2 with
                          | Ok a => healthy (k a) (tables (healthy m t).1)
                          | Err e => (mkConn (tables (healthy m t).1) [], Err e)
                          end.
Proof.
  unfold healthy, mbind. destruct (m (mkConn t [])) as [[t1 s1] [a|e]]; cbn; by intros ->.
Qed.

Lemma steady_bind {A B} (m : M (Conn T) StoreError A) (k : A -> M (Conn T) StoreError B) :
  steady m -> (forall a, steady (k a)) -> steady (mbind m k).
Proof.
  intros Hm Hk c. destruct (Hm c) as [Hs Hc]. unfold unaffected. rewrite healthy_bind by done.
  unfold mbind. destruct Hc as [[Ht Hr]|[msg Hr]].
  - destruct (m c) as [c1 [a|e]]; cbn in Ht, Hr; rewrite <- Hr, <- Ht; cbn; [|by split; [|left]].
    destruct (Hk a c1) as [Hs1 Hc1]. split; [done|]. exact Hc1.
  - split.
    + destruct (healthy m (tables c)).2 as [a|e]; [|done].
      apply (Hk a (mkConn (tables (healthy m (tables c)).1) [])).
    + right. exists msg. destruct (m c) as [c1 r]. cbn in Hr. by subst r.
Qed.

(** After the one statement that writes, only reads may follow. *)
Lemma atomic_bind {A B} (m : M (Conn T) StoreError A) (k : A -> M (Conn T) StoreError B) :
  atomic m -> (forall a, steady (k a)) -> (forall a, keeps eq (k a)) -> atomic (mbind m k).
Proof.
  intros Hm Hk Hkeep c. destruct (Hm c) as [Hs Hc].
  destruct (steady_bind m k (atomic_steady _ Hm) Hk c) as [Hs' _]. split; [done|].
  unfold unaffected. rewrite healthy_bind by done. unfold mbind.
  assert (forall r : result A StoreError, tables (match r with
      | Ok a => healthy (k a) (tables (healthy m (tables c)).1)
      | Err e => (mkConn (tables (healthy m (tables c)).1) [], Err e) end).1
    = tables (healthy m (tables c)).1) as Htab.
  { intros [a|e]; [|done]. symmetry. apply (Hkeep a (mkConn _ [])). }
  rewrite Htab. destruct Hc as [[Ht Hr]|(msg & Hr & Ht)].
  - destruct (m c) as [c1 [a|e]]; cbn in Ht, Hr; rewrite <- Hr; cbn; [|by left].
    rewrite <- Ht, <- (Hkeep a c1).
    destruct (Hk a c1) as [_ [[_ Hr1]|[msg Hr1]]]; [by left|right; eauto].
  - right. exists msg. destruct (m c) as [c1 r]. cbn in Hr, Ht. subst r. by split.
Qed.

(** What comes before the write only lifts results. *)
Lemma atomic_bind_lift {A B} (r : result A StoreError) (k : A -> M (Conn T) StoreError B) :
  (forall a, atomic (k a)) -> atomic (mbind (mlift r) k).
Proof. intros Hk c. destruct r as [a|e]; [apply (Hk a)|by split; [|left]]. Qed.

Lemma atomic_transaction {A} (m : M (Conn T) StoreError A) : steady m -> atomic (transaction m).
Proof.
  intros Hm [t s]. destruct (Hm (mkConn t [])) as [Hs _]. cbn in Hs.
  assert (healthy (transaction m) t = match healthy m t with
    | (c1, Ok a) => (mkConn (tables c1) [], Ok a) | (c1, Err e) => (mkConn t [], Err e) end) as Hh.
  { unfold healthy, transaction in *. rewrite query_done. destruct (m (mkConn t [])) as [[t1 s1] [a|e]];
      cbn in Hs; subst s1; done. }
  unfold unaffected. cbn [tables]. rewrite Hh. split; [by destruct (healthy m t) as [c1 [|]]|].
  unfold transaction. destruct (query (fun _ => tt) (mkConn t s)) as [c1 [[]|e]] eqn:Hq.
  2:{ right. unfold query, statement in Hq. cbn in Hq.
      destruct (next_outcome s) as [[|msg|msg] s1]; [discriminate| |];
        injection Hq as <- <-; exists msg; (split; [done|by left]). }
  pose proof (query_ok (fun _ : T => tt) (mkConn t s) tt) as Hok. rewrite Hq in Hok.
  destruct (Hok eq_refl) as [_ Ht1]. cbn in Ht1. destruct (Hm c1) as [_ [[Ht Hr]|[msg Hr]]].
  - rewrite Ht1 in Ht, Hr. destruct (m c1) as [c2 [a|e]], (healthy m t) as [c3 r]; cbn in Ht, Hr; subst r.
    + destruct (next_outcome (script c2)) as [[|msg|msg] s']; cbn; [left|right..]; eauto.
    + cbn. left. done.
  - right. exists msg. destruct (m c1) as [c2 r]. cbn in Hr. subst r. cbn. by split; [|left].
Qed.
End faults.

End Sql.

#[export] Hint Resolve keeps_lift keeps_ret keeps_query : outbox.
#[export] Hint Resolve atomic_lift atomic_ret atomic_statement atomic_update atomic_query atomic_steady
  steady_bind : outbox.

(** Walk through the calls of a method, leaving the statements that write. *)
Ltac keeps_steps :=
  repeat (match goal with |- keeps _ (mbind _ _) => apply keeps_bind end; [apply _| |intros ?]); auto with outbox typeclass_instances.
