(* ===== verification/SqlTable.v ===== *)
(** * A table of scheduled rows against the reference store

    The simulation relation of the SQL stores, once for both.  A row is [open]
    (scheduled at a time, with the event it decodes to) or [closed]
    (dispatched, kept for audit); a closed row is a delivered id of the
    reference store. *)

From S2P Require Import Prelude BTree Utf8 Event Truncate Codec Backoff Store Ledger Sql.

(** The key of an entry as a table stores it: the id as text. *)
Definition key_text `{UuidOps} (k : Z * EventId) : Z * str := (k.1, event_id_to_string k.2).

Lemma key_text_sorted `{UuidLaws} (l : list (Z * EventId)) :
  StronglySorted lt_rel l -> StronglySorted lt_rel (key_text <$> l).
Proof.
  induction 1 as [|k l _ IH Hk]; [constructor|].
  cbn. constructor; [done|]. apply Forall_fmap. eapply Forall_impl; [exact Hk|].
  intros k'. unfold lt_rel, ltb, pair_ltb; cbn. by rewrite to_string_order.
Qed.

(** Two lists with the same keys, matched key by key. *)
Lemma collect_keys {R V K B E} (kr : R -> K) (kv : V -> K) (f : R -> result B E) (g : V -> B) limit rs vs :
  kr <$> rs = kv <$> vs ->
  (forall r v, r ∈ rs -> v ∈ vs -> kr r = kv v -> f r = Ok (g v)) ->
  collect f (take_usize limit rs) = Ok (g <$> take_usize limit vs).
Proof.
  intros Hk Hf. apply collect_ok. unfold take_usize, len.
  assert (length rs = length vs) as ->.
  { apply (f_equal length) in Hk. by rewrite !length_fmap in Hk. }
  rewrite fmap_take. apply Forall2_take, Forall2_fmap_r.
  revert vs Hk Hf. induction rs as [|r rs IH]; intros [|v vs] Hk Hf; try done.
  injection Hk as Hk1 Hk2. constructor; [apply Hf; [left|left|done]|].
  apply IH; [done|]. intros r' v' Hr Hv. apply Hf; by right.
Qed.

Section table.
Context `{UO : UuidOps} `{UL : !UuidLaws}.
Context {R : Type} (row_id : R -> str).
Context (open : R -> Z -> OutboxEvent -> Prop) (closed : R -> Prop).

Abbreviation text := event_id_to_string.

Inductive slot (i : EventId) : option R -> option (Z * OutboxEvent) -> Prop -> Prop :=
| slot_absent d : ~ d -> slot i None None d
| slot_open r t e d : open r t e -> ev_id e = i -> ~ d -> slot i (Some r) (Some (t, e)) d
| slot_closed r (d : Prop) : closed r -> d -> slot i (Some r) None d.

Definition keyed (rows : gmap str R) : Prop :=
  forall k r, rows !! k = Some r -> row_id r = k /\ exists i, k = text i.

Record table_rel (rows : gmap str R) (o : Outbox) : Prop := {
  tr_slot : forall i, slot i (rows !! text i) (scheduled o !! i) (i ∈ delivered_ids o);
  tr_keyed : keyed rows
}.

Definition known (o : Outbox) (i : EventId) : Prop :=
  is_Some (scheduled o !! i) \/ i ∈ delivered_ids o.

Lemma slot_ext i r p (d d' : Prop) : (d <-> d') -> slot i r p d -> slot i r p d'.
Proof.
  intros Hd H. destruct H; [apply slot_absent|apply slot_open|apply slot_closed]; tauto.
Qed.

Lemma keyed_insert rows i r : keyed rows -> row_id r = text i -> keyed (<[text i := r]> rows).
Proof.
  intros Hk Hr k r' Hl. apply lookup_insert_Some in Hl as [[<- <-]|[_ Hl]]; [by split; [|exists i]|].
  by apply Hk.
Qed.

Lemma keyed_alter rows k (f : R -> R) :
  (forall r, row_id (f r) = row_id r) -> keyed rows -> keyed (alter f k rows).
Proof.
  intros Hf Hk k' r' Hl. rewrite lookup_alter in Hl. case_decide as Hkk; [|by apply Hk].
  subst k'. apply fmap_Some in Hl as (r & Hl & ->). rewrite Hf. by apply Hk.
Qed.

Lemma keyed_delete rows k : keyed rows -> keyed (delete k rows).
Proof. intros Hk k' r' Hl. apply lookup_delete_Some in Hl as [_ Hl]. by apply Hk. Qed.

Lemma table_rel_empty : table_rel ∅ ref_empty.
Proof.
  split; [|intros k r Hl; by rewrite lookup_empty in Hl]. intros i. cbn.
  rewrite !lookup_empty. constructor. set_solver.
Qed.

Lemma table_rel_known rows o i : table_rel rows o -> known o i <-> is_Some (rows !! text i).
Proof.
  intros [Hs _]. specialize (Hs i). unfold known.
  destruct Hs as [d Hd|r t e d|r d Hc Hd]; split; eauto.
  - intros [[? ?]|?]; done.
  - intros [? ?]; done.
Qed.

Lemma table_rel_insert rows o i r t e :
  table_rel rows o -> rows !! text i = None -> row_id r = text i -> open r t e -> ev_id e = i ->
  table_rel (<[text i := r]> rows) (mkOutbox (<[i := (t, e)]> (scheduled o)) (delivered_ids o)).
Proof.
  intros [Hs Hk] Hn Hr Hl He. split; [|by apply keyed_insert]. intros j. cbn.
  destruct (decide (i = j)) as [<-|Hne].
  - rewrite !lookup_insert_eq. constructor; [done..|].
    specialize (Hs i). rewrite Hn in Hs. by inversion Hs.
  - rewrite !lookup_insert_ne; [done..|]. by intros ?%(inj event_id_to_string).
Qed.

Lemma table_rel_fail rows o i f t m :
  table_rel rows o -> (forall r, row_id (f r) = row_id r) ->
  (forall r t0 e, rows !! text i = Some r -> open r t0 e -> open (f r) t (record_failure m e)) ->
  (forall r, rows !! text i = Some r -> closed r -> closed (f r)) ->
  table_rel (alter f (text i) rows) (ref_mark_failed i m t o).
Proof.
  intros [Hs Hk] Hf Ho Hc. split; [|by apply keyed_alter]. intros j. cbn.
  destruct (decide (i = j)) as [<-|Hne].
  - rewrite !lookup_alter_eq. specialize (Hs i).
    destruct (rows !! text i) as [r|]; inversion Hs; subst; cbn; constructor; eauto.
  - rewrite !lookup_alter_ne; [done..|]. by intros ?%(inj event_id_to_string).
Qed.

Lemma table_rel_dispatch rows o i f :
  table_rel rows o -> (forall r, row_id (f r) = row_id r) ->
  (forall r t e, rows !! text i = Some r -> open r t e -> closed (f r)) ->
  (forall r, rows !! text i = Some r -> closed r -> closed (f r)) ->
  table_rel (alter f (text i) rows) (deliver i o).
Proof.
  intros [Hs Hk] Hf Ho Hc. split; [|by apply keyed_alter]. intros j.
  destruct (decide (i = j)) as [<-|Hne].
  - rewrite lookup_alter_eq. specialize (Hs i). unfold deliver.
    destruct (scheduled o !! i) as [p|] eqn:Es.
    + cbn. rewrite lookup_delete_eq. inversion Hs; subst; cbn. constructor; [eauto|set_solver].
    + rewrite Es. inversion Hs as [d Hd Hr| |r d Hr Hd Hrow]; cbn; constructor; eauto.
  - rewrite lookup_alter_ne by (by intros ?%(inj event_id_to_string)). specialize (Hs j).
    unfold deliver. destruct (scheduled o !! i); [|done]. cbn. rewrite lookup_delete_ne by done.
    eapply slot_ext; [|done]. set_solver.
Qed.

(** A closed row made open again is a scheduled event, and no longer delivered. *)
Lemma table_rel_reopen rows o i f r t e :
  table_rel rows o -> (forall r, row_id (f r) = row_id r) ->
  rows !! text i = Some r -> open (f r) t e -> ev_id e = i ->
  table_rel (alter f (text i) rows)
    (mkOutbox (<[i := (t, e)]> (scheduled o)) (delivered_ids o ∖ {[i]})).
Proof.
  intros [Hs Hk] Hf Hr Ho He. split; [|by apply keyed_alter]. intros j. cbn.
  destruct (decide (i = j)) as [<-|Hne].
  - rewrite lookup_alter_eq, lookup_insert_eq, Hr. constructor; [done..|set_solver].
  - rewrite lookup_alter_ne by (by intros ?%(inj event_id_to_string)).
    rewrite lookup_insert_ne by done. eapply slot_ext; [|apply Hs]. set_solver.
Qed.

Lemma table_rel_close rows o i :
  table_rel rows o -> table_rel (delete (text i) rows) (close_case i o).
Proof.
  intros [Hs Hk]. split; [|by apply keyed_delete]. intros j. cbn.
  destruct (decide (i = j)) as [<-|Hne].
  - rewrite !lookup_delete_eq. constructor. set_solver.
  - rewrite !lookup_delete_ne; [|done|by intros ?%(inj event_id_to_string)].
    eapply slot_ext; [|apply Hs]. set_solver.
Qed.

(** ** Selection *)

Lemma rows_NoDup (P : R -> Prop) `{forall r, Decision (P r)} rows :
  keyed rows -> NoDup (row_id <$> filter P (map_to_list rows).*2).
Proof using.
  intros Hk. apply NoDup_fmap_filter. rewrite <- list_fmap_compose.
  assert (row_id ∘ snd <$> map_to_list rows = fst <$> map_to_list rows) as ->.
  { apply Forall_fmap_ext_1, Forall_forall. intros [k r] Hp%elem_of_map_to_list. by apply Hk. }
  apply NoDup_fst_map_to_list.
Qed.

Lemma select_NoDup {K} `{Ltb K} (P : R -> Prop) `{forall r, Decision (P r)} (key : R -> K) limit rows :
  keyed rows -> NoDup (row_id <$> select P key limit rows).
Proof using.
  intros Hk. unfold select, take_usize. rewrite fmap_take.
  eapply sublist_NoDup; [|apply sublist_take]. unfold sort_by. rewrite merge_sort_Permutation.
  by apply rows_NoDup.
Qed.

(** Events decoded from distinct rows are distinct. *)
Lemma collect_NoDup (decode : R -> result OutboxEvent StoreError) l es :
  (forall r e i, decode r = Ok e -> row_id r = text i -> ev_id e = i) ->
  (forall r, r ∈ l -> exists i, row_id r = text i) ->
  NoDup (row_id <$> l) -> collect decode l = Ok es -> NoDup (ev_id <$> es).
Proof using.
  intros Hd Hid Hnd Hc. apply (NoDup_fmap_1 text).
  assert (text <$> (ev_id <$> es) = row_id <$> l) as ->; [|done].
  apply collect_ok in Hc. clear Hnd. induction Hc as [|r e l es Hr _ IH]; [done|]. cbn.
  destruct (Hid r) as [i Hi]; [left|]. rewrite (Hd _ _ _ Hr Hi), Hi. f_equal.
  apply IH. intros r' Hr'. apply Hid. by right.
Qed.

Context (row_at : R -> Z).

Definition row_key (r : R) : Z * str := (row_at r, row_id r).

Section selection.
Context (P : R -> Prop) `{forall r, Decision (P r)}.
Context (Q : EventId * (Z * OutboxEvent) -> Prop) `{forall p, Decision (Q p)}.
Context (rows : gmap str R) (o : Outbox) (Hrel : table_rel rows o).
Context (Hopen : forall r t e, open r t e -> P r <-> Q (ev_id e, (t, e))).
Context (Hclosed : forall r, closed r -> ~ P r).

Lemma row_selected r :
  (P r /\ exists k, rows !! k = Some r) <->
  exists i t e, rows !! text i = Some r /\ scheduled o !! i = Some (t, e) /\
    open r t e /\ ev_id e = i /\ row_id r = text i /\ Q (i, (t, e)).
Proof using Hrel Hopen Hclosed.
  split.
  - intros [Hp [k Hk]]. destruct (tr_keyed _ _ Hrel _ _ Hk) as [Hid [i ->]].
    pose proof (tr_slot _ _ Hrel i) as Hs. rewrite Hk in Hs. inversion Hs; subst.
    + exists (ev_id e), t, e. rewrite <- (Hopen r t e) by done. done.
    + by destruct (Hclosed r).
  - intros (i & t & e & Hr & _ & Ho & He & _ & Hq). split; [|by exists (text i)].
    apply (Hopen r t e Ho). by rewrite He.
Qed.

Lemma count_where_rel :
  count_where P rows = Z.of_nat (size (filter Q (scheduled o))).
Proof using UL Hrel Hopen Hclosed.
  unfold count_where. f_equal. rewrite <- !length_map_to_list.
  rewrite <- (length_fmap fst), <- (length_fmap (fun p => text p.1) (map_to_list (filter Q _))).
  apply Permutation_length, NoDup_Permutation.
  - apply NoDup_fst_map_to_list.
  - change (fun p : EventId * (Z * OutboxEvent) => text p.1) with (text ∘ @fst _ (Z * OutboxEvent)).
    rewrite list_fmap_compose. apply NoDup_fmap_2; [apply _|]. apply NoDup_fst_map_to_list.
  - intros k. rewrite !list_elem_of_fmap. split.
    + intros ([k' r] & -> & [Hin Hp]%elem_of_map_to_list%map_lookup_filter_Some). cbn in *.
      destruct (proj1 (row_selected r)) as (i & t & e & Hr & Hs & Ho & He & Hid & Hq).
      { split; [done|by exists k']. }
      exists (i, (t, e)). split.
      * cbn. rewrite <- Hid. symmetry. by apply (tr_keyed _ _ Hrel).
      * by apply elem_of_map_to_list, map_lookup_filter_Some.
    + intros ([i [t e]] & -> & [Hin Hq]%elem_of_map_to_list%map_lookup_filter_Some). cbn in *.
      pose proof (tr_slot _ _ Hrel i) as Hs. rewrite Hin in Hs.
      inversion Hs as [|r t' e' d Ho He Hd Hr|]; subst.
      exists (text (ev_id e), r). split; [done|].
      apply elem_of_map_to_list, map_lookup_filter_Some. split; [done|]. by apply (Hopen r t e).
Qed.
End selection.

Section fetch.
Context (P : R -> Prop) `{forall r, Decision (P r)} (now : Z).
Context (decode : R -> result OutboxEvent StoreError).
Context (rows : gmap str R) (o : Outbox) (Hrel : table_rel rows o).
Context (Hopen : forall r t e, open r t e -> P r <-> t <= now /\ t <> NEVER).
Context (Hclosed : forall r, closed r -> ~ P r).
Context (Hat : forall r t e, open r t e -> P r -> row_at r = t).
Context (Hdecode : forall r t e, open r t e -> decode r = Ok e).

Lemma selected_keys :
  row_key <$> sort_by row_key (filter P (map_to_list rows).*2)
  = key_text <$> (sched_key <$> ref_due now o).
Proof using UL Hrel Hopen Hclosed Hat.
  apply sorted_ext.
  - apply sort_by_strict. apply (NoDup_fmap_1 snd). rewrite <- list_fmap_compose.
    apply rows_NoDup, (tr_keyed _ _ Hrel).
  - apply key_text_sorted, ref_due_sorted.
  - intros [t k]. rewrite !list_elem_of_fmap. split.
    + intros (r & Hkey & Hr). rewrite elem_of_sort_by, list_elem_of_filter, elem_of_rows in Hr.
      pose proof (proj1 (row_selected P (due now) rows o Hrel Hopen Hclosed r) Hr)
        as (i & t' & e & Hrow & Hs & Ho & He & Hid & Hq).
      exists (t', i). split.
      * unfold row_key in Hkey. rewrite (Hat _ _ _ Ho), Hid in Hkey by apply Hr. done.
      * apply list_elem_of_fmap. exists (i, (t', e)). split; [done|]. by apply elem_of_ref_due.
    + intros ([t' i] & Hkey & Hin). apply list_elem_of_fmap in Hin as ([j [t2 e]] & [= -> ->] & Hp).
      apply elem_of_ref_due in Hp as [Hs Hd]. cbn in Hs.
      pose proof (tr_slot _ _ Hrel j) as Hsl. rewrite Hs in Hsl. inversion Hsl; subst.
      assert (P r) as Hpr by (by apply (Hopen r t2 e)).
      exists r. split.
      * unfold row_key. rewrite (Hat r t2 e) by done.
        rewrite (proj1 (tr_keyed _ _ Hrel (text (ev_id e)) r ltac:(done))). done.
      * rewrite elem_of_sort_by, list_elem_of_filter, elem_of_rows. eauto.
Qed.

Lemma select_fetch limit :
  collect decode (select P row_key limit rows) = Ok (ref_fetch_due limit now o).
Proof using UL Hrel Hopen Hclosed Hat Hdecode.
  apply (collect_keys row_key (key_text ∘ sched_key) decode (fun p => p.2.2)).
  { rewrite list_fmap_compose. apply selected_keys. }
  intros r [i [t e]] Hr [Hs _]%elem_of_ref_due [= _ Hk].
  rewrite elem_of_sort_by, list_elem_of_filter, elem_of_rows in Hr.
  pose proof (proj1 (row_selected P (due now) rows o Hrel Hopen Hclosed r) Hr)
    as (j & t' & e' & Hrow & Hs' & Ho & He & Hid & Hq).
  rewrite Hid in Hk. apply (inj event_id_to_string) in Hk as ->. cbn in Hs.
  rewrite Hs in Hs'. injection Hs' as <- <-. by apply (Hdecode r t e).
Qed.
End fetch.
End table.

(** ** Sessions both SQL stores answer like the ledger

    Stamps a 64-bit signed column represents, text in UTF-8, headers the codec
    accepts, a clock before the year 292 million. *)

Definition stamp (t : Z) : Prop := 0 <= t < i64_max \/ t = NEVER.

Section sessions.
Context `{UO : UuidOps}.

Definition storable (e : OutboxEvent) : Prop :=
  wf_event e /\ ev_created_at e < i64_max /\ exists h, encode_headers (ev_headers e) = Ok h.

Definition sql_call_ok (c : call) : Prop :=
  match c with
  | CAppend e => storable e
  | CFetchDue n now => in_u64 n /\ in_u64 now
  | CMarkFailed _ m t => stamp t /\ valid_utf8 m = true
  | CDeadLetter clk e r => storable e /\ now_millis clk < i64_max /\ valid_utf8 r = true
  | CDeadLetters n => in_u64 n
  | _ => True
  end.

Lemma count_fits (Q : EventId * (Z * OutboxEvent) -> Prop) `{forall p, Decision (Q p)} o :
  Z.of_nat (size (scheduled o)) <= i64_max ->
  Z.of_nat (size (filter Q (scheduled o))) <= i64_max.
Proof.
  intros Hs. etransitivity; [|exact Hs]. apply inj_le.
  apply map_subseteq_size, map_filter_subseteq.
Qed.

(** The bound clamped to [i64] takes the same rows while there are no more. *)
Lemma take_clamped {A} n (l : list A) :
  len l <= i64_max -> take_usize (i64_try_from_or_max n) l = take_usize n l.
Proof. intros Hl. unfold take_usize. do 2 f_equal. int_lia. Qed.

Lemma fetch_clamped n now o :
  Z.of_nat (size (scheduled o)) <= i64_max ->
  ref_fetch_due (i64_try_from_or_max n) now o = ref_fetch_due n now o.
Proof.
  intros Hs. unfold ref_fetch_due. rewrite take_clamped; [done|].
  unfold len. etransitivity; [|exact Hs]. apply inj_le, ref_due_length.
Qed.
End sessions.

Lemma clamp_i64_min v : clamp_i64 v = Z.min v i64_max.
Proof. unfold clamp_i64. int_lia. Qed.

Lemma clamp_stamp t : stamp t -> clamp_i64 t <= i64_max /\ (t <> NEVER -> clamp_i64 t = t /\ t < i64_max)
  /\ (t = NEVER -> clamp_i64 t = i64_max).
Proof. rewrite clamp_i64_min. unfold stamp, NEVER. unfold_int. lia. Qed.

Lemma clamp_due t now :
  stamp t -> in_u64 now ->
  (clamp_i64 t <= clamp_i64 now /\ clamp_i64 t < PARKED_AS_I64) <-> t <= now /\ t <> NEVER.
Proof.
  rewrite !clamp_i64_min. unfold stamp, NEVER, PARKED_AS_I64. unfold_int. lia.
Qed.

(** The stored form of [NEVER] does not read back as [NEVER]. *)
Lemma parked_stamp_not_restored :
  clamp_i64 NEVER = PARKED_AS_I64 /\ unclamp_u64 PARKED_AS_I64 = i64_max /\ i64_max <> NEVER.
Proof. by vm_compute. Qed.
