(* ===== verification/SqlLedger.v ===== *)
(** * The SQL stores against the ledger

    The table of dead letters, once for both stores: a row holds the letter its
    columns decode to, under the id as text, and [dead_letters] of the ledger is
    the ordered selection.  Then what an [atomic] method answers under faults. *)

From S2P Require Import Prelude BTree Event Truncate Codec Backoff Store Ledger Sql SqlTable.

Section letters.
Context `{UO : UuidOps} `{UL : !UuidLaws}.
Context (decode : Letter -> result (OutboxEvent * str) StoreError).

Abbreviation text := event_id_to_string.

Definition letter_row (i : EventId) (r : Letter) (p : Z * (OutboxEvent * str)) : Prop :=
  l_id r = text i /\ l_dead_lettered_at r = p.1 /\ decode r = Ok p.2.

Record letters_rel (rows : gmap str Letter) (m : gmap EventId (Z * (OutboxEvent * str))) : Prop := {
  lr_row : forall i, option_Forall2 (letter_row i) (rows !! text i) (m !! i);
  lr_keyed : forall k r, rows !! k = Some r -> exists i, k = text i
}.

Lemma letters_rel_empty : letters_rel ∅ ∅.
Proof.
  split; [|by intros k r ?%lookup_empty_Some]. intros i. rewrite !lookup_empty. constructor.
Qed.

Lemma letters_rel_insert rows m i r p :
  letters_rel rows m -> letter_row i r p -> letters_rel (<[text i := r]> rows) (<[i := p]> m).
Proof.
  intros [Hr Hk] Hl. split.
  - intros j. destruct (decide (i = j)) as [<-|Hne].
    + rewrite !lookup_insert_eq. by constructor.
    + rewrite !lookup_insert_ne; [done..|by intros ?%(inj event_id_to_string)].
  - intros k r' Hl'. apply lookup_insert_Some in Hl' as [[<- _]|[_ Hl']]; [by exists i|by eapply Hk].
Qed.

(** The rows of the table are the letters, one for one. *)
Lemma letters_rel_row rows m r :
  letters_rel rows m -> (exists k, rows !! k = Some r) <->
  exists i p, rows !! text i = Some r /\ m !! i = Some p /\ letter_row i r p.
Proof.
  intros [Hr Hk]. split; [|intros (i & p & Hi & _); by exists (text i)].
  intros [k Hl]. destruct (Hk _ _ Hl) as [i ->]. specialize (Hr i). rewrite Hl in Hr.
  inversion Hr; subst. by exists i, y.
Qed.

Lemma letters_rel_entry rows m i p :
  letters_rel rows m -> m !! i = Some p -> exists r, rows !! text i = Some r /\ letter_row i r p.
Proof. intros [Hr _] Hi. specialize (Hr i). rewrite Hi in Hr. inversion Hr; subst. eauto. Qed.

Lemma filed_keys_sorted (l : Ledger) : StronglySorted lt_rel (letter_order <$> filed l).
Proof.
  apply sort_by_strict. apply (NoDup_fmap_1 snd). rewrite <- list_fmap_compose.
  erewrite list_fmap_ext; [apply NoDup_fst_map_to_list|done].
Qed.

Lemma letter_keys_sorted rows m :
  letters_rel rows m ->
  StronglySorted lt_rel (letter_key <$> sort_by letter_key (filter (fun _ => True) (map_to_list rows).*2)).
Proof.
  intros Hrel. apply sort_by_strict. apply (NoDup_fmap_1 snd). rewrite <- list_fmap_compose.
  apply NoDup_fmap_filter. rewrite <- list_fmap_compose.
  assert (snd ∘ letter_key ∘ snd <$> map_to_list rows = fst <$> map_to_list rows) as ->.
  { apply Forall_fmap_ext_1, Forall_forall. intros [k r] Hp%elem_of_map_to_list. cbn in *.
    destruct (lr_keyed _ _ Hrel _ _ Hp) as [i ->].
    pose proof (lr_row _ _ Hrel i) as Hi. rewrite Hp in Hi. inversion Hi as [? ? (? & _)|]; subst. done. }
  apply NoDup_fst_map_to_list.
Qed.

Lemma letter_keys rows l :
  letters_rel rows (letters l) ->
  letter_key <$> sort_by letter_key (filter (fun _ => True) (map_to_list rows).*2)
  = (key_text ∘ letter_order) <$> filed l.
Proof.
  intros Hrel. rewrite list_fmap_compose. apply sorted_ext.
  - by eapply letter_keys_sorted.
  - apply key_text_sorted, filed_keys_sorted.
  - intros [t k]. rewrite !list_elem_of_fmap. split.
    + intros (r & Hkey & Hr). rewrite elem_of_sort_by, list_elem_of_filter, elem_of_rows in Hr.
      destruct Hr as [_ (i & p & _ & Hi & Hid & Ht & _)%(letters_rel_row _ _ r Hrel)].
      exists (p.1, i). split; [unfold letter_key in Hkey; rewrite Ht, Hid in Hkey; done|].
      apply list_elem_of_fmap. exists (i, p). split; [done|].
      unfold filed. by rewrite elem_of_sort_by, elem_of_map_to_list.
    + intros ([t' i] & -> & ([j p] & [= -> ->] & Hp)%list_elem_of_fmap).
      unfold filed in Hp. rewrite elem_of_sort_by, elem_of_map_to_list in Hp.
      destruct (letters_rel_entry _ _ _ _ Hrel Hp) as (r & Hr & Hid & Ht & _).
      exists r. split; [unfold letter_key; by rewrite Ht, Hid|].
      rewrite elem_of_sort_by, list_elem_of_filter, elem_of_rows. eauto.
Qed.

(** [dead_letters]: the ordered selection decodes to the letters filed. *)
Lemma select_letters rows l limit :
  letters_rel rows (letters l) ->
  collect decode (select (fun _ => True) letter_key limit rows) = Ok (filed_letters limit l).
Proof.
  intros Hrel. apply (collect_keys letter_key (key_text ∘ letter_order) decode (fun p => p.2.2)).
  { by apply letter_keys. }
  intros r [i p] Hr Hp [= Ht Hk].
  rewrite elem_of_sort_by, list_elem_of_filter, elem_of_rows in Hr.
  destruct Hr as [_ (j & p' & _ & Hj & Hid & _ & Hd)%(letters_rel_row _ _ r Hrel)].
  rewrite Hid in Hk. apply (inj event_id_to_string) in Hk as ->.
  unfold filed in Hp. rewrite elem_of_sort_by, elem_of_map_to_list in Hp. cbn in Hp.
  rewrite Hj in Hp. injection Hp as ->. done.
Qed.

Lemma filed_clamped n l :
  Z.of_nat (size (letters l)) <= i64_max -> filed_letters (i64_try_from_or_max n) l = filed_letters n l.
Proof.
  intros Hs. unfold filed_letters. rewrite take_clamped; [done|].
  unfold len, filed. by rewrite length_sort_by, length_map_to_list.
Qed.
End letters.

(** ** Faults *)

(** An atomic method that on a healthy engine does what a reference store does
    gives, whatever the engine does, one of the reference's answers under
    faults. *)
Lemma atomic_answers `{UO : UuidOps} {T L A} `{!OutboxStore L}
    (m : M (Conn T) StoreError A) (g : result A StoreError -> reply)
    partial (c : call) (l : L) (conn : Conn T) (R : T -> L -> Prop) :
  atomic m -> (forall msg, g (Err (Backend msg)) = failed_reply c msg) ->
  R (tables conn) l -> R (tables (healthy m (tables conn)).1) (perform c l).1 ->
  g (healthy m (tables conn)).2 = (perform c l).2 ->
  exists l', answers partial c l (g (m conn).2) l' /\ R (tables (m conn).1) l'.
Proof.
  intros Hm Hg HR HR' Hr. destruct (Hm conn) as [_ [[-> ->]|(msg & -> & Ht)]].
  - exists (perform c l).1. split; [rewrite Hr; constructor|done].
  - rewrite Hg. destruct Ht as [-> | ->]; [exists l|exists (perform c l).1]; (split; [constructor|done]).
Qed.

(** One that the healthy engine itself refuses has nothing done. *)
Lemma atomic_refused `{UO : UuidOps} {T L A} `{!OutboxStore L}
    (m : M (Conn T) StoreError A) (g : result A StoreError -> reply)
    partial (c : call) (l : L) (conn : Conn T) (R : T -> L -> Prop) err :
  atomic m -> (forall msg, g (Err (Backend msg)) = failed_reply c msg) -> R (tables conn) l ->
  tables (healthy m (tables conn)).1 = tables conn ->
  g (healthy m (tables conn)).2 = failed_reply c err ->
  exists l', answers partial c l (g (m conn).2) l' /\ R (tables (m conn).1) l'.
Proof.
  intros Hm Hg HR Ht Hr. exists l.
  destruct (Hm conn) as [_ [[-> ->]|(msg & -> & Ht')]]; rewrite ?Hr, ?Hg; (split; [constructor|]).
  - by rewrite Ht.
  - by destruct Ht' as [-> | ->]; rewrite ?Ht.
Qed.
