(* ===== verification/Samples.v ===== *)
(** * Concrete instances

    Instances of the interfaces to code outside the repository, small enough to
    compute with: they show that the laws assumed of that code can hold, and
    the examples of the other files run on them. *)

From S2P Require Import Prelude Event Codec Backoff HexUuid Store Ledger Sql SqlTable.

(** ** Jitter: the id's low word, and the seed reduced to the range *)

#[export] Instance sample_jitter : JitterOps := {|
  hash_event_id := fun i => as_u128 (as_uuid i) mod u64_modulus;
  random_range := fun seed lo hi => lo + seed mod (hi - lo + 1)
|}.

#[export] Instance sample_jitter_laws : JitterLaws.
Proof.
  split.
  - intros i. change (in_u64 (as_u128 (as_uuid i) mod u64_modulus)).
    pose proof (Z.mod_pos_bound (as_u128 (as_uuid i)) u64_modulus ltac:(done)). unfold_int. lia.
  - intros seed lo hi H. cbn. pose proof (Z.mod_pos_bound seed (hi - lo + 1) ltac:(lia)). lia.
Qed.

(** ** SQL engine texts *)

#[export] Instance sample_engine : SqlEngine := {|
  out_of_range := lit "integer out of range";
  not_utf8 := fun _ => lit "invalid utf-8 sequence";
  nul_in_text := lit "invalid byte sequence for encoding"
|}.

(** ** Witnesses of the jitter properties *)

Lemma retry_delay_within_witness :
  retry_delay default_policy 4 (eid 7) 1700000000123456789 = 3355681606 /\
  0 <= retry_delay default_policy 4 (eid 7) 1700000000123456789 <= exponential_delay default_policy 4.
Proof.
  split; [vm_compute; reflexivity|].
  apply retry_delay_within. apply default_policy_wf.
Defined.

Lemma seed_for_decorrelates_witness :
  clock_term 1700000000123456789 <> clock_term 1700000000123456790 /\
  seed_for (eid 7) 1700000000123456789 <> seed_for (eid 7) 1700000000123456790.
Proof.
  assert (clock_term 1700000000123456789 <> clock_term 1700000000123456790) as H by (vm_compute; congruence).
  split; [exact H|]. intros E. apply H.
  apply (proj2 (seed_for_decorrelates (eid 7) 1700000000123456789 1700000000123456790
    ltac:(vm_compute; congruence) ltac:(vm_compute; congruence))). exact E.
Defined.

(** ** Sample events and calls *)

Definition ev1 : OutboxEvent := sample_event 1 1000.
Definition ev2 : OutboxEvent := sample_event 2 900.

Definition headers_of (e : OutboxEvent) : bytes :=
  match encode_headers (ev_headers e) with Ok h => h | Err _ => [] end.

Lemma ev1_wf : wf_event ev1.
Proof. apply sample_event_wf. unfold_int. lia. Qed.
Lemma ev2_wf : wf_event ev2.
Proof. apply sample_event_wf. unfold_int. lia. Qed.
Lemma ev1_headers : encode_headers (ev_headers ev1) = Ok (headers_of ev1).
Proof. vm_eq. Qed.
Lemma ev1_topic : validate ev1 = Ok tt.
Proof. vm_eq. Qed.

(** Append, fail, fetch, deliver; then an event is dead-lettered. *)
Definition calls : list call :=
  [CAppend ev1; CMarkFailed (eid 1) (lit "down") 5000; CFetchDue 10 6000; CMarkDispatched 7 (eid 1);
   CAppend ev2; CDeadLetter 9000000000 ev2 (lit "poison"); CDeadLetters 5; CPendingCount].

(** What a store answers to them while nothing fails. *)
Definition replies : list reply :=
  [RUnit (Ok tt); RUnit (Ok tt); REvents (Ok [record_failure (lit "down") ev1]); RUnit (Ok tt);
   RUnit (Ok tt); RUnit (Ok tt); RLetters (Ok [(ev2, lit "poison")]); RCount (Ok 0)].

Lemma storable_ev1 : storable ev1.
Proof. split; [exact ev1_wf|split; [by vm_compute|by exists (headers_of ev1); apply ev1_headers]]. Qed.
Lemma storable_ev2 : storable ev2.
Proof. split; [exact ev2_wf|split; [by vm_compute|]]. exists (headers_of ev2). vm_eq. Qed.

Lemma calls_ok : Forall sql_call_ok calls.
Proof.
  repeat constructor; try apply storable_ev1; try apply storable_ev2; try by vm_compute.
Qed.
