(* ===== verification/Sqlite.v ===== *)
(** * The SQLite store

    [src/src/sqlite/mod.rs] with [src/src/sqlite/schema.sql].  One connection
    behind one mutex: a method is a sequence of engine calls on [Tables], each
    in autocommit mode. *)

From S2P Require Import Prelude BTree Utf8 Event Truncate Codec Backoff Store Sql SqlTable.

Module Sqlite.
Section Sqlite.
Context `{UO : UuidOps} `{SE : SqlEngine}.

(** ** Schema *)

Record Row := mkRow {
  r_id : str;
  r_topic : str;
  r_payload : bytes;
  r_headers : bytes;
  r_created_at : Z;
  r_attempts : Z;
  r_next_attempt_at : Z;
  r_last_error : option str;
  r_dispatched_at : option Z
}.

Record Tables := mkTables {
  outbox_events : gmap str Row;
  outbox_dead_letters : gmap str Letter
}.

Definition with_events (f : gmap str Row -> gmap str Row) (t : Tables) : Tables :=
  mkTables (f (outbox_events t)) (outbox_dead_letters t).
Definition with_letters (f : gmap str Letter -> gmap str Letter) (t : Tables) : Tables :=
  mkTables (outbox_events t) (f (outbox_dead_letters t)).

(** A database file before the schema runs: a table may be missing (a new
    file has none, a 0.1.x file has no dead letters). *)
Record File := mkFile {
  file_events : option (gmap str Row);
  file_letters : option (gmap str Letter)
}.

Definition create_if_missing {A} (table : option (gmap str A)) : gmap str A :=
  match table with Some t => t | None => ∅ end.

(** [schema.sql]: [CREATE TABLE IF NOT EXISTS] twice, and two indexes. *)
Definition apply_schema (f : File) : Tables :=
  mkTables (create_if_missing (file_events f)) (create_if_missing (file_letters f)).

Definition file_of (t : Tables) : File :=
  mkFile (Some (outbox_events t)) (Some (outbox_dead_letters t)).

(** [configure] after [Connection::open]: the busy timeout, the journal mode
    and the synchronous pragma, then the schema batch. *)
Definition configure (c : Conn File) : result (Conn Tables) StoreError :=
  match (_ <-- query (fun _ => tt); _ <-- query (fun _ => tt); _ <-- query (fun _ => tt);
         query apply_schema) c with
  | (c', Ok t) => Ok (mkConn t (script c'))
  | (_, Err e) => Err e
  end.

Definition open (opened : result (Conn File) str) : result (Conn Tables) StoreError :=
  conn <-? map_err Backend opened;
  configure conn.

(** [open_in_memory]: the same over a fresh database. *)
Definition open_in_memory (opened : result (list outcome) str) : result (Conn Tables) StoreError :=
  s <-? map_err Backend opened;
  configure (mkConn (mkFile None None) s).

(** ** Statements *)

Definition insert_or_ignore (row : Row) (t : Tables) : Tables * Z :=
  match outbox_events t !! r_id row with
  | Some _ => (t, 0)
  | None => (with_events (insert (r_id row) row) t, 1)
  end.

Definition due_row (now : Z) (r : Row) : Prop :=
  r_dispatched_at r = None /\ r_next_attempt_at r <= now /\ r_next_attempt_at r < PARKED_AS_I64.
#[export] Instance due_row_dec now r : Decision (due_row now r).
Proof. unfold due_row. apply _. Defined.

Definition pending_row (r : Row) : Prop :=
  r_dispatched_at r = None /\ r_next_attempt_at r < PARKED_AS_I64.
#[export] Instance pending_row_dec r : Decision (pending_row r).
Proof. unfold pending_row. apply _. Defined.

Definition parked_row (r : Row) : Prop :=
  r_dispatched_at r = None /\ PARKED_AS_I64 <= r_next_attempt_at r.
#[export] Instance parked_row_dec r : Decision (parked_row r).
Proof. unfold parked_row. apply _. Defined.

Definition row_order (r : Row) : Z * str := (r_next_attempt_at r, r_id r).

(** [SET dispatched_at = ?1 WHERE ... AND dispatched_at IS NULL] *)
Definition set_dispatched (stamp : Z) (r : Row) : Row :=
  match r_dispatched_at r with
  | Some _ => r
  | None => mkRow (r_id r) (r_topic r) (r_payload r) (r_headers r) (r_created_at r)
              (r_attempts r) (r_next_attempt_at r) (r_last_error r) (Some stamp)
  end.

(** [SET attempts = attempts + 1, last_error = ?2, next_attempt_at = ?3] *)
Definition set_failed (error : str) (retry_at : Z) (r : Row) : Row :=
  mkRow (r_id r) (r_topic r) (r_payload r) (r_headers r) (r_created_at r)
    (r_attempts r + 1) retry_at (Some error) (r_dispatched_at r).

(** The sum leaves the 64-bit [INTEGER] column only past [i64::MAX]; a
    [STRICT] table then refuses it. *)
Definition update_failed (i error : str) (retry_at : Z) (t : Tables) : result (Tables * unit) str :=
  match outbox_events t !! i with
  | Some r => if r_attempts r + 1 <=? i64_max
              then Ok (with_events (alter (set_failed error retry_at) i) t, tt)
              else Err out_of_range
  | None => Ok (t, tt)
  end.

(** ** Rows to events *)

Definition row_get_string (s : str) : result str StoreError :=
  if valid_utf8 s then Ok s else Err (Backend (not_utf8 s)).
Definition row_get_opt_string (o : option str) : result (option str) StoreError :=
  match o with
  | None => Ok None
  | Some s => s <-? row_get_string s; Ok (Some s)
  end.

Definition decode_row (r : Row) : result OutboxEvent StoreError :=
  id <-? row_get_string (r_id r);
  topic <-? row_get_string (r_topic r);
  last_error <-? row_get_opt_string (r_last_error r);
  event_from_row id topic (r_payload r) (r_headers r) (r_created_at r) (r_attempts r) last_error.

Definition decode_letter (l : Letter) : result (OutboxEvent * str) StoreError :=
  id <-? row_get_string (l_id l);
  topic <-? row_get_string (l_topic l);
  last_error <-? row_get_opt_string (l_last_error l);
  reason <-? row_get_string (l_reason l);
  e <-? event_from_row id topic (l_payload l) (l_headers l) (l_created_at l) (l_attempts l) last_error;
  Ok (e, reason).

(** [for row in rows { v.push(f(row.map_err(backend)?)?); }]: each row is a
    step of the statement, and so is finding that there is none left. *)
Fixpoint read_rows {A B} (f : A -> result B StoreError) (rows : list A)
    : M (Conn Tables) StoreError (list B) :=
  match rows with
  | [] => _ <-- query (fun _ => tt); mret []
  | r :: rows =>
      _ <-- query (fun _ => tt);
      b <-- mlift (f r);
      bs <-- read_rows f rows;
      mret (b :: bs)
  end.

(** ** The store *)

Definition new_row (e : OutboxEvent) (headers : bytes) : Row :=
  mkRow (event_id_to_string (ev_id e)) (ev_topic e) (ev_payload e) headers
    (clamp_i64 (ev_created_at e)) (clamp_i64 (ev_attempts e)) (clamp_i64 (ev_created_at e))
    (ev_last_error e) None.

Definition append (event : OutboxEvent) : M (Conn Tables) StoreError unit :=
  _ <-- mlift (validated event);
  headers <-- mlift (encode_headers (ev_headers event));
  inserted <-- statement (fun t => Ok (insert_or_ignore (new_row event headers) t));
  mret tt.

Definition fetch_due (limit now_ms : Z) : M (Conn Tables) StoreError (list OutboxEvent) :=
  _ <-- query (fun _ => tt);
  rows <-- query (fun t =>
    select (due_row (clamp_i64 now_ms)) row_order (i64_try_from_or_max limit) (outbox_events t));
  read_rows decode_row rows.

Definition mark_dispatched (clock : Z) (i : EventId) : M (Conn Tables) StoreError unit :=
  update (with_events
    (alter (set_dispatched (clamp_i64 (now_millis clock))) (event_id_to_string i))).

Definition mark_failed (i : EventId) (error : str) (retry_at_ms : Z)
    : M (Conn Tables) StoreError unit :=
  let error := truncate_error error in
  statement (update_failed (event_id_to_string i) error (clamp_i64 retry_at_ms)).

Definition pending_count : M (Conn Tables) StoreError Z :=
  count <-- query (fun t => count_where pending_row (outbox_events t));
  mret (unclamp_u64 count).

Definition parked_count : M (Conn Tables) StoreError Z :=
  count <-- query (fun t => count_where parked_row (outbox_events t));
  mret (unclamp_u64 count).

Definition new_letter (e : OutboxEvent) (headers : bytes) (reason : str) (stamp : Z) : Letter :=
  mkLetter (event_id_to_string (ev_id e)) (ev_topic e) (ev_payload e) headers
    (clamp_i64 (ev_created_at e)) (clamp_i64 (ev_attempts e)) (ev_last_error e) reason stamp.

Definition dead_letter (clock : Z) (event : OutboxEvent) (reason : str)
    : M (Conn Tables) StoreError unit :=
  _ <-- mlift (validated event);
  headers <-- mlift (encode_headers (ev_headers event));
  let reason := truncate_reason reason in
  let letter := new_letter event headers reason (clamp_i64 (now_millis clock)) in
  _ <-- query (fun _ => tt);
  _ <-- update (with_letters (insert (l_id letter) letter));
  update (with_events (delete (event_id_to_string (ev_id event)))).

Definition dead_letters (limit : Z) : M (Conn Tables) StoreError (list (OutboxEvent * str)) :=
  _ <-- query (fun _ => tt);
  rows <-- query (fun t =>
    select (fun _ => True) letter_key (i64_try_from_or_max limit) (outbox_dead_letters t));
  read_rows decode_letter rows.

#[export] Instance SqliteStore : OutboxStore (Conn Tables) := {|
  Store.append := append;
  Store.fetch_due := fetch_due;
  Store.mark_dispatched := mark_dispatched;
  Store.mark_failed := mark_failed;
  Store.pending_count := pending_count;
  Store.parked_count := parked_count;
  Store.dead_letter := dead_letter;
  Store.dead_letters := dead_letters
|}.

(** ** Reading rows *)

Lemma read_rows_ok {A B} (f : A -> result B StoreError) rows c bs :
  (read_rows f rows c).2 = Ok bs -> collect f rows = Ok bs.
Proof.
  revert c bs. induction rows as [|r rows IH]; intros c bs; cbn [read_rows collect].
  - intros (u & _ & H & _)%mbind_ok. by cbn in H.
  - intros (u & _ & H & _)%mbind_ok. apply mbind_ok in H as (b & Hb & H & _).
    apply mbind_ok in H as (bs' & Hbs & H & _). cbn in Hb, H. rewrite Hb. cbn.
    apply IH in Hbs. by rewrite Hbs.
Qed.

Lemma read_rows_done {A B} (f : A -> result B StoreError) rows t bs :
  collect f rows = Ok bs -> read_rows f rows (mkConn t []) = (mkConn t [], Ok bs).
Proof.
  revert bs. induction rows as [|r rows IH]; intros bs; cbn [read_rows collect].
  - by intros [= <-].
  - intros (b & Hb & (bs' & Hbs & [= <-])%rbind_ok_inv)%rbind_ok_inv.
    unfold mbind at 1. rewrite query_done. unfold mbind at 1, mlift. rewrite Hb.
    unfold mbind. by rewrite (IH _ Hbs).
Qed.

Lemma read_rows_keeps {A B} (P : relation Tables) `{!PreOrder P} (f : A -> result B StoreError) rows :
  keeps P (read_rows f rows).
Proof.
  induction rows as [|r rows IH]; cbn [read_rows]; keeps_steps.
Qed.

Lemma fetch_due_keeps P `{!PreOrder P} limit now : keeps P (fetch_due limit now).
Proof.
  unfold fetch_due. keeps_steps. by apply read_rows_keeps.
Qed.

Lemma fetch_due_tables limit now c : tables (fetch_due limit now c).1 = tables c.
Proof. symmetry. apply (fetch_due_keeps eq). Qed.

Lemma row_get_string_ok s s' : row_get_string s = Ok s' -> s' = s /\ valid_utf8 s = true.
Proof. unfold row_get_string. destruct (valid_utf8 s); by intros [= <-]. Qed.

(** A row decodes to the event its key names. *)
Lemma decode_row_id `{!UuidLaws} r i e :
  r_id r = event_id_to_string i -> decode_row r = Ok e -> ev_id e = i.
Proof.
  unfold decode_row. intros Hr. rewrite Hr.
  intros (s & [-> _]%row_get_string_ok & Hd)%rbind_ok_inv.
  apply rbind_ok_inv in Hd as (t & _ & Hd). apply rbind_ok_inv in Hd as (l & _ & Hd).
  by apply event_from_row_id in Hd.
Qed.

(** ** What the dispatcher relies on *)

Definition sql_inv (c : Conn Tables) : Prop := keyed r_id (outbox_events (tables c)).
Definition live_in (t : Tables) (i : EventId) : Prop :=
  exists r, outbox_events t !! event_id_to_string i = Some r /\ r_dispatched_at r = None.
Definition sql_live (c : Conn Tables) (i : EventId) : Prop := live_in (tables c) i.
Definition delivered_in (t : Tables) (i : EventId) : Prop :=
  exists r, outbox_events t !! event_id_to_string i = Some r /\ r_dispatched_at r <> None.
Definition sql_delivered (c : Conn Tables) (i : EventId) : Prop := delivered_in (tables c) i.

(** The key column stays the key, and every event but [i] stays live
    and is delivered only if it was. *)
Definition safe_for (i : option EventId) (t t' : Tables) : Prop :=
  (keyed r_id (outbox_events t) -> keyed r_id (outbox_events t')) /\
  (forall j, i <> Some j -> live_in t j -> live_in t' j) /\
  (forall j, i <> Some j -> delivered_in t' j -> delivered_in t j).

#[export] Instance safe_for_preorder i : PreOrder (safe_for i).
Proof.
  split; [by split|]. intros t1 t2 t3 (H1 & H1' & H1'') (H2 & H2' & H2''). split_and!; eauto.
Qed.

Lemma safe_for_inv {A} i (m : M (Conn Tables) StoreError A) c :
  keeps (safe_for i) m -> sql_inv c -> sql_inv (m c).1.
Proof. intros Hm. apply Hm. Qed.
Lemma safe_for_delivered {A} i (m : M (Conn Tables) StoreError A) c j :
  keeps (safe_for i) m -> i <> Some j -> sql_delivered (m c).1 j -> sql_delivered c j.
Proof. intros Hm Hj. by apply Hm. Qed.
Lemma safe_for_live {A} i (m : M (Conn Tables) StoreError A) c j :
  keeps (safe_for i) m -> i <> Some j -> sql_live c j -> sql_live (m c).1 j.
Proof. intros Hm Hj. by apply Hm. Qed.

Context `{UL : !UuidLaws}.

(** It is enough to look at one row at a time. *)
Lemma safe_for_rows i t t' :
  (keyed r_id (outbox_events t) -> keyed r_id (outbox_events t')) ->
  (forall j, i <> Some j ->
     match outbox_events t !! event_id_to_string j, outbox_events t' !! event_id_to_string j with
     | Some r, Some r' => (r_dispatched_at r = None) <-> (r_dispatched_at r' = None)
     | None, Some r' => r_dispatched_at r' = None
     | None, None => True
     | Some _, None => False
     end) ->
  safe_for i t t'.
Proof.
  intros Hk Hrows. split; [done|]. split; intros j Hj (r & Hr & Hd); specialize (Hrows j Hj);
    rewrite Hr in Hrows; unfold live_in, delivered_in; case_match; try done; eexists; (split; [done|]); tauto.
Qed.

Lemma insert_safe r i :
  r_id r = event_id_to_string i -> r_dispatched_at r = None ->
  forall t, outbox_events t !! r_id r = None -> safe_for None t (with_events (insert (r_id r) r) t).
Proof.
  intros Hid Hr t Hn. apply safe_for_rows; cbn; [rewrite Hid; intros Hk; by apply keyed_insert|].
  intros j _. rewrite lookup_insert. case_decide as Hj; [by rewrite <- Hj, Hn|].
  by destruct (outbox_events t !! event_id_to_string j).
Qed.

Lemma alter_safe (f : Row -> Row) i :
  (forall r, r_id (f r) = r_id r) ->
  (forall r, (r_dispatched_at r = None) <-> (r_dispatched_at (f r) = None)) ->
  forall t, safe_for None t (with_events (alter f i) t).
Proof.
  intros Hid Hd t. apply safe_for_rows; cbn; [by apply keyed_alter|].
  intros j _. rewrite lookup_alter. case_decide as Hj; [rewrite Hj|].
  - destruct (outbox_events t !! event_id_to_string j); cbn; [apply Hd|done].
  - by destruct (outbox_events t !! event_id_to_string j).
Qed.

Lemma elsewhere_safe (g : gmap str Row -> gmap str Row) i :
  (forall m, keyed r_id m -> keyed r_id (g m)) ->
  (forall m k, event_id_to_string i <> k -> g m !! k = m !! k) ->
  forall t, safe_for (Some i) t (with_events g t).
Proof.
  intros Hk Hg t. apply safe_for_rows; cbn; [apply Hk|]. intros j Hj.
  rewrite Hg by (intros ?%(inj event_id_to_string); congruence).
  by destruct (outbox_events t !! event_id_to_string j).
Qed.

Lemma append_safe e : keeps (safe_for None) (append e).
Proof.
  unfold append. keeps_steps.
  apply keeps_statement; [apply _|]. intros t t' n Ht. injection Ht as Ht. revert Ht.
  unfold insert_or_ignore. destruct (outbox_events t !! _) as [r|] eqn:E; intros [= <- _]; [done|].
  by refine (insert_safe (new_row e _) (ev_id e) _ _ t _).
Qed.

Lemma mark_failed_safe i m at_ : keeps (safe_for None) (mark_failed i m at_).
Proof.
  apply keeps_statement; [apply _|]. intros t t' u. unfold update_failed.
  destruct (outbox_events t !! _); [|by intros [= <- _]].
  case_match; [|done]. intros [= <- _]. by apply alter_safe.
Qed.

Lemma mark_dispatched_safe clock i : keeps (safe_for (Some i)) (mark_dispatched clock i).
Proof.
  apply keeps_update; [apply _|]. apply elsewhere_safe.
  - intros m. apply keyed_alter. intros r. unfold set_dispatched. by case_match.
  - intros m k Hk. by apply lookup_alter_ne.
Qed.

Lemma dead_letter_safe clock e reason : keeps (safe_for (Some (ev_id e))) (dead_letter clock e reason).
Proof.
  unfold dead_letter. keeps_steps; (apply keeps_update; [apply _|]); [done|].
  apply elsewhere_safe; [intros m; apply keyed_delete|intros m k Hk; by apply lookup_delete_ne].
Qed.

Lemma dead_letter_delivered_self clock e reason c :
  sql_delivered (dead_letter clock e reason c).1 (ev_id e) -> sql_delivered c (ev_id e).
Proof.
  assert (keeps (fun t t' => delivered_in t' (ev_id e) -> delivered_in t (ev_id e))
    (dead_letter clock e reason)) as Hk; [|apply Hk].
  assert (PreOrder (fun t t' => delivered_in t' (ev_id e) -> delivered_in t (ev_id e)))
    by (split; [by intros ?|intros t1 t2 t3; tauto]).
  unfold dead_letter. keeps_steps; (apply keeps_update; [done|]); [done|].
  intros t (r & Hr & _). cbn in Hr. by rewrite lookup_delete_eq in Hr.
Qed.

Lemma pending_count_safe : keeps (safe_for None) pending_count.
Proof. unfold pending_count. keeps_steps. Qed.

Lemma append_recorded e c :
  (append e c).2 = Ok tt -> sql_live (append e c).1 (ev_id e) \/ sql_delivered c (ev_id e).
Proof.
  unfold append. intros ([] & _ & H & ->)%mbind_ok.
  apply mbind_ok in H as (h & _ & H & ->). apply mbind_ok in H as (n & H & _ & ->).
  apply statement_ok in H. cbn [mlift fst snd mret] in *. unfold sql_live, sql_delivered.
  revert H. generalize (tables (statement (fun t => Ok (insert_or_ignore (new_row e h) t)) c).1).
  intros t' H. unfold insert_or_ignore in H. cbn [r_id new_row] in H.
  destruct (outbox_events (tables c) !! event_id_to_string (ev_id e)) as [r|] eqn:E.
  - injection H as <- _. destruct (r_dispatched_at r) eqn:Ed; [right|left]; exists r; split; try done; congruence.
  - injection H as <- _. left. eexists. cbn. by rewrite lookup_insert_eq.
Qed.

Lemma fetch_due_rows_of limit now c l :
  (fetch_due limit now c).2 = Ok l ->
  exists rows, rows = select (due_row (clamp_i64 now)) row_order (i64_try_from_or_max limit)
                 (outbox_events (tables c)) /\ collect decode_row rows = Ok l.
Proof.
  unfold fetch_due. intros (u & [_ Ht]%query_ok & H & _)%mbind_ok.
  apply mbind_ok in H as (rows & [-> _]%query_ok & H & _). apply read_rows_ok in H.
  rewrite Ht in H. eauto.
Qed.

Lemma fetch_due_returns limit now c l e :
  (fetch_due limit now c).2 = Ok l -> e ∈ l ->
  exists r, r ∈ select (due_row (clamp_i64 now)) row_order (i64_try_from_or_max limit)
                 (outbox_events (tables c)) /\ decode_row r = Ok e.
Proof.
  intros (rows & -> & Hc)%fetch_due_rows_of He. by eapply collect_elem.
Qed.

#[export] Instance SqliteStore_laws : OutboxLaws (Conn Tables) sql_inv sql_live sql_delivered.
Proof.
  split; cbn [Store.append Store.fetch_due Store.mark_dispatched Store.mark_failed
    Store.pending_count Store.dead_letter SqliteStore].
  - intros s e. apply (safe_for_inv None), append_safe.
  - intros s n now. apply (safe_for_inv None), fetch_due_keeps, _.
  - intros s c i. apply (safe_for_inv (Some i)), mark_dispatched_safe.
  - intros s i m t. apply (safe_for_inv None), mark_failed_safe.
  - intros s. apply (safe_for_inv None), pending_count_safe.
  - intros s c e r. eapply safe_for_inv, dead_letter_safe.
  - intros s e _. apply append_recorded.
  - intros s e i _. apply (safe_for_live None); [apply append_safe|done].
  - intros s n now i _. apply (safe_for_live None); [apply fetch_due_keeps, _|done].
  - intros s n now l e Hs Hl He. destruct (fetch_due_returns _ _ _ _ _ Hl He) as (r & Hr & Hd).
    apply elem_of_select in Hr as [(Hdis & _) [k Hk]]. destruct (Hs _ _ Hk) as [Hid [i ->]].
    rewrite (decode_row_id _ _ _ Hid Hd). by exists r.
  - intros s i _. apply (safe_for_live None); [apply pending_count_safe|done].
  - intros s j m t i _. apply (safe_for_live None); [apply mark_failed_safe|done].
  - intros s n now l Hs Hl. destruct (fetch_due_rows_of _ _ _ _ Hl) as (rows & -> & Hc).
    eapply (collect_NoDup r_id decode_row); [| | |exact Hc]; [|intros r Hr|by apply select_NoDup].
    + intros r e i Hd Hid. by apply (decode_row_id r).
    + apply elem_of_select in Hr as [_ [k Hk]]. destruct (Hs _ _ Hk) as [Hid [i ->]]. by exists i.
  - intros s e i _. apply (safe_for_delivered None); [apply append_safe|done].
  - intros s n now i _. apply (safe_for_delivered None); [apply fetch_due_keeps, _|done].
  - intros s i _. apply (safe_for_delivered None); [apply pending_count_safe|done].
  - intros s j m t i _. apply (safe_for_delivered None); [apply mark_failed_safe|done].
  - intros s c e r i _ Hd. destruct (decide (i = ev_id e)) as [->|Hne].
    + by apply dead_letter_delivered_self in Hd.
    + revert Hd. eapply safe_for_delivered; [apply dead_letter_safe|congruence].
  - intros s c j i _ Hd. destruct (decide (i = j)) as [->|Hne]; [by right|left].
    revert Hd. apply (safe_for_delivered (Some j)); [apply mark_dispatched_safe|congruence].
  - intros s c j i _ Hne. apply (safe_for_live (Some j)); [apply mark_dispatched_safe|congruence].
  - intros s c e r i _ Hne. eapply safe_for_live; [apply dead_letter_safe|congruence].
Qed.

End Sqlite.
End Sqlite.
