(* ===== verification/SqliteSim.v ===== *)
(** * The SQLite store against the ledger

    The simulation relation between the tables and the ledger, call by call: on
    a healthy engine every call does what the ledger does; on any other it
    gives one of the ledger's [answers] under faults.  [dead_letter] is the one
    call that may stop halfway, with the letter filed and the event still
    there. *)

From S2P Require Import Prelude BTree Utf8 Event Truncate Codec Backoff Store Ledger Sql SqlTable SqlLedger HexUuid Sqlite.

Import Sqlite.

Section SqliteSim.
Context `{UO : UuidOps} `{UL : !UuidLaws} `{SE : SqlEngine}.

(** ** Rows and events *)

Lemma row_get_string_utf8 s : valid_utf8 s = true -> row_get_string s = Ok s.
Proof. intros H. unfold row_get_string. by rewrite H. Qed.

Lemma decode_new_row e h :
  wf_event e -> ev_created_at e < i64_max -> encode_headers (ev_headers e) = Ok h ->
  decode_row (new_row e h) = Ok e.
Proof.
  intros Hwf Hc He. unfold decode_row, new_row. cbn -[event_from_row].
  rewrite row_get_string_utf8 by apply hyphenated_utf8. cbn [rbind].
  rewrite row_get_string_utf8 by apply Hwf. cbn [rbind].
  assert (row_get_opt_string (ev_last_error e) = Ok (ev_last_error e)) as ->.
  { unfold row_get_opt_string. destruct (ev_last_error e) as [m|] eqn:E; [|done].
    by rewrite row_get_string_utf8 by (by apply (wf_last_error _ Hwf)). }
  cbn [rbind]. apply event_from_row_event; try done.
  pose proof (wf_attempts _ Hwf). unfold clamp_i64. int_lia.
Qed.

Lemma decode_set_failed m t r e :
  valid_utf8 m = true -> 0 <= r_attempts r -> decode_row r = Ok e ->
  decode_row (set_failed (truncate_error m) t r) = Ok (record_failure m e).
Proof.
  intros Hm Ha. unfold decode_row, set_failed. cbn -[event_from_row].
  intros (i & -> & H)%rbind_ok_inv. apply rbind_ok_inv in H as (tp & -> & H).
  apply rbind_ok_inv in H as (l & _ & H). cbn [rbind].
  rewrite row_get_string_utf8 by (by apply truncate_error_utf8). cbn [rbind].
  unfold event_from_row in *. apply rbind_ok_inv in H as (j & -> & H).
  apply rbind_ok_inv in H as (h & -> & [= <-]). cbn [rbind]. unfold record_failure. cbn.
  do 2 f_equal. int_lia.
Qed.

(** A stamp from [i64::MAX] on is stored as the parked value: such an event is
    never due, at any clock. *)
Lemma far_future_never_due e h now :
  i64_max <= ev_created_at e -> ~ due_row now (new_row e h).
Proof.
  intros He (_ & _ & H). cbn in H. rewrite clamp_i64_min in H. unfold PARKED_AS_I64 in H. lia.
Qed.

(** ** Letters *)

(** The effect of a completed dead-lettering. *)
Definition lettered (clk : Z) (e : OutboxEvent) (h : bytes) (reason : str) (t : Tables) : Tables :=
  with_letters (insert (event_id_to_string (ev_id e))
    (new_letter e h (truncate_reason reason) (clamp_i64 (now_millis clk)))) t.
Definition closed_case clk e h reason (t : Tables) : Tables :=
  with_events (delete (event_id_to_string (ev_id e))) (lettered clk e h reason t).

Lemma decode_new_letter e h reason at_ :
  storable e -> encode_headers (ev_headers e) = Ok h -> valid_utf8 reason = true ->
  letter_row decode_letter (ev_id e) (new_letter e h reason at_) (at_, (e, reason)).
Proof.
  intros (Hwf & Hc & _) Hh Hr. split_and!; [done|done|].
  pose proof (decode_new_row e h Hwf Hc Hh) as Hd. unfold decode_row, decode_letter in *. cbn -[event_from_row] in *.
  apply rbind_ok_inv in Hd as (i & -> & Hd). apply rbind_ok_inv in Hd as (tp & -> & Hd).
  apply rbind_ok_inv in Hd as (le & -> & Hd). cbn [rbind].
  rewrite row_get_string_utf8 by done. cbn [rbind]. by rewrite Hd.
Qed.

(** ** The simulation relation *)

Definition open_row (r : Row) (t : Z) (e : OutboxEvent) : Prop :=
  r_dispatched_at r = None /\ decode_row r = Ok e /\ r_next_attempt_at r = clamp_i64 t /\
  stamp t /\ 0 <= r_attempts r.
Definition closed_row (r : Row) : Prop := r_dispatched_at r <> None.

Record sqlite_rel (n : nat) (t : Tables) (l : Ledger) : Prop := {
  sr_rows : table_rel r_id open_row closed_row (outbox_events t) (outbox l);
  sr_letters : letters_rel decode_letter (outbox_dead_letters t) (letters l);
  sr_attempts : forall k r, outbox_events t !! k = Some r -> r_attempts r + Z.of_nat n <= i64_max
}.

(** [n] calls are left: neither a failure count nor a row count can overflow
    before the end. *)
Record sqlite_refines (n : nat) (t : Tables) (l : Ledger) : Prop := {
  sr_rel : sqlite_rel n t l;
  sr_size : Z.of_nat (ledger_size l) + Z.of_nat n <= i64_max;
  sr_calls : Z.of_nat n <= i64_max - u32_max
}.

Lemma sqlite_rel_same n t l : sqlite_rel (S n) t l -> sqlite_rel n t l.
Proof. intros [Hr Hl Ha]. split; try done. intros k r Hk. specialize (Ha k r Hk). lia. Qed.

Lemma sqlite_refines_same n t l : sqlite_refines (S n) t l -> sqlite_refines n t l.
Proof. intros [Hr Hs Hn]. split; [by apply sqlite_rel_same|lia..]. Qed.

Lemma sqlite_empty n : Z.of_nat n <= i64_max - u32_max -> sqlite_refines n (mkTables ∅ ∅) ledger_empty.
Proof.
  intros Hn. split; [|rewrite ledger_size_empty; unfold_int; lia|done].
  split; cbn; [apply table_rel_empty|apply letters_rel_empty|].
  intros k r Hk. by apply lookup_empty_Some in Hk.
Qed.

Lemma due_row_open now r t e :
  in_u64 now -> open_row r t e -> due_row (clamp_i64 now) r <-> t <= now /\ t <> NEVER.
Proof.
  intros Hn (Hd & _ & Ht & Hs & _). unfold due_row. rewrite Ht, <- (clamp_due t now) by done. tauto.
Qed.

(** *** The writes *)

Lemma insert_rel n t l e h :
  storable e -> encode_headers (ev_headers e) = Ok h -> Z.of_nat n < i64_max - u32_max ->
  sqlite_rel (S n) t l ->
  sqlite_rel n (insert_or_ignore (new_row e h) t).1 (with_outbox (ref_append e) l).
Proof.
  intros (Hwf & Hc & _) Hh Hn [Hr Hl Ha].
  pose proof (table_rel_known _ _ _ _ _ (ev_id e) Hr) as Hknown.
  unfold insert_or_ignore, ref_append, with_outbox. cbn [r_id new_row].
  destruct (outbox_events t !! event_id_to_string (ev_id e)) as [r|] eqn:E.
  - replace (_ || _) with true; [apply sqlite_rel_same; by destruct l|]. symmetry.
    rewrite orb_true_iff, !bool_decide_eq_true, elem_of_dom. by apply Hknown.
  - assert (~ known (outbox l) (ev_id e)) as Hk by (rewrite Hknown; by intros [? ?]).
    rewrite !bool_decide_eq_false_2 by (unfold known in Hk; rewrite ?elem_of_dom; tauto).
    pose proof (wf_attempts _ Hwf). pose proof (wf_created_at _ Hwf). split; cbn; [|done|].
    + apply table_rel_insert; [done..| |done]. split_and!; [done|by apply decode_new_row|done| |].
      * left. unfold_int. lia.
      * cbn. unfold clamp_i64. int_lia.
    + intros k r Hkr. apply lookup_insert_Some in Hkr as [[_ <-]|[_ Hkr]].
      * cbn. unfold clamp_i64. int_lia.
      * specialize (Ha k r Hkr). lia.
Qed.

Lemma alter_attempts (f : Row -> Row) (d : Z) (k : str) (m : gmap str Row) :
  (forall r, r_attempts (f r) <= r_attempts r + d) -> 0 <= d ->
  forall b, (forall k r, m !! k = Some r -> r_attempts r + d <= b) ->
  forall k' r, alter f k m !! k' = Some r -> r_attempts r <= b.
Proof.
  intros Hf Hd b Hm k' r Hr. rewrite lookup_alter in Hr. case_decide; [|specialize (Hm _ _ Hr); lia].
  apply fmap_Some in Hr as (r' & Hr & ->). specialize (Hm _ _ Hr). specialize (Hf r'). lia.
Qed.

Lemma dispatch_rel n t l at_ i :
  sqlite_rel (S n) t l ->
  sqlite_rel n (with_events (alter (set_dispatched at_) (event_id_to_string i)) t)
    (with_outbox (deliver i) l).
Proof.
  intros [Hr Hl Ha]. split; cbn; [|done|].
  - apply table_rel_dispatch; [done| | |].
    + intros r. unfold set_dispatched. by case_match.
    + intros r t' e _ (Hd & _). unfold set_dispatched, closed_row. by rewrite Hd.
    + intros r _ Hd. unfold set_dispatched, closed_row in *. case_match; congruence.
  - assert (forall r, r_attempts (set_dispatched at_ r) = r_attempts r) as Hf.
    { intros r. unfold set_dispatched. by case_match. }
    intros k r Hk. enough (r_attempts r <= i64_max - Z.of_nat n) by lia.
    eapply (alter_attempts (set_dispatched at_) 1); [intros r'; rewrite Hf; lia|lia| |exact Hk].
    intros k' r' Hk'. specialize (Ha _ _ Hk'). lia.
Qed.

Lemma fail_rel n t l i m at_ :
  stamp at_ -> valid_utf8 m = true -> sqlite_rel (S n) t l ->
  sqlite_rel n (with_events (alter (set_failed (truncate_error m) (clamp_i64 at_)) (event_id_to_string i)) t)
    (with_outbox (ref_mark_failed i m at_) l).
Proof.
  intros Hst Hm [Hr Hl Ha]. split; cbn; [|done|].
  - apply table_rel_fail; try done. intros r t0 e _ (Hd & Hdec & _ & _ & Hatt).
    split_and!; [done|by apply decode_set_failed|done|done|cbn; lia].
  - intros k r Hk. enough (r_attempts r <= i64_max - Z.of_nat n) by lia.
    eapply (alter_attempts (set_failed (truncate_error m) (clamp_i64 at_)) 1); [intros r'; cbn; lia|lia| |exact Hk].
    intros k' r' Hk'. specialize (Ha _ _ Hk'). lia.
Qed.

Lemma letter_rel n t l clk e h reason :
  storable e -> encode_headers (ev_headers e) = Ok h -> now_millis clk < i64_max ->
  valid_utf8 reason = true -> sqlite_rel n t l ->
  sqlite_rel n (lettered clk e h reason t) (file_letter (now_millis clk) e reason l).
Proof.
  intros He Hh Hclk Hu [Hr Hl Ha]. split; cbn; [done| |done].
  apply letters_rel_insert; [done|].
  replace (clamp_i64 (now_millis clk)) with (now_millis clk) by (rewrite clamp_i64_min; lia).
  apply decode_new_letter; [done..|]. rewrite truncate_reason_error. by apply truncate_error_utf8.
Qed.

Lemma close_rel n t l i :
  sqlite_rel n t l ->
  sqlite_rel n (with_events (delete (event_id_to_string i)) t) (with_outbox (close_case i) l).
Proof.
  intros [Hr Hl Ha]. split; cbn; [by apply table_rel_close|done|].
  intros k r Hk. apply lookup_delete_Some in Hk as [_ Hk]. by apply (Ha k).
Qed.

(** *** The reads *)

Lemma select_due n t l limit now :
  in_u64 now -> sqlite_refines n t l ->
  collect decode_row (select (due_row (clamp_i64 now)) row_order (i64_try_from_or_max limit) (outbox_events t))
    = Ok (ref_fetch_due limit now (outbox l)).
Proof.
  intros Hn [[Hr _ _] Hs _]. rewrite <- fetch_clamped by (unfold ledger_size in Hs; lia).
  apply (select_fetch r_id open_row closed_row r_next_attempt_at (due_row (clamp_i64 now)) now); [done|..].
  - intros r t' e. by apply due_row_open.
  - intros r Hc [Hd _]. done.
  - intros r t' e Ho Hd. pose proof (proj1 (due_row_open _ _ _ _ Hn Ho) Hd) as [_ Hne].
    destruct Ho as (_ & _ & -> & Hst & _). by apply clamp_stamp.
  - by intros r t' e (_ & ? & _).
Qed.

Lemma parked_open r t e : open_row r t e -> (t = NEVER <-> PARKED_AS_I64 <= r_next_attempt_at r).
Proof.
  intros (_ & _ & -> & Hst & _). destruct (clamp_stamp _ Hst) as (_ & H1 & H2). unfold PARKED_AS_I64.
  split; [intros ->; by rewrite H2|]. intros Hp. destruct (decide (t = NEVER)) as [|Hne]; [done|].
  destruct (H1 Hne). lia.
Qed.

Lemma counts n t l :
  sqlite_refines n t l ->
  unclamp_u64 (count_where pending_row (outbox_events t)) = u64_try_from_or_max (ref_pending_count (outbox l)) /\
  unclamp_u64 (count_where parked_row (outbox_events t)) = u64_try_from_or_max (ref_parked_count (outbox l)).
Proof.
  intros [[Hr _ _] _ _]. unfold unclamp_u64, ref_pending_count, ref_parked_count.
  split; f_equal; apply (count_where_rel r_id open_row closed_row _ _ _ _ Hr); try by intros r Hc [Hd _].
  all: intros r t' e Ho; pose proof (parked_open _ _ _ Ho); destruct Ho as (Hd & _);
    unfold pending_row, parked_row; cbn; split; [intros [_ ?]|intros ?; split; [done|]]; lia || tauto.
Qed.

(** *** Every call, on a healthy engine *)

Lemma append_healthy n t l e :
  storable e -> sqlite_refines (S n) t l ->
  sqlite_rel n (tables (healthy (append e) t).1) (perform (CAppend e) l).1 /\
  RUnit (healthy (append e) t).2 = (perform (CAppend e) l).2.
Proof.
  intros He HR. pose proof He as (_ & _ & h & Hh). unfold healthy, append, mbind, mlift. cbn -[ref_append].
  destruct (validated e) as [[]|err]; [|by split; [apply sqlite_rel_same, HR|]].
  rewrite Hh. cbn -[ref_append insert_or_ignore].
  destruct (insert_or_ignore (new_row e h) t) as [t' k] eqn:E. cbn -[ref_append]. split; [|done].
  pose proof (sr_calls _ _ _ HR). pose proof (insert_rel n t l e h He Hh ltac:(lia) (sr_rel _ _ _ HR)) as H'.
  by rewrite E in H'.
Qed.

Lemma mark_failed_healthy n t l i m at_ :
  stamp at_ -> valid_utf8 m = true -> sqlite_refines (S n) t l ->
  sqlite_rel n (tables (healthy (mark_failed i m at_) t).1) (with_outbox (ref_mark_failed i m at_) l) /\
  (healthy (mark_failed i m at_) t).2 = Ok tt.
Proof.
  intros Hst Hm HR. unfold healthy. set (f := set_failed (truncate_error m) (clamp_i64 at_)).
  assert (mark_failed i m at_ (mkConn t []) =
    (mkConn (with_events (alter f (event_id_to_string i)) t) [], Ok tt)) as ->.
  { apply statement_done. unfold update_failed.
    destruct (outbox_events t !! _) as [r|] eqn:E.
    - pose proof (sr_attempts _ _ _ (sr_rel _ _ _ HR) _ _ E). by replace (r_attempts r + 1 <=? i64_max) with true by lia.
    - unfold with_events. rewrite alter_id by (intros ?; congruence). by destruct t. }
  split; [|done]. by apply fail_rel, HR.
Qed.

Lemma dead_letter_healthy n t l clk e reason :
  sql_call_ok (CDeadLetter clk e reason) -> sqlite_refines (S n) t l ->
  sqlite_rel n (tables (healthy (dead_letter clk e reason) t).1) (perform (CDeadLetter clk e reason) l).1 /\
  RUnit (healthy (dead_letter clk e reason) t).2 = (perform (CDeadLetter clk e reason) l).2.
Proof.
  intros (He & Hclk & Hu) HR. pose proof He as (_ & _ & h & Hh).
  unfold healthy, dead_letter, mbind, mlift. cbn -[close_case file_letter].
  destruct (validated e) as [[]|err]; [|by split; [apply sqlite_rel_same, HR|]].
  rewrite Hh. split; [|done]. apply close_rel.
  apply (letter_rel n t l clk e h reason); [done..|]. by apply sqlite_rel_same, HR.
Qed.

Lemma dead_letters_healthy n t l limit :
  sqlite_refines n t l ->
  healthy (dead_letters limit) t = (mkConn t [], Ok (filed_letters limit l)).
Proof.
  intros [[_ Hl _] Hs _]. unfold healthy, dead_letters, mbind. rewrite !query_done.
  apply read_rows_done. rewrite <- (filed_clamped limit) by (unfold ledger_size in Hs; lia).
  by apply select_letters.
Qed.

Lemma fetch_due_healthy n t l limit now :
  in_u64 now -> sqlite_refines n t l ->
  healthy (fetch_due limit now) t = (mkConn t [], Ok (ref_fetch_due limit now (outbox l))).
Proof.
  intros Hn HR. unfold healthy, fetch_due, mbind. rewrite !query_done.
  apply read_rows_done. by eapply select_due.
Qed.

(** The engine cannot fail a call whose statements all succeed. *)
Lemma read_rows_steady {A B} (f : A -> result B StoreError) rows : steady (read_rows f rows).
Proof. induction rows as [|r rows IH]; cbn [read_rows]; auto 8 with outbox. Qed.

Lemma fetch_due_atomic limit now : atomic (fetch_due limit now).
Proof.
  apply reading_atomic; [|apply fetch_due_keeps, _].
  unfold fetch_due. auto using read_rows_steady with outbox.
Qed.

Lemma dead_letters_atomic limit : atomic (dead_letters limit).
Proof.
  apply reading_atomic; unfold dead_letters; [auto using read_rows_steady with outbox|].
  keeps_steps. apply read_rows_keeps, _.
Qed.

Lemma append_atomic e : atomic (append e).
Proof.
  unfold append. apply atomic_bind_lift. intros _. apply atomic_bind_lift. intros h.
  apply atomic_bind; auto with outbox.
  intros _. apply keeps_ret, _.
Qed.

Lemma count_atomic (f : Tables -> Z) : atomic (n <-- query f; mret (unclamp_u64 n)).
Proof. apply atomic_bind; auto with outbox. intros n. apply keeps_ret, _. Qed.

(** Every call but [dead_letter] is one atomic computation. *)
Lemma perform_atomic c :
  match c with CDeadLetter _ _ _ => True | _ =>
    exists A (m : M (Conn Tables) StoreError A) g, (forall s, perform c s = replying g (m s)) /\
      atomic m /\ forall msg, g (Err (Backend msg)) = failed_reply c msg
  end.
Proof.
  destruct c; try done; do 3 eexists; (split; [intros s; reflexivity|]); (split; [|done]).
  - apply append_atomic.
  - apply fetch_due_atomic.
  - apply atomic_update.
  - apply atomic_statement.
  - apply count_atomic.
  - apply count_atomic.
  - apply dead_letters_atomic.
Qed.

(** On a healthy engine: the ledger's state and the ledger's reply. *)
Lemma perform_healthy n t l c :
  sql_call_ok c -> sqlite_refines (S n) t l ->
  sqlite_refines n (tables (perform c (mkConn t [])).1) (perform c l).1 /\
  (perform c (mkConn t [])).2 = (perform c l).2.
Proof.
  intros Hok HR. pose proof (perform_size c l) as Hsz. pose proof HR as [Hrel Hs Hn].
  enough (sqlite_rel n (tables (perform c (mkConn t [])).1) (perform c l).1 /\
    (perform c (mkConn t [])).2 = (perform c l).2) as [? ?] by (split; [split|]; [done|lia..|done]).
  destruct c.
  - by apply append_healthy.
  - destruct Hok as [_ Hnow]. cbn -[fetch_due]. change (fetch_due limit now_ms (mkConn t [])) with
      (healthy (fetch_due limit now_ms) t). rewrite (fetch_due_healthy (S n) t l) by done.
    split; [by apply sqlite_rel_same|done].
  - split; [by apply dispatch_rel|done].
  - destruct Hok as [Hst Hm]. pose proof (mark_failed_healthy n t l i error retry_at_ms Hst Hm HR) as [H1 H2].
    split; [done|]. cbn -[mark_failed]. by rewrite <- H2.
  - split; [by apply sqlite_rel_same|]. cbn. by rewrite (proj1 (counts _ _ _ HR)).
  - split; [by apply sqlite_rel_same|]. cbn. by rewrite (proj2 (counts _ _ _ HR)).
  - by apply dead_letter_healthy.
  - cbn -[dead_letters]. change (dead_letters limit (mkConn t [])) with (healthy (dead_letters limit) t).
    rewrite (dead_letters_healthy (S n) t l) by done. split; [by apply sqlite_rel_same|done].
Qed.

Lemma perform_script c t : script (perform c (mkConn t [])).1 = [].
Proof.
  pose proof (perform_atomic c) as Hc. destruct c.
  7:{ cbn. unfold dead_letter, mbind, mlift. destruct (validated event); [|done].
      by destruct (encode_headers (ev_headers event)). }
  all: destruct Hc as (A & m & g & -> & Hm & _); apply (Hm (mkConn t [])).
Qed.

(** From related states, a session on a healthy engine gets the ledger's
    replies. *)
Lemma sqlite_session cs t l :
  Forall sql_call_ok cs -> sqlite_refines (length cs) t l ->
  (session cs (mkConn t [])).2 = (session cs l).2.
Proof.
  intros Hok HR.
  apply (session_simulation (fun n c l => script c = [] /\ sqlite_refines n (tables c) l)
    (fun _ => sql_call_ok)); [|by apply admissible_forall|done].
  intros n c [t' s] l' Hc [Hs HR']. cbn in Hs, HR'. subst s.
  destruct (perform_healthy n t' l' c Hc HR'). split; [|done]. split; [apply perform_script|done].
Qed.

(** *** Dead-lettering under faults *)

Lemma update_outcomes (f : Tables -> Tables) c :
  match update f c with
  | (c', Ok _) => tables c' = f (tables c)
  | (c', Err err) => (exists m, err = Backend m) /\ (tables c' = tables c \/ tables c' = f (tables c))
  end.
Proof.
  unfold update, statement. destruct (next_outcome (script c)) as [[|m|m] s]; cbn; eauto.
Qed.

Lemma dead_letter_outcomes clk e reason c h :
  validate e = Ok tt -> encode_headers (ev_headers e) = Ok h ->
  match dead_letter clk e reason c with
  | (c', Ok _) => tables c' = closed_case clk e h reason (tables c)
  | (c', Err err) => (exists m, err = Backend m) /\
      (tables c' = tables c \/ tables c' = lettered clk e h reason (tables c)
       \/ tables c' = closed_case clk e h reason (tables c))
  end.
Proof.
  intros Htopic Hh. unfold dead_letter, mbind, mlift. rewrite (proj2 (validated_ok e) Htopic), Hh.
  pose proof (update_outcomes (fun t => t) c) as Hq. change (update (fun t => t) c) with (query (fun _ : Tables => tt) c) in Hq.
  destruct (query (fun _ => tt) c) as [c1 [[]|err]]; [|by destruct Hq as [? [? | ?]]; auto]. rewrite <- Hq.
  set (ins := with_letters _). pose proof (update_outcomes ins c1) as H1.
  destruct (update ins c1) as [c2 [[]|err]]; [|by destruct H1 as [? [->| ->]]; auto].
  set (del := with_events _). pose proof (update_outcomes del c2) as H2. rewrite H1 in H2.
  destruct (update del c2) as [c3 [[]|err]]; [done|]. destruct H2 as [? [->| ->]]; auto.
Qed.

(** The letter is filed and the event still there. *)
Definition sqlite_partial (c : call) (l l' : Ledger) : Prop :=
  match c with
  | CDeadLetter clk e reason => l' = file_letter (now_millis clk) e reason l
  | _ => False
  end.

Lemma dead_letter_faulty n s l clk e reason :
  sql_call_ok (CDeadLetter clk e reason) -> sqlite_refines (S n) (tables s) l ->
  let c := CDeadLetter clk e reason in
  exists l', answers sqlite_partial c l (perform c s).2 l' /\ sqlite_rel n (tables (perform c s).1) l'.
Proof.
  intros Hok HR. cbn zeta. pose proof (sqlite_rel_same _ _ _ (sr_rel _ _ _ HR)) as Hrel.
  pose proof (perform_healthy n _ l _ Hok HR) as [[Hdone _ _] Hrep].
  pose proof Hok as (He & Hclk & Hu). pose proof He as (_ & _ & h & Hh).
  pose proof (dead_letter_outcomes clk e reason s h) as Hout.
  pose proof (dead_letter_outcomes clk e reason (mkConn (tables s) []) h) as Hhealthy.
  cbn -[dead_letter close_case file_letter] in *. revert Hdone Hrep Hout Hhealthy.
  unfold validated. destruct (validate e) as [[]|err] eqn:Hv; cbn -[dead_letter close_case file_letter].
  - intros _ Hrep Hout _. specialize (Hout eq_refl Hh).
    assert (sqlite_rel n (closed_case clk e h reason (tables s))
      (with_outbox (close_case (ev_id e)) (file_letter (now_millis clk) e reason l))) as Hclosed.
    { apply close_rel. by apply (letter_rel n (tables s) l clk e h reason). }
    destruct (dead_letter clk e reason s) as [s' [[]|err]]; cbn.
    + eexists. split; [|rewrite Hout; exact Hclosed].
      pose proof (answered sqlite_partial (CDeadLetter clk e reason) l) as Ha. cbn in Ha.
      unfold validated in Ha. by rewrite Hv in Ha.
    + destruct Hout as [[m ->] [-> | [-> | ->]]].
      * exists l. split; [apply (refused _ (CDeadLetter clk e reason))|done].
      * eexists. split; [by apply (halfway _ (CDeadLetter clk e reason))|].
        by apply letter_rel.
      * eexists. split; [|exact Hclosed].
        pose proof (unheard sqlite_partial (CDeadLetter clk e reason) l m) as Ha. cbn in Ha.
        unfold validated in Ha. by rewrite Hv in Ha.
  - intros _ _ _ _. exists l. unfold dead_letter, validated, mbind, mlift. rewrite Hv. cbn.
    pose proof (answered sqlite_partial (CDeadLetter clk e reason) l) as Ha. cbn in Ha.
    unfold validated in Ha. rewrite Hv in Ha. by split.
Qed.

(** Whatever the engine does: one of the ledger's answers. *)
Lemma perform_faulty n s l c :
  sql_call_ok c -> sqlite_refines (S n) (tables s) l ->
  exists l', answers sqlite_partial c l (perform c s).2 l' /\ sqlite_refines n (tables (perform c s).1) l'.
Proof.
  intros Hok HR. pose proof (perform_size c l) as Hsz. pose proof HR as [Hrel Hs Hn].
  enough (exists l', answers sqlite_partial c l (perform c s).2 l' /\ sqlite_rel n (tables (perform c s).1) l')
    as (l' & Ha & Hr).
  { exists l'. split; [done|]. split; [done| |lia]. destruct Ha as [ | | |m l' Hp]; [lia..|].
    destruct c; try done. cbn in Hp. subst l'. unfold ledger_size in *. cbn.
    pose proof (size_insert_le (ev_id event) (now_millis clock, (event, truncate_reason reason)) (letters l)). lia. }
  pose proof (perform_healthy n _ l c Hok HR) as [[Hdone _ _] Hrep].
  pose proof (perform_atomic c) as Hc. destruct c.
  7: by apply dead_letter_faulty.
  all: destruct Hc as (A & m & g & Hp & Hm & Hg); rewrite Hp in *;
    eapply (atomic_answers m g); [done..|by apply sqlite_rel_same|done|done].
Qed.

End SqliteSim.
