(* ===== verification/SqliteProps.v ===== *)
(** * Properties of the SQLite store *)

From S2P Require Import Prelude BTree Utf8 Event Truncate Codec Backoff Store Ledger Sql SqlTable SqlLedger HexUuid Sqlite SqliteSim.

Import Sqlite.

Section SqliteProps.
Context `{UO : UuidOps} `{UL : !UuidLaws} `{SE : SqlEngine}.

(** ** Sessions *)

Lemma open_in_memory_tables s db : open_in_memory (Ok s) = Ok db -> tables db = mkTables ∅ ∅.
Proof.
  unfold open_in_memory, configure. cbn [map_err rbind].
  set (m := mbind _ _). set (c := mkConn (mkFile None None) s).
  assert (keeps eq m) as Hk by (unfold m; keeps_steps).
  assert ((m c).2 = Ok (tables db) -> tables db = apply_schema (tables c)) as Hq.
  { unfold m. intros (u1 & [_ H1]%query_ok & H & _)%mbind_ok.
    apply mbind_ok in H as (u2 & [_ H2]%query_ok & H & _).
    apply mbind_ok in H as (u3 & [_ H3]%query_ok & [H _]%query_ok & _).
    by rewrite H, H3, H2, H1. }
  destruct (m c) as [c' [t|e]]; [|done]. intros [= <-]. by apply Hq.
Qed.

(** C21.  A SQLite store whose engine does not fail answers every session of
    trait calls, dead letters included, exactly as the ledger does. *)
Theorem sqlite_refines_reference (cs : list call) (Hok : Forall sql_call_ok cs)
    (Hlen : len cs <= i64_max - u32_max) :
  exists db, open_in_memory (Ok []) = Ok db /\ (session cs db).2 = (session cs ledger_empty).2.
Proof.
  exists (mkConn (mkTables ∅ ∅) []). split; [done|].
  apply sqlite_session; [done|by apply sqlite_empty].
Qed.

(** C3.  Whatever the engine does to any statement of a session, including
    losing the reply of one that took effect: every call either does what the
    ledger does, or errs as a backend failure with nothing done, with all of it
    done, or, for [dead_letter] alone, with the letter filed and the event
    still in the outbox.  The tables left are those of the ledger so driven. *)
Theorem sqlite_faulty_refines (cs : list call) (faults : list outcome) (db : Conn Tables)
    (Hok : Forall sql_call_ok cs) (Hlen : len cs <= i64_max - u32_max)
    (Hopen : open_in_memory (Ok faults) = Ok db) :
  exists l, faulty_session sqlite_partial cs ledger_empty (session cs db).2 l /\
    sqlite_rel 0 (tables (session cs db).1) l.
Proof.
  destruct (session_faulty (S := Conn Tables) sqlite_partial (fun n c l => sqlite_refines n (tables c) l)
    (fun _ => sql_call_ok)) with cs db ledger_empty as (l & Hl & [HR _ _]).
  - intros n c s o Hc HR. by apply perform_faulty.
  - by apply robust_forall.
  - rewrite (open_in_memory_tables _ _ Hopen). by apply sqlite_empty.
  - by exists l.
Qed.

(** ** Dead letters *)

(** Dead-lettering on SQLite, whatever the engine calls do.  Success means
    the letter is recorded as handed over (its reason bounded) and the live row
    is gone; an error leaves the tables as they were, or with the letter
    recorded.  Nothing else ever changes, and a live row is never gone without
    its letter. *)
Lemma sqlite_dead_letter_outcomes (clk : Z) (e : OutboxEvent) (reason : str) (c : Conn Tables)
    (h : bytes) (Htopic : validate e = Ok tt) (Hh : encode_headers (ev_headers e) = Ok h) :
  match dead_letter clk e reason c with
  | (c', Ok _) => tables c' = closed_case clk e h reason (tables c)
  | (c', Err _) => tables c' = tables c \/ tables c' = lettered clk e h reason (tables c)
                   \/ tables c' = closed_case clk e h reason (tables c)
  end.
Proof.
  pose proof (dead_letter_outcomes clk e reason c h Htopic Hh) as Ho.
  destruct (dead_letter clk e reason c) as [c' [[]|err]]; [done|apply Ho].
Qed.

(** C40.  The letter and the removal are two autocommit statements: when the
    second fails, the caller is told the backend failed, yet the letter is
    recorded and the event is still fetched. *)
Lemma sqlite_dead_letter_not_atomic (e : OutboxEvent) (h : bytes) (clk now : Z) (reason m : str)
    (Hwf : wf_event e) (Htopic : validate e = Ok tt) (Hh : encode_headers (ev_headers e) = Ok h)
    (Hnow : in_u64 now) (Hdue : ev_created_at e <= now) (Hc : ev_created_at e < i64_max) :
  let db := mkConn (mkTables {[event_id_to_string (ev_id e) := new_row e h]} ∅) [Done; Done; Fails m] in
  let (db', r) := dead_letter clk e reason db in
  r = Err (Backend m) /\
  is_Some (outbox_dead_letters (tables db') !! event_id_to_string (ev_id e)) /\
  (fetch_due 1 now db').2 = Ok [e].
Proof.
  cbn zeta. unfold dead_letter, mbind at 1, mlift at 1. rewrite (proj2 (validated_ok e) Htopic).
  unfold mbind at 1, mlift at 1. rewrite Hh. cbn -[fetch_due new_row new_letter].
  split; [done|]. split; [by rewrite lookup_insert_eq; eexists|].
  unfold fetch_due, mbind at 1. rewrite query_done. unfold mbind at 1. rewrite query_done.
  erewrite read_rows_done; [done|].
  cbn [outbox_events tables with_letters]. unfold select. rewrite map_to_list_singleton. cbn [fmap list_fmap snd].
  rewrite filter_cons_True.
  - change (collect decode_row [new_row e h] = Ok [e]). cbn [collect].
    by rewrite decode_new_row.
  - pose proof (wf_created_at _ Hwf). unfold due_row. cbn. split; [done|].
    unfold PARKED_AS_I64. rewrite !clamp_i64_min. unfold_int. lia.
Qed.

(** ** Restarts *)

(** Reopening a database file finds every event and letter as it was left;
    a file from a version without dead letters gains an empty table and keeps
    its events. *)
Lemma sqlite_reopen_keeps (t : Tables) (evs : gmap str Row) :
  open (Ok (mkConn (file_of t) [])) = Ok (mkConn t []) /\
  open (Ok (mkConn (mkFile (Some evs) None) [])) = Ok (mkConn (mkTables evs ∅) []).
Proof. by destruct t. Qed.

(** ** Delivery is final *)

Definition delivered_for (i : EventId) (t t' : Tables) : Prop :=
  (keyed r_id (outbox_events t) -> keyed r_id (outbox_events t')) /\
  ((exists r, outbox_events t !! event_id_to_string i = Some r /\ r_dispatched_at r <> None) ->
   (exists r, outbox_events t' !! event_id_to_string i = Some r /\ r_dispatched_at r <> None)).

#[local] Instance delivered_for_preorder i : PreOrder (delivered_for i).
Proof. split; [by split|]. intros t1 t2 t3 [] []. split; eauto. Qed.

Lemma alter_delivered (f : Row -> Row) i k :
  (forall r, r_id (f r) = r_id r) ->
  (forall r, r_dispatched_at r <> None -> r_dispatched_at (f r) <> None) ->
  forall t, delivered_for i t (with_events (alter f k) t).
Proof.
  intros Hid Hd t. split; cbn; [by apply keyed_alter|]. intros (r & Hr & Hr').
  rewrite lookup_alter. case_decide as Hk; [subst k; rewrite Hr|]; eauto.
Qed.

Definition buries (i : EventId) (c : call) : Prop :=
  match c with CDeadLetter _ e _ => ev_id e = i | _ => False end.

Lemma perform_keeps i c s : ~ buries i c -> delivered_for i (tables s) (tables (perform c s).1).
Proof.
  assert (forall {A} (m : M (Conn Tables) StoreError A), keeps (delivered_for i) m ->
    delivered_for i (tables s) (tables (m s).1)) as Hkeep by (by intros A m Hm).
  intros Hc. destruct c as [e|n now|clk j|j m t| | |clk e reason|n]; apply Hkeep.
  - unfold Store.append, SqliteStore, append. keeps_steps.
    apply keeps_statement; [apply _|]. intros t t' k [= Ht]. revert Ht.
    unfold insert_or_ignore. destruct (outbox_events t !! _) as [r|] eqn:E; intros [= <- _]; [done|].
    split; cbn; [intros Hk; by apply keyed_insert|]. intros (r & Hr & Hd). exists r. split; [|done].
    rewrite lookup_insert_ne; [done|]. intros Heq. cbn in E. congruence.
  - apply fetch_due_keeps, _.
  - apply keeps_update; [apply _|]. apply alter_delivered; intros r; unfold set_dispatched; case_match; cbn; congruence.
  - apply keeps_statement; [apply _|]. intros t0 t' u. unfold update_failed.
    destruct (outbox_events t0 !! _); [|by intros [= <- _]].
    case_match; [|done]. intros [= <- _]. by apply alter_delivered.
  - unfold Store.pending_count, SqliteStore, pending_count. keeps_steps.
  - unfold Store.parked_count, SqliteStore, parked_count. keeps_steps.
  - unfold Store.dead_letter, SqliteStore, dead_letter. keeps_steps;
      (apply keeps_update; [apply _|]); [done|]. intros t. split; cbn; [apply keyed_delete|].
    intros (r & Hr & Hd). exists r. split; [|done].
    rewrite lookup_delete_ne; [done|]. by intros ?%(inj event_id_to_string).
  - unfold Store.dead_letters, SqliteStore, dead_letters. keeps_steps. apply read_rows_keeps, _.
Qed.

Lemma session_sqlite_inv i cs db : Forall (fun c => ~ buries i c) cs -> sql_inv db -> sql_inv (session cs db).1.
Proof. apply session_invariant. intros c s Hc Hs. by apply (perform_keeps i c s). Qed.

(** While the engine does not fail, a delivery is recorded for good. *)
Definition healthy_inv (c : Conn Tables) : Prop := sql_inv c /\ script c = [].

#[export] Instance SqliteStore_healthy_laws : OutboxLaws (Conn Tables) healthy_inv sql_live sql_delivered.
Proof.
  apply laws_within; [apply _|]. intros c [t s] Hs. cbn in Hs. subst s. apply perform_script.
Qed.

Lemma perform_final c s i : ~ buries i c -> sql_delivered s i -> sql_delivered (perform c s).1 i.
Proof. intros Hc. by apply (perform_keeps i c s). Qed.

#[export] Instance SqliteStore_final : OutboxFinal (Conn Tables) healthy_inv sql_live sql_delivered.
Proof.
  split.
  - intros s i _ (r & Hr & Hd) (r' & Hr' & Hd'). congruence.
  - intros [t sc] c i [_ Hs] (r & Hr & Hd). cbn in Hs, Hr. subst sc. unfold sql_delivered, delivered_in.
    cbn -[alter]. rewrite lookup_alter_eq, Hr. cbn. eexists. split; [done|]. unfold set_dispatched. by rewrite Hd.
  - intros s e i _. by apply (perform_final (CAppend e)); intros ?.
  - intros s n now i _. by apply (perform_final (CFetchDue n now)); intros ?.
  - intros s c j i _. by apply (perform_final (CMarkDispatched c j)); intros ?.
  - intros s j m at_ i _ _. by apply (perform_final (CMarkFailed j m at_)); intros ?.
  - intros s i _. by apply (perform_final CPendingCount); intros ?.
  - intros s c e r i _ Hne. apply (perform_final (CDeadLetter c e r)). cbn. congruence.
Qed.

(** C27.  Once an event is stamped dispatched, no session of trait calls ever
    fetches it again, whatever the engine does and whatever is appended or
    failed under its id.  Only [dead_letter], which removes the row and its
    stamp, is excepted. *)
Theorem sqlite_dispatched_terminal (cs : list call) (db : Conn Tables) (i : EventId)
    (Hinv : sql_inv db) (Hi : sql_delivered db i) (Hcs : Forall (fun c => ~ buries i c) cs)
    (l : list OutboxEvent) (e : OutboxEvent)
    (Hl : REvents (Ok l) ∈ (session cs db).2) (He : e ∈ l) :
  ev_id e <> i.
Proof.
  set (Q := fun r => forall l, r = REvents (Ok l) -> forall e, e ∈ l -> ev_id e <> i).
  assert (Forall Q (session cs db).2) as HQ; [|rewrite Forall_forall in HQ; by eapply HQ].
  apply (session_safe (fun s => sql_inv s /\ sql_delivered s i) (fun c => ~ buries i c)); [|done..].
  clear l e Hl He Hinv Hi. intros c s Hc [Hinv Hi]. split; [by split; apply (perform_keeps i c s)|].
  intros l Hl e He <-. destruct c as [?|n now|? ?|? ? ?| | |? ? ?|?]; cbn -[fetch_due] in Hl;
    try (repeat case_match; discriminate).
  injection Hl as Hl.
  destruct (fetch_due_live (inv := sql_inv) (live := sql_live) (delivered := sql_delivered)
    s n now l e) as (row & Hr & Hd); [done..|].
  destruct Hi as (row' & Hr' & Hd'). congruence.
Qed.

End SqliteProps.
