(* ===== verification/SqliteExamples.v ===== *)
(** * Concrete runs of the SQLite store

    The theorems of [SqliteProps.v] applied to small databases and scripts of
    engine failures. *)

From S2P Require Import Prelude Event Truncate Codec Backoff HexUuid Store Ledger Sql SqlTable Samples Sqlite SqliteSim SqliteProps.

Import Sqlite.

Lemma sqlite_refines_reference_witness :
  exists db, open_in_memory (Ok []) = Ok db /\ (session calls db).2 = (session calls ledger_empty).2 /\
    (session calls ledger_empty).2 = replies.
Proof.
  destruct (sqlite_refines_reference calls calls_ok ltac:(by vm_compute)) as (db & H1 & H2).
  exists db. split; [exact H1|]. split; [exact H2|vm_eq].
Defined.

(** Opening takes four engine calls; then the reply of the insert is lost, the
    failure is not recorded, and the removal after the letter is refused. *)
Definition bad_day : list outcome :=
  [Done; Done; Done; Done; Lost (lit "io"); Fails (lit "busy"); Done; Done; Done; Done;
   Done; Done; Done; Done; Fails (lit "full")].

Lemma sqlite_faulty_refines_witness :
  exists db l, open_in_memory (Ok bad_day) = Ok db /\
    (session calls db).2 = [RUnit (Err (Backend (lit "io"))); RUnit (Err (Backend (lit "busy")));
      REvents (Ok [ev1]); RUnit (Ok tt); RUnit (Ok tt); RUnit (Err (Backend (lit "full")));
      RLetters (Ok [(ev2, lit "poison")]); RCount (Ok 1)] /\
    faulty_session sqlite_partial calls ledger_empty (session calls db).2 l.
Proof.
  destruct (open_in_memory (Ok bad_day)) as [db|e] eqn:Hdb; [|discriminate (f_equal is_ok Hdb)].
  destruct (sqlite_faulty_refines calls bad_day db calls_ok ltac:(by vm_compute) Hdb) as (l & Hl & _).
  exists db, l. split; [done|]. split; [|exact Hl]. injection Hdb as <-. vm_eq.
Defined.

Definition sqlite_db (s : list outcome) : Conn Tables :=
  mkConn (tables (session [CAppend ev1; CAppend ev2; CMarkDispatched 0 (eid 1)]
    (mkConn (mkTables ∅ ∅) [])).1) s.

Lemma sqlite_dead_letter_outcomes_witness :
  match dead_letter 0 ev1 (lit "poison") (sqlite_db [Done; Fails (lit "disk full")]) with
  | (c', Ok _) => False
  | (c', Err e) => e = Backend (lit "disk full") /\
      (tables c' = tables (sqlite_db [])
       \/ tables c' = lettered 0 ev1 (headers_of ev1) (lit "poison") (tables (sqlite_db []))
       \/ tables c' = closed_case 0 ev1 (headers_of ev1) (lit "poison") (tables (sqlite_db [])))
  end.
Proof.
  pose proof (sqlite_dead_letter_outcomes 0 ev1 (lit "poison") (sqlite_db [Done; Fails (lit "disk full")])
    (headers_of ev1) ev1_topic ev1_headers) as H.
  assert ((dead_letter 0 ev1 (lit "poison") (sqlite_db [Done; Fails (lit "disk full")])).2
    = Err (Backend (lit "disk full"))) as E by vm_eq.
  destruct (dead_letter 0 ev1 (lit "poison") (sqlite_db [Done; Fails (lit "disk full")])) as [c' [[]|e]].
  - discriminate E.
  - split; [by injection E|exact H].
Defined.

Lemma sqlite_dead_letter_not_atomic_witness :
  let db := mkConn (mkTables {[event_id_to_string (eid 1) := new_row ev1 (headers_of ev1)]} ∅)
              [Done; Done; Fails (lit "locked")] in
  let (db', r) := dead_letter 0 ev1 (lit "poison") db in
  r = Err (Backend (lit "locked")) /\ (fetch_due 1 2000 db').2 = Ok [ev1].
Proof.
  cbv zeta.
  pose proof (sqlite_dead_letter_not_atomic ev1 (headers_of ev1) 0 2000 (lit "poison") (lit "locked")
    ev1_wf ev1_topic ev1_headers ltac:(by vm_compute) ltac:(by vm_compute) ltac:(by vm_compute)) as H.
  cbv zeta in H. change (event_id_to_string (ev_id ev1)) with (event_id_to_string (eid 1)) in H.
  destruct (dead_letter _ _ _ _) as [db' r]. split; [exact (proj1 H)|exact (proj2 (proj2 H))].
Defined.

Lemma sqlite_db_inv s : sql_inv (sqlite_db s).
Proof.
  apply (session_sqlite_inv (eid 0) [CAppend ev1; CAppend ev2; CMarkDispatched 0 (eid 1)]
    (mkConn (mkTables ∅ ∅) [])); [by repeat constructor; intros ?|].
  intros k r Hk. cbn in Hk. by apply lookup_empty_Some in Hk.
Qed.

Lemma sqlite_dispatched_terminal_witness :
  let cs := [CAppend ev1; CMarkFailed (eid 1) (lit "late") 0; CFetchDue 10 5000] in
  let db := sqlite_db [Fails (lit "busy")] in
  (session cs db).2 = [RUnit (Err (Backend (lit "busy"))); RUnit (Ok tt); REvents (Ok [ev2])] /\
  ev_id ev2 <> eid 1.
Proof.
  cbv zeta.
  assert ((session [CAppend ev1; CMarkFailed (eid 1) (lit "late") 0; CFetchDue 10 5000]
      (sqlite_db [Fails (lit "busy")])).2
    = [RUnit (Err (Backend (lit "busy"))); RUnit (Ok tt); REvents (Ok [ev2])]) as H by vm_eq.
  split; [exact H|].
  apply (sqlite_dispatched_terminal [CAppend ev1; CMarkFailed (eid 1) (lit "late") 0; CFetchDue 10 5000]
    (sqlite_db [Fails (lit "busy")]) (eid 1) (sqlite_db_inv _)) with (l := [ev2]).
  - exists (set_dispatched 0 (new_row ev1 (headers_of ev1))). split; [vm_eq|by vm_compute].
  - repeat constructor; by intros ?.
  - rewrite H. do 2 right. left.
  - left.
Defined.
