(* ===== verification/Postgres.v ===== *)
(** * The Postgres store

    [src/src/postgres/mod.rs] with [src/src/postgres/schema.sql].  Every
    statement is one engine call; [fetch_due] and [dead_letter] are
    transactions.  [locked] are the rows other sessions hold a lock on, which
    [FOR UPDATE SKIP LOCKED] leaves out; [PgClaims.v] lets several sessions
    take and release such locks. *)

From S2P Require Import Prelude BTree Utf8 Event Truncate Codec Backoff Store Sql SqlTable.

Module Postgres.
Section Postgres.
Context `{UO : UuidOps} `{SE : SqlEngine}.

(** ** Schema *)

(** [CHECK (status IN ('pending', 'parked', 'dispatched'))] *)
Inductive Status := Pending | Parked | Dispatched.
#[export] Instance Status_eq_dec : EqDecision Status.
Proof. solve_decision. Defined.

Record Row := mkRow {
  r_id : str;
  r_topic : str;
  r_payload : bytes;
  r_headers : bytes;
  r_created_at : Z;
  r_attempts : Z;
  r_status : Status;
  r_next_attempt_at : Z;
  r_last_error : option str;
  r_dispatched_at : option Z
}.

Record Tables := mkTables {
  outbox_events : gmap str Row;
  outbox_dead_letters : gmap str Letter;
  locked : gset str
}.

Definition with_events (f : gmap str Row -> gmap str Row) (t : Tables) : Tables :=
  mkTables (f (outbox_events t)) (outbox_dead_letters t) (locked t).
Definition with_letters (f : gmap str Letter -> gmap str Letter) (t : Tables) : Tables :=
  mkTables (outbox_events t) (f (outbox_dead_letters t)) (locked t).

(** A database before the schema batch: a table may be missing. *)
Record Database := mkDatabase {
  db_events : option (gmap str Row);
  db_letters : option (gmap str Letter)
}.

(** [schema.sql], applied as one batch. *)
Definition apply_schema (d : Database) : Tables :=
  mkTables (default ∅ (db_events d)) (default ∅ (db_letters d)) ∅.

(** [with_pool], which [connect] ends in. *)
Definition with_pool (pool : Conn Database) : result (Conn Tables) StoreError :=
  match query apply_schema pool with
  | (c', Ok t) => Ok (mkConn t (script c'))
  | (_, Err e) => Err e
  end.

Definition connect (connected : result (Conn Database) str) : result (Conn Tables) StoreError :=
  pool <-? map_err Backend connected;
  with_pool pool.

(** ** Statements *)

(** A [TEXT] parameter with a zero byte is refused by the server. *)
Definition text_ok (s : str) : bool := forallb (fun b => negb (b =? 0)) s.
Definition texts_ok (ss : list str) : bool := forallb text_ok ss.

(** A statement with its text parameters. *)
Definition with_texts {A} (ss : list str) (f : Tables -> result (Tables * A) str)
    (t : Tables) : result (Tables * A) str :=
  if texts_ok ss then f t else Err nul_in_text.

Definition insert_or_nothing (row : Row) (t : Tables) : Tables :=
  match outbox_events t !! r_id row with
  | Some _ => t
  | None => with_events (insert (r_id row) row) t
  end.

(** [FETCH_DUE_SQL]: the predicate, and what [SKIP LOCKED] leaves. *)
Definition due_row (now : Z) (others : gset str) (r : Row) : Prop :=
  r_status r = Pending /\ r_next_attempt_at r <= now /\ r_id r ∉ others.
#[export] Instance due_row_dec now others r : Decision (due_row now others r).
Proof. unfold due_row. apply _. Defined.

Definition row_order (r : Row) : Z * str := (r_next_attempt_at r, r_id r).

Definition fetch_due_rows (now limit : Z) (t : Tables) : list Row :=
  select (due_row now (locked t)) row_order limit (outbox_events t).

(** [SET status = 'dispatched', dispatched_at = $1 WHERE ... status <> 'dispatched'] *)
Definition set_dispatched (stamp : Z) (r : Row) : Row :=
  match r_status r with
  | Dispatched => r
  | _ => mkRow (r_id r) (r_topic r) (r_payload r) (r_headers r) (r_created_at r)
           (r_attempts r) Dispatched (r_next_attempt_at r) (r_last_error r) (Some stamp)
  end.

(** [SET attempts = attempts + 1, last_error = $2, next_attempt_at = $3,
    status = CASE WHEN $3 >= $4 THEN 'parked' ELSE 'pending' END] *)
Definition set_failed (error : str) (retry_at : Z) (r : Row) : Row :=
  mkRow (r_id r) (r_topic r) (r_payload r) (r_headers r) (r_created_at r)
    (r_attempts r + 1) (if PARKED_AS_I64 <=? retry_at then Parked else Pending)
    retry_at (Some error) (r_dispatched_at r).

(** The sum must stay in the 32-bit [INTEGER] column. *)
Definition update_failed (i error : str) (retry_at : Z) (t : Tables) : result (Tables * unit) str :=
  match outbox_events t !! i with
  | Some r => if r_attempts r + 1 <=? i32_max
              then Ok (with_events (alter (set_failed error retry_at) i) t, tt)
              else Err out_of_range
  | None => Ok (t, tt)
  end.

(** ** Rows to events *)

Definition event_of_row (r : Row) : result OutboxEvent StoreError :=
  event_from_row (r_id r) (r_topic r) (r_payload r) (r_headers r) (r_created_at r)
    (r_attempts r) (r_last_error r).

Definition decode_letter (l : Letter) : result (OutboxEvent * str) StoreError :=
  e <-? event_from_row (l_id l) (l_topic l) (l_payload l) (l_headers l) (l_created_at l)
          (l_attempts l) (l_last_error l);
  Ok (e, l_reason l).

(** ** The store *)

Definition new_row (e : OutboxEvent) (headers : bytes) : Row :=
  mkRow (event_id_to_string (ev_id e)) (ev_topic e) (ev_payload e) headers
    (clamp_i64 (ev_created_at e)) (i32_try_from_or_max (ev_attempts e)) Pending
    (clamp_i64 (ev_created_at e)) (ev_last_error e) None.

Definition opt_text (o : option str) : list str :=
  match o with Some s => [s] | None => [] end.

Definition append (event : OutboxEvent) : M (Conn Tables) StoreError unit :=
  _ <-- mlift (validated event);
  headers <-- mlift (encode_headers (ev_headers event));
  statement (with_texts ([event_id_to_string (ev_id event); ev_topic event] ++ opt_text (ev_last_error event))
    (fun t => Ok (insert_or_nothing (new_row event headers) t, tt))).

Definition fetch_due (limit now_ms : Z) : M (Conn Tables) StoreError (list OutboxEvent) :=
  let limit := i64_try_from_or_max limit in
  rows <-- transaction (query (fetch_due_rows (clamp_i64 now_ms) limit));
  mlift (collect event_of_row rows).

Definition mark_dispatched (clock : Z) (i : EventId) : M (Conn Tables) StoreError unit :=
  statement (with_texts [event_id_to_string i] (fun t =>
    Ok (with_events (alter (set_dispatched (clamp_i64 (now_millis clock))) (event_id_to_string i)) t, tt))).

Definition mark_failed (i : EventId) (error : str) (retry_at_ms : Z)
    : M (Conn Tables) StoreError unit :=
  let error := truncate_error error in
  let retry_at := clamp_i64 retry_at_ms in
  statement (with_texts [event_id_to_string i; error]
    (update_failed (event_id_to_string i) error retry_at)).

Definition pending_count : M (Conn Tables) StoreError Z :=
  count <-- query (fun t => count_where (fun r => r_status r = Pending) (outbox_events t));
  mret (unclamp_u64 count).

Definition parked_count : M (Conn Tables) StoreError Z :=
  count <-- query (fun t => count_where (fun r => r_status r = Parked) (outbox_events t));
  mret (unclamp_u64 count).

Definition new_letter (e : OutboxEvent) (headers : bytes) (reason : str) (stamp : Z) : Letter :=
  mkLetter (event_id_to_string (ev_id e)) (ev_topic e) (ev_payload e) headers
    (clamp_i64 (ev_created_at e)) (i32_try_from_or_max (ev_attempts e)) (ev_last_error e) reason stamp.

Definition upsert_letter (l : Letter) (t : Tables) : result (Tables * unit) str :=
  with_texts ([l_id l; l_topic l; l_reason l] ++ opt_text (l_last_error l))
    (fun t => Ok (with_letters (insert (l_id l) l) t, tt)) t.

Definition dead_letter (clock : Z) (event : OutboxEvent) (reason : str)
    : M (Conn Tables) StoreError unit :=
  _ <-- mlift (validated event);
  headers <-- mlift (encode_headers (ev_headers event));
  let reason := truncate_reason reason in
  transaction (
    _ <-- statement (upsert_letter (new_letter event headers reason (clamp_i64 (now_millis clock))));
    statement (with_texts [event_id_to_string (ev_id event)] (fun t =>
      Ok (with_events (delete (event_id_to_string (ev_id event))) t, tt)))).

Definition dead_letters (limit : Z) : M (Conn Tables) StoreError (list (OutboxEvent * str)) :=
  rows <-- query (fun t =>
    select (fun _ => True) letter_key (i64_try_from_or_max limit) (outbox_dead_letters t));
  mlift (collect decode_letter rows).

#[export] Instance PostgresStore : OutboxStore (Conn Tables) := {|
  Store.append := append;
  Store.fetch_due := fetch_due;
  Store.mark_dispatched := mark_dispatched;
  Store.mark_failed := mark_failed;
  Store.pending_count := pending_count;
  Store.parked_count := parked_count;
  Store.dead_letter := dead_letter;
  Store.dead_letters := dead_letters
|}.

(** ** What the dispatcher relies on *)

Definition sql_inv (c : Conn Tables) : Prop := keyed r_id (outbox_events (tables c)).
Definition live_in (t : Tables) (i : EventId) : Prop :=
  exists r, outbox_events t !! event_id_to_string i = Some r /\ r_status r <> Dispatched.
Definition sql_live (c : Conn Tables) (i : EventId) : Prop := live_in (tables c) i.
Definition delivered_in (t : Tables) (i : EventId) : Prop :=
  exists r, outbox_events t !! event_id_to_string i = Some r /\ r_status r = Dispatched.
Definition sql_delivered (c : Conn Tables) (i : EventId) : Prop := delivered_in (tables c) i.

(** The key column stays the key, and every event but [i] stays live
    and is delivered only if it was. *)
Definition safe_for (i : option EventId) (t t' : Tables) : Prop :=
  (keyed r_id (outbox_events t) -> keyed r_id (outbox_events t')) /\
  (forall j, i <> Some j -> live_in t j -> live_in t' j) /\
  (forall j, i <> Some j -> delivered_in t' j -> delivered_in t j).

#[export] Instance safe_for_preorder i : PreOrder (safe_for i).
Proof. split; [by split|]. intros t1 t2 t3 (H1 & H1' & H1'') (H2 & H2' & H2''). split_and!; eauto. Qed.

Lemma pg_safe_for_inv {A} i (m : M (Conn Tables) StoreError A) c :
  keeps (safe_for i) m -> sql_inv c -> sql_inv (m c).1.
Proof. intros Hm. apply Hm. Qed.
Lemma pg_safe_for_delivered {A} i (m : M (Conn Tables) StoreError A) c j :
  keeps (safe_for i) m -> i <> Some j -> sql_delivered (m c).1 j -> sql_delivered c j.
Proof. intros Hm Hj. by apply Hm. Qed.
Lemma pg_safe_for_live {A} i (m : M (Conn Tables) StoreError A) c j :
  keeps (safe_for i) m -> i <> Some j -> sql_live c j -> sql_live (m c).1 j.
Proof. intros Hm Hj. by apply Hm. Qed.

Lemma with_texts_ok {A} ss (f : Tables -> result (Tables * A) str) t p :
  with_texts ss f t = Ok p -> f t = Ok p.
Proof. unfold with_texts. by destruct (texts_ok ss). Qed.

Context `{UL : !UuidLaws}.

(** It is enough to look at one row at a time. *)
Lemma pg_safe_for_rows i t t' :
  (keyed r_id (outbox_events t) -> keyed r_id (outbox_events t')) ->
  (forall j, i <> Some j ->
     match outbox_events t !! event_id_to_string j, outbox_events t' !! event_id_to_string j with
     | Some r, Some r' => (r_status r = Dispatched) <-> (r_status r' = Dispatched)
     | None, Some r' => ~ (r_status r' = Dispatched)
     | None, None => True
     | Some _, None => False
     end) ->
  safe_for i t t'.
Proof.
  intros Hk Hrows. split; [done|]. split; intros j Hj (r & Hr & Hd); specialize (Hrows j Hj);
    rewrite Hr in Hrows; unfold live_in, delivered_in; case_match; try done; eexists; (split; [done|]); tauto.
Qed.

Lemma pg_insert_safe r i :
  r_id r = event_id_to_string i -> ~ (r_status r = Dispatched) ->
  forall t, outbox_events t !! r_id r = None -> safe_for None t (with_events (insert (r_id r) r) t).
Proof.
  intros Hid Hr t Hn. apply pg_safe_for_rows; cbn; [rewrite Hid; intros Hk; by apply keyed_insert|].
  intros j _. rewrite lookup_insert. case_decide as Hj; [by rewrite <- Hj, Hn|].
  by destruct (outbox_events t !! event_id_to_string j).
Qed.

Lemma pg_elsewhere_safe (g : gmap str Row -> gmap str Row) i :
  (forall m, keyed r_id m -> keyed r_id (g m)) ->
  (forall m k, event_id_to_string i <> k -> g m !! k = m !! k) ->
  forall t, safe_for (Some i) t (with_events g t).
Proof.
  intros Hk Hg t. apply pg_safe_for_rows; cbn; [apply Hk|]. intros j Hj.
  rewrite Hg by (intros ?%(inj event_id_to_string); congruence).
  by destruct (outbox_events t !! event_id_to_string j).
Qed.

Lemma pg_append_safe e : keeps (safe_for None) (append e).
Proof.
  unfold append. keeps_steps.
  apply keeps_statement; [apply _|]. intros t t' [] Ht%with_texts_ok. injection Ht as <-.
  unfold insert_or_nothing. destruct (outbox_events t !! _) as [r|] eqn:E; [done|].
  by refine (pg_insert_safe (new_row e _) (ev_id e) _ _ t _).
Qed.

Lemma pg_fetch_due_keeps P `{!PreOrder P} limit now : keeps P (fetch_due limit now).
Proof.
  unfold fetch_due. keeps_steps. apply keeps_transaction; auto with outbox typeclass_instances.
Qed.

(** A reported failure may revive a delivered row; it never ends a live one. *)
Lemma mark_failed_keeps_rows i m at_ t t' u :
  update_failed i m at_ t = Ok (t', u) ->
  (keyed r_id (outbox_events t) -> keyed r_id (outbox_events t')) /\
  (forall j, live_in t j -> live_in t' j) /\ (forall j, delivered_in t' j -> delivered_in t j).
Proof.
  unfold update_failed. destruct (outbox_events t !! _) as [r|] eqn:E; [|by intros [= <- _]].
  case_match; [|done]. intros [= <- _]. unfold live_in, delivered_in; cbn.
  split; [by apply keyed_alter|]. split; intros j; rewrite lookup_alter; case_decide as Hk; try done.
  - intros _. rewrite E. eexists. split; [done|]. cbn. by case_match.
  - intros (r' & (r0 & _ & ->)%fmap_Some & Hd). cbn in Hd. by case_match.
Qed.

Lemma pg_mark_failed_safe i m at_ : keeps (safe_for None) (mark_failed i m at_).
Proof.
  apply keeps_statement; [apply _|]. intros t t' u Ht%with_texts_ok.
  apply mark_failed_keeps_rows in Ht as (H1 & H2 & H3). split; [done|]. split; auto.
Qed.

Lemma pg_mark_dispatched_safe clock i : keeps (safe_for (Some i)) (mark_dispatched clock i).
Proof.
  apply keeps_statement; [apply _|]. intros t t' u Ht%with_texts_ok. injection Ht as <- _.
  apply pg_elsewhere_safe.
  - intros m. apply keyed_alter. intros r. unfold set_dispatched. by case_match.
  - intros m k Hk. by apply lookup_alter_ne.
Qed.

Lemma pg_dead_letter_safe clock e reason : keeps (safe_for (Some (ev_id e))) (dead_letter clock e reason).
Proof.
  unfold dead_letter. keeps_steps. apply keeps_transaction; [apply _|]. keeps_steps;
    (apply keeps_statement; [apply _|]); intros t t' u Ht%with_texts_ok; injection Ht as <- _; [done|].
  apply pg_elsewhere_safe; [intros m; apply keyed_delete|intros m k Hk; by apply lookup_delete_ne].
Qed.

Lemma pg_dead_letter_delivered_self clock e reason c :
  sql_delivered (dead_letter clock e reason c).1 (ev_id e) -> sql_delivered c (ev_id e).
Proof.
  assert (keeps (fun t t' => delivered_in t' (ev_id e) -> delivered_in t (ev_id e))
    (dead_letter clock e reason)) as Hk; [|apply Hk].
  assert (PreOrder (fun t t' => delivered_in t' (ev_id e) -> delivered_in t (ev_id e)))
    by (split; [by intros ?|intros t1 t2 t3; tauto]).
  unfold dead_letter. keeps_steps. apply keeps_transaction; [done|]. keeps_steps;
    (apply keeps_statement; [done|]); intros t t' u Ht%with_texts_ok; injection Ht as <- _; [done|].
  intros (r & Hr & _). cbn in Hr. by rewrite lookup_delete_eq in Hr.
Qed.

Lemma pg_pending_count_safe : keeps (safe_for None) pending_count.
Proof. unfold pending_count. keeps_steps. Qed.

Lemma pg_append_recorded e c :
  (append e c).2 = Ok tt -> sql_live (append e c).1 (ev_id e) \/ sql_delivered c (ev_id e).
Proof.
  unfold append. intros ([] & _ & H & ->)%mbind_ok.
  apply mbind_ok in H as (h & _ & H & ->).
  apply statement_ok, with_texts_ok in H. cbn [mlift fst snd] in *. unfold sql_live, sql_delivered.
  revert H. match goal with |- context [tables (statement ?f c).1] => generalize (tables (statement f c).1) end.
  intros t' H. injection H as <-. unfold insert_or_nothing. cbn [r_id new_row].
  destruct (outbox_events (tables c) !! event_id_to_string (ev_id e)) as [r|] eqn:E.
  - destruct (decide (r_status r = Dispatched)); [right|left]; by exists r.
  - left. eexists. cbn. by rewrite lookup_insert_eq.
Qed.

Lemma transaction_query_ok {A} (f : Tables -> A) c a :
  (transaction (query f) c).2 = Ok a -> a = f (tables c).
Proof.
  unfold transaction. pose proof (keeps_query eq (fun _ : Tables => tt) c) as Hq.
  destruct (query (fun _ => tt) c) as [c1 [[]|err]]; cbn in Hq; [|done].
  destruct (query f c1) as [c2 [a'|err]] eqn:E; [|done].
  pose proof (query_ok f c1 a') as H. rewrite E in H. destruct (H eq_refl) as [-> _].
  destruct (next_outcome (script c2)) as [[|m|m] s]; cbn; intros [= <-]. by rewrite Hq.
Qed.

Lemma pg_fetch_due_rows_of limit now c l :
  (fetch_due limit now c).2 = Ok l ->
  collect event_of_row (fetch_due_rows (clamp_i64 now) (i64_try_from_or_max limit) (tables c)) = Ok l.
Proof.
  unfold fetch_due. intros (rows & Hr & H & _)%mbind_ok. by apply transaction_query_ok in Hr as ->.
Qed.

Lemma pg_fetch_due_returns limit now c l e :
  (fetch_due limit now c).2 = Ok l -> e ∈ l ->
  exists r, r ∈ fetch_due_rows (clamp_i64 now) (i64_try_from_or_max limit) (tables c)
    /\ event_of_row r = Ok e.
Proof. intros Hc%pg_fetch_due_rows_of He. by eapply collect_elem. Qed.

#[export] Instance PostgresStore_laws : OutboxLaws (Conn Tables) sql_inv sql_live sql_delivered.
Proof.
  split; cbn [Store.append Store.fetch_due Store.mark_dispatched Store.mark_failed
    Store.pending_count Store.dead_letter PostgresStore].
  - intros s e. apply (pg_safe_for_inv None), pg_append_safe.
  - intros s n now. apply (pg_safe_for_inv None), pg_fetch_due_keeps, _.
  - intros s c i. apply (pg_safe_for_inv (Some i)), pg_mark_dispatched_safe.
  - intros s i m t. apply (pg_safe_for_inv None), pg_mark_failed_safe.
  - intros s. apply (pg_safe_for_inv None), pg_pending_count_safe.
  - intros s c e r. eapply pg_safe_for_inv, pg_dead_letter_safe.
  - intros s e _. apply pg_append_recorded.
  - intros s e i _. apply (pg_safe_for_live None); [apply pg_append_safe|done].
  - intros s n now i _. apply (pg_safe_for_live None); [apply pg_fetch_due_keeps, _|done].
  - intros s n now l e Hs Hl He. destruct (pg_fetch_due_returns _ _ _ _ _ Hl He) as (r & Hr & Hd).
    apply elem_of_select in Hr as [(Hp & _) [k Hk]]. destruct (Hs _ _ Hk) as [Hid [i ->]].
    unfold event_of_row in Hd. rewrite Hid in Hd. apply event_from_row_id in Hd as ->.
    exists r. split; [done|]. by rewrite Hp.
  - intros s i _. apply (pg_safe_for_live None); [apply pg_pending_count_safe|done].
  - intros s j m t i _. apply (pg_safe_for_live None); [apply pg_mark_failed_safe|done].
  - intros s n now l Hs Hl. apply pg_fetch_due_rows_of in Hl.
    eapply (collect_NoDup r_id event_of_row); [| | |exact Hl]; [|intros r Hr|by apply select_NoDup].
    + intros r e i Hd Hid. unfold event_of_row in Hd. rewrite Hid in Hd. by apply event_from_row_id in Hd.
    + apply elem_of_select in Hr as [_ [k Hk]]. destruct (Hs _ _ Hk) as [Hid [i ->]]. by exists i.
  - intros s e i _. apply (pg_safe_for_delivered None); [apply pg_append_safe|done].
  - intros s n now i _. apply (pg_safe_for_delivered None); [apply pg_fetch_due_keeps, _|done].
  - intros s i _. apply (pg_safe_for_delivered None); [apply pg_pending_count_safe|done].
  - intros s j m t i _. apply (pg_safe_for_delivered None); [apply pg_mark_failed_safe|done].
  - intros s c e r i _ Hd. destruct (decide (i = ev_id e)) as [->|Hne].
    + by apply pg_dead_letter_delivered_self in Hd.
    + revert Hd. eapply pg_safe_for_delivered; [apply pg_dead_letter_safe|congruence].
  - intros s c j i _ Hd. destruct (decide (i = j)) as [->|Hne]; [by right|left].
    revert Hd. apply (pg_safe_for_delivered (Some j)); [apply pg_mark_dispatched_safe|congruence].
  - intros s c j i _ Hne. apply (pg_safe_for_live (Some j)); [apply pg_mark_dispatched_safe|congruence].
  - intros s c e r i _ Hne. eapply pg_safe_for_live; [apply pg_dead_letter_safe|congruence].
Qed.

End Postgres.
End Postgres.
