(* ===== verification/PostgresSim.v ===== *)
(** * The Postgres store against the ledger

    The simulation relation between the tables and the ledger, for one client
    (no row is locked by anyone else), call by call: on a healthy server every
    call does what the ledger does; on any other it gives one of the ledger's
    [answers] under faults, and nothing may stop halfway. *)

From S2P Require Import Prelude BTree Utf8 Event Truncate Codec Backoff Store Ledger Sql SqlTable SqlLedger HexUuid Postgres.

Import Postgres.

Section PostgresSim.
Context `{UO : UuidOps} `{UL : !UuidLaws} `{SE : SqlEngine}.

(** ** Text parameters *)

Lemma id_text_ok i : text_ok (event_id_to_string i) = true.
Proof.
  unfold text_ok, event_id_to_string. apply forallb_forall. intros b Hb.
  pose proof (hyphenated_ascii (as_uuid i)) as Ha. rewrite Forall_forall in Ha.
  specialize (Ha b (proj2 (list_elem_of_In _ _) Hb)). cbn in Ha. lia.
Qed.

Lemma topic_text_ok e : validated e = Ok tt -> text_ok (ev_topic e) = true.
Proof.
  intros Hv%validated_ok. unfold validate, validate_topic in Hv.
  destruct (_ && forallb topic_byte (ev_topic e)) eqn:E; [|done].
  apply andb_prop in E as [_ E]. unfold text_ok. rewrite forallb_forall in E |- *.
  intros b Hb. specialize (E b Hb). unfold topic_byte in E. lia.
Qed.

Lemma opt_texts_ok o : (forall m, o = Some m -> text_ok m = true) -> texts_ok (opt_text o) = true.
Proof. destruct o as [m|]; intros H; [|done]. cbn. by rewrite (H m). Qed.

Lemma texts_ok_app ss ts : texts_ok (ss ++ ts) = texts_ok ss && texts_ok ts.
Proof. apply forallb_app. Qed.

(** ** Rows and events *)

Lemma pg_decode_new_row e h :
  wf_event e -> ev_created_at e < i64_max -> ev_attempts e <= i32_max ->
  encode_headers (ev_headers e) = Ok h -> event_of_row (new_row e h) = Ok e.
Proof.
  intros Hwf Hc Ha He. apply event_from_row_event; try done.
  pose proof (wf_attempts _ Hwf). cbn. int_lia.
Qed.

Lemma pg_decode_set_failed m t r e :
  0 <= r_attempts r -> r_attempts r < i32_max -> event_of_row r = Ok e ->
  event_of_row (set_failed (truncate_error m) t r) = Ok (record_failure m e).
Proof.
  intros Ha Hb. unfold event_of_row, event_from_row, set_failed. cbn -[decode_headers u32_try_from_or_max].
  intros (j & -> & H)%rbind_ok_inv. apply rbind_ok_inv in H as (h & -> & [= <-]).
  cbn [rbind]. unfold record_failure. cbn. do 2 f_equal. int_lia.
Qed.

(** ** Letters *)

(** The effect of a completed dead-lettering. *)
Definition lettered (clk : Z) (e : OutboxEvent) (h : bytes) (reason : str) (t : Tables) : Tables :=
  with_events (delete (event_id_to_string (ev_id e)))
    (with_letters (insert (event_id_to_string (ev_id e))
      (new_letter e h (truncate_reason reason) (clamp_i64 (now_millis clk)))) t).

Lemma pg_decode_new_letter e h reason at_ :
  storable e -> ev_attempts e <= i32_max -> encode_headers (ev_headers e) = Ok h ->
  letter_row decode_letter (ev_id e) (new_letter e h reason at_) (at_, (e, reason)).
Proof.
  intros (Hwf & Hc & _) Ha Hh. split_and!; [done|done|].
  pose proof (pg_decode_new_row e h Hwf Hc Ha Hh) as Hd. unfold event_of_row in Hd.
  cbn -[event_from_row] in Hd. unfold decode_letter. cbn -[event_from_row]. by rewrite Hd.
Qed.

(** ** The simulation relation *)

Definition open_row (r : Row) (t : Z) (e : OutboxEvent) : Prop :=
  r_status r = (if decide (t = NEVER) then Parked else Pending) /\
  event_of_row r = Ok e /\ r_next_attempt_at r = clamp_i64 t /\ stamp t /\ 0 <= r_attempts r.
Definition closed_row (r : Row) : Prop := r_status r = Dispatched.

Record postgres_rel (n : nat) (t : Tables) (l : Ledger) : Prop := {
  pr_rows : table_rel r_id open_row closed_row (outbox_events t) (outbox l);
  pr_letters : letters_rel decode_letter (outbox_dead_letters t) (letters l);
  pr_locked : locked t = ∅;
  pr_attempts : forall k r, outbox_events t !! k = Some r -> r_attempts r + Z.of_nat n <= i32_max
}.

(** [n] calls are left: no failure count can overflow before the end. *)
Record postgres_refines (n : nat) (t : Tables) (l : Ledger) : Prop := {
  pr_rel : postgres_rel n t l;
  pr_size : Z.of_nat (ledger_size l) + Z.of_nat n <= i64_max;
  pr_calls : Z.of_nat n <= 1000000000
}.

(** What a call must satisfy to be answered as the contract says: beyond
    [sql_call_ok], no zero bytes in texts, failure counts that leave room in 32
    bits, and no failure reported for a delivered event.  [PgLedger.v] lifts the
    last, and under faults the first. *)
Definition pg_call_ok (l : Ledger) (c : call) : Prop :=
  sql_call_ok c /\
  match c with
  | CAppend e => ev_attempts e <= 1000000000 /\ forall m, ev_last_error e = Some m -> text_ok m = true
  | CMarkFailed i m _ => i ∉ delivered_ids (outbox l) /\ text_ok (truncate_error m) = true
  | CDeadLetter _ e r => ev_attempts e <= i32_max /\ text_ok (truncate_reason r) = true /\
      forall m, ev_last_error e = Some m -> text_ok m = true
  | _ => True
  end.

Lemma postgres_rel_same n t l : postgres_rel (S n) t l -> postgres_rel n t l.
Proof. intros [Hr Hl Hk Ha]. split; try done. intros k r Hkr. specialize (Ha k r Hkr). lia. Qed.

Lemma postgres_empty n : Z.of_nat n <= 1000000000 -> postgres_refines n (mkTables ∅ ∅ ∅) ledger_empty.
Proof.
  intros Hn. split; [|rewrite ledger_size_empty; unfold_int; lia|done].
  split; cbn; [apply table_rel_empty|apply letters_rel_empty|done|].
  intros k r Hk. by apply lookup_empty_Some in Hk.
Qed.

Lemma pg_due_row_open now r t e :
  in_u64 now -> open_row r t e -> due_row (clamp_i64 now) ∅ r <-> t <= now /\ t <> NEVER.
Proof.
  intros Hn (Hst & _ & Ht & Hs & _). unfold due_row. rewrite Hst, Ht, <- (clamp_due t now) by done.
  destruct (clamp_stamp _ Hs) as (_ & H1 & H2). unfold PARKED_AS_I64.
  destruct (decide (t = NEVER)) as [->|Hne].
  - rewrite H2 by done. split; [by intros [? _]|lia].
  - destruct (H1 Hne) as [-> ?]. split; [intros (_ & ? & _); lia|]. intros [? ?].
    split; [done|]. split; [done|]. set_solver.
Qed.

(** *** The writes *)

Lemma pg_insert_rel n t l e h :
  storable e -> ev_attempts e <= 1000000000 -> encode_headers (ev_headers e) = Ok h ->
  Z.of_nat n < 1000000000 -> postgres_rel (S n) t l ->
  postgres_rel n (insert_or_nothing (new_row e h) t) (with_outbox (ref_append e) l).
Proof.
  intros (Hwf & Hc & _) Hatt Hh Hn [Hr Hl Hlk Ha].
  pose proof (table_rel_known _ _ _ _ _ (ev_id e) Hr) as Hknown.
  unfold insert_or_nothing, ref_append, with_outbox. cbn [r_id new_row].
  destruct (outbox_events t !! event_id_to_string (ev_id e)) as [r|] eqn:E.
  - replace (_ || _) with true; [apply postgres_rel_same; by destruct l|]. symmetry.
    rewrite orb_true_iff, !bool_decide_eq_true, elem_of_dom. by apply Hknown.
  - assert (~ known (outbox l) (ev_id e)) as Hk by (rewrite Hknown; by intros [? ?]).
    rewrite !bool_decide_eq_false_2 by (unfold known in Hk; rewrite ?elem_of_dom; tauto).
    pose proof (wf_attempts _ Hwf). pose proof (wf_created_at _ Hwf). split; cbn; [|done..|].
    + apply table_rel_insert; [done..| |done]. split_and!; [|apply pg_decode_new_row|..]; try done.
      * by rewrite decide_False by (unfold NEVER; unfold_int; lia).
      * unfold_int; lia.
      * left. unfold_int. lia.
      * cbn. int_lia.
    + intros k r Hkr. apply lookup_insert_Some in Hkr as [[_ <-]|[_ Hkr]].
      * cbn. int_lia.
      * specialize (Ha k r Hkr). lia.
Qed.

Lemma pg_alter_attempts (f : Row -> Row) (d b : Z) (k : str) (m : gmap str Row) :
  (forall r, r_attempts (f r) <= r_attempts r + d) -> 0 <= d ->
  (forall k r, m !! k = Some r -> r_attempts r + d <= b) ->
  forall k' r, alter f k m !! k' = Some r -> r_attempts r <= b.
Proof.
  intros Hf Hd Hm k' r Hr. rewrite lookup_alter in Hr. case_decide; [|specialize (Hm _ _ Hr); lia].
  apply fmap_Some in Hr as (r' & Hr & ->). specialize (Hm _ _ Hr). specialize (Hf r'). lia.
Qed.

Lemma pg_alter_rel n t l (f : Row -> Row) i g :
  (forall r, r_attempts (f r) <= r_attempts r + 1) ->
  table_rel r_id open_row closed_row (alter f (event_id_to_string i) (outbox_events t)) (g (outbox l)) ->
  postgres_rel (S n) t l ->
  postgres_rel n (with_events (alter f (event_id_to_string i)) t) (with_outbox g l).
Proof.
  intros Hf Hr [_ Hl Hlk Ha]. split; cbn; [done..|]. intros k r Hk.
  enough (r_attempts r <= i32_max - Z.of_nat n) by lia.
  eapply (pg_alter_attempts f 1); [done|lia| |exact Hk]. intros k' r' Hk'. specialize (Ha _ _ Hk'). lia.
Qed.

Lemma pg_dispatch_rel n t l at_ i :
  postgres_rel (S n) t l ->
  postgres_rel n (with_events (alter (set_dispatched at_) (event_id_to_string i)) t)
    (with_outbox (deliver i) l).
Proof.
  intros HR. apply pg_alter_rel; [| |done].
  { intros r. unfold set_dispatched. case_match; cbn; lia. }
  apply table_rel_dispatch; [apply HR|..].
  - intros r. unfold set_dispatched. by case_match.
  - intros r t' e _ _. unfold set_dispatched, closed_row. by destruct (r_status r) eqn:?.
  - intros r _ Hd. unfold set_dispatched, closed_row in *. by rewrite Hd.
Qed.

Lemma open_set_failed m at_ r e :
  stamp at_ -> 0 <= r_attempts r -> r_attempts r < i32_max -> event_of_row r = Ok e ->
  open_row (set_failed (truncate_error m) (clamp_i64 at_) r) at_ (record_failure m e).
Proof.
  intros Hst Hatt Ha Hdec. destruct (clamp_stamp _ Hst) as (_ & H1 & H2).
  split_and!; [|by apply pg_decode_set_failed|done|done|cbn; lia]. cbn. unfold PARKED_AS_I64.
  destruct (decide (at_ = NEVER)) as [->|Hne]; [by rewrite H2|].
  destruct (H1 Hne) as [-> Hlt]. by rewrite (proj2 (Z.leb_gt _ _) Hlt).
Qed.

Lemma pg_fail_rel n t l i m at_ :
  stamp at_ -> i ∉ delivered_ids (outbox l) -> postgres_rel (S n) t l ->
  postgres_rel n (with_events (alter (set_failed (truncate_error m) (clamp_i64 at_)) (event_id_to_string i)) t)
    (with_outbox (ref_mark_failed i m at_) l).
Proof.
  intros Hst Hi HR. apply pg_alter_rel; [intros r; cbn; lia| |done]. pose proof HR as [Hr _ _ Ha].
  apply table_rel_fail; [done|done| |].
  - intros r t0 e Hrow Ho. specialize (Ha _ _ Hrow).
    destruct Ho as (_ & Hdec & _ & _ & Hatt). apply open_set_failed; [done..|lia|done].
  - intros r Hrow Hc. exfalso. pose proof (tr_slot _ _ _ _ _ Hr i) as Hsl. rewrite Hrow in Hsl.
    inversion Hsl as [|? ? ? ? (Hstat & _)|]; subst; [|done].
    unfold closed_row in Hc. rewrite Hstat in Hc. by case_decide.
Qed.

Lemma pg_lettered_rel n t l clk e h reason :
  storable e -> ev_attempts e <= i32_max -> encode_headers (ev_headers e) = Ok h ->
  now_millis clk < i64_max -> postgres_rel n t l ->
  postgres_rel n (lettered clk e h reason t)
    (with_outbox (close_case (ev_id e)) (file_letter (now_millis clk) e reason l)).
Proof.
  intros He Hatt Hh Hclk [Hr Hl Hlk Ha]. split; cbn; [by apply table_rel_close| |done|].
  - apply letters_rel_insert; [done|].
    replace (clamp_i64 (now_millis clk)) with (now_millis clk) by (rewrite clamp_i64_min; lia).
    by apply pg_decode_new_letter.
  - intros k r Hk. apply lookup_delete_Some in Hk as [_ Hk]. by apply (Ha k).
Qed.

(** *** The reads *)

Lemma pg_select_due n t l limit now :
  in_u64 now -> postgres_refines n t l ->
  collect event_of_row (fetch_due_rows (clamp_i64 now) (i64_try_from_or_max limit) t)
    = Ok (ref_fetch_due limit now (outbox l)).
Proof.
  intros Hn [[Hr _ Hlk _] Hs _]. rewrite <- fetch_clamped by (unfold ledger_size in Hs; lia).
  unfold fetch_due_rows. rewrite Hlk.
  apply (select_fetch r_id open_row closed_row r_next_attempt_at (due_row (clamp_i64 now) ∅) now); [done|..].
  - intros r t' e. by apply pg_due_row_open.
  - intros r Hc [Hd _]. unfold closed_row in Hc. congruence.
  - intros r t' e Ho Hd. pose proof (proj1 (pg_due_row_open _ _ _ _ Hn Ho) Hd) as [_ Hne].
    destruct Ho as (_ & _ & -> & Hst & _). by apply clamp_stamp.
  - by intros r t' e (_ & ? & _).
Qed.

Lemma pg_counts n t l :
  postgres_rel n t l ->
  unclamp_u64 (count_where (fun r => r_status r = Pending) (outbox_events t))
    = u64_try_from_or_max (ref_pending_count (outbox l)) /\
  unclamp_u64 (count_where (fun r => r_status r = Parked) (outbox_events t))
    = u64_try_from_or_max (ref_parked_count (outbox l)).
Proof.
  intros [Hr _ _ _]. unfold unclamp_u64, ref_pending_count, ref_parked_count.
  split; f_equal; apply (count_where_rel r_id open_row closed_row _ _ _ _ Hr);
    try (unfold closed_row; congruence).
  all: intros r t' e (Hd & _); rewrite Hd; cbn; by case_decide.
Qed.

(** *** Every call, on a healthy server *)

Lemma pg_append_healthy n t l e :
  pg_call_ok l (CAppend e) -> postgres_refines (S n) t l ->
  postgres_rel n (tables (perform (CAppend e) (mkConn t [])).1) (perform (CAppend e) l).1 /\
  (perform (CAppend e) (mkConn t [])).2 = (perform (CAppend e) l).2.
Proof.
  intros [He [Hatt Htext]] HR. pose proof He as (_ & _ & h & Hh).
  cbn -[append ref_append]. unfold append, mbind, mlift.
  destruct (validated e) as [[]|err] eqn:Hv; [|by split; [apply postgres_rel_same, HR|]].
  rewrite Hh. unfold with_texts. rewrite texts_ok_app, (opt_texts_ok _ Htext). cbn [texts_ok forallb].
  rewrite id_text_ok, (topic_text_ok _ Hv). cbn -[ref_append insert_or_nothing]. split; [|done].
  pose proof (pr_calls _ _ _ HR). apply pg_insert_rel; [done..|lia|apply HR].
Qed.

Lemma pg_mark_failed_done n t l i m at_ :
  text_ok (truncate_error m) = true -> postgres_rel (S n) t l ->
  healthy (mark_failed i m at_) t =
    (mkConn (with_events (alter (set_failed (truncate_error m) (clamp_i64 at_)) (event_id_to_string i)) t) [], Ok tt).
Proof.
  intros Htext HR. apply statement_done. unfold with_texts. cbn [texts_ok forallb].
  rewrite id_text_ok, Htext. unfold update_failed. destruct (outbox_events t !! _) as [r|] eqn:E.
  - pose proof (pr_attempts _ _ _ HR _ _ E).
    by replace (r_attempts r + 1 <=? i32_max) with true by lia.
  - unfold with_events. rewrite alter_id by (intros ?; congruence). by destruct t.
Qed.

Lemma pg_mark_failed_healthy n t l i m at_ :
  pg_call_ok l (CMarkFailed i m at_) -> postgres_refines (S n) t l ->
  postgres_rel n (tables (healthy (mark_failed i m at_) t).1) (with_outbox (ref_mark_failed i m at_) l) /\
  (healthy (mark_failed i m at_) t).2 = Ok tt.
Proof.
  intros [[Hst Hm] [Hi Htext]] HR. rewrite (pg_mark_failed_done n t l) by (done || apply HR).
  split; [|done]. by apply pg_fail_rel, HR.
Qed.

Lemma pg_mark_dispatched_healthy clk i t :
  healthy (mark_dispatched clk i) t =
    (mkConn (with_events (alter (set_dispatched (clamp_i64 (now_millis clk))) (event_id_to_string i)) t) [], Ok tt).
Proof. apply statement_done. unfold with_texts. cbn [texts_ok forallb]. by rewrite id_text_ok. Qed.

Lemma pg_dead_letter_healthy n t l clk e reason :
  pg_call_ok l (CDeadLetter clk e reason) -> postgres_refines (S n) t l ->
  postgres_rel n (tables (healthy (dead_letter clk e reason) t).1) (perform (CDeadLetter clk e reason) l).1 /\
  RUnit (healthy (dead_letter clk e reason) t).2 = (perform (CDeadLetter clk e reason) l).2.
Proof.
  intros [(He & Hclk & Hu) (Hatt & Hrs & Htext)] HR. pose proof He as (_ & _ & h & Hh).
  unfold healthy, dead_letter, mbind, mlift. cbn -[close_case file_letter transaction].
  destruct (validated e) as [[]|err] eqn:Hv; [|by split; [apply postgres_rel_same, HR|]].
  rewrite Hh. unfold transaction. rewrite query_done.
  erewrite (statement_done (upsert_letter _)).
  2:{ unfold upsert_letter, with_texts. cbn [l_last_error l_id l_topic l_reason new_letter].
      rewrite texts_ok_app, (opt_texts_ok _ Htext). cbn [texts_ok forallb].
      by rewrite id_text_ok, (topic_text_ok _ Hv), Hrs. }
  erewrite statement_done.
  2:{ unfold with_texts. cbn [texts_ok forallb]. by rewrite id_text_ok. }
  split; [|done].
  apply (pg_lettered_rel n t l clk e h reason); [done..|]. by apply postgres_rel_same, HR.
Qed.

Lemma pg_dead_letters_healthy n t l limit :
  postgres_refines n t l -> healthy (dead_letters limit) t = (mkConn t [], Ok (filed_letters limit l)).
Proof.
  intros [[_ Hl _ _] Hs _]. unfold healthy, dead_letters, mbind. rewrite query_done. unfold mlift. f_equal.
  rewrite <- (filed_clamped limit) by (unfold ledger_size in Hs; lia). by apply select_letters.
Qed.

Lemma pg_fetch_due_healthy n t l limit now :
  in_u64 now -> postgres_refines n t l ->
  healthy (fetch_due limit now) t = (mkConn t [], Ok (ref_fetch_due limit now (outbox l))).
Proof.
  intros Hn HR. unfold healthy, fetch_due, mbind, transaction. rewrite !query_done.
  cbn [tables script next_outcome]. unfold mlift. f_equal. by eapply pg_select_due.
Qed.

(** Every call is one atomic computation. *)
Lemma pg_perform_atomic c :
  exists A (m : M (Conn Tables) StoreError A) g, (forall s, perform c s = replying g (m s)) /\
    atomic m /\ forall msg, g (Err (Backend msg)) = failed_reply c msg.
Proof.
  destruct c; do 3 eexists; (split; [intros s; reflexivity|]); (split; [|done]).
  - apply atomic_bind_lift. intros _. apply atomic_bind_lift. intros h. apply atomic_statement.
  - apply atomic_bind; [apply atomic_transaction; auto with outbox|auto with outbox|].
    intros rows. apply keeps_lift, _.
  - apply atomic_statement.
  - apply atomic_statement.
  - apply atomic_bind; auto with outbox. intros n. apply keeps_ret, _.
  - apply atomic_bind; auto with outbox. intros n. apply keeps_ret, _.
  - apply atomic_bind_lift. intros _. apply atomic_bind_lift. intros h.
    apply atomic_transaction. auto with outbox.
  - apply atomic_bind; auto with outbox. intros rows. apply keeps_lift, _.
Qed.

Lemma pg_perform_script c t : script (perform c (mkConn t [])).1 = [].
Proof. destruct (pg_perform_atomic c) as (A & m & g & -> & Hm & _). apply (Hm (mkConn t [])). Qed.

Lemma pg_perform_healthy n t l c :
  pg_call_ok l c -> postgres_refines (S n) t l ->
  postgres_refines n (tables (perform c (mkConn t [])).1) (perform c l).1 /\
  (perform c (mkConn t [])).2 = (perform c l).2.
Proof.
  intros Hok HR. pose proof (perform_size c l) as Hsz. pose proof HR as [Hrel Hs Hn].
  pose proof (postgres_rel_same _ _ _ Hrel) as Hsame.
  enough (postgres_rel n (tables (perform c (mkConn t [])).1) (perform c l).1 /\
    (perform c (mkConn t [])).2 = (perform c l).2) as [? ?] by (split; [split|]; [done|lia..|done]).
  destruct c.
  - by apply pg_append_healthy.
  - cbn -[fetch_due]. change (fetch_due limit now_ms (mkConn t [])) with (healthy (fetch_due limit now_ms) t).
    by rewrite (pg_fetch_due_healthy (S n) t l) by (try apply Hok; done).
  - cbn -[mark_dispatched]. change (mark_dispatched clock i (mkConn t [])) with (healthy (mark_dispatched clock i) t).
    rewrite pg_mark_dispatched_healthy. split; [by apply pg_dispatch_rel|done].
  - pose proof (pg_mark_failed_healthy n t l i error retry_at_ms Hok HR) as [H1 H2].
    split; [done|]. cbn -[mark_failed]. by rewrite <- H2.
  - split; [done|]. cbn. by rewrite (proj1 (pg_counts _ _ _ Hrel)).
  - split; [done|]. cbn. by rewrite (proj2 (pg_counts _ _ _ Hrel)).
  - by apply pg_dead_letter_healthy.
  - cbn -[dead_letters]. change (dead_letters limit (mkConn t [])) with (healthy (dead_letters limit) t).
    by rewrite (pg_dead_letters_healthy (S n) t l) by done.
Qed.

(** From related states, a session on a healthy server gets the ledger's
    replies. *)
Lemma pg_session cs t l :
  admissible pg_call_ok cs l -> postgres_refines (length cs) t l ->
  (session cs (mkConn t [])).2 = (session cs l).2.
Proof.
  intros Hok HR.
  apply (session_simulation (fun n c l => script c = [] /\ postgres_refines n (tables c) l) pg_call_ok); [|done..].
  intros n c [t' s] l' Hc [Hs HR']. cbn in Hs, HR'. subst s.
  destruct (pg_perform_healthy n t' l' c Hc HR'). split; [|done]. split; [apply pg_perform_script|done].
Qed.

End PostgresSim.
