(* ===== verification/PgLedger.v ===== *)
(** * What Postgres promises: the ledger with an archive

    On Postgres a delivered event stays in its row, and [mark_failed] does not
    look at the status: a failure reported for a delivered event makes it live
    again, one failure older.  [PgLedger] is the ledger with the delivered
    events kept beside it, and that behaviour; it is the ledger itself as long
    as no such failure is reported ([pg_ledger_agrees]).  [PostgresStore] is
    simulated by it, call by call, on any representable calls. *)

From S2P Require Import Prelude BTree Utf8 Event Truncate Codec Backoff Store Ledger Sql SqlTable SqlLedger HexUuid Postgres PostgresSim.

Import Postgres.

Section PgLedger.
Context `{UO : UuidOps} `{UL : !UuidLaws} `{SE : SqlEngine}.

(** ** The reference *)

Record PgLedger := mkPgLedger {
  contract : Ledger;
  archive : gmap EventId OutboxEvent
}.

Definition pg_ledger_empty : PgLedger := mkPgLedger ledger_empty ∅.

(** What the ledger does, the archive apart. *)
Definition on_contract {A} (m : M Ledger StoreError A) : M PgLedger StoreError A :=
  fun p => (mkPgLedger (m (contract p)).1 (archive p), (m (contract p)).2).

(** An event leaves the schedule for the archive when it is delivered. *)
Definition archive_event (i : EventId) (p : PgLedger) : gmap EventId OutboxEvent :=
  match scheduled (outbox (contract p)) !! i with
  | Some (_, e) => <[i := e]> (archive p)
  | None => archive p
  end.

Definition revive (i : EventId) (t : Z) (e : OutboxEvent) (o : Outbox) : Outbox :=
  mkOutbox (<[i := (t, e)]> (scheduled o)) (delivered_ids o ∖ {[i]}).

Definition pg_mark_failed (i : EventId) (m : str) (t : Z) (p : PgLedger) : PgLedger :=
  match archive p !! i with
  | Some e => mkPgLedger (with_outbox (revive i t (record_failure m e)) (contract p)) (delete i (archive p))
  | None => mkPgLedger (with_outbox (ref_mark_failed i m t) (contract p)) (archive p)
  end.

#[export] Instance PgLedgerStore : OutboxStore PgLedger := {|
  Store.append e := on_contract (Store.append e);
  Store.fetch_due limit now := on_contract (Store.fetch_due limit now);
  Store.mark_dispatched clk i := fun p =>
    let '(p', r) := on_contract (Store.mark_dispatched clk i) p in
    (mkPgLedger (contract p') (archive_event i p), r);
  Store.mark_failed i m t := fun p => (pg_mark_failed i m t p, Ok tt);
  Store.pending_count := on_contract Store.pending_count;
  Store.parked_count := on_contract Store.parked_count;
  Store.dead_letter clk e reason := fun p =>
    match on_contract (Store.dead_letter clk e reason) p with
    | (p', Ok u) => (mkPgLedger (contract p') (delete (ev_id e) (archive p')), Ok u)
    | (p', Err err) => (p', Err err)
    end;
  Store.dead_letters limit := on_contract (Store.dead_letters limit)
|}.

(** A failure reported for an archived event. *)
Definition late (p : PgLedger) (c : call) : Prop :=
  match c with CMarkFailed i _ _ => is_Some (archive p !! i) | _ => False end.
#[export] Instance late_dec p c : Decision (late p c).
Proof. destruct c; apply _. Defined.

(** Any other call is the ledger's. *)
Lemma contract_perform c p :
  ~ late p c ->
  contract (perform c p).1 = (perform c (contract p)).1 /\ (perform c p).2 = (perform c (contract p)).2.
Proof.
  destruct c; cbn -[ref_append deliver close_case file_letter filed_letters ref_fetch_due]; try done.
  - unfold pg_mark_failed. intros Hl. by destruct (archive p !! i) as [e|] eqn:E; [destruct Hl|].
  - unfold on_contract. cbn -[close_case file_letter]. by destruct (validated event).
Qed.

Lemma pg_mark_failed_size i m t p :
  (ledger_size (contract (pg_mark_failed i m t p)) <= S (ledger_size (contract p)))%nat.
Proof.
  unfold pg_mark_failed, ledger_size. destruct (archive p !! i) as [e|]; cbn.
  - pose proof (size_insert_le i (t, record_failure m e) (scheduled (outbox (contract p)))). lia.
  - rewrite map_size_alter. lia.
Qed.

(** ** Calls a table can represent

    Ranges of the arguments; nothing about the state. *)

Definition pg_representable (c : call) : Prop :=
  sql_call_ok c /\
  match c with
  | CAppend e => ev_attempts e <= 1000000000
  | CDeadLetter _ e _ => ev_attempts e <= i32_max
  | _ => True
  end.

(** The texts a caller chooses; the server refuses a zero byte in one. *)
Definition call_texts (c : call) : list str :=
  match c with
  | CAppend e => opt_text (ev_last_error e)
  | CMarkFailed _ m _ => [truncate_error m]
  | CDeadLetter _ e r => truncate_reason r :: opt_text (ev_last_error e)
  | _ => []
  end.
Definition without_nul (c : call) : Prop := texts_ok (call_texts c) = true.

Lemma opt_text_ok_inv o m : texts_ok (opt_text o) = true -> o = Some m -> text_ok m = true.
Proof. intros H ->. cbn in H. by rewrite andb_true_r in H. Qed.

(** ** The simulation relation *)

(** The delivered events are the archived ones, and still in their rows. *)
Record archived (t : Tables) (p : PgLedger) : Prop := {
  ar_delivered : forall i, i ∈ delivered_ids (outbox (contract p)) <-> is_Some (archive p !! i);
  ar_row : forall i e, archive p !! i = Some e ->
    exists r, outbox_events t !! event_id_to_string i = Some r /\ event_of_row r = Ok e /\ 0 <= r_attempts r
}.

Record pg_refines (n : nat) (t : Tables) (p : PgLedger) : Prop := {
  pgr_contract : postgres_refines n t (contract p);
  pgr_archive : archived t p
}.

Lemma pg_refines_empty n : Z.of_nat n <= 1000000000 -> pg_refines n (mkTables ∅ ∅ ∅) pg_ledger_empty.
Proof.
  intros Hn. split; [by apply postgres_empty|]. split; cbn.
  - intros i. rewrite lookup_empty. split; [set_solver|by intros [? ?]].
  - intros i e Hi. by apply lookup_empty_Some in Hi.
Qed.

Lemma pg_refines_same n t p : pg_refines (S n) t p -> pg_refines n t p.
Proof. intros [[Hr ? ?] Ha]. split; [split; [by apply postgres_rel_same|lia..]|done]. Qed.

Lemma archive_row_id n t p i e r :
  pg_refines n t p -> outbox_events t !! event_id_to_string i = Some r -> event_of_row r = Ok e -> ev_id e = i.
Proof.
  intros HR Hr Hd. destruct (tr_keyed _ _ _ _ _ (pr_rows _ _ _ (pr_rel _ _ _ (pgr_contract _ _ _ HR))) _ _ Hr) as [Hid _].
  unfold event_of_row in Hd. rewrite Hid in Hd. by apply event_from_row_id in Hd.
Qed.

(** Rows that keep their event keep the archive. *)
Lemma archived_rows t t' p p' :
  archived t p -> archive p' = archive p ->
  delivered_ids (outbox (contract p')) = delivered_ids (outbox (contract p)) ->
  (forall i e r, archive p !! i = Some e -> outbox_events t !! event_id_to_string i = Some r ->
     outbox_events t' !! event_id_to_string i = Some r) ->
  archived t' p'.
Proof.
  intros [Hd Hr] Ha Hdel Hrows. split; [by rewrite Hdel, Ha|]. rewrite Ha. intros i e Hi.
  destruct (Hr i e Hi) as (r & Hrow & Hdec). exists r. split; [by eapply Hrows|done].
Qed.

(** Call by call. *)

Lemma delivered_append e o : delivered_ids (ref_append e o) = delivered_ids o.
Proof. unfold ref_append. by case_match. Qed.

Lemma archived_append e h t p :
  archived t p -> archived (insert_or_nothing (new_row e h) t) (perform (CAppend e) p).1.
Proof.
  intros Ha. apply (archived_rows t _ p); [done|done| |].
  - cbn -[ref_append]. destruct (validated e); cbn -[ref_append]; [apply delivered_append|done].
  - intros i e' r _ Hr. unfold insert_or_nothing. destruct (outbox_events t !! r_id _) eqn:E; [done|].
    cbn. rewrite lookup_insert_ne by (intros Heq; cbn in E; congruence). done.
Qed.

Lemma event_of_set_dispatched at_ r : event_of_row (set_dispatched at_ r) = event_of_row r.
Proof. unfold set_dispatched. by case_match. Qed.
Lemma attempts_set_dispatched at_ r : r_attempts (set_dispatched at_ r) = r_attempts r.
Proof. unfold set_dispatched. by case_match. Qed.

Lemma archived_dispatch at_ clk i n t p :
  pg_refines n t p ->
  archived (with_events (alter (set_dispatched at_) (event_id_to_string i)) t) (perform (CMarkDispatched clk i) p).1.
Proof.
  intros [Hc [Hd Hr]]. pose proof (tr_slot _ _ _ _ _ (pr_rows _ _ _ (pr_rel _ _ _ Hc)) i) as Hsl.
  assert (forall j e, archive_event i p !! j = Some e -> exists r,
    outbox_events t !! event_id_to_string j = Some r /\ event_of_row r = Ok e /\ 0 <= r_attempts r) as Hrow.
  { intros j e. unfold archive_event. destruct (scheduled _ !! i) as [[t0 e0]|]; [|apply Hr].
    intros [[<- <-]|[_ Hj]]%lookup_insert_Some; [|by apply Hr].
    inversion Hsl as [|r ? ? ? (_ & Hdec & _ & _ & Hatt)|]; subst. by exists r. }
  split.
  - intros j. cbn. unfold deliver, archive_event. destruct (scheduled _ !! i) as [[t0 e0]|]; [|apply Hd].
    cbn. rewrite elem_of_union, elem_of_singleton, Hd, lookup_insert. case_decide as Hij; [|naive_solver].
    split; [by eexists|by left].
  - intros j e Hj. destruct (Hrow j e Hj) as (r & Hl & Hdec & Hatt). cbn. rewrite lookup_alter.
    case_decide as Hij; [|by exists r]. rewrite Hij, Hl. exists (set_dispatched at_ r).
    by rewrite event_of_set_dispatched, attempts_set_dispatched.
Qed.

Lemma archived_fail f i m at_ t p :
  archive p !! i = None -> archived t p ->
  archived (with_events (alter f (event_id_to_string i)) t) (pg_mark_failed i m at_ p).
Proof.
  intros Hi Ha. unfold pg_mark_failed. rewrite Hi. apply (archived_rows t _ p); [done..|].
  intros j e r Hj Hr. cbn. rewrite lookup_alter_ne; [done|]. intros ?%(inj event_id_to_string). congruence.
Qed.

Lemma archived_revive f i m at_ e t p :
  archive p !! i = Some e -> archived t p ->
  archived (with_events (alter f (event_id_to_string i)) t) (pg_mark_failed i m at_ p).
Proof.
  intros Hi [Hd Hr]. unfold pg_mark_failed. rewrite Hi. split; cbn.
  - intros j. rewrite elem_of_difference, elem_of_singleton, Hd, lookup_delete.
    case_decide as Hij; [|naive_solver]. split; [naive_solver|by intros [? ?]].
  - intros j e' [Hij Hj]%lookup_delete_Some. destruct (Hr j e' Hj) as (r & Hl & ?). exists r.
    rewrite lookup_alter_ne; [done|]. by intros ?%(inj event_id_to_string).
Qed.

Lemma archived_lettered clk e h reason t p :
  validated e = Ok tt -> archived t p ->
  archived (lettered clk e h reason t) (perform (CDeadLetter clk e reason) p).1.
Proof.
  intros Hv [Hd Hr]. cbn -[close_case file_letter]. unfold on_contract. cbn -[close_case file_letter].
  rewrite Hv. split; cbn.
  - intros j. rewrite elem_of_difference, elem_of_singleton, Hd, lookup_delete.
    case_decide as Hij; [|naive_solver]. split; [naive_solver|by intros [? ?]].
  - intros j e' [Hij Hj]%lookup_delete_Some. destruct (Hr j e' Hj) as (r & Hl & ?). exists r.
    rewrite lookup_delete_ne; [done|]. by intros ?%(inj event_id_to_string).
Qed.

(** The one call that leaves the ledger: a late failure reopens the row. *)
Lemma pg_revive_rel n t p i m at_ e :
  stamp at_ -> archive p !! i = Some e -> pg_refines (S n) t p ->
  postgres_rel n (with_events (alter (set_failed (truncate_error m) (clamp_i64 at_)) (event_id_to_string i)) t)
    (contract (pg_mark_failed i m at_ p)).
Proof.
  intros Hst Hi HR. destruct (ar_row _ _ (pgr_archive _ _ _ HR) i e Hi) as (r & Hr & Hdec & Hatt).
  pose proof (pr_rel _ _ _ (pgr_contract _ _ _ HR)) as Hrel.
  pose proof (pr_attempts _ _ _ Hrel _ _ Hr) as Hmax.
  unfold pg_mark_failed. rewrite Hi. apply pg_alter_rel; [intros r'; cbn; lia| |done].
  apply (table_rel_reopen _ _ _ _ _ _ _ r); [apply Hrel|done|done| |].
  - apply open_set_failed; [done..|lia|done].
  - cbn. by eapply archive_row_id.
Qed.

(** ** Every call, on a healthy server *)

Lemma pg_call_contract n t p c :
  pg_representable c -> without_nul c -> ~ late p c -> pg_refines n t p -> pg_call_ok (contract p) c.
Proof.
  intros [Hc Hr] Ht Hl HR. unfold without_nul in Ht. split; [done|]. destruct c; cbn in Ht; try done.
  - split; [done|]. intros m. by apply opt_text_ok_inv.
  - split; [|by rewrite andb_true_r in Ht]. by rewrite (ar_delivered _ _ (pgr_archive _ _ _ HR)).
  - apply andb_prop in Ht as [? ?]. split_and!; [done..|]. intros m. by apply opt_text_ok_inv.
Qed.

(** What the writes leave in the tables. *)

Lemma pg_append_done e h t :
  validated e = Ok tt -> encode_headers (ev_headers e) = Ok h -> without_nul (CAppend e) ->
  healthy (append e) t = (mkConn (insert_or_nothing (new_row e h) t) [], Ok tt).
Proof.
  intros Hv Hh Ht. unfold healthy, append, mbind, mlift. rewrite Hv, Hh. apply statement_done.
  unfold with_texts. rewrite texts_ok_app, Ht. cbn [texts_ok forallb].
  by rewrite id_text_ok, (topic_text_ok _ Hv).
Qed.

Lemma pg_dead_letter_done clk e reason h t :
  validated e = Ok tt -> encode_headers (ev_headers e) = Ok h -> without_nul (CDeadLetter clk e reason) ->
  healthy (dead_letter clk e reason) t = (mkConn (lettered clk e h reason t) [], Ok tt).
Proof.
  intros Hv Hh [Hrs Ht]%andb_prop. change (texts_ok (opt_text (ev_last_error e)) = true) in Ht.
  unfold healthy, dead_letter, mbind, mlift. rewrite Hv, Hh.
  unfold transaction. rewrite query_done. erewrite (statement_done (upsert_letter _)).
  2:{ unfold upsert_letter, with_texts. cbn [l_last_error l_id l_topic l_reason new_letter].
      rewrite texts_ok_app, Ht. cbn [texts_ok forallb]. by rewrite id_text_ok, (topic_text_ok _ Hv), Hrs. }
  erewrite statement_done; [done|]. unfold with_texts. cbn [texts_ok forallb]. by rewrite id_text_ok.
Qed.

(** A call whose topic is refused changes nothing, on either side. *)
Lemma append_invalid e err t p :
  validated e = Err err ->
  healthy (append e) t = (mkConn t [], Err err) /\ perform (CAppend e) p = (p, RUnit (Err err)).
Proof.
  intros Hv. unfold healthy, append, mbind, mlift. cbn. unfold on_contract. cbn. rewrite Hv. by destruct p.
Qed.
Lemma dead_letter_invalid clk e reason err t p :
  validated e = Err err ->
  healthy (dead_letter clk e reason) t = (mkConn t [], Err err) /\
  perform (CDeadLetter clk e reason) p = (p, RUnit (Err err)).
Proof.
  intros Hv. unfold healthy, dead_letter, mbind, mlift. cbn. unfold on_contract. cbn. rewrite Hv. by destruct p.
Qed.

Lemma reads_keep {A} (m : M (Conn Tables) StoreError A) g n t p p' :
  keeps eq m -> pg_refines n t p -> contract p' = contract p -> archive p' = archive p ->
  archived (tables (replying g (m (mkConn t []))).1) p'.
Proof.
  intros Hm HR Hc Ha. cbn. rewrite <- (Hm (mkConn t [])). eapply archived_rows; [apply HR|done|by rewrite Hc|done].
Qed.

Lemma pg_archive_healthy n t p c :
  pg_representable c -> without_nul c -> ~ late p c -> pg_refines (S n) t p ->
  archived (tables (perform c (mkConn t [])).1) (perform c p).1.
Proof.
  intros [Hc Hrep] Ht Hl HR. destruct c;
    try (eapply reads_keep; [|exact HR|done|done]; auto with outbox typeclass_instances).
  - pose proof Hc as (_ & _ & h & Hh). destruct (validated event) as [[]|err] eqn:Hv.
    + change (tables (perform (CAppend event) (mkConn t [])).1) with (tables (healthy (append event) t).1).
      rewrite (pg_append_done event h) by done. apply archived_append, HR.
    + destruct (append_invalid event err t p Hv) as [H1 ->].
      change (archived (tables (healthy (append event) t).1) p). rewrite H1. apply HR.
  - apply pg_fetch_due_keeps, _.
  - change (tables (perform (CMarkDispatched clock i) (mkConn t [])).1)
      with (tables (healthy (mark_dispatched clock i) t).1).
    rewrite pg_mark_dispatched_healthy. by eapply archived_dispatch.
  - change (tables (perform (CMarkFailed i error retry_at_ms) (mkConn t [])).1)
      with (tables (healthy (mark_failed i error retry_at_ms) t).1).
    unfold without_nul in Ht. cbn in Ht. rewrite andb_true_r in Ht.
    rewrite (pg_mark_failed_done n t (contract p)) by (done || apply HR).
    apply archived_fail, HR. by apply eq_None_not_Some.
  - cbn. unfold pending_count. keeps_steps.
  - cbn. unfold parked_count. keeps_steps.
  - pose proof Hc as ((_ & _ & h & Hh) & _). destruct (validated event) as [[]|err] eqn:Hv.
    + change (tables (perform (CDeadLetter clock event reason) (mkConn t [])).1)
        with (tables (healthy (dead_letter clock event reason) t).1).
      rewrite (pg_dead_letter_done clock event reason h) by done. apply archived_lettered; [done|apply HR].
    + destruct (dead_letter_invalid clock event reason err t p Hv) as [H1 ->].
      change (archived (tables (healthy (dead_letter clock event reason) t).1) p). rewrite H1. apply HR.
  - cbn. unfold dead_letters. keeps_steps.
Qed.

Lemma pg_late_healthy n t p i m at_ e :
  pg_representable (CMarkFailed i m at_) -> text_ok (truncate_error m) = true ->
  archive p !! i = Some e -> pg_refines (S n) t p ->
  pg_refines n (tables (healthy (mark_failed i m at_) t).1) (pg_mark_failed i m at_ p) /\
  (healthy (mark_failed i m at_) t).2 = Ok tt.
Proof.
  intros [[Hst _] _] Ht Hi HR. pose proof HR as [[Hrel Hs Hn] Ha].
  rewrite (pg_mark_failed_done n t (contract p)) by done. split; [|done].
  pose proof (pg_mark_failed_size i m at_ p). split; [split; [|lia..]|].
  - by eapply pg_revive_rel.
  - by eapply archived_revive.
Qed.

Lemma pg_step_healthy n t p c :
  pg_representable c -> without_nul c -> pg_refines (S n) t p ->
  pg_refines n (tables (perform c (mkConn t [])).1) (perform c p).1 /\
  (perform c (mkConn t [])).2 = (perform c p).2.
Proof.
  intros Hc Ht HR. destruct (decide (late p c)) as [Hl|Hl].
  - destruct c; try done. destruct Hl as [e He]. unfold without_nul in Ht. cbn in Ht. rewrite andb_true_r in Ht.
    destruct (pg_late_healthy n t p i error retry_at_ms e Hc Ht He HR) as [H1 H2].
    split; [exact H1|]. change (RUnit (healthy (mark_failed i error retry_at_ms) t).2 = RUnit (Ok tt)). by rewrite H2.
  - destruct (pg_perform_healthy n t (contract p) c) as [H1 H2]; [by eapply pg_call_contract|apply HR|].
    destruct (contract_perform c p Hl) as [H3 H4]. split; [split|by rewrite H2, H4].
    + by rewrite H3.
    + by eapply pg_archive_healthy.
Qed.

(** From related states, a session on a healthy server gets the reference's
    replies. *)
Lemma pg_ledger_session cs t p :
  Forall (fun c => pg_representable c /\ without_nul c) cs -> pg_refines (length cs) t p ->
  (session cs (mkConn t [])).2 = (session cs p).2.
Proof.
  intros Hok HR.
  apply (session_simulation (fun n c p => script c = [] /\ pg_refines n (tables c) p)
    (fun _ c => pg_representable c /\ without_nul c)); [|by apply admissible_forall|done].
  intros n c [t' s] p' [Hc Ht] [Hs HR']. cbn in Hs, HR'. subst s.
  destruct (pg_step_healthy n t' p' c Hc Ht HR'). split; [|done]. split; [apply pg_perform_script|done].
Qed.

(** ** Every call, whatever the server does *)

(** Nothing stops halfway. *)
Definition postgres_partial (c : call) (p p' : PgLedger) : Prop := False.

(** A text with a zero byte is refused by a healthy server, nothing changed,
    unless the topic is refused first. *)
Lemma pg_nul_refused c t :
  pg_representable c -> ~ without_nul c ->
  (exists err, (forall p, perform c p = (p, RUnit (Err err))) /\
     perform c (mkConn t []) = (mkConn t [], RUnit (Err err))) \/
  (exists m, tables (perform c (mkConn t [])).1 = t /\ (perform c (mkConn t [])).2 = failed_reply c m).
Proof.
  unfold without_nul. rewrite not_true_iff_false. intros [Hc _] Ht. destruct c; try discriminate Ht.
  - destruct (validated event) as [[]|err] eqn:Hv; [right|left; exists err].
    + pose proof Hc as (_ & _ & h & Hh). exists nul_in_text. cbn -[append]. unfold append, mbind, mlift.
      rewrite Hv, Hh. erewrite statement_refused; [done|]. unfold with_texts. rewrite texts_ok_app.
      change (texts_ok (opt_text (ev_last_error event)) = false) in Ht. by rewrite Ht, andb_false_r.
    + split; [intros p; by destruct (append_invalid event err t p Hv)|].
      cbn -[append]. unfold append, mbind, mlift. by rewrite Hv.
  - right. exists nul_in_text. cbn in Ht. cbn -[mark_failed]. unfold mark_failed.
    erewrite statement_refused; [done|]. unfold with_texts. cbn [texts_ok forallb]. by rewrite id_text_ok, Ht.
  - destruct (validated event) as [[]|err] eqn:Hv; [right|left; exists err].
    + pose proof Hc as ((_ & _ & h & Hh) & _). exists nul_in_text. cbn -[dead_letter].
      unfold dead_letter, mbind, mlift. rewrite Hv, Hh. unfold transaction. rewrite query_done.
      erewrite (statement_refused (upsert_letter _)); [done|]. unfold upsert_letter, with_texts.
      cbn [l_last_error l_id l_topic l_reason new_letter]. rewrite texts_ok_app. unfold texts_ok at 1. cbn [forallb].
      change (text_ok (truncate_reason reason) && texts_ok (opt_text (ev_last_error event)) = false) in Ht.
      by rewrite id_text_ok, (topic_text_ok _ Hv), andb_true_r, !andb_true_l, Ht.
    + split; [intros p; by destruct (dead_letter_invalid clock event reason err t p Hv)|].
      cbn -[dead_letter]. unfold dead_letter, mbind, mlift. by rewrite Hv.
Qed.

Lemma pg_step_faulty n s p c :
  pg_representable c -> pg_refines (S n) (tables s) p ->
  exists p', answers postgres_partial c p (perform c s).2 p' /\ pg_refines n (tables (perform c s).1) p'.
Proof.
  intros Hc HR. pose proof (pg_refines_same _ _ _ HR) as Hsame.
  destruct (pg_perform_atomic c) as (A & m & g & Hp & Hm & Hg).
  destruct (decide (without_nul c)) as [Ht|Ht].
  { destruct (pg_step_healthy n _ p c Hc Ht HR) as [H1 H2]. rewrite Hp in *.
    by apply (atomic_answers m g _ c p s (pg_refines n)). }
  destruct (pg_nul_refused c (tables s) Hc Ht) as [(err & Href & Hpg)|(msg & H1 & H2)]; rewrite Hp in *.
  - apply (atomic_answers m g _ c p s (pg_refines n)); rewrite ?Href; try done;
      unfold healthy; unfold replying in Hpg; by injection Hpg as H1 H2; rewrite ?H1, ?H2.
  - by apply (atomic_refused m g _ c p s (pg_refines n) msg).
Qed.

(** ** When no failure is late *)

Lemma pg_ledger_agrees cs p :
  admissible (fun p c => ~ late p c) cs p -> (session cs p).2 = (session cs (contract p)).2.
Proof.
  intros Hok. symmetry.
  apply (session_simulation (fun _ l p => l = contract p) (fun p c => ~ late p c)); [|done..].
  intros _ c l p' Hc ->. by destruct (contract_perform c p' Hc).
Qed.
End PgLedger.
