(* ===== verification/PostgresProps.v ===== *)
(** * Properties of the Postgres store *)

From S2P Require Import Prelude BTree Utf8 Event Truncate Codec Backoff Store Ledger Sql SqlTable SqlLedger HexUuid Postgres PostgresSim PgLedger.

Import Postgres.

Section PostgresProps.
Context `{UO : UuidOps} `{UL : !UuidLaws} `{SE : SqlEngine}.

(** ** Sessions *)

Lemma connect_tables s db :
  connect (Ok (mkConn (mkDatabase None None) s)) = Ok db -> tables db = mkTables ∅ ∅ ∅.
Proof.
  unfold connect, with_pool. cbn [map_err rbind].
  pose proof (query_ok apply_schema (mkConn (mkDatabase None None) s)) as Hq.
  destruct (query apply_schema _) as [c' [t|e]]; [|done]. intros [= <-]. by destruct (Hq t eq_refl) as [-> _].
Qed.

(** C22.  On a healthy database with a single client, any session of calls
    whose arguments the columns represent (the SQLite ranges, failure counts
    within 32 bits, no zero byte in a text) gets from [PostgresStore] exactly
    the replies of [PgLedger]: the contract's ledger, in which a failure
    reported for a delivered event makes it live again.  When the session
    reports no such failure, they are the replies of the contract's ledger. *)
Theorem postgres_refines_reference (cs : list call)
    (Hok : Forall (fun c => pg_representable c /\ without_nul c) cs) (Hn : len cs <= 1000000000) :
  exists db, connect (Ok (mkConn (mkDatabase None None) [])) = Ok db /\
    (session cs db).2 = (session cs pg_ledger_empty).2 /\
    (admissible (fun p c => ~ late p c) cs pg_ledger_empty -> (session cs db).2 = (session cs ledger_empty).2).
Proof.
  exists (mkConn (mkTables ∅ ∅ ∅) []). split; [done|].
  rewrite (pg_ledger_session cs _ pg_ledger_empty) by (done || by apply pg_refines_empty).
  split; [done|]. apply pg_ledger_agrees.
Qed.

(** C5.  Whatever the server does to any statement of a session, including
    losing the reply of a commit that took effect: every call whose arguments
    the columns represent either does what [PgLedger] does (the contract's
    ledger, in which a failure reported for a delivered event makes it live
    again), or errs as a backend failure with nothing done or with all of it
    done.  No call, [dead_letter] included, stops halfway. *)
Theorem postgres_faulty_refines (cs : list call) (faults : list outcome) (db : Conn Tables)
    (Hok : Forall pg_representable cs) (Hn : len cs <= 1000000000)
    (Hopen : connect (Ok (mkConn (mkDatabase None None) faults)) = Ok db) :
  exists p, faulty_session postgres_partial cs pg_ledger_empty (session cs db).2 p /\
    postgres_rel 0 (tables (session cs db).1) (contract p) /\ archived (tables (session cs db).1) p.
Proof.
  destruct (session_faulty (S := Conn Tables) postgres_partial (fun n c p => pg_refines n (tables c) p)
    (fun _ => pg_representable)) with cs db pg_ledger_empty as (p & Hp & [[HR _ _] Ha]).
  - intros n c s p. apply pg_step_faulty.
  - by apply robust_forall.
  - rewrite (connect_tables _ _ Hopen). by apply pg_refines_empty.
  - by exists p.
Qed.

(** ** Dead letters *)

Lemma statement_cases {A} (f : Tables -> result (Tables * A) str) c c' a :
  statement f c = (c', Ok a) -> f (tables c) = Ok (tables c', a).
Proof. intros H. pose proof (statement_ok f c a) as Hs. rewrite H in Hs. by apply Hs. Qed.

(** Dead-lettering on Postgres is one transaction: whatever the engine
    calls do, either nothing changed, or the letter is recorded and the live row
    is gone; success means the latter.  An error with the change made is only
    the commit's own reply being lost. *)
Lemma postgres_dead_letter_atomic (clk : Z) (e : OutboxEvent) (reason : str) (c : Conn Tables)
    (h : bytes) (Htopic : validate e = Ok tt) (Hh : encode_headers (ev_headers e) = Ok h) :
  match dead_letter clk e reason c with
  | (c', Ok _) => tables c' = lettered clk e h reason (tables c)
  | (c', Err _) => tables c' = tables c \/ tables c' = lettered clk e h reason (tables c)
  end.
Proof.
  unfold dead_letter, mbind at 1, mlift at 1. rewrite (proj2 (validated_ok e) Htopic).
  unfold mbind at 1, mlift at 1. rewrite Hh. unfold transaction.
  pose proof (keeps_query eq (fun _ : Tables => tt) c) as Hq.
  destruct (query (fun _ => tt) c) as [c1 [[]|err]]; cbn in Hq; [|by left]. rewrite Hq. unfold mbind.
  destruct (statement _ c1) as [c2 [[]|err]] eqn:E1; [|by left].
  destruct (statement _ c2) as [c3 [[]|err]] eqn:E2; [|by left].
  apply statement_cases, with_texts_ok in E1. apply statement_cases, with_texts_ok in E2.
  injection E1 as E1. injection E2 as E2. rewrite <- E1 in E2.
  destruct (next_outcome (script c3)) as [[|m|m] s]; cbn; auto.
Qed.

(** ** Failures *)

(** C36.  A failure Postgres cannot record is not recorded at all: when the
    (bounded) diagnostic has a zero byte, or the row already counts [i32::MAX]
    failures, [mark_failed] errs and the row stays as it was, due at the same
    time, whatever the engine calls do. *)
Theorem postgres_unrecordable_failure (i : EventId) (m : str) (at_ : Z) (c : Conn Tables)
    (H : text_ok (truncate_error m) = false \/
         exists r, outbox_events (tables c) !! event_id_to_string i = Some r /\ r_attempts r = i32_max) :
  tables (mark_failed i m at_ c).1 = tables c /\ is_ok (mark_failed i m at_ c).2 = false.
Proof.
  assert (exists err, with_texts [event_id_to_string i; truncate_error m]
    (update_failed (event_id_to_string i) (truncate_error m) (clamp_i64 at_)) (tables c) = Err err)
    as [err Herr].
  { unfold with_texts. cbn [texts_ok forallb]. rewrite id_text_ok.
    destruct H as [H|(r & Hr & Ha)]; [rewrite H; by eexists|].
    unfold update_failed. rewrite Hr, Ha. destruct (_ && _); by eexists. }
  unfold mark_failed, statement. rewrite Herr.
  by destruct (next_outcome (script c)) as [[|m'|m'] s].
Qed.

(** A table of one row, and what each statement makes of it. *)
Definition one_row (e : OutboxEvent) (r : Row) : Conn Tables :=
  mkConn (mkTables {[event_id_to_string (ev_id e) := r]} ∅ ∅) [].

Lemma append_to_empty e h :
  validate e = Ok tt -> encode_headers (ev_headers e) = Ok h ->
  (forall s, ev_last_error e = Some s -> text_ok s = true) ->
  append e (mkConn (mkTables ∅ ∅ ∅) []) = (one_row e (new_row e h), Ok tt).
Proof.
  intros Htopic Hh Hle. unfold append, mbind, mlift. rewrite (proj2 (validated_ok e) Htopic), Hh.
  apply statement_done. unfold with_texts. rewrite texts_ok_app, (opt_texts_ok _ Hle).
  cbn [texts_ok forallb]. rewrite id_text_ok, (topic_text_ok e) by (by apply validated_ok). done.
Qed.

Lemma mark_dispatched_one clk e r :
  mark_dispatched clk (ev_id e) (one_row e r)
    = (one_row e (set_dispatched (clamp_i64 (now_millis clk)) r), Ok tt).
Proof.
  apply statement_done. unfold with_texts. cbn [texts_ok forallb]. rewrite id_text_ok.
  unfold with_events. cbn -[set_dispatched clamp_i64]. by rewrite alter_singleton_eq.
Qed.

Lemma mark_failed_one e m retry_at r :
  text_ok (truncate_error m) = true -> r_attempts r < i32_max ->
  mark_failed (ev_id e) m retry_at (one_row e r)
    = (one_row e (set_failed (truncate_error m) (clamp_i64 retry_at) r), Ok tt).
Proof.
  intros Hm Ha. apply statement_done. unfold with_texts. cbn [texts_ok forallb]. rewrite id_text_ok, Hm.
  unfold update_failed. cbn -[set_failed clamp_i64]. rewrite lookup_singleton_eq.
  replace (r_attempts r + 1 <=? i32_max) with true by int_lia.
  unfold with_events. cbn -[set_failed clamp_i64]. by rewrite alter_singleton_eq.
Qed.

Lemma fetch_due_one now e r e' :
  due_row (clamp_i64 now) ∅ r -> event_of_row r = Ok e' ->
  fetch_due 1 now (one_row e r) = (one_row e r, Ok [e']).
Proof.
  intros Hdue Hr. unfold fetch_due, one_row, mbind, transaction. rewrite !query_done.
  cbn [tables script next_outcome]. unfold mlift. f_equal.
  unfold fetch_due_rows, select. cbn [outbox_events locked].
  rewrite map_to_list_singleton. cbn [fmap list_fmap snd]. rewrite filter_cons_True by done.
  change (collect event_of_row [r] = Ok [e']). cbn [collect]. by rewrite Hr.
Qed.

(** C29.  [mark_failed] does not look at the status: a failure reported after
    another dispatcher delivered the event makes it pending again, and the
    delivered event is fetched once more.  The reference store (and the other
    two stores) leave it delivered. *)
Theorem postgres_failure_revives_delivered (e : OutboxEvent) (h : bytes) (clk retry_at now : Z) (m : str)
    (Hwf : wf_event e) (Htopic : validate e = Ok tt) (Hh : encode_headers (ev_headers e) = Ok h)
    (Hc : ev_created_at e < i64_max) (Ha : ev_attempts e < i32_max)
    (Hle : forall s, ev_last_error e = Some s -> text_ok s = true)
    (Hm : text_ok (truncate_error m) = true)
    (Hr : 0 <= retry_at < i64_max) (Hnow : in_u64 now) (Hdue : retry_at <= now) :
  let calls := [CAppend e; CMarkDispatched clk (ev_id e); CMarkFailed (ev_id e) m retry_at; CFetchDue 1 now] in
  (session calls (mkConn (mkTables ∅ ∅ ∅) [])).2
    = [RUnit (Ok tt); RUnit (Ok tt); RUnit (Ok tt); REvents (Ok [record_failure m e])] /\
  (session calls ledger_empty).2 = [RUnit (Ok tt); RUnit (Ok tt); RUnit (Ok tt); REvents (Ok [])].
Proof.
  pose proof (wf_attempts _ Hwf).
  assert (clamp_i64 retry_at = retry_at) as Hcl by (rewrite clamp_i64_min; unfold_int; lia). split.
  - cbn -[append mark_dispatched mark_failed fetch_due].
    rewrite (append_to_empty e h) by done. cbn -[append mark_dispatched mark_failed fetch_due].
    rewrite mark_dispatched_one. cbn -[append mark_dispatched mark_failed fetch_due].
    rewrite mark_failed_one by (done || (cbn; int_lia)). cbn -[append mark_dispatched mark_failed fetch_due].
    rewrite (fetch_due_one _ _ _ (record_failure m e)); [done| |].
    + unfold due_row. cbn. rewrite Hcl, clamp_i64_min. unfold PARKED_AS_I64.
      split_and!; [|lia|set_solver]. destruct (Z.leb_spec i64_max retry_at); [lia|done].
    + rewrite (pg_decode_set_failed m (clamp_i64 retry_at) _ e); [done|cbn; int_lia..|].
      by apply pg_decode_new_row; [|lia|lia|].
  - assert (ref_append e ref_empty = mkOutbox {[ev_id e := (ev_created_at e, e)]} ∅) as Ha1.
    { unfold ref_append, ref_empty. cbn. by rewrite !bool_decide_eq_false_2 by set_solver. }
    cbn -[ref_fetch_due ref_append deliver ref_mark_failed].
    rewrite (proj2 (validated_ok e) Htopic). cbn -[ref_fetch_due ref_append deliver ref_mark_failed].
    rewrite Ha1. do 6 f_equal. unfold deliver. cbn [scheduled]. rewrite lookup_singleton_eq.
    unfold ref_mark_failed, ref_mark_dispatched, ref_fetch_due, ref_due. cbn [scheduled delivered_ids].
    by rewrite delete_singleton_eq.
Qed.

End PostgresProps.
