(* ===== verification/PgClaims.v ===== *)
(** * Several dispatchers on one Postgres outbox

    [fetch_due] of [src/src/postgres/mod.rs] as concurrent sessions see it: a
    transaction locks the rows it selects ([FOR UPDATE]), leaves out the rows
    other transactions hold ([SKIP LOCKED]), and releases them at its commit.
    A statement that changes a row waits until nobody holds it. *)

From S2P Require Import Prelude BTree Event Backoff Store Sql SqlTable HexUuid Postgres.

Import Postgres.

Module PgClaims.
Section PgClaims.
Context `{UO : UuidOps} `{SE : SqlEngine}.

(** The table, and the rows each open claim transaction holds. *)
Record Cluster := mkCluster {
  rows : gmap str Row;
  claims : gmap nat (list Row)
}.

Definition claim_ids (held : list Row) : gset str := list_to_set (r_id <$> held).

Definition held_by_others (s : nat) (c : Cluster) : gset str :=
  ⋃ ((fun p => claim_ids p.2) <$> map_to_list (delete s (claims c))).

Definition held (c : Cluster) (k : str) : Prop :=
  exists s l, claims c !! s = Some l /\ k ∈ r_id <$> l.

(** What the claim of session [s] returns in [c]. *)
Definition claimed_rows (s : nat) (limit now : Z) (c : Cluster) : list Row :=
  fetch_due_rows (clamp_i64 now) (i64_try_from_or_max limit)
    (mkTables (rows c) ∅ (held_by_others s c)).

Inductive step : Cluster -> Cluster -> Prop :=
| step_claim s limit now c :
    claims c !! s = None ->
    step c (mkCluster (rows c) (<[s := claimed_rows s limit now c]> (claims c)))
| step_release s c :
    step c (mkCluster (rows c) (delete s (claims c)))
| step_write k (f : option Row -> option Row) c :
    ~ held c k ->
    (forall r r', f r = Some r' -> r_id r' = k) ->
    step c (mkCluster (partial_alter f k (rows c)) (claims c)).

(** ** Invariant *)

Record cluster_inv (c : Cluster) : Prop := {
  ci_keys : forall k r, rows c !! k = Some r -> r_id r = k;
  ci_held : forall s l r, claims c !! s = Some l -> r ∈ l -> rows c !! r_id r = Some r /\ r_status r = Pending;
  ci_disjoint : forall s1 s2 l1 l2, s1 <> s2 -> claims c !! s1 = Some l1 -> claims c !! s2 = Some l2 ->
    claim_ids l1 ## claim_ids l2
}.

Lemma elem_of_claim_ids k l : k ∈ claim_ids l <-> exists r, r ∈ l /\ r_id r = k.
Proof. unfold claim_ids. rewrite elem_of_list_to_set, list_elem_of_fmap. naive_solver. Qed.

Lemma held_by_others_spec s c k :
  k ∈ held_by_others s c <-> exists s' l, s' <> s /\ claims c !! s' = Some l /\ k ∈ claim_ids l.
Proof.
  unfold held_by_others. rewrite elem_of_union_list. split.
  - intros (X & ([s' l] & -> & Hl%elem_of_map_to_list)%list_elem_of_fmap & Hk).
    apply lookup_delete_Some in Hl as [? ?]. exists s', l. split; [by apply not_eq_sym|done].
  - intros (s' & l & Hne & Hl & Hk). exists (claim_ids l). split; [|done].
    apply list_elem_of_fmap. exists (s', l). split; [done|]. apply elem_of_map_to_list.
    by rewrite lookup_delete_ne.
Qed.

Lemma claimed_rows_spec s limit now c r :
  (forall k r, rows c !! k = Some r -> r_id r = k) -> r ∈ claimed_rows s limit now c ->
  rows c !! r_id r = Some r /\ r_status r = Pending /\ r_next_attempt_at r <= clamp_i64 now /\
  r_id r ∉ held_by_others s c.
Proof.
  intros Hk Hr. unfold claimed_rows, fetch_due_rows in Hr.
  apply elem_of_select in Hr as [(Hp & Hn & Ho) [k Hr]]. cbn in *.
  rewrite <- (Hk _ _ Hr) in Hr. done.
Qed.

Lemma step_inv c c' : step c c' -> cluster_inv c -> cluster_inv c'.
Proof.
  intros Hstep [Hk Hh Hd]. destruct Hstep as [s limit now c Hs|s c|k f c Hnk Hf].
  - split; cbn; [done| |].
    + intros s' l r Hl Hr. apply lookup_insert_Some in Hl as [[<- <-]|[_ Hl]]; [|by eapply Hh].
      by apply claimed_rows_spec in Hr as (? & ? & _).
    + assert (forall s2 l2, s <> s2 -> claims c !! s2 = Some l2 ->
        claim_ids (claimed_rows s limit now c) ## claim_ids l2) as Hnew.
      { intros s2 l2 Hne Hl2 k (r & Hr & <-)%elem_of_claim_ids Hk2.
        apply claimed_rows_spec in Hr as (_ & _ & _ & Ho); [|done].
        apply Ho, held_by_others_spec. exists s2, l2. split; [by apply not_eq_sym|done]. }
      intros s1 s2 l1 l2 Hne H1 H2.
      apply lookup_insert_Some in H1 as [[<- <-]|[_ H1]];
        apply lookup_insert_Some in H2 as [[<- <-]|[_ H2]]; try done.
      * by apply (Hnew s2).
      * symmetry. apply (Hnew s1); [congruence|done].
      * by apply (Hd s1 s2).
  - split; cbn; [done|..].
    + intros s' l r Hl. apply lookup_delete_Some in Hl as [_ Hl]. by eapply Hh.
    + intros s1 s2 l1 l2 Hne H1 H2. apply lookup_delete_Some in H1 as [_ H1], H2 as [_ H2].
      by apply (Hd s1 s2).
  - split; cbn; [| |done].
    + intros k' r Hr. destruct (decide (k = k')) as [<-|Hne].
      * rewrite lookup_partial_alter_eq in Hr. by eapply Hf.
      * rewrite lookup_partial_alter_ne in Hr by done. by apply Hk.
    + intros s l r Hl Hr. rewrite lookup_partial_alter_ne; [by eapply Hh|].
      intros ->. apply Hnk. exists s, l. split; [done|]. by apply list_elem_of_fmap_2.
Qed.

Lemma steps_inv c c' : rtc step c c' -> cluster_inv c -> cluster_inv c'.
Proof. induction 1; eauto using step_inv. Qed.

Definition initial (t : gmap str Row) : Cluster := mkCluster t ∅.

Lemma initial_inv t : (forall k r, t !! k = Some r -> r_id r = k) -> cluster_inv (initial t).
Proof.
  intros Ht. split; cbn; [done|..].
  - intros s l r Hl. by rewrite lookup_empty in Hl.
  - intros s1 s2 l1 l2 _ Hl. by rewrite lookup_empty in Hl.
Qed.

(** ** Properties *)

(** C16.  However dispatchers' claims, commits and writes interleave, two open
    claim transactions never hold the same event, and every held event is
    still pending: nobody can deliver it or fail it under its holder. *)
Theorem claims_disjoint (t : gmap str Row) (c : Cluster)
    (Ht : forall k r, t !! k = Some r -> r_id r = k) (Hc : rtc step (initial t) c)
    (s1 s2 : nat) (l1 l2 : list Row) (r : Row)
    (H1 : claims c !! s1 = Some l1) (H2 : claims c !! s2 = Some l2) (Hr : r ∈ l1) :
  rows c !! r_id r = Some r /\ r_status r = Pending /\ (s1 <> s2 -> r_id r ∉ r_id <$> l2).
Proof.
  pose proof (steps_inv _ _ Hc (initial_inv t Ht)) as [Hk Hh Hd].
  destruct (Hh s1 l1 r H1 Hr) as [Hrow Hst]. split_and!; [done..|]. intros Hne Hin.
  apply (Hd s1 s2 l1 l2 Hne H1 H2 (r_id r)).
  - apply elem_of_claim_ids. by exists r.
  - unfold claim_ids. by apply elem_of_list_to_set.
Qed.

(** The exclusivity ends with the claim's own transaction, which
    [fetch_due] commits before it returns: a second dispatcher that polls
    after that commit claims exactly the same events, none of which has been
    marked yet. *)
Lemma claim_repeats_after_commit (t : gmap str Row) (s1 s2 : nat) (limit now : Z) :
  let c1 := mkCluster t (<[s1 := claimed_rows s1 limit now (initial t)]> ∅) in
  let c2 := mkCluster t (delete s1 (claims c1)) in
  step (initial t) c1 /\ step c1 c2 /\
  claimed_rows s2 limit now c2 = claimed_rows s1 limit now (initial t).
Proof.
  cbn zeta. split; [by apply (step_claim s1 limit now (initial t))|].
  split; [apply (step_release s1 (mkCluster t _))|].
  unfold claimed_rows, held_by_others. cbn. by rewrite delete_insert_eq, !delete_empty.
Qed.

End PgClaims.
End PgClaims.
