(* ===== verification/PgSessions.v ===== *)
(** * Concurrent clients of one Postgres outbox

    [src/src/postgres/mod.rs] with any number of clients on one database, at
    the grain of statements and commits: [fetch_due] selects under row locks
    and commits; [dead_letter] upserts, deletes and commits, its writes invisible
    until then; every other call is one statement, which waits for what others
    do to its row.  A client may lose its connection at any point.

    [server_step] is that machine.  [atomic_step] is its specification: a call
    takes effect in one step of [Postgres.v], somewhere between its invocation
    and its reply; the exception is a [dead_letter] that finds no event to
    remove, which looks in one step and files its letter in a later one.  The simulation between them is the content of this file. *)

From S2P Require Import Prelude BTree Utf8 Event Truncate Codec Backoff Store HexUuid Sql SqlTable Postgres.
From S2P Require Import Samples.

Module PgSessions.
Import Postgres.
Section PgSessions.
Context `{UO : UuidOps} `{SE : SqlEngine}.

(** What a client of the store observes. *)
Inductive visible := Invoke (s : nat) (c : call) | Return (s : nat) (r : reply) | Abandon (s : nat).

(** ** The server *)

(** Where a session is: between calls; before its first statement; in the claim
    transaction, holding the rows it selected; in the burial transaction, after
    the upsert, or after the delete, which removed a row or found none; with
    its reply. *)
Inductive progress :=
| Idle
| Called (c : call)
| Selected (limit now : Z) (rows : list Row)
| Upserted (clock : Z) (e : OutboxEvent) (reason : str) (headers : bytes)
| Deleted (clock : Z) (e : OutboxEvent) (reason : str) (headers : bytes) (found : bool)
| Answered (c : call) (r : reply).

Record Server := mkServer { committed : Tables; sessions : gmap nat progress }.

Definition session_of (s : nat) (C : Server) : progress := default Idle (sessions C !! s).
Definition moved (s : nat) (p : progress) (C : Server) : Server :=
  mkServer (committed C) (<[s := p]> (sessions C)).
Definition moved_to (s : nat) (p : progress) (t : Tables) (C : Server) : Server :=
  mkServer t (<[s := p]> (sessions C)).

Definition row_ids (rows : list Row) : gset str := list_to_set (r_id <$> rows).

(** The rows of [outbox_events] and of [outbox_dead_letters] it holds locks on. *)
Definition row_locks (p : progress) : gset str :=
  match p with
  | Selected _ _ rows => row_ids rows
  | Deleted _ e _ _ true => {[event_id_to_string (ev_id e)]}
  | _ => ∅
  end.
Definition letter_locks (p : progress) : gset str :=
  match p with
  | Upserted _ e _ _ | Deleted _ e _ _ _ => {[event_id_to_string (ev_id e)]}
  | _ => ∅
  end.

(** What a one-statement call waits for: an update, for every lock on its row;
    an insert, [ON CONFLICT DO NOTHING], only for a delete of it that may still
    be rolled back. *)
Definition deletions (p : progress) : gset str :=
  match p with Deleted _ e _ _ true => {[event_id_to_string (ev_id e)]} | _ => ∅ end.
Definition waits_for (c : call) : progress -> gset str :=
  match c with CAppend _ => deletions | _ => row_locks end.

Definition others {A} (held : A -> gset str) (s : nat) (m : gmap nat A) : gset str :=
  ⋃ (held <$> (map_to_list (delete s m)).*2).

Definition with_locks (L : gset str) (t : Tables) : Tables :=
  mkTables (outbox_events t) (outbox_dead_letters t) L.

(** A call on its own: what it leaves, and its reply. *)
Definition run_alone (c : call) (L : gset str) (t : Tables) : Tables * reply :=
  (with_locks ∅ (tables (perform c (mkConn (with_locks L t) [])).1), (perform c (mkConn (with_locks L t) [])).2).

(** The calls that are one statement, and the rows they write. *)
Definition single (c : call) : Prop :=
  match c with CFetchDue _ _ | CDeadLetter _ _ _ => False | _ => True end.
Definition writes (c : call) : gset str :=
  match c with
  | CAppend e => {[event_id_to_string (ev_id e)]}
  | CMarkDispatched _ i | CMarkFailed i _ _ => {[event_id_to_string i]}
  | _ => ∅
  end.

(** What [dead_letter] binds. *)
Definition letter_of (clock : Z) (e : OutboxEvent) (reason : str) (headers : bytes) : Letter :=
  new_letter e headers (truncate_reason reason) (clamp_i64 (now_millis clock)).

(** The call a session has under way, if it has not answered. *)
Definition pending (p : progress) : option call :=
  match p with
  | Idle | Answered _ _ => None
  | Called c => Some c
  | Selected limit now _ => Some (CFetchDue limit now)
  | Upserted clock e reason _ | Deleted clock e reason _ _ => Some (CDeadLetter clock e reason)
  end.

Inductive server_step : Server -> option visible -> Server -> Prop :=
| sv_invoke s c C :
    session_of s C = Idle -> server_step C (Some (Invoke s c)) (moved s (Called c) C)
| sv_single s c C :
    session_of s C = Called c -> single c -> writes c ## others (waits_for c) s (sessions C) ->
    server_step C None
      (moved_to s (Answered c (run_alone c ∅ (committed C)).2) (run_alone c ∅ (committed C)).1 C)
| sv_select s limit now C :
    session_of s C = Called (CFetchDue limit now) ->
    server_step C None (moved s (Selected limit now
      (fetch_due_rows (clamp_i64 now) (i64_try_from_or_max limit)
        (with_locks (others row_locks s (sessions C)) (committed C)))) C)
| sv_select_commit s limit now rows C :
    session_of s C = Selected limit now rows ->
    server_step C None (moved s (Answered (CFetchDue limit now) (REvents (collect event_of_row rows))) C)
| sv_refuse s clock e reason err C :
    session_of s C = Called (CDeadLetter clock e reason) ->
    (_ <-? validated e; encode_headers (ev_headers e)) = Err err ->
    server_step C None (moved s (Answered (CDeadLetter clock e reason) (RUnit (Err err))) C)
| sv_upsert s clock e reason headers C :
    session_of s C = Called (CDeadLetter clock e reason) ->
    (_ <-? validated e; encode_headers (ev_headers e)) = Ok headers ->
    event_id_to_string (ev_id e) ∉ others letter_locks s (sessions C) ->
    server_step C None (moved s
      (match upsert_letter (letter_of clock e reason headers) (committed C) with
       | Ok _ => Upserted clock e reason headers
       | Err m => Answered (CDeadLetter clock e reason) (RUnit (Err (Backend m)))
       end) C)
| sv_delete s clock e reason headers C :
    session_of s C = Upserted clock e reason headers ->
    event_id_to_string (ev_id e) ∉ others row_locks s (sessions C) ->
    server_step C None (moved s (Deleted clock e reason headers
      (bool_decide (is_Some (outbox_events (committed C) !! event_id_to_string (ev_id e))))) C)
| sv_bury_commit s clock e reason headers found C :
    session_of s C = Deleted clock e reason headers found ->
    server_step C None (moved_to s (Answered (CDeadLetter clock e reason) (RUnit (Ok tt)))
      (let l := letter_of clock e reason headers in
       let t := with_letters (insert (l_id l) l) (committed C) in
       if found then with_events (delete (event_id_to_string (ev_id e))) t else t) C)
| sv_fail s c m C :
    (** the statement or the commit fails: the transaction is rolled back *)
    pending (session_of s C) = Some c ->
    server_step C None (moved s (Answered c (failed_reply c m)) C)
| sv_lost s c r m C :
    (** committed, but the reply does not come through *)
    session_of s C = Answered c r -> server_step C None (moved s (Answered c (failed_reply c m)) C)
| sv_return s c r C :
    session_of s C = Answered c r -> server_step C (Some (Return s r)) (moved s Idle C)
| sv_disconnect s C :
    server_step C (Some (Abandon s)) (moved s Idle C).

(** ** The specification *)

(** A session of the specification: [ATook] has had its effect and its reply is
    set, and, if it is a fetch, claims what it selected until it returns;
    [AMissed] is a burial that has seen its event absent. *)
Inductive aprogress :=
| AIdle
| ACalled (c : call)
| AMissed (clock : Z) (e : OutboxEvent) (reason : str)
| ATook (c : call) (r : reply) (claims : gset str).

Record Atomic := mkAtomic { a_tables : Tables; a_sessions : gmap nat aprogress }.

Definition asession (s : nat) (A : Atomic) : aprogress := default AIdle (a_sessions A !! s).
Definition amoved (s : nat) (p : aprogress) (t : Tables) (A : Atomic) : Atomic :=
  mkAtomic t (<[s := p]> (a_sessions A)).

(** What an overlapping call may keep out of a fetch. *)
Definition busy (p : aprogress) : gset str :=
  match p with
  | ATook _ _ claims => claims
  | ACalled (CDeadLetter _ e _) => {[event_id_to_string (ev_id e)]}
  | _ => ∅
  end.

(** The rows a call would claim. *)
Definition claims_of (c : call) (L : gset str) (t : Tables) : gset str :=
  match c with
  | CFetchDue limit now =>
      row_ids (fetch_due_rows (clamp_i64 now) (i64_try_from_or_max limit) (with_locks L t))
  | _ => ∅
  end.

Inductive atomic_step : Atomic -> option visible -> Atomic -> Prop :=
| at_invoke s c A :
    asession s A = AIdle -> atomic_step A (Some (Invoke s c)) (amoved s (ACalled c) (a_tables A) A)
| at_take s c L A :
    (** the whole call at once; a fetch leaves out [L], which is not everything
        it likes but what overlapping calls hold *)
    asession s A = ACalled c -> L ⊆ others busy s (a_sessions A) ->
    atomic_step A None
      (amoved s (ATook c (run_alone c L (a_tables A)).2 (claims_of c L (a_tables A))) (run_alone c L (a_tables A)).1 A)
| at_miss s clock e reason A :
    asession s A = ACalled (CDeadLetter clock e reason) ->
    outbox_events (a_tables A) !! event_id_to_string (ev_id e) = None ->
    atomic_step A None (amoved s (AMissed clock e reason) (a_tables A) A)
| at_file s clock e reason A :
    (** the letter alone: there was no event to remove *)
    asession s A = AMissed clock e reason ->
    let c := CDeadLetter clock e reason in
    let t' := (run_alone c ∅ (a_tables A)).1 in
    atomic_step A None (amoved s (ATook c (run_alone c ∅ (a_tables A)).2 ∅)
      (mkTables (outbox_events (a_tables A)) (outbox_dead_letters t') ∅) A)
| at_fail s c m A :
    asession s A = ACalled c \/ (exists clock e reason, asession s A = AMissed clock e reason /\ c = CDeadLetter clock e reason) ->
    atomic_step A None (amoved s (ATook c (failed_reply c m) ∅) (a_tables A) A)
| at_lost s c r claims m A :
    asession s A = ATook c r claims ->
    atomic_step A None (amoved s (ATook c (failed_reply c m) claims) (a_tables A) A)
| at_return s c r claims A :
    asession s A = ATook c r claims -> atomic_step A (Some (Return s r)) (amoved s AIdle (a_tables A) A)
| at_disconnect s A :
    atomic_step A (Some (Abandon s)) (amoved s AIdle (a_tables A) A).

(** ** Histories *)

Definition history (l : option visible) : list visible := match l with Some v => [v] | None => [] end.

Inductive runs {X} (step : X -> option visible -> X -> Prop) : X -> list visible -> X -> Prop :=
| runs_nil x : runs step x [] x
| runs_cons x l y h z : step x l y -> runs step y h z -> runs step x (history l ++ h) z.

(** ** Calls on their own *)

Lemma with_locks_same t : locked t = ∅ -> with_locks ∅ t = t.
Proof. destruct t. cbn. by intros ->. Qed.

Lemma run_alone_unlocked c L t : locked (run_alone c L t).1 = ∅.
Proof. done. Qed.

Lemma run_alone_fetch limit now L t :
  locked t = ∅ ->
  run_alone (CFetchDue limit now) L t =
    (t, REvents (collect event_of_row
          (fetch_due_rows (clamp_i64 now) (i64_try_from_or_max limit) (with_locks L t)))).
Proof. destruct t as [es ls lk]. cbn. by intros ->. Qed.

(** The burial that goes through: what is bound, and that the server takes it. *)
Definition buriable (clock : Z) (e : OutboxEvent) (reason : str) (headers : bytes) : Prop :=
  (_ <-? validated e; encode_headers (ev_headers e)) = Ok headers /\
  forall t, exists t', upsert_letter (letter_of clock e reason headers) t = Ok (t', tt).

Lemma upsert_letter_cases l :
  (exists m, forall t : Tables, upsert_letter l t = Err m) \/
  (texts_ok [l_id l] = true /\ forall t, upsert_letter l t = Ok (with_letters (insert (l_id l) l) t, tt)).
Proof using Type.
  unfold upsert_letter, with_texts. destruct (texts_ok ([l_id l; l_topic l; l_reason l] ++ opt_text (l_last_error l))) eqn:E.
  - right. split; [|done]. cbn in E |- *. by apply andb_true_iff in E as [-> _].
  - left. eauto.
Qed.

Lemma run_alone_bury clock e reason headers t :
  locked t = ∅ -> buriable clock e reason headers ->
  run_alone (CDeadLetter clock e reason) ∅ t =
    (with_events (delete (event_id_to_string (ev_id e)))
       (let l := letter_of clock e reason headers in with_letters (insert (l_id l) l) t), RUnit (Ok tt)).
Proof.
  intros Ht [Hh Hu]. destruct (validated e) as [[]|] eqn:Ev; cbn in Hh; [|discriminate Hh].
  destruct (upsert_letter_cases (letter_of clock e reason headers)) as [[m Hm]|[Hid Hok]].
  { destruct (Hu t) as [t' Ht']. by rewrite Hm in Ht'. }
  unfold run_alone. rewrite (with_locks_same t) by done.
  assert (dead_letter clock e reason (mkConn t []) = (mkConn (with_events (delete (event_id_to_string (ev_id e)))
    (with_letters (insert (l_id (letter_of clock e reason headers)) (letter_of clock e reason headers)) t)) [], Ok tt)) as Hd.
  { unfold dead_letter. rewrite Ev, Hh. unfold mbind at 1, mlift at 1. unfold mbind at 1, mlift at 1.
    unfold transaction. rewrite query_done. unfold mbind.
    change (new_letter e headers (truncate_reason reason) (clamp_i64 (now_millis clock)))
      with (letter_of clock e reason headers).
    rewrite (statement_done _ _ _ _ (Hok t)).
    erewrite statement_done; [reflexivity|]. change (texts_ok [event_id_to_string (ev_id e)] = true) in Hid.
    unfold with_texts. by rewrite Hid. }
  cbn -[dead_letter]. rewrite Hd. destruct t as [es ls lk]. cbn in *. by subst lk.
Qed.

Lemma run_alone_refused clock e reason err t :
  locked t = ∅ -> (_ <-? validated e; encode_headers (ev_headers e)) = Err err ->
  run_alone (CDeadLetter clock e reason) ∅ t = (t, RUnit (Err err)).
Proof.
  intros Ht Hh. unfold run_alone. rewrite (with_locks_same t) by done.
  assert (dead_letter clock e reason (mkConn t []) = (mkConn t [], Err err)) as Hd.
  { unfold dead_letter. destruct (validated e) as [[]|err'] eqn:Ev; cbn in Hh.
    - unfold mbind at 1, mlift at 1. by rewrite Hh.
    - unfold mbind at 1, mlift at 1. congruence. }
  cbn -[dead_letter]. rewrite Hd. destruct t as [es ls lk]. cbn in *. by subst lk.
Qed.

Lemma run_alone_upsert_error clock e reason headers m t :
  locked t = ∅ -> (_ <-? validated e; encode_headers (ev_headers e)) = Ok headers ->
  upsert_letter (letter_of clock e reason headers) t = Err m ->
  run_alone (CDeadLetter clock e reason) ∅ t = (t, RUnit (Err (Backend m))).
Proof.
  intros Ht Hh Hm. destruct (validated e) as [[]|] eqn:Ev; cbn in Hh; [|discriminate Hh].
  unfold run_alone. rewrite (with_locks_same t) by done.
  assert (dead_letter clock e reason (mkConn t []) = (mkConn t [], Err (Backend m))) as Hd.
  { unfold dead_letter. rewrite Ev, Hh. unfold mbind at 1, mlift at 1. unfold mbind at 1, mlift at 1.
    unfold transaction. rewrite query_done. unfold mbind, statement at 1. cbn [script tables next_outcome].
    change (new_letter e headers (truncate_reason reason) (clamp_i64 (now_millis clock)))
      with (letter_of clock e reason headers). by rewrite Hm. }
  cbn -[dead_letter]. rewrite Hd. destruct t as [es ls lk]. cbn in *. by subst lk.
Qed.

(** ** Simulation *)

Inductive session_rel : progress -> aprogress -> Prop :=
| rel_idle : session_rel Idle AIdle
| rel_called c : session_rel (Called c) (ACalled c)
| rel_selected limit now rows :
    session_rel (Selected limit now rows)
      (ATook (CFetchDue limit now) (REvents (collect event_of_row rows)) (row_ids rows))
| rel_upserted clock e reason headers :
    buriable clock e reason headers ->
    session_rel (Upserted clock e reason headers) (ACalled (CDeadLetter clock e reason))
| rel_deleted clock e reason headers :
    buriable clock e reason headers ->
    session_rel (Deleted clock e reason headers true) (ACalled (CDeadLetter clock e reason))
| rel_missed clock e reason headers :
    buriable clock e reason headers ->
    session_rel (Deleted clock e reason headers false) (AMissed clock e reason)
| rel_answered c r claims : session_rel (Answered c r) (ATook c r claims).

Record sim (C : Server) (A : Atomic) : Prop := {
  sim_tables : a_tables A = committed C;
  sim_locked : locked (committed C) = ∅;
  sim_sessions : forall s, session_rel (session_of s C) (asession s A)
}.

Lemma sim_moved s p t a C A :
  sim C A -> locked t = ∅ -> session_rel p a -> sim (moved_to s p t C) (amoved s a t A).
Proof.
  intros [_ _ Hs] Ht Hp. split; [done|done|]. intros s'. unfold session_of, asession. cbn.
  destruct (decide (s' = s)) as [->|Hne]; [by rewrite !lookup_insert_eq|].
  rewrite !lookup_insert_ne by done. apply Hs.
Qed.

Lemma elem_of_others {X} (held : X -> gset str) s (m : gmap nat X) k :
  k ∈ others held s m <-> exists s' x, s' <> s /\ m !! s' = Some x /\ k ∈ held x.
Proof.
  unfold others. rewrite elem_of_union_list. split.
  - intros (Y & (x & -> & ([s' x'] & -> & Hl%elem_of_map_to_list)%list_elem_of_fmap)%list_elem_of_fmap & Hk).
    apply lookup_delete_Some in Hl as [? ?]. exists s', x'. split; [by apply not_eq_sym|done].
  - intros (s' & x & Hne & Hl & Hk). exists (held x). split; [|done].
    apply list_elem_of_fmap_2. apply list_elem_of_fmap. exists (s', x). split; [done|].
    apply elem_of_map_to_list. by rewrite lookup_delete_ne.
Qed.

(** Rows are locked only for calls that overlap. *)
Lemma locks_busy s C A : sim C A -> others row_locks s (sessions C) ⊆ others busy s (a_sessions A).
Proof.
  intros [_ _ Hs] k (s' & p & Hne & Hp & Hk)%elem_of_others. specialize (Hs s').
  unfold session_of in Hs. rewrite Hp in Hs. cbn in Hs. apply elem_of_others. exists s', (asession s' A).
  split; [done|]. unfold asession in *. inversion Hs; subst; cbn in Hk; try (by apply elem_of_empty in Hk);
    destruct (a_sessions A !! s') as [a|]; cbn in *; subst; try done.
Qed.

(** A step of the server is a step of the specification, or none. *)
Lemma server_step_sim C l C' A : server_step C l C' -> sim C A ->
  exists A', ((A' = A /\ l = None) \/ atomic_step A l A') /\ sim C' A'.
Proof.
  intros Hstep HA. pose proof HA as [Ht Hl Hs].
  assert (forall s p, session_of s C = p -> session_rel p (asession s A)) as Hrel by (intros s p <-; apply Hs).
  assert (forall s p a, session_rel p a -> sim (moved s p C) (amoved s a (a_tables A) A)) as Hmove.
  { intros s p a Hp. rewrite Ht. by apply sim_moved. }
  assert (forall s p, session_rel p (asession s A) -> sim (moved s p C) A) as Hstay.
  { intros s p Hp. split; [done|done|]. intros s'. unfold session_of. cbn.
    destruct (decide (s' = s)) as [->|Hne]; [by rewrite lookup_insert_eq|]. rewrite lookup_insert_ne by done. apply Hs. }
  destruct Hstep as [s c C Hp|s c C Hp Hc _|s limit now C Hp|s limit now rows C Hp|s clock e reason err C Hp Hh|
    s clock e reason headers C Hp Hh _|s clock e reason headers C Hp _|s clock e reason headers found C Hp|
    s c m C Hp|s c r m C Hp|s c r C Hp|s C].
  - specialize (Hrel s _ Hp). inversion Hrel; subst. eexists. split; [right; by apply at_invoke|]. apply Hmove. constructor.
  - specialize (Hrel s _ Hp). inversion Hrel; subst. eexists. split; [right; by apply (at_take s c ∅)|].
    rewrite Ht. apply sim_moved; [done|done|constructor].
  - specialize (Hrel s _ Hp). inversion Hrel; subst. eexists. split.
    { right. eapply (at_take s (CFetchDue limit now) (others row_locks s (sessions C))); [done|by apply locks_busy]. }
    rewrite Ht, run_alone_fetch by done. cbn [fst snd claims_of]. rewrite <- Ht. apply Hmove. rewrite Ht. constructor.
  - specialize (Hrel s _ Hp). inversion Hrel; subst. exists A. split; [by left|].
    apply Hstay. match goal with H : _ = asession s A |- _ => rewrite <- H end. constructor.
  - specialize (Hrel s _ Hp). inversion Hrel; subst. eexists. split; [right; by apply (at_take s (CDeadLetter clock e reason) ∅)|].
    rewrite Ht, (run_alone_refused _ _ _ err) by done. rewrite <- Ht. apply Hmove. constructor.
  - specialize (Hrel s _ Hp). inversion Hrel; subst.
    destruct (upsert_letter_cases (letter_of clock e reason headers)) as [[m Hm]|[_ Hok]].
    + rewrite Hm. eexists. split; [right; by apply (at_take s (CDeadLetter clock e reason) ∅)|].
      rewrite Ht, (run_alone_upsert_error _ _ _ headers m) by done. rewrite <- Ht. apply Hmove. constructor.
    + rewrite Hok. exists A. split; [by left|]. apply Hstay. match goal with H : _ = asession s A |- _ => rewrite <- H end. constructor.
      split; [done|]. eauto.
  - specialize (Hrel s _ Hp). inversion Hrel; subst.
    case_bool_decide as Hf.
    + exists A. split; [by left|]. apply Hstay. match goal with H : _ = asession s A |- _ => rewrite <- H end. by constructor.
    + eexists. split; [right; apply at_miss; [done|rewrite Ht; by apply eq_None_not_Some]|].
      apply Hmove. by econstructor.
  - specialize (Hrel s _ Hp). inversion Hrel; subst.
    + eexists. split; [right; by apply (at_take s (CDeadLetter clock e reason) ∅)|].
      rewrite Ht, (run_alone_bury _ _ _ headers) by done. apply sim_moved; [done|done|constructor].
    + eexists. split; [right; by apply at_file|]. cbv zeta.
      rewrite Ht, (run_alone_bury _ _ _ headers) by done. cbn -[letter_of].
      assert (forall es ls, committed C = mkTables es ls ∅ ->
        mkTables (outbox_events (committed C)) (<[l_id (letter_of clock e reason headers) := letter_of clock e reason headers]>
          (outbox_dead_letters (committed C))) ∅ =
        with_letters (insert (l_id (letter_of clock e reason headers)) (letter_of clock e reason headers)) (committed C)) as Heq.
      { intros es ls ->. done. }
      rewrite (Heq (outbox_events (committed C)) (outbox_dead_letters (committed C))).
      * apply sim_moved; [done|done|constructor].
      * destruct (committed C) as [es ls lk]. cbn in *. by subst.
  - assert (forall claims, sim (moved s (Answered c (failed_reply c m)) C)
      (amoved s (ATook c (failed_reply c m) claims) (a_tables A) A)) as Hans by (intros claims; apply Hmove; constructor).
    specialize (Hrel s _ eq_refl). unfold session_of in *.
    destruct (default Idle (sessions C !! s)); cbn in Hp; try done; injection Hp as <-; inversion Hrel; subst;
      eexists; (split; [right|apply Hans]); try (by eapply at_lost); apply at_fail; eauto 6.
  - specialize (Hrel s _ Hp). inversion Hrel; subst. eexists. split; [right; by eapply at_lost|]. apply Hmove. constructor.
  - specialize (Hrel s _ Hp). inversion Hrel; subst. eexists. split; [right; by eapply at_return|]. apply Hmove. constructor.
  - eexists. split; [right; by apply at_disconnect|]. apply Hmove. constructor.
Qed.

Definition server_start (t : Tables) : Server := mkServer t ∅.
Definition atomic_start (t : Tables) : Atomic := mkAtomic t ∅.

(** C7.  Concurrent use of one Postgres outbox is a sequence of atomic calls,
    but for one case: for every interleaving of any number of clients'
    statements and commits, with statements and commits that fail, replies that
    are lost and connections that drop, there is a run with the same invocations
    and replies and the same final tables in which each call happens in one step
    of [Postgres.v] between the two.  The case is a [dead_letter] that finds no
    event to remove: it looks in one step and files its letter in a later one.
    A fetch may leave out rows, but only those that overlapping calls hold. *)
Theorem postgres_linearizable (t : Tables) (h : list visible) (C : Server)
    (Ht : locked t = ∅) (HC : runs server_step (server_start t) h C) :
  exists A, runs atomic_step (atomic_start t) h A /\ a_tables A = committed C.
Proof.
  assert (sim (server_start t) (atomic_start t)) as Hsim.
  { split; [done|done|]. intros s. unfold session_of, asession. cbn. rewrite !lookup_empty. constructor. }
  revert Hsim. generalize (atomic_start t). induction HC as [C|C l C1 h C2 Hstep _ IH]; intros A HA.
  - exists A. split; [constructor|apply HA].
  - destruct (server_step_sim _ _ _ A Hstep HA) as (A1 & HA1 & Hsim1). destruct (IH A1 Hsim1) as (A2 & Hruns & Htab).
    exists A2. split; [|done]. destruct HA1 as [[-> ->]|HA1]; [done|]. by eapply runs_cons.
Qed.

End PgSessions.
End PgSessions.

(** ** An example

    Two dispatchers poll at once, one event each: the second one's claim leaves
    out what the first one holds, and both reply after the other has selected. *)

Import Postgres PgSessions.

Definition stocked : Tables :=
  (run_alone (CAppend ev1) ∅ (run_alone (CAppend ev2) ∅ (mkTables ∅ ∅ ∅)).1).1.

Definition poll : call := CFetchDue 1 2000.
Definition called0 : Server := moved 0 (Called poll) (server_start stocked).
Definition called1 : Server := moved 1 (Called poll) called0.
Definition selects (s : nat) (C : Server) : Server :=
  moved s (Selected 1 2000 (fetch_due_rows (clamp_i64 2000) (i64_try_from_or_max 1)
    (with_locks (others row_locks s (sessions C)) (committed C)))) C.
Definition claimed (s : nat) (C : Server) : list Row :=
  match session_of s C with Selected _ _ rows => rows | _ => [] end.
Definition replies_with (s : nat) (C : Server) : Server :=
  moved s (Answered poll (REvents (collect event_of_row (claimed s C)))) C.
Definition selected0 : Server := selects 0 called1.
Definition selected1 : Server := selects 1 selected0.
Definition replied0 : Server := replies_with 0 selected1.
Definition returned0 : Server := moved 0 Idle replied0.
Definition replied1 : Server := replies_with 1 returned0.
Definition returned1 : Server := moved 1 Idle replied1.

Definition two_polls : list visible :=
  [Invoke 0 poll; Invoke 1 poll; Return 0 (REvents (Ok [ev2])); Return 1 (REvents (Ok [ev1]))].

Lemma two_polls_run : runs server_step (server_start stocked) two_polls returned1.
Proof.
  apply (runs_cons _ _ (Some (Invoke 0 poll)) called0); [apply sv_invoke; vm_eq|].
  apply (runs_cons _ _ (Some (Invoke 1 poll)) called1); [apply sv_invoke; vm_eq|].
  apply (runs_cons _ _ None selected0); [apply (sv_select 0 1 2000); vm_eq|].
  apply (runs_cons _ _ None selected1); [apply (sv_select 1 1 2000); vm_eq|].
  apply (runs_cons _ _ None replied0); [apply (sv_select_commit 0 1 2000 (claimed 0 selected1)); vm_eq|].
  apply (runs_cons _ _ (Some (Return 0 (REvents (Ok [ev2])))) returned0); [apply (sv_return 0 poll); vm_eq|].
  apply (runs_cons _ _ None replied1); [apply (sv_select_commit 1 1 2000 (claimed 1 returned0)); vm_eq|].
  apply (runs_cons _ _ (Some (Return 1 (REvents (Ok [ev1])))) returned1); [apply (sv_return 1 poll); vm_eq|].
  apply runs_nil.
Qed.

Lemma postgres_linearizable_witness :
  exists A, runs atomic_step (atomic_start stocked) two_polls A /\ a_tables A = stocked.
Proof.
  destruct (postgres_linearizable stocked two_polls returned1 eq_refl two_polls_run) as (A & H1 & H2).
  exists A. split; [exact H1|]. rewrite H2. vm_eq.
Defined.
