(* ===== verification/PostgresExamples.v ===== *)
(** * Concrete runs of the Postgres store

    The theorems of [PostgresProps.v] and [PgClaims.v] applied to small
    databases. *)

From S2P Require Import Prelude Event Truncate Codec Backoff HexUuid Store Ledger Sql SqlTable Samples.
From S2P Require Import Postgres PostgresSim PgLedger PostgresProps PgClaims.

Import Postgres.

(** A delivery, a late failure and what it makes due again. *)
Definition pg_calls : list call :=
  [CAppend ev1; CAppend ev2; CMarkDispatched 7 (eid 1); CMarkFailed (eid 1) (lit "late") 5000;
   CFetchDue 10 6000; CDeadLetter 9000000000 ev2 (lit "poison"); CPendingCount; CDeadLetters 5].

Ltac representable :=
  repeat apply Forall_cons_2; try apply Forall_nil_2;
  unfold pg_representable; cbn [sql_call_ok]; split_and?;
  first [apply storable_ev1 | apply storable_ev2 | by left | by right | vm_eq | by vm_compute | idtac].

Lemma pg_calls_representable : Forall pg_representable pg_calls.
Proof. representable. Qed.

Lemma pg_calls_without_nul cs : forallb (fun c => texts_ok (call_texts c)) cs = true -> Forall without_nul cs.
Proof. rewrite forallb_forall, Forall_forall. intros H c Hc. apply H. by apply list_elem_of_In. Qed.

(** In [calls] every failure is in time. *)
Lemma calls_representable : Forall (fun c => pg_representable c /\ without_nul c) calls.
Proof.
  apply Forall_and. split; [representable|apply pg_calls_without_nul; vm_eq].
Qed.

Lemma calls_in_time : admissible (fun p c => ~ late p c) calls pg_ledger_empty.
Proof. repeat (split; [apply (bool_decide_eq_true_1 _); vm_eq|]). done. Qed.

Lemma postgres_refines_reference_witness :
  (exists db, connect (Ok (mkConn (mkDatabase None None) [])) = Ok db /\
    (session pg_calls db).2 =
      [RUnit (Ok tt); RUnit (Ok tt); RUnit (Ok tt); RUnit (Ok tt);
       REvents (Ok [ev2; record_failure (lit "late") ev1]); RUnit (Ok tt); RCount (Ok 1);
       RLetters (Ok [(ev2, lit "poison")])]) /\
  (exists db, connect (Ok (mkConn (mkDatabase None None) [])) = Ok db /\ (session calls db).2 = replies).
Proof.
  split.
  - destruct (postgres_refines_reference pg_calls) as (db & H1 & H2 & _).
    + apply Forall_and. split; [apply pg_calls_representable|apply pg_calls_without_nul; vm_eq].
    + by vm_compute.
    + exists db. split; [exact H1|]. rewrite H2. vm_eq.
  - destruct (postgres_refines_reference calls calls_representable ltac:(by vm_compute)) as (db & H1 & _ & H3).
    exists db. split; [exact H1|]. rewrite (H3 calls_in_time). vm_eq.
Defined.

(** Connecting takes one engine call; then the reply of the first insert is
    lost, the late failure finds the server away, and the commit of the dead
    letter is refused. *)
Definition pg_bad_day : list outcome :=
  [Done; Lost (lit "reset"); Done; Done; Fails (lit "away"); Done; Done; Done;
   Done; Done; Done; Fails (lit "serialization failure")].

Definition pg_bad_calls : list call :=
  [CAppend ev1; CAppend ev2; CMarkDispatched 7 (eid 1); CMarkFailed (eid 1) (lit "late") 5000;
   CFetchDue 10 6000; CDeadLetter 9000000000 ev2 (lit "poison");
   CMarkFailed (eid 1) (lit "late") 5000; CMarkFailed (eid 1) [100; 0; 100] 5000; CFetchDue 10 6000].

Lemma postgres_faulty_refines_witness :
  exists db p, connect (Ok (mkConn (mkDatabase None None) pg_bad_day)) = Ok db /\
    (session pg_bad_calls db).2 = [RUnit (Err (Backend (lit "reset"))); RUnit (Ok tt); RUnit (Ok tt);
      RUnit (Err (Backend (lit "away"))); REvents (Ok [ev2]);
      RUnit (Err (Backend (lit "serialization failure"))); RUnit (Ok tt);
      RUnit (Err (Backend nul_in_text)); REvents (Ok [ev2; record_failure (lit "late") ev1])] /\
    faulty_session postgres_partial pg_bad_calls pg_ledger_empty (session pg_bad_calls db).2 p.
Proof.
  destruct (connect (Ok (mkConn (mkDatabase None None) pg_bad_day))) as [db|e] eqn:Hdb;
    [|discriminate (f_equal is_ok Hdb)].
  destruct (postgres_faulty_refines pg_bad_calls pg_bad_day db) as (p & Hp & _ & _).
  - representable.
  - by vm_compute.
  - exact Hdb.
  - exists db, p. split; [done|]. split; [|exact Hp]. injection Hdb as <-. vm_eq.
Defined.

Definition row1 : Row := new_row ev1 (headers_of ev1).
Definition row2 : Row := new_row ev2 (headers_of ev2).
Definition pg_rows : gmap str Row :=
  <[event_id_to_string (eid 1) := row1]> {[event_id_to_string (eid 2) := row2]}.

Lemma postgres_dead_letter_atomic_witness :
  let db := mkConn (mkTables pg_rows ∅ ∅) [Done; Done; Done; Lost (lit "connection reset")] in
  (dead_letter 0 ev1 (lit "poison") db).2 = Err (Backend (lit "connection reset")) /\
  (tables (dead_letter 0 ev1 (lit "poison") db).1 = tables db \/
   tables (dead_letter 0 ev1 (lit "poison") db).1 = lettered 0 ev1 (headers_of ev1) (lit "poison") (tables db)).
Proof.
  cbv zeta. set (db := mkConn (mkTables pg_rows ∅ ∅) [Done; Done; Done; Lost (lit "connection reset")]).
  pose proof (postgres_dead_letter_atomic 0 ev1 (lit "poison") db (headers_of ev1) ev1_topic ev1_headers) as H.
  assert ((dead_letter 0 ev1 (lit "poison") db).2 = Err (Backend (lit "connection reset"))) as E by vm_eq.
  destruct (dead_letter 0 ev1 (lit "poison") db) as [c' [[]|e]]; [discriminate E|].
  split; [exact E|exact H].
Defined.

(** A diagnostic with a zero byte. *)
Definition nul_text : str := [100; 0; 100].

Lemma postgres_unrecordable_failure_witness :
  let db := mkConn (mkTables pg_rows ∅ ∅) [] in
  tables (mark_failed (eid 1) nul_text 5000 db).1 = tables db /\
  is_ok (mark_failed (eid 1) nul_text 5000 db).2 = false.
Proof. cbv zeta. apply postgres_unrecordable_failure. left. vm_eq. Defined.

Lemma postgres_failure_revives_delivered_witness :
  (session [CAppend ev1; CMarkDispatched 7 (eid 1); CMarkFailed (eid 1) (lit "late") 5000; CFetchDue 1 6000]
     (mkConn (mkTables ∅ ∅ ∅) [])).2
    = [RUnit (Ok tt); RUnit (Ok tt); RUnit (Ok tt); REvents (Ok [record_failure (lit "late") ev1])].
Proof.
  apply (postgres_failure_revives_delivered ev1 (headers_of ev1) 7 5000 6000 (lit "late")
    ev1_wf ev1_topic ev1_headers).
  - by vm_compute.
  - by vm_compute.
  - done.
  - vm_eq.
  - unfold_int. lia.
  - unfold_int. lia.
  - lia.
Defined.

(** ** Two sessions *)

Import PgClaims.

Definition claimed1 : Cluster :=
  mkCluster pg_rows (<[0%nat := claimed_rows 0 1 2000 (initial pg_rows)]> ∅).
Definition claimed2 : Cluster :=
  mkCluster pg_rows (<[1%nat := claimed_rows 1 5 2000 claimed1]> (claims claimed1)).

Lemma claims_disjoint_witness :
  claimed_rows 0 1 2000 (initial pg_rows) = [row2] /\ claimed_rows 1 5 2000 claimed1 = [row1] /\
  r_id row2 ∉ r_id <$> [row1].
Proof.
  assert (claimed_rows 0 1 2000 (initial pg_rows) = [row2]) as H1 by vm_eq.
  assert (claimed_rows 1 5 2000 claimed1 = [row1]) as H2 by vm_eq.
  split; [exact H1|]. split; [exact H2|].
  refine (proj2 (proj2 (claims_disjoint pg_rows claimed2 _ _ 0 1 [row2] [row1] row2 _ _ _)) _).
  - intros k r Hk. unfold pg_rows in Hk. apply lookup_insert_Some in Hk as [[<- <-]|[_ Hk]]; [vm_eq|].
    apply lookup_singleton_Some in Hk as [<- <-]. vm_eq.
  - eapply rtc_l; [apply (step_claim 0 1 2000 (initial pg_rows)); vm_eq|].
    apply rtc_once. apply (step_claim 1 5 2000 claimed1). vm_eq.
  - unfold claimed2. cbn [claims claimed1]. rewrite lookup_insert_ne by done.
    rewrite lookup_insert_eq. by rewrite H1.
  - unfold claimed2. cbn [claims]. rewrite lookup_insert_eq. by rewrite H2.
  - left.
  - done.
Defined.
