(* ===== verification/Failures.v ===== *)
(** * The failure counter of a store

    What the retry budget needs of a store, as an interface: how many failures
    it has recorded for an event and whether the event is still scheduled, what
    each call may do to that, and that a fetch hands out what is recorded.  The
    three stores discharge it, the SQL ones whatever the engine does. *)

From S2P Require Import Prelude BTree Utf8 Event Truncate Codec Backoff Store Memory Sql SqlTable Sqlite Postgres.

(** The counter reads [a] now: it read [a] before, the event scheduled then if
    it is now; or [caused a f]. *)
Definition carried (before : option (Z * bool)) (caused : Prop) (a : Z) (f : bool) : Prop :=
  (exists f0, before = Some (a, f0) /\ (f = true -> f0 = true)) \/ caused.

(** What a call may do to the counter of [i], read as [a] and [f] afterwards: an
    append sets it to the failures the event comes with, or fewer where the
    column is narrower; a failure adds one. *)
Definition call_causes `{UuidOps} (c : call) (i : EventId) (before : option (Z * bool)) (a : Z) (f : bool) : Prop :=
  match c with
  | CAppend e => i = ev_id e /\ (0 <= ev_attempts e -> 0 <= a <= ev_attempts e)
  | CMarkFailed j _ retry_at =>
      i = j /\ exists a0 f0, before = Some (a0, f0) /\ (0 <= a0 -> 0 <= a <= u32_saturating_add a0 1) /\
                 (retry_at = NEVER -> f = false)
  | _ => False
  end.

Class OutboxFailures `{UO : UuidOps} (S : Type) `{OS : OutboxStore S} (inv : S -> Prop)
    (failures : S -> EventId -> option (Z * bool)) : Prop := {
  perform_failures : forall c s i a f, inv s -> failures (perform c s).1 i = Some (a, f) ->
    carried (failures s i) (call_causes c i (failures s i) a f) a f;
  fetch_due_failures : forall s limit now l e, inv s -> (fetch_due limit now s).2 = Ok l -> e ∈ l ->
    failures s (ev_id e) = Some (ev_attempts e, true)
}.

Lemma carried_same (before : option (Z * bool)) (caused : Prop) a f :
  before = Some (a, f) -> carried before caused a f.
Proof. intros H. left. by exists f. Qed.

(** ** In process *)

Section memory.
Import Memory.
Context `{UO : UuidOps} `{UL : !UuidLaws}.

Definition mem_failures (s : Inner) (i : EventId) : option (Z * bool) :=
  (fun p => (ev_attempts p.2, negb (p.1 =? NEVER))) <$> events s !! i.

#[export] Instance MemoryStore_failures : OutboxFailures Inner mem_inv mem_failures.
Proof.
  split.
  - intros c s i a f Hs. destruct c as [e|n now|k j|j m t| | |k e r|n];
      cbn -[append mark_failed]; try (by intros ?; apply carried_same).
    + unfold append. destruct (validated e); [|by apply carried_same].
      destruct (_ || _); [by apply carried_same|].
      unfold mem_failures. cbn. rewrite lookup_insert. case_decide as Hi; [|by apply carried_same].
      cbn. intros [= <- _]. right. split; [done|lia].
    + unfold mem_failures. cbn. rewrite lookup_delete. case_decide; [done|by apply carried_same].
    + pose proof (f_equal scheduled (mark_failed_abs j m t s)) as Habs. cbn in Habs.
      unfold mem_failures. rewrite Habs, lookup_alter. case_decide as Hj; [subst j|by apply carried_same].
      destruct (events s !! i) as [[t0 e0]|]; cbn; [|done]. intros [= <- <-]. right. split; [done|].
      do 2 eexists. split; [done|]. split; [unfold u32_saturating_add; int_lia|]. by intros ->.
  - intros s n now l e Hs Hl He. cbn -[fetch_due] in Hl. rewrite fetch_due_abs in Hl by done.
    injection Hl as <-. apply list_elem_of_fmap in He as ([i [t e']] & -> & Hin).
    apply elem_of_take_usize, elem_of_ref_due in Hin as (Hp & Hn). cbn in *.
    pose proof (inv_ids _ Hs _ _ Hp) as Hid. cbn in Hid. unfold mem_failures. rewrite Hid.
    change (scheduled (abs s)) with (events s) in Hp. rewrite Hp. cbn.
    destruct Hn as [_ Hn]. cbn in Hn. by rewrite (proj2 (Z.eqb_neq _ _) Hn).
Qed.
End memory.

(** ** Over a connection

    [counts tr allowed]: the tables found and left agree on the counters, but
    for the entries [allowed]. *)

(** Columns decode to the attempts they hold. *)
Lemma event_from_row_attempts `{UuidOps} i topic p h ca a le e :
  event_from_row i topic p h ca a le = Ok e -> ev_attempts e = u32_try_from_or_max a.
Proof.
  unfold event_from_row. intros (? & _ & H1)%rbind_ok_inv. by apply rbind_ok_inv in H1 as (? & _ & [= <-]).
Qed.

Section conn.
Context `{UO : UuidOps} {T : Type} (tr : T -> EventId -> option (Z * bool)).

Definition counts (allowed : EventId -> Z -> Prop) (t t' : T) : Prop :=
  forall i a f, tr t' i = Some (a, f) -> carried (tr t i) (allowed i a) a f.

#[export] Instance counts_preorder allowed : PreOrder (counts allowed).
Proof.
  split; [intros t i a f; by apply carried_same|]. intros t1 t2 t3 H1 H2 i a f H.
  destruct (H2 i a f H) as [(f2 & E2 & Hf2)|?]; [|by right].
  destruct (H1 i a f2 E2) as [(f1 & E1 & Hf1)|?]; [left; exists f1; auto|by right].
Qed.

Definition no_entry : EventId -> Z -> Prop := fun _ _ => False.

Lemma counts_none t t' : counts no_entry t t' ->
  forall (caused : EventId -> Z -> bool -> Prop) i a f,
  tr t' i = Some (a, f) -> carried (tr t i) (caused i a f) a f.
Proof. intros H caused i a f Hi. destruct (H i a f Hi) as [?|[]]. by left. Qed.

(** One statement, run or not. *)
Lemma statement_tables {A} (g : T -> result (T * A) str) (c : Conn T) :
  tables (statement g c).1 = tables c \/
  exists t x, g (tables c) = Ok (t, x) /\ tables (statement g c).1 = t.
Proof.
  unfold statement. destruct (next_outcome (script c)) as [[|m|m] s]; cbn; [| |];
    destruct (g (tables c)) as [[t x]|m'] eqn:E; cbn; eauto 6.
Qed.
End conn.

(** ** Over a table of rows *)

Section rows.
Context `{UO : UuidOps} `{UL : !UuidLaws} {R : Type} (counter : R -> Z * bool).

Definition row_at (rows : gmap str R) (i : EventId) : option (Z * bool) :=
  counter <$> rows !! event_id_to_string i.

(** Rewriting one row, the others as they were. *)
Lemma alter_counts (g : R -> R) j (allowed : EventId -> Z -> bool -> Prop) rows i a f :
  (forall r, rows !! event_id_to_string j = Some r -> counter (g r) = (a, f) ->
     carried (Some (counter r)) (allowed j a f) a f) ->
  row_at (alter g (event_id_to_string j) rows) i = Some (a, f) ->
  carried (row_at rows i) (allowed i a f) a f.
Proof.
  intros Hg. unfold row_at. rewrite lookup_alter. case_decide as Hj; [|by apply carried_same].
  apply (inj event_id_to_string) in Hj as <-.
  destruct (rows !! event_id_to_string j) as [r|]; cbn; [|done]. intros Hr%(inj Some). by apply Hg.
Qed.

Lemma insert_counts r j (allowed : EventId -> Z -> Prop) rows i a f :
  allowed j (counter r).1 -> row_at (<[event_id_to_string j := r]> rows) i = Some (a, f) ->
  carried (row_at rows i) (allowed i a) a f.
Proof.
  intros Hr. unfold row_at. rewrite lookup_insert. case_decide as Hi; [|by apply carried_same].
  apply (inj event_id_to_string) in Hi as <-. intros H%(inj Some). right. by rewrite H in Hr.
Qed.

Lemma delete_counts j rows i a f (caused : Prop) :
  row_at (delete (event_id_to_string j) rows) i = Some (a, f) -> carried (row_at rows i) caused a f.
Proof. unfold row_at. rewrite lookup_delete. case_decide; [done|apply carried_same]. Qed.

(** A failure counted, the row parked if the time says so. *)
Lemma failed_counts (g : R -> R) j m at_ rows i a f :
  (forall r, rows !! event_id_to_string j = Some r ->
     (0 <= (counter r).1 -> 0 <= (counter (g r)).1 <= u32_saturating_add (counter r).1 1) /\
     (at_ = NEVER -> (counter (g r)).2 = false)) ->
  row_at (alter g (event_id_to_string j) rows) i = Some (a, f) ->
  carried (row_at rows i) (call_causes (CMarkFailed j m at_) i (row_at rows i) a f) a f.
Proof.
  intros Hg. apply (alter_counts g j (fun i a f => call_causes (CMarkFailed j m at_) i (row_at rows i) a f)).
  intros r Hr E. specialize (Hg r Hr). rewrite E in Hg. right. split; [done|].
  exists (counter r).1, (counter r).2. unfold row_at. rewrite Hr. cbn. destruct (counter r). by destruct Hg.
Qed.
End rows.

(** ** SQLite *)

Section sqlite.
Import Sqlite.
Context `{UO : UuidOps} `{UL : !UuidLaws} `{SE : SqlEngine}.

Definition row_failures (r : Row) : Z * bool :=
  (u32_try_from_or_max (r_attempts r), bool_decide (pending_row r)).
Definition failures_in (t : Tables) (i : EventId) : option (Z * bool) :=
  row_at row_failures (outbox_events t) i.
Definition sqlite_failures (c : Conn Tables) (i : EventId) : option (Z * bool) := failures_in (tables c) i.

Lemma append_counts e :
  keeps (counts failures_in (fun i a => i = ev_id e /\ (0 <= ev_attempts e -> 0 <= a <= ev_attempts e))) (append e).
Proof.
  unfold append. keeps_steps. apply keeps_statement; [apply _|]. intros t t' n Ht. injection Ht as Ht. revert Ht.
  unfold insert_or_ignore. destruct (outbox_events t !! _) as [r|] eqn:E; intros [= <- _]; [done|].
  intros i b f. apply (insert_counts _ (new_row e _) (ev_id e) (fun i a => i = ev_id e /\ (0 <= ev_attempts e -> 0 <= a <= ev_attempts e))).
  split; [done|]. cbn -[u32_try_from_or_max i32_try_from_or_max]. unfold clamp_i64. int_lia.
Qed.

Lemma mark_failed_counts i m at_ c j a f :
  failures_in (tables (mark_failed j m at_ c).1) i = Some (a, f) ->
  carried (failures_in (tables c) i) (call_causes (CMarkFailed j m at_) i (failures_in (tables c) i) a f) a f.
Proof.
  unfold mark_failed. destruct (statement_tables (update_failed (event_id_to_string j) (truncate_error m) (clamp_i64 at_)) c)
    as [-> |(t & [] & Ht & ->)]; [by apply carried_same|]. revert Ht. unfold update_failed.
  destruct (outbox_events (tables c) !! event_id_to_string j) as [r|] eqn:E;
    [|intros [= <-]; by apply carried_same].
  case_match; [|done]. intros [= <-]. apply failed_counts. intros r' _. split.
  - unfold u32_try_from_or_max, u32_saturating_add. cbn. int_lia.
  - intros ->. apply bool_decide_eq_false. intros [_ H1]. cbn in H1. revert H1. by vm_compute.
Qed.

Lemma mark_dispatched_counts clock j : keeps (counts failures_in no_entry) (mark_dispatched clock j).
Proof.
  apply keeps_update; [apply _|]. intros t i a f. apply (alter_counts _ _ j (fun _ _ _ => False)).
  intros r _ [= <- <-]. left. exists (bool_decide (pending_row r)). unfold set_dispatched.
  destruct (r_dispatched_at r) eqn:Ed; [done|]. split; [done|]. done.
Qed.

Lemma dead_letter_counts clock e reason : keeps (counts failures_in no_entry) (dead_letter clock e reason).
Proof.
  unfold dead_letter. keeps_steps; (apply keeps_update; [apply _|]); intros t i b f;
    [by apply carried_same|apply delete_counts].
Qed.

#[export] Instance SqliteStore_failures : OutboxFailures (Conn Tables) sql_inv sqlite_failures.
Proof.
  split.
  - intros c s i a f _. unfold sqlite_failures.
    assert (forall {A} (m : M (Conn Tables) StoreError A), keeps (counts failures_in no_entry) m ->
      failures_in (tables (m s).1) i = Some (a, f) ->
      carried (failures_in (tables s) i) (call_causes c i (failures_in (tables s) i) a f) a f) as Hquiet.
    { intros A m Hm. by apply (counts_none _ _ _ (Hm s) (fun i => call_causes c i (failures_in (tables s) i))). }
    destruct c as [e|n now|k j|j m t| | |k e r|n].
    + apply append_counts.
    + apply Hquiet, fetch_due_keeps, _.
    + apply Hquiet, mark_dispatched_counts.
    + apply mark_failed_counts.
    + apply Hquiet. unfold Store.pending_count, SqliteStore, pending_count. keeps_steps.
    + apply Hquiet. unfold Store.parked_count, SqliteStore, parked_count. keeps_steps.
    + apply Hquiet, dead_letter_counts.
    + apply Hquiet. unfold Store.dead_letters, SqliteStore, dead_letters. keeps_steps. apply read_rows_keeps, _.
  - intros s n now l e Hs Hl He. destruct (fetch_due_returns _ _ _ _ _ Hl He) as (r & Hr & Hd).
    apply elem_of_select in Hr as [(Hn & _ & Hp) [k Hk]]. destruct (Hs _ _ Hk) as [Hid [i ->]].
    unfold sqlite_failures, failures_in, row_at. rewrite (decode_row_id _ _ _ Hid Hd), Hk. cbn. unfold row_failures.
    rewrite bool_decide_eq_true_2 by done. do 2 f_equal.
    unfold decode_row in Hd. apply rbind_ok_inv in Hd as (? & _ & Hd). apply rbind_ok_inv in Hd as (? & _ & Hd).
    apply rbind_ok_inv in Hd as (? & _ & Hd). symmetry. by apply event_from_row_attempts in Hd.
Qed.
End sqlite.

(** ** Postgres *)

Section postgres.
Import Postgres.
Context `{UO : UuidOps} `{UL : !UuidLaws} `{SE : SqlEngine}.

Definition pg_row_failures (r : Row) : Z * bool :=
  (u32_try_from_or_max (r_attempts r), bool_decide (r_status r = Pending)).
Definition pg_failures_in (t : Tables) (i : EventId) : option (Z * bool) :=
  row_at pg_row_failures (outbox_events t) i.
Definition postgres_failures (c : Conn Tables) (i : EventId) : option (Z * bool) :=
  pg_failures_in (tables c) i.

Lemma pg_append_counts e :
  keeps (counts pg_failures_in (fun i a => i = ev_id e /\ (0 <= ev_attempts e -> 0 <= a <= ev_attempts e))) (append e).
Proof.
  unfold append. keeps_steps. apply keeps_statement; [apply _|]. intros t t' [] Ht%with_texts_ok. injection Ht as <-.
  unfold insert_or_nothing. destruct (outbox_events t !! _) as [r|] eqn:E; [done|].
  intros i b f. apply (insert_counts _ (new_row e _) (ev_id e) (fun i a => i = ev_id e /\ (0 <= ev_attempts e -> 0 <= a <= ev_attempts e))).
  split; [done|]. cbn -[u32_try_from_or_max i32_try_from_or_max]. int_lia.
Qed.

Lemma pg_mark_failed_counts i m at_ c j a f :
  pg_failures_in (tables (mark_failed j m at_ c).1) i = Some (a, f) ->
  carried (pg_failures_in (tables c) i) (call_causes (CMarkFailed j m at_) i (pg_failures_in (tables c) i) a f) a f.
Proof.
  unfold mark_failed.
  edestruct (statement_tables (with_texts [event_id_to_string j; truncate_error m]
    (update_failed (event_id_to_string j) (truncate_error m) (clamp_i64 at_))) c)
    as [-> |(t & [] & Ht%with_texts_ok & ->)]; [by apply carried_same|]. revert Ht. unfold update_failed.
  destruct (outbox_events (tables c) !! event_id_to_string j) as [r|] eqn:E;
    [|intros [= <-]; by apply carried_same].
  case_match; [|done]. intros [= <-]. apply failed_counts. intros r' _. split.
  - unfold u32_try_from_or_max, u32_saturating_add. cbn. int_lia.
  - intros ->. by vm_compute.
Qed.

Lemma pg_mark_dispatched_counts clock j : keeps (counts pg_failures_in no_entry) (mark_dispatched clock j).
Proof.
  apply keeps_statement; [apply _|]. intros t t' [] Ht%with_texts_ok. injection Ht as <-. intros i a f.
  apply (alter_counts _ _ j (fun _ _ _ => False)).
  intros r _ [= <- <-]. left. unfold pg_row_failures, set_dispatched. exists (bool_decide (r_status r = Pending)).
  by destruct (r_status r) eqn:Ed; (split; [cbn; rewrite ?Ed|]); cbn; rewrite ?Ed.
Qed.

Lemma pg_dead_letter_counts clock e reason :
  keeps (counts pg_failures_in no_entry) (dead_letter clock e reason).
Proof.
  unfold dead_letter. keeps_steps. apply keeps_transaction; [apply _|]. keeps_steps;
    (apply keeps_statement; [apply _|]); intros t t' u Ht%with_texts_ok; injection Ht as <- _; intros i b f;
    [by apply carried_same|apply delete_counts].
Qed.

#[export] Instance PostgresStore_failures : OutboxFailures (Conn Tables) sql_inv postgres_failures.
Proof.
  split.
  - intros c s i a f _. unfold postgres_failures.
    assert (forall {A} (m : M (Conn Tables) StoreError A), keeps (counts pg_failures_in no_entry) m ->
      pg_failures_in (tables (m s).1) i = Some (a, f) ->
      carried (pg_failures_in (tables s) i) (call_causes c i (pg_failures_in (tables s) i) a f) a f) as Hquiet.
    { intros A m Hm. by apply (counts_none _ _ _ (Hm s) (fun i => call_causes c i (pg_failures_in (tables s) i))). }
    destruct c as [e|n now|k j|j m t| | |k e r|n].
    + apply pg_append_counts.
    + apply Hquiet, pg_fetch_due_keeps, _.
    + apply Hquiet, pg_mark_dispatched_counts.
    + apply pg_mark_failed_counts.
    + apply Hquiet. unfold Store.pending_count, PostgresStore, pending_count. keeps_steps.
    + apply Hquiet. unfold Store.parked_count, PostgresStore, parked_count. keeps_steps.
    + apply Hquiet, pg_dead_letter_counts.
    + apply Hquiet. unfold Store.dead_letters, PostgresStore, dead_letters. keeps_steps.
  - intros s n now l e Hs Hl He. destruct (pg_fetch_due_returns _ _ _ _ _ Hl He) as (r & Hr & Hd).
    apply elem_of_select in Hr as [(Hp & _) [k Hk]]. destruct (Hs _ _ Hk) as [Hid [i ->]].
    unfold postgres_failures, pg_failures_in, row_at, event_of_row in *.
    pose proof (event_from_row_attempts _ _ _ _ _ _ _ _ Hd) as ->. rewrite Hid in Hd.
    rewrite (event_from_row_id _ _ _ _ _ _ _ _ Hd), Hk. cbn. unfold pg_row_failures.
    by rewrite bool_decide_eq_true_2.
Qed.
End postgres.
