(* ===== verification/Envelopes.v ===== *)
(** * What was appended is what comes out

    The part of an event that no store may change, and the interface saying
    that none does: while only events of a class [A] are appended, whatever a
    fetch returns has the envelope of a member of [A] whose topic is valid.  The
    three stores discharge it, the SQL ones whatever the engine does and through
    the headers codec. *)

From S2P Require Import Prelude BTree Utf8 Event Truncate Codec Backoff Store Memory Sql SqlTable Sqlite Postgres.

(** Everything but the failure count and the last error.  A creation time
    beyond [i64::MAX] is clamped by the SQL stores. *)
Record same_envelope `{UuidOps} (e0 e : OutboxEvent) : Prop := {
  se_id : ev_id e = ev_id e0;
  se_topic : ev_topic e = ev_topic e0;
  se_payload : ev_payload e = ev_payload e0;
  se_headers : ev_headers e = ev_headers e0;
  se_created_at : ev_created_at e = ev_created_at e0 \/
    i64_max <= ev_created_at e0 /\ ev_created_at e = i64_max
}.

(** [e] came from a member of [A] that the stores accept. *)
Definition comes_from `{UuidOps} (A : OutboxEvent -> Prop) (e : OutboxEvent) : Prop :=
  exists e0, A e0 /\ validate e0 = Ok tt /\ same_envelope e0 e.

(** A call appends members of [A] only. *)
Definition supplies `{UuidOps} (A : OutboxEvent -> Prop) (c : call) : Prop :=
  match c with CAppend e => A e | _ => True end.

Class OutboxEnvelopes `{UO : UuidOps} (S : Type) `{OS : OutboxStore S}
    (genuine : (OutboxEvent -> Prop) -> S -> Prop) : Prop := {
  perform_genuine : forall A c s, supplies A c -> genuine A s -> genuine A (perform c s).1;
  fetch_due_genuine : forall A s limit now l e, (forall e, A e -> wf_event e) ->
    genuine A s -> (fetch_due limit now s).2 = Ok l -> e ∈ l -> comes_from A e
}.

Lemma validated_validate `{UuidOps} e : validated e = Ok tt -> validate e = Ok tt.
Proof. unfold validated. by destruct (validate e) as [[]|]. Qed.

Section memory.
Import Memory.
Context `{UO : UuidOps} `{UL : !UuidLaws}.

Definition mem_genuine (A : OutboxEvent -> Prop) (s : Inner) : Prop :=
  mem_inv s /\ forall i t e, events s !! i = Some (t, e) -> comes_from A e.

Lemma record_failure_comes A m e : comes_from A e -> comes_from A (record_failure m e).
Proof. intros (e0 & HA & Hv & []). exists e0. by split; [|split; [|split]]. Qed.

#[export] Instance MemoryStore_envelopes : OutboxEnvelopes Inner mem_genuine.
Proof.
  split.
  - intros A c s Hc [Hs Hg]. split; [by apply (perform_refines c s (abs s))|].
    destruct c as [e|n now|k j|j m t| | |k e r|n]; cbn -[append mark_failed]; try done.
    + unfold append. destruct (validated e) as [[]|] eqn:E; [|done]. destruct (_ || _); [done|]. cbn.
      intros i t e' [[_ [= <- <-]]|[_ Hl]]%lookup_insert_Some; [|by eapply Hg].
      exists e. split; [done|]. split; [by apply validated_validate|]. by split; [..|left].
    + intros i t e [_ Hl]%lookup_delete_Some. by eapply Hg.
    + intros i t' e. pose proof (f_equal scheduled (mark_failed_abs j m t s)) as Habs. cbn in Habs. rewrite Habs.
      rewrite lookup_alter. case_decide; [|by apply Hg].
      intros ([t0 e0] & Hl & [= <- ->])%fmap_Some. by eapply record_failure_comes, Hg.
  - intros A s n now l e _ [Hs Hg] Hl He. cbn -[fetch_due] in Hl. rewrite fetch_due_abs in Hl by done.
    injection Hl as <-. apply list_elem_of_fmap in He as ([i [t e']] & -> & Hin).
    apply elem_of_take_usize, elem_of_ref_due in Hin as [Hp _]. by eapply Hg.
Qed.
End memory.

(** ** A table of rows *)

Section rows.
Context `{UO : UuidOps} `{UL : !UuidLaws}.

(** The columns no statement updates. *)
Record Columns := mkColumns {
  c_id : str; c_topic : str; c_payload : bytes; c_headers : bytes; c_created_at : Z
}.

Definition columns_of (e : OutboxEvent) (headers : bytes) : Columns :=
  mkColumns (event_id_to_string (ev_id e)) (ev_topic e) (ev_payload e) headers (clamp_i64 (ev_created_at e)).

Context {R : Type} (columns : R -> Columns).

Definition rows_from (A : OutboxEvent -> Prop) (rows : gmap str R) : Prop := forall k r,
  rows !! k = Some r -> exists e0 h, A e0 /\ validate e0 = Ok tt /\
    encode_headers (ev_headers e0) = Ok h /\ columns r = columns_of e0 h.

Lemma rows_from_insert A rows k r e h :
  A e -> validated e = Ok tt -> encode_headers (ev_headers e) = Ok h -> columns r = columns_of e h ->
  rows_from A rows -> rows_from A (<[k := r]> rows).
Proof.
  intros HA Hv Hh Hc Hg k' r' [[_ <-]|[_ Hl]]%lookup_insert_Some; [|by eapply Hg].
  exists e, h. split; [done|]. split; [by apply validated_validate|done].
Qed.

Lemma rows_from_alter A rows k (f : R -> R) :
  (forall r, columns (f r) = columns r) -> rows_from A rows -> rows_from A (alter f k rows).
Proof.
  intros Hf Hg k' r'. rewrite lookup_alter. case_decide; [|by apply Hg].
  intros (r & Hl & ->)%fmap_Some. rewrite Hf. by eapply Hg.
Qed.

Lemma rows_from_delete A rows k : rows_from A rows -> rows_from A (delete k rows).
Proof. intros Hg k' r' [_ Hl]%lookup_delete_Some. by eapply Hg. Qed.

(** A row decodes to the envelope it was written from. *)
Lemma columns_decode e0 h a le e :
  wf_event e0 -> encode_headers (ev_headers e0) = Ok h ->
  let c := columns_of e0 h in
  event_from_row (c_id c) (c_topic c) (c_payload c) (c_headers c) (c_created_at c) a le = Ok e ->
  same_envelope e0 e.
Proof.
  intros Hwf Hh. cbn. unfold event_from_row. rewrite parse_to_string. cbn [map_err rbind].
  rewrite <- (app_nil_r h), (roundtrip (ev_headers e0)) by (try done; apply Hwf). cbn [rbind].
  intros [= <-]. split; try done. cbn. pose proof (wf_created_at _ Hwf).
  unfold unclamp_u64, clamp_i64. int_lia.
Qed.

Lemma rows_from_decode A rows k r a le e :
  (forall e, A e -> wf_event e) -> rows_from A rows -> rows !! k = Some r ->
  (let c := columns r in
   event_from_row (c_id c) (c_topic c) (c_payload c) (c_headers c) (c_created_at c) a le = Ok e) ->
  comes_from A e.
Proof.
  intros HA Hg Hl. destruct (Hg k r Hl) as (e0 & h & H0 & Hv & Hh & ->). intros Hd.
  exists e0. split; [done|]. split; [done|]. by eapply columns_decode; [apply HA| |].
Qed.
End rows.

(** Kept by a computation: the tables hold what [P] says. *)
Definition preserved {T} (P : T -> Prop) (t t' : T) : Prop := P t -> P t'.
#[export] Instance preserved_preorder {T} (P : T -> Prop) : PreOrder (preserved P).
Proof. split; [by intros ??|]. intros t1 t2 t3 H1 H2 H. by apply H2, H1. Qed.

(** ** SQLite *)

Section sqlite.
Import Sqlite.
Context `{UO : UuidOps} `{UL : !UuidLaws} `{SE : SqlEngine}.

Definition row_columns (r : Row) : Columns :=
  mkColumns (r_id r) (r_topic r) (r_payload r) (r_headers r) (r_created_at r).
Definition genuine_in (A : OutboxEvent -> Prop) (t : Tables) : Prop :=
  rows_from row_columns A (outbox_events t).
Definition sqlite_genuine (A : OutboxEvent -> Prop) (c : Conn Tables) : Prop := genuine_in A (tables c).

Lemma alter_genuine A f k t : (forall r, row_columns (f r) = row_columns r) ->
  preserved (genuine_in A) t (with_events (alter f k) t).
Proof. intros Hf Hg. by apply rows_from_alter. Qed.

#[export] Instance SqliteStore_envelopes : OutboxEnvelopes (Conn Tables) sqlite_genuine.
Proof.
  split.
  - intros A c s Hc. change (preserved (genuine_in A) (tables s) (tables (perform c s).1)).
    assert (forall {B} (m : M (Conn Tables) StoreError B), keeps (preserved (genuine_in A)) m ->
      preserved (genuine_in A) (tables s) (tables (m s).1)) as Hkeep by (by intros B m Hm).
    destruct c as [e|n now|k j|j m t| | |k e r|n]; apply Hkeep.
    + apply keeps_bind_lift; [apply _|]. intros [] Hv. apply keeps_bind_lift; [apply _|]. intros h Hh.
      keeps_steps. apply keeps_statement; [apply _|]. intros t t' n Ht. injection Ht as Ht. revert Ht.
      unfold insert_or_ignore. destruct (outbox_events t !! _); intros [= <- _]; [done|].
      intros Hg. by apply (rows_from_insert _ _ _ _ _ e h).
    + apply fetch_due_keeps, _.
    + apply keeps_update; [apply _|]. intros t0. apply alter_genuine. intros r. unfold set_dispatched. by case_match.
    + apply keeps_statement; [apply _|]. intros t0 t' u. unfold update_failed.
      destruct (outbox_events t0 !! _); [|by intros [= <- _]].
      case_match; [|done]. intros [= <- _]. by apply alter_genuine.
    + unfold Store.pending_count, SqliteStore, pending_count. keeps_steps.
    + unfold Store.parked_count, SqliteStore, parked_count. keeps_steps.
    + unfold Store.dead_letter, SqliteStore, dead_letter. keeps_steps; (apply keeps_update; [apply _|]); [by intros t0 Hg|].
      intros t0 Hg. by apply rows_from_delete.
    + unfold Store.dead_letters, SqliteStore, dead_letters. keeps_steps. apply read_rows_keeps, _.
  - intros A s n now l e HA Hg Hl He. destruct (fetch_due_returns _ _ _ _ _ Hl He) as (r & Hr & Hd).
    apply elem_of_select in Hr as [_ [k Hk]]. unfold decode_row in Hd.
    apply rbind_ok_inv in Hd as (id & [-> _]%row_get_string_ok & Hd).
    apply rbind_ok_inv in Hd as (topic & [-> _]%row_get_string_ok & Hd).
    apply rbind_ok_inv in Hd as (le & _ & Hd). by eapply (rows_from_decode row_columns A _ k r).
Qed.
End sqlite.

(** ** Postgres *)

Section postgres.
Import Postgres.
Context `{UO : UuidOps} `{UL : !UuidLaws} `{SE : SqlEngine}.

Definition pg_row_columns (r : Row) : Columns :=
  mkColumns (r_id r) (r_topic r) (r_payload r) (r_headers r) (r_created_at r).
Definition pg_genuine_in (A : OutboxEvent -> Prop) (t : Tables) : Prop :=
  rows_from pg_row_columns A (outbox_events t).
Definition postgres_genuine (A : OutboxEvent -> Prop) (c : Conn Tables) : Prop := pg_genuine_in A (tables c).

Lemma pg_alter_genuine A f k t : (forall r, pg_row_columns (f r) = pg_row_columns r) ->
  preserved (pg_genuine_in A) t (with_events (alter f k) t).
Proof. intros Hf Hg. by apply rows_from_alter. Qed.

#[export] Instance PostgresStore_envelopes : OutboxEnvelopes (Conn Tables) postgres_genuine.
Proof.
  split.
  - intros A c s Hc. change (preserved (pg_genuine_in A) (tables s) (tables (perform c s).1)).
    assert (forall {B} (m : M (Conn Tables) StoreError B), keeps (preserved (pg_genuine_in A)) m ->
      preserved (pg_genuine_in A) (tables s) (tables (m s).1)) as Hkeep by (by intros B m Hm).
    destruct c as [e|n now|k j|j m t| | |k e r|n]; apply Hkeep.
    + apply keeps_bind_lift; [apply _|]. intros [] Hv. apply keeps_bind_lift; [apply _|]. intros h Hh.
      apply keeps_statement; [apply _|]. intros t t' [] Ht%with_texts_ok. injection Ht as <-.
      unfold insert_or_nothing. destruct (outbox_events t !! _); [done|].
      intros Hg. by apply (rows_from_insert _ _ _ _ _ e h).
    + apply pg_fetch_due_keeps, _.
    + apply keeps_statement; [apply _|]. intros t t' u Ht%with_texts_ok. injection Ht as <- _.
      apply pg_alter_genuine. intros r. unfold set_dispatched. by case_match.
    + apply keeps_statement; [apply _|]. intros t0 t' u Ht%with_texts_ok. revert Ht. unfold update_failed.
      destruct (outbox_events t0 !! _); [|by intros [= <- _]].
      case_match; [|done]. intros [= <- _]. by apply pg_alter_genuine.
    + unfold Store.pending_count, PostgresStore, pending_count. keeps_steps.
    + unfold Store.parked_count, PostgresStore, parked_count. keeps_steps.
    + unfold Store.dead_letter, PostgresStore, dead_letter. keeps_steps. apply keeps_transaction; [apply _|]. keeps_steps;
        (apply keeps_statement; [apply _|]); intros t t' u Ht%with_texts_ok; injection Ht as <- _; [by intros Hg|].
      intros Hg. by apply rows_from_delete.
    + unfold Store.dead_letters, PostgresStore, dead_letters. keeps_steps.
  - intros A s n now l e HA Hg Hl He. destruct (pg_fetch_due_returns _ _ _ _ _ Hl He) as (r & Hr & Hd).
    apply elem_of_select in Hr as [_ [k Hk]]. by eapply (rows_from_decode pg_row_columns A _ k r).
Qed.
End postgres.
