(* ===== verification/Stores.v ===== *)
(** * One contract, three stores

    A client that stays inside the common contract cannot tell
    [src/src/memory.rs], [src/src/sqlite/mod.rs] and [src/src/postgres/mod.rs]
    apart.  The conditions are what the three disagree about: letters
    ([MemoryStore] keeps none), a delivery reported for an id the store never
    saw ([MemoryStore] remembers it), a failure reported for a delivered event
    (Postgres revives it), and the widths of the SQL columns. *)

From S2P Require Import Prelude BTree Event Backoff HexUuid Store Ledger Memory Sql SqlTable Samples.
From S2P Require Import Sqlite SqliteSim Postgres PostgresSim.

Import Memory Sqlite Postgres.

Section Stores.
Context `{UO : UuidOps} `{UL : !UuidLaws} `{SE : SqlEngine}.

Lemma memory_session cs : (session cs Memory.new).2 = (session cs ref_empty).2.
Proof.
  apply (session_simulation (fun _ => Memory.refines) (fun _ _ => True)).
  - intros _ c s t _. apply Memory.perform_refines.
  - apply admissible_any.
  - split; [apply Memory.new_inv|done].
Qed.

Lemma ledger_session cs :
  admissible agrees_on cs ref_empty -> (session cs ledger_empty).2 = (session cs ref_empty).2.
Proof.
  intros Hok. apply (session_simulation (fun _ l o => l = mkLedger o ∅) agrees_on); [|done..].
  intros _ c l o Hc ->. by apply perform_agrees.
Qed.

Lemma pg_calls_sql cs l : admissible pg_call_ok cs l -> Forall sql_call_ok cs.
Proof.
  revert l. induction cs as [|c cs IH]; intros l; [constructor|]. intros [[Hc _] Hcs].
  constructor; [done|by eapply IH].
Qed.

(** C20.  On sessions inside the common contract, the in-process store, SQLite
    and Postgres give the same replies to every call. *)
Theorem stores_interchangeable (cs : list call) (Hmarks : admissible agrees_on cs ref_empty)
    (Hok : admissible pg_call_ok cs ledger_empty) (Hn : len cs <= 1000000000) :
  exists sqlite postgres, Sqlite.open_in_memory (Ok []) = Ok sqlite /\
    Postgres.connect (Ok (mkConn (Postgres.mkDatabase None None) [])) = Ok postgres /\
    (session cs sqlite).2 = (session cs Memory.new).2 /\
    (session cs postgres).2 = (session cs Memory.new).2.
Proof.
  exists (mkConn (Sqlite.mkTables ∅ ∅) []), (mkConn (Postgres.mkTables ∅ ∅ ∅) []).
  split; [done|]. split; [done|]. rewrite memory_session, <- ledger_session by done. split.
  - apply sqlite_session; [by eapply pg_calls_sql|]. apply sqlite_empty. unfold_int. unfold len in Hn. lia.
  - apply pg_session; [done|]. by apply postgres_empty.
Qed.
End Stores.

(** ** An example *)

Definition common_calls : list call :=
  [CAppend ev1; CAppend ev2; CMarkFailed (eid 1) (lit "down") NEVER; CFetchDue 10 6000;
   CMarkDispatched 7 (eid 2); CParkedCount; CPendingCount].

Lemma stores_interchangeable_witness :
  exists sqlite postgres, Sqlite.open_in_memory (Ok []) = Ok sqlite /\
    Postgres.connect (Ok (mkConn (Postgres.mkDatabase None None) [])) = Ok postgres /\
    (session common_calls sqlite).2 = (session common_calls Memory.new).2 /\
    (session common_calls postgres).2 = (session common_calls Memory.new).2 /\
    (session common_calls Memory.new).2 = [RUnit (Ok tt); RUnit (Ok tt); RUnit (Ok tt);
      REvents (Ok [ev2]); RUnit (Ok tt); RCount (Ok 1); RCount (Ok 0)].
Proof.
  destruct (stores_interchangeable common_calls) as (sq & pg & H1 & H2 & H3 & H4).
  - do 4 (split; [done|]). split; [left; apply (bool_decide_eq_true_1 _); vm_eq|done].
  - split; [split; [apply storable_ev1|split; [by vm_compute|done]]|].
    split; [split; [apply storable_ev2|split; [by vm_compute|done]]|].
    split; [split; [split; [by right|vm_eq]|split; [apply (bool_decide_eq_true_1 _); vm_eq|vm_eq]]|].
    split; [split; [split; by vm_compute|done]|]. done.
  - by vm_compute.
  - exists sq, pg. do 4 (split; [assumption|]). vm_eq.
Defined.
