(* ===== verification/Metrics.v ===== *)
(** * Dispatch metrics

    [src/src/metrics.rs] and its stand-in [src/src/metrics_noop.rs].  The
    registry is the [metrics-kit] crate's: [MetricsKit] lists the calls the
    program makes on it.  The handles are registered once per process, behind a
    [OnceLock]; when any registration fails, emission is off for good. *)

From S2P Require Import Prelude.

(** The [metrics-kit] registry: registration may fail; a handle is used
    through the registry it came from.  A duration is in nanoseconds. *)
Class MetricsKit := {
  Registry : Type;
  Counter : Type;
  Gauge : Type;
  Histogram : Type;
  reg_counter : str -> list (str * str) -> Registry -> Registry * result Counter str;
  reg_gauge : str -> Registry -> Registry * result Gauge str;
  reg_histogram : str -> Registry -> Registry * result Histogram str;
  inc : Counter -> Registry -> Registry;
  gauge_set : Gauge -> Z -> Registry -> Registry;
  observe : Histogram -> Z -> Registry -> Registry
}.

Definition DISPATCH_TOTAL : str := lit "outbox_dispatch_total".
Definition PENDING : str := lit "outbox_pending".
Definition DISPATCH_DURATION : str := lit "outbox_dispatch_duration_seconds".
Definition RESULT_SUCCESS : str := lit "success".
Definition RESULT_FAILURE : str := lit "failure".
Definition RESULT_BREAKER_PAUSED : str := lit "breaker-paused".

Inductive DispatchResult := Success | Failed | BreakerPaused.
#[export] Instance DispatchResult_eq_dec : EqDecision DispatchResult.
Proof. solve_decision. Defined.

(** What the dispatcher emits, in order. *)
Inductive emission :=
| EResult (r : DispatchResult)
| EDuration (elapsed : Z)
| EPending (count : Z).
#[export] Instance emission_eq_dec : EqDecision emission.
Proof. solve_decision. Defined.

Section Metrics.
Context `{MK : MetricsKit}.

Record DispatchMetrics := mkDispatchMetrics {
  m_success : Counter;
  m_failure : Counter;
  m_breaker_paused : Counter;
  m_pending : Gauge;
  m_duration : Histogram
}.

(** [DispatchMetrics::register]: the first failure gives up ([.ok()?]). *)
Definition register : M Registry str DispatchMetrics :=
  success <-- reg_counter DISPATCH_TOTAL [(lit "result", RESULT_SUCCESS)];
  failure <-- reg_counter DISPATCH_TOTAL [(lit "result", RESULT_FAILURE)];
  breaker_paused <-- reg_counter DISPATCH_TOTAL [(lit "result", RESULT_BREAKER_PAUSED)];
  pending <-- reg_gauge PENDING;
  duration <-- reg_histogram DISPATCH_DURATION;
  mret (mkDispatchMetrics success failure breaker_paused pending duration).

(** The process: the global registry and the [METRICS] cell. *)
Record Process := mkProcess {
  registry : Registry;
  METRICS : option (option DispatchMetrics)
}.

(** [METRICS.get_or_init(DispatchMetrics::register).as_ref()] *)
Definition metrics (p : Process) : Process * option DispatchMetrics :=
  match METRICS p with
  | Some m => (p, m)
  | None =>
      let '(r, res) := register (registry p) in
      let m := match res with Ok m => Some m | Err _ => None end in
      (mkProcess r (Some m), m)
  end.

Definition with_metrics (f : DispatchMetrics -> Registry -> Registry) (p : Process) : Process :=
  match metrics p with
  | (p, Some m) => mkProcess (f m (registry p)) (METRICS p)
  | (p, None) => p
  end.

Definition dispatch_result (result : DispatchResult) : Process -> Process :=
  with_metrics (fun m =>
    match result with
    | Success => inc (m_success m)
    | Failed => inc (m_failure m)
    | BreakerPaused => inc (m_breaker_paused m)
    end).

Definition observe_duration (elapsed : Z) : Process -> Process :=
  with_metrics (fun m => observe (m_duration m) elapsed).

Definition set_pending (count : Z) : Process -> Process :=
  with_metrics (fun m => gauge_set (m_pending m) (u32_try_from_or_max count)).

Definition emit (e : emission) : Process -> Process :=
  match e with
  | EResult r => dispatch_result r
  | EDuration d => observe_duration d
  | EPending n => set_pending n
  end.

(** [metrics_noop.rs]: every function compiles to nothing. *)
Definition emit_noop (e : emission) (p : Process) : Process := p.

Definition emit_all (es : list emission) (p : Process) : Process := foldl (fun p e => emit e p) p es.

(** The series an emission touches, and how. *)
Definition touch (m : DispatchMetrics) (r : Registry) (e : emission) : Registry :=
  match e with
  | EResult Success => inc (m_success m) r
  | EResult Failed => inc (m_failure m) r
  | EResult BreakerPaused => inc (m_breaker_paused m) r
  | EDuration d => observe (m_duration m) d r
  | EPending n => gauge_set (m_pending m) (Z.min n u32_max) r
  end.

Definition emission_ok (e : emission) : Prop :=
  match e with EPending n => in_u64 n | _ => True end.

Lemma emit_registered e m p :
  emission_ok e -> METRICS p = Some (Some m) ->
  emit e p = mkProcess (touch m (registry p) e) (Some (Some m)).
Proof.
  intros He Hm. destruct p as [r cell]. cbn in Hm. subst cell.
  destruct e as [[]|d|n]; try done. cbn in He. cbn -[Z.min u32_try_from_or_max].
  unfold with_metrics. cbn -[Z.min u32_try_from_or_max]. by replace (u32_try_from_or_max n) with (Z.min n u32_max) by int_lia.
Qed.

Lemma emit_disabled e p : METRICS p = Some None -> emit e p = p.
Proof. intros Hm. destruct p as [r cell]. cbn in Hm. subst cell. by destruct e as [[]| |]. Qed.

Lemma emit_first e r :
  emit e (mkProcess r None) = emit e (metrics (mkProcess r None)).1.
Proof.
  assert (forall f, with_metrics f (mkProcess r None) = with_metrics f (metrics (mkProcess r None)).1) as H.
  { intros f. unfold with_metrics, metrics. cbn. by destruct (register r) as [r' [m|err]]. }
  destruct e as [[]|d|n]; apply H.
Qed.

Lemma emit_all_registered es m p :
  Forall emission_ok es -> METRICS p = Some (Some m) ->
  emit_all es p = mkProcess (foldl (touch m) (registry p) es) (Some (Some m)).
Proof.
  intros Hes. unfold emit_all. revert p. induction Hes as [|e es He _ IH]; intros p Hm.
  - destruct p. cbn in *. by subst.
  - cbn. rewrite (emit_registered _ m) by done. by rewrite IH.
Qed.

Lemma emit_all_disabled es p : METRICS p = Some None -> emit_all es p = p.
Proof.
  intros Hm. unfold emit_all. induction es as [|e es IH]; [done|]. cbn. by rewrite emit_disabled.
Qed.

(** C25.  However much is emitted, the handles are registered exactly once, on
    the first emission.  If that succeeded, every emission lands on its own
    series, the backlog gauge capped at [u32::MAX]; if any registration failed,
    nothing is ever emitted. *)
Lemma emission_all_or_nothing (es : list emission) (r : Registry)
    (Hne : es <> []) (Hes : Forall emission_ok es) :
  emit_all es (mkProcess r None) =
    match register r with
    | (r', Ok m) => mkProcess (foldl (touch m) r' es) (Some (Some m))
    | (r', Err _) => mkProcess r' (Some None)
    end.
Proof.
  destruct es as [|e es]; [done|].
  assert (emit_all (e :: es) (mkProcess r None) = emit_all (e :: es) (metrics (mkProcess r None)).1) as ->.
  { unfold emit_all. cbn [foldl]. by rewrite emit_first. }
  unfold metrics. cbn [METRICS registry]. destruct (register r) as [r' [m|err]]; cbn [fst].
  - by rewrite (emit_all_registered _ m).
  - by apply emit_all_disabled.
Qed.
End Metrics.

(** A registry that counts: series by name and label, the last gauge value,
    the observations; registration fails from a given number of series on. *)
#[local] Instance counting_kit (budget : nat) : MetricsKit := {|
  Registry := nat * list Z * list (Z * Z);
  Counter := nat;
  Gauge := nat;
  Histogram := nat;
  reg_counter _ _ r := let '(n, cs, gs) := r in
    if (n <? budget)%nat then ((S n, cs ++ [0], gs), Ok n) else (r, Err (lit "cardinality"));
  reg_gauge _ r := let '(n, cs, gs) := r in
    if (n <? budget)%nat then ((S n, cs ++ [0], gs), Ok n) else (r, Err (lit "cardinality"));
  reg_histogram _ r := let '(n, cs, gs) := r in
    if (n <? budget)%nat then ((S n, cs ++ [0], gs), Ok n) else (r, Err (lit "cardinality"));
  inc c r := let '(n, cs, gs) := r in (n, alter Z.succ c cs, gs);
  gauge_set g v r := let '(n, cs, gs) := r in (n, <[g := v]> cs, gs);
  observe h d r := let '(n, cs, gs) := r in (n, alter Z.succ h cs, gs ++ [(0, d)])
|}.

Definition sample_emissions : list emission :=
  [EResult Success; EDuration 7; EResult BreakerPaused; EResult Success; EPending u64_max].

Lemma emission_all_or_nothing_witness :
  @emit_all (counting_kit 5) sample_emissions (@mkProcess (counting_kit 5) (0%nat, [], []) None)
    = @mkProcess (counting_kit 5) (5%nat, [2; 0; 1; u32_max; 1], [(0, 7)])
        (Some (Some (@mkDispatchMetrics (counting_kit 5) 0%nat 1%nat 2%nat 3%nat 4%nat))) /\
  @emit_all (counting_kit 4) sample_emissions (@mkProcess (counting_kit 4) (0%nat, [], []) None)
    = @mkProcess (counting_kit 4) (4%nat, [0; 0; 0; 0], []) (Some None).
Proof.
  split.
  - rewrite (@emission_all_or_nothing (counting_kit 5)); [reflexivity|done|].
    repeat constructor; unfold_int; lia.
  - rewrite (@emission_all_or_nothing (counting_kit 4)); [reflexivity|done|].
    repeat constructor; unfold_int; lia.
Defined.
