(* ===== verification/Dispatch.v ===== *)
(** * The dispatcher

    [src/src/dispatch.rs].  The poll loop, the tasks it spawns and the
    environment (producers, operators, a shutdown, a crash and restart) run as
    a step relation over a [World]; what each step does to the store is the
    code's own call.  The store is any [OutboxStore]; the circuit breaker is the
    [breaker] crate's, of which the program uses "admit or reject" and "settle".

    One step is one atomic action: a store call, an admission, the end of a
    send.  Everything [tokio] may interleave is a separate step. *)

From S2P Require Import Prelude BTree Event Backoff Store Metrics.

Module Dispatch.

(** ** Batch tuning *)

Definition DEFAULT_POLL_INTERVAL : Z := from_millis 500.
Definition DEFAULT_CONCURRENCY : Z := 16.
Definition DEFAULT_BATCH_SIZE : Z := 100.
Definition DEFAULT_BATCH_MIN : Z := 10.
Definition DEFAULT_IDLE_PARK_AFTER : Z := 60.
Definition IDLE_POLL_DIVISOR : Z := 10.

Record FetchBatch := mkFetchBatch { fb_min : Z; fb_max : Z; fb_park_after : Z }.

Definition default_fetch_batch : FetchBatch :=
  mkFetchBatch DEFAULT_BATCH_MIN DEFAULT_BATCH_SIZE DEFAULT_IDLE_PARK_AFTER.

Definition saturated (b : FetchBatch) : FetchBatch :=
  let min := Z.max (fb_min b) 1 in
  mkFetchBatch min (Z.max (fb_max b) min) (Z.max (fb_park_after b) 1).

Definition next_size (b : FetchBatch) (current fetched : Z) : Z :=
  if current <=? fetched
  then Z.max (Z.min (usize_saturating_mul current 2) (fb_max b)) (fb_min b)
  else fb_min b.

Definition is_idle_parked (b : FetchBatch) (empty_streak : Z) : bool :=
  fb_park_after b <=? empty_streak.

(** The loop's local variables. *)
Record Loop := mkLoop { batch_size : Z; empty_streak : Z; idle_tick : Z }.

Definition loop_start (b : FetchBatch) : Loop := mkLoop (fb_min b) 0 0.

(** The head of a tick: whether this one fetches. *)
Definition idle_gate (b : FetchBatch) (l : Loop) : Loop * bool :=
  if is_idle_parked b (empty_streak l)
  then let t := (idle_tick l + 1) mod IDLE_POLL_DIVISOR in
       (mkLoop (batch_size l) (empty_streak l) t, t =? 0)
  else (l, true).

(** After a fetch that returned [fetched] events. *)
Definition after_fetch (b : FetchBatch) (l : Loop) (fetched : Z) : Loop :=
  mkLoop (next_size b (batch_size l) fetched)
    (if fetched =? 0 then u32_saturating_add (empty_streak l) 1 else 0) (idle_tick l).

(** ** The circuit breaker *)

Inductive CircuitBreakerError :=
| CircuitOpen
| Rejected
| Failure (err : DispatchError)
| OtherError (text : str).

(** How an admitted send ends: the sender's result, or an error class of the
    breaker's own (its optional time limit). *)
Inductive sent := SentOk | SentErr (err : DispatchError) | SentOther (text : str).

(** [CircuitBreaker]: a call is rejected, before the closure runs, or admitted
    and settled with its outcome.  [Z] arguments are clock readings. *)
Class BreakerOps := {
  CircuitBreakerConfig : Type;
  CircuitBreaker : Type;
  standard : CircuitBreakerConfig;
  breaker_new : CircuitBreakerConfig -> CircuitBreaker;
  (** [None]: admitted; [Some true]: open; [Some false]: no probe slot. *)
  admission : Z -> CircuitBreaker -> CircuitBreaker * option bool;
  settle : Z -> sent -> CircuitBreaker -> CircuitBreaker
}.

Definition call_result (r : sent) : result unit CircuitBreakerError :=
  match r with
  | SentOk => Ok tt
  | SentErr err => Err (Failure err)
  | SentOther text => Err (OtherError text)
  end.

Section Dispatch.
Context `{JO : JitterOps} `{BO : BreakerOps}.

Record DispatcherConfig := mkConfig {
  poll_interval : Z;
  fetch_batch : FetchBatch;
  concurrency : Z;
  backoff : BackoffPolicy;
  breaker_config : CircuitBreakerConfig
}.

Definition default_config : DispatcherConfig :=
  mkConfig DEFAULT_POLL_INTERVAL default_fetch_batch DEFAULT_CONCURRENCY default_policy standard.

Definition effective_poll_interval (c : DispatcherConfig) : Z := Z.max (poll_interval c) (from_millis 1).
Definition effective_batch (c : DispatcherConfig) : FetchBatch := saturated (fetch_batch c).
Definition permits (c : DispatcherConfig) : Z := Z.max (concurrency c) 1.

(** ** Recording an outcome *)

(** The clock readings of one task: [mark_dispatched]'s, [retry_at]'s, the
    jitter seed's, and the measured duration. *)
Record Clocks := mkClocks { k_mark : Z; k_retry : Z; k_seed : Z; k_elapsed : Z }.

Definition retry_at (c : DispatcherConfig) (event : OutboxEvent) (k : Clocks) : Z :=
  let attempts := u32_saturating_add (ev_attempts event) 1 in
  if is_exhausted (backoff c) attempts then NEVER
  else let delay := retry_delay (backoff c) attempts (ev_id event) (k_seed k) in
       u64_saturating_add (now_millis (k_retry k)) (u64_try_from_or_max (as_millis delay)).

(** The [match] of [process], once the breaker call is over: the store call it
    makes (whose result is ignored) and what it emits. *)
Definition process {S} `{!OutboxStore S} (c : DispatcherConfig) (event : OutboxEvent)
    (outcome : result unit CircuitBreakerError) (k : Clocks) (s : S) : S * list emission :=
  match outcome with
  | Ok _ =>
      ((mark_dispatched (k_mark k) (ev_id event) s).1, [EResult Success; EDuration (k_elapsed k)])
  | Err (CircuitOpen | Rejected) => (s, [EResult BreakerPaused])
  | Err (Failure err) =>
      ((mark_failed (ev_id event) (dispatch_error_to_string err) (retry_at c event k) s).1,
       [EResult Failed; EDuration (k_elapsed k)])
  | Err (OtherError text) =>
      ((mark_failed (ev_id event) text (retry_at c event k) s).1,
       [EResult Failed; EDuration (k_elapsed k)])
  end.

(** ** The running dispatcher *)

(** A spawned [process]: waiting for a permit; in the sender; or over, holding
    its permit until the outcome is recorded. *)
Inductive phase := Waiting | Sending | Recording (r : result unit CircuitBreakerError).
Record Task := mkTask { t_event : OutboxEvent; t_phase : phase }.

Definition holds_permit (t : Task) : bool :=
  match t_phase t with Waiting => false | _ => true end.
Definition permits_held (ts : list Task) : Z := len (filter holds_permit ts).

(** Where [run] is: at [select!], draining the batch, before the gauge sample,
    in the final drain, returned. *)
Inductive place := Selecting | Draining | Gauging | Finishing | Returned.

(** [acked], [appended] and [lettered] are the history: events the sender
    accepted, that a producer appended, that an operator asked to dead-letter
    (whatever the answer: the burial may be done and its reply lost). *)
Record World (S : Type) := mkWorld {
  store : S;
  breaker : CircuitBreaker;
  tasks : list Task;
  at_ : place;
  vars : Loop;
  shutting_down : bool;
  acked : gset EventId;
  appended : gset EventId;
  lettered : gset EventId
}.
Arguments mkWorld {S}.
Arguments store {S}. Arguments breaker {S}. Arguments tasks {S}. Arguments at_ {S}.
Arguments vars {S}. Arguments shutting_down {S}. Arguments acked {S}.
Arguments appended {S}. Arguments lettered {S}.

Section run.
Context {S : Type} `{OS : !OutboxStore S} (c : DispatcherConfig).

(** [with_config], then [run]: no task, the loop before its first tick. *)
Definition start (s : S) (acked appended lettered : gset EventId) : World S :=
  mkWorld s (breaker_new (breaker_config c)) [] Selecting (loop_start (effective_batch c)) false
    acked appended lettered.

Definition set_tasks (ts : list Task) (w : World S) : World S :=
  mkWorld (store w) (breaker w) ts (at_ w) (vars w) (shutting_down w) (acked w) (appended w) (lettered w).
Definition set_place (p : place) (w : World S) : World S :=
  mkWorld (store w) (breaker w) (tasks w) p (vars w) (shutting_down w) (acked w) (appended w) (lettered w).
Definition set_store (s : S) (w : World S) : World S :=
  mkWorld s (breaker w) (tasks w) (at_ w) (vars w) (shutting_down w) (acked w) (appended w) (lettered w).
Definition set_vars (l : Loop) (w : World S) : World S :=
  mkWorld (store w) (breaker w) (tasks w) (at_ w) l (shutting_down w) (acked w) (appended w) (lettered w).

(** One tick of the poll loop, up to the spawns. *)
Definition tick (clock : Z) (w : World S) : World S :=
  let b := effective_batch c in
  let '(l, fetches) := idle_gate b (vars w) in
  if fetches then
    match fetch_due (batch_size l) (now_millis clock) (store w) with
    | (s, Err _) => set_vars l (set_store s w)
    | (s, Ok due) =>
        set_place Draining (set_tasks (tasks w ++ ((fun e => mkTask e Waiting) <$> due))
          (set_vars (after_fetch b l (len due)) (set_store s w)))
    end
  else set_vars l w.

(** A permit is free: the task takes it and asks the breaker. *)
Definition admitted (n : nat) (e : OutboxEvent) (clock : Z) (w : World S) : World S :=
  let '(b, rejection) := admission clock (breaker w) in
  let p := match rejection with
           | None => Sending
           | Some true => Recording (Err CircuitOpen)
           | Some false => Recording (Err Rejected)
           end in
  mkWorld (store w) b (<[n := mkTask e p]> (tasks w)) (at_ w) (vars w) (shutting_down w)
    (acked w) (appended w) (lettered w).

(** The send is over, and the breaker has settled it. *)
Definition finished (n : nat) (e : OutboxEvent) (r : sent) (clock : Z) (w : World S) : World S :=
  mkWorld (store w) (settle clock r (breaker w)) (<[n := mkTask e (Recording (call_result r))]> (tasks w))
    (at_ w) (vars w) (shutting_down w)
    (match r with SentOk => {[ev_id e]} ∪ acked w | _ => acked w end) (appended w) (lettered w).

(** The outcome is recorded, the permit released, the task over. *)
Definition recorded (n : nat) (e : OutboxEvent) (r : result unit CircuitBreakerError) (k : Clocks)
    (w : World S) : World S :=
  set_tasks (delete n (tasks w)) (set_store (process c e r k (store w)).1 w).

(** The dispatcher's own steps. *)
Inductive run_step : World S -> World S -> Prop :=
| step_tick clock w :
    at_ w = Selecting -> run_step w (tick clock w)
| step_admit n e clock w :
    tasks w !! n = Some (mkTask e Waiting) -> permits_held (tasks w) < permits c ->
    run_step w (admitted n e clock w)
| step_sent n e r clock w :
    tasks w !! n = Some (mkTask e Sending) -> run_step w (finished n e r clock w)
| step_panic n e w :
    tasks w !! n = Some (mkTask e Sending) -> run_step w (set_tasks (delete n (tasks w)) w)
| step_record n e r k w :
    tasks w !! n = Some (mkTask e (Recording r)) -> run_step w (recorded n e r k w)
| step_drained w :
    at_ w = Draining -> tasks w = [] -> run_step w (set_place Gauging w)
| step_gauge w :
    at_ w = Gauging -> run_step w (set_place Selecting (set_store (pending_count (store w)).1 w))
| step_break w :
    at_ w = Selecting -> shutting_down w = true -> run_step w (set_place Finishing w)
| step_return w :
    at_ w = Finishing -> tasks w = [] -> run_step w (set_place Returned w).

Definition shutdown (w : World S) : World S :=
  mkWorld (store w) (breaker w) (tasks w) (at_ w) (vars w) true (acked w) (appended w) (lettered w).

Definition produced (e : OutboxEvent) (w : World S) : World S :=
  mkWorld (append e (store w)).1 (breaker w) (tasks w) (at_ w) (vars w) (shutting_down w) (acked w)
    (if is_ok (append e (store w)).2 then {[ev_id e]} ∪ appended w else appended w) (lettered w).

Definition closed (clock : Z) (e : OutboxEvent) (reason : str) (w : World S) : World S :=
  mkWorld (dead_letter clock e reason (store w)).1 (breaker w) (tasks w) (at_ w) (vars w)
    (shutting_down w) (acked w) (appended w) ({[ev_id e]} ∪ lettered w).

(** Another instance's sender accepted the event. *)
Definition sent_elsewhere (i : EventId) (w : World S) : World S :=
  mkWorld (store w) (breaker w) (tasks w) (at_ w) (vars w) (shutting_down w)
    ({[i]} ∪ acked w) (appended w) (lettered w).

(** Everyone else's: producers and operators use the same store; other
    dispatchers poll it, send, and record; [shutdown] may be signalled at any
    time; the process may die and be started again on what the store kept. *)
Inductive env_step : World S -> World S -> Prop :=
| step_append e w : env_step w (produced e w)
| step_dead_letter clock e reason w : env_step w (closed clock e reason w)
| step_reschedule i error retry_at_ms w :
    env_step w (set_store (mark_failed i error retry_at_ms (store w)).1 w)
| step_poll_elsewhere limit clock w :
    env_step w (set_store (fetch_due limit (now_millis clock) (store w)).1 w)
| step_count_elsewhere w :
    env_step w (set_store (pending_count (store w)).1 w)
| step_sent_elsewhere i w : env_step w (sent_elsewhere i w)
| step_mark_elsewhere clock i w :
    i ∈ acked w -> env_step w (set_store (mark_dispatched clock i (store w)).1 w)
| step_shutdown w : env_step w (shutdown w)
| step_restart w : env_step w (start (store w) (acked w) (appended w) (lettered w)).

Definition world_step (w w' : World S) : Prop := run_step w w' \/ env_step w w'.

Definition reachable (s0 : S) (w : World S) : Prop := rtc world_step (start s0 ∅ ∅ ∅) w.
End run.
End Dispatch.

Arguments mkWorld {_ _ _}.
Arguments store {_ _ _}.
Arguments breaker {_ _ _}.
Arguments tasks {_ _ _}.
Arguments at_ {_ _ _}.
Arguments vars {_ _ _}.
Arguments shutting_down {_ _ _}.
Arguments acked {_ _ _}.
Arguments appended {_ _ _}.
Arguments lettered {_ _ _}.
End Dispatch.
