(* ===== verification/DispatchSafety.v ===== *)
(** * What the dispatcher guarantees over any store

    Invariants of the step relation of [Dispatch.v] against the store interface
    [OutboxLaws]: nothing is lost, in-flight work is bounded and never doubled,
    a shutdown completes.  [Memory], [Sqlite] and [Postgres] discharge the
    interface. *)

From S2P Require Import Prelude BTree Event Backoff Store Metrics Dispatch.

Import Dispatch.

(** ** One task in a list *)

Section tasks.
Context `{JO : JitterOps}.

Lemma held_at (ts : list Task) n t :
  ts !! n = Some t ->
  permits_held ts = permits_held (take n ts) + (if holds_permit t then 1 else 0)
                    + permits_held (drop (S n) ts).
Proof.
  intros Ht. rewrite <- (take_drop_middle ts n t Ht) at 1. unfold permits_held.
  rewrite filter_app, len_app. replace (take n ts ++ t :: drop (S n) ts) with (take n ts ++ [t] ++ drop (S n) ts) by done.
  rewrite filter_cons. destruct (holds_permit t); case_decide; try done; rewrite ?len_cons; lia.
Qed.

Lemma held_insert ts n t t' :
  ts !! n = Some t ->
  permits_held (<[n := t']> ts) = permits_held (take n ts) + (if holds_permit t' then 1 else 0)
                    + permits_held (drop (S n) ts).
Proof.
  intros Ht. apply lookup_lt_Some in Ht.
  rewrite (held_at (<[n := t']> ts) n t') by (by apply list_lookup_insert_eq).
  rewrite take_insert_ge by lia. by rewrite drop_insert_lt by lia.
Qed.

Lemma held_delete ts n t :
  ts !! n = Some t ->
  permits_held (delete n ts) = permits_held (take n ts) + permits_held (drop (S n) ts).
Proof.
  intros Ht. rewrite delete_take_drop. unfold permits_held. by rewrite filter_app, len_app.
Qed.

Lemma held_waiting (es : list OutboxEvent) : permits_held ((fun e => mkTask e Waiting) <$> es) = 0.
Proof. unfold permits_held. by induction es. Qed.

Lemma held_nonneg ts : 0 <= permits_held ts.
Proof. apply len_nonneg. Qed.

Definition task_ids (ts : list Task) : list EventId := (fun t => ev_id (t_event t)) <$> ts.

Lemma task_ids_insert ts n e p p' :
  ts !! n = Some (mkTask e p) -> task_ids (<[n := mkTask e p']> ts) = task_ids ts.
Proof.
  intros Ht. unfold task_ids. rewrite list_fmap_insert. apply list_insert_id.
  by rewrite list_lookup_fmap, Ht.
Qed.

Lemma task_ids_delete ts n : NoDup (task_ids ts) -> NoDup (task_ids (delete n ts)).
Proof.
  intros H. eapply sublist_NoDup; [exact H|]. apply fmap_sublist, sublist_delete.
Qed.
End tasks.

(** ** Batch tuning *)

Definition size_ok (b : FetchBatch) (n : Z) : Prop := fb_min b <= n <= fb_max b.

Lemma saturated_ok b : 1 <= fb_min (saturated b) <= fb_max (saturated b) /\ 1 <= fb_park_after (saturated b).
Proof. unfold saturated. cbn. lia. Qed.

Lemma next_size_ok b current fetched :
  fb_min b <= fb_max b -> size_ok b (next_size b current fetched).
Proof. intros Hb. unfold next_size, size_ok. case_match; lia. Qed.

Section safety.
Context `{JO : JitterOps} `{BO : BreakerOps}.
Context {S : Type} `{OS : !OutboxStore S} {inv : S -> Prop} {live delivered : S -> EventId -> Prop}.
Context `{OL : !OutboxLaws S inv live delivered} (c : DispatcherConfig).

(** ** Nothing is lost *)

Lemma process_inv e r k s : inv s -> inv (process c e r k s).1.
Proof.
  intros Hs. destruct r as [u|[| |err|text]]; cbn; try done.
  - by eapply mark_dispatched_inv.
  - by eapply mark_failed_inv.
  - by eapply mark_failed_inv.
Qed.

Lemma process_live e r k s i :
  inv s -> live s i -> (r = Ok tt -> i <> ev_id e) -> live (process c e r k s).1 i.
Proof.
  intros Hs Hi Hr. destruct r as [[]|[| |err|text]]; cbn; try done.
  - eapply mark_dispatched_keeps; eauto.
  - eapply mark_failed_keeps; eauto.
  - eapply mark_failed_keeps; eauto.
Qed.

Lemma process_delivered e r k s i :
  inv s -> delivered (process c e r k s).1 i -> delivered s i \/ r = Ok tt /\ i = ev_id e.
Proof.
  intros Hs. destruct r as [[]|[| |err|text]]; cbn; auto.
  - intros Hd. eapply mark_dispatched_delivered in Hd as [?| ->]; eauto.
  - intros Hd. left. eapply mark_failed_delivered; eauto.
  - intros Hd. left. eapply mark_failed_delivered; eauto.
Qed.

(** An outcome to be recorded as delivered has been accepted by the sender. *)
Definition task_acked (a : gset EventId) (t : Task) : Prop :=
  t_phase t = Recording (Ok tt) -> ev_id (t_event t) ∈ a.

Record world_inv (w : World S) : Prop := {
  wi_store : inv (store w);
  wi_delivered : forall i, delivered (store w) i -> i ∈ acked w;
  wi_tasks : Forall (task_acked (acked w)) (tasks w);
  wi_kept : forall i, i ∈ appended w -> live (store w) i \/ i ∈ acked w \/ i ∈ lettered w
}.

Lemma tasks_acked_mono a a' ts :
  a ⊆ a' -> Forall (task_acked a) ts -> Forall (task_acked a') ts.
Proof. intros Ha Hts. eapply Forall_impl; [exact Hts|]. intros t Ht Hp. by apply Ha, Ht. Qed.

Lemma tick_inv clock w : world_inv w -> world_inv (tick c clock w).
Proof.
  intros [Hs Hd Ht Hk]. unfold tick. destruct (idle_gate _ (vars w)) as [l [|]]; [|by split].
  destruct (fetch_due (batch_size l) (now_millis clock) (store w)) as [s r] eqn:E.
  assert (inv s) as Hs' by (pose proof (fetch_due_inv (inv := inv) (live := live) (delivered := delivered) (store w) (batch_size l) (now_millis clock) Hs) as H; by rewrite E in H).
  assert (forall i, live (store w) i -> live s i) as Hl.
  { intros i Hi. pose proof (fetch_due_keeps (inv := inv) (live := live) (delivered := delivered)
      (store w) (batch_size l) (now_millis clock) i Hs Hi) as H. by rewrite E in H. }
  assert (forall i, delivered s i -> delivered (store w) i) as Hdel.
  { intros i Hi. pose proof (fetch_due_delivered (inv := inv) (live := live) (delivered := delivered)
      (store w) (batch_size l) (now_millis clock) i Hs) as H. rewrite E in H. by apply H. }
  assert (forall i, i ∈ appended w -> live s i \/ i ∈ acked w \/ i ∈ lettered w) as Hk'.
  { intros i Hi. destruct (Hk i Hi) as [?|?]; auto. }
  destruct r as [due|err]; split; cbn; eauto.
  apply Forall_app. split; [done|]. apply Forall_fmap, Forall_true. done.
Qed.

Lemma run_step_inv w w' : run_step c w w' -> world_inv w -> world_inv w'.
Proof.
  intros Hstep Hw. destruct Hstep as [clock w Hp|n e clock w Ht Hh|n e r clock w Ht|n e w Ht|
    n e r k w Ht|w Hp Ht|w Hp|w Hp Hsd|w Hp Ht].
  - by apply tick_inv.
  - destruct Hw as [Hs Hd Hts Hk]. unfold admitted. destruct (admission clock (breaker w)) as [b rej].
    split; cbn; try done. apply Forall_insert; [done|]. by destruct rej as [[]|].
  - destruct Hw as [Hs Hd Hts Hk].
    assert (acked w ⊆ match r with SentOk => {[ev_id e]} ∪ acked w | _ => acked w end) as Hsub
      by (destruct r; set_solver).
    split; cbn; try done.
    + intros i Hi. by apply Hsub, Hd.
    + apply Forall_insert; [by eapply tasks_acked_mono|]. destruct r; [|done..].
      intros _. cbn. set_solver.
    + intros i Hi. destruct (Hk i Hi) as [?|[Ha%Hsub|?]]; auto.
  - destruct Hw as [Hs Hd Hts Hk]. split; cbn; try done. by apply Forall_delete.
  - destruct Hw as [Hs Hd Hts Hk].
    assert (r = Ok tt -> ev_id e ∈ acked w) as Hr.
    { intros ->. apply (Forall_lookup_1 _ _ _ _ Hts Ht). done. }
    split; cbn -[process]; [by apply process_inv| |by apply Forall_delete|].
    + intros i [Hi|[Hok ->]]%process_delivered; auto.
    + intros i Hi. destruct (Hk i Hi) as [Hl|?]; [|by right].
      destruct (decide (i ∈ acked w)) as [?|Hn]; [by right; left|]. left.
      apply process_live; [done|done|]. intros Hok ->. by apply Hn, Hr.
  - by destruct Hw; split.
  - destruct Hw as [Hs Hd Hts Hk]. split; cbn; try done.
    + by eapply pending_count_inv.
    + intros i Hi. apply Hd. by eapply pending_count_delivered.
    + intros i Hi. destruct (Hk i Hi) as [?|?]; [left|by right]. by eapply pending_count_keeps.
  - by destruct Hw; split.
  - by destruct Hw; split.
Qed.

Lemma env_step_inv w w' : env_step c w w' -> world_inv w -> world_inv w'.
Proof.
  intros Hstep [Hs Hd Hts Hk]. destruct Hstep as [e w|clock e reason w|j m at_ w|n clock w|w|j w|clock j w Hj|w|w].
  - split; cbn; [by eapply append_inv| |done|].
    + intros i Hi. apply Hd. by eapply append_delivered.
    + assert (forall i, live (store w) i \/ i ∈ acked w \/ i ∈ lettered w ->
        live (append e (store w)).1 i \/ i ∈ acked w \/ i ∈ lettered w) as Hmono.
      { intros i [Hl|?]; [left|by right]. by eapply append_keeps. }
      intros i Hi. destruct (append e (store w)).2 as [[]|err] eqn:E; cbn in Hi; [|auto].
      apply elem_of_union in Hi as [->%elem_of_singleton|Hi]; [|auto].
      destruct (append_records (inv := inv) (live := live) (delivered := delivered) (store w) e Hs E) as [?|?%Hd]; auto.
  - split; cbn; [by eapply dead_letter_inv| |done|].
    + intros i Hi. apply Hd. by eapply dead_letter_delivered.
    + intros i Hi. destruct (decide (i = ev_id e)) as [->|Hne]; [right; right; set_solver|].
      destruct (Hk i Hi) as [?|[?|?]]; [left; by eapply dead_letter_keeps|by right; left|right; right; set_solver].
  - split; cbn; [by eapply mark_failed_inv| |done|].
    + intros i Hi. apply Hd. by eapply mark_failed_delivered.
    + intros i Hi. destruct (Hk i Hi) as [?|?]; [left|by right]. by eapply mark_failed_keeps.
  - split; cbn; [by eapply fetch_due_inv| |done|].
    + intros i Hi. apply Hd. by eapply fetch_due_delivered.
    + intros i Hi. destruct (Hk i Hi) as [?|?]; [left|by right]. by eapply fetch_due_keeps.
  - split; cbn; [by eapply pending_count_inv| |done|].
    + intros i Hi. apply Hd. by eapply pending_count_delivered.
    + intros i Hi. destruct (Hk i Hi) as [?|?]; [left|by right]. by eapply pending_count_keeps.
  - split; cbn; [done|set_solver|eapply tasks_acked_mono; [|done]; set_solver|set_solver].
  - split; cbn; [by eapply mark_dispatched_inv| |done|].
    + intros i Hi. eapply mark_dispatched_delivered in Hi as [?| ->]; auto.
    + intros i Hi. destruct (Hk i Hi) as [?|?]; [|by right].
      destruct (decide (i = j)) as [->|Hne]; [by right; left|left]. by eapply mark_dispatched_keeps.
  - by split.
  - split; cbn; try done.
Qed.

Lemma start_inv s : inv s -> (forall i, ~ delivered s i) -> world_inv (start c s ∅ ∅ ∅).
Proof. intros Hs Hd. split; cbn; [done|by intros i ?%Hd|done|set_solver]. Qed.

Lemma reachable_world_inv s0 w :
  inv s0 -> (forall i, ~ delivered s0 i) -> reachable c s0 w -> world_inv w.
Proof.
  intros Hs Hd Hr. pose proof (start_inv s0 Hs Hd) as Hinv. revert Hinv. unfold reachable in Hr.
  induction Hr as [w|w1 w2 w3 [Hstep|Hstep] _ IH]; intros Hw; [done|..]; apply IH.
  - by eapply run_step_inv.
  - by eapply env_step_inv.
Qed.

(** C1.  At least once: whatever the sender, the breaker, the clock, the store's
    failures, operators, other dispatchers, shutdowns and restarts do, an event
    whose [append] returned [Ok] is still in the outbox, unless a sender
    accepted it or an operator asked to dead-letter it. *)
Theorem no_event_lost (s0 : S) (w : World S) (i : EventId)
    (Hs : inv s0) (Hd : forall j, ~ delivered s0 j) (Hw : reachable c s0 w) (Hi : i ∈ appended w) :
  live (store w) i \/ i ∈ acked w \/ i ∈ lettered w.
Proof. by apply (wi_kept w (reachable_world_inv s0 w Hs Hd Hw)). Qed.

(** ** Bounded, undoubled, drained *)

Definition batch : FetchBatch := effective_batch c.

Record control_inv (w : World S) : Prop := {
  ci_store : inv (store w);
  ci_idle : at_ w <> Draining -> tasks w = [];
  ci_permits : permits_held (tasks w) <= permits c;
  ci_distinct : NoDup (task_ids (tasks w));
  ci_size : size_ok batch (batch_size (vars w));
  ci_streak : in_u32 (empty_streak (vars w));
  ci_tick : 0 <= idle_tick (vars w) < IDLE_POLL_DIVISOR;
  ci_awake : is_idle_parked batch (empty_streak (vars w)) = false -> idle_tick (vars w) = 0
}.

Definition loop_ok (l : Loop) : Prop :=
  size_ok batch (batch_size l) /\ in_u32 (empty_streak l) /\ 0 <= idle_tick l < IDLE_POLL_DIVISOR /\
  (is_idle_parked batch (empty_streak l) = false -> idle_tick l = 0).

Lemma idle_gate_ok l l' go :
  loop_ok l -> idle_gate batch l = (l', go) -> loop_ok l' /\ (go = true -> idle_tick l' = 0).
Proof.
  intros (Hsz & Hst & Ht & Ha). unfold idle_gate.
  destruct (is_idle_parked batch (empty_streak l)) eqn:E; intros [= <- <-].
  - assert (0 <= (idle_tick l + 1) mod IDLE_POLL_DIVISOR < IDLE_POLL_DIVISOR)
      by (by apply Z.mod_pos_bound). split; [|cbn; lia]. split_and!; cbn; try done; [lia|lia|congruence].
  - specialize (Ha eq_refl). by split; [split; [|split; [|split]]|].
Qed.

Lemma after_fetch_ok l n : loop_ok l -> idle_tick l = 0 -> loop_ok (after_fetch batch l n).
Proof.
  intros (Hsz & Hst & Ht & Ha) H0. split; [apply next_size_ok, saturated_ok|].
  cbn. split; [case_match; int_lia|]. split; [done|]. by intros _.
Qed.

Lemma start_control s a p d : inv s -> control_inv (start c s a p d).
Proof.
  intros Hs. pose proof (saturated_ok (fetch_batch c)).
  split; cbn; try done; try apply NoDup_nil_2;
    unfold permits_held, len, size_ok, permits, batch, effective_batch; cbn; lia.
Qed.

Lemma tick_control clock w : at_ w = Selecting -> control_inv w -> control_inv (tick c clock w).
Proof.
  intros Hp [Hs Hi Hpm Hnd Hsz Hst Ht Ha]. unfold tick. fold batch.
  assert (loop_ok (vars w)) as Hl by done.
  destruct (idle_gate batch (vars w)) as [l go] eqn:Eg. destruct (idle_gate_ok _ _ _ Hl Eg) as [Hl' Hgo].
  specialize (Hi ltac:(by rewrite Hp)). rewrite Hi in *.
  destruct go; [specialize (Hgo eq_refl)|by destruct Hl' as (?&?&?&?); split; cbn; rewrite ?Hi].
  destruct (fetch_due (batch_size l) (now_millis clock) (store w)) as [s r] eqn:E.
  assert (inv s) as Hs' by (pose proof (fetch_due_inv (inv := inv) (live := live) (delivered := delivered) (store w) (batch_size l) (now_millis clock) Hs) as H; by rewrite E in H).
  destruct r as [due|err].
  - destruct (after_fetch_ok l (len due) Hl' Hgo) as (?&?&?&?). split; cbn; rewrite ?Hi; try done; cbn.
    + rewrite held_waiting. unfold permits. lia.
    + unfold task_ids. rewrite <- list_fmap_compose. change (NoDup (ev_id <$> due)).
      apply (fetch_due_distinct (inv := inv) (live := live) (delivered := delivered)
        (store w) (batch_size l) (now_millis clock)); [done|by rewrite E].
  - destruct Hl' as (?&?&?&?). by split; cbn; rewrite ?Hi.
Qed.

Lemma run_step_control w w' : run_step c w w' -> control_inv w -> control_inv w'.
Proof.
  intros Hstep Hw. destruct Hstep as [clock w Hp|n e clock w Ht Hh|n e r clock w Ht|n e w Ht|
    n e r k w Ht|w Hp Ht|w Hp|w Hp Hsd|w Hp Ht]; [by apply tick_control|..];
    destruct Hw as [Hs Hi Hpm Hnd Hsz Hst Htk Ha].
  - assert (at_ w = Draining) as Hp.
    { destruct (at_ w) eqn:E; try done; by rewrite Hi in Ht. }
    unfold admitted. destruct (admission clock (breaker w)) as [b rej]. split; cbn -[task_ids]; try done.
    + rewrite (held_insert _ _ _ _ Ht). rewrite (held_at _ _ _ Ht) in Hh. cbn in *. case_match; lia.
    + by rewrite (task_ids_insert _ _ _ Waiting).
  - assert (at_ w = Draining) as Hp.
    { destruct (at_ w) eqn:E; try done; by rewrite Hi in Ht. }
    split; cbn -[task_ids]; try done.
    + rewrite (held_insert _ _ _ _ Ht). rewrite (held_at _ _ _ Ht) in Hpm. cbn in *. lia.
    + by rewrite (task_ids_insert _ _ _ Sending).
  - split; cbn -[task_ids]; try done.
    + intros Hp. by rewrite Hi.
    + rewrite (held_delete _ _ _ Ht). rewrite (held_at _ _ _ Ht) in Hpm. cbn in *. lia.
    + by apply task_ids_delete.
  - split; cbn -[process task_ids]; try done.
    + by apply process_inv.
    + intros Hp. by rewrite Hi.
    + rewrite (held_delete _ _ _ Ht). rewrite (held_at _ _ _ Ht) in Hpm. cbn in *. lia.
    + by apply task_ids_delete.
  - by split; cbn.
  - split; cbn; try done; [by eapply pending_count_inv|]. intros _. apply Hi. by rewrite Hp.
  - split; cbn -[task_ids]; try done. intros _. apply Hi. by rewrite Hp.
  - by split; cbn.
Qed.

Lemma env_step_control w w' : env_step c w w' -> control_inv w -> control_inv w'.
Proof.
  intros Hstep [Hs Hi Hpm Hnd Hsz Hst Ht Ha]. destruct Hstep as [e w|clock e reason w|j m at_ w|n clock w|w|j w|clock j w Hj|w|w].
  - split; cbn; try done. by eapply append_inv.
  - split; cbn; try done. by eapply dead_letter_inv.
  - split; cbn; try done. by eapply mark_failed_inv.
  - split; cbn; try done. by eapply fetch_due_inv.
  - split; cbn; try done. by eapply pending_count_inv.
  - by split.
  - split; cbn; try done. by eapply mark_dispatched_inv.
  - by split.
  - by apply start_control.
Qed.

Lemma reachable_control_inv s0 w : inv s0 -> reachable c s0 w -> control_inv w.
Proof.
  intros Hs Hr. pose proof (start_control s0 ∅ ∅ ∅ Hs) as Hinv. revert Hinv. unfold reachable in Hr.
  induction Hr as [w|w1 w2 w3 [Hstep|Hstep] _ IH]; intros Hw; [done|..]; apply IH.
  - by eapply run_step_control.
  - by eapply env_step_control.
Qed.

(** C2.  At every moment, at most [max(concurrency, 1)] dispatches hold a
    permit; no event is in flight twice in one dispatcher; outside the drain of
    a batch nothing is in flight, so a poll never refetches an event still
    being sent, and [run] returns only once every dispatch is over. *)
Theorem in_flight_bounded (s0 : S) (w : World S) (Hs : inv s0) (Hw : reachable c s0 w) :
  permits_held (tasks w) <= Z.max (concurrency c) 1 /\
  NoDup (task_ids (tasks w)) /\
  (at_ w <> Draining -> tasks w = []).
Proof. by destruct (reachable_control_inv s0 w Hs Hw). Qed.


(** ** A shutdown completes *)

(** A step of the dispatcher, [select!] taking the shutdown branch. *)
Definition closing_step (w w' : World S) : Prop :=
  run_step c w w' /\ (at_ w = Selecting -> at_ w' = Finishing).

(** The steps left: of each task, and of [run] itself. *)
Definition weight (t : Task) : nat :=
  match t_phase t with Waiting => 3 | Sending => 2 | Recording _ => 1 end.
Definition work (ts : list Task) : nat := sum_list_with weight ts.
Definition rank (p : place) : nat :=
  match p with Draining => 4 | Gauging => 3 | Selecting => 2 | Finishing => 1 | Returned => 0 end.
Definition steps_left (w : World S) : nat := work (tasks w) + rank (at_ w).

Lemma work_insert ts n t t' :
  ts !! n = Some t -> (weight t' < weight t)%nat -> (work (<[n := t']> ts) < work ts)%nat.
Proof.
  unfold work. revert n. induction ts as [|t0 ts IH]; intros [|n] Ht Hw; cbn -[weight] in *; try done.
  - injection Ht as ->. by apply Nat.add_lt_mono_r.
  - apply Nat.add_lt_mono_l. by apply (IH n).
Qed.

Lemma work_delete ts n t : ts !! n = Some t -> (work (delete n ts) < work ts)%nat.
Proof.
  unfold work. revert n. induction ts as [|t0 ts IH]; intros [|n] Ht; cbn -[weight] in *; try done.
  - injection Ht as ->. unfold weight. destruct (t_phase t); lia.
  - apply Nat.add_lt_mono_l. by apply (IH n).
Qed.

Lemma closing_step_left w w' : closing_step w w' -> (steps_left w' < steps_left w)%nat.
Proof.
  intros [Hstep Hsel]. unfold steps_left.
  destruct Hstep as [clock w Hp|n e clock w Ht _|n e r clock w Ht|n e w Ht|n e r k w Ht|w Hp _|w Hp|w Hp _|w Hp _];
    cbn [tasks at_ finished recorded set_tasks set_store set_place] in *;
    try (rewrite Hp; cbn; lia).
  - specialize (Hsel Hp). revert Hsel. unfold tick. destruct (idle_gate _ _) as [l [|]]; [|cbn; congruence].
    destruct (fetch_due _ _ _) as [s [|]]; cbn; congruence.
  - unfold admitted. destruct (admission clock (breaker w)) as [b [[]|]]; cbn;
      apply Nat.add_lt_mono_r; (eapply work_insert; [done|cbn; lia]).
  - apply Nat.add_lt_mono_r. eapply work_insert; [done|cbn; lia].
  - apply Nat.add_lt_mono_r. by eapply work_delete.
  - apply Nat.add_lt_mono_r. by eapply work_delete.
Qed.

(** While the permits are respected some task can move: one that holds a
    permit if any does, else any. *)
Lemma task_can_move w :
  tasks w <> [] -> at_ w <> Selecting -> exists w', closing_step w w'.
Proof.
  intros Hne Hsel. assert (exists w', run_step c w w') as [w' Hw']; [|by exists w'; split].
  destruct (filter holds_permit (tasks w)) as [|t ts] eqn:E.
  - destruct (tasks w) as [|[e p] ts] eqn:Ht; [done|]. exists (admitted 0 e 0 w).
    assert (p = Waiting) as ->.
    { rewrite filter_cons in E. destruct p; [done|by case_decide|by case_decide]. }
    apply step_admit; [by rewrite Ht|]. unfold permits_held. rewrite Ht, E, len_nil. unfold permits. lia.
  - assert (t ∈ filter holds_permit (tasks w)) as [Hh Hin]%list_elem_of_filter by (rewrite E; left).
    apply list_elem_of_lookup in Hin as [n Hn]. destruct t as [e [| |r]]; [done| |].
    + exists (finished n e SentOk 0 w). by apply step_sent.
    + exists (recorded c n e r (mkClocks 0 0 0 0) w). by apply step_record.
Qed.

Lemma closing_step_possible w :
  control_inv w -> shutting_down w = true -> at_ w <> Returned -> exists w', closing_step w w'.
Proof.
  intros Hw Hsd Hret. destruct (decide (tasks w = [])) as [Ht|Ht].
  - destruct (at_ w) eqn:Hp; [| | | |done].
    + exists (set_place Finishing w). by split; [apply step_break|].
    + exists (set_place Gauging w). split; [by apply step_drained|congruence].
    + eexists. split; [by apply step_gauge|congruence].
    + exists (set_place Returned w). split; [by apply step_return|congruence].
  - apply task_can_move; [done|]. intros Hp. apply Ht, (ci_idle _ Hw). congruence.
Qed.

Lemma run_step_signal w w' : run_step c w w' -> shutting_down w' = shutting_down w.
Proof.
  intros [clock w0 _|n e clock w0 _ _| | | | | | |]; try done.
  - unfold tick. destruct (idle_gate _ _) as [l [|]]; [|done]. by destruct (fetch_due _ _ _) as [s [|]].
  - unfold admitted. by destruct (admission clock (breaker w0)).
Qed.

(** C9.  Once a shutdown is signalled and [run] takes it up, it returns: from
    every reachable state, no run of the dispatcher's steps is longer than the
    work left, and none gets stuck before [Returned], which is reached with
    every dispatch in flight ended. *)
Theorem shutdown_completes (s0 : S) (w : World S) (Hs : inv s0) (Hw : reachable c s0 w)
    (Hsd : shutting_down w = true) :
  forall n w', nsteps closing_step n w w' ->
    (n <= steps_left w)%nat /\
    ((at_ w' = Returned /\ tasks w' = []) \/ exists w'', closing_step w' w'').
Proof.
  intros n w' Hn. induction Hn as [w|n w1 w2 w3 Hstep _ IH].
  - split; [lia|]. pose proof (reachable_control_inv s0 w Hs Hw) as Hc.
    assert (at_ w = Returned \/ at_ w <> Returned) as [Hr|Hr] by (destruct (at_ w); auto).
    + left. split; [done|]. apply (ci_idle _ Hc). congruence.
    + right. by apply closing_step_possible.
  - pose proof (closing_step_left _ _ Hstep). destruct Hstep as [Hstep _].
    destruct IH as [Hle H']; [by eapply rtc_r; [|left]|by rewrite (run_step_signal _ _ Hstep)|].
    split; [lia|done].
Qed.
End safety.
