(* ===== verification/Guided.v ===== *)
(** * Runs with a well-behaved environment

    The steps of [Dispatch.v] with the environment's store calls restricted to
    those a predicate allows: what the theorems about whole runs that need
    something of producers and operators quantify over. *)

From S2P Require Import Prelude BTree Event Backoff Store Metrics Dispatch DispatchSafety.

Import Dispatch.

Section guided.
Context `{JO : JitterOps} `{BO : BreakerOps}.
Context {S : Type} `{OS : !OutboxStore S} (c : DispatcherConfig) (ok : call -> Prop).

Inductive guided_step : World S -> World S -> Prop :=
| guided_run w w' : run_step c w w' -> guided_step w w'
| guided_append e w : ok (CAppend e) -> guided_step w (produced e w)
| guided_dead_letter clock e reason w :
    ok (CDeadLetter clock e reason) -> guided_step w (closed clock e reason w)
| guided_reschedule i error retry_at_ms w :
    ok (CMarkFailed i error retry_at_ms) ->
    guided_step w (set_store (mark_failed i error retry_at_ms (store w)).1 w)
| guided_poll limit clock w :
    ok (CFetchDue limit (now_millis clock)) ->
    guided_step w (set_store (fetch_due limit (now_millis clock) (store w)).1 w)
| guided_count w : ok CPendingCount -> guided_step w (set_store (pending_count (store w)).1 w)
| guided_sent i w : guided_step w (sent_elsewhere i w)
| guided_mark clock i w :
    ok (CMarkDispatched clock i) -> i ∈ acked w ->
    guided_step w (set_store (mark_dispatched clock i (store w)).1 w)
| guided_shutdown w : guided_step w (shutdown w)
| guided_restart w : guided_step w (start c (store w) (acked w) (appended w) (lettered w)).

Lemma guided_world_step w w' : guided_step w w' -> world_step c w w'.
Proof.
  intros Hs. destruct Hs as [w w' H|e w _|clock e reason w _|i m t w _|n clock w _|w _|i w|clock i w _ Hi|w|w];
    [by left|right..]; by constructor.
Qed.

(** All a step of the environment does: one allowed call, or none, and the
    tasks as they were or gone. *)
Lemma guided_effect w w' : guided_step w w' ->
  run_step c w w' \/
  (exists k, ok k /\ store w' = (perform k (store w)).1 /\ tasks w' = tasks w) \/
  (store w' = store w /\ (tasks w' = tasks w \/ tasks w' = [])).
Proof.
  intros Hs. destruct Hs as [w w' H|e w H|clock e reason w H|i m t w H|n clock w H|w H|i w|clock i w H _|w|w];
    [by left|right; left; eexists; split; [exact H|by split]..| |right; left; eexists; split; [exact H|by split]| |];
    right; right; auto.
Qed.

(** The dispatcher's own: the tasks are some of those it had, or new ones of
    the batch it fetched. *)
Lemma run_effect w w' : run_step c w w' ->
  (store w' = store w \/ exists k, store w' = (perform k (store w)).1 /\ (forall e, k <> CAppend e)) /\
  forall t, t ∈ tasks w' ->
    (exists t0, t0 ∈ tasks w /\ t_event t0 = t_event t) \/
    (exists limit now l, (fetch_due limit now (store w)).2 = Ok l /\ t_event t ∈ l).
Proof.
  assert (forall n e p p' (ts : list Task) t, ts !! n = Some (mkTask e p) -> t ∈ <[n := mkTask e p']> ts ->
    exists t0, t0 ∈ ts /\ t_event t0 = t_event t) as Hset.
  { intros n e p p' ts t Hn [m Hm]%list_elem_of_lookup. apply list_lookup_insert_Some in Hm as [(-> & <- & _)|[_ Hm]].
    - exists (mkTask e p). split; [by eapply list_elem_of_lookup_2|done].
    - exists t. split; [by eapply list_elem_of_lookup_2|done]. }
  assert (forall n (ts : list Task) t, t ∈ delete n ts -> exists t0, t0 ∈ ts /\ t_event t0 = t_event t) as Hdel.
  { intros n ts t H. exists t. split; [|done].
    eapply elem_of_submseteq; [exact H|]. apply sublist_submseteq, sublist_delete. }
  intros Hstep. destruct Hstep as [clock w Hp|n e clock w Ht Hh|n e r clock w Ht|n e w Ht|
    n e r k w Ht|w Hp Ht|w Hp|w Hp Hsd|w Hp Ht]; cbn -[process]; try by (split; [left|intros t Hin; left; exists t]).
  - unfold tick. destruct (idle_gate _ (vars w)) as [l [|]]; [|by split; [left|intros t Hin; left; eauto]].
    destruct (fetch_due (batch_size l) (now_millis clock) (store w)) as [s r] eqn:E.
    split; [right; exists (CFetchDue (batch_size l) (now_millis clock)); cbn; rewrite E; by destruct r|].
    intros t. destruct r as [due|err]; cbn; [|intros Hin; left; eauto].
    intros [H|(e & -> & He)%list_elem_of_fmap]%elem_of_app; [left; eauto|right].
    exists (batch_size l), (now_millis clock), due. by rewrite E.
  - unfold admitted. destruct (admission clock (breaker w)) as [b rej]. split; [by left|].
    intros t Hin'. left. exact (Hset n e _ _ _ t Ht Hin').
  - split; [by left|]. intros t Hin'. left. exact (Hset n e _ _ _ t Ht Hin').
  - split; [by left|]. intros t Hin'. left. by eapply Hdel.
  - split; [|intros t Hin'; left; by eapply Hdel].
    destruct r as [[]|[| |err|text]]; cbn; [|by left|by left|..]; right;
      [exists (CMarkDispatched (k_mark k) (ev_id e))|eexists (CMarkFailed _ _ _)..]; by split.
  - split; [right; by exists CPendingCount|]. intros t Hin; left; eauto.
Qed.
End guided.
