(* ===== verification/DispatchProps.v ===== *)
(** * What the dispatcher does: schedules, budgets, draining

    The pure parts of the loop (batch ramp, idle cadence), the retry schedule,
    and the dispatcher on [MemoryStore]: the retry budget, the pause of an open
    breaker, the draining of a backlog. *)

From S2P Require Import Prelude BTree Event Truncate Float Backoff Store Metrics HexUuid Memory Dispatch DispatchSafety.

Import Dispatch Memory.

(** ** Batch ramp *)

Definition full_polls (b : FetchBatch) (k : nat) (size : Z) : Z :=
  Nat.iter k (fun size => next_size b size size) size.

(** Under sustained load the batch size doubles from the floor to the
    ceiling, so after [k] full polls it is [min(max, min * 2^k)]; the first
    poll that is not full resets it to the floor. *)
Lemma batch_ramp (b : FetchBatch) (k : nat) (current fetched : Z)
    (Hb : 1 <= fb_min b <= fb_max b) (Hmax : fb_max b <= u64_max) (Hf : fetched < current) :
  full_polls b k (fb_min b) = Z.min (fb_max b) (fb_min b * 2 ^ Z.of_nat k) /\
  next_size b current fetched = fb_min b.
Proof.
  split.
  - unfold full_polls. induction k as [|k IH]; [cbn; lia|]. cbn [Nat.iter nat_rect]. unfold Nat.iter in IH. rewrite IH.
    assert (fb_min b <= fb_min b * 2 ^ Z.of_nat k) by (pose proof (Z.pow_pos_nonneg 2 (Z.of_nat k) ltac:(lia) ltac:(lia)); nia).
    replace (fb_min b * 2 ^ Z.of_nat (S k)) with (2 * (fb_min b * 2 ^ Z.of_nat k))
      by (rewrite Nat2Z.inj_succ, Z.pow_succ_r by lia; ring).
    unfold next_size. rewrite Z.leb_refl. unfold usize_saturating_mul, u64_max in *.
    generalize dependent (fb_min b * 2 ^ Z.of_nat k). intros m. intros. lia.
  - unfold next_size. by rewrite (proj2 (Z.leb_gt _ _) Hf).
Qed.

Lemma batch_ramp_witness :
  full_polls default_fetch_batch 3 10 = 80 /\ full_polls default_fetch_batch 4 10 = 100.
Proof.
  assert (1 <= fb_min default_fetch_batch <= fb_max default_fetch_batch) as Hb by (by vm_compute).
  assert (fb_max default_fetch_batch <= u64_max) as Hm by (by vm_compute).
  split; [exact (proj1 (batch_ramp default_fetch_batch 3 10 9 Hb Hm ltac:(lia)))
         |exact (proj1 (batch_ramp default_fetch_batch 4 10 9 Hb Hm ltac:(lia)))].
Defined.

(** ** Idle cadence *)

(** Ticks whose fetch, if made, fails ([None]) or returns that many events;
    with the number of fetches made. *)
Fixpoint run_ticks (b : FetchBatch) (outcomes : list (option Z)) (l : Loop) : Loop * Z :=
  match outcomes with
  | [] => (l, 0)
  | o :: os =>
      let '(l1, go) := idle_gate b l in
      let l2 := if go then match o with Some n => after_fetch b l1 n | None => l1 end else l1 in
      let '(l3, n) := run_ticks b os l2 in
      (l3, (if go then 1 else 0) + n)
  end.

Definition no_work (o : option Z) : Prop := o = None \/ o = Some 0.

(** C35.  Once the streak of empty polls has earned the slow cadence, and until
    work reappears, the store is polled on one tick in ten: [n] ticks make
    [(idle_tick + n) / 10] fetches, whether polls fail or come back empty. *)
Theorem idle_cadence (b : FetchBatch) (outcomes : list (option Z)) (l : Loop)
    (Hp : is_idle_parked b (empty_streak l) = true) (Ht : 0 <= idle_tick l < 10)
    (Hpark : fb_park_after b <= u32_max) (Ho : Forall no_work outcomes) :
  (run_ticks b outcomes l).2 = (idle_tick l + len outcomes) / 10.
Proof.
  revert l Hp Ht. induction Ho as [|o os Ho _ IH]; intros l Hp Ht; cbn [run_ticks].
  { change (0 = (idle_tick l + 0) / 10). by rewrite Z.add_0_r, Z.div_small by lia. }
  unfold idle_gate. rewrite Hp, len_cons. unfold IDLE_POLL_DIVISOR.
  set (l2 := if (idle_tick l + 1) mod 10 =? 0 then _ else _).
  assert (is_idle_parked b (empty_streak l2) = true /\ idle_tick l2 = (idle_tick l + 1) mod 10) as [Hp2 Ht2].
  { unfold l2. destruct (_ =? 0); [|done]. destruct Ho as [-> | ->]; [done|]. cbn. split; [|done].
    unfold is_idle_parked in *. int_lia. }
  specialize (IH l2 Hp2). destruct (run_ticks b os l2) as [l3 n]. cbn [snd] in IH |- *.
  rewrite Ht2 in IH. pose proof (Z.mod_pos_bound (idle_tick l + 1) 10 ltac:(lia)). rewrite IH by lia.
  destruct (Z.eq_dec (idle_tick l) 9) as [->|Hne].
  - change ((9 + 1) mod 10) with 0. cbn [Z.eqb].
    replace (9 + (1 + len os)) with (len os + 1 * 10) by lia. rewrite Z.div_add by lia.
    rewrite Z.add_0_l. lia.
  - rewrite Z.mod_small by lia. destruct (Z.eqb_spec (idle_tick l + 1) 0); [lia|]. rewrite Z.add_0_l. f_equal. lia.
Qed.

Lemma idle_cadence_witness :
  (run_ticks default_fetch_batch (replicate 25 (Some 0)) (mkLoop 10 60 0)).2 = 2.
Proof.
  rewrite idle_cadence; [reflexivity|reflexivity|cbn; lia|vm_compute; congruence|].
  apply Forall_replicate. by right.
Defined.

Section retries.
Context `{JL : JitterLaws} `{UL : !UuidLaws} `{BO : BreakerOps}.

(** ** The retry schedule *)

Definition failed_attempts (e : OutboxEvent) : Z := u32_saturating_add (ev_attempts e) 1.

Lemma delay_millis_bounds c e k (Hp : wf_policy (backoff c)) :
  0 <= as_millis (retry_delay (backoff c) (failed_attempts e) (ev_id e) (k_seed k))
    <= as_millis (exponential_delay (backoff c) (failed_attempts e)).
Proof.
  pose proof (retry_delay_bounds (backoff c) (failed_attempts e) (ev_id e) (k_seed k) Hp) as H2.
  unfold as_millis, nanos_per_milli. split; [apply Z.div_pos; lia|]. apply Z.div_le_mono; lia.
Qed.

Lemma retry_at_parked c e k :
  is_exhausted (backoff c) (failed_attempts e) = true -> retry_at c e k = NEVER.
Proof. intros H. unfold retry_at. fold (failed_attempts e). by rewrite H. Qed.

Lemma retry_at_scheduled c e k :
  wf_policy (backoff c) -> is_exhausted (backoff c) (failed_attempts e) = false ->
  now_millis (k_retry k) + as_millis (exponential_delay (backoff c) (failed_attempts e)) < u64_max ->
  now_millis (k_retry k) <= retry_at c e k
    <= now_millis (k_retry k) + as_millis (exponential_delay (backoff c) (failed_attempts e)) /\
  retry_at c e k <> NEVER.
Proof.
  intros Hp H Hc. unfold retry_at. fold (failed_attempts e). rewrite H.
  pose proof (delay_millis_bounds c e k Hp). pose proof (now_millis_in_u64 (k_retry k)).
  unfold NEVER. int_lia.
Qed.

(** C31.  A failed dispatch is rescheduled within its backoff window, and parked
    exactly when it was the last attempt the policy allows (as long as the
    clock plus the window fits in 64 bits). *)
Theorem retry_at_window (c : DispatcherConfig) (e : OutboxEvent) (k : Clocks)
    (Hp : wf_policy (backoff c)) (Ha : ev_attempts e < u32_max)
    (Hc : now_millis (k_retry k) + as_millis (exponential_delay (backoff c) (ev_attempts e + 1)) < u64_max) :
  if max_attempts (backoff c) <=? ev_attempts e + 1
  then retry_at c e k = NEVER
  else now_millis (k_retry k) <= retry_at c e k
         <= now_millis (k_retry k) + as_millis (exponential_delay (backoff c) (ev_attempts e + 1)) /\
       retry_at c e k <> NEVER.
Proof.
  assert (failed_attempts e = ev_attempts e + 1) as Hf by (unfold failed_attempts; int_lia).
  rewrite <- Hf in *. destruct (max_attempts (backoff c) <=? failed_attempts e) eqn:E.
  - by apply retry_at_parked.
  - by apply retry_at_scheduled.
Qed.

(** ** The retry budget, on [MemoryStore] *)

(** The outcomes that count as a failure. *)
Definition failing (r : CircuitBreakerError) : Prop :=
  match r with Failure _ | OtherError _ => True | _ => False end.

(** The event [i], as the store has it, is processed and fails. *)
Definition fail_once (c : DispatcherConfig) (i : EventId) (inner : Inner)
    (f : CircuitBreakerError * Clocks) : Inner :=
  match events inner !! i with
  | Some (_, e) => (process c e (Err f.1) f.2 inner).1
  | None => inner
  end.

Definition clocks_fit (c : DispatcherConfig) (k : Clocks) : Prop :=
  now_millis (k_retry k) + as_millis (cap (backoff c)) < u64_max.

Lemma fail_once_event c i inner t e f :
  mem_inv inner -> events inner !! i = Some (t, e) -> failing f.1 ->
  mem_inv (fail_once c i inner f) /\
  exists e', events (fail_once c i inner f) !! i = Some (retry_at c e f.2, e') /\
    ev_attempts e' = failed_attempts e.
Proof.
  intros Hinv He Hf. pose proof (inv_ids _ Hinv _ _ He) as Hid. cbn in Hid.
  assert (exists m, fail_once c i inner f = (mark_failed i m (retry_at c e f.2) inner).1) as [m ->].
  { unfold fail_once. rewrite He, <- Hid. destruct f as [[| |err|text] k]; try done; by eexists. }
  split; [by apply mark_failed_inv|]. exists (record_failure m e). split; [|done].
  pose proof (f_equal scheduled (mark_failed_abs i m (retry_at c e f.2) inner)) as Habs.
  cbn in Habs. by rewrite Habs, lookup_alter_eq, He.
Qed.

(** C4.  An event that keeps failing is retried until its failures reach
    [max_attempts], and parked by exactly that failure: after any shorter run
    of failures it is still scheduled, with every failure counted. *)
Theorem retry_budget (c : DispatcherConfig) (inner : Inner) (i : EventId) (t : Z) (e : OutboxEvent)
    (fails : list (CircuitBreakerError * Clocks))
    (Hp : wf_policy (backoff c)) (Hinv : mem_inv inner) (He : events inner !! i = Some (t, e))
    (Hne : fails <> []) (Hlen : ev_attempts e + len fails <= max_attempts (backoff c))
    (Hf : Forall (fun f => failing f.1 /\ clocks_fit c f.2) fails) :
  exists t' e', events (foldl (fail_once c i) inner fails) !! i = Some (t', e') /\
    ev_attempts e' = ev_attempts e + len fails /\
    (t' = NEVER <-> ev_attempts e' = max_attempts (backoff c)).
Proof.
  revert inner t e Hinv He Hlen. induction Hf as [|f fails [Hf1 Hf2] Hf IH]; intros inner t e Hinv He Hlen; [done|].
  destruct (fail_once_event c i inner t e f Hinv He Hf1) as (Hinv' & e' & He' & Ha').
  rewrite len_cons in *. pose proof (len_nonneg fails). pose proof (wf_max_attempts _ Hp) as Hmax.
  assert (failed_attempts e = ev_attempts e + 1) as Hfa by (unfold failed_attempts; int_lia).
  rewrite Hfa in Ha'. cbn [foldl]. destruct fails as [|g fails].
  - exists (retry_at c e f.2), e'. split; [done|]. rewrite len_nil, Ha'. split; [lia|].
    destruct (is_exhausted (backoff c) (failed_attempts e)) eqn:E.
    + rewrite retry_at_parked by done. unfold is_exhausted in E. rewrite len_nil in *. split; [lia|done].
    + pose proof (exponential_delay_bounds (backoff c) (failed_attempts e) Hp).
      destruct (retry_at_scheduled c e f.2 Hp E) as [_ Hn].
      { unfold clocks_fit in Hf2. assert (as_millis (exponential_delay (backoff c) (failed_attempts e)) <= as_millis (cap (backoff c)));
        [|lia]. unfold as_millis, nanos_per_milli. apply Z.div_le_mono; lia. }
      unfold is_exhausted in E. split; [by intros ?|lia].
  - destruct (IH ltac:(done) (fail_once c i inner f) _ e' Hinv' He') as (t' & e'' & Hl & Ha & Hiff).
    { rewrite Ha'. lia. }
    exists t', e''. split; [done|]. rewrite Ha, Ha' in *. split; [lia|]. rewrite Hiff. lia.
Qed.

(** ** An open breaker *)

Definition paused_task (t : Task) : Prop :=
  t_phase t = Waiting \/ t_phase t = Recording (Err CircuitOpen) \/ t_phase t = Recording (Err Rejected).

(** A step of the dispatcher in which the breaker, if asked, rejects. *)
Definition paused_step (c : DispatcherConfig) (w w' : World Inner) : Prop :=
  run_step c w w' /\
  forall n e clock, w' = admitted n e clock w -> (admission clock (breaker w)).2 <> None.

(** C28.  While the breaker rejects, dispatching pauses: however long the
    dispatcher runs, the sender is not invoked and the store does not change,
    so no attempt is consumed and every event stays due. *)
Theorem open_breaker_pauses (c : DispatcherConfig) (w w' : World Inner)
    (Hw : tasks w = []) (Hrun : rtc (paused_step c) w w') :
  store w' = store w /\ acked w' = acked w /\ Forall (fun t => t_phase t <> Sending) (tasks w').
Proof.
  assert (Forall paused_task (tasks w)) as Ht by (by rewrite Hw). clear Hw.
  enough (store w' = store w /\ acked w' = acked w /\ Forall paused_task (tasks w')) as (? & ? & H).
  { split_and!; try done. eapply Forall_impl; [exact H|]. intros t [->|[-> | ->]]; done. }
  induction Hrun as [w|w1 w2 w3 [Hstep Hopen] _ IH]; [done|].
  enough (store w2 = store w1 /\ acked w2 = acked w1 /\ Forall paused_task (tasks w2)) as (Hs & Ha & Ht2).
  { destruct (IH Ht2) as (-> & -> & ?). done. }
  clear IH. destruct Hstep as [clock w Hp|n e clock w Hn Hh|n e r clock w Hn|n e w Hn|
    n e r k w Hn|w Hp Hn|w Hp|w Hp Hsd|w Hp Hn]; cbn; try done.
  - unfold tick. destruct (idle_gate _ (vars w)) as [l [|]]; [|done]. cbn. split_and!; [done..|].
    apply Forall_app. split; [done|]. apply Forall_fmap, Forall_true. intros e. by left.
  - specialize (Hopen n e clock eq_refl). unfold admitted.
    destruct (admission clock (breaker w)) as [b rej].
    cbn in *. split_and!; [done..|]. apply Forall_insert; [done|].
    destruct rej as [[]|]; [right; by left|right; by right|done].
  - apply (Forall_lookup_1 _ _ _ _ Ht) in Hn as [?|[?|?]]; done.
  - apply (Forall_lookup_1 _ _ _ _ Ht) in Hn as [?|[?|?]]; done.
  - pose proof (Forall_lookup_1 _ _ _ _ Ht Hn) as Hr.
    assert (r = Err CircuitOpen \/ r = Err Rejected) as [-> | ->] by (destruct Hr as [?|[?|?]]; cbn in *; naive_solver).
    all: cbn; split_and!; [done..|]; by apply Forall_delete.
Qed.
End retries.

(** ** Draining a backlog, on [MemoryStore] *)

Section drain.
Context `{JO : JitterOps} `{UL : !UuidLaws} `{BO : BreakerOps}.

(** Every event of a batch is sent and accepted. *)
Definition deliver_batch (c : DispatcherConfig) (k : Clocks) (es : list OutboxEvent) (inner : Inner) : Inner :=
  foldl (fun inner e => (process c e (Ok tt) k inner).1) inner es.

(** One tick and the drain of its batch, when every send succeeds. *)
Definition good_tick (c : DispatcherConfig) (clock : Z) (k : Clocks) (st : Loop * Inner) : Loop * Inner :=
  let '(l, go) := idle_gate (effective_batch c) st.1 in
  if go then
    match fetch_due (batch_size l) (now_millis clock) st.2 with
    | (inner, Ok due) => (after_fetch (effective_batch c) l (len due), deliver_batch c k due inner)
    | (inner, Err _) => (l, inner)
    end
  else (l, st.2).

Lemma deliver_batch_effect c k es inner :
  mem_inv inner ->
  mem_inv (deliver_batch c k es inner) /\
  (forall i, events (deliver_batch c k es inner) !! i =
     if decide (i ∈ ev_id <$> es) then None else events inner !! i) /\
  (forall i, i ∈ dispatched (deliver_batch c k es inner) <-> i ∈ ev_id <$> es \/ i ∈ dispatched inner).
Proof.
  revert inner. induction es as [|e es IH]; intros inner Hinv.
  { split_and!; [done| |]; intros i; [by rewrite decide_False by apply not_elem_of_nil|].
    cbn. rewrite elem_of_nil. tauto. }
  destruct (IH (mark_dispatched (ev_id e) inner).1 (mark_dispatched_inv _ _ Hinv)) as (H1 & H2 & H3).
  change (deliver_batch c k (e :: es) inner) with (deliver_batch c k es (mark_dispatched (ev_id e) inner).1).
  split_and!; [done| |]; intros i; rewrite fmap_cons.
  - rewrite H2. cbn. rewrite lookup_delete. repeat case_decide; set_solver.
  - rewrite H3. cbn. set_solver.
Qed.

(** After a batch, the due events are those that did not fit in it. *)
Lemma due_after_batch c k now inner limit :
  mem_inv inner -> 1 <= limit ->
  let es := ref_fetch_due limit now (abs inner) in
  (length (ref_due now (abs (deliver_batch c k es inner)))
     <= length (ref_due now (abs inner)) - 1)%nat.
Proof.
  intros Hinv Hlim es. destruct (deliver_batch_effect c k es inner Hinv) as (Hinv' & Hev & _).
  set (inner' := deliver_batch c k es inner) in *.
  set (n := Z.to_nat (Z.min limit (len (ref_due now (abs inner))))).
  assert (ev_id <$> es = (take n (ref_due now (abs inner))).*1) as Hids.
  { unfold es, ref_fetch_due, take_usize. rewrite <- list_fmap_compose. apply Forall_fmap_ext_1, Forall_forall.
    intros [i [t e]] [Hp _]%elem_of_take_incl%elem_of_ref_due. cbn in *. apply (inv_ids _ Hinv _ _ Hp). }
  assert (ref_due now (abs inner') ⊆+ drop n (ref_due now (abs inner))) as Hsub.
  { apply NoDup_submseteq; [eapply (NoDup_fmap_1 fst), ref_due_NoDup|]. intros [i [t e]] [Hp Hd]%elem_of_ref_due.
    cbn in Hp. rewrite Hev in Hp. case_decide as Hi; [done|].
    assert ((i, (t, e)) ∈ ref_due now (abs inner)) as Hin by (by apply elem_of_ref_due).
    rewrite <- (take_drop n (ref_due now (abs inner))) in Hin. apply elem_of_app in Hin as [Hin|Hin]; [|done].
    exfalso. apply Hi. rewrite Hids. by apply (list_elem_of_fmap_2 fst _ _ Hin). }
  apply submseteq_length in Hsub. rewrite length_drop in Hsub.
  destruct (ref_due now (abs inner)) as [|p ps] eqn:E; [cbn in *; lia|].
  assert (1 <= n)%nat; [|lia]. unfold n. rewrite len_cons. pose proof (len_nonneg ps). lia.
Qed.

(** What a run at time [now] leaves: nothing due, everything that was due
    delivered, everything else as it was. *)
Record drained (now : Z) (inner inner' : Inner) : Prop := {
  dr_nothing_due : ref_due now (abs inner') = [];
  dr_delivered : forall p, p ∈ ref_due now (abs inner) -> p.1 ∈ dispatched inner';
  dr_rest : forall i p, events inner !! i = Some p -> ~ due now (i, p) -> events inner' !! i = Some p;
  dr_keeps : dispatched inner ⊆ dispatched inner';
  dr_inv : mem_inv inner'
}.

Lemma drained_refl now inner : mem_inv inner -> ref_due now (abs inner) = [] -> drained now inner inner.
Proof. intros Hinv E. split; try done. intros p. rewrite E. by intros ?%not_elem_of_nil. Qed.

Lemma batch_due inner limit now i :
  mem_inv inner -> i ∈ ev_id <$> ref_fetch_due limit now (abs inner) ->
  exists p, events inner !! i = Some p /\ due now (i, p).
Proof.
  intros Hinv ([t e] & -> & Hin)%list_elem_of_fmap. unfold ref_fetch_due in Hin.
  apply list_elem_of_fmap in Hin as ([j [t' e']] & He & Hin).
  apply elem_of_take_usize, elem_of_ref_due in Hin as [Hp Hd]. cbn in *.
  pose proof (inv_ids _ Hinv _ _ Hp) as Hid. cbn in Hid. subst. eauto.
Qed.

Lemma drained_step c k now limit inner inner' :
  mem_inv inner -> let es := ref_fetch_due limit now (abs inner) in
  drained now (deliver_batch c k es inner) inner' -> drained now inner inner'.
Proof.
  intros Hinv es [D1 D2 D3 D4 D5]. destruct (deliver_batch_effect c k es inner Hinv) as (Hinv' & Hev & Hdisp).
  split; [done|..].
  - intros p [Hp Hd]%elem_of_ref_due. destruct (decide (p.1 ∈ ev_id <$> es)) as [Hi|Hi].
    + apply D4, Hdisp. by left.
    + apply D2, elem_of_ref_due. split; [|done]. cbn. by rewrite Hev, decide_False.
  - intros i p He Hnd. apply D3; [|done]. rewrite Hev, decide_False; [done|].
    intros (p' & Hp' & Hd)%batch_due; [|done]. congruence.
  - intros i Hi. apply D4, Hdisp. by right.
  - done.
Qed.

Lemma good_ticks_idle c clock k n l inner :
  mem_inv inner -> ref_due (now_millis clock) (abs inner) = [] ->
  (Nat.iter n (good_tick c clock k) (l, inner)).2 = inner.
Proof.
  intros Hinv Hdue. induction n as [|n IH]; [done|]. cbn [Nat.iter nat_rect]. unfold Nat.iter in IH.
  destruct (nat_rect _ _ _ n) as [l' inner']. cbn in IH. subst inner'. unfold good_tick. cbn [fst snd].
  destruct (idle_gate _ l') as [l2 [|]]; [|done].
  rewrite fetch_due_abs by done. unfold ref_fetch_due. rewrite Hdue. unfold take_usize. by rewrite take_nil.
Qed.

Lemma good_tick_busy c clock k l inner :
  mem_inv inner -> empty_streak l = 0 ->
  let es := ref_fetch_due (batch_size l) (now_millis clock) (abs inner) in
  good_tick c clock k (l, inner) = (after_fetch (effective_batch c) l (len es), deliver_batch c k es inner).
Proof.
  intros Hinv Hst es. pose proof (saturated_ok (fetch_batch c)) as [_ Hpark].
  unfold good_tick, idle_gate, is_idle_parked. cbn [fst snd]. rewrite Hst.
  rewrite (proj2 (Z.leb_gt (fb_park_after (effective_batch c)) 0)) by (unfold effective_batch; lia).
  by rewrite fetch_due_abs.
Qed.

Lemma batch_not_empty limit now o :
  1 <= limit -> ref_due now o <> [] -> len (ref_fetch_due limit now o) <> 0.
Proof.
  intros Hl Hne. unfold ref_fetch_due, len at 1, take_usize. rewrite length_fmap, length_take.
  destruct (ref_due now o) as [|p ps] eqn:E; [done|]. rewrite len_cons. cbn.
  pose proof (len_nonneg ps). lia.
Qed.

Lemma good_ticks_drain c clock k n l inner :
  mem_inv inner -> size_ok (effective_batch c) (batch_size l) -> empty_streak l = 0 ->
  (length (ref_due (now_millis clock) (abs inner)) <= n)%nat ->
  drained (now_millis clock) inner (Nat.iter n (good_tick c clock k) (l, inner)).2.
Proof.
  set (now := now_millis clock). pose proof (saturated_ok (fetch_batch c)) as [Hb _].
  revert l inner. induction n as [|n IH]; intros l inner Hinv Hsz Hst Hn.
  { cbn [Nat.iter nat_rect snd]. apply drained_refl; [done|]. apply nil_length_inv. lia. }
  destruct (decide (ref_due now (abs inner) = [])) as [Hnil|Hne].
  { rewrite good_ticks_idle by done. by apply drained_refl. }
  rewrite Nat.iter_succ_r, good_tick_busy by done. fold now.
  assert (1 <= batch_size l) as Hb1 by (unfold size_ok, effective_batch in *; lia).
  apply (drained_step c k now (batch_size l)); [done|].
  pose proof (due_after_batch c k now inner (batch_size l) Hinv Hb1) as Hless. cbn zeta in Hless.
  apply IH; [by apply deliver_batch_effect|by apply next_size_ok; unfold effective_batch; lia| |lia].
  cbn. by rewrite (proj2 (Z.eqb_neq _ _) (batch_not_empty _ _ _ Hb1 Hne)).
Qed.

(** The breaker of a healthy downstream: [closed] holds at first, a closed
    breaker admits, and an accepted send leaves it closed. *)
Record keeps_closed (c : DispatcherConfig) (closed : CircuitBreaker -> Prop) : Prop := {
  closed_new : closed (breaker_new (breaker_config c));
  closed_admits : forall clock b, closed b ->
    (admission clock b).2 = None /\ closed (admission clock b).1;
  closed_settles : forall clock b, closed b -> closed (settle clock SentOk b)
}.

(** One spawned task that is admitted, sent and recorded. *)
Lemma deliver_one_runs c closed k e ts w :
  keeps_closed c closed -> tasks w = (fun e => mkTask e Waiting) <$> e :: ts -> closed (breaker w) ->
  exists w', rtc (run_step c) w w' /\ tasks w' = (fun e => mkTask e Waiting) <$> ts /\
    at_ w' = at_ w /\ vars w' = vars w /\ closed (breaker w') /\
    store w' = (process c e (Ok tt) k (store w)).1.
Proof.
  intros [_ Hadm Hset] Ht Hc. destruct (Hadm 0 (breaker w) Hc) as [Ha Hc1].
  set (w1 := admitted 0 e 0 w). set (w2 := finished 0 e SentOk 0 w1).
  assert (tasks w1 = mkTask e Sending :: ((fun e => mkTask e Waiting) <$> ts) /\ breaker w1 = (admission 0 (breaker w)).1
    /\ at_ w1 = at_ w /\ vars w1 = vars w /\ store w1 = store w) as (Ht1 & Hb1 & Hp1 & Hv1 & Hs1).
  { unfold w1, admitted. destruct (admission 0 (breaker w)) as [b rej]. cbn in *. by rewrite Ha, Ht. }
  exists (recorded c 0 e (Ok tt) k w2). split_and!.
  - eapply rtc_l; [apply (step_admit c 0 e 0); [by rewrite Ht|rewrite Ht, held_waiting; unfold permits; lia]|].
    eapply rtc_l; [apply (step_sent c 0 e SentOk 0); fold w1; by rewrite Ht1|].
    apply rtc_once. apply (step_record c 0 e (Ok tt) k). fold w1. cbn [w2 finished tasks]. by rewrite Ht1.
  - cbn [recorded set_tasks set_store tasks w2 finished]. by rewrite Ht1.
  - done.
  - done.
  - cbn. rewrite Hb1. by apply Hset.
  - cbn. by rewrite Hs1.
Qed.

Lemma deliver_batch_runs c closed k es w :
  keeps_closed c closed -> tasks w = (fun e => mkTask e Waiting) <$> es -> closed (breaker w) ->
  exists w', rtc (run_step c) w w' /\ tasks w' = [] /\ at_ w' = at_ w /\ vars w' = vars w /\
    closed (breaker w') /\ store w' = deliver_batch c k es (store w).
Proof.
  intros Hk. revert w. induction es as [|e es IH]; intros w Ht Hc; [by exists w|].
  destruct (deliver_one_runs c closed k e es w Hk Ht Hc) as (w1 & Hr & Ht1 & Ha1 & Hv1 & Hc1 & Hs1).
  destruct (IH w1 Ht1 Hc1) as (w' & Hr' & Ht' & Ha' & Hv' & Hc' & Hs').
  exists w'. split; [by etransitivity|]. by rewrite Ha', Hv', Hs', Hs1.
Qed.

(** [good_tick] is a run of the dispatcher, from one [select!] to the next. *)
Lemma good_tick_runs c closed clock k w :
  keeps_closed c closed -> at_ w = Selecting -> tasks w = [] -> closed (breaker w) ->
  exists w', rtc (run_step c) w w' /\ at_ w' = Selecting /\ tasks w' = [] /\ closed (breaker w') /\
    (vars w', store w') = good_tick c clock k (vars w, store w).
Proof.
  intros Hk Hp Ht Hc. pose proof (step_tick c clock w Hp) as Hstep. revert Hstep.
  unfold good_tick, tick. cbn [fst snd]. destruct (idle_gate _ (vars w)) as [l [|]].
  - cbn [fetch_due Store.fetch_due MemoryStore]. rewrite Ht. cbn [app].
    set (due := omap _ _). match goal with |- run_step _ _ ?w0 -> _ => set (w1 := w0) end. intros Hstep.
    destruct (deliver_batch_runs c closed k due w1 Hk eq_refl Hc) as (w2 & Hr & Ht2 & Ha2 & Hv2 & Hc2 & Hs2).
    cbn in Ha2, Hv2, Hs2. exists (set_place Selecting (set_store (Store.pending_count (store w2)).1 (set_place Gauging w2))).
    split_and!; [|done|done|done|cbn; by rewrite Hv2, Hs2].
    eapply rtc_l; [exact Hstep|]. etransitivity; [exact Hr|].
    eapply rtc_l; [by apply step_drained|]. apply rtc_once. by apply (step_gauge c (set_place Gauging w2)).
  - intros Hstep. exists (set_vars l w). split; [by apply rtc_once|]. done.
Qed.

Lemma good_ticks_run c closed clock k n inner :
  keeps_closed c closed ->
  exists w, rtc (run_step c) (start c inner ∅ ∅ ∅) w /\ at_ w = Selecting /\ tasks w = [] /\
    closed (breaker w) /\
    (vars w, store w) = Nat.iter n (good_tick c clock k) (loop_start (effective_batch c), inner).
Proof.
  intros Hk. induction n as [|n (w & Hr & Hp & Ht & Hc & Hs)].
  { exists (start c inner ∅ ∅ ∅). split_and!; try done. apply Hk. }
  destruct (good_tick_runs c closed clock k w Hk Hp Ht Hc) as (w' & Hr' & Hp' & Ht' & Hc' & Hs').
  exists w'. split_and!; try done; [by etransitivity|]. cbn. rewrite Hs'. by rewrite Hs.
Qed.

(** C12.  A backlog drains: when the sender accepts and the breaker stays
    closed, a dispatcher started on a store with [n] due events has a run of
    [n] ticks after which all of them are delivered, whatever the batch bounds,
    and nothing that was not due is touched. *)
Theorem backlog_drains (c : DispatcherConfig) (closed : CircuitBreaker -> Prop) (clock : Z) (k : Clocks)
    (n : nat) (inner : Inner) (Hk : keeps_closed c closed) (Hinv : mem_inv inner)
    (Hn : (length (ref_due (now_millis clock) (abs inner)) <= n)%nat) :
  exists w, rtc (run_step c) (start c inner ∅ ∅ ∅) w /\ at_ w = Selecting /\ tasks w = [] /\
    (vars w, store w) = Nat.iter n (good_tick c clock k) (loop_start (effective_batch c), inner) /\
    (forall limit, (fetch_due limit (now_millis clock) (store w)).2 = Ok []) /\
    (forall i t e, events inner !! i = Some (t, e) ->
       if decide (t <= now_millis clock /\ t <> NEVER)
       then i ∈ dispatched (store w) /\ events (store w) !! i = None
       else events (store w) !! i = Some (t, e)).
Proof.
  destruct (good_ticks_run c closed clock k n inner Hk) as (w & Hr & Hp & Ht & _ & Hs).
  exists w. split_and!; try done; pose proof (saturated_ok (fetch_batch c)) as [Hb _];
    (destruct (good_ticks_drain c clock k n (loop_start (effective_batch c)) inner Hinv) as [D1 D2 D3 D4 D5];
      [unfold size_ok, effective_batch; cbn in *; lia|done|done|]);
    rewrite <- Hs in *; cbn [snd] in *.
  - intros limit. rewrite fetch_due_abs by done. unfold ref_fetch_due. rewrite D1. unfold take_usize. by rewrite take_nil.
  - intros i t e He. case_decide as Hd; [|by apply D3].
    assert (i ∈ dispatched (store w)) as Hi.
    { apply (D2 (i, (t, e))). by apply elem_of_ref_due. }
    split; [done|]. apply eq_None_not_Some. intros Hs'. by apply (inv_disjoint _ D5 i).
Qed.
End drain.
