(* ===== verification/DispatchExamples.v ===== *)
(** * Concrete runs of the dispatcher

    The theorems of [DispatchSafety.v] and [DispatchProps.v] applied to small
    runs over the in-process and the SQLite store. *)

From S2P Require Import Prelude Event Truncate Codec Float Backoff HexUuid Store Memory MemoryProps.
From S2P Require Import Sql SqlTable Samples Sqlite SqliteProps Metrics Dispatch DispatchSafety DispatchProps.

Import Memory Sqlite Dispatch.

(** ** A breaker *)

(** Opens after three failures in a row. *)
#[export] Instance sample_breaker : BreakerOps := {|
  CircuitBreakerConfig := unit;
  CircuitBreaker := Z;
  standard := tt;
  breaker_new := fun _ => 0;
  admission := fun _ b => (b, if b <? 3 then None else Some true);
  settle := fun _ r b => match r with SentOk => 0 | _ => b + 1 end
|}.

Definition config : DispatcherConfig :=
  mkConfig DEFAULT_POLL_INTERVAL default_fetch_batch 4 default_policy tt.

Definition k0 : Clocks := mkClocks 0 1700000000000000000 5 0.

(** ** Nothing is lost, over a failing SQLite *)

Definition flaky : Conn Sqlite.Tables :=
  mkConn (Sqlite.mkTables ∅ ∅) [Done; Fails (lit "disk i/o error"); Lost (lit "interrupted")].

Lemma flaky_inv : Sqlite.sql_inv flaky.
Proof. intros k r Hk. cbn in Hk. by apply lookup_empty_Some in Hk. Qed.

Lemma no_event_lost_witness :
  let w0 := start config flaky ∅ ∅ ∅ in
  let w1 := tick config 2000000000 (produced ev1 w0) in
  let w := start config (store w1) (acked w1) (appended w1) (lettered w1) in
  Sqlite.sql_live (store w) (eid 1) \/ eid 1 ∈ acked w \/ eid 1 ∈ lettered w.
Proof.
  cbv zeta. eapply (no_event_lost (inv := Sqlite.sql_inv) (live := Sqlite.sql_live)
    (delivered := Sqlite.sql_delivered) config flaky _ (eid 1) flaky_inv).
  - intros j (r & Hr & _). cbn in Hr. by apply lookup_empty_Some in Hr.
  - eapply rtc_l; [right; apply (step_append config ev1)|].
    eapply rtc_l; [left; apply (step_tick config 2000000000); reflexivity|].
    eapply rtc_l; [right; apply step_restart|]. apply rtc_refl.
  - apply (bool_decide_eq_true_1 _). vm_eq.
Defined.

(** ** A batch in flight, on the in-process store *)

Definition busy : World Memory.Inner :=
  admitted 0 ev2 0 (tick config 2000000000 (produced ev1 (produced ev2 (start config Memory.new ∅ ∅ ∅)))).

Lemma busy_reachable : reachable config Memory.new busy.
Proof.
  unfold busy. eapply rtc_l; [right; apply (step_append config ev2)|].
  eapply rtc_l; [right; apply (step_append config ev1)|].
  eapply rtc_l; [left; apply (step_tick config 2000000000); reflexivity|].
  apply rtc_once. left. apply (step_admit config 0 ev2 0); [vm_eq|by vm_compute].
Qed.

Lemma in_flight_bounded_witness :
  permits_held (tasks busy) = 1 /\ task_ids (tasks busy) = [eid 2; eid 1] /\
  permits_held (tasks busy) <= 4 /\ NoDup (task_ids (tasks busy)).
Proof.
  split; [vm_eq|]. split; [vm_eq|].
  destruct (in_flight_bounded (inv := Memory.mem_inv) (live := Memory.mem_live)
    (delivered := Memory.mem_delivered) config Memory.new busy Memory.new_inv busy_reachable) as (H1 & H2 & _).
  split; [exact H1|exact H2].
Defined.


(** The task in the sender ends, and its outcome is recorded. *)
Definition closing : World Memory.Inner :=
  recorded config 0 ev2 (Ok tt) k0 (finished 0 ev2 SentOk 0 (shutdown busy)).

Lemma shutdown_completes_witness :
  steps_left (shutdown busy) = 9%nat /\ (2 <= steps_left (shutdown busy))%nat /\
  ((at_ closing = Returned /\ tasks closing = []) \/ exists w', closing_step config closing w').
Proof.
  split; [vm_eq|].
  apply (shutdown_completes (inv := Memory.mem_inv) (live := Memory.mem_live)
    (delivered := Memory.mem_delivered) config Memory.new (shutdown busy) Memory.new_inv).
  - eapply rtc_r; [apply busy_reachable|]. right. apply step_shutdown.
  - reflexivity.
  - eapply nsteps_l; [split; [apply (step_sent config 0 ev2 SentOk 0); vm_eq|discriminate]|].
    eapply nsteps_l; [split; [apply (step_record config 0 ev2 (Ok tt) k0); vm_eq|discriminate]|].
    apply nsteps_O.
Defined.

(** ** Retries *)

Lemma retry_at_window_witness :
  now_millis (k_retry k0) <= retry_at config ev1 k0 <= now_millis (k_retry k0) + 1000 /\
  retry_at config ev1 k0 <> NEVER.
Proof.
  exact (retry_at_window config ev1 k0 default_policy_wf ltac:(by vm_compute) ltac:(by vm_compute)).
Defined.

Definition two_tries : DispatcherConfig :=
  mkConfig DEFAULT_POLL_INTERVAL default_fetch_batch 4
    {| base := from_secs 1; factor := f64_two; cap := from_secs 600; max_attempts := 2 |} tt.

Lemma two_tries_wf : wf_policy (backoff two_tries).
Proof. split; unfold_int; cbn; try lia; done. Qed.

Lemma retry_budget_witness :
  exists t e, Memory.events (foldl (fail_once two_tries (eid 2)) sample_inner
      [(Failure (Delivery (lit "down")), k0); (OtherError (lit "timed out"), k0)]) !! eid 2 = Some (t, e) /\
    ev_attempts e = 2 /\ t = NEVER.
Proof.
  destruct (retry_budget two_tries sample_inner (eid 2) 900 e2
    [(Failure (Delivery (lit "down")), k0); (OtherError (lit "timed out"), k0)] two_tries_wf sample_inner_inv)
    as (t & e & H1 & H2 & H3).
  - vm_eq.
  - discriminate.
  - by vm_compute.
  - repeat constructor; by vm_compute.
  - exists t, e. split; [exact H1|]. split; [exact H2|]. apply (proj2 H3). exact H2.
Defined.

(** ** An open breaker *)

(** The sample breaker after three failures. *)
Definition halted : World Memory.Inner :=
  mkWorld sample_inner 3 [] Selecting (loop_start (effective_batch config)) false ∅ ∅ ∅.

Lemma open_breaker_pauses_witness :
  let w1 := tick config 2000000000 halted in
  let w2 := admitted 0 e2 0 w1 in
  let w3 := recorded config 0 e2 (Err CircuitOpen) k0 w2 in
  store w3 = sample_inner /\ acked w3 = ∅.
Proof.
  cbv zeta. set (w1 := tick config 2000000000 halted). set (w2 := admitted 0 e2 0 w1).
  destruct (open_breaker_pauses config halted (recorded config 0 e2 (Err CircuitOpen) k0 w2))
    as (H1 & H2 & _).
  - reflexivity.
  - eapply rtc_l; [split; [apply (step_tick config 2000000000); reflexivity|]; intros; by vm_compute|].
    eapply rtc_l; [split; [apply (step_admit config 0 e2 0); [vm_eq|by vm_compute]|]; intros; by vm_compute|].
    apply rtc_once. split; [apply (step_record config 0 e2 (Err CircuitOpen) k0); vm_eq|]; intros; by vm_compute.
  - split; [exact H1|exact H2].
Defined.

(** ** A backlog *)

Lemma sample_keeps_closed : keeps_closed config (fun b => b = 0).
Proof. split; [done|by intros clock b ->|done]. Qed.

Lemma backlog_drains_witness :
  exists w, rtc (run_step config) (start config sample_inner ∅ ∅ ∅) w /\
    (Memory.fetch_due 10 2000 (store w)).2 = Ok [] /\ eid 2 ∈ Memory.dispatched (store w).
Proof.
  destruct (backlog_drains config (fun b => b = 0) 2000000000 k0 1 sample_inner
    sample_keeps_closed sample_inner_inv) as (w & Hr & _ & _ & _ & H1 & H2).
  - apply (bool_decide_eq_true_1 _). vm_eq.
  - exists w. split; [exact Hr|]. split; [exact (H1 10)|]. specialize (H2 (eid 2) 900 e2 ltac:(vm_eq)).
    rewrite decide_True in H2 by (split; by vm_compute). exact (proj1 H2).
Defined.
