(* ===== verification/Fleet.v ===== *)
(** * Several dispatchers on one store

    Any number of [Dispatcher]s ([src/src/dispatch.rs]), each with its own
    configuration, breaker and tasks, over one store.  A step of the fleet is a
    step of one member's own program, or of the producers and operators.

    What one member sees of the fleet is a run of [Dispatch.v]: the other
    members' steps are among the environment steps allowed there, so every
    guarantee of a dispatcher holds for each member, and nothing is lost by the
    fleet as a whole. *)

From S2P Require Import Prelude BTree Event Backoff HexUuid Store Memory Metrics Dispatch DispatchSafety.
From S2P Require Import Sql SqlTable Samples DispatchExamples.

Import Dispatch.

Section Fleet.
Context `{JO : JitterOps} `{BO : BreakerOps}.
Context {S : Type} `{OS : !OutboxStore S} (cfg : nat -> DispatcherConfig).

(** What a dispatcher keeps for itself. *)
Record Member := mkMember {
  m_breaker : CircuitBreaker;
  m_tasks : list Task;
  m_at : place;
  m_vars : Loop;
  m_shutting_down : bool
}.

Record Fleet := mkFleet {
  shared : S;
  members : gmap nat Member;
  f_acked : gset EventId;
  f_appended : gset EventId;
  f_lettered : gset EventId
}.

Definition fleet_start (s : S) : Fleet := mkFleet s ∅ ∅ ∅ ∅.

Definition local (w : World S) : Member :=
  mkMember (breaker w) (tasks w) (at_ w) (vars w) (shutting_down w).

(** A dispatcher before [run]. *)
Definition idle_member (n : nat) : Member :=
  mkMember (breaker_new (breaker_config (cfg n))) [] Selecting (loop_start (effective_batch (cfg n))) false.

Definition member (n : nat) (f : Fleet) : Member := default (idle_member n) (members f !! n).

(** The fleet as member [n] sees it, and the fleet after [n] made it [w]. *)
Definition view (n : nat) (f : Fleet) : World S :=
  let m := member n f in
  mkWorld (shared f) (m_breaker m) (m_tasks m) (m_at m) (m_vars m) (m_shutting_down m)
    (f_acked f) (f_appended f) (f_lettered f).
Definition put (n : nat) (w : World S) (f : Fleet) : Fleet :=
  mkFleet (store w) (<[n := local w]> (members f)) (acked w) (appended w) (lettered w).
(** The same when nobody's own state changes. *)
Definition put_shared (w : World S) (f : Fleet) : Fleet :=
  mkFleet (store w) (members f) (acked w) (appended w) (lettered w).

Inductive fleet_step : Fleet -> Fleet -> Prop :=
| fleet_run n w f : run_step (cfg n) (view n f) w -> fleet_step f (put n w f)
| fleet_append e f : fleet_step f (put_shared (produced e (view 0 f)) f)
| fleet_dead_letter clock e reason f : fleet_step f (put_shared (closed clock e reason (view 0 f)) f)
| fleet_reschedule i error retry_at_ms f :
    fleet_step f (put_shared (set_store (mark_failed i error retry_at_ms (shared f)).1 (view 0 f)) f)
| fleet_shutdown n f : fleet_step f (put n (shutdown (view n f)) f)
| fleet_launch n f :
    (** started, or started again after a crash *)
    fleet_step f (put n (start (cfg n) (shared f) (f_acked f) (f_appended f) (f_lettered f)) f).

Definition fleet_reachable (s0 : S) (f : Fleet) : Prop := rtc fleet_step (fleet_start s0) f.

(** ** One member's step in another's eyes *)

Lemma view_put_same n w f : view n (put n w f) = w.
Proof. unfold view, member, put. cbn. rewrite lookup_insert_eq. by destruct w. Qed.

(** [w] with the shared part of [w']. *)
Definition sharing (w w' : World S) : World S :=
  mkWorld (store w') (breaker w) (tasks w) (at_ w) (vars w) (shutting_down w)
    (acked w') (appended w') (lettered w').

Lemma view_put_other n n' w f : n <> n' -> view n (put n' w f) = sharing (view n f) w.
Proof. intros Hn. unfold view, member, put, sharing. cbn. by rewrite lookup_insert_ne. Qed.

Lemma view_put_shared n w f : view n (put_shared w f) = sharing (view n f) w.
Proof. done. Qed.

Definition shares (v w : World S) : Prop :=
  store v = store w /\ acked v = acked w /\ appended v = appended w /\ lettered v = lettered w.

Lemma sharing_same v w : shares v w -> sharing v w = v.
Proof. intros (H1 & H2 & H3 & H4). unfold sharing. rewrite <- H1, <- H2, <- H3, <- H4. by destruct v. Qed.

Lemma shares_view n n' f : shares (view n f) (view n' f).
Proof. done. Qed.

(** A change of the store alone. *)
Lemma sharing_store v w s : shares v w -> sharing v (set_store s w) = set_store s v.
Proof. intros (H1 & H2 & H3 & H4). unfold sharing, set_store. cbn. by rewrite <- H2, <- H3, <- H4. Qed.

Definition acked_tasks (w : World S) : Prop := Forall (task_acked (acked w)) (tasks w).

(** What another member records is in its eyes a reschedule, or a delivery of
    an accepted event. *)
Lemma recorded_elsewhere c c' n e r k v w :
  shares v w -> acked_tasks w -> tasks w !! n = Some (mkTask e (Recording r)) ->
  rtc (world_step c) v (sharing v (recorded c' n e r k w)).
Proof.
  intros Hv Ht Hn. replace (sharing v (recorded c' n e r k w)) with (set_store (process c' e r k (store v)).1 v).
  2:{ destruct Hv as (H1 & H2 & H3 & H4). unfold sharing, recorded, set_store, set_tasks. cbn -[process].
      by rewrite <- H1, <- H2, <- H3, <- H4. }
  destruct r as [[]|[| |err|text]]; cbn [process fst].
  - apply rtc_once. right. apply step_mark_elsewhere. destruct Hv as (_ & -> & _).
    by apply (Forall_lookup_1 _ _ _ _ Ht Hn).
  - by destruct v.
  - by destruct v.
  - apply rtc_once. right. apply step_reschedule.
  - apply rtc_once. right. apply step_reschedule.
Qed.

Lemma run_step_elsewhere c c' v w w' :
  shares v w -> acked_tasks w -> run_step c' w w' -> rtc (world_step c) v (sharing v w').
Proof.
  intros Hv Ht Hstep. destruct Hstep as [clock w Hp|n e clock w Hn Hh|n e r clock w Hn|n e w Hn|
    n e r k w Hn|w Hp Hts|w Hp|w Hp Hsd|w Hp Hts].
  - unfold tick. destruct (idle_gate _ (vars w)) as [l [|]]; [|by rewrite sharing_same].
    destruct (fetch_due (batch_size l) (now_millis clock) (store w)) as [s r] eqn:E.
    assert (s = (fetch_due (batch_size l) (now_millis clock) (store v)).1) as ->.
    { destruct Hv as [-> _]. by rewrite E. }
    assert (forall s' (g : World S -> World S), (forall x, shares (g x) x) ->
      sharing v (g (set_store s' w)) = set_store s' v) as Hg.
    { intros s' g Hg. rewrite <- (sharing_store v w s' Hv). unfold sharing.
      destruct (Hg (set_store s' w)) as (-> & -> & -> & ->). done. }
    destruct r as [due|err].
    + rewrite (Hg _ (fun x => set_place Draining (set_tasks
        (tasks w ++ ((fun e => mkTask e Waiting) <$> due)) (set_vars (after_fetch _ l (len due)) x)))) by done.
      apply rtc_once. right. apply step_poll_elsewhere.
    + rewrite (Hg _ (set_vars l)) by done. apply rtc_once. right. apply step_poll_elsewhere.
  - unfold admitted. destruct (admission clock (breaker w)) as [b rej]. by rewrite sharing_same.
  - destruct r as [|err|text]; [|by rewrite sharing_same..].
    replace (sharing v (finished n e SentOk clock w)) with (sent_elsewhere (ev_id e) v).
    + apply rtc_once. right. apply step_sent_elsewhere.
    + destruct Hv as (H1 & H2 & H3 & H4). unfold sharing, sent_elsewhere. cbn. by rewrite H1, H2, H3, H4.
  - by rewrite sharing_same.
  - by eapply recorded_elsewhere.
  - by rewrite sharing_same.
  - change (set_place Selecting (set_store (pending_count (store w)).1 w))
      with (set_store (pending_count (store w)).1 (set_place Selecting w)).
    rewrite sharing_store by done. apply rtc_once. right.
    destruct Hv as [<- _]. apply step_count_elsewhere.
  - by rewrite sharing_same.
  - by rewrite sharing_same.
Qed.

(** ** Every member's tasks *)

Lemma run_step_acked c w w' :
  run_step c w w' -> acked_tasks w -> acked w ⊆ acked w' /\ acked_tasks w'.
Proof.
  intros Hstep Hw. unfold acked_tasks in *. destruct Hstep as [clock w Hp|n e clock w Ht Hh|n e r clock w Ht|n e w Ht|
    n e r k w Ht|w Hp Ht|w Hp|w Hp Hsd|w Hp Ht]; try by split.
  - unfold tick. destruct (idle_gate _ (vars w)) as [l [|]]; [|by split].
    destruct (fetch_due _ _ _) as [s [due|err]]; (split; [done|]); [|done]. cbn.
    apply Forall_app. split; [done|]. apply Forall_fmap, Forall_true. done.
  - unfold admitted. destruct (admission clock (breaker w)) as [b rej]. split; [done|]. cbn.
    apply Forall_insert; [done|]. by destruct rej as [[]|].
  - assert (acked w ⊆ acked (finished n e r clock w)) as Hsub by (destruct r; cbn; set_solver).
    split; [done|]. apply Forall_insert; [by eapply tasks_acked_mono|].
    destruct r; [|done..]. intros _. cbn. set_solver.
  - split; [done|]. by apply Forall_delete.
  - split; [done|]. by apply Forall_delete.
Qed.

Definition fleet_inv (f : Fleet) : Prop := forall n, acked_tasks (view n f).

Lemma put_fleet_inv n w f :
  f_acked f ⊆ acked w -> acked_tasks w -> fleet_inv f -> fleet_inv (put n w f).
Proof.
  intros Hsub Hw Hf n'. destruct (decide (n' = n)) as [->|Hne]; [by rewrite view_put_same|].
  rewrite view_put_other by done. eapply tasks_acked_mono; [exact Hsub|apply Hf].
Qed.

Lemma fleet_step_inv f f' : fleet_step f f' -> fleet_inv f -> fleet_inv f'.
Proof.
  intros Hstep Hf. destruct Hstep as [n w f Hs|e f|clock e reason f|i m t f|n f|n f].
  - destruct (run_step_acked _ _ _ Hs (Hf n)) as [H1 H2]. by apply put_fleet_inv.
  - intros n. apply (Hf n).
  - intros n. apply (Hf n).
  - intros n. apply (Hf n).
  - apply put_fleet_inv; [done|apply (Hf n)|done].
  - apply put_fleet_inv; [done|by constructor|done].
Qed.

(** A step of the fleet is, to each member, a step of its own or of its
    environment, or nothing. *)
Lemma fleet_step_view n f f' :
  fleet_inv f -> fleet_step f f' -> rtc (world_step (cfg n)) (view n f) (view n f').
Proof.
  intros Hf Hstep. destruct Hstep as [n' w f Hs|e f|clock e reason f|i m t f|n' f|n' f].
  - destruct (decide (n = n')) as [->|Hne].
    + rewrite view_put_same. apply rtc_once. by left.
    + rewrite view_put_other by done.
      apply (run_step_elsewhere _ (cfg n') _ (view n' f)); [apply shares_view|apply Hf|done].
  - apply rtc_once. right. apply (step_append (cfg n) e (view n f)).
  - apply rtc_once. right. apply (step_dead_letter (cfg n) clock e reason (view n f)).
  - apply rtc_once. right. apply (step_reschedule (cfg n) i m t (view n f)).
  - destruct (decide (n = n')) as [->|Hne].
    + rewrite view_put_same. apply rtc_once. right. apply step_shutdown.
    + rewrite view_put_other by done. by rewrite sharing_same.
  - destruct (decide (n = n')) as [->|Hne].
    + rewrite view_put_same. apply rtc_once. right. apply (step_restart (cfg n') (view n' f)).
    + rewrite view_put_other by done. by rewrite sharing_same.
Qed.

Lemma fleet_view_reachable s0 f n :
  fleet_reachable s0 f -> reachable (cfg n) s0 (view n f).
Proof.
  intros Hf. unfold reachable. change (start (cfg n) s0 ∅ ∅ ∅) with (view n (fleet_start s0)).
  assert (fleet_inv (fleet_start s0)) as Hinv by (intros n'; constructor).
  unfold fleet_reachable in Hf. revert Hinv. generalize dependent (fleet_start s0). intros f0 Hf.
  induction Hf as [f|f1 f2 f3 Hstep _ IH]; intros Hinv; [done|].
  etransitivity; [by eapply fleet_step_view|]. apply IH. by eapply fleet_step_inv.
Qed.

(** C19.  However the members of a fleet interleave, crash and restart, what
    each member sees is a run of the single dispatcher with its own
    configuration: the others are no more to it than the environment it
    tolerates anyway. *)
Theorem fleet_member_runs (s0 : S) (f : Fleet) (n : nat) (Hf : fleet_reachable s0 f) :
  reachable (cfg n) s0 (view n f) /\ shared f = store (view n f) /\
  (forall m, members f !! n = Some m -> local (view n f) = m).
Proof.
  split; [by apply fleet_view_reachable|]. split; [done|]. intros m Hm.
  unfold view, local, member. cbn. rewrite Hm. by destruct m.
Qed.

(** C14.  A fleet loses nothing: an event whose [append] returned [Ok] is in the
    outbox unless some member's sender accepted it or an operator asked to
    dead-letter it; and each member keeps its own bounds. *)
Theorem fleet_no_event_lost {inv : S -> Prop} {live delivered : S -> EventId -> Prop}
    `{OL : !OutboxLaws S inv live delivered} (s0 : S) (f : Fleet)
    (Hs : inv s0) (Hd : forall j, ~ delivered s0 j) (Hf : fleet_reachable s0 f) :
  (forall i, i ∈ f_appended f -> live (shared f) i \/ i ∈ f_acked f \/ i ∈ f_lettered f) /\
  (forall n, permits_held (m_tasks (member n f)) <= permits (cfg n) /\
             NoDup (task_ids (m_tasks (member n f)))).
Proof.
  split.
  - intros i Hi. pose proof (fleet_view_reachable s0 f 0 Hf) as Hr.
    apply (wi_kept _ (reachable_world_inv (cfg 0) s0 _ Hs Hd Hr)), Hi.
  - intros n. pose proof (fleet_view_reachable s0 f n Hf) as Hr.
    destruct (reachable_control_inv (cfg n) s0 _ Hs Hr) as [_ _ H1 H2 _ _ _ _]. by split.
Qed.
End Fleet.

(** ** An example

    Two dispatchers poll before either has recorded anything: both fetch the
    event.  The first one's sender accepts it, then it crashes. *)

Import Memory.

Definition twins (n : nat) : DispatcherConfig := config.

Definition appended1 : Fleet := put_shared (produced ev1 (view twins 0 (fleet_start Memory.new))) (fleet_start Memory.new).
Definition polled1 : Fleet := put 0 (tick config 2000000000 (view twins 0 appended1)) appended1.
Definition polled2 : Fleet := put 1 (tick config 2000000000 (view twins 1 polled1)) polled1.
Definition asked : Fleet := put 0 (admitted 0 ev1 0 (view twins 0 polled2)) polled2.
Definition accepted : Fleet := put 0 (finished 0 ev1 SentOk 0 (view twins 0 asked)) asked.
Definition crashed : Fleet :=
  put 0 (start config (shared accepted) (f_acked accepted) (f_appended accepted) (f_lettered accepted)) accepted.

Lemma crashed_reachable : fleet_reachable twins Memory.new crashed.
Proof.
  apply (rtc_l _ _ appended1); [apply (fleet_append twins ev1)|].
  apply (rtc_l _ _ polled1); [apply (fleet_run twins 0), (step_tick config 2000000000); vm_eq|].
  apply (rtc_l _ _ polled2); [apply (fleet_run twins 1), (step_tick config 2000000000); vm_eq|].
  apply (rtc_l _ _ asked); [apply (fleet_run twins 0), (step_admit config 0 ev1 0); [vm_eq|by vm_compute]|].
  apply (rtc_l _ _ accepted); [apply (fleet_run twins 0), (step_sent config 0 ev1 SentOk 0); vm_eq|].
  apply rtc_once. exact (fleet_launch twins 0 accepted).
Qed.

Lemma fleet_member_runs_witness :
  task_ids (m_tasks (member twins 1 crashed)) = [eid 1] /\ m_tasks (member twins 0 crashed) = [] /\
  reachable config Memory.new (view twins 1 crashed).
Proof.
  split; [vm_eq|]. split; [vm_eq|].
  exact (proj1 (fleet_member_runs twins Memory.new crashed 1 crashed_reachable)).
Defined.

Lemma fleet_no_event_lost_witness :
  eid 1 ∈ f_appended crashed /\
  (Memory.mem_live (shared crashed) (eid 1) \/ eid 1 ∈ f_acked crashed \/ eid 1 ∈ f_lettered crashed).
Proof.
  assert (eid 1 ∈ f_appended crashed) as Hi by (apply (bool_decide_eq_true_1 _); vm_eq).
  split; [exact Hi|].
  apply (proj1 (fleet_no_event_lost (inv := Memory.mem_inv) (live := Memory.mem_live)
    (delivered := Memory.mem_delivered) twins Memory.new crashed Memory.new_inv
    (fun j => not_elem_of_empty j) crashed_reachable) (eid 1) Hi).
Defined.
