(* ===== verification/FleetShutdown.v ===== *)
(** * The shutdown of a fleet

    [dispatch.rs], [shutdown] and [run], for several dispatchers on one store:
    once every member is signalled the fleet winds down, however its members
    interleave and whatever producers and operators go on doing meanwhile. *)

From S2P Require Import Prelude BTree Event Backoff HexUuid Store Memory Metrics Dispatch DispatchSafety.
From S2P Require Import Samples DispatchExamples Fleet.

Import Dispatch.

Section shutdown.
Context `{JO : JitterOps} `{BO : BreakerOps}.
Context {S : Type} `{OS : !OutboxStore S} {inv : S -> Prop} {live delivered : S -> EventId -> Prop}.
Context `{OL : !OutboxLaws S inv live delivered} (cfg : nat -> DispatcherConfig).

#[local] Abbreviation Fleet := (Fleet (S := S)).

(** ** The work left *)

Definition member_left (m : Member) : nat := work (m_tasks m) + rank (m_at m).
Definition left_over (ms : gmap nat Member) : nat := map_fold (fun _ m left => member_left m + left)%nat 0%nat ms.
Definition fleet_left (f : Fleet) : nat := left_over (members f).

Lemma left_over_lookup ms n m :
  ms !! n = Some m -> left_over ms = (member_left m + left_over (delete n ms))%nat.
Proof. intros Hn. unfold left_over. by rewrite (map_fold_delete_L _ _ n m) by (done || intros; lia). Qed.

Lemma left_over_insert ms n m m' :
  ms !! n = Some m -> (member_left m' < member_left m)%nat -> (left_over (<[n := m']> ms) < left_over ms)%nat.
Proof.
  intros Hn Hlt. rewrite (left_over_lookup ms n m Hn), (left_over_lookup _ n m') by (by rewrite lookup_insert_eq).
  rewrite delete_insert_eq. lia.
Qed.

(** ** Winding down *)

(** What goes on outside the fleet. *)
Inductive outside_step : Fleet -> Fleet -> Prop :=
| outside_append e f : outside_step f (put_shared (produced e (view cfg 0 f)) f)
| outside_dead_letter clock e reason f : outside_step f (put_shared (closed clock e reason (view cfg 0 f)) f)
| outside_reschedule i error retry_at_ms f :
    outside_step f (put_shared (set_store (mark_failed i error retry_at_ms (shared f)).1 (view cfg 0 f)) f).

(** A launched member takes a step, the shutdown branch at [select!]. *)
Inductive member_step : Fleet -> Fleet -> Prop :=
| member_closes n w f :
    is_Some (members f !! n) -> closing_step (cfg n) (view cfg n f) w -> member_step f (put n w f).

(** A run in which the members take [k] steps. *)
Inductive winds_down : nat -> Fleet -> Fleet -> Prop :=
| winds_nil f : winds_down 0 f f
| winds_member k f f1 f2 : member_step f f1 -> winds_down k f1 f2 -> winds_down (Datatypes.S k) f f2
| winds_outside k f f1 f2 : outside_step f f1 -> winds_down k f1 f2 -> winds_down k f f2.

Definition signalled (f : Fleet) : Prop :=
  forall n m, members f !! n = Some m -> m_shutting_down m = true.
Definition all_returned (f : Fleet) : Prop :=
  forall n m, members f !! n = Some m -> m_at m = Returned /\ m_tasks m = [].

Lemma outside_step_members f f' : outside_step f f' -> members f' = members f.
Proof. by destruct 1. Qed.

Lemma outside_step_fleet f f' : outside_step f f' -> fleet_step cfg f f'.
Proof. destruct 1; constructor. Qed.

Lemma member_step_fleet f f' : member_step f f' -> fleet_step cfg f f'.
Proof. intros [n w f0 _ [Hw _]]. by constructor. Qed.

Lemma view_member n m (f : Fleet) : members f !! n = Some m -> local (view cfg n f) = m.
Proof. intros Hm. unfold view, local, member. cbn. rewrite Hm. by destruct m. Qed.

Lemma member_step_left f f' : member_step f f' -> (fleet_left f' < fleet_left f)%nat.
Proof.
  intros [n w f0 [m Hm] Hw]. apply (left_over_insert _ _ m); [done|].
  rewrite <- (view_member _ _ _ Hm). exact (closing_step_left _ _ _ Hw).
Qed.

Lemma member_step_signalled f f' : member_step f f' -> signalled f -> signalled f'.
Proof.
  intros [n w f0 [m Hm] [Hw _]] Hf n' m'. unfold put. cbn.
  destruct (decide (n' = n)) as [->|Hne]; [rewrite lookup_insert_eq|rewrite lookup_insert_ne by done; apply Hf].
  intros [= <-]. cbn. rewrite (run_step_signal _ _ _ Hw). unfold view, member. cbn. rewrite Hm. by apply (Hf n).
Qed.

(** A fleet that has not wound down can take a step. *)
Lemma fleet_can_move s0 f :
  inv s0 -> fleet_reachable cfg s0 f -> signalled f ->
  all_returned f \/ exists f', member_step f f'.
Proof.
  intros Hs Hf Hsig.
  assert (forall n, control_inv (inv := inv) (cfg n) (view cfg n f)) as Hc.
  { intros n. eapply reachable_control_inv; [done|by apply fleet_view_reachable]. }
  destruct (decide (map_Forall (fun _ m => rank (m_at m) = 0%nat) (members f))) as [Hall|Hnot].
  - left. intros n m Hm. pose proof (Hall n m Hm) as Hr. pose proof (ci_idle _ _ (Hc n)) as Hidle.
    revert Hr Hidle. rewrite <- (view_member n m f Hm). cbn. intros Hr Hidle.
    destruct (m_at _) eqn:E; cbn in Hr; try lia. split; [done|]. by apply Hidle.
  - right. apply map_not_Forall in Hnot as (n & m & Hm & Hat); [|intros ? ?; apply _].
    revert Hat. pose proof (Hsig n m Hm) as Hsd. revert Hsd. rewrite <- (view_member n m f Hm). cbn.
    intros Hsd Hat. destruct (closing_step_possible (inv := inv) (cfg n) (view cfg n f)) as [w Hw]; [done..| |].
    + cbn. intros Hr. by rewrite Hr in Hat.
    + exists (put n w f). by constructor.
Qed.

(** C18.  A fleet shuts down: once every launched member is signalled, in any
    run in which signalled members stop polling, the members together take at
    most as many steps as their work left, whatever producers and operators do
    in between; and until all have returned, nothing in flight, some member can
    take the next step. *)
Theorem fleet_shutdown_completes (s0 : S) (f : Fleet) (k : nat) (f' : Fleet)
    (Hs : inv s0) (Hf : fleet_reachable cfg s0 f) (Hsig : signalled f) (Hw : winds_down k f f') :
  (k <= fleet_left f)%nat /\ (all_returned f' \/ exists f'', member_step f' f'').
Proof.
  induction Hw as [f|k f f1 f2 Hstep _ IH|k f f1 f2 Hstep _ IH].
  - split; [lia|by eapply fleet_can_move].
  - pose proof (member_step_left _ _ Hstep). destruct IH as [Hle Hend]; [|by eapply member_step_signalled|].
    + eapply rtc_r; [done|by apply member_step_fleet].
    + split; [lia|done].
  - pose proof (outside_step_members _ _ Hstep) as Hm.
    destruct IH as [Hle Hend]; [|intros n m; rewrite Hm; apply Hsig|].
    + eapply rtc_r; [done|by apply outside_step_fleet].
    + unfold fleet_left in *. rewrite Hm in Hle. by split.
Qed.
End shutdown.

(** ** An example

    Of the twins of [Fleet.v] one is asking its sender when both are signalled;
    the other has a task waiting.  A producer appends on. *)

Import Memory.

Definition signalled1 : Fleet := put 0 (shutdown (view twins 0 asked)) asked.
Definition signalled2 : Fleet := put 1 (shutdown (view twins 1 signalled1)) signalled1.
Definition appended_on : Fleet := put_shared (produced ev2 (view twins 0 signalled2)) signalled2.
Definition sent0 : Fleet := put 0 (finished 0 ev1 SentOk 0 (view twins 0 appended_on)) appended_on.

Lemma signalled2_reachable : fleet_reachable twins Memory.new signalled2.
Proof.
  apply (rtc_l _ _ appended1); [apply (fleet_append twins ev1)|].
  apply (rtc_l _ _ polled1); [apply (fleet_run twins 0), (step_tick config 2000000000); vm_eq|].
  apply (rtc_l _ _ polled2); [apply (fleet_run twins 1), (step_tick config 2000000000); vm_eq|].
  apply (rtc_l _ _ asked); [apply (fleet_run twins 0), (step_admit config 0 ev1 0); [vm_eq|by vm_compute]|].
  apply (rtc_l _ _ signalled1); [exact (fleet_shutdown twins 0 asked)|].
  apply rtc_once. exact (fleet_shutdown twins 1 signalled1).
Qed.

Lemma signalled2_all : signalled signalled2.
Proof.
  intros n m Hm. apply elem_of_map_to_list in Hm.
  assert (forallb (fun p => m_shutting_down p.2) (map_to_list (members signalled2)) = true) as H by vm_eq.
  rewrite forallb_forall in H. apply (H (n, m)). by apply list_elem_of_In.
Qed.

Lemma sent0_winds : winds_down twins 1 signalled2 sent0.
Proof.
  refine (winds_outside twins 1 signalled2 appended_on sent0 (outside_append twins ev2 signalled2) _).
  refine (winds_member twins 0 appended_on sent0 sent0 _ (winds_nil twins sent0)).
  refine (member_closes twins 0 _ appended_on _ _); [by eexists|].
  split; [apply (step_sent config 0 ev1 SentOk 0); vm_eq|discriminate].
Qed.

Lemma fleet_shutdown_completes_witness :
  fleet_left signalled2 = 13%nat /\ (1 <= fleet_left signalled2)%nat /\
  (all_returned sent0 \/ exists f, member_step twins sent0 f).
Proof.
  split; [vm_eq|].
  exact (fleet_shutdown_completes (inv := Memory.mem_inv) (live := Memory.mem_live)
    (delivered := Memory.mem_delivered) twins Memory.new signalled2 1 sent0
    Memory.new_inv signalled2_reachable signalled2_all sent0_winds).
Defined.
