(* ===== verification/PgShared.v ===== *)
(** * One Postgres outbox under a schedule of locks

    [PgSessions.v] shows that concurrent clients see atomic calls, but that a
    fetch may leave out rows that overlapping calls hold.  Here the store carries
    the rows each of its fetches will find locked: a dispatcher, or a fleet, on
    it meets every interleaving of other clients' claims, and the guarantees of
    [DispatchSafety.v], [Fleet.v], [DispatchBudget.v] and [DispatchIntegrity.v]
    hold for every such schedule. *)

From S2P Require Import Prelude BTree Utf8 Event Truncate Codec Backoff Store Failures Envelopes Sql SqlTable Postgres PgSessions.
From S2P Require Import Metrics Dispatch DispatchSafety Fleet.

Import Dispatch.

Module PgShared.
Import Postgres PgSessions.
Section PgShared.
Context `{UO : UuidOps} `{SE : SqlEngine}.

Record Shared := mkShared { conn : Conn Tables; locks_ahead : list (gset str) }.

Definition next_locks (ls : list (gset str)) : gset str * list (gset str) :=
  match ls with [] => (∅, []) | L :: ls => (L, ls) end.

Definition under_locks (L : gset str) (c : Conn Tables) : Conn Tables :=
  mkConn (with_locks L (tables c)) (script c).

(** A call that meets no lock. *)
Definition lifted {A} (m : M (Conn Tables) StoreError A) : M Shared StoreError A := fun s =>
  (mkShared (m (conn s)).1 (locks_ahead s), (m (conn s)).2).

Definition shared_fetch_due (limit now : Z) : M Shared StoreError (list OutboxEvent) := fun s =>
  let '(L, ls) := next_locks (locks_ahead s) in
  let '(c, r) := fetch_due limit now (under_locks L (conn s)) in
  (mkShared (under_locks ∅ c) ls, r).

#[export] Instance SharedStore : OutboxStore Shared := {|
  Store.append := fun e => lifted (append e);
  Store.fetch_due := shared_fetch_due;
  Store.mark_dispatched := fun k i => lifted (mark_dispatched k i);
  Store.mark_failed := fun i m t => lifted (mark_failed i m t);
  Store.pending_count := lifted pending_count;
  Store.parked_count := lifted parked_count;
  Store.dead_letter := fun k e r => lifted (dead_letter k e r);
  Store.dead_letters := fun n => lifted (dead_letters n)
|}.

Definition shared_inv (s : Shared) : Prop := sql_inv (conn s).
Definition shared_live (s : Shared) (i : EventId) : Prop := sql_live (conn s) i.
Definition shared_delivered (s : Shared) (i : EventId) : Prop := sql_delivered (conn s) i.
Definition shared_failures (s : Shared) (i : EventId) : option (Z * bool) := postgres_failures (conn s) i.
Definition shared_genuine (A : OutboxEvent -> Prop) (s : Shared) : Prop := postgres_genuine A (conn s).

(** A fetch is the atomic call under the next locks. *)
Lemma shared_fetch limit now s :
  let c := under_locks (next_locks (locks_ahead s)).1 (conn s) in
  (shared_fetch_due limit now s).2 = (fetch_due limit now c).2 /\
  outbox_events (tables (conn (shared_fetch_due limit now s).1)) = outbox_events (tables (fetch_due limit now c).1).
Proof.
  unfold shared_fetch_due. destruct (next_locks (locks_ahead s)) as [L ls]. cbn.
  by destruct (fetch_due limit now (under_locks L (conn s))).
Qed.

Context `{UL : !UuidLaws}.

Lemma shared_fetch_events limit now s :
  outbox_events (tables (conn (shared_fetch_due limit now s).1)) = outbox_events (tables (conn s)).
Proof.
  rewrite (proj2 (shared_fetch limit now s)). cbv zeta.
  by rewrite <- (pg_fetch_due_keeps eq limit now (under_locks (next_locks (locks_ahead s)).1 (conn s))).
Qed.

#[export] Instance SharedStore_laws : OutboxLaws Shared shared_inv shared_live shared_delivered.
Proof.
  split; cbn [Store.append Store.fetch_due Store.mark_dispatched Store.mark_failed
    Store.pending_count Store.dead_letter SharedStore lifted fst snd];
    unfold shared_inv, shared_live, shared_delivered; cbn [conn lifted fst snd].
  - intros s e. exact (append_inv (S := Conn Tables) (inv := sql_inv) (live := sql_live) (delivered := sql_delivered) (conn s) e).
  - intros s n now. unfold sql_inv. by rewrite shared_fetch_events.
  - intros s k i. exact (mark_dispatched_inv (S := Conn Tables) (inv := sql_inv) (live := sql_live) (delivered := sql_delivered) (conn s) k i).
  - intros s i m t. exact (mark_failed_inv (S := Conn Tables) (inv := sql_inv) (live := sql_live) (delivered := sql_delivered) (conn s) i m t).
  - intros s. exact (pending_count_inv (S := Conn Tables) (inv := sql_inv) (live := sql_live) (delivered := sql_delivered) (conn s)).
  - intros s k e r. exact (dead_letter_inv (S := Conn Tables) (inv := sql_inv) (live := sql_live) (delivered := sql_delivered) (conn s) k e r).
  - intros s e. exact (append_records (S := Conn Tables) (inv := sql_inv) (live := sql_live) (delivered := sql_delivered) (conn s) e).
  - intros s e i. exact (append_keeps (S := Conn Tables) (inv := sql_inv) (live := sql_live) (delivered := sql_delivered) (conn s) e i).
  - intros s n now i _. unfold sql_live, live_in. by rewrite shared_fetch_events.
  - intros s n now l e Hs. rewrite (proj1 (shared_fetch n now s)).
    exact (fetch_due_live (S := Conn Tables) (inv := sql_inv) (live := sql_live) (delivered := sql_delivered)
      (under_locks _ (conn s)) n now l e Hs).
  - intros s i. exact (pending_count_keeps (S := Conn Tables) (inv := sql_inv) (live := sql_live) (delivered := sql_delivered) (conn s) i).
  - intros s j m t i. exact (mark_failed_keeps (S := Conn Tables) (inv := sql_inv) (live := sql_live) (delivered := sql_delivered) (conn s) j m t i).
  - intros s n now l Hs. rewrite (proj1 (shared_fetch n now s)).
    exact (fetch_due_distinct (S := Conn Tables) (inv := sql_inv) (live := sql_live) (delivered := sql_delivered)
      (under_locks _ (conn s)) n now l Hs).
  - intros s e i. exact (append_delivered (S := Conn Tables) (inv := sql_inv) (live := sql_live) (delivered := sql_delivered) (conn s) e i).
  - intros s n now i _. unfold sql_delivered, delivered_in. by rewrite shared_fetch_events.
  - intros s i. exact (pending_count_delivered (S := Conn Tables) (inv := sql_inv) (live := sql_live) (delivered := sql_delivered) (conn s) i).
  - intros s j m t i. exact (mark_failed_delivered (S := Conn Tables) (inv := sql_inv) (live := sql_live) (delivered := sql_delivered) (conn s) j m t i).
  - intros s k e r i. exact (dead_letter_delivered (S := Conn Tables) (inv := sql_inv) (live := sql_live) (delivered := sql_delivered) (conn s) k e r i).
  - intros s k j i. exact (mark_dispatched_delivered (S := Conn Tables) (inv := sql_inv) (live := sql_live) (delivered := sql_delivered) (conn s) k j i).
  - intros s k j i. exact (mark_dispatched_keeps (S := Conn Tables) (inv := sql_inv) (live := sql_live) (delivered := sql_delivered) (conn s) k j i).
  - intros s k e r i. exact (dead_letter_keeps (S := Conn Tables) (inv := sql_inv) (live := sql_live) (delivered := sql_delivered) (conn s) k e r i).
Qed.

#[export] Instance SharedStore_failures : OutboxFailures Shared shared_inv shared_failures.
Proof.
  assert (forall k s, (match k with CFetchDue _ _ => False | _ => True end) ->
    conn (perform k s).1 = (perform k (conn s)).1) as Hconn by (intros [] s; done).
  split.
  - intros k s i a f Hs. unfold shared_failures.
    destruct k as [e|n now|c j|j m t| | |c e r|n]; try (rewrite Hconn by done; by apply (perform_failures (inv := sql_inv))).
    unfold postgres_failures, pg_failures_in. cbn [perform replying fst Store.fetch_due SharedStore].
    rewrite shared_fetch_events. apply carried_same.
  - intros s n now l e Hs. cbn [Store.fetch_due SharedStore]. rewrite (proj1 (shared_fetch n now s)).
    exact (fetch_due_failures (S := Conn Tables) (inv := sql_inv) (failures := postgres_failures)
      (under_locks _ (conn s)) n now l e Hs).
Qed.

#[export] Instance SharedStore_envelopes : OutboxEnvelopes Shared shared_genuine.
Proof.
  split.
  - intros A k s Hk Hs. unfold shared_genuine.
    assert (match k with CFetchDue _ _ => False | _ => True end -> postgres_genuine A (conn (perform k s).1)) as H.
    { intros Hn. replace (conn (perform k s).1) with (perform k (conn s)).1 by by destruct k.
      by apply perform_genuine. }
    destruct k; try by apply H. unfold postgres_genuine, pg_genuine_in.
    cbn [perform replying fst Store.fetch_due SharedStore]. by rewrite shared_fetch_events.
  - intros A s n now l e HA Hs. cbn [Store.fetch_due SharedStore]. rewrite (proj1 (shared_fetch n now s)).
    exact (fetch_due_genuine (S := Conn Tables) (genuine := postgres_genuine) A (under_locks _ (conn s)) n now l e HA Hs).
Qed.

(** A fleet on one Postgres, whatever its members' fetches find locked. *)
Lemma shared_fleet_no_event_lost `{JO : !JitterOps} `{BO : BreakerOps} (cfg : nat -> DispatcherConfig)
    (s0 : Shared) (f : Fleet) :
  shared_inv s0 -> (forall j, ~ shared_delivered s0 j) -> fleet_reachable cfg s0 f ->
  forall i, i ∈ f_appended f -> shared_live (shared f) i \/ i ∈ f_acked f \/ i ∈ f_lettered f.
Proof.
  intros Hs Hd Hf i Hi. pose proof (fleet_view_reachable cfg s0 f 0%nat Hf) as Hr.
  apply (wi_kept _ (reachable_world_inv (cfg 0%nat) s0 _ Hs Hd Hr)), Hi.
Qed.
End PgShared.
End PgShared.
