(* ===== verification/DispatchOnce.v ===== *)
(** * When an event is sent once

    The dispatcher promises at-least-once.  A duplicate needs one of the faults
    the code cannot hide: the store losing the record of a delivery, a crash
    between the sender's acceptance and that record, another dispatcher on the
    same store, or an operator rescheduling or dead-lettering an event under
    way.  Without them nothing the sender accepted is handed to it again. *)

From S2P Require Import Prelude BTree Event Backoff HexUuid Store Memory Metrics Dispatch DispatchSafety.
From S2P Require Import Sql SqlTable Samples Sqlite SqliteProps DispatchExamples.

Import Dispatch.

Section once.
Context `{JO : JitterOps} `{BO : BreakerOps}.
Context {S : Type} `{OS : !OutboxStore S} {inv : S -> Prop} {live delivered : S -> EventId -> Prop}.
Context `{OL : !OutboxLaws S inv live delivered} `{OF : !OutboxFinal S inv live delivered}.
Context (c : DispatcherConfig).

Definition in_flight (w : World S) (i : EventId) : Prop := i ∈ task_ids (tasks w).

(** The sender accepted it, and nothing is recorded yet. *)
Definition unrecorded (t : Task) : Prop := t_phase t = Recording (Ok tt).

(** One dispatcher, undisturbed: it may be stopped and started again once every
    acceptance is recorded; producers append what they like; operators leave
    alone what is being delivered. *)
Inductive calm_step : World S -> World S -> Prop :=
| calm_run w w' : run_step c w w' -> calm_step w w'
| calm_append e w : calm_step w (produced e w)
| calm_dead_letter clock e reason w :
    ev_id e ∉ acked w -> ~ in_flight w (ev_id e) -> calm_step w (closed clock e reason w)
| calm_reschedule i error retry_at_ms w :
    i ∉ acked w -> calm_step w (set_store (mark_failed i error retry_at_ms (store w)).1 w)
| calm_shutdown w : calm_step w (shutdown w)
| calm_restart w :
    Forall (fun t => ~ unrecorded t) (tasks w) ->
    calm_step w (start c (store w) (acked w) (appended w) (lettered w)).

Lemma calm_world_step w w' : calm_step w w' -> world_step c w w'.
Proof.
  intros Hs. destruct Hs as [w w' H|e w|clock e reason w _ _|i m t w _|w|w _]; [by left|right..].
  - apply step_append.
  - apply step_dead_letter.
  - apply step_reschedule.
  - apply step_shutdown.
  - apply step_restart.
Qed.

(** Everything accepted is recorded, or about to be; nothing else in flight
    was accepted; what is in flight is in the outbox. *)
Record once_inv (w : World S) : Prop := {
  oi_control : control_inv (inv := inv) c w;
  oi_acked : forall i, i ∈ acked w ->
    delivered (store w) i \/ exists t, t ∈ tasks w /\ unrecorded t /\ ev_id (t_event t) = i;
  oi_fresh : forall t, t ∈ tasks w -> ~ unrecorded t -> ev_id (t_event t) ∉ acked w;
  oi_live : forall t, t ∈ tasks w -> live (store w) (ev_id (t_event t))
}.

(** Replacing the store by one that keeps what is delivered and what is live. *)
Lemma once_store w s :
  once_inv w -> inv s ->
  (forall i, i ∈ acked w -> delivered (store w) i -> delivered s i) ->
  (forall i, in_flight w i -> live (store w) i -> live s i) ->
  once_inv (set_store s w).
Proof.
  intros [[] Ha Hf Hl] Hs Hd Hk. split; cbn; [by split| |done|].
  - intros i Hi. destruct (Ha i Hi) as [?|?]; auto.
  - intros t Ht. apply Hk; [|by apply Hl]. by apply (list_elem_of_fmap_2 (fun t => ev_id (t_event t))).
Qed.

Lemma once_same w w' :
  once_inv w -> control_inv (inv := inv) c w' ->
  store w' = store w -> acked w' = acked w -> tasks w' = tasks w -> once_inv w'.
Proof. intros [_ Ha Hf Hl] Hc E1 E2 E3. split; [done|..]; by rewrite ?E1, ?E2, ?E3. Qed.

(** Tasks of different positions have different events. *)
Lemma tasks_distinct w n m t t' :
  control_inv (inv := inv) c w -> tasks w !! n = Some t -> tasks w !! m = Some t' ->
  ev_id (t_event t) = ev_id (t_event t') -> n = m.
Proof.
  intros Hc Hn Hm He. apply (proj1 (NoDup_alt _) (ci_distinct _ _ Hc) n m (ev_id (t_event t)));
    unfold task_ids; rewrite list_lookup_fmap, ?Hn, ?Hm; cbn; congruence.
Qed.

Lemma once_insert w w' n e p p' :
  once_inv w -> control_inv (inv := inv) c w' -> tasks w !! n = Some (mkTask e p) ->
  tasks w' = <[n := mkTask e p']> (tasks w) -> store w' = store w -> acked w ⊆ acked w' ->
  (forall i, i ∈ acked w' -> i ∈ acked w \/ i = ev_id e) ->
  p <> Recording (Ok tt) -> (p' = Recording (Ok tt) <-> ev_id e ∈ acked w') ->
  once_inv w'.
Proof.
  intros [Hc Ha Hf Hl] Hc' Hn Ht Hs Hsub Hnew Hp Hp'.
  assert (mkTask e p ∈ tasks w) as Hin by (by eapply list_elem_of_lookup_2).
  assert (n < length (tasks w))%nat as Hlt by (by apply lookup_lt_Some in Hn).
  assert (ev_id e ∉ acked w) as Hfresh by (by apply (Hf (mkTask e p))).
  assert (forall m t, tasks w !! m = Some t -> m <> n -> t ∈ tasks w') as Hother.
  { intros m t Hm Hne. rewrite Ht. apply (list_elem_of_lookup_2 _ m). by rewrite list_lookup_insert_ne. }
  assert (forall t, t ∈ tasks w' -> t = mkTask e p' \/ exists m, m <> n /\ tasks w !! m = Some t) as Hcases.
  { intros t [m Hm]%list_elem_of_lookup. rewrite Ht in Hm. destruct (decide (m = n)) as [->|Hne].
    - rewrite list_lookup_insert_eq in Hm by done. left. congruence.
    - rewrite list_lookup_insert_ne in Hm by done. right. by exists m. }
  split; [done|..]; rewrite ?Hs.
  - intros i Hi. destruct (Hnew i Hi) as [Ho| ->].
    + destruct (Ha i Ho) as [?|(t & [m Hm]%list_elem_of_lookup & Hu & <-)]; [by left|right].
      exists t. split; [|done]. apply (Hother m); [done|]. intros ->.
      rewrite Hn in Hm. injection Hm as <-. by apply Hp.
    + right. exists (mkTask e p'). split; [|split; [by apply Hp'|done]].
      rewrite Ht. apply (list_elem_of_lookup_2 _ n). by rewrite list_lookup_insert_eq.
  - intros t [->|(m & Hne & Hm)]%Hcases Hu; cbn; [by intros ?%Hp'|].
    intros [Ho|He]%Hnew; [by apply (Hf t); [eapply list_elem_of_lookup_2|..]|].
    apply Hne. by apply (tasks_distinct w m n t (mkTask e p)).
  - intros t [->|(m & _ & Hm)]%Hcases; [by apply (Hl (mkTask e p))|].
    apply Hl. by eapply list_elem_of_lookup_2.
Qed.

Lemma once_delete w w' n e p s :
  once_inv w -> control_inv (inv := inv) c w' -> tasks w !! n = Some (mkTask e p) ->
  tasks w' = delete n (tasks w) -> store w' = s -> acked w' = acked w -> inv s ->
  (p = Recording (Ok tt) -> delivered s (ev_id e)) ->
  (forall i, i ∈ acked w -> delivered (store w) i -> delivered s i) ->
  (forall i, i <> ev_id e -> live (store w) i -> live s i) ->
  once_inv w'.
Proof.
  intros [Hc Ha Hf Hl] Hc' Hn Ht Hs Hack Hinv Hp Hd Hk.
  assert (forall t, t ∈ tasks w' -> t ∈ tasks w /\ ev_id (t_event t) <> ev_id e) as Hcases.
  { intros t Hin. rewrite Ht in Hin. apply list_elem_of_lookup in Hin as [m Hm].
    assert (exists m', m' <> n /\ tasks w !! m' = Some t) as (m' & Hne & Hm').
    { destruct (decide (m < n)%nat).
      - rewrite list_lookup_delete_lt in Hm by done. exists m. split; [lia|done].
      - rewrite list_lookup_delete_ge in Hm by lia. exists (Datatypes.S m). split; [lia|done]. }
    split; [by eapply list_elem_of_lookup_2|]. intros He. apply Hne.
    by apply (tasks_distinct w m' n t (mkTask e p)). }
  split; [done|..]; rewrite ?Hs, ?Hack.
  - intros i Hi. destruct (Ha i Hi) as [?|(t & [m Hm]%list_elem_of_lookup & Hu & <-)]; [left; auto|].
    destruct (decide (m = n)) as [->|Hne].
    + left. rewrite Hn in Hm. injection Hm as <-. by apply Hp.
    + right. exists t. split; [|done]. rewrite Ht. apply list_elem_of_lookup.
      destruct (decide (m < n)%nat); [exists m; by rewrite list_lookup_delete_lt|].
      exists (Nat.pred m). rewrite list_lookup_delete_ge by lia. by replace (Datatypes.S (Nat.pred m)) with m by lia.
  - intros t [Hin _]%Hcases. by apply Hf.
  - intros t [Hin Hne]%Hcases. apply Hk; [done|by apply Hl].
Qed.

(** ** The steps *)

Lemma once_tick clock w : at_ w = Selecting -> once_inv w -> once_inv (tick c clock w).
Proof.
  intros Hp Hw. pose proof Hw as [Hc Ha Hf Hl].
  pose proof (tick_control c clock w Hp Hc) as Hc'. revert Hc'.
  unfold tick. destruct (idle_gate _ (vars w)) as [l [|]]; [|intros Hc'; by apply (once_same w)].
  pose proof (fetch_due_inv (inv := inv) (live := live) (delivered := delivered)
    (store w) (batch_size l) (now_millis clock) (ci_store _ _ Hc)) as Hinv.
  pose proof (fun i => fetch_due_final (inv := inv) (live := live) (delivered := delivered)
    (store w) (batch_size l) (now_millis clock) i (ci_store _ _ Hc)) as Hfin.
  pose proof (fun i => fetch_due_keeps (inv := inv) (live := live) (delivered := delivered)
    (store w) (batch_size l) (now_millis clock) i (ci_store _ _ Hc)) as Hkeep.
  pose proof (fun due e => fetch_due_live (inv := inv) (live := live) (delivered := delivered)
    (store w) (batch_size l) (now_millis clock) due e (ci_store _ _ Hc)) as Hdue.
  assert (tasks w = []) as Hnil by (apply (ci_idle _ _ Hc); congruence).
  destruct (fetch_due (batch_size l) (now_millis clock) (store w)) as [s [due|err]]; cbn in *; intros Hc'.
  - split; [done|..]; cbn; rewrite Hnil in *; cbn.
    + intros i Hi. destruct (Ha i Hi) as [?|(t & ?%not_elem_of_nil & _)]; [left; auto|done].
    + intros t (e & -> & He)%list_elem_of_fmap _ Hin; cbn in *.
      destruct (Ha _ Hin) as [Hd|(t & ?%not_elem_of_nil & _)]; [|done].
      eapply live_not_delivered; [apply (ci_store _ _ Hc)|by eapply Hdue|exact Hd].
    + intros t (e & -> & He)%list_elem_of_fmap; cbn. apply Hkeep. by eapply Hdue.
  - split; [done|..]; cbn; [|done|]; rewrite Hnil in *.
    + intros i Hi. destruct (Ha i Hi) as [?|(t & ?%not_elem_of_nil & _)]; [left; auto|done].
    + intros t ?%not_elem_of_nil. done.
Qed.

Lemma once_recorded n e r k w :
  tasks w !! n = Some (mkTask e (Recording r)) -> once_inv w -> once_inv (recorded c n e r k w).
Proof.
  intros Hn Hw. pose proof Hw as [Hc Ha Hf Hl].
  assert (mkTask e (Recording r) ∈ tasks w) as Hin by (by eapply list_elem_of_lookup_2).
  pose proof (run_step_control c w _ (step_record c n e r k w Hn) Hc) as Hc'.
  pose proof (ci_store _ _ Hc) as Hs.
  eapply (once_delete w _ n e (Recording r) (process c e r k (store w)).1); [done..| | | |].
  - by apply process_inv.
  - intros [= ->]. cbn. apply mark_dispatched_final; [done|by apply (Hl _ Hin)].
  - intros i Hi Hd. destruct r as [[]|[| |err|text]]; cbn; try done.
    + by apply mark_dispatched_stays.
    + apply mark_failed_final; [done| |done]. intros ->. by apply (Hf _ Hin).
    + apply mark_failed_final; [done| |done]. intros ->. by apply (Hf _ Hin).
  - intros i Hne Hlive. by apply process_live.
Qed.

Lemma once_run w w' : run_step c w w' -> once_inv w -> once_inv w'.
Proof.
  intros Hstep Hw. pose proof (run_step_control c w w' Hstep (oi_control _ Hw)) as Hc'.
  destruct Hstep as [clock w Hp|n e clock w Ht Hh|n e r clock w Ht|n e w Ht|n e r k w Ht|w Hp Ht|w Hp|w Hp Hsd|w Hp Ht].
  - by apply once_tick.
  - assert (ev_id e ∉ acked w) as Hfresh.
    { apply (oi_fresh _ Hw (mkTask e Waiting)); [by eapply list_elem_of_lookup_2|done]. }
    revert Hc'. unfold admitted. destruct (admission clock (breaker w)) as [b rej]. intros Hc'.
    eapply (once_insert w _ n e Waiting); [done..|by left|done|]. by destruct rej as [[]|]; split.
  - assert (ev_id e ∉ acked w) as Hfresh.
    { apply (oi_fresh _ Hw (mkTask e Sending)); [by eapply list_elem_of_lookup_2|done]. }
    eapply (once_insert w _ n e Sending); try done; destruct r; cbn; try (set_solver || by split).
  - assert (ev_id e ∉ acked w) as Hfresh.
    { apply (oi_fresh _ Hw (mkTask e Sending)); [by eapply list_elem_of_lookup_2|done]. }
    eapply (once_delete w _ n e Sending (store w)); try done. apply (ci_store _ _ (oi_control _ Hw)).
  - by apply once_recorded.
  - by apply (once_same w).
  - pose proof (ci_store _ _ (oi_control _ Hw)) as Hs.
    pose proof (once_store w (pending_count (store w)).1 Hw ltac:(by eapply pending_count_inv)) as Hw'.
    eapply once_same; [apply Hw'|done..].
    + intros i _. by apply pending_count_final.
    + intros i _. by eapply pending_count_keeps.
  - by apply (once_same w).
  - by apply (once_same w).
Qed.

Lemma calm_step_once w w' : calm_step w w' -> once_inv w -> once_inv w'.
Proof.
  intros Hstep Hw. pose proof (ci_store _ _ (oi_control _ Hw)) as Hs.
  destruct Hstep as [w w' H|e w|clock e reason w Hna Hnf|i m t w Hna|w|w Hrec].
  - by eapply once_run.
  - pose proof (once_store w (append e (store w)).1 Hw ltac:(by eapply append_inv)) as Hw'.
    eapply once_same; [apply Hw'|..]; try done.
    + intros i _. by apply append_final.
    + intros i _. by eapply append_keeps.
    + exact (env_step_control c w _ (step_append c e w) (oi_control _ Hw)).
  - pose proof (once_store w (dead_letter clock e reason (store w)).1 Hw ltac:(by eapply dead_letter_inv)) as Hw'.
    eapply once_same; [apply Hw'|..]; try done.
    + intros i Hi. apply dead_letter_final; [done|]. by intros ->.
    + intros i Hi. eapply dead_letter_keeps; [done|]. by intros ->.
    + exact (env_step_control c w _ (step_dead_letter c clock e reason w) (oi_control _ Hw)).
  - apply once_store; [done|by eapply mark_failed_inv|..].
    + intros j Hj. apply mark_failed_final; [done|]. by intros ->.
    + intros j _. by eapply mark_failed_keeps.
  - apply (once_same w); try done. exact (env_step_control c w _ (step_shutdown c w) (oi_control _ Hw)).
  - destruct Hw as [Hc Ha Hf Hl]. split; cbn; [by apply start_control| |by intros t ?%not_elem_of_nil..].
    intros i Hi. destruct (Ha i Hi) as [?|(t & Ht & Hu & _)]; [by left|].
    rewrite Forall_forall in Hrec. by destruct (Hrec t Ht).
Qed.

(** C13.  Exactly once, failing what no dispatcher can hide: over a store that
    does not lose a record, one dispatcher that is not killed between the
    sender's acceptance and its record never hands an accepted event to the
    sender again, whatever the producers append under its id, however often it
    is restarted, and whatever fails before the acceptance. *)
Theorem no_duplicate_delivery (s0 : S) (w : World S) (e : OutboxEvent) (p : phase)
    (Hs : inv s0) (Hw : rtc calm_step (start c s0 ∅ ∅ ∅) w)
    (Ht : mkTask e p ∈ tasks w) (Hp : p = Waiting \/ p = Sending) :
  ev_id e ∉ acked w.
Proof.
  assert (once_inv (start c s0 ∅ ∅ ∅)) as Hinv.
  { split; [by apply start_control|set_solver|by intros t ?%not_elem_of_nil..]. }
  assert (once_inv w) as Hw'.
  { clear Ht. revert Hinv. induction Hw as [|w1 w2 w3 Hstep _ IH]; [done|]. intros Hinv.
    apply IH. by eapply calm_step_once. }
  apply (oi_fresh _ Hw' (mkTask e p) Ht). unfold unrecorded. cbn. by destruct Hp as [-> | ->].
Qed.
End once.

(** ** An example

    On SQLite: one event is delivered and recorded, then appended again under
    the same id together with a second one.  Only the second is in flight. *)

Import Sqlite.

Definition fresh_db : Conn Sqlite.Tables := mkConn (Sqlite.mkTables ∅ ∅) [].

Lemma fresh_db_inv : SqliteProps.healthy_inv fresh_db.
Proof. split; [|done]. intros k r Hk. cbn in Hk. by apply lookup_empty_Some in Hk. Qed.

Definition polled : World (Conn Sqlite.Tables) :=
  tick config 2000000000 (produced ev1 (start config fresh_db ∅ ∅ ∅)).
Definition sending : World (Conn Sqlite.Tables) := admitted 0 ev1 0 polled.
Definition accepted1 : World (Conn Sqlite.Tables) := finished 0 ev1 SentOk 0 sending.
Definition recorded1 : World (Conn Sqlite.Tables) := recorded config 0 ev1 (Ok tt) k0 accepted1.
Definition restarted : World (Conn Sqlite.Tables) :=
  start config (store recorded1) (acked recorded1) (appended recorded1) (lettered recorded1).
Definition again : World (Conn Sqlite.Tables) := produced ev1 (produced ev2 restarted).
Definition repolled : World (Conn Sqlite.Tables) := tick config 2000000000 again.

Lemma repolled_calm : rtc (calm_step config) (start config fresh_db ∅ ∅ ∅) repolled.
Proof.
  eapply rtc_l; [apply (calm_append config ev1)|].
  apply (rtc_l _ _ polled); [apply calm_run, (step_tick config 2000000000); vm_eq|].
  apply (rtc_l _ _ sending); [apply calm_run, (step_admit config 0 ev1 0); [vm_eq|by vm_compute]|].
  apply (rtc_l _ _ accepted1); [apply calm_run, (step_sent config 0 ev1 SentOk 0); vm_eq|].
  apply (rtc_l _ _ recorded1); [apply calm_run, (step_record config 0 ev1 (Ok tt) k0); vm_eq|].
  apply (rtc_l _ _ restarted); [apply (calm_restart config recorded1)|].
  { assert (tasks recorded1 = []) as -> by vm_eq. constructor. }
  eapply rtc_l; [apply (calm_append config ev2)|].
  apply (rtc_l _ _ again); [apply (calm_append config ev1)|].
  apply rtc_once. apply calm_run, (step_tick config 2000000000). vm_eq.
Qed.

Lemma no_duplicate_delivery_witness :
  tasks repolled = [mkTask ev2 Waiting] /\ eid 1 ∈ acked repolled /\ ev_id ev2 ∉ acked repolled.
Proof.
  assert (tasks repolled = [mkTask ev2 Waiting]) as Ht by vm_eq.
  split; [exact Ht|]. split; [apply (bool_decide_eq_true_1 _); vm_eq|].
  apply (no_duplicate_delivery (inv := SqliteProps.healthy_inv) (live := Sqlite.sql_live)
    (delivered := Sqlite.sql_delivered) config fresh_db repolled ev2 Waiting fresh_db_inv repolled_calm).
  - rewrite Ht. left.
  - left. reflexivity.
Defined.
