(* ===== verification/DispatchBudget.v ===== *)
(** * The retry budget over whole runs

    [retry_budget] follows one event through its failures; here the whole
    dispatcher runs, on any store that counts failures ([OutboxFailures]), with
    producers, operators who close cases, other senders, crashes and restarts:
    nobody but the dispatcher reschedules, and no event is handed to the sender
    once its recorded failures have used the budget up.  A producer may append
    an event that comes with failures already counted (an import, a replay): the
    stores schedule it whatever the count. *)

From S2P Require Import Prelude BTree Event Float Backoff HexUuid Store Failures Memory Metrics Dispatch DispatchSafety Guided.
From S2P Require Import Sql SqlTable Samples Sqlite DispatchExamples.

Import Dispatch.

Section budget.
Context `{JO : JitterOps} `{BO : BreakerOps}.
Context {S : Type} `{OS : !OutboxStore S} {inv : S -> Prop} {live delivered : S -> EventId -> Prop}.
Context {failures : S -> EventId -> option (Z * bool)}.
Context `{OL : !OutboxLaws S inv live delivered} `{OF : !OutboxFailures S inv failures}.
Context (c : DispatcherConfig).

(** A bound on the failures the appends of an id come with; every run has one. *)
Context (imported : EventId -> Z).

(** No failure yet, or fewer than the policy allows; or an event that came with
    failures, and at most one more. *)
Definition within_budget (i : EventId) (attempts : Z) : Prop :=
  attempts = 0 \/ attempts < max_attempts (backoff c) \/ (0 < imported i /\ attempts <= imported i + 1).

(** Everything but a recorded failure. *)
Definition quiet_call (k : call) : Prop :=
  match k with
  | CAppend e => 0 <= ev_attempts e <= imported (ev_id e)
  | CMarkFailed _ _ _ => False
  | _ => True
  end.

(** Steps of the dispatcher, and of an environment that reschedules nothing. *)
Definition unattended_step : World S -> World S -> Prop := guided_step c quiet_call.

(** What is scheduled in the store is within the budget. *)
Definition slots_ok (s : S) : Prop := forall i a f,
  failures s i = Some (a, f) -> 0 <= a /\ (f = true -> within_budget i a).

(** A task's copy of its event counts all that the store counts, unless the
    event was buried and appended anew since. *)
Definition task_ok (s : S) (t : Task) : Prop :=
  within_budget (ev_id (t_event t)) (ev_attempts (t_event t)) /\
  0 <= ev_attempts (t_event t) /\
  forall a f, failures s (ev_id (t_event t)) = Some (a, f) ->
    a <= ev_attempts (t_event t) \/ a <= imported (ev_id (t_event t)).

Record budget_inv (w : World S) : Prop := {
  bi_control : control_inv (inv := inv) c w;
  bi_slots : slots_ok (store w);
  bi_tasks : Forall (task_ok (store w)) (tasks w)
}.

(** ** The store's calls *)

Lemma quiet_failures k s i a f :
  quiet_call k -> inv s -> failures (perform k s).1 i = Some (a, f) ->
  0 <= a <= imported i \/ exists f0, failures s i = Some (a, f0) /\ (f = true -> f0 = true).
Proof.
  intros Hk Hs H. destruct (perform_failures (failures := failures) k s i a f Hs H) as [?|Hc]; [by right|left].
  destruct k; try done. cbn in Hk. destruct Hc as [-> Hc]. lia.
Qed.

(** What an append comes with is within the budget. *)
Lemma imported_within i a : 0 <= a <= imported i -> within_budget i a.
Proof. unfold within_budget. lia. Qed.

Lemma quiet_slots k s : quiet_call k -> inv s -> slots_ok s -> slots_ok (perform k s).1.
Proof.
  intros Hk Hs Hok i a f H. destruct (quiet_failures k s i a f Hk Hs H) as [Ha|(f0 & E & Hf)].
  - split; [lia|]. intros _. by apply imported_within.
  - destruct (Hok i a f0 E). auto.
Qed.

Lemma quiet_task k s t : quiet_call k -> inv s -> task_ok s t -> task_ok (perform k s).1 t.
Proof.
  intros Hk Hs (Hb & Hn & Hc). split; [done|]. split; [done|]. intros a f H.
  destruct (quiet_failures k s _ a f Hk Hs H) as [[_ ?]|(f0 & E & _)]; [by right|by eapply Hc].
Qed.

Lemma retry_at_never e k :
  retry_at c e k = NEVER \/ u32_saturating_add (ev_attempts e) 1 < max_attempts (backoff c).
Proof.
  unfold retry_at. destruct (is_exhausted (backoff c) (u32_saturating_add (ev_attempts e) 1)) eqn:Ex; [by left|right].
  unfold is_exhausted in Ex. lia.
Qed.

Lemma saturating_add_mono a b : a <= b -> u32_saturating_add a 1 <= u32_saturating_add b 1.
Proof. unfold u32_saturating_add. int_lia. Qed.

(** One record of a failure, at the time [retry_at] computes. *)
Lemma mark_failed_slots e p k m s :
  inv s -> slots_ok s -> task_ok s (mkTask e p) ->
  slots_ok (mark_failed (ev_id e) m (retry_at c e k) s).1.
Proof.
  intros Hs Hok (Hb & Hpos & Hc) i a f H.
  destruct (perform_failures (failures := failures) (CMarkFailed (ev_id e) m (retry_at c e k)) s i a f Hs H)
    as [(f0 & E & Hf)|[-> (a0 & f0 & E & Ha & Hn)]]; [destruct (Hok i a f0 E); auto|].
  specialize (Hc a0 f0 E). destruct (Hok _ _ _ E) as [H0 _]. specialize (Ha H0). cbn in Hb, Hpos, Hc.
  split; [lia|]. intros ->. destruct (retry_at_never e k) as [Hr|Hr]; [by specialize (Hn Hr)|right].
  destruct (Z.le_gt_cases a0 (ev_attempts e)) as [Hle|Hgt].
  - left. pose proof (saturating_add_mono _ _ Hle). lia.
  - right. unfold u32_saturating_add in Ha. lia.
Qed.

Lemma mark_failed_task i m at_ s t :
  inv s -> ev_id (t_event t) <> i -> task_ok s t -> task_ok (mark_failed i m at_ s).1 t.
Proof.
  intros Hs Hne (Hb & Hn & Hc). split; [done|]. split; [done|]. intros a f H.
  by destruct (perform_failures (failures := failures) (CMarkFailed i m at_) s _ a f Hs H)
    as [(f0 & E & _)|[? _]]; [eapply Hc|].
Qed.

(** ** The steps *)

Lemma budget_same w w' :
  budget_inv w -> control_inv (inv := inv) c w' -> store w' = store w -> tasks w' = tasks w -> budget_inv w'.
Proof. intros [_ Hs Ht] Hc E1 E2. split; [done|by rewrite E1|by rewrite E1, E2]. Qed.

(** Any call but a recorded failure, by anyone. *)
Lemma budget_call k w w' :
  quiet_call k -> budget_inv w -> control_inv (inv := inv) c w' -> store w' = (perform k (store w)).1 ->
  tasks w' = tasks w -> budget_inv w'.
Proof.
  intros Hk [Hc Hs Ht] Hc' E1 E2. pose proof (ci_store _ _ Hc) as Hi.
  split; [done|rewrite E1; by apply quiet_slots|]. rewrite E1, E2.
  eapply Forall_impl; [exact Ht|]. intros t. by apply quiet_task.
Qed.

Lemma budget_tick clock w : at_ w = Selecting -> budget_inv w -> budget_inv (tick c clock w).
Proof.
  intros Hp Hw. pose proof Hw as [Hc Hs Ht]. pose proof (ci_store _ _ Hc) as Hi.
  pose proof (tick_control c clock w Hp Hc) as Hc'. revert Hc'.
  unfold tick. destruct (idle_gate _ (vars w)) as [l [|]]; [|intros Hc'; by apply (budget_same w)].
  set (k := CFetchDue (batch_size l) (now_millis clock)).
  pose proof (quiet_slots k _ I Hi Hs) as Hs'. pose proof (fun t => quiet_task k _ t I Hi) as Ht'. cbn in Hs', Ht'.
  pose proof (fetch_due_failures (store w) (batch_size l) (now_millis clock)) as Hdue.
  destruct (fetch_due (batch_size l) (now_millis clock) (store w)) as [s [due|err]] eqn:E; intros Hc'; cbn in *;
    (split; [done..|]); cbn; [|by eapply Forall_impl].
  apply Forall_app. split; [by eapply Forall_impl|].
  apply Forall_fmap, Forall_forall. intros e He. specialize (Hdue due e Hi eq_refl He).
  destruct (Hs _ _ _ Hdue) as [H0 Hb]. split; [by apply Hb|]. split; [done|]. cbn. intros a f H.
  destruct (quiet_failures k (store w) (ev_id e) a f I Hi) as [[_ ?]|(f0 & E0 & _)]; [by cbn; rewrite E|by right|].
  rewrite Hdue in E0. injection E0 as ->. by left.
Qed.

(** Tasks other than the [n]-th have other events. *)
Lemma others_differ n e p w t :
  control_inv (inv := inv) c w -> tasks w !! n = Some (mkTask e p) -> t ∈ delete n (tasks w) ->
  t ∈ tasks w /\ ev_id (t_event t) <> ev_id e.
Proof.
  intros Hc Hn [m Hm]%list_elem_of_lookup. rewrite list_lookup_delete in Hm.
  assert (exists m', m' <> n /\ tasks w !! m' = Some t) as (m' & Hne & Hm')
    by (case_decide; eexists; (split; [|exact Hm]); lia).
  split; [by eapply list_elem_of_lookup_2|]. intros He. apply Hne.
  apply (proj1 (NoDup_alt _) (ci_distinct _ _ Hc) m' n (ev_id e)); unfold task_ids;
    rewrite list_lookup_fmap, ?Hm', ?Hn; cbn; congruence.
Qed.

Lemma budget_recorded n e r k w :
  tasks w !! n = Some (mkTask e (Recording r)) -> budget_inv w -> budget_inv (recorded c n e r k w).
Proof.
  intros Hn [Hc Hs Ht]. pose proof (ci_store _ _ Hc) as Hi.
  pose proof (Forall_lookup_1 _ _ _ _ Ht Hn) as Hok. rewrite Forall_forall in Ht.
  split; [exact (run_step_control c w _ (step_record c n e r k w Hn) Hc)|..]; cbn -[process].
  - destruct r as [[]|[| |err|text]]; cbn; try done.
    + by apply (quiet_slots (CMarkDispatched (k_mark k) (ev_id e))).
    + by eapply mark_failed_slots.
    + by eapply mark_failed_slots.
  - apply Forall_forall. intros t [Hin Hne]%(others_differ n e (Recording r) w t Hc Hn). specialize (Ht t Hin).
    destruct r as [[]|[| |err|text]]; cbn; try done.
    + by apply (quiet_task (CMarkDispatched (k_mark k) (ev_id e))).
    + by apply mark_failed_task.
    + by apply mark_failed_task.
Qed.

Lemma budget_run w w' : run_step c w w' -> budget_inv w -> budget_inv w'.
Proof.
  intros Hstep Hw. pose proof (run_step_control c w w' Hstep (bi_control _ Hw)) as Hc'.
  pose proof Hw as [_ Hs Hts].
  destruct Hstep as [clock w Hp|n e clock w Ht Hh|n e r clock w Ht|n e w Ht|n e r k w Ht|w Hp Ht|w Hp|w Hp Hsd|w Hp Ht];
    try (by apply (budget_same w)).
  - by apply budget_tick.
  - revert Hc'. unfold admitted. destruct (admission clock (breaker w)) as [b rej]. intros Hc'.
    split; [done..|]. cbn. apply Forall_insert; [done|]. apply (Forall_lookup_1 _ _ _ _ Hts Ht).
  - split; [done..|]. cbn. apply Forall_insert; [done|]. apply (Forall_lookup_1 _ _ _ _ Hts Ht).
  - split; [done..|]. by apply Forall_delete.
  - by apply budget_recorded.
  - by apply (budget_call CPendingCount w).
Qed.

Lemma unattended_budget w w' : unattended_step w w' -> budget_inv w -> budget_inv w'.
Proof.
  intros Hstep Hw.
  assert (control_inv (inv := inv) c w') as Hc'.
  { destruct (guided_world_step _ _ _ _ Hstep) as [Hs|Hs].
    - by eapply run_step_control, bi_control.
    - by eapply env_step_control, bi_control. }
  destruct (guided_effect _ _ _ _ Hstep) as [H|[(k & Hk & E1 & E2)|[E1 [E2|E2]]]].
  - by eapply budget_run.
  - by apply (budget_call k w).
  - by apply (budget_same w).
  - destruct Hw as [_ Hs _]. split; [done|by rewrite E1|by rewrite E2].
Qed.

(** C15.  Unless an operator reschedules, no event is dispatched beyond its
    budget: on any store that counts failures, failing as it may, in every
    state a dispatcher can reach through crashes, restarts, panics, appends,
    dead letters and deliveries elsewhere, an event in flight has never failed
    or failed fewer than [max_attempts] times, and one that has used the budget
    up is not scheduled.  An append may bring an event with failures already
    counted ([imported] bounds them, per id): such an event is scheduled and
    sent whatever its count, and counts at most one failure more while it is. *)
Theorem budget_respected (s0 : S) (w : World S) (Hs : inv s0) (H0 : slots_ok s0)
    (Hw : rtc unattended_step (start c s0 ∅ ∅ ∅) w) :
  (forall e p, mkTask e p ∈ tasks w ->
     ev_attempts e = 0 \/ ev_attempts e < max_attempts (backoff c) \/
     (0 < imported (ev_id e) /\ ev_attempts e <= imported (ev_id e) + 1)) /\
  (forall i a f, failures (store w) i = Some (a, f) -> 0 < a -> max_attempts (backoff c) <= a ->
     imported i <= 0 \/ imported i + 1 < a -> f = false).
Proof.
  assert (budget_inv (start c s0 ∅ ∅ ∅)) as Hinv by (split; [by apply start_control|done|constructor]).
  assert (budget_inv w) as [_ Hok Ht].
  { revert Hinv. induction Hw as [|w1 w2 w3 Hstep _ IH]; [done|]. intros Hinv.
    apply IH. by eapply unattended_budget. }
  split.
  - intros e p Hin. rewrite Forall_forall in Ht. by destruct (Ht _ Hin).
  - intros i a [|] He Hpos Hmax Himp; [|done]. destruct (Hok i a true He) as [_ Hb].
    destruct (Hb eq_refl) as [?|[?|[? ?]]]; lia.
Qed.
End budget.

(** ** An example

    On SQLite, with a budget of two: the first failure reschedules, the second
    parks. *)

Import Sqlite.

Definition empty_db : Conn Sqlite.Tables := mkConn (Sqlite.mkTables ∅ ∅) [].

Definition two_tries : DispatcherConfig :=
  mkConfig DEFAULT_POLL_INTERVAL default_fetch_batch 4
    {| base := from_secs 1; factor := f64_two; cap := from_secs 600; max_attempts := 2 |} tt.

Definition refusal : sent := SentErr (Delivery (lit "refused")).

(** Events come without failures. *)
Definition fresh : EventId -> Z := fun _ => 0.

(** One event, polled, sent, refused and recorded. *)
Definition refused (clock : Z) (e : OutboxEvent) (w : World (Conn Sqlite.Tables)) : World (Conn Sqlite.Tables) :=
  recorded two_tries 0 e (call_result refusal) k0
    (finished 0 e refusal 0 (admitted 0 e 0 (tick two_tries clock w))).

Definition settled (w : World (Conn Sqlite.Tables)) : World (Conn Sqlite.Tables) :=
  let w' := set_place Gauging w in set_place Selecting (set_store (Store.pending_count (store w')).1 w').

Definition far : Z := 2000000000000000000.
Definition produced1 : World (Conn Sqlite.Tables) := produced ev1 (start two_tries empty_db ∅ ∅ ∅).
Definition refused1 : World (Conn Sqlite.Tables) := refused far ev1 produced1.
Definition retried : World (Conn Sqlite.Tables) := tick two_tries far (settled refused1).
Definition ev1_once : OutboxEvent := record_failure (dispatch_error_to_string (Delivery (lit "refused"))) ev1.
Definition refused2 : World (Conn Sqlite.Tables) := refused far ev1_once (settled refused1).

Lemma refused_run e w :
  at_ w = Selecting -> tasks (tick two_tries far w) = [mkTask e Waiting] ->
  (breaker (tick two_tries far w) <? 3) = true ->
  rtc (unattended_step two_tries fresh) w (refused far e w).
Proof.
  intros Hat Ht Hb. unfold refused.
  eapply rtc_l; [apply guided_run, step_tick; exact Hat|].
  assert (tasks (admitted 0 e 0 (tick two_tries far w)) = [mkTask e Sending]) as Ht2.
  { unfold admitted. cbn. rewrite Hb. cbn. by rewrite Ht. }
  eapply rtc_l; [apply guided_run, (step_admit two_tries 0 e 0); [by rewrite Ht|by rewrite Ht]|].
  eapply rtc_l; [apply guided_run, (step_sent two_tries 0 e refusal 0); by rewrite Ht2|].
  apply rtc_once, guided_run, (step_record two_tries 0 e _ k0).
  unfold finished at 1. unfold tasks at 1. by rewrite Ht2.
Qed.

Lemma settled_run w : tasks w = [] -> at_ w = Draining -> rtc (unattended_step two_tries fresh) w (settled w).
Proof.
  intros Ht Hp. unfold settled. eapply rtc_l; [by apply guided_run, step_drained|].
  apply rtc_once, guided_run, step_gauge. done.
Qed.

Lemma refused1_run : rtc (unattended_step two_tries fresh) (start two_tries empty_db ∅ ∅ ∅) (settled refused1).
Proof.
  eapply rtc_l; [by apply (guided_append two_tries (quiet_call fresh) ev1)|].
  etrans; [apply (refused_run ev1); vm_eq|]. apply settled_run; vm_eq.
Qed.

Lemma retried_run : rtc (unattended_step two_tries fresh) (start two_tries empty_db ∅ ∅ ∅) retried.
Proof.
  etrans; [exact refused1_run|]. apply rtc_once, guided_run, step_tick. vm_eq.
Qed.

Lemma refused2_run : rtc (unattended_step two_tries fresh) (start two_tries empty_db ∅ ∅ ∅) refused2.
Proof.
  etrans; [exact refused1_run|]. apply (refused_run ev1_once); vm_eq.
Qed.

(** An import with seven failures, sent although the budget is two. *)
Definition ev1_import : OutboxEvent :=
  mkEvent (ev_id ev1) (ev_topic ev1) (ev_payload ev1) (ev_headers ev1) (ev_created_at ev1) 7 None.
Definition imports : EventId -> Z := fun i => if decide (i = eid 1) then 7 else 0.
Definition polled : World (Conn Sqlite.Tables) :=
  tick two_tries far (produced ev1_import (start two_tries empty_db ∅ ∅ ∅)).

Lemma polled_run : rtc (unattended_step two_tries imports) (start two_tries empty_db ∅ ∅ ∅) polled.
Proof.
  eapply rtc_l; [apply (guided_append two_tries (quiet_call imports) ev1_import); by vm_compute|].
  apply rtc_once, guided_run, step_tick. vm_eq.
Qed.

Lemma empty_slots im : slots_ok (failures := sqlite_failures) two_tries im empty_db.
Proof.
  intros i a f Hf. unfold sqlite_failures, failures_in, row_at in Hf. cbn in Hf.
  rewrite lookup_empty in Hf. discriminate Hf.
Qed.

Lemma empty_inv : Sqlite.sql_inv empty_db.
Proof. intros k r Hk. cbn in Hk. by apply lookup_empty_Some in Hk. Qed.

Lemma budget_respected_witness :
  (mkTask ev1_once Waiting ∈ tasks retried /\
    (ev_attempts ev1_once = 0 \/ ev_attempts ev1_once < 2 \/ (0 < 0 /\ ev_attempts ev1_once <= 1))) /\
  (exists f, sqlite_failures (store refused2) (eid 1) = Some (2, f) /\ f = false) /\
  (mkTask ev1_import Waiting ∈ tasks polled /\ (7 = 0 \/ 7 < 2 \/ (0 < imports (eid 1) /\ 7 <= imports (eid 1) + 1))).
Proof.
  assert (mkTask ev1_once Waiting ∈ tasks retried) as Hin.
  { assert (tasks retried = [mkTask ev1_once Waiting]) as -> by vm_eq. left. }
  assert (mkTask ev1_import Waiting ∈ tasks polled) as Himp.
  { assert (tasks polled = [mkTask ev1_import Waiting]) as -> by vm_eq. left. }
  split_and!.
  - exact Hin.
  - exact (proj1 (budget_respected (inv := Sqlite.sql_inv) (live := Sqlite.sql_live)
      (delivered := Sqlite.sql_delivered) (failures := sqlite_failures)
      two_tries fresh empty_db retried empty_inv (empty_slots _) retried_run) ev1_once Waiting Hin).
  - assert (fst <$> sqlite_failures (store refused2) (eid 1) = Some 2) as Ha by vm_eq.
    destruct (sqlite_failures (store refused2) (eid 1)) as [[a f]|] eqn:E; [|discriminate Ha].
    injection Ha as ->. exists f. split; [reflexivity|].
    apply (proj2 (budget_respected (inv := Sqlite.sql_inv) (live := Sqlite.sql_live)
      (delivered := Sqlite.sql_delivered) (failures := sqlite_failures)
      two_tries fresh empty_db refused2 empty_inv (empty_slots _) refused2_run) (eid 1) 2 f E);
      [by vm_compute|by vm_compute|by left].
  - exact Himp.
  - exact (proj1 (budget_respected (inv := Sqlite.sql_inv) (live := Sqlite.sql_live)
      (delivered := Sqlite.sql_delivered) (failures := sqlite_failures)
      two_tries imports empty_db polled empty_inv (empty_slots _) polled_run) ev1_import Waiting Himp).
Defined.
