(* ===== verification/DispatchIntegrity.v ===== *)
(** * The sender is handed what was appended

    Over a whole run, with crashes, retries and failing engines: the codec, the
    tables and the dispatcher together change nothing of an event but its
    failure count and its last error. *)

From S2P Require Import Prelude BTree Event Codec Backoff HexUuid Store Envelopes Metrics Dispatch DispatchSafety Guided.
From S2P Require Import Sql SqlTable Samples Sqlite DispatchExamples.

Import Dispatch.

Section integrity.
Context `{JO : JitterOps} `{BO : BreakerOps}.
Context {S : Type} `{OS : !OutboxStore S} {genuine : (OutboxEvent -> Prop) -> S -> Prop}.
Context `{OE : !OutboxEnvelopes S genuine} (c : DispatcherConfig).
Context (A : OutboxEvent -> Prop) (HA : forall e, A e -> wf_event e).

Record genuine_world (w : World S) : Prop := {
  gw_store : genuine A (store w);
  gw_tasks : forall t, t ∈ tasks w -> comes_from A (t_event t)
}.

Lemma run_genuine w w' : run_step c w w' -> genuine_world w -> genuine_world w'.
Proof using All.
  intros Hstep [Hs Ht]. destruct (run_effect _ _ _ Hstep) as [Hst Hts]. split.
  - destruct Hst as [->|(k & -> & Hk)]; [done|]. apply perform_genuine; [|done].
    destruct k; try done. by destruct (Hk event).
  - intros t [(t0 & H0 & <-)|(n & now & l & Hl & He)]%Hts; [by apply Ht|]. by eapply fetch_due_genuine.
Qed.

Lemma guided_genuine w w' : guided_step c (supplies A) w w' -> genuine_world w -> genuine_world w'.
Proof using All.
  intros Hstep Hw. destruct (guided_effect _ _ _ _ Hstep) as [H|[(k & Hk & E1 & E2)|[E1 E2]]].
  - by eapply run_genuine.
  - destruct Hw as [Hs Ht]. split; [rewrite E1; by apply perform_genuine|by rewrite E2].
  - destruct Hw as [Hs Ht]. split; [by rewrite E1|]. destruct E2 as [->| ->]; [done|].
    intros t ?%not_elem_of_nil. done.
Qed.

(** C10.  What the sender is handed is what a producer appended: in every run
    in which producers append only events of [A], through crashes, restarts,
    retries, other dispatchers and failing engines, each event in flight has
    the id, topic, payload, headers and creation time of a member of [A] whose
    topic is valid (a creation time past [i64::MAX] clamped by a SQL store). *)
Theorem delivered_as_appended (s0 : S) (w : World S) (e : OutboxEvent) (p : phase)
    (H0 : genuine A s0) (Hw : rtc (guided_step c (supplies A)) (start c s0 ∅ ∅ ∅) w)
    (Ht : mkTask e p ∈ tasks w) :
  exists e0, A e0 /\ validate e0 = Ok tt /\ same_envelope e0 e.
Proof using All.
  assert (genuine_world (start c s0 ∅ ∅ ∅)) as Hinv by (split; [done|by intros t ?%not_elem_of_nil]).
  assert (genuine_world w) as [_ Hts].
  { clear Ht. revert Hinv. induction Hw as [|w1 w2 w3 Hstep _ IH]; [done|]. intros Hinv.
    apply IH. by eapply guided_genuine. }
  exact (Hts _ Ht).
Qed.
End integrity.

(** ** An example

    On SQLite, with headers: a first failure is recorded, then the event is
    fetched again.  Only its count and its last error differ. *)

Import Sqlite.

Definition blank : Conn Sqlite.Tables := mkConn (Sqlite.mkTables ∅ ∅) [].

Definition failed_once (w : World (Conn Sqlite.Tables)) : World (Conn Sqlite.Tables) :=
  set_store (mark_failed (eid 1) (lit "down") 1000 (store w)).1 w.
Definition refetched : World (Conn Sqlite.Tables) :=
  tick config 2000000000 (failed_once (produced ev1 (start config blank ∅ ∅ ∅))).

Lemma refetched_run : rtc (guided_step config (supplies (eq ev1))) (start config blank ∅ ∅ ∅) refetched.
Proof.
  eapply rtc_l; [by apply (guided_append config (supplies (eq ev1)) ev1)|].
  eapply rtc_l; [by apply (guided_reschedule config (supplies (eq ev1)) (eid 1) (lit "down") 1000)|].
  apply rtc_once, guided_run, step_tick. vm_eq.
Qed.

Lemma delivered_as_appended_witness :
  tasks refetched = [mkTask (record_failure (lit "down") ev1) Waiting] /\
  exists e0, ev1 = e0 /\ validate e0 = Ok tt /\ same_envelope e0 (record_failure (lit "down") ev1).
Proof.
  assert (tasks refetched = [mkTask (record_failure (lit "down") ev1) Waiting]) as Ht by vm_eq.
  split; [exact Ht|].
  assert (forall e, ev1 = e -> wf_event e) as HA by (intros e <-; apply ev1_wf).
  assert (sqlite_genuine (eq ev1) blank) as H0.
  { intros k r Hk. exfalso. exact (lookup_empty_Some _ _ Hk). }
  apply (delivered_as_appended (genuine := sqlite_genuine) config (eq ev1) HA blank refetched
    (record_failure (lit "down") ev1) Waiting H0 refetched_run).
  rewrite Ht. left.
Defined.
