(* ===== verification/Observe.v ===== *)
(** * The exported metrics as an account of the run

    [dispatch.rs] with [metrics.rs]: the dispatcher of [Dispatch.v] with its
    steps labelled by what they do and emit, and the registry those emissions
    reach.  The labels change nothing ([acts_sound], [acts_complete]); the
    counters are exactly the outcomes of the sends. *)

From S2P Require Import Prelude BTree Event Backoff HexUuid Store Metrics Dispatch DispatchSafety.
From S2P Require Import Memory Samples DispatchExamples.

Import Dispatch.

(** ** The registry as a reader sees it *)

(** Counters count their increments, a histogram its observations, and no
    series disturbs another. *)
Class MetricsLaws (MK : MetricsKit) (reads : Counter -> Registry -> Z) (samples : Histogram -> Registry -> Z) : Prop := {
  reads_inc : forall c r, reads c (inc c r) = reads c r + 1;
  reads_inc_other : forall c c' r, c <> c' -> reads c (inc c' r) = reads c r;
  reads_gauge : forall c g v r, reads c (gauge_set g v r) = reads c r;
  reads_observe : forall c h d r, reads c (observe h d r) = reads c r;
  samples_observe : forall h d r, samples h (observe h d r) = samples h r + 1;
  samples_inc : forall h c r, samples h (inc c r) = samples h r;
  samples_gauge : forall h g v r, samples h (gauge_set g v r) = samples h r
}.

(** The three results are three series. *)
Definition distinct_series `{MetricsKit} (m : DispatchMetrics) : Prop :=
  m_success m <> m_failure m /\ m_success m <> m_breaker_paused m /\ m_failure m <> m_breaker_paused m.

(** ** Sums over lists *)

Definition total {A} (f : A -> Z) (l : list A) : Z := foldr (fun a z => f a + z) 0 l.

Lemma total_cons {A} (f : A -> Z) a l : total f (a :: l) = f a + total f l.
Proof. reflexivity. Qed.

Lemma total_app {A} (f : A -> Z) l l' : total f (l ++ l') = total f l + total f l'.
Proof. induction l as [|a l IH]; [done|]. cbn [app]. rewrite !total_cons. lia. Qed.

Lemma total_insert {A} (f : A -> Z) l n a a' :
  l !! n = Some a -> total f (<[n := a']> l) = total f l - f a + f a'.
Proof.
  intros Hn. rewrite <- (take_drop_middle l n a Hn) at 2. apply lookup_lt_Some in Hn as Hlt.
  rewrite insert_take_drop by done. rewrite !total_app, !total_cons. lia.
Qed.

Lemma total_delete {A} (f : A -> Z) l n a : l !! n = Some a -> total f (delete n l) = total f l - f a.
Proof.
  intros Hn. rewrite <- (take_drop_middle l n a Hn) at 2. rewrite delete_take_drop.
  rewrite !total_app, total_cons. lia.
Qed.

Lemma total_fmap_zero {A B} (f : B -> Z) (g : A -> B) l : (forall a, f (g a) = 0) -> total f (g <$> l) = 0.
Proof. intros Hf. induction l as [|a l IH]; [done|]. rewrite fmap_cons, total_cons, Hf. lia. Qed.

Lemma len_total {A} (l : list A) : len l = total (fun _ => 1) l.
Proof. induction l as [|a l IH]; [done|]. rewrite len_cons, total_cons. lia. Qed.

Section observe.
Context `{JO : JitterOps} `{BO : BreakerOps}.
Context {S : Type} `{OS : !OutboxStore S} (c : DispatcherConfig).

(** ** Labelled steps *)

Inductive action :=
| ASpawn (n : Z)                            (** a tick, and the tasks it spawned *)
| AAdmit (clock : Z) (rejection : option bool)
| ASent (clock : Z) (r : sent)
| APanic
| AEmit (es : list emission)                (** an outcome, or the backlog gauge *)
| ASilent.

Definition gauge_emission (r : result Z StoreError) : list emission :=
  match r with Ok pending => [EPending pending] | Err _ => [] end.

(** The environment acts on the store and the history, or signals: the process
    goes on. *)
Definition goes_on (w w' : World S) : Prop :=
  breaker w' = breaker w /\ tasks w' = tasks w /\ at_ w' = at_ w /\ vars w' = vars w.

Inductive acts : World S -> action -> World S -> Prop :=
| acts_tick clock w :
    at_ w = Selecting -> acts w (ASpawn (len (tasks (tick c clock w)) - len (tasks w))) (tick c clock w)
| acts_admit n e clock w :
    tasks w !! n = Some (mkTask e Waiting) -> permits_held (tasks w) < permits c ->
    acts w (AAdmit clock (admission clock (breaker w)).2) (admitted n e clock w)
| acts_sent n e r clock w :
    tasks w !! n = Some (mkTask e Sending) -> acts w (ASent clock r) (finished n e r clock w)
| acts_panic n e w :
    tasks w !! n = Some (mkTask e Sending) -> acts w APanic (set_tasks (delete n (tasks w)) w)
| acts_record n e r k w :
    tasks w !! n = Some (mkTask e (Recording r)) ->
    acts w (AEmit (process c e r k (store w)).2) (recorded c n e r k w)
| acts_drained w :
    at_ w = Draining -> tasks w = [] -> acts w ASilent (set_place Gauging w)
| acts_gauge w :
    at_ w = Gauging ->
    acts w (AEmit (gauge_emission (pending_count (store w)).2))
      (set_place Selecting (set_store (pending_count (store w)).1 w))
| acts_break w :
    at_ w = Selecting -> shutting_down w = true -> acts w ASilent (set_place Finishing w)
| acts_return w :
    at_ w = Finishing -> tasks w = [] -> acts w ASilent (set_place Returned w)
| acts_env w w' :
    env_step c w w' -> goes_on w w' -> acts w ASilent w'.

Lemma acts_sound w a w' : acts w a w' -> world_step c w w'.
Proof. intros Ha. destruct Ha; try (left; by econstructor). by right. Qed.

(** Every step is labelled, but for the crash that ends the process. *)
Lemma acts_complete w w' : world_step c w w' ->
  (exists a, acts w a w') \/ w' = start c (store w) (acked w) (appended w) (lettered w).
Proof.
  intros [H|H].
  - left. destruct H; eexists; [by eapply acts_tick|by eapply acts_admit|by eapply acts_sent|by eapply acts_panic
      |by eapply acts_record|by eapply acts_drained|by eapply acts_gauge|by eapply acts_break|by eapply acts_return].
  - destruct H; [left; exists ASilent; apply acts_env; [by constructor|done]..|by right].
Qed.

(** A run of one process life, and what it did, in order. *)
Inductive observes (w0 : World S) : list action -> World S -> Prop :=
| observes_nil : observes w0 [] w0
| observes_snoc tr w a w' : observes w0 tr w -> acts w a w' -> observes w0 (tr ++ [a]) w'.

Lemma acts_as w a a' w' : acts w a w' -> a = a' -> acts w a' w'.
Proof. by intros H <-. Qed.

Lemma acts_append e w : acts w ASilent (produced e w).
Proof. apply acts_env; [constructor|done]. Qed.

Lemma observes_world w0 tr w : observes w0 tr w -> rtc (world_step c) w0 w.
Proof. induction 1; [done|]. eapply rtc_r; [done|by eapply acts_sound]. Qed.

(** ** What is counted *)

Definition emissions (a : action) : list emission := match a with AEmit es => es | _ => [] end.
Definition emitted (tr : list action) : list emission := tr ≫= emissions.

Definition is_result (r r' : DispatchResult) : Z :=
  match r, r' with Success, Success | Failed, Failed | BreakerPaused, BreakerPaused => 1 | _, _ => 0 end.
Definition counts_result (r : DispatchResult) (e : emission) : Z :=
  match e with EResult r' => is_result r r' | _ => 0 end.
Definition counts_duration (e : emission) : Z := match e with EDuration _ => 1 | _ => 0 end.

Definition spawned (tr : list action) : Z := total (fun a => match a with ASpawn n => n | _ => 0 end) tr.
Definition panicked (tr : list action) : Z := total (fun a => match a with APanic => 1 | _ => 0 end) tr.
Definition accepted (tr : list action) : Z := total (fun a => match a with ASent _ SentOk => 1 | _ => 0 end) tr.
Definition refused (tr : list action) : Z :=
  total (fun a => match a with ASent _ (SentErr _ | SentOther _) => 1 | _ => 0 end) tr.
Definition rejected (tr : list action) : Z :=
  total (fun a => match a with AAdmit _ (Some _) => 1 | _ => 0 end) tr.

(** The calls of the sender. *)
Definition sends (tr : list action) : Z :=
  total (fun a => match a with AAdmit _ None => 1 | _ => 0 end) tr.

(** The result a task is about to record. *)
Definition result_of (r : result unit CircuitBreakerError) : DispatchResult :=
  match r with
  | Ok _ => Success
  | Err (CircuitOpen | Rejected) => BreakerPaused
  | Err _ => Failed
  end.
Definition unrecorded_as (r : DispatchResult) (t : Task) : Z :=
  match t_phase t with Recording r' => is_result r (result_of r') | _ => 0 end.
Definition outstanding (r : DispatchResult) (w : World S) : Z := total (unrecorded_as r) (tasks w).

Definition results (r : DispatchResult) (tr : list action) : Z := total (counts_result r) (emitted tr).

Record account (tr : list action) (w : World S) : Prop := {
  ac_success : results Success tr + outstanding Success w = accepted tr;
  ac_failure : results Failed tr + outstanding Failed w = refused tr;
  ac_paused : results BreakerPaused tr + outstanding BreakerPaused w = rejected tr;
  ac_duration : total counts_duration (emitted tr) = results Success tr + results Failed tr;
  ac_spawned : results Success tr + results Failed tr + results BreakerPaused tr + panicked tr + len (tasks w)
                 = spawned tr
}.

Lemma account_start s a1 a2 a3 : account [] (start c s a1 a2 a3).
Proof. by split. Qed.

Lemma emitted_snoc tr a : emitted (tr ++ [a]) = emitted tr ++ emissions a.
Proof. unfold emitted. rewrite bind_app. cbn. by rewrite app_nil_r. Qed.

(** One more action: what each side of the account gains. *)
Lemma account_snoc tr w a w' :
  account tr w ->
  (forall r, total (counts_result r) (emissions a) + outstanding r w' - outstanding r w =
     match r, a with
     | Success, ASent _ SentOk => 1
     | Failed, ASent _ (SentErr _ | SentOther _) => 1
     | BreakerPaused, AAdmit _ (Some _) => 1
     | _, _ => 0
     end) ->
  total counts_duration (emissions a) = total (counts_result Success) (emissions a) + total (counts_result Failed) (emissions a) ->
  total (counts_result Success) (emissions a) + total (counts_result Failed) (emissions a)
    + total (counts_result BreakerPaused) (emissions a) + len (tasks w') - len (tasks w) =
    match a with ASpawn n => n | APanic => -1 | _ => 0 end ->
  account (tr ++ [a]) w'.
Proof.
  intros [H1 H2 H3 H4 H5] Hr Hd Hs.
  pose proof (Hr Success) as Hr1. pose proof (Hr Failed) as Hr2. pose proof (Hr BreakerPaused) as Hr3.
  unfold results, accepted, refused, rejected, spawned, panicked in *.
  split; unfold results, accepted, refused, rejected, spawned, panicked;
    rewrite ?emitted_snoc, ?total_app, ?total_cons.
  all: destruct a as [n|t [[|]|]|t [|err|text]| |es|]; cbn [emissions total foldr] in *; lia.
Qed.

Lemma tick_tasks clock w : exists due : list OutboxEvent,
  tasks (tick c clock w) = tasks w ++ ((fun e => mkTask e Waiting) <$> due).
Proof.
  unfold tick. destruct (idle_gate _ (vars w)) as [l [|]]; [|exists []; cbn; by rewrite app_nil_r].
  destruct (fetch_due _ _ _) as [s [due|err]]; [by exists due|]. exists []. cbn. by rewrite app_nil_r.
Qed.

(** Steps that leave the tasks alone and emit no result. *)
Lemma account_quiet tr w a w' :
  tasks w' = tasks w -> a = ASilent \/ a = AEmit [] \/ (exists n, a = AEmit [EPending n]) ->
  account tr w -> account (tr ++ [a]) w'.
Proof.
  intros Ht Ha Hac. apply (account_snoc tr w); [done|..]; unfold outstanding; rewrite ?Ht;
    destruct Ha as [->|[->|[n ->]]]; try done; try (intros []; cbn; lia); cbn; lia.
Qed.

(** What [process] emits for an outcome. *)
Lemma process_counts e r k s d :
  total (counts_result d) (process c e r k s).2 = is_result d (result_of r) /\
  total counts_duration (process c e r k s).2 =
    total (counts_result Success) (process c e r k s).2 + total (counts_result Failed) (process c e r k s).2 /\
  total (counts_result Success) (process c e r k s).2 + total (counts_result Failed) (process c e r k s).2
    + total (counts_result BreakerPaused) (process c e r k s).2 = 1.
Proof. destruct r as [[]|[| |err|text]]; cbn; by destruct d. Qed.

Lemma account_acts tr w a w' : acts w a w' -> account tr w -> account (tr ++ [a]) w'.
Proof.
  intros Ha Hac. destruct Ha as [clock w Hp|n e clock w Ht Hh|n e r clock w Ht|n e w Ht|
    n e r k w Ht|w Hp Ht|w Hp|w Hp Hsd|w Hp Ht|w w' He (_ & Ht & _)]; try by (apply (account_quiet tr w); auto).
  - destruct (tick_tasks clock w) as [due Ht]. apply (account_snoc tr w); [done|..]; cbn; [|done|lia].
    intros r. unfold outstanding. rewrite Ht, total_app, total_fmap_zero by done. destruct r; lia.
  - unfold admitted. destruct (admission clock (breaker w)) as [b rej]. apply (account_snoc tr w); [done|..]; cbn [tasks snd emissions total foldr]; [|done|].
    + intros d. unfold outstanding. cbn [tasks]. rewrite (total_insert _ _ _ _ _ Ht). destruct rej as [[]|], d; cbn; lia.
    + unfold len. rewrite length_insert. destruct rej; lia.
  - apply (account_snoc tr w); [done|..]; cbn [emissions total foldr];
      [|done|unfold len; cbn [tasks finished]; rewrite length_insert; lia].
    intros d. unfold outstanding.
    change (tasks (finished n e r clock w)) with (<[n := mkTask e (Recording (call_result r))]> (tasks w)).
    rewrite (total_insert _ _ _ _ _ Ht). destruct r, d; cbn; lia.
  - apply (account_snoc tr w); [done|..]; change (tasks (set_tasks (delete n (tasks w)) w)) with (delete n (tasks w));
      [|done|rewrite !len_total, (total_delete _ _ _ _ Ht); cbn; lia].
    intros d. unfold outstanding. change (tasks (set_tasks (delete n (tasks w)) w)) with (delete n (tasks w)).
    rewrite (total_delete _ _ _ _ Ht). destruct d; cbn; lia.
  - destruct (process_counts e r k (store w) Success) as (_ & Hd & Hr).
    apply (account_snoc tr w); [done|..]; cbn [emissions]; [|done|].
    + intros d. unfold outstanding. change (tasks (recorded c n e r k w)) with (delete n (tasks w)).
      rewrite (total_delete _ _ _ _ Ht), (proj1 (process_counts e r k (store w) d)).
      unfold unrecorded_as at 2. cbn [t_phase]. destruct d; lia.
    + change (tasks (recorded c n e r k w)) with (delete n (tasks w)).
      rewrite !len_total, (total_delete _ _ _ _ Ht). lia.
  - apply (account_quiet tr w); [done| |done]. destruct (pending_count (store w)).2 as [n|err]; cbn; eauto.
Qed.

Lemma observes_account w0 tr w : account [] w0 -> observes w0 tr w -> account tr w.
Proof. intros H0. induction 1; [done|]. by eapply account_acts. Qed.

(** ** Through the registry *)

Context `{MK : MetricsKit} {reads : Counter -> Registry -> Z} {samples : Histogram -> Registry -> Z}.
Context `{ML : !MetricsLaws MK reads samples}.

Definition series (m : DispatchMetrics) (r : DispatchResult) : Counter :=
  match r with Success => m_success m | Failed => m_failure m | BreakerPaused => m_breaker_paused m end.

Lemma emit_reads e m p d :
  distinct_series m -> METRICS p = Some (Some m) ->
  METRICS (emit e p) = Some (Some m) /\
  reads (series m d) (registry (emit e p)) = reads (series m d) (registry p) + counts_result d e /\
  samples (m_duration m) (registry (emit e p)) = samples (m_duration m) (registry p) + counts_duration e.
Proof.
  intros (H1 & H2 & H3) Hm. destruct p as [r cell]. cbn in Hm. subst cell.
  destruct e as [[]|x|x]; cbn -[u32_try_from_or_max]; unfold with_metrics; cbn -[u32_try_from_or_max]; (split; [done|]);
    split; rewrite ?samples_inc, ?samples_gauge, ?samples_observe, ?reads_gauge, ?reads_observe; try (cbn; lia);
    destruct d; cbn; rewrite ?reads_inc, ?reads_inc_other by congruence; lia.
Qed.

Lemma emit_all_reads es m p d :
  distinct_series m -> METRICS p = Some (Some m) ->
  reads (series m d) (registry (emit_all es p)) = reads (series m d) (registry p) + total (counts_result d) es /\
  samples (m_duration m) (registry (emit_all es p)) = samples (m_duration m) (registry p) + total counts_duration es.
Proof.
  intros Hd. unfold emit_all. revert p. induction es as [|e es IH]; intros p Hm; [cbn; lia|].
  destruct (emit_reads e m p d Hd Hm) as (Hm' & H1 & H2). destruct (IH _ Hm') as [H3 H4].
  cbn [foldl]. rewrite !total_cons. lia.
Qed.

(** C11.  The exported metrics account for the run: in every run of one
    dispatcher over any store, failing as it may, and over any environment,
    once registered the success counter has grown by the events the sender
    accepted, the failure counter by the sends that failed, the paused counter
    by the rejected admissions, each less the outcomes about to be recorded; the
    histogram has one sample per send that ran; and every task spawned is
    counted once, in flight, or lost to a panic of the sender. *)
Theorem metrics_account (s0 : S) (tr : list action) (w : World S) (r : Registry) (r1 : Registry) (m : DispatchMetrics)
    (Hw : observes (start c s0 ∅ ∅ ∅) tr w) (Hr : register r = (r1, Ok m)) (Hm : distinct_series m) :
  let r2 := registry (emit_all (emitted tr) (metrics (mkProcess r None)).1) in
  let grown d := reads (series m d) r2 - reads (series m d) r1 in
  grown Success = accepted tr - outstanding Success w /\
  grown Failed = refused tr - outstanding Failed w /\
  grown BreakerPaused = rejected tr - outstanding BreakerPaused w /\
  samples (m_duration m) r2 - samples (m_duration m) r1 = grown Success + grown Failed /\
  grown Success + grown Failed + grown BreakerPaused + len (tasks w) + panicked tr = spawned tr.
Proof using All.
  destruct (observes_account _ _ _ (account_start s0 ∅ ∅ ∅) Hw) as [H1 H2 H3 H4 H5].
  unfold metrics. cbn [METRICS registry]. rewrite Hr. cbn [fst].
  assert (forall d, reads (series m d) (registry (emit_all (emitted tr) (mkProcess r1 (Some (Some m))))) =
    reads (series m d) r1 + results d tr) as Hreads by (intros d; by apply (emit_all_reads (emitted tr) m)).
  pose proof (proj2 (emit_all_reads (emitted tr) m (mkProcess r1 (Some (Some m))) Success Hm eq_refl)) as Hs.
  cbn [registry] in Hs. rewrite !Hreads, Hs. lia.
Qed.
End observe.

(** ** An example

    A registry of numbered counters, one gauge and one histogram; one event
    appended, refused once by the sender, another one in its hands. *)

#[local] Instance numbered_kit : MetricsKit := {|
  Registry := nat * gmap nat Z * Z * Z;
  Counter := nat;
  Gauge := unit;
  Histogram := unit;
  reg_counter _ _ r := let '(n, cs, g, h) := r in ((S n, cs, g, h), Ok n);
  reg_gauge _ r := (r, Ok tt);
  reg_histogram _ r := (r, Ok tt);
  inc c r := let '(n, cs, g, h) := r in (n, <[c := default 0 (cs !! c) + 1]> cs, g, h);
  gauge_set _ v r := let '(n, cs, _, h) := r in (n, cs, v, h);
  observe _ _ r := let '(n, cs, g, h) := r in (n, cs, g, h + 1)
|}.

Definition counter_value (c : nat) (r : nat * gmap nat Z * Z * Z) : Z := default 0 (r.1.1.2 !! c).
Definition sample_count (_ : unit) (r : nat * gmap nat Z * Z * Z) : Z := r.2.

#[local] Instance numbered_kit_laws : MetricsLaws numbered_kit counter_value sample_count.
Proof.
  split; try by intros ? [[[? ?] ?] ?]. all: try by intros ? ? [[[? ?] ?] ?].
  all: try by intros ? ? ? [[[? ?] ?] ?].
  - intros c [[[n cs] g] h]. unfold counter_value. cbn. by rewrite lookup_insert_eq.
  - intros c c' [[[n cs] g] h] Hc. unfold counter_value. cbn. by rewrite lookup_insert_ne.
Qed.

Import Memory.

Definition stocked : World Inner := produced ev2 (produced ev1 (start config new ∅ ∅ ∅)).
Definition fetched : World Inner := tick config 2000000000 stocked.
Definition asked1 : World Inner := admitted 0 ev2 0 fetched.
Definition refused1 : World Inner := finished 0 ev2 (SentErr (Delivery (lit "503"))) 0 asked1.
Definition noted1 : World Inner := recorded config 0 ev2 (Err (Failure (Delivery (lit "503")))) k0 refused1.
Definition asked2 : World Inner := admitted 0 ev1 0 noted1.

Definition sample_actions : list action :=
  [ASilent; ASilent; ASpawn 2; AAdmit 0 None; ASent 0 (SentErr (Delivery (lit "503")));
   AEmit [EResult Failed; EDuration 0]; AAdmit 0 None].

Lemma asked2_observed : observes config (start config new ∅ ∅ ∅) sample_actions asked2.
Proof.
  assert (forall tr a w w', observes config (start config new ∅ ∅ ∅) tr w -> acts config w a w' ->
    observes config (start config new ∅ ∅ ∅) (tr ++ [a]) w') as Hs by (intros; by eapply observes_snoc).
  assert (tasks fetched = [mkTask ev2 Waiting; mkTask ev1 Waiting]) as Hf by vm_eq.
  assert (tasks noted1 = [mkTask ev1 Waiting]) as Hn by vm_eq.
  assert (acts config stocked (ASpawn 2) fetched) as H3
    by (eapply acts_as; [apply (acts_tick config 2000000000); vm_eq|vm_eq]).
  assert (acts config fetched (AAdmit 0 None) asked1) as H4
    by (eapply acts_as; [apply (acts_admit config 0 ev2 0); by rewrite Hf|vm_eq]).
  assert (acts config asked1 (ASent 0 (SentErr (Delivery (lit "503")))) refused1) as H5
    by (apply (acts_sent config 0 ev2); vm_eq).
  assert (acts config refused1 (AEmit [EResult Failed; EDuration 0]) noted1) as H6
    by (eapply acts_as; [apply (acts_record config 0 ev2 (Err (Failure (Delivery (lit "503")))) k0); vm_eq|vm_eq]).
  assert (acts config noted1 (AAdmit 0 None) asked2) as H7
    by (eapply acts_as; [apply (acts_admit config 0 ev1 0); by rewrite Hn|vm_eq]).
  pose proof (Hs [] _ _ _ (observes_nil _ _) (acts_append config ev1 _)) as H1.
  pose proof (Hs _ _ _ _ H1 (acts_append config ev2 _)) as H2.
  exact (Hs _ _ _ _ (Hs _ _ _ _ (Hs _ _ _ _ (Hs _ _ _ _ (Hs _ _ _ _ H2 H3) H4) H5) H6) H7).
Qed.

Definition reg0 : nat * gmap nat Z * Z * Z := (0%nat, ∅, 0, 0).
Definition reg1 : nat * gmap nat Z * Z * Z := (3%nat, ∅, 0, 0).
Definition handles : DispatchMetrics := mkDispatchMetrics 0%nat 1%nat 2%nat tt tt.

Lemma metrics_account_witness :
  let r2 := registry (emit_all (emitted sample_actions) (metrics (mkProcess (MK := numbered_kit) reg0 None)).1) in
  counter_value 1 r2 - counter_value 1 reg1 = 1 /\ len (tasks asked2) = 1 /\
  counter_value 0 r2 - counter_value 0 reg1 + (counter_value 1 r2 - counter_value 1 reg1)
    + (counter_value 2 r2 - counter_value 2 reg1) + len (tasks asked2) + panicked sample_actions = 2.
Proof.
  cbv zeta. split; [vm_eq|]. split; [vm_eq|].
  assert (register (MK := numbered_kit) reg0 = (reg1, Ok handles)) as Hr by vm_eq.
  assert (distinct_series handles) as Hd by (repeat split; discriminate).
  destruct (metrics_account (MK := numbered_kit) (reads := counter_value) (samples := sample_count)
    config new sample_actions asked2 reg0 reg1 handles asked2_observed Hr Hd) as (_ & _ & _ & _ & H).
  exact H.
Defined.
