(* ===== verification/Outage.v ===== *)
(** * What an outage costs

    [dispatch.rs] with the circuit breaker it wraps the sender in.  The breaker
    is the [breaker] crate's; what the dispatcher relies on, as its
    documentation and that of [DispatcherConfig] have it, is [BreakerLaws].
    While the downstream refuses everything, the sends of a dispatcher are
    bounded by the trip threshold and the concurrency, not by the backlog. *)

From S2P Require Import Prelude BTree Event Backoff HexUuid Store Memory Metrics Dispatch DispatchSafety.
From S2P Require Import Samples DispatchExamples Observe.

Import Dispatch.

(** ** The breaker's documented behaviour *)

(** A closed circuit with its failures in a row; an open one, until when. *)
Inductive circuit := Closed (failures : Z) | Open (until : Z).

Definition failed (r : sent) : Prop := r <> SentOk.

(** A closed circuit admits every call; a failure adds to the streak or trips
    it, at the latest when the streak reaches the threshold; an open circuit
    rejects every call until its wait is over, and calls that were under way
    when it tripped do not shorten the wait. *)
Class BreakerLaws (BO : BreakerOps) (shows : CircuitBreakerConfig -> CircuitBreaker -> circuit -> Prop)
    (trip_after open_wait : CircuitBreakerConfig -> Z) : Prop := {
  trip_after_pos cfg : 1 <= trip_after cfg;
  shows_new cfg : shows cfg (breaker_new cfg) (Closed 0);
  admission_closed cfg b n t :
    shows cfg b (Closed n) -> (admission t b).2 = None /\ shows cfg (admission t b).1 (Closed n);
  admission_open cfg b u t :
    shows cfg b (Open u) -> t < u -> (admission t b).2 = Some true /\ shows cfg (admission t b).1 (Open u);
  settle_closed cfg b n t r :
    shows cfg b (Closed n) -> failed r ->
    n + 1 < trip_after cfg /\ shows cfg (settle t r b) (Closed (n + 1)) \/
    exists u, t + open_wait cfg <= u /\ shows cfg (settle t r b) (Open u);
  settle_open cfg b u t r :
    shows cfg b (Open u) -> failed r -> exists u', u <= u' /\ shows cfg (settle t r b) (Open u')
}.

Section outage.
Context `{JO : JitterOps} `{BO : BreakerOps}.
Context {shows : CircuitBreakerConfig -> CircuitBreaker -> circuit -> Prop} {trip_after open_wait : CircuitBreakerConfig -> Z}.
Context `{BL : !BreakerLaws BO shows trip_after open_wait}.
Context {S : Type} `{OS : !OutboxStore S} {inv : S -> Prop} {live delivered : S -> EventId -> Prop}.
Context `{OL : !OutboxLaws S inv live delivered} (c : DispatcherConfig).

(** ** Sends *)

Definition in_sender (t : Task) : Z := match t_phase t with Sending => 1 | _ => 0 end.
Definition sending (w : World S) : Z := total in_sender (tasks w).

Lemma sending_held w : sending w <= permits_held (tasks w).
Proof.
  unfold sending. induction (tasks w) as [|[e p] ts IH]; [done|]. rewrite total_cons.
  unfold permits_held in *. rewrite filter_cons. destruct p; cbn; case_decide; try done; rewrite ?len_cons; lia.
Qed.

Lemma sending_waiting (es : list OutboxEvent) : total in_sender ((fun e => mkTask e Waiting) <$> es) = 0.
Proof. by apply total_fmap_zero. Qed.

(** One action: what it adds to the sends under way. *)
Lemma acts_sending w a w' : acts c w a w' ->
  sending w' = sending w + match a with AAdmit _ None => 1 | ASent _ _ | APanic => -1 | _ => 0 end.
Proof.
  intros Ha. unfold sending. destruct Ha as [clock w Hp|n e clock w Ht Hh|n e r clock w Ht|n e w Ht|
    n e r k w Ht|w Hp Ht|w Hp|w Hp Hsd|w Hp Ht|w w' He (_ & Ht & _)]; try (symmetry; apply Z.add_0_r).
  - destruct (tick_tasks c clock w) as [due ->]. rewrite total_app, sending_waiting. lia.
  - unfold admitted. destruct (admission clock (breaker w)) as [b rej]. cbn [tasks snd].
    rewrite (total_insert _ _ _ _ _ Ht). destruct rej as [[]|]; cbn; lia.
  - cbn [tasks finished]. rewrite (total_insert _ _ _ _ _ Ht). cbn. lia.
  - cbn [tasks set_tasks]. rewrite (total_delete _ _ _ _ Ht). cbn. lia.
  - cbn [tasks recorded set_tasks]. rewrite (total_delete _ _ _ _ Ht). cbn. lia.
  - rewrite Ht. lia.
Qed.

(** Every send is accepted, refused, under way, or its sender panicked. *)
Lemma sends_balance s tr w :
  observes c (start c s ∅ ∅ ∅) tr w -> sends tr = accepted tr + refused tr + panicked tr + sending w.
Proof.
  induction 1 as [|tr w a w' _ IH Ha]; [done|]. rewrite (acts_sending _ _ _ Ha).
  unfold sends, accepted, refused, panicked in *. rewrite !total_app, !total_cons.
  destruct a as [n|t [[|]|]|t [|err|text]| |es|]; cbn; lia.
Qed.

(** ** The outage *)

(** Every send that ends fails, from [t0] on; every admission is asked by [t1]. *)
Definition in_outage (t0 t1 : Z) (a : action) : Prop :=
  match a with
  | ASent t r => t0 <= t /\ failed r
  | AAdmit t _ => t <= t1
  | _ => True
  end.

Lemma outage_accepts_nothing t0 t1 tr : Forall (in_outage t0 t1) tr -> accepted tr = 0.
Proof.
  unfold accepted. induction 1 as [|a tr Ha _ IH]; [done|]. rewrite total_cons, IH.
  destruct a as [n|t [[|]|]|t [|err|text]| |es|]; cbn; try done. by destruct Ha as [_ []].
Qed.

Definition outage_cost : Z := trip_after (breaker_config c) + permits c - 1.

(** Closed, the streak is the failures so far; open, for the whole window, the
    sends are within the outage_cost. *)
Definition outage_inv (t1 : Z) (tr : list action) (w : World S) : Prop :=
  exists st, shows (breaker_config c) (breaker w) st /\
  match st with
  | Closed n => 0 <= n < trip_after (breaker_config c) /\ refused tr = n
  | Open u => t1 < u /\ sends tr <= outage_cost + panicked tr
  end.

(** Actions that leave the breaker alone. *)
Lemma outage_quiet t1 tr w a w' :
  breaker w' = breaker w -> match a with AAdmit _ _ | ASent _ _ => False | _ => True end ->
  outage_inv t1 tr w -> outage_inv t1 (tr ++ [a]) w'.
Proof.
  intros Hb Ha (st & Hst & H). exists st. rewrite Hb. split; [done|].
  unfold refused, sends, panicked in *. rewrite !total_app, !total_cons.
  destruct a; try done; destruct st; cbn; lia.
Qed.

Lemma outage_acts t0 t1 s tr w a w' :
  t1 - t0 < open_wait (breaker_config c) -> Forall (in_outage t0 t1) tr -> in_outage t0 t1 a ->
  observes c (start c s ∅ ∅ ∅) tr w -> permits_held (tasks w) <= permits c ->
  acts c w a w' -> outage_inv t1 tr w -> outage_inv t1 (tr ++ [a]) w'.
Proof.
  intros Hwin Htr Hin Hobs Hpm Ha Hinv. pose proof (sends_balance _ _ _ Hobs) as Hbal.
  rewrite (outage_accepts_nothing _ _ _ Htr) in Hbal. pose proof (sending_held w) as Hsend.
  destruct Ha as [clock w Hp|n e clock w Ht Hh|n e r clock w Ht|n e w Ht|
    n e r k w Ht|w Hp Ht|w Hp|w Hp Hsd|w Hp Ht|w w' He (Hb & _)]; try by apply (outage_quiet t1 tr w).
  - apply (outage_quiet t1 tr w); [|done..]. unfold tick. destruct (idle_gate _ (vars w)) as [l [|]]; [|done].
    by destruct (fetch_due _ _ _) as [s' [|]].
  - destruct Hinv as ([m|u] & Hst & H); cbn in Hin.
    + destruct (admission_closed _ _ _ clock Hst) as [Hadm Hst']. unfold admitted.
      destruct (admission clock (breaker w)) as [b rej]. cbn in Hadm, Hst'. subst rej.
      exists (Closed m). split; [done|]. unfold refused in *. rewrite total_app, total_cons. cbn. lia.
    + destruct (admission_open _ _ _ clock Hst) as [Hadm Hst']; [lia|]. unfold admitted.
      destruct (admission clock (breaker w)) as [b rej]. cbn in Hadm, Hst'. subst rej.
      exists (Open u). split; [done|]. unfold sends, panicked in *. rewrite !total_app, !total_cons. cbn. lia.
  - destruct Hin as [Hclock Hfail]. destruct Hinv as ([m|u] & Hst & H).
    + destruct (settle_closed _ _ _ clock r Hst Hfail) as [[Hm Hst']|(u & Hu & Hst')].
      * exists (Closed (m + 1)). split; [done|]. unfold refused in *. rewrite total_app, total_cons.
        destruct r; [done|cbn; lia..].
      * exists (Open u). split; [done|]. split; [lia|]. unfold outage_cost, sends, panicked in *.
        rewrite !total_app, !total_cons. cbn. lia.
    + destruct (settle_open _ _ _ clock r Hst Hfail) as (u' & Hu & Hst'). exists (Open u'). split; [done|].
      unfold sends, panicked in *. rewrite !total_app, !total_cons. cbn. lia.
Qed.

Lemma outage_run t0 t1 s tr w :
  inv s -> t1 - t0 < open_wait (breaker_config c) -> Forall (in_outage t0 t1) tr ->
  observes c (start c s ∅ ∅ ∅) tr w -> outage_inv t1 tr w /\ permits_held (tasks w) <= permits c.
Proof.
  intros Hs Hwin Htr Hobs. split.
  2:{ assert (reachable c s w) as Hr by by eapply observes_world.
      apply (ci_permits (inv := inv) c w), (reachable_control_inv c s w Hs Hr). }
  induction Hobs as [|tr w a w' Hobs IH Ha].
  - exists (Closed 0). split; [apply shows_new|]. pose proof (trip_after_pos (breaker_config c)). cbn. lia.
  - apply Forall_app in Htr as [Htr Hin]. rewrite Forall_singleton in Hin. eapply outage_acts; eauto.
    assert (reachable c s w) as Hr by by eapply observes_world.
    apply (ci_permits (inv := inv) c w), (reachable_control_inv c s w Hs Hr).
Qed.

(** C17.  An outage costs a bounded number of sends: in every run in which each
    send fails and less time passes than the breaker stays open, however large
    the backlog, the sender is called at most [trip_after + concurrency - 1]
    times (and once more for each panic), and at most that many retry attempts
    are consumed; over any store and any environment. *)
Theorem outage_costs (s0 : S) (tr : list action) (w : World S) (t0 t1 : Z)
    (Hs : inv s0) (Hw : observes c (start c s0 ∅ ∅ ∅) tr w)
    (Hwin : t1 - t0 < open_wait (breaker_config c)) (Htr : Forall (in_outage t0 t1) tr) :
  let cost := trip_after (breaker_config c) + permits c - 1 in
  sends tr <= cost + panicked tr /\ refused tr <= cost.
Proof using All.
  cbv zeta. pose proof (sends_balance _ _ _ Hw) as Hbal. rewrite (outage_accepts_nothing _ _ _ Htr) in Hbal.
  destruct (outage_run t0 t1 s0 tr w Hs Hwin Htr Hw) as [(st & _ & H) Hpm].
  pose proof (sending_held w). assert (0 <= sending w) as Hnn.
  { unfold sending. clear. induction (tasks w) as [|[e p] ts IH]; [done|]. rewrite total_cons. destruct p; cbn; lia. }
  destruct st as [n|u]; cbn in H; unfold outage_cost in H; lia.
Qed.
End outage.

(** ** A breaker with these laws

    It trips on failures in a row, waits a fixed time, then lets a few probes
    through at once; enough successes close it, a failure trips it again.  The
    tests of a tripped breaker run on it too: their configurations set the
    failure rate to one over ten calls, which the streak always precedes. *)
Module StreakBreaker.

Record Config := mkBreakerConfig {
  consecutive_failures : Z; open_for : Z; half_open_max_calls : Z; success_threshold : Z
}.

(** Half open: the probes under way, the successes so far. *)
Inductive State := SClosed (streak : Z) | SOpen (until : Z) | SHalfOpen (probes successes : Z).

Record Breaker := mkBreaker { b_config : Config; b_state : State; total_failures : Z }.

Definition ask (t : Z) (b : Breaker) : Breaker * option bool :=
  let becomes st := mkBreaker (b_config b) st (total_failures b) in
  match b_state b with
  | SClosed _ => (b, None)
  | SOpen until => if t <? until then (b, Some true) else (becomes (SHalfOpen 1 0), None)
  | SHalfOpen probes successes =>
      if probes <? half_open_max_calls (b_config b) then (becomes (SHalfOpen (probes + 1) successes), None)
      else (b, Some false)
  end.

Definition note (t : Z) (r : sent) (b : Breaker) : Breaker :=
  let cfg := b_config b in
  let trip := SOpen (t + open_for cfg) in
  mkBreaker cfg
    match b_state b, r with
    | SClosed _, SentOk => SClosed 0
    | SClosed streak, _ => if streak + 1 <? consecutive_failures cfg then SClosed (streak + 1) else trip
    | SOpen until, _ => SOpen until
    | SHalfOpen probes successes, SentOk =>
        if success_threshold cfg <=? successes + 1 then SClosed 0 else SHalfOpen (probes - 1) (successes + 1)
    | SHalfOpen _ _, _ => trip
    end
    (match r with SentOk => total_failures b | _ => total_failures b + 1 end).

#[export] Instance streak_breaker : BreakerOps := {|
  CircuitBreakerConfig := Config;
  CircuitBreaker := Breaker;
  standard := mkBreakerConfig 5 (from_secs 30) 1 1;
  breaker_new := fun cfg => mkBreaker cfg (SClosed 0) 0;
  admission := ask;
  settle := note
|}.

Definition shown (cfg : Config) (b : Breaker) (st : circuit) : Prop :=
  b_config b = cfg /\ b_state b = match st with Closed n => SClosed n | Open u => SOpen u end.

#[export] Instance streak_breaker_laws :
  BreakerLaws streak_breaker shown (fun cfg => Z.max (consecutive_failures cfg) 1) open_for.
Proof.
  split.
  - lia.
  - done.
  - intros cfg [cf st tf] n t [Hc Hst]. cbn in *. subst. by cbn.
  - intros cfg [cf st tf] u t [Hc Hst] Ht. cbn in *. subst. cbn. unfold ask. cbn.
    apply Z.ltb_lt in Ht. by rewrite Ht.
  - intros cfg [cf st tf] n t r [Hc Hst] Hr. cbn in *. subst. unfold note, shown. cbn.
    destruct r; [done|..]; (destruct (Z.ltb_spec (n + 1) (consecutive_failures cfg)); [left; split; [lia|done]|];
      right; exists (t + open_for cfg); done).
  - intros cfg [cf st tf] u t r [Hc Hst] Hr. cbn in *. subst. exists u. done.
Qed.
End StreakBreaker.

(** ** An example

    Two events due, a breaker that trips at once: the first send fails, the
    second event is paused. *)

Import Memory StreakBreaker.

Definition touchy : DispatcherConfig :=
  mkConfig DEFAULT_POLL_INTERVAL default_fetch_batch 4 default_policy (mkBreakerConfig 1 (from_millis 150) 1 1).

Definition down : sent := SentErr (Delivery (lit "503")).
Definition tripped0 : World Inner := tick touchy 2000000000 (produced ev2 (produced ev1 (start touchy new ∅ ∅ ∅))).
Definition tripped1 : World Inner := admitted 0 ev2 1000 tripped0.
Definition tripped2 : World Inner := finished 0 ev2 down 2000 tripped1.
Definition tripped3 : World Inner := admitted 1 ev1 3000 tripped2.

Definition outage_actions : list action :=
  [ASilent; ASilent; ASpawn 2; AAdmit 1000 None; ASent 2000 down; AAdmit 3000 (Some true)].

Lemma tripped3_observed : observes touchy (start touchy new ∅ ∅ ∅) outage_actions tripped3.
Proof.
  assert (forall tr a w w', observes touchy (start touchy new ∅ ∅ ∅) tr w -> acts touchy w a w' ->
    observes touchy (start touchy new ∅ ∅ ∅) (tr ++ [a]) w') as Hs by (intros; by eapply observes_snoc).
  pose proof (Hs [] _ _ _ (observes_nil _ _) (acts_append touchy ev1 _)) as H1.
  pose proof (Hs _ _ _ _ H1 (acts_append touchy ev2 _)) as H2.
  assert (acts touchy (produced ev2 (produced ev1 (start touchy new ∅ ∅ ∅))) (ASpawn 2) tripped0) as H3
    by (eapply acts_as; [apply (acts_tick touchy 2000000000); vm_eq|vm_eq]).
  assert (acts touchy tripped0 (AAdmit 1000 None) tripped1) as H4
    by (eapply acts_as; [apply (acts_admit touchy 0 ev2 1000); [vm_eq|by vm_compute]|vm_eq]).
  assert (acts touchy tripped1 (ASent 2000 down) tripped2) as H5 by (apply (acts_sent touchy 0 ev2); vm_eq).
  assert (acts touchy tripped2 (AAdmit 3000 (Some true)) tripped3) as H6
    by (eapply acts_as; [apply (acts_admit touchy 1 ev1 3000); [vm_eq|by vm_compute]|vm_eq]).
  exact (Hs _ _ _ _ (Hs _ _ _ _ (Hs _ _ _ _ (Hs _ _ _ _ H2 H3) H4) H5) H6).
Qed.

Lemma outage_costs_witness :
  sends outage_actions = 1 /\ rejected outage_actions = 1 /\
  sends outage_actions <= 1 + 4 - 1 + 0 /\ refused outage_actions <= 1 + 4 - 1.
Proof.
  split; [vm_eq|]. split; [vm_eq|].
  assert (3000 - 2000 < open_for (breaker_config touchy)) as Hwin by done.
  assert (Forall (in_outage 2000 3000) outage_actions) as Htr.
  { repeat constructor; cbn; try lia; discriminate. }
  exact (outage_costs (BO := streak_breaker) (BL := streak_breaker_laws) (inv := Memory.mem_inv)
    (live := Memory.mem_live) (delivered := Memory.mem_delivered) touchy new outage_actions tripped3 2000 3000
    Memory.new_inv tripped3_observed Hwin Htr).
Defined.
