(* ===== verification/Driver.v ===== *)
(** * The dispatcher, executed

    [Dispatch.v] gives the dispatcher as a relation; here is one schedule of it
    as a function, so that a run can be computed: tasks one after the other, in
    the order they were spawned.  It is the scheduler the translated tests run
    on, not a translation of code: every step it takes is one of [Dispatch.v].
    [drive_runs] shows that what it computes is a
    run of the relation, and that its log is the account of that run. *)

From S2P Require Import Prelude BTree Event Backoff Store Metrics Dispatch DispatchSafety Observe.

Import Dispatch.

Section Driver.
Context `{JO : JitterOps} `{BO : BreakerOps}.
Context {S : Type} `{OS : !OutboxStore S} (c : DispatcherConfig).
(** The sender, told how many sends came before. *)
Context (sender : nat -> OutboxEvent -> sent).

(** What the sender has been handed so far, newest first, and what was emitted
    so far, in order. *)
Record Log := mkLog { handed : list OutboxEvent; noted : list emission }.
Definition no_log : Log := mkLog [] [].
Definition hand (e : OutboxEvent) (log : Log) : Log := mkLog (e :: handed log) (noted log).
Definition note (es : list emission) (log : Log) : Log := mkLog (handed log) (noted log ++ es).

(** The end of the first task: its outcome recorded. *)
Definition conclude (e : OutboxEvent) (r : result unit CircuitBreakerError) (k : Clocks) (w : World S) (log : Log)
    : World S * Log :=
  (recorded c 0 e r k w, note (process c e r k (store w)).2 log).

(** The first task, to its end; the number of the others is the fuel left. *)
Fixpoint drain (clock : Z) (k : Clocks) (fuel : nat) (w : World S) (log : Log) : World S * Log :=
  match fuel, tasks w with
  | O, _ | _, [] => (w, log)
  | Datatypes.S fuel, mkTask e Waiting :: _ =>
      let w1 := admitted 0 e clock w in
      match tasks w1 with
      | mkTask _ Sending :: _ =>
          let r := sender (length (handed log)) e in
          let '(w2, log) := conclude e (call_result r) k (finished 0 e r clock w1) (hand e log) in
          drain clock k fuel w2 log
      | mkTask _ (Recording r) :: _ => let '(w2, log) := conclude e r k w1 log in drain clock k fuel w2 log
      | _ => (w1, log)
      end
  | _, _ => (w, log)
  end.

(** One tick, the drain of its batch, the gauge sample. *)
Definition cycle (clock : Z) (k : Clocks) (st : World S * Log) : World S * Log :=
  let w := tick c clock st.1 in
  match at_ w with
  | Draining =>
      let '(w, log) := drain clock k (length (tasks w)) w st.2 in
      let w := set_place Gauging w in
      let '(s, pending) := pending_count (store w) in
      (set_place Selecting (set_store s w), note (gauge_emission pending) log)
  | _ => (w, st.2)
  end.

(** A tick's clock, and the clocks of its tasks. *)
Definition Tick : Type := Z * Clocks.

Definition drive (ticks : list Tick) (st : World S * Log) : World S * Log :=
  foldl (fun st t => cycle t.1 t.2 st) st ticks.

(** Until all is as wished, and the ticks not used; [None] when it is not after
    all the ticks. *)
Fixpoint drive_until (wished : World S * Log -> bool) (ticks : list Tick) (st : World S * Log)
    : option (World S * Log * list Tick) :=
  if wished st then Some (st, ticks) else
  match ticks with
  | [] => None
  | t :: ticks => drive_until wished ticks (cycle t.1 t.2 st)
  end.

(** The shutdown taken up, with nothing in flight. *)
Definition stop (w : World S) : World S := set_place Returned (set_place Finishing (shutdown w)).

(** ** It is a run *)

(** Steps of the dispatcher's own, with what they do. *)
Inductive driven : World S -> list action -> World S -> Prop :=
| driven_nil w : driven w [] w
| driven_cons w a w1 tr w2 : run_step c w w1 -> acts c w a w1 -> driven w1 tr w2 -> driven w (a :: tr) w2.

Lemma driven_one w a w' : run_step c w w' -> acts c w a w' -> driven w [a] w'.
Proof. intros H1 H2. eapply driven_cons; [done..|apply driven_nil]. Qed.

Lemma driven_app w tr w1 tr' w2 : driven w tr w1 -> driven w1 tr' w2 -> driven w (tr ++ tr') w2.
Proof. induction 1; intros H'; [done|]. cbn. eapply driven_cons; eauto. Qed.

Lemma driven_run w tr w' : driven w tr w' -> rtc (run_step c) w w'.
Proof. induction 1; [done|]. by eapply rtc_l. Qed.

Lemma driven_observes w0 tr0 w tr w' : observes c w0 tr0 w -> driven w tr w' -> observes c w0 (tr0 ++ tr) w'.
Proof.
  intros H0 Htr. revert tr0 H0. induction Htr as [w|w a w1 tr w2 _ Ha _ IH]; intros tr0 H0.
  - by rewrite app_nil_r.
  - rewrite cons_middle, app_assoc. apply IH. by eapply observes_snoc.
Qed.

(** What a log has gained over another is what a run did. *)
Definition logs (log : Log) (tr : list action) (log' : Log) : Prop :=
  noted log' = noted log ++ emitted tr /\ len (handed log') = len (handed log) + sends tr.

Lemma logs_nil log : logs log [] log.
Proof. split; [symmetry; apply app_nil_r|]. unfold sends. cbn. lia. Qed.

(** An action that emits nothing and calls no sender. *)
Lemma logs_silent log a : emissions a = [] -> sends [a] = 0 -> logs log [a] log.
Proof. intros He Hs. split; [unfold emitted; cbn; by rewrite He, !app_nil_r|lia]. Qed.

Lemma logs_app log tr log1 tr' log2 : logs log tr log1 -> logs log1 tr' log2 -> logs log (tr ++ tr') log2.
Proof.
  intros [H1 H2] [H3 H4]. unfold logs, emitted, sends in *. rewrite bind_app, total_app, app_assoc.
  split; [congruence|lia].
Qed.

Definition waiting (es : list OutboxEvent) : list Task := (fun e => mkTask e Waiting) <$> es.

(** The steps of a task that is first in line. *)
Lemma driven_admit e ts clock w :
  tasks w = mkTask e Waiting :: waiting ts ->
  driven w [AAdmit clock (admission clock (breaker w)).2] (admitted 0 e clock w).
Proof.
  intros Ht. assert (permits_held (tasks w) < permits c) as Hp.
  { rewrite Ht. change (permits_held (waiting (e :: ts)) < permits c). unfold waiting. rewrite held_waiting.
    unfold permits. lia. }
  apply driven_one; [apply step_admit|apply acts_admit]; (done || by rewrite Ht).
Qed.

Lemma driven_sent e ts r clock w :
  tasks w = mkTask e Sending :: ts -> driven w [ASent clock r] (finished 0 e r clock w).
Proof.
  intros Ht. apply driven_one; [by apply step_sent; rewrite Ht|by apply (acts_sent c 0 e); rewrite Ht].
Qed.

Lemma conclude_driven e ts r k w log :
  tasks w = mkTask e (Recording r) :: ts ->
  exists w' log', conclude e r k w log = (w', log') /\ tasks w' = ts /\ at_ w' = at_ w /\
    exists tr, driven w tr w' /\ logs log tr log'.
Proof.
  intros Ht. eexists _, _. split; [done|]. split; [cbn; by rewrite Ht|]. split; [done|].
  eexists. split; [apply driven_one; [by apply step_record; rewrite Ht|by apply (acts_record c 0 e); rewrite Ht]|].
  split; [unfold emitted; cbn -[process]; by rewrite app_nil_r|]. unfold sends. cbn. lia.
Qed.

Lemma drain_runs clock k es w log :
  tasks w = waiting es ->
  exists w' log' tr, drain clock k (length es) w log = (w', log') /\ tasks w' = [] /\ at_ w' = at_ w /\
    driven w tr w' /\ logs log tr log'.
Proof.
  revert w log. induction es as [|e es IH]; intros w log Ht.
  { exists w, log, []. cbn. rewrite Ht. split_and!; auto using driven_nil, logs_nil. }
  pose proof (driven_admit e es clock w Ht) as Hadm. revert Hadm.
  cbn [length drain]. rewrite Ht. cbn [waiting fmap list_fmap].
  unfold admitted. destruct (admission clock (breaker w)) as [b rej]. rewrite Ht.
  cbn [waiting fmap list_fmap insert list_insert tasks snd].
  set (w1 := mkWorld _ b _ _ _ _ _ _ _). intros Hadm.
  assert (tasks w1 = mkTask e match rej with None => Sending | Some true => Recording (Err CircuitOpen)
    | Some false => Recording (Err Rejected) end :: waiting es /\ at_ w1 = at_ w) as [Ht1 Ha1] by done.
  destruct rej as [rej|].
  - set (r := if rej then Err CircuitOpen else Err Rejected : result unit CircuitBreakerError).
    destruct (conclude_driven e (waiting es) r k w1 log) as (w2 & log2 & Hc & Ht2 & Ha2 & tr2 & Htr2 & Hl2).
    { rewrite Ht1. unfold r. by destruct rej. }
    destruct (IH w2 log2 Ht2) as (w' & log' & tr & Hd & Hnil & Ha & Htr & Hl).
    exists w', log', ([AAdmit clock (Some rej)] ++ tr2 ++ tr). split.
    { unfold r in Hc. destruct rej; by rewrite Hc. }
    split; [done|]. split; [congruence|]. split; [eauto using driven_app|].
    eapply (logs_app _ _ log); [|by eapply logs_app]. by apply logs_silent.
  - set (r := sender (length (handed log)) e).
    destruct (conclude_driven e (waiting es) (call_result r) k (finished 0 e r clock w1) (hand e log))
      as (w2 & log2 & Hc & Ht2 & Ha2 & tr2 & Htr2 & Hl2).
    { cbn [finished tasks]. by rewrite Ht1. }
    destruct (IH w2 log2 Ht2) as (w' & log' & tr & Hd & Hnil & Ha & Htr & Hl).
    exists w', log', ([AAdmit clock None] ++ [ASent clock r] ++ tr2 ++ tr). split; [by rewrite Hc|].
    split; [done|]. split; [rewrite Ha, Ha2; exact Ha1|].
    split; [eauto using driven_app, driven_sent|].
    eapply (logs_app _ _ (hand e log)); [|eapply (logs_app _ _ (hand e log)); [|by eapply logs_app]].
    + split; [symmetry; apply app_nil_r|]. unfold sends. cbn [handed hand]. rewrite len_cons. cbn. lia.
    + by apply logs_silent.
Qed.

Lemma cycle_runs clock k w log :
  at_ w = Selecting -> tasks w = [] ->
  exists w' log' tr, cycle clock k (w, log) = (w', log') /\ at_ w' = Selecting /\ tasks w' = [] /\
    driven w tr w' /\ logs log tr log'.
Proof.
  intros Hp Ht.
  assert (driven w [ASpawn (len (tasks (tick c clock w)) - len (tasks w))] (tick c clock w)) as Htick.
  { apply driven_one; [by apply step_tick|by apply acts_tick]. }
  assert (forall n, logs log [ASpawn n] log) as Hspawn.
  { intros n. by apply logs_silent. }
  revert Htick. unfold cycle. cbn [fst snd].
  assert (at_ (tick c clock w) = Selecting /\ tasks (tick c clock w) = [] \/
    at_ (tick c clock w) = Draining /\ exists es, tasks (tick c clock w) = waiting es) as Hcase.
  { unfold tick. destruct (idle_gate _ (vars w)) as [l [|]]; [|by left].
    destruct (fetch_due _ _ _) as [s [due|err]]; [right|by left]. cbn. rewrite Ht. split; [done|by exists due]. }
  intros Htick. destruct Hcase as [[Hs Hnil]|[Hd [es Hes]]].
  - rewrite Hs. by eexists _, _, _.
  - rewrite Hd. assert (length (tasks (tick c clock w)) = length es) as ->
      by (rewrite Hes; apply length_fmap).
    destruct (drain_runs clock k es (tick c clock w) log Hes) as (w' & log' & tr & -> & Hnil & Ha & Htr & Hl).
    assert (driven w' [ASilent] (set_place Gauging w')) as Hdrained.
    { apply driven_one; [apply step_drained|apply acts_drained]; congruence. }
    pose proof (acts_gauge c (set_place Gauging w') eq_refl) as Hact.
    pose proof (step_gauge c (set_place Gauging w') eq_refl) as Hstep. revert Hact Hstep.
    cbn [store set_place]. destruct (pending_count (store w')) as [s pending]. cbn [fst snd]. intros Hact Hstep.
    eexists _, _, ([_] ++ tr ++ [ASilent] ++ [AEmit (gauge_emission pending)]). split; [done|]. split; [done|]. split; [done|]. split.
    + eapply driven_app; [done|]. eapply driven_app; [done|]. eapply driven_app; [done|].
      by apply driven_one.
    + eapply logs_app; [done|]. eapply logs_app; [done|]. eapply (logs_app _ _ log').
      * by apply logs_silent.
      * split; [unfold emitted; cbn; by rewrite app_nil_r|unfold sends; cbn; lia].
Qed.

Lemma drive_steps ticks w log :
  at_ w = Selecting -> tasks w = [] ->
  exists w' log' tr, drive ticks (w, log) = (w', log') /\ at_ w' = Selecting /\ tasks w' = [] /\
    driven w tr w' /\ logs log tr log'.
Proof.
  revert w log. induction ticks as [|[clock k] ticks IH]; intros w log Hp Ht.
  { exists w, log, []. split_and!; auto using driven_nil, logs_nil. }
  destruct (cycle_runs clock k w log Hp Ht) as (w1 & log1 & tr1 & Hc & Hp1 & Ht1 & Htr1 & Hl1).
  destruct (IH w1 log1 Hp1 Ht1) as (w' & log' & tr & Hd & Hp' & Ht' & Htr & Hl).
  exists w', log', (tr1 ++ tr). split; [cbn [drive foldl fst snd]; rewrite Hc; exact Hd|].
  split_and!; eauto using driven_app, logs_app.
Qed.

Lemma drive_until_drive wished ticks st st' ahead :
  drive_until wished ticks st = Some (st', ahead) ->
  wished st' = true /\ exists used, ticks = used ++ ahead /\ st' = drive used st.
Proof.
  assert (forall ts st0, wished st0 = true -> Some (st0, ts) = Some (st', ahead) ->
    wished st' = true /\ exists used, ts = used ++ ahead /\ st' = drive used st0) as Hnow.
  { intros ts st0 E [= <- <-]. split; [done|by exists []]. }
  revert st. induction ticks as [|t ticks IH]; intros st; cbn; destruct (wished st) eqn:E; try done; try by apply Hnow.
  intros (Hw & used & -> & ->)%IH. split; [done|]. by exists (t :: used).
Qed.

(** What the executable dispatcher computes is a run of the dispatcher:
    for any store, breaker, sender and clocks, the state it ends in is
    reached by the dispatcher's own steps, its log has what that run emitted, in
    order, and an entry for each send, it is back at [select!] with nothing in
    flight, and [shutdown] then leads to the return of [run]. *)
Lemma drive_runs (ticks : list Tick) (s : S) :
  let w := (drive ticks (start c s ∅ ∅ ∅, no_log)).1 in
  let log := (drive ticks (start c s ∅ ∅ ∅, no_log)).2 in
  rtc (run_step c) (start c s ∅ ∅ ∅) w /\
  (exists tr, observes c (start c s ∅ ∅ ∅) tr w /\ noted log = emitted tr /\ len (handed log) = sends tr) /\
  at_ w = Selecting /\ tasks w = [] /\
  reachable c s (stop w) /\ at_ (stop w) = Returned.
Proof.
  cbn zeta.
  destruct (drive_steps ticks (start c s ∅ ∅ ∅) no_log eq_refl eq_refl) as (w & log & tr & -> & Hp & Ht & Htr & H1 & H2).
  cbn [fst snd]. pose proof (driven_run _ _ _ Htr) as Hr. split_and!; [done| |done..| |done].
  - exists tr. split; [exact (driven_observes _ [] _ _ _ (observes_nil _ _) Htr)|]. split; [exact H1|].
    rewrite H2. apply Z.add_0_l.
  - unfold reachable. transitivity w; [eapply (rtc_subrel (run_step c)); [|exact Hr]; by left|].
    eapply rtc_l; [right; apply step_shutdown|].
    eapply rtc_l; [left; by apply (step_break c (shutdown w))|].
    apply rtc_once. left. by apply (step_return c (set_place Finishing (shutdown w))).
Qed.
End Driver.
