(* ===== verification/Testing.v ===== *)
(** * The vocabulary of the unit tests

    The [#[cfg(test)]] modules of [src/src] are part of the program: they say
    what its authors expect of it.  A test is translated statement by statement
    into a computation over the value it works on; a panic ([assert!],
    [unwrap] of an error) is its error.  [UnitTests.v] runs them all on the
    model. *)

From S2P Require Import Prelude BTree Event Backoff HexUuid Store.

(** The one way a test fails. *)
Inductive panic := Panicked.

Definition test (S : Type) : Type := M S panic unit.

Section macros.
Context {S : Type}.

Definition assert (b : bool) : test S := if b then mret tt else mfail Panicked.
Definition assert_eq {A} `{EqDecision A} (x y : A) : test S := assert (bool_decide (x = y)).
Definition assert_ne {A} `{EqDecision A} (x y : A) : test S := assert (negb (bool_decide (x = y))).

(** [Result::unwrap], [Result::unwrap_err] of a call. *)
Definition unwrap {A E} (m : M S E A) : M S panic A := fun s =>
  match m s with (s, Ok a) => (s, Ok a) | (s, Err _) => (s, Err Panicked) end.
Definition unwrap_err {A E} (m : M S E A) : M S panic E := fun s =>
  match m s with (s, Ok _) => (s, Err Panicked) | (s, Err e) => (s, Ok e) end.
(** The same of a value, and of an [Option]. *)
Definition unwrapped {A E} (r : result A E) : M S panic A := unwrap (mlift r).
Definition unwrapped_err {A E} (r : result A E) : M S panic E := unwrap_err (mlift r).
Definition some {A} (o : option A) : M S panic A :=
  match o with Some a => mret a | None => mfail Panicked end.

(** A look at the value itself, as the tests of a private module may. *)
Definition peek {A} (f : S -> A) : M S panic A := fun s => (s, Ok (f s)).

Fixpoint for_each {A} (l : list A) (f : A -> test S) : test S :=
  match l with [] => mret tt | a :: l => _ <-- f a; for_each l f end.

Definition passes_on (s : S) (t : test S) : bool := is_ok (t s).2.
End macros.

(** A test that works on values only. *)
Definition pure_test : Type := test unit.
Definition passes (t : pure_test) : bool := passes_on tt t.

(** ** What the tests build

    [EventId::now_v7()] in order of call; the [n]-th id of a test. *)
Definition now_v7 (n : Z) : EventId := eid n.

(** [SystemTime::now()] while the tests run. *)
Definition test_clock : Z := 1700000000000000000.

(** [OutboxEvent::new(topic, payload)], drawing the [n]-th id. *)
Definition new_nth (n : Z) (topic : str) (payload : bytes) : result OutboxEvent EventError :=
  new_event (as_uuid (now_v7 n)) test_clock topic payload.

Definition set_created_at (t : Z) (e : OutboxEvent) : OutboxEvent :=
  mkEvent (ev_id e) (ev_topic e) (ev_payload e) (ev_headers e) t (ev_attempts e) (ev_last_error e).
Definition set_topic (topic : str) (e : OutboxEvent) : OutboxEvent :=
  mkEvent (ev_id e) topic (ev_payload e) (ev_headers e) (ev_created_at e) (ev_attempts e) (ev_last_error e).
Definition set_payload (payload : bytes) (e : OutboxEvent) : OutboxEvent :=
  mkEvent (ev_id e) (ev_topic e) payload (ev_headers e) (ev_created_at e) (ev_attempts e) (ev_last_error e).
Definition set_attempts (n : Z) (e : OutboxEvent) : OutboxEvent :=
  mkEvent (ev_id e) (ev_topic e) (ev_payload e) (ev_headers e) (ev_created_at e) n (ev_last_error e).
Definition set_last_error (m : option str) (e : OutboxEvent) : OutboxEvent :=
  mkEvent (ev_id e) (ev_topic e) (ev_payload e) (ev_headers e) (ev_created_at e) (ev_attempts e) m.
(** [e.headers.insert(key, value)]. *)
Definition insert_header (k v : str) (e : OutboxEvent) : OutboxEvent :=
  mkEvent (ev_id e) (ev_topic e) (ev_payload e) (bmap_insert k v (ev_headers e)) (ev_created_at e)
    (ev_attempts e) (ev_last_error e).

(** [s.repeat(n)]. *)
Definition str_repeat (s : str) (n : nat) : str := concat (replicate n s).

(** Characters the tests write that are not ASCII. *)
Definition e_acute : str := [0xC3; 0xA9].
Definition u_umlaut : str := [0xC3; 0xBC].
Definition slight_smile : str := [0xF0; 0x9F; 0x99; 0x82].

(** [s.chars().all(|c| c == 'é')] for a two-byte character: [s] is a number of
    copies of it. *)
Definition all_chars (c s : str) : bool := bool_decide (s = str_repeat c (length s / length c)).

(** The helper [event] of the stores' test modules. *)
Definition event {S} (n : Z) (topic : str) (created_at : Z) : M S panic OutboxEvent :=
  e <-- unwrapped (new_nth n topic (lit "payload"));
  mret (set_created_at created_at e).
