(* ===== verification/CoreTests.v ===== *)
(** * The unit tests of the data modules

    The [tests] modules of [src/src/event.rs], [store.rs], [codec.rs],
    [backoff.rs] and [error.rs], translated.  Left out: what tests the [uuid]
    crate alone (the version of a fresh id, its other text forms), and the serde
    form of a whole event.  The property test of [backoff.rs] holds of every
    input in its range, whatever the jitter. *)

From S2P Require Import Prelude BTree Utf8 Event Truncate Codec Float Backoff HexUuid Store Samples Testing.

(** ** [event.rs] *)

Module EventTests.

Definition event (topic : str) : M unit panic OutboxEvent := unwrapped (new_nth 1 topic (lit "payload")).

Definition new_sets_fresh_v7_and_clock : pure_test :=
  e <-- event (lit "orders");
  _ <-- assert_eq (ev_topic e) (lit "orders");
  _ <-- assert_eq (ev_payload e) (lit "payload");
  _ <-- assert_eq (ev_headers e) [];
  let now := now_millis test_clock in
  _ <-- assert ((ev_created_at e <=? now) && (now - ev_created_at e <? 60000));
  _ <-- assert_eq (ev_attempts e) 0;
  assert_eq (ev_last_error e) None.

Definition from_uuid_and_parse_round_trip : pure_test :=
  let uuid := as_uuid (now_v7 1) in
  let id := from_uuid uuid in
  _ <-- assert_eq (as_uuid id) uuid;
  parsed <-- unwrapped (event_id_parse (event_id_to_string id));
  assert_eq parsed id.

Definition parse_rejects_garbage : pure_test :=
  err <-- unwrapped_err (event_id_parse (lit "not-a-uuid"));
  _ <-- assert_eq err (EInvalidId (lit "not-a-uuid"));
  assert (negb (is_ok (event_id_parse []))).

Definition topic_validation_accepts_charset : pure_test :=
  for_each [lit "a"; lit "orders"; lit "orders.order-placed"; lit "a.b_c-d9"; lit "0"; str_repeat (lit "x") 128]
    (fun topic => assert (is_ok (new_nth 1 topic []))).

Definition topic_validation_rejects_the_rest : pure_test :=
  for_each [[]; lit "Orders"; lit "has space"; lit "with/slash"; lit "with:colon"; u_umlaut ++ lit "nicode";
            lit "emoji" ++ slight_smile; str_repeat (lit "x") 129]
    (fun topic =>
       err <-- unwrapped_err (new_nth 1 topic []);
       _ <-- assert (match err with EInvalidTopic _ => true | _ => false end);
       err' <-- unwrapped_err (new_nth 2 topic []);
       assert_eq err' err).

Definition with_headers_and_validate : pure_test :=
  let headers := bmap_insert (lit "trace-id") (lit "abc") [] in
  e <-- unwrapped (with_headers (as_uuid (now_v7 1)) test_clock (lit "orders") (lit "body") headers);
  _ <-- assert_eq (bmap_get (lit "trace-id") (ev_headers e)) (Some (lit "abc"));
  assert (is_ok (validate e)).

Definition validate_rejects_bad_topic : pure_test :=
  e <-- event (lit "orders");
  let e := set_topic (lit "no good") e in
  assert (negb (is_ok (validate e))).

Definition all : list pure_test :=
  [new_sets_fresh_v7_and_clock; from_uuid_and_parse_round_trip; parse_rejects_garbage;
   topic_validation_accepts_charset; topic_validation_rejects_the_rest; with_headers_and_validate;
   validate_rejects_bad_topic].
End EventTests.

(** ** [store.rs] *)

Module TruncateTests.

Definition truncate_error_passes_short_messages : pure_test :=
  _ <-- assert_eq (truncate_error (lit "boom")) (lit "boom");
  assert_eq (truncate_error (str_repeat (lit "x") 1024)) (str_repeat (lit "x") 1024).

Definition truncate_error_caps_at_1kib : pure_test :=
  let long := str_repeat (lit "x") 4096 in
  assert_eq (len (truncate_error long)) MAX_ERROR_BYTES.

Definition truncate_error_respects_char_boundaries : pure_test :=
  let multi := str_repeat e_acute 1024 in
  let truncated := truncate_error multi in
  _ <-- assert (len truncated <=? MAX_ERROR_BYTES);
  _ <-- assert (all_chars e_acute truncated);
  let mixed := str_repeat (lit "a") 1023 ++ str_repeat e_acute 3 in
  let truncated := truncate_error mixed in
  _ <-- assert (is_char_boundary truncated (length truncated));
  assert_eq truncated (str_repeat (lit "a") 1023).

Definition truncate_error_never_returns_invalid_utf8 : pure_test :=
  for_each (seq 0 64) (fun n =>
    let s := str_repeat u_umlaut n in
    let t := truncate_error s in
    assert (all_chars u_umlaut t)).

Definition truncate_reason_passes_short_and_caps_long : pure_test :=
  _ <-- assert_eq (truncate_reason (lit "misrouted")) (lit "misrouted");
  let long := str_repeat (lit "y") 4096 in
  _ <-- assert_eq (len (truncate_reason long)) MAX_REASON_BYTES;
  let multi := str_repeat e_acute 1024 in
  let truncated := truncate_reason multi in
  _ <-- assert (is_char_boundary truncated (length truncated));
  assert_eq truncated (str_repeat e_acute 512).

Definition never_is_max_u64 : pure_test := assert_eq NEVER u64_max.

Definition all : list pure_test :=
  [truncate_error_passes_short_messages; truncate_error_caps_at_1kib;
   truncate_error_respects_char_boundaries; truncate_error_never_returns_invalid_utf8;
   truncate_reason_passes_short_and_caps_long; never_is_max_u64].
End TruncateTests.

(** ** [codec.rs] *)

Module CodecTests.

Definition round_trip_preserves_the_map : pure_test :=
  let headers := bmap_insert (lit "trace") (lit "t-1") [] in
  let headers := bmap_insert (lit "content-type") (lit "application/json") headers in
  bytes <-- unwrapped (encode_headers headers);
  decoded <-- unwrapped (decode_headers bytes);
  assert_eq decoded headers.

Definition empty_map_encodes_to_a_count_prefix : pure_test :=
  bytes <-- unwrapped (encode_headers []);
  _ <-- assert_eq bytes (u32_to_le_bytes 0);
  decoded <-- unwrapped (decode_headers bytes);
  assert_eq decoded [].

Definition encoding_is_deterministic : pure_test :=
  let headers := bmap_insert (lit "a") (lit "1") (bmap_insert (lit "b") (lit "2") []) in
  first <-- unwrapped (encode_headers headers);
  second <-- unwrapped (encode_headers headers);
  assert_eq first second.

Definition codec_rejects_corruption : pure_test :=
  _ <-- assert (negb (is_ok (decode_headers [0; 0])));
  _ <-- assert (negb (is_ok (decode_headers (u32_to_le_bytes 1))));
  let bytes := u32_to_le_bytes 1 ++ u32_to_le_bytes u32_max in
  _ <-- assert (negb (is_ok (decode_headers bytes)));
  let bytes := u32_to_le_bytes 1 ++ u32_to_le_bytes 4 ++ [0xFF; 0xFE; 0xFD; 0xFC]
                 ++ u32_to_le_bytes 1 ++ lit "v" in
  assert (negb (is_ok (decode_headers bytes))).

Definition all : list pure_test :=
  [round_trip_preserves_the_map; empty_map_encodes_to_a_count_prefix; encoding_is_deterministic;
   codec_rejects_corruption].
End CodecTests.

(** ** [backoff.rs], with the jitter of [Samples.v] *)

Module BackoffTests.

Definition policy : BackoffPolicy := default_policy.

Definition defaults_match_the_documented_schedule : pure_test :=
  let p := policy in
  _ <-- assert_eq (base p) (from_secs 1);
  _ <-- assert (SFeqb (factor p) f64_two);
  _ <-- assert_eq (cap p) (from_secs 600);
  assert_eq (max_attempts p) 12.

Definition exponential_schedule_doubles_then_caps : pure_test :=
  let p := policy in
  _ <-- assert_eq (exponential_delay p 0) (from_secs 1);
  _ <-- assert_eq (exponential_delay p 1) (from_secs 1);
  _ <-- assert_eq (exponential_delay p 2) (from_secs 2);
  _ <-- assert_eq (exponential_delay p 3) (from_secs 4);
  _ <-- assert_eq (exponential_delay p 4) (from_secs 8);
  _ <-- assert_eq (exponential_delay p 7) (from_secs 64);
  _ <-- assert_eq (exponential_delay p 10) (from_secs 512);
  _ <-- assert_eq (exponential_delay p 11) (from_secs 600);
  _ <-- assert_eq (exponential_delay p 12) (from_secs 600);
  assert_eq (exponential_delay p 1000) (from_secs 600).

Definition exhaustion_parks_after_max_attempts : pure_test :=
  let p := policy in
  _ <-- for_each (seqZ 0 12) (fun attempts => assert (negb (is_exhausted p attempts)));
  _ <-- assert (is_exhausted p 12);
  assert (is_exhausted p u32_max).

Definition seeded_delays_are_deterministic_and_bounded : pure_test :=
  let p := policy in
  let a := retry_delay_seeded p 3 42 in
  let b := retry_delay_seeded p 3 42 in
  _ <-- assert_eq a b;
  let bound := exponential_delay p 3 in
  _ <-- assert (a <=? bound);
  let c := retry_delay_seeded p 3 43 in
  assert_ne a c.

Definition zero_base_yields_zero_delay : pure_test :=
  let p := {| base := 0; factor := factor policy; cap := cap policy; max_attempts := max_attempts policy |} in
  assert_eq (retry_delay_seeded p 5 1) 0.

(** Two readings of the clock, a nanosecond apart. *)
Definition seeds_decorrelate_events_and_attempts : pure_test :=
  let id := now_v7 1 in
  let s1 := seed_for id test_clock in
  let s2 := seed_for id (test_clock + 1) in
  _ <-- assert_ne s1 s2;
  let other := seed_for (now_v7 2) (test_clock + 2) in
  assert_ne s1 other.

Definition mix64_is_deterministic_and_mixing : pure_test :=
  _ <-- assert_eq (mix64 u64_max) (mix64 u64_max);
  _ <-- assert_ne (mix64 1) (mix64 2);
  assert_ne (mix64 0) 0.

(** The body of the property test, for one attempt and one seed. *)
Definition schedule_monotonic_and_jitter_bounded `{JO : !JitterOps} (attempt seed : Z) : pure_test :=
  let p := default_policy in
  let prev := exponential_delay p (Z.max (attempt - 1) 0) in
  let bound := exponential_delay p attempt in
  _ <-- assert (prev <=? bound);
  _ <-- assert (bound <=? cap p);
  let jittered := retry_delay_seeded p attempt seed in
  assert (jittered <=? bound).

Lemma schedule_property `{JO : !JitterOps} `{JL : !JitterLaws} attempt seed :
  0 <= attempt <= 60 -> passes (schedule_monotonic_and_jitter_bounded attempt seed) = true.
Proof.
  intros Ha.
  assert (forallb (fun a => (exponential_delay default_policy (Z.max (a - 1) 0) <=? exponential_delay default_policy a)
    && (exponential_delay default_policy a <=? cap default_policy)) (seqZ 0 61) = true) as Hall by vm_eq.
  rewrite forallb_forall in Hall. specialize (Hall attempt).
  rewrite <- list_elem_of_In, elem_of_seqZ in Hall. specialize (Hall ltac:(lia)).
  apply andb_true_iff in Hall as [H1 H2].
  pose proof (exponential_delay_bounds default_policy attempt default_policy_wf) as [Hb _].
  assert (retry_delay_seeded default_policy attempt seed <=? exponential_delay default_policy attempt = true) as H3.
  { apply Z.leb_le. unfold retry_delay_seeded. case_match; [lia|]. by apply random_range_within. }
  unfold passes, passes_on, schedule_monotonic_and_jitter_bounded. by rewrite H1, H2, H3.
Qed.

(** The range of [proptest!]. *)
Definition property_holds : bool :=
  forallb (fun attempt => forallb (fun seed => passes (schedule_monotonic_and_jitter_bounded attempt seed))
    (seqZ 0 1000)) (seqZ 0 61).

Lemma property_test_passes : property_holds = true.
Proof.
  apply forallb_forall. intros attempt Ha%list_elem_of_In%elem_of_seqZ. apply forallb_forall. intros seed _.
  apply schedule_property. lia.
Qed.

Definition all : list pure_test :=
  [defaults_match_the_documented_schedule; exponential_schedule_doubles_then_caps;
   exhaustion_parks_after_max_attempts; seeded_delays_are_deterministic_and_bounded;
   zero_base_yields_zero_delay; seeds_decorrelate_events_and_attempts; mix64_is_deterministic_and_mixing].
End BackoffTests.

(** ** [error.rs]

    The standard library's [{:?}] puts a text of letters, digits and spaces
    between quotes, as it is. *)

Module ErrorTests.

Definition quoted (s : str) : str := [34] ++ s ++ [34].

Definition event_error_display_is_informative : pure_test :=
  let err := EInvalidTopic (lit "BAD TOPIC") in
  _ <-- assert_eq (event_error_to_string quoted err)
          (lit "invalid outbox topic " ++ [34] ++ lit "BAD TOPIC" ++ [34] ++ lit ": must match [a-z0-9_.-]{1,128}");
  let err := EInvalidId (lit "nope") in
  assert_eq (event_error_to_string quoted err)
    (lit "invalid event id " ++ [34] ++ lit "nope" ++ [34] ++ lit ": expected a hyphenated UUID string").

Definition store_error_display_is_informative : pure_test :=
  _ <-- assert_eq (store_error_to_string quoted (InvalidTopic (lit "X")))
          (lit "invalid outbox topic " ++ [34] ++ lit "X" ++ [34] ++ lit ": must match [a-z0-9_.-]{1,128}");
  assert_eq (store_error_to_string quoted (Backend (lit "disk on fire")))
    (lit "outbox store backend failure: disk on fire").

Definition dispatch_error_display_and_conversions : pure_test :=
  _ <-- assert_eq (dispatch_error_to_string (Delivery (lit "502 bad gateway")))
          (lit "delivery failed: 502 bad gateway");
  _ <-- assert_eq (dispatch_error_from (lit "boom")) (Delivery (lit "boom"));
  assert_eq (dispatch_error_from (lit "plain")) (Delivery (lit "plain")).

Definition all : list pure_test :=
  [event_error_display_is_informative; store_error_display_is_informative;
   dispatch_error_display_and_conversions].
End ErrorTests.

(** ** They pass *)

Definition core_tests : list pure_test :=
  EventTests.all ++ TruncateTests.all ++ CodecTests.all ++ BackoffTests.all ++ ErrorTests.all.

Lemma core_tests_pass : forallb passes core_tests = true.
Proof. vm_eq. Qed.
