(* ===== verification/MemoryTests.v ===== *)
(** * The unit tests of [src/src/memory.rs] *)

From S2P Require Import Prelude BTree Event Truncate Backoff HexUuid Store Memory Testing.

Import Memory.

Module MemoryTests.

Definition count (m : M Inner StoreError Z) (n : Z) : test Inner := c <-- unwrap m; assert_eq c n.
Definition none_due (limit now : Z) : test Inner := due <-- unwrap (fetch_due limit now); assert_eq due [].

(** [stamps.sort_unstable()] leaves them as they are. *)
Definition sorted_stamps (l : list Z) : test Inner := assert_eq l (sort_by (fun t => t) l).

Definition append_is_idempotent_on_id : test Inner :=
  e <-- event 1 (lit "orders") 1000;
  _ <-- unwrap (append e);
  _ <-- unwrap (append e);
  let e := set_attempts 99 e in
  _ <-- unwrap (append e);
  _ <-- count pending_count 1;
  n <-- peek mem_len;
  assert_eq n 1.

Definition append_after_dispatch_is_also_ignored : test Inner :=
  e <-- event 1 (lit "orders") 1000;
  _ <-- unwrap (append e);
  _ <-- unwrap (mark_dispatched (ev_id e));
  _ <-- unwrap (append e);
  _ <-- count pending_count 0;
  n <-- peek mem_len;
  assert_eq n 1.

Definition append_rejects_invalid_topic : test Inner :=
  e <-- event 1 (lit "orders") 1000;
  let e := set_topic (lit "BAD") e in
  err <-- unwrap_err (append e);
  _ <-- assert_eq err (InvalidTopic (lit "BAD"));
  b <-- peek is_empty;
  assert b.

Definition fetch_due_orders_and_filters : test Inner :=
  _ <-- for_each [(1, 3000); (2, 1000); (3, 2000)] (fun p =>
          e <-- event p.1 (lit "orders") p.2; unwrap (append e));
  future <-- event 4 (lit "orders") (u64_max - 1);
  _ <-- unwrap (append future);
  _ <-- none_due 10 999;
  due <-- unwrap (fetch_due 2 2000);
  _ <-- assert_eq (len due) 2;
  _ <-- assert (match due with a :: b :: _ => ev_created_at a <=? ev_created_at b | _ => true end);
  due <-- unwrap (fetch_due 10 3000);
  _ <-- assert_eq (len due) 3;
  sorted_stamps (ev_created_at <$> due).

(** [now_v7] ids come in order, so there is nothing to swap. *)
Definition fetch_due_is_deterministic_on_id_ties : test Inner :=
  first <-- event 1 (lit "orders") 5000;
  second <-- event 2 (lit "orders") 5000;
  let '(first, second) := if ltb (ev_id second) (ev_id first) then (second, first) else (first, second) in
  _ <-- unwrap (append second);
  _ <-- unwrap (append first);
  due <-- unwrap (fetch_due 10 5000);
  _ <-- assert_eq (ev_id <$> due !! 0%nat) (Some (ev_id first));
  assert_eq (ev_id <$> due !! 1%nat) (Some (ev_id second)).

Definition mark_failed_increments_and_reschedules : test Inner :=
  e <-- event 1 (lit "orders") 1000;
  _ <-- unwrap (append e);
  _ <-- unwrap (mark_failed (ev_id e) (lit "first boom") 2000);
  due <-- unwrap (fetch_due 10 2000);
  first <-- some (head due);
  _ <-- assert_eq (ev_attempts first) 1;
  _ <-- assert_eq (ev_last_error first) (Some (lit "first boom"));
  _ <-- unwrap (mark_failed (ev_id e) (lit "second boom") 3000);
  _ <-- none_due 10 2500;
  count pending_count 1.

Definition mark_failed_truncates_errors : test Inner :=
  e <-- event 1 (lit "orders") 1000;
  _ <-- unwrap (append e);
  _ <-- unwrap (mark_failed (ev_id e) (str_repeat (lit "x") 4096) 2000);
  due <-- unwrap (fetch_due 10 2000);
  assert_eq (e ← head due; len <$> ev_last_error e) (Some 1024).

Definition mark_never_parks : test Inner :=
  e <-- event 1 (lit "orders") 1000;
  _ <-- unwrap (append e);
  _ <-- unwrap (mark_failed (ev_id e) (lit "giving up") NEVER);
  _ <-- count pending_count 0;
  _ <-- count parked_count 1;
  _ <-- none_due 10 u64_max;
  _ <-- unwrap (mark_failed (ev_id e) (lit "still parked") NEVER);
  _ <-- count parked_count 1;
  slots <-- peek events;
  slot <-- some (slots !! ev_id e);
  _ <-- assert_eq (ev_attempts slot.2) 2;
  assert_eq (ev_last_error slot.2) (Some (lit "still parked")).

Definition mark_dispatched_is_terminal : test Inner :=
  e <-- event 1 (lit "orders") 1000;
  _ <-- unwrap (append e);
  _ <-- unwrap (mark_dispatched (ev_id e));
  _ <-- none_due 10 u64_max;
  _ <-- count pending_count 0;
  _ <-- count parked_count 0;
  _ <-- unwrap (mark_failed (ev_id e) (lit "late") 2000);
  count pending_count 0.

Definition unknown_ids_are_no_ops : test Inner :=
  let ghost := now_v7 1 in
  _ <-- unwrap (mark_dispatched ghost);
  _ <-- unwrap (mark_failed ghost (lit "ghost") 2000);
  _ <-- count pending_count 0;
  _ <-- count parked_count 0;
  _ <-- none_due 10 u64_max;
  n <-- peek mem_len;
  assert_eq n 1.

Definition counts_track_lifecycle : test Inner :=
  a <-- event 1 (lit "orders") 1000;
  b <-- event 2 (lit "orders") 1000;
  c <-- event 3 (lit "orders") 1000;
  _ <-- for_each [a; b; c] (fun e => unwrap (append e));
  _ <-- count pending_count 3;
  _ <-- count parked_count 0;
  _ <-- unwrap (mark_dispatched (ev_id a));
  _ <-- count pending_count 2;
  _ <-- unwrap (mark_failed (ev_id b) (lit "retrying") 5000);
  _ <-- count pending_count 2;
  _ <-- unwrap (mark_failed (ev_id c) (lit "parked") NEVER);
  _ <-- count pending_count 1;
  count parked_count 1.

Definition default_is_empty : test Inner :=
  b <-- peek is_empty;
  _ <-- assert b;
  n <-- peek mem_len;
  assert_eq n 0.

Definition fetch_due_respects_zero_limit : test Inner :=
  e <-- event 1 (lit "orders") 1000;
  _ <-- unwrap (append e);
  none_due 0 u64_max.

(** Each starts from [MemoryStore::new()]. *)
Definition all : list (test Inner) :=
  [append_is_idempotent_on_id; append_after_dispatch_is_also_ignored; append_rejects_invalid_topic;
   fetch_due_orders_and_filters; fetch_due_is_deterministic_on_id_ties;
   mark_failed_increments_and_reschedules; mark_failed_truncates_errors; mark_never_parks;
   mark_dispatched_is_terminal; unknown_ids_are_no_ops; counts_track_lifecycle; default_is_empty;
   fetch_due_respects_zero_limit].

Lemma memory_tests_pass : forallb (passes_on new) all = true.
Proof. vm_eq. Qed.
End MemoryTests.
