(* ===== verification/SqliteTests.v ===== *)
(** * The unit tests of [src/src/sqlite/mod.rs]

    Without [wal_mode_is_reported], which reads back a pragma. *)

From S2P Require Import Prelude BTree Event Truncate Codec Backoff HexUuid Store Sql SqlTable Samples Sqlite Testing.

Import Sqlite.

Module SqliteTests.

Abbreviation db := (Conn Tables).

Definition count (m : M db StoreError Z) (n : Z) : test db := c <-- unwrap m; assert_eq c n.
Definition none_due (limit now : Z) : test db := due <-- unwrap (fetch_due limit now); assert_eq due [].
Definition row_of (i : EventId) : M db panic (option Row) :=
  peek (fun c => outbox_events (tables c) !! event_id_to_string i).

(** [SqliteStore::open(&path)] on the file the test has been working on. *)
Definition reopen : test db := fun c =>
  match open (Ok (mkConn (file_of (tables c)) [])) with
  | Ok c' => (c', Ok tt)
  | Err _ => (c, Err Panicked)
  end.

Definition append_is_idempotent_on_id : test db :=
  e <-- event 1 (lit "orders") 1000;
  _ <-- unwrap (append e);
  _ <-- unwrap (append e);
  let e := set_attempts 42 e in
  _ <-- unwrap (append e);
  _ <-- count pending_count 1;
  row <-- row_of (ev_id e);
  row <-- some row;
  _ <-- assert_eq (r_attempts row) 0;
  assert_eq (r_topic row) (lit "orders").

Definition append_rejects_invalid_topic : test db :=
  e <-- event 1 (lit "orders") 1000;
  let e := set_topic (lit "BAD") e in
  err <-- unwrap_err (append e);
  _ <-- assert_eq err (InvalidTopic (lit "BAD"));
  count pending_count 0.

Definition fetch_due_orders_and_filters : test db :=
  _ <-- for_each [(1, 3000); (2, 1000); (3, 2000); (4, u64_max - 1)] (fun p =>
          e <-- event p.1 (lit "orders") p.2; unwrap (append e));
  _ <-- none_due 10 999;
  due <-- unwrap (fetch_due 2 2000);
  _ <-- assert_eq (len due) 2;
  due <-- unwrap (fetch_due 10 3000);
  _ <-- assert_eq (len due) 3;
  let stamps := ev_created_at <$> due in
  assert_eq stamps (sort_by (fun t => t) stamps).

Definition headers_round_trip_deterministically : test db :=
  a <-- event 1 (lit "orders") 1000;
  let a := insert_header (lit "trace") (lit "t-1") a in
  let a := insert_header (lit "content-type") (lit "application/json") a in
  _ <-- unwrap (append a);
  due <-- unwrap (fetch_due 10 2000);
  first <-- some (head due);
  _ <-- assert_eq (ev_headers first) (ev_headers a);
  h <-- unwrapped (encode_headers (ev_headers first));
  h' <-- unwrapped (encode_headers (ev_headers a));
  assert_eq h h'.

Definition migration_adds_the_dead_letter_table_and_is_idempotent : test db :=
  e <-- event 1 (lit "orders") 1000;
  _ <-- unwrap (append e);
  _ <-- reopen;
  file <-- peek (fun c => file_of (tables c));
  _ <-- some (file_events file);
  _ <-- some (file_letters file);
  count pending_count 1.

Definition dead_letter_moves_the_event_out_of_the_dispatch_path : test db :=
  let reason := lit "queue does not exist; rerouted to support" in
  e <-- event 1 (lit "orders") 1000;
  let e := insert_header (lit "trace") (lit "t-9") e in
  let e := set_attempts 3 e in
  let e := set_last_error (Some (lit "kept from the live row's history")) e in
  _ <-- unwrap (append e);
  _ <-- unwrap (mark_failed (ev_id e) (lit "parked first") NEVER);
  _ <-- unwrap (dead_letter test_clock e reason);
  _ <-- count pending_count 0;
  _ <-- count parked_count 0;
  _ <-- none_due 10 u64_max;
  row <-- row_of (ev_id e);
  _ <-- assert (negb (bool_decide (is_Some row)));
  letters <-- unwrap (dead_letters 10);
  _ <-- assert_eq (len letters) 1;
  letter <-- some (head letters);
  _ <-- assert_eq (ev_id letter.1) (ev_id e);
  _ <-- assert_eq (ev_topic letter.1) (ev_topic e);
  _ <-- assert_eq (ev_headers letter.1) (ev_headers e);
  _ <-- assert_eq (ev_attempts letter.1) 3;
  assert_eq letter.2 reason.

Definition dead_letter_of_an_unknown_id_still_records : test db :=
  e <-- event 1 (lit "orders") 1000;
  _ <-- unwrap (dead_letter test_clock e (lit "never lived in the outbox"));
  letters <-- unwrap (dead_letters 10);
  _ <-- assert_eq (len letters) 1;
  letter <-- some (head letters);
  _ <-- assert_eq (ev_id letter.1) (ev_id e);
  count pending_count 0.

Definition re_lettering_the_same_id_overwrites : test db :=
  e <-- event 1 (lit "orders") 1000;
  _ <-- unwrap (dead_letter test_clock e (lit "first take"));
  _ <-- unwrap (dead_letter test_clock e (lit "second take"));
  letters <-- unwrap (dead_letters 10);
  _ <-- assert_eq (len letters) 1;
  letter <-- some (head letters);
  assert_eq letter.2 (lit "second take").

(** Both letters of the same millisecond. *)
Definition dead_letters_order_and_limit : test db :=
  a <-- event 1 (lit "orders") 1000;
  b <-- event 2 (lit "orders") 2000;
  _ <-- unwrap (dead_letter test_clock b (lit "second"));
  _ <-- unwrap (dead_letter test_clock a (lit "first"));
  rows <-- peek (fun c => sort_by letter_key (map_to_list (outbox_dead_letters (tables c))).*2);
  let stamped := (fun r => (l_id r, l_reason r)) <$> rows in
  _ <-- assert_eq (len stamped) 2;
  letters <-- unwrap (dead_letters 1);
  _ <-- assert_eq (len letters) 1;
  _ <-- assert_eq (snd <$> head letters) (snd <$> head stamped);
  both <-- unwrap (dead_letters 10);
  _ <-- assert_eq (len both) 2;
  let reasons := both.*2 in
  let expected := stamped.*2 in
  assert_eq reasons expected.

Definition dead_letter_truncates_pathological_reasons : test db :=
  e <-- event 1 (lit "orders") 1000;
  _ <-- unwrap (dead_letter test_clock e (str_repeat (lit "z") 4096));
  letters <-- unwrap (dead_letters 10);
  letter <-- some (head letters);
  assert_eq (len letter.2) MAX_REASON_BYTES.

Definition dead_letter_rejects_invalid_topic : test db :=
  e <-- event 1 (lit "orders") 1000;
  let e := set_topic (lit "BAD") e in
  err <-- unwrap_err (dead_letter test_clock e (lit "nope"));
  _ <-- assert_eq err (InvalidTopic (lit "BAD"));
  letters <-- unwrap (dead_letters 10);
  assert_eq letters [].

Definition dispatch_never_auto_dead_letters : test db :=
  e <-- event 1 (lit "orders") 1000;
  _ <-- unwrap (append e);
  _ <-- unwrap (mark_failed (ev_id e) (lit "exhausted") NEVER);
  _ <-- count parked_count 1;
  letters <-- unwrap (dead_letters 10);
  assert_eq letters [].

Definition mark_failed_increments_and_reschedules : test db :=
  e <-- event 1 (lit "orders") 1000;
  _ <-- unwrap (append e);
  _ <-- unwrap (mark_failed (ev_id e) (str_repeat e_acute 2048) 2000);
  due <-- unwrap (fetch_due 10 2000);
  first <-- some (head due);
  _ <-- assert_eq (ev_attempts first) 1;
  _ <-- assert_eq (len <$> ev_last_error first) (Some 1024);
  _ <-- unwrap (mark_failed (ev_id e) (lit "second") 3000);
  _ <-- none_due 10 2500;
  count pending_count 1.

Definition mark_never_parks : test db :=
  e <-- event 1 (lit "orders") 1000;
  _ <-- unwrap (append e);
  _ <-- unwrap (mark_failed (ev_id e) (lit "giving up") NEVER);
  _ <-- count pending_count 0;
  _ <-- count parked_count 1;
  none_due 10 u64_max.

Definition mark_dispatched_is_terminal_and_retained : test db :=
  e <-- event 1 (lit "orders") 1000;
  _ <-- unwrap (append e);
  _ <-- unwrap (mark_dispatched test_clock (ev_id e));
  _ <-- none_due 10 u64_max;
  _ <-- count pending_count 0;
  _ <-- count parked_count 0;
  row <-- row_of (ev_id e);
  row <-- some row;
  dispatched_at <-- some (r_dispatched_at row);
  _ <-- assert (0 <? dispatched_at);
  _ <-- unwrap (mark_dispatched test_clock (ev_id e));
  _ <-- unwrap (mark_failed (ev_id e) (lit "late") 2000);
  count pending_count 0.

Definition unknown_ids_are_no_ops : test db :=
  let ghost := now_v7 1 in
  _ <-- unwrap (mark_dispatched test_clock ghost);
  _ <-- unwrap (mark_failed ghost (lit "ghost") 2000);
  _ <-- count pending_count 0;
  count parked_count 0.

Definition counts_track_lifecycle : test db :=
  a <-- event 1 (lit "orders") 1000;
  b <-- event 2 (lit "orders") 1000;
  c <-- event 3 (lit "orders") 1000;
  _ <-- for_each [a; b; c] (fun e => unwrap (append e));
  _ <-- count pending_count 3;
  _ <-- count parked_count 0;
  _ <-- unwrap (mark_dispatched test_clock (ev_id a));
  _ <-- count pending_count 2;
  _ <-- unwrap (mark_failed (ev_id b) (lit "retrying") 5000);
  _ <-- count pending_count 2;
  _ <-- unwrap (mark_failed (ev_id c) (lit "parked") NEVER);
  _ <-- count pending_count 1;
  count parked_count 1.

Definition persistence_across_reopen : test db :=
  e <-- event 1 (lit "orders") 1000;
  _ <-- unwrap (append e);
  _ <-- reopen;
  _ <-- count pending_count 1;
  due <-- unwrap (fetch_due 10 2000);
  assert_eq (ev_id <$> head due) (Some (ev_id e)).

(** What the driver says of a path that cannot be written. *)
Definition open_rejects_unwritable_path : test db :=
  err <-- unwrapped_err (open (Err (lit "unable to open database file")));
  assert (match err with Backend _ => true | _ => false end).

(** [codec.rs] has a test of its own on this store. *)
Definition round_trip_through_the_store_contract : test db :=
  e <-- unwrapped (new_nth 1 (lit "orders") (lit "payload"));
  let e := insert_header (lit "k") (lit "v") e in
  _ <-- unwrap (append e);
  due <-- unwrap (fetch_due 10 u64_max);
  first <-- some (head due);
  assert_eq (ev_headers first) (ev_headers e).

(** Each starts from [SqliteStore::open_in_memory().unwrap()]. *)
Definition runs (t : test db) : bool :=
  match open_in_memory (Ok []) with Ok c => passes_on c t | Err _ => false end.

Definition all : list (test db) :=
  [append_is_idempotent_on_id; append_rejects_invalid_topic; fetch_due_orders_and_filters;
   headers_round_trip_deterministically; migration_adds_the_dead_letter_table_and_is_idempotent;
   dead_letter_moves_the_event_out_of_the_dispatch_path; dead_letter_of_an_unknown_id_still_records;
   re_lettering_the_same_id_overwrites; dead_letters_order_and_limit;
   dead_letter_truncates_pathological_reasons; dead_letter_rejects_invalid_topic;
   dispatch_never_auto_dead_letters; mark_failed_increments_and_reschedules; mark_never_parks;
   mark_dispatched_is_terminal_and_retained; unknown_ids_are_no_ops; counts_track_lifecycle;
   persistence_across_reopen; open_rejects_unwritable_path; round_trip_through_the_store_contract].

Lemma sqlite_tests_pass : forallb runs all = true.
Proof. vm_eq. Qed.
End SqliteTests.
