(* ===== verification/PostgresTests.v ===== *)
(** * The unit tests of [src/src/postgres/mod.rs]

    Those of its functions; the other two look for clauses in the SQL text,
    which is a definition here. *)

From S2P Require Import Prelude BTree Event Codec Backoff HexUuid Store Sql SqlTable Testing.

Module PostgresTests.

Definition never_clamps_to_the_parked_ceiling : pure_test :=
  _ <-- assert_eq (clamp_i64 u64_max) PARKED_AS_I64;
  _ <-- assert_eq (clamp_i64 1000) 1000;
  _ <-- assert_eq (unclamp_u64 1000) 1000;
  assert_eq (unclamp_u64 i64_max) i64_max.

(** [m.contains(..)], of a text that begins with it. *)
Definition event_row_decode_rejects_corrupt_ids : pure_test :=
  headers <-- unwrapped (encode_headers []);
  err <-- unwrapped_err (event_from_row (lit "not-a-uuid") (lit "orders") (lit "p") headers 0 0 None);
  assert (match err with
          | Backend m => bool_decide (take 16 m = lit "corrupt event id")
          | _ => false
          end).

Definition all : list pure_test :=
  [never_clamps_to_the_parked_ceiling; event_row_decode_rejects_corrupt_ids].

Lemma postgres_tests_pass : forallb passes all = true.
Proof. vm_eq. Qed.
End PostgresTests.
