(* ===== verification/DispatchTests.v ===== *)
(** * The unit tests of [src/src/dispatch.rs]

    A test that spawns [run] and waits for the store is executed by [Driver.v];
    its deadline is the number of ticks that fit in it.  The circuit breaker,
    which is not the program's, admits every send here; [BreakerTests.v] has the
    two tests of a tripped breaker. *)

From S2P Require Import Prelude BTree Event Truncate Backoff Float HexUuid Store Memory Metrics Dispatch Driver.
From S2P Require Import Samples Testing.

Import Memory Dispatch.

Module DispatchTests.

#[local] Instance admits_all : BreakerOps := {|
  CircuitBreakerConfig := unit;
  CircuitBreaker := unit;
  standard := tt;
  breaker_new := fun _ => tt;
  admission := fun _ b => (b, None);
  settle := fun _ _ b => b
|}.

Definition due_event (n : Z) : M unit panic OutboxEvent :=
  e <-- unwrapped (new_nth n (lit "orders") (lit "payload"));
  mret (set_created_at 0 e).

Definition cfg (poll : Z) : DispatcherConfig :=
  mkConfig poll (mkFetchBatch 10 10 u32_max) 4
    {| base := from_millis 10; factor := f64_two; cap := from_millis 50; max_attempts := 3 |} tt.

Definition cfg_with_probe_headroom (poll : Z) : DispatcherConfig :=
  let config := cfg poll in
  mkConfig (poll_interval config) (fetch_batch config) (concurrency config)
    {| base := base (backoff config); factor := factor (backoff config);
       cap := cap (backoff config); max_attempts := 5 |} (breaker_config config).

(** [static_sender(|event| ..)]. *)
Definition static_sender (f : OutboxEvent -> result unit DispatchError) (n : nat) (e : OutboxEvent) : sent :=
  match f e with Ok _ => SentOk | Err err => SentErr err end.

(** The ticks of a dispatcher with this poll interval before the deadline. *)
Definition ticks_within (deadline : Z) (c : DispatcherConfig) : list Tick :=
  let period := effective_poll_interval c in
  (fun i => let t := test_clock + i * period in (t, mkClocks t t t 0)) <$> seqZ 0 (deadline / period).

(** [with_config], [run] spawned, the loop that waits for [wished], then
    [shutdown] and the end of [run]: the store left, and what was sent. *)
Definition run_until {S} `{!OutboxStore S} (wished : S -> bool) (deadline : Z) (c : DispatcherConfig)
    (sender : nat -> OutboxEvent -> sent) (s : S) : M unit panic (S * list OutboxEvent) :=
  st <-- some (drive_until c sender (fun st => wished (store st.1)) (ticks_within deadline c) (start c s ∅ ∅ ∅, no_log));
  let w := stop st.1.1 in
  _ <-- assert (match at_ w with Returned => true | _ => false end);
  mret (store w, rev (handed st.1.2)).

Definition pending (s : Inner) (n : Z) : bool := bool_decide ((pending_count s).2 = Ok n).

Definition appended_to_new (es : list OutboxEvent) : M unit panic Inner := fun u =>
  match for_each es (fun e => unwrap (append e)) Memory.new with
  | (s, Ok _) => (u, Ok s)
  | (_, Err p) => (u, Err p)
  end.

Definition success_marks_dispatched : pure_test :=
  e <-- due_event 1;
  store <-- appended_to_new [e];
  let sender := static_sender (fun _ => Ok tt) in
  out <-- run_until (fun s => pending s 0) (from_secs 2) (cfg (from_millis 20)) sender store;
  assert (pending out.1 0).

Definition failure_increments_attempts_then_parks : pure_test :=
  e <-- due_event 1;
  store <-- appended_to_new [e];
  let sender := static_sender (fun _ => Err (Delivery (lit "down"))) in
  out <-- run_until (fun s => negb (bool_decide ((parked_count s).2 = Ok 0))) (from_secs 5)
            (cfg (from_millis 20)) sender store;
  _ <-- assert_eq (len out.2) 3;
  _ <-- assert (pending out.1 0);
  due <-- unwrapped (fetch_due 10 u64_max out.1).2;
  assert_eq due [].

Definition shutdown_is_idempotent_and_observable : pure_test :=
  let dispatcher := start default_config Memory.new ∅ ∅ ∅ in
  _ <-- assert (negb (shutting_down dispatcher));
  let dispatcher := shutdown (shutdown dispatcher) in
  assert (shutting_down dispatcher).

(** [FailingStore]. *)
Inductive FailingStore := failing_store.

Definition nope {A} : M FailingStore StoreError A := mfail (Backend (lit "nope")).

#[local] Instance FailingStore_store : OutboxStore FailingStore := {|
  Store.append _ := nope;
  Store.fetch_due _ _ := nope;
  Store.mark_dispatched _ _ := nope;
  Store.mark_failed _ _ _ := nope;
  Store.pending_count := nope;
  Store.parked_count := nope;
  Store.dead_letter := default_dead_letter;
  Store.dead_letters := default_dead_letters
|}.

(** Eighty milliseconds of ticks, every poll an error. *)
Definition store_errors_are_tolerated_between_ticks : pure_test :=
  let c := cfg (from_millis 10) in
  let sender := static_sender (fun _ => Ok tt) in
  let w := (drive c sender (ticks_within (from_millis 80) c) (start c failing_store ∅ ∅ ∅, no_log)).1 in
  _ <-- assert (match at_ w with Selecting => true | _ => false end);
  assert (match at_ (stop w) with Returned => true | _ => false end).

Definition sender_receives_the_envelope_intact : pure_test :=
  e <-- due_event 1;
  let e := insert_header (lit "trace") (lit "t-1") e in
  store <-- appended_to_new [e];
  let sender := static_sender (fun _ => Ok tt) in
  out <-- run_until (fun s => pending s 0) (from_secs 2) (cfg (from_millis 15)) sender store;
  let seen := (fun event => (ev_topic event, default [] (bmap_get (lit "trace") (ev_headers event)),
                             ev_payload event)) <$> out.2 in
  _ <-- assert_eq (len seen) 1;
  first <-- some (head seen);
  _ <-- assert_eq first.1.1 (lit "orders");
  _ <-- assert_eq first.1.2 (lit "t-1");
  assert_eq first.2 (lit "payload").

Definition fetch_batch_saturation_clamps : pure_test :=
  let batch := saturated (mkFetchBatch 0 0 0) in
  _ <-- assert_eq (fb_min batch) 1;
  _ <-- assert_eq (fb_max batch) 1;
  _ <-- assert_eq (fb_park_after batch) 1;
  let inverted := saturated (mkFetchBatch 50 10 60) in
  _ <-- assert_eq (fb_max inverted) 50;
  assert_eq (fb_min inverted) 50.

Definition fetch_batch_grows_on_full_and_resets_on_partial : pure_test :=
  let batch := mkFetchBatch 10 100 60 in
  _ <-- assert_eq (next_size batch 10 10) 20;
  _ <-- assert_eq (next_size batch 20 20) 40;
  _ <-- assert_eq (next_size batch 80 80) 100;
  _ <-- assert_eq (next_size batch 100 100) 100;
  _ <-- assert_eq (next_size batch 40 39) 10;
  _ <-- assert_eq (next_size batch 40 0) 10;
  assert_eq (next_size batch 5 0) 10.

Definition fetch_batch_idle_parking_threshold : pure_test :=
  let batch := mkFetchBatch 10 100 60 in
  _ <-- assert (negb (is_idle_parked batch 0));
  _ <-- assert (negb (is_idle_parked batch 59));
  _ <-- assert (is_idle_parked batch 60);
  _ <-- assert (is_idle_parked batch 61);
  assert (is_idle_parked (mkFetchBatch (fb_min batch) (fb_max batch) 1) 1).

Definition fetch_batch_defaults_track_the_documented_values : pure_test :=
  let batch := default_fetch_batch in
  _ <-- assert_eq (fb_min batch) DEFAULT_BATCH_MIN;
  _ <-- assert_eq (fb_max batch) DEFAULT_BATCH_SIZE;
  assert_eq (fb_park_after batch) DEFAULT_IDLE_PARK_AFTER.

(** The wait is for the twenty-fifth delivery; a send that is accepted is
    recorded in the same tick, so the store tells. *)
Definition adaptive_batch_drains_a_backlog : pure_test :=
  e <-- due_event 1;
  let backlog := (fun i => mkEvent (now_v7 (i + 1)) (ev_topic e) [i mod 256; (i / 256) mod 256; 0; 0]
                             (ev_headers e) 0 0 None) <$> seqZ 0 25 in
  store <-- appended_to_new backlog;
  let sender := static_sender (fun _ => Ok tt) in
  let headroom := cfg_with_probe_headroom (from_millis 5) in
  let config := mkConfig (from_millis 5) (mkFetchBatch 5 100 u32_max) (concurrency headroom)
                  (backoff headroom) (breaker_config headroom) in
  out <-- run_until (fun s => bool_decide (size (dispatched s) = 25%nat)) (from_secs 5) config sender store;
  _ <-- assert_eq (len out.2) 25;
  assert (pending out.1 0).

(** [metrics.rs] *)
Definition result_labels_are_the_documented_values : pure_test :=
  _ <-- assert_eq RESULT_SUCCESS (lit "success");
  _ <-- assert_eq RESULT_FAILURE (lit "failure");
  assert_eq RESULT_BREAKER_PAUSED (lit "breaker-paused").

Definition all : list pure_test :=
  [success_marks_dispatched; failure_increments_attempts_then_parks; shutdown_is_idempotent_and_observable;
   store_errors_are_tolerated_between_ticks; sender_receives_the_envelope_intact;
   fetch_batch_saturation_clamps; fetch_batch_grows_on_full_and_resets_on_partial;
   fetch_batch_idle_parking_threshold; fetch_batch_defaults_track_the_documented_values;
   adaptive_batch_drains_a_backlog; result_labels_are_the_documented_values].

Lemma dispatch_tests_pass : forallb passes all = true.
Proof. vm_eq. Qed.
End DispatchTests.
