(* ===== verification/BreakerTests.v ===== *)
(** * The tests of a tripped breaker, and of the exported metrics

    [breaker_opens_then_half_opens_after_cooldown] and
    [open_breaker_does_not_consume_attempts] of [dispatch.rs],
    [dispatcher_breaker_opens_and_half_opens] of [tests/integration.rs] and
    [tests/metrics_dispatch.rs].  The breaker is [StreakBreaker]; where a test
    searches the rendered text for a series "with at least one occurrence", the
    series is read from the registry. *)

From S2P Require Import Prelude BTree Event Truncate Backoff Float HexUuid Store Memory Metrics Dispatch Observe Outage Driver.
From S2P Require Import Samples Testing.

Import Memory Dispatch.
#[local] Existing Instance StreakBreaker.streak_breaker.

Module BreakerTests.

Abbreviation Config := StreakBreaker.Config.

(** ** A dispatcher that a test spawned

    Its world and log, and the ticks to come; a test waits, sleeps, and uses the
    store meanwhile. *)
Record Runner := mkRunner { world : World Inner; log : Log; ahead : list Tick }.

Section runner.
Context (c : DispatcherConfig) (sender : nat -> OutboxEvent -> sent).

Definition period : Z := effective_poll_interval c.

(** [with_config] on a new store, [run] spawned; [span] is the time the whole
    test may take. *)
Definition spawn (span : Z) : Runner :=
  mkRunner (start c Memory.new ∅ ∅ ∅) no_log
    ((fun i => let t := test_clock + i * period in (t, mkClocks t t t 0)) <$> seqZ 0 (span / period)).

Definition on_store {A} (m : M Inner panic A) : M Runner panic A := fun r =>
  match m (store (world r)) with
  | (s, out) => (mkRunner (set_store s (world r)) (log r) (ahead r), out)
  end.

(** [while !wished { assert!(now < deadline); sleep }]. *)
Definition wait_for (wished : World Inner -> Log -> bool) (within : Z) : test Runner := fun r =>
  let n := Z.to_nat (within / period) in
  match drive_until c sender (fun st => wished st.1 st.2) (take n (ahead r)) (world r, log r) with
  | Some (st, rest) => (mkRunner st.1 st.2 (rest ++ drop n (ahead r)), Ok tt)
  | None => (r, Err Panicked)
  end.

Definition sleep (d : Z) : test Runner := fun r =>
  let n := Z.to_nat (d / period) in
  let st := drive c sender (take n (ahead r)) (world r, log r) in
  (mkRunner st.1 st.2 (drop n (ahead r)), Ok tt).

(** [SystemTime::now()] of the test. *)
Definition clock : M Runner panic Z := t <-- peek (fun r => head (ahead r)); t <-- some t; mret t.1.

(** [dispatcher.shutdown(); runner.await]. *)
Definition join : test Runner :=
  w <-- peek world; assert (match at_ (stop w) with Returned => true | _ => false end).
End runner.

Definition is_open (b : CircuitBreaker) : bool :=
  match StreakBreaker.b_state b with StreakBreaker.SOpen _ => true | _ => false end.
Definition is_closed (b : CircuitBreaker) : bool :=
  match StreakBreaker.b_state b with StreakBreaker.SClosed _ => true | _ => false end.

(** [calls.load()]. *)
Definition calls (r : Runner) : Z := len (handed (log r)).

(** Fails its first calls, then accepts. *)
Definition fails_first (k : nat) (n : nat) (e : OutboxEvent) : sent :=
  if (n <? k)%nat then SentErr (Delivery (lit "failure " ++ [Z.of_nat n + 48])) else SentOk.

Definition pending_is_zero (w : World Inner) (_ : Log) : bool :=
  match (pending_count (store w)).2 with Ok n => n =? 0 | Err _ => false end.
Definition one_parked (w : World Inner) (_ : Log) : bool :=
  match (parked_count (store w)).2 with Ok n => 1 <=? n | Err _ => false end.
Definition breaker_open (w : World Inner) (_ : Log) : bool := is_open (breaker w).

(** ** [dispatch.rs] *)

Definition tiny_breaker (cooldown : Z) : Config := StreakBreaker.mkBreakerConfig 3 cooldown 1 1.

Definition cfg (poll : Z) (attempts : Z) (b : Config) : DispatcherConfig :=
  mkConfig poll (mkFetchBatch 10 10 u32_max) 4
    {| base := from_millis 10; factor := f64_two; cap := from_millis 50; max_attempts := attempts |} b.

(** Trips on three failures, half-opens after the wait, closes on the probe. *)
Definition opens_and_half_opens (c : DispatcherConfig) : test Runner :=
  let sender := fails_first 3 in
  e <-- event 1 (lit "orders") 0;
  _ <-- on_store (unwrap (append e));
  _ <-- wait_for c sender breaker_open (from_secs 5);
  b <-- peek (fun r => breaker (world r));
  _ <-- assert_eq (StreakBreaker.total_failures b) 3;
  _ <-- wait_for c sender pending_is_zero (from_secs 5);
  b <-- peek (fun r => breaker (world r));
  _ <-- assert (is_closed b);
  sends <-- peek calls;
  _ <-- assert (bool_decide (3 <= sends <= 5));
  join.

Definition breaker_opens_then_half_opens_after_cooldown : bool :=
  let c := cfg (from_millis 15) 5 (tiny_breaker (from_millis 150)) in
  passes_on (spawn c (from_secs 10)) (opens_and_half_opens c).

Definition open_breaker_does_not_consume_attempts : bool :=
  let c := cfg (from_millis 15) 3 (tiny_breaker (from_millis 400)) in
  let sender _ _ := SentErr (Delivery (lit "down")) in
  passes_on (spawn c (from_secs 12)) (
    e <-- event 1 (lit "orders") 0;
    _ <-- on_store (unwrap (append e));
    _ <-- wait_for c sender one_parked (from_secs 5);
    b <-- peek (fun r => breaker (world r));
    _ <-- assert (is_open b);
    now <-- clock;
    _ <-- on_store (unwrap (mark_failed (ev_id e) (lit "re-arm") (now_millis now)));
    rearmed <-- on_store (unwrap (fetch_due 10 u64_max));
    first <-- some (head rearmed);
    let attempts_on_rearm := ev_attempts first in
    _ <-- sleep c sender (from_millis 150);
    b <-- peek (fun r => breaker (world r));
    _ <-- assert (is_open b);
    n <-- peek calls;
    _ <-- assert_eq n 3;
    due <-- on_store (unwrap (fetch_due 10 u64_max));
    _ <-- assert_eq (len due) 1;
    _ <-- assert_eq (ev_attempts <$> head due) (Some attempts_on_rearm);
    _ <-- wait_for c sender (fun w log => (3 <? len (handed log)) && is_open (breaker w)) (from_secs 5);
    n <-- peek calls;
    _ <-- assert_eq n 4;
    n <-- on_store (unwrap parked_count);
    _ <-- assert_eq n 1;
    join).

(** ** [tests/integration.rs] *)

Definition dispatcher_breaker_opens_and_half_opens : bool :=
  let c := mkConfig (from_millis 10) default_fetch_batch DEFAULT_CONCURRENCY
    {| base := from_millis 5; factor := f64_two; cap := from_millis 20; max_attempts := 5 |}
    (tiny_breaker (from_millis 200)) in
  passes_on (spawn c (from_secs 10)) (opens_and_half_opens c).

(** ** [tests/metrics_dispatch.rs] *)

#[local] Existing Instance numbered_kit.

Definition fast_config (b : Config) : DispatcherConfig :=
  mkConfig (from_millis 10) (mkFetchBatch 10 10 u32_max) DEFAULT_CONCURRENCY
    {| base := from_millis 5; factor := f64_two; cap := from_millis 20; max_attempts := 3 |} b.
Definition never_trips : Config := StreakBreaker.mkBreakerConfig u32_max (from_millis 50) 1 1.

(** The registry the emissions of the run reach, and a series of it. *)
Definition exported (r : Runner) : Registry := registry (emit_all (noted (log r)) (metrics (mkProcess reg0 None)).1).
Definition occurs (d : DispatchResult) (r : Runner) : bool := 1 <=? counter_value (series handles d) (exported r).

Definition success_dispatch_emits_the_success_counter_and_histogram : bool :=
  let c := fast_config never_trips in
  let sender _ _ := SentOk in
  passes_on (spawn c (from_secs 5)) (
    e <-- event 1 (lit "orders") 0;
    _ <-- on_store (unwrap (append e));
    _ <-- wait_for c sender (fun _ log => 1 <=? len (handed log)) (from_secs 5);
    _ <-- join;
    ok <-- peek (occurs Success);
    _ <-- assert ok;
    n <-- peek (fun r => sample_count tt (exported r));
    assert (1 <=? n)).

Definition failed_dispatch_emits_the_failure_counter : bool :=
  let c := fast_config never_trips in
  let sender _ _ := SentErr (Delivery (lit "503")) in
  passes_on (spawn c (from_secs 5)) (
    e <-- event 1 (lit "billing") 0;
    _ <-- on_store (unwrap (append e));
    _ <-- wait_for c sender one_parked (from_secs 5);
    _ <-- join;
    ok <-- peek (occurs Failed);
    assert ok).

Definition breaker_pause_emits_the_breaker_paused_counter : bool :=
  let c := fast_config (StreakBreaker.mkBreakerConfig 2 (from_millis 250) 1 1) in
  let sender := fails_first 2 in
  passes_on (spawn c (from_secs 12)) (
    a <-- event 1 (lit "orders.a") 0;
    _ <-- on_store (unwrap (append a));
    b <-- event 2 (lit "orders.b") 0;
    _ <-- on_store (unwrap (append b));
    _ <-- wait_for c sender breaker_open (from_secs 5);
    _ <-- sleep c sender (from_millis 60);
    _ <-- wait_for c sender (fun w _ => is_closed (breaker w)) (from_secs 5);
    _ <-- join;
    ok <-- peek (occurs BreakerPaused);
    assert ok).

Definition all : list bool :=
  [breaker_opens_then_half_opens_after_cooldown; open_breaker_does_not_consume_attempts;
   dispatcher_breaker_opens_and_half_opens; success_dispatch_emits_the_success_counter_and_histogram;
   failed_dispatch_emits_the_failure_counter; breaker_pause_emits_the_breaker_paused_counter].

Lemma breaker_tests_pass : forallb id all = true.
Proof. vm_eq. Qed.
End BreakerTests.
