(* ===== verification/IntegrationTests.v ===== *)
(** * The integration tests of [tests/]

    [tests/integration.rs] and [tests/sqlite_outbox.rs], statement by statement,
    through the public surface of the crate.  A temporary directory is a file
    with no tables; a restart reopens it.  The dispatcher is executed by
    [Driver.v]; the test of a tripped breaker is in [BreakerTests.v]. *)

From S2P Require Import Prelude BTree Utf8 Event Truncate Backoff Float HexUuid Store Memory Sql SqlTable Sqlite Metrics Dispatch Driver.
From S2P Require Import Samples Testing DispatchTests.

Import Dispatch DispatchTests.

Module IntegrationTests.

#[local] Existing Instance admits_all.
#[local] Existing Instance Memory.MemoryStore.

(** ** Calls on any store, as the tests make them *)

Section calls.
Context {S : Type} `{OS : !OutboxStore S}.

Definition count (m : M S StoreError Z) (n : Z) : test S := c <-- unwrap m; assert_eq c n.
Definition none_due (limit now : Z) : test S := due <-- unwrap (fetch_due limit now); assert_eq due [].
Definition due_len (limit now n : Z) : test S := due <-- unwrap (fetch_due limit now); assert_eq (len due) n.
Definition sorted_stamps (due : list OutboxEvent) : test S :=
  let stamps := ev_created_at <$> due in assert_eq stamps (sort_by (fun t => t) stamps).

(** The dispatcher on the store at hand, until it is as wished; then
    [shutdown], and [run] returns.  The number of sends. *)
Definition dispatch_until (wished : S -> bool) (c : DispatcherConfig)
    (sender : nat -> OutboxEvent -> sent) : M S panic Z := fun s =>
  match run_until wished (from_secs 5) c sender s tt with
  | (_, Ok out) => (out.1, Ok (len out.2))
  | (_, Err p) => (s, Err p)
  end.

Definition counts (m : M S StoreError Z) (p : Z -> bool) (s : S) : bool :=
  match (m s).2 with Ok n => p n | Err _ => false end.
End calls.

(** ** [tests/integration.rs] *)

Definition append_is_idempotent_on_id_across_dyn_stores : test Memory.Inner :=
  e <-- event 1 (lit "orders") 1000;
  _ <-- unwrap (append e);
  _ <-- unwrap (append e);
  let e := set_attempts 7 e in
  _ <-- unwrap (append e);
  _ <-- count pending_count 1;
  due <-- unwrap (fetch_due 10 2000);
  _ <-- assert_eq (len due) 1;
  assert_eq (ev_attempts <$> head due) (Some 0).

Definition fetch_due_ordering_and_filtering : test Memory.Inner :=
  _ <-- for_each [(1, 3000); (2, 1000); (3, 2000)] (fun p =>
          e <-- event p.1 (lit "orders") p.2; unwrap (append e));
  future <-- event 4 (lit "orders") 9999;
  _ <-- unwrap (append future);
  _ <-- none_due 10 999;
  _ <-- due_len 10 1000 1;
  due <-- unwrap (fetch_due 10 3000);
  _ <-- assert_eq (len due) 3;
  _ <-- sorted_stamps due;
  first <-- some (head due);
  _ <-- unwrap (mark_failed (ev_id first) (lit "parked") NEVER);
  _ <-- due_len 10 3000 2;
  _ <-- count pending_count 3;
  count parked_count 1.

Definition decimal_digit (n : Z) : str := [n + 48].

Definition backoff_schedule_parks_after_max_attempts : test Memory.Inner :=
  let policy := {| base := from_millis 10; factor := f64_two; cap := from_millis 100; max_attempts := 4 |} in
  _ <-- for_each (seqZ 0 40) (fun attempt =>
          _ <-- assert (if attempt =? 0 then 0 <=? exponential_delay policy 0
                        else exponential_delay policy (attempt - 1) <=? exponential_delay policy attempt);
          assert (exponential_delay policy attempt <=? cap policy));
  e <-- event 1 (lit "orders") 1000;
  _ <-- unwrap (append e);
  _ <-- for_each (seqZ 1 4) (fun attempt =>
          let retry_at := if attempt <? 4 then attempt * 10 else NEVER in
          unwrap (mark_failed (ev_id e) (lit "failure " ++ decimal_digit attempt) retry_at));
  _ <-- count pending_count 0;
  _ <-- count parked_count 1;
  assert (is_exhausted policy 4).

Definition parking_config : DispatcherConfig :=
  mkConfig (from_millis 10) default_fetch_batch DEFAULT_CONCURRENCY
    {| base := from_millis 5; factor := f64_two; cap := from_millis 20; max_attempts := 3 |} tt.

Definition dispatcher_parks_event_after_max_failures : test Memory.Inner :=
  e <-- event 1 (lit "orders") 0;
  _ <-- unwrap (append e);
  let sender := static_sender (fun _ => Err (Delivery (lit "down"))) in
  _ <-- dispatch_until (counts parked_count (fun n => 1 <=? n)) parking_config sender;
  _ <-- count pending_count 0;
  count parked_count 1.

Definition dispatcher_defaults_match_documentation : pure_test :=
  let config := default_config in
  _ <-- assert_eq (poll_interval config) DEFAULT_POLL_INTERVAL;
  _ <-- assert_eq (concurrency config) DEFAULT_CONCURRENCY;
  _ <-- assert_eq (fb_max (fetch_batch config)) 100;
  _ <-- assert_eq (fb_min (fetch_batch config)) 10;
  _ <-- assert_eq (fb_park_after (fetch_batch config)) 60;
  _ <-- assert_eq DEFAULT_BATCH_SIZE 100;
  _ <-- assert_eq (base (backoff config)) (base default_policy);
  _ <-- assert_eq (cap (backoff config)) (cap default_policy);
  assert_eq (max_attempts (backoff config)) (max_attempts default_policy).

Definition memory_store_dead_letters_are_a_documented_no_op : test Memory.Inner :=
  e <-- event 1 (lit "orders") 1000;
  _ <-- unwrap (append e);
  _ <-- unwrap (dead_letter test_clock e (lit "rerouted to support"));
  letters <-- unwrap (dead_letters 10);
  _ <-- assert_eq letters [];
  count pending_count 1.

(** [matches!(.., Err(..))] of the two constructors of [EventError]. *)
Definition typed_errors_surface : pure_test :=
  err <-- unwrapped_err (new_nth 1 (lit "BAD TOPIC") []);
  _ <-- assert (match err with EInvalidTopic _ => true | _ => false end);
  err <-- unwrapped_err (event_id_parse (lit "garbage"));
  _ <-- assert (match err with EInvalidId _ => true | _ => false end);
  _ <-- assert_eq (store_error_to_string (fun s => s) (Backend (lit "x"))) (lit "outbox store backend failure: x");
  assert_eq (dispatch_error_to_string (Delivery (lit "y"))) (lit "delivery failed: y").

Definition public_api_smoke : pure_test :=
  let id := now_v7 1 in
  _ <-- assert_eq (len (event_id_to_string id)) 36;
  _ <-- assert_eq NEVER u64_max;
  e <-- unwrapped (new_nth 2 (lit "a.b-c_d9") (lit "x"));
  _ <-- assert_eq (ev_topic e) (lit "a.b-c_d9");
  assert_eq (max_attempts default_policy) 12.

(** ** The same on SQLite *)

Import Sqlite.

Abbreviation db := (Conn Tables).

(** [i.to_le_bytes()] of a small [u32]. *)
Definition small_le_bytes (i : Z) : bytes := [i; 0; 0; 0].

(** The store dropped, and the file opened again. *)
Definition restart : test db := fun c =>
  match Sqlite.open (Ok (mkConn (file_of (tables c)) [])) with
  | Ok c' => (c', Ok tt)
  | Err _ => (c, Err Panicked)
  end.

Definition fast_poll : DispatcherConfig :=
  mkConfig (from_millis 10) default_fetch_batch DEFAULT_CONCURRENCY default_policy tt.

(** Delivered as many as appended: the sends are counted by the driver. *)
Definition end_to_end (topic : str) (n : Z) : test db :=
  _ <-- for_each (seqZ 0 n) (fun i =>
          e <-- event (i + 1) topic 0;
          unwrap (append (set_payload (small_le_bytes i) e)));
  delivered <-- dispatch_until (counts pending_count (fun p => p =? 0)) fast_poll
                  (static_sender (fun _ => Ok tt));
  _ <-- assert_eq delivered n;
  _ <-- count pending_count 0;
  _ <-- restart;
  count pending_count 0.

Definition dispatcher_end_to_end_sqlite_tempdir_shutdown_within_2s : test db :=
  _ <-- end_to_end (lit "orders") 5;
  count parked_count 0.

Definition dispatcher_park_then_operator_dead_letter_flow : test db :=
  e <-- event 1 (lit "orders.order-refused") 0;
  _ <-- unwrap (append e);
  let sender := static_sender (fun _ => Err (Delivery (lit "410 gone"))) in
  _ <-- dispatch_until (counts parked_count (fun n => 1 <=? n)) parking_config sender;
  letters <-- unwrap (dead_letters 10);
  _ <-- assert_eq letters [];
  _ <-- none_due 10 u64_max;
  _ <-- unwrap (dead_letter test_clock e (lit "destination decommissioned 2026-10-03"));
  _ <-- count parked_count 0;
  _ <-- count pending_count 0;
  letters <-- unwrap (dead_letters 10);
  _ <-- assert_eq (len letters) 1;
  letter <-- some (head letters);
  _ <-- assert_eq (ev_id letter.1) (ev_id e);
  _ <-- assert_eq (ev_topic letter.1) (lit "orders.order-refused");
  assert_eq letter.2 (lit "destination decommissioned 2026-10-03").

(** ** [tests/sqlite_outbox.rs] *)

Definition lifecycle_append_due_failed_dispatched : test db :=
  e <-- event 1 (lit "orders.order-placed") 1000;
  _ <-- unwrap (append e);
  _ <-- none_due 10 999;
  due <-- unwrap (fetch_due 10 1000);
  _ <-- assert_eq (len due) 1;
  first <-- some (head due);
  _ <-- assert_eq (ev_id first) (ev_id e);
  _ <-- assert_eq (ev_topic first) (lit "orders.order-placed");
  _ <-- unwrap (mark_failed (ev_id e) (lit "503 service unavailable") 2000);
  _ <-- none_due 10 1999;
  due <-- unwrap (fetch_due 10 2000);
  first <-- some (head due);
  _ <-- assert_eq (ev_attempts first) 1;
  _ <-- assert_eq (ev_last_error first) (Some (lit "503 service unavailable"));
  _ <-- unwrap (mark_dispatched test_clock (ev_id e));
  _ <-- none_due 10 u64_max;
  _ <-- count pending_count 0;
  count parked_count 0.

Definition append_is_idempotent_on_id : test db :=
  e <-- event 1 (lit "payments.settled") 1000;
  _ <-- for_each (seqZ 0 3) (fun _ => unwrap (append e));
  count pending_count 1.

Definition parking_keeps_events_replayable : test db :=
  e <-- event 1 (lit "orders") 1000;
  _ <-- unwrap (append e);
  _ <-- unwrap (mark_failed (ev_id e) (lit "exhausted retries") NEVER);
  _ <-- count pending_count 0;
  _ <-- count parked_count 1;
  _ <-- none_due 10 u64_max;
  _ <-- unwrap (mark_failed (ev_id e) (lit "operator replay") 5000);
  due <-- unwrap (fetch_due 10 5000);
  _ <-- assert_eq (len due) 1;
  first <-- some (head due);
  assert_eq (ev_attempts first) 2.

Definition fetch_due_orders_by_next_attempt_then_id : test db :=
  _ <-- for_each [(1, 4000); (2, 2000); (3, 4000); (4, 3000)] (fun p =>
          e <-- event p.1 (lit "orders") p.2; unwrap (append e));
  due <-- unwrap (fetch_due 10 4000);
  _ <-- assert_eq (len due) 4;
  sorted_stamps due.

Definition events_survive_a_restart_and_replay : test db :=
  first <-- event 1 (lit "orders.order-placed") 1000;
  second <-- event 2 (lit "orders.order-placed") 1000;
  _ <-- unwrap (append first);
  _ <-- unwrap (append second);
  _ <-- unwrap (mark_dispatched test_clock (ev_id first));
  _ <-- restart;
  _ <-- count pending_count 1;
  due <-- unwrap (fetch_due 10 2000);
  _ <-- assert_eq (len due) 1;
  _ <-- assert_eq (ev_id <$> head due) (Some (ev_id second));
  count parked_count 0.

Definition dead_letters_survive_a_restart : test db :=
  e <-- event 1 (lit "orders.order-refused") 1000;
  _ <-- unwrap (append e);
  _ <-- unwrap (dead_letter test_clock e (lit "destination decommissioned"));
  _ <-- count pending_count 0;
  _ <-- restart;
  _ <-- count pending_count 0;
  _ <-- count parked_count 0;
  letters <-- unwrap (dead_letters 10);
  _ <-- assert_eq (len letters) 1;
  assert_eq (snd <$> head letters) (Some (lit "destination decommissioned")).

Definition dispatcher_end_to_end_on_sqlite : test db :=
  _ <-- end_to_end (lit "orders.order-placed") 8;
  none_due 10 u64_max.

Definition dispatcher_failure_parks_on_sqlite : test db :=
  e <-- event 1 (lit "orders") 0;
  _ <-- unwrap (append e);
  let sender := static_sender (fun _ => Err (Delivery (lit "down"))) in
  _ <-- dispatch_until (counts parked_count (fun n => 1 <=? n)) parking_config sender;
  count pending_count 0.

(** [message.contains(needle)]. *)
Fixpoint contains (needle s : str) : bool :=
  bool_decide (needle `prefix_of` s) || match s with [] => false | _ :: s => contains needle s end.

(** The row inserted behind the store's back, through [raw_connection]. *)
Definition corrupt_row : Row :=
  mkRow (lit "not-a-uuid") (lit "orders") [0] [0; 0; 0; 0] 0 0 0 None None.

Definition corrupt_state_surfaces_as_backend_error : test db :=
  _ <-- unwrap (update (with_events (insert (r_id corrupt_row) corrupt_row)));
  err <-- unwrap_err (fetch_due 10 1000);
  assert (match err with Backend message => contains (lit "corrupt event id") message | _ => false end).

Definition on_a_fresh_store (t : test db) : bool :=
  match open_in_memory (Ok []) with Ok c => passes_on c t | Err _ => false end.

Definition values : list pure_test :=
  [dispatcher_defaults_match_documentation; typed_errors_surface; public_api_smoke].
Definition in_process : list (test Memory.Inner) :=
  [append_is_idempotent_on_id_across_dyn_stores; fetch_due_ordering_and_filtering;
   backoff_schedule_parks_after_max_attempts; dispatcher_parks_event_after_max_failures;
   memory_store_dead_letters_are_a_documented_no_op].
Definition on_sqlite : list (test db) :=
  [dispatcher_end_to_end_sqlite_tempdir_shutdown_within_2s; dispatcher_park_then_operator_dead_letter_flow;
   lifecycle_append_due_failed_dispatched; append_is_idempotent_on_id; parking_keeps_events_replayable;
   fetch_due_orders_by_next_attempt_then_id; events_survive_a_restart_and_replay; dead_letters_survive_a_restart;
   dispatcher_end_to_end_on_sqlite; dispatcher_failure_parks_on_sqlite; corrupt_state_surfaces_as_backend_error].

Lemma integration_tests_pass :
  forallb passes values = true /\ forallb (passes_on Memory.new) in_process = true /\
  forallb on_a_fresh_store on_sqlite = true.
Proof. split; [vm_eq|]. split; vm_eq. Qed.
End IntegrationTests.
