(* ===== verification/PgIntegrationTests.v ===== *)
(** * The integration tests of [tests/postgres_outbox.rs]

    Without the parts that read the catalogue.  A foreign transaction that holds
    rows is the [locked] set of the tables; racing polls are the sessions of
    [PgSessions.v]. *)

From S2P Require Import Prelude BTree Utf8 Event Truncate Backoff Float HexUuid Store Sql SqlTable Postgres PgSessions Metrics Dispatch Driver.
From S2P Require Import Samples Testing DispatchTests IntegrationTests.

Import Dispatch DispatchTests IntegrationTests Postgres.

Module PgIntegrationTests.

#[local] Existing Instance admits_all.

Abbreviation pg := (Conn Postgres.Tables).

(** [PostgresStore::connect(&url)] to the database the test works on. *)
Definition reconnect : test pg := fun c =>
  match connect (Ok (mkConn (mkDatabase (Some (outbox_events (tables c))) (Some (outbox_dead_letters (tables c)))) [])) with
  | Ok c' => (c', Ok tt)
  | Err _ => (c, Err Panicked)
  end.

Definition row_of (i : EventId) : M pg panic (option Postgres.Row) :=
  peek (fun c => outbox_events (tables c) !! event_id_to_string i).

Definition connect_applies_the_schema_idempotently : test pg :=
  e <-- event 1 (lit "orders") 1000;
  _ <-- unwrap (append e);
  _ <-- reconnect;
  count pending_count 1.

Definition lifecycle_append_due_failed_dispatched : test pg :=
  e <-- event 1 (lit "orders.order-placed") 1000;
  _ <-- unwrap (append e);
  _ <-- none_due 10 999;
  due <-- unwrap (fetch_due 10 1000);
  _ <-- assert_eq (len due) 1;
  first <-- some (head due);
  _ <-- assert_eq (ev_id first) (ev_id e);
  _ <-- assert_eq (ev_topic first) (lit "orders.order-placed");
  _ <-- unwrap (mark_failed (ev_id e) (lit "503 service unavailable") 2000);
  _ <-- none_due 10 1999;
  due <-- unwrap (fetch_due 10 2000);
  first <-- some (head due);
  _ <-- assert_eq (ev_attempts first) 1;
  _ <-- assert_eq (ev_last_error first) (Some (lit "503 service unavailable"));
  _ <-- unwrap (mark_dispatched test_clock (ev_id e));
  _ <-- none_due 10 u64_max;
  _ <-- count pending_count 0;
  row <-- row_of (ev_id e);
  row <-- some row;
  _ <-- assert_eq (r_status row) Dispatched;
  assert (bool_decide (is_Some (r_dispatched_at row))).

Definition parking_and_operator_replay : test pg :=
  e <-- event 1 (lit "orders") 1000;
  _ <-- unwrap (append e);
  _ <-- unwrap (mark_failed (ev_id e) (lit "exhausted retries") NEVER);
  _ <-- count pending_count 0;
  _ <-- count parked_count 1;
  _ <-- none_due 10 u64_max;
  _ <-- unwrap (mark_failed (ev_id e) (lit "operator replay") 5000);
  _ <-- count parked_count 0;
  due <-- unwrap (fetch_due 10 5000);
  _ <-- assert_eq (len due) 1;
  first <-- some (head due);
  assert_eq (ev_attempts first) 2.

Definition append_is_idempotent_and_headers_round_trip : test pg :=
  e <-- event 1 (lit "payments.settled") 1000;
  let e := insert_header (lit "trace") (lit "t-1") e in
  _ <-- for_each (seqZ 0 3) (fun _ => unwrap (append e));
  _ <-- count pending_count 1;
  due <-- unwrap (fetch_due 10 1000);
  assert_eq (ev_headers <$> head due) (Some (ev_headers e)).

(** [n] events due at once. *)
Definition backlog (n : Z) : test pg :=
  for_each (seqZ 0 n) (fun i =>
    e <-- event (i + 1) (lit "orders") 0;
    unwrap (append (set_payload (small_le_bytes i) e))).

(** The rows a foreign transaction takes, and gives back. *)
Definition hold (ids : gset str) : test pg := fun c =>
  (mkConn (PgSessions.with_locks ids (tables c)) (script c), Ok tt).

Definition ids_of (due : list OutboxEvent) : list str := (fun e => event_id_to_string (ev_id e)) <$> due.

Definition claim_skips_rows_locked_by_another_poller : test pg :=
  _ <-- backlog 40;
  slow <-- peek (fun c => r_id <$> select (fun r => r_status r = Pending) row_order 10 (outbox_events (tables c)));
  _ <-- assert_eq (len slow) 10;
  _ <-- hold (list_to_set slow);
  claimed <-- unwrap (fetch_due 100 u64_max);
  _ <-- assert_eq (len claimed) 30;
  _ <-- for_each slow (fun i => assert (negb (bool_decide (i ∈ ids_of claimed))));
  _ <-- hold ∅;
  reclaimed <-- unwrap (fetch_due 100 u64_max);
  _ <-- assert_eq (len reclaimed) 40;
  for_each slow (fun i => assert (bool_decide (i ∈ ids_of reclaimed))).

Definition dead_letter_moves_the_event_out_of_the_dispatch_path : test pg :=
  e <-- event 1 (lit "orders") 1000;
  let e := set_attempts 3 (insert_header (lit "trace") (lit "t-9") e) in
  _ <-- unwrap (append e);
  _ <-- unwrap (mark_failed (ev_id e) (lit "parked first") NEVER);
  _ <-- unwrap (dead_letter test_clock e (lit "queue does not exist; rerouted to support"));
  _ <-- count pending_count 0;
  _ <-- count parked_count 0;
  _ <-- none_due 10 u64_max;
  letters <-- unwrap (dead_letters 10);
  _ <-- assert_eq (len letters) 1;
  letter <-- some (head letters);
  _ <-- assert_eq (ev_id letter.1) (ev_id e);
  _ <-- assert_eq (ev_headers letter.1) (ev_headers e);
  _ <-- assert_eq (ev_attempts letter.1) 3;
  _ <-- assert_eq letter.2 (lit "queue does not exist; rerouted to support");
  _ <-- unwrap (dead_letter test_clock e (lit "second take"));
  letters <-- unwrap (dead_letters 10);
  _ <-- assert_eq (len letters) 1;
  assert_eq (snd <$> head letters) (Some (lit "second take")).

Definition invalid_topics_are_rejected_on_both_write_paths : test pg :=
  e <-- event 1 (lit "orders") 1000;
  let e := set_topic (lit "BAD") e in
  err <-- unwrap_err (append e);
  _ <-- assert_eq err (InvalidTopic (lit "BAD"));
  err <-- unwrap_err (dead_letter test_clock e (lit "nope"));
  _ <-- assert_eq err (InvalidTopic (lit "BAD"));
  _ <-- count pending_count 0;
  letters <-- unwrap (dead_letters 10);
  assert_eq letters [].

Definition dispatcher_end_to_end_on_postgres : test pg :=
  _ <-- for_each (seqZ 0 8) (fun i =>
          e <-- event (i + 1) (lit "orders.order-placed") 0;
          unwrap (append (set_payload (small_le_bytes i) e)));
  delivered <-- dispatch_until (counts pending_count (fun p => p =? 0)) fast_poll
                  (static_sender (fun _ => Ok tt));
  _ <-- assert_eq delivered 8;
  count pending_count 0.

Definition connected (t : test pg) : bool :=
  match connect (Ok (mkConn (mkDatabase None None) [])) with Ok c => passes_on c t | Err _ => false end.

Definition all : list (test pg) :=
  [connect_applies_the_schema_idempotently; lifecycle_append_due_failed_dispatched; parking_and_operator_replay;
   append_is_idempotent_and_headers_round_trip; claim_skips_rows_locked_by_another_poller;
   dead_letter_moves_the_event_out_of_the_dispatch_path; invalid_topics_are_rejected_on_both_write_paths;
   dispatcher_end_to_end_on_postgres].

Lemma pg_integration_tests_pass : forallb connected all = true.
Proof. vm_eq. Qed.

(** ** [four_racing_pollers_make_progress_without_deadlock]

    Four polls of 60 on a backlog of 200.  When each selects before any of the
    others commits, the last one finds 20 rows left, not the 60 the test
    asserts; the test passes only on schedules in which a claim has ended. *)

Import PgSessions.

Definition backlog_of (n : Z) : Tables :=
  match backlog n (mkConn (mkTables ∅ ∅ ∅) []) with (c, _) => tables c end.

Definition batch : call := CFetchDue 60 u64_max.
Definition polled_by (s : nat) (C : Server) : Server :=
  let C1 := moved s (Called batch) C in
  moved s (Selected 60 u64_max (fetch_due_rows (clamp_i64 u64_max) (i64_try_from_or_max 60)
    (with_locks (others row_locks s (sessions C1)) (committed C1)))) C1.
Definition racing : Server := polled_by 3 (polled_by 2 (polled_by 1 (polled_by 0 (server_start (backlog_of 200))))).
Definition batch_of (s : nat) (C : Server) : Z :=
  match session_of s C with Selected _ _ rows => len rows | _ => 0 end.

Lemma polled_by_runs s C h D :
  session_of s C = Idle -> runs server_step (polled_by s C) h D -> runs server_step C (Invoke s batch :: h) D.
Proof.
  intros Hs HD. apply (runs_cons _ _ (Some (Invoke s batch)) (moved s (Called batch) C)); [by apply sv_invoke|].
  apply (runs_cons _ _ None (polled_by s C)); [|done].
  apply (sv_select s 60 u64_max). unfold session_of. cbn. by rewrite lookup_insert_eq.
Qed.

(** The schedule is a run of the server; its polls get 60, 60, 60 and 20 rows. *)
Lemma racing_runs :
  runs server_step (server_start (backlog_of 200)) ((fun s => Invoke s batch) <$> [0%nat; 1%nat; 2%nat; 3%nat]) racing.
Proof. repeat (apply polled_by_runs; [reflexivity|]). apply runs_nil. Qed.

Lemma racing_batches : (fun s => batch_of s racing) <$> [0%nat; 1%nat; 2%nat; 3%nat] = [60; 60; 60; 20].
Proof. vm_eq. Qed.

End PgIntegrationTests.
