(* ===== verification/UnitTests.v ===== *)
(** * The tests pass

    Every translated test of [src/src] and of [tests/], run on the model. *)

From S2P Require Import Prelude Event Store Memory Testing CoreTests MemoryTests SqliteTests PostgresTests DispatchTests.
From S2P Require Import IntegrationTests PgIntegrationTests BreakerTests.

(** The program's own expectations hold of the model: each translated
    [#[test]] of the data modules, of [MemoryStore], of [SqliteStore], of the
    Postgres helpers and of the dispatcher passes, and so do the integration
    tests on the in-process store, on SQLite across restarts, and on Postgres,
    those of a tripped breaker and of the exported metrics on a breaker with the
    documented behaviour, and the property test over its whole range. *)
Lemma unit_tests_pass :
  forallb passes core_tests = true /\
  forallb (passes_on Memory.new) MemoryTests.all = true /\
  forallb SqliteTests.runs SqliteTests.all = true /\
  forallb passes PostgresTests.all = true /\
  forallb passes DispatchTests.all = true /\
  (forallb passes IntegrationTests.values = true /\
   forallb (passes_on Memory.new) IntegrationTests.in_process = true /\
   forallb IntegrationTests.on_a_fresh_store IntegrationTests.on_sqlite = true) /\
  forallb PgIntegrationTests.connected PgIntegrationTests.all = true /\
  forallb id BreakerTests.all = true /\ BackoffTests.property_holds = true.
Proof.
  split; [exact core_tests_pass|]. split; [exact MemoryTests.memory_tests_pass|].
  split; [exact SqliteTests.sqlite_tests_pass|]. split; [exact PostgresTests.postgres_tests_pass|].
  split; [exact DispatchTests.dispatch_tests_pass|].
  split; [exact IntegrationTests.integration_tests_pass|]. split; [exact PgIntegrationTests.pg_integration_tests_pass|].
  split; [exact BreakerTests.breaker_tests_pass|exact BackoffTests.property_test_passes].
Qed.
